(* ===== verification/_CoqProject ===== *)
-Q . S2P
Prelude.v
Text.v
FreeList.v
Arena.v
Objects.v
Rights.v
Capability.v
CapTable.v
CapTree.v
CapShape.v
CapProofs.v
CapSpec.v
Ipc.v
IpcProofs.v
HalCpu.v
HalIrq.v
Timer.v
SchedQueue.v
Sched.v
SchedProofs.v
QemuCpu.v
Asm.v
Gic.v
Console.v
Mmu.v
TestHal.v
Board.v
Vectors.v
Boot.v
KernelMain.v
VirtBus.v
Reset.v
SchedSafety.v
KernelSpec.v
System.v
Demo.v
Types.v
Testing.v
ObjTests.v
TableTests.v
IpcTests.v
TimerTests.v
SchedTests.v
FakeTests.v
UnitTests.v
