(* ===== verification/Prelude.v ===== *)
(** * Tyrne: a verification development

    Tyrne is a capability-based microkernel in Rust ([src/]). A task names kernel
    objects (tasks, endpoints, notifications, kept in generational arenas) only
    through capabilities in its capability table; tasks exchange messages, and
    capabilities with them, over endpoints; a cooperative scheduler runs them; a
    board support package for QEMU's [virt] machine drives the core, the timer, the
    interrupt controller and the console, takes exceptions, and boots a demo of
    three tasks from the reset vector. This library models that code, its assembly
    included, as executable functions and proves it correct.

    ** Files and the code they model

    - [Prelude]: machine integers, arrays, singly linked lists in arrays, the
      monad [M S E A] of code that mutates a state, fails or panics, tactics.
      [Text]: the part of [core::fmt] the kernel's messages use. [Testing]: the
      harness of the unit tests.
    - [FreeList]: the free list threaded through an array of slots, shared by the
      arena and the capability table (class [SlotLike]).
    - [Arena] ([kernel/src/obj/arena.rs]): the generational arena.
    - [Objects] ([kernel/src/obj/]): tasks, endpoints, notifications.
    - [Rights], [Capability] ([kernel/src/cap/rights.rs], [cap/mod.rs]).
    - [CapTable] ([kernel/src/cap/table.rs]): the capability table: 64 slots, a free
      list, and a derivation tree in the [parent], [first_child] and
      [next_sibling] fields. [CapTree], [CapShape] and [CapProofs] are its proofs:
      the tree as a forest, the slots, and each operation. [CapSpec] is its
      abstract contract, a finite map from live handles to nodes, and the
      refinement.
    - [Ipc], [IpcProofs] ([kernel/src/ipc/mod.rs]): the endpoint state machine and
      [ipc_send], [ipc_recv], [ipc_notify].
    - [HalCpu], [HalIrq], [Timer], [Mmu], [Console] ([hal/src/]): the hardware
      interfaces, as classes of operations and classes of laws; the tick
      arithmetic; mapping flags and frames. [Console] also has the [PL011] driver
      ([bsp-qemu-virt/src/console.rs]).
    - [SchedQueue], [Sched], [SchedProofs], [SchedSafety]
      ([kernel/src/sched/mod.rs]): the ready queue, the scheduler, and the bridge
      functions that combine it with IPC, generic over [Cpu] and [ContextSwitch].
    - [QemuCpu] ([bsp-qemu-virt/src/cpu.rs]): [DAIF] and the context switch, its
      assembly instruction by instruction; proves the laws of [HalCpu].
    - [Gic] ([bsp-qemu-virt/src/gic.rs]): the [GICv2] driver; proves the laws of
      [HalIrq].
    - [TestHal] ([test-hal/src/]): the host fakes; prove the laws of [HalCpu],
      [HalIrq] and [Console]. The memory fake does what [Mmu] documents of [map] and
      [unmap] at page-aligned addresses, and not at others.
    - [Board] ([bsp-qemu-virt/src/cpu.rs], [exceptions.rs]): the timer over the
      system registers, and [irq_entry].
    - [Asm]: assembly sections, laid out as the assembler does. [Vectors]
      ([bsp-qemu-virt/src/vectors.s], [exceptions.rs]): the vector table and its
      trampolines, run instruction by instruction, [TrapFrame] and [panic_entry].
      [Reset] ([bsp-qemu-virt/src/boot.s], [linker.ld]): from the reset vector to
      [kernel_entry].
    - [Boot], [KernelMain] ([bsp-qemu-virt/src/main.rs]): the kernel objects that
      are built at boot; the statics, [kernel_entry] statement by statement, and the
      panic handler. [VirtBus]: a concrete bus with both devices.
    - [Demo] ([bsp-qemu-virt/src/main.rs]): the bodies of the three tasks.
    - [KernelSpec], [System]: the specification of the kernel as its tasks see it,
      the running system with arbitrary tasks, and the refinement between them.
    - [Types]: every operation keeps every field in the range the code relies on.
    - [TableTests], [IpcTests], [SchedTests], [ObjTests], [TimerTests],
      [FakeTests], [UnitTests]: the unit tests of the crates, run on the model.

    ** Conventions

    Definitions keep the names of the code; where two crates use a name twice, a
    prefix tells them apart ([flags_union], [gic_enable]). A function that takes
    [&mut self] is a computation [M State Error Result]; it ends in [Done] ([Ok]),
    [Fail] ([Err]), [Panic] or [Diverge], and [Fail] keeps the state the code
    leaves behind. Every index out of range panics. [debug_assert!] depends on the
    class [BuildProfile]; the theorems hold for both profiles. Integers are [N];
    wrapping, saturation and casts are written where the code has them.

    A function of the bridge that switches to another task returns
    [Switched rest], where [rest] is what remains of the call when its task is
    resumed; the kernel in between is whatever the other tasks make of it. The raw
    pointers of the bridge are fields of the record [Kernel], and the pointer to
    the caller's table is a number, because two tasks may share one.

    How the parts interact: [Ipc] calls [CapTable] and reads the arenas of
    [Objects]; [Sched] calls [Ipc] and the interface of [HalCpu], and is verified
    against its laws, which [QemuCpu] and [TestHal] discharge. [Boot] runs the
    kernel's constructors and [start]; [KernelMain] runs [Boot] and the drivers of
    [Gic], [Console] and [Board]; [Reset] ends in [KernelMain.kernel_entry], and
    [Vectors] calls [Board.irq_entry]. [System] lets any tasks call the bridge, and
    [Demo] the ones of the source.

    ** What the theorems show

    - The kernel ([System], [KernelSpec], [Types]): every execution of the running
      system, whatever its tasks do, is one of the specification; no reachable state
      panics; no task is lost, none is overtaken; registers survive calls;
      messages are neither lost nor duplicated; every index, length and depth stays
      in its range.
    - Capabilities ([CapSpec]): the table refines its contract on every branch;
      from a new table on, whatever is called, authority only shrinks along
      derivation and comes from roots; revocation
      removes exactly the descendants; stale handles stay dead for 2^32 - 1
      operations.
    - Storage ([Arena], [Objects]): the arena is a bounded store with fresh ids; the
      generation bound is tight.
    - IPC ([IpcProofs]): operations are atomic; messages and capabilities are
      conserved; a transferred capability arrives; what is lost if an endpoint is
      destroyed undrained.
    - Scheduling ([SchedQueue], [SchedSafety]): the queue is a FIFO; bridge calls
      never panic and keep the kernel well-formed, before and after a switch;
      blocked receivers are woken; [Deadlock] is exact; a third task can take a
      woken receiver's message.
    - Exceptions ([Vectors]): every exception reaches its handler; an interrupt is
      transparent to the general registers and the stack of the interrupted code,
      and not to its SIMD registers.
    - Hardware ([QemuCpu], [Gic], [Board], [Console], [Timer], [Mmu], [HalIrq]): the
      assembly saves and restores what AAPCS64 asks; the controller's
      initialisation, and that its lines follow the requests; deadlines fire on
      time; [irq_entry]; the console loses nothing; the tick conversions.
    - Boot ([Reset], [KernelMain], [Demo]): [boot.s] reaches [kernel_entry] as it
      expects; [kernel_entry] boots or reports a panic, and misuses no static; the
      demo stalls in the idle task's [WFI], and completes if every [WFI] ends, with
      the exact text on the serial line.
    - [UnitTests] is evidence for the model: the authors' unit tests pass on it.

    ** Fuel and bounds

    [unlink_walk] walks a child list with one step for each of the 64 slots;
    [push_siblings] has the room left in the 64-entry array, which is the bound the
    code checks; [expand] has one round per entry; the refinement theorem shows
    that none of them runs out on a well-formed table. The loops of [Gic.init] have
    [loop_bound], more than the 248 rounds that 1024 lines need
    ([gic_init_quiesces]). The wait of the [PL011] driver takes its fuel as an
    argument, and [uart_sends_every_byte] says how much is enough. [boot_run] runs
    [boot.s] for [boot_steps] instructions, a function of the entry level and the size of [.bss] that
    [reset_boots] proves sufficient. [run_board] makes a number of moves of the
    demo: it is still after 30 when an interrupt never comes, and in its final loop
    after 34 when every [WFI] ends.

    ** Assumptions

    Hardware is a parameter: [GicV2] and [Pl011] state the documented behaviour of
    the registers the drivers use, [Devices] that the two do not disturb each other,
    and [VirtBus] has a concrete instance of all three. The semantics of the
    instructions and system registers the board code uses ([QemuCpu], [Board],
    [Vectors], [Reset]) follow the ARM architecture manual. Compiled Rust code
    called from assembly meets the calling convention ([Aapcs64]). The linker
    script's effect is the predicate [linked_as] on the symbols [boot.s] uses.

    ** Not modelled

    The crate roots and [build.rs] have no behaviour of their own. The mutexes
    around the host fakes' states are taken and released within one call, and
    [captured_str]'s UTF-8 check has no counterpart: what is captured is compared
    as bytes. The [Send] and [Sync] declarations, and the aliasing discipline of the
    raw-pointer bridge, are arguments about Rust references, which the model does
    not have; undefined behaviour of [unsafe] code is modelled as far as indices,
    the statics' initialisation and the registers and memory of the assembly are
    concerned. The text of a panic, which [core] formats, is an argument of the
    panic handler; a panic of the model carries no message, so the five unit tests
    that expect one ([should_panic]) are not among those of [UnitTests]. *)

From stdpp Require Import prelude gmap.
From Stdlib Require Import Lia NArith.

(** ** Machine integers

    Every unsigned Rust integer is an [N]; the width appears where the source
    relies on it: [wrapping_add], [saturating_add] and the casts. *)

Abbreviation u8 := N (only parsing).
Abbreviation u16 := N (only parsing).
Abbreviation u32 := N (only parsing).
Abbreviation u64 := N (only parsing).
Abbreviation usize := N (only parsing).

Definition umax (w : N) : N := (2 ^ w - 1)%N.
Definition wrap (w x : N) : N := (x mod 2 ^ w)%N.
Definition wrapping_add (w x y : N) : N := wrap w (x + y).
Definition wrapping_sub (w x y : N) : N := wrap w (x + 2 ^ w - y).
Definition saturating_add (w x y : N) : N := N.min (x + y) (umax w).
Definition saturating_mul (w x y : N) : N := N.min (x * y) (umax w).
Definition saturating_sub (x y : N) : N := (x - y)%N.
(** [!x] on a [w]-bit word. *)
Definition bitnot (w x : N) : N := N.lxor x (N.ones w).

(** [in_width w x]: [x] is a value of the [w]-bit unsigned type. *)
Definition in_width (w x : N) : Prop := (x < 2 ^ w)%N.

Lemma pow2_pos w : (0 < 2 ^ w)%N.
Proof. apply N.neq_0_lt_0, N.pow_nonzero. lia. Qed.

Lemma wrap_in_width w x : in_width w (wrap w x).
Proof. apply N.mod_lt, N.pow_nonzero. lia. Qed.

Lemma wrap_small w x : in_width w x → wrap w x = x.
Proof. apply N.mod_small. Qed.

Lemma wrapping_add_in_width w x y : in_width w (wrapping_add w x y).
Proof. apply wrap_in_width. Qed.

Lemma wrapping_add_small w x y :
  in_width w (x + y)%N → wrapping_add w x y = (x + y)%N.
Proof. apply wrap_small. Qed.

Lemma wrapping_add_assoc w x y z :
  wrapping_add w (wrapping_add w x y) z = wrapping_add w x (y + z)%N.
Proof.
  unfold wrapping_add, wrap.
  rewrite N.Div0.add_mod_idemp_l. f_equal. lia.
Qed.

(** Adding less than the modulus never comes back to the start: this is what
    makes a bumped generation differ from the one a stale handle carries. *)
Lemma wrapping_add_neq w x d :
  in_width w x → (0 < d < 2 ^ w)%N → wrapping_add w x d ≠ x.
Proof.
  unfold in_width, wrapping_add, wrap. intros Hx Hd Heq.
  destruct (N.lt_ge_cases (x + d) (2 ^ w)) as [Hlt|Hge].
  - rewrite N.mod_small in Heq by done. lia.
  - assert (x + d = 1 * 2 ^ w + (x + d - 2 ^ w))%N as Hsplit by lia.
    rewrite Hsplit, N.add_comm, N.Div0.mod_add, N.mod_small in Heq by lia. lia.
Qed.

(** ... and adding comes back to the start exactly after whole turns. *)
Lemma wrapping_add_id w x d : in_width w x → wrapping_add w x d = x ↔ (d mod 2 ^ w = 0)%N.
Proof.
  intros Hx. pose proof (N.mod_lt d (2 ^ w) ltac:(by apply N.pow_nonzero)) as Hd.
  assert (wrapping_add w x d = wrapping_add w x (d mod 2 ^ w)) as ->.
  { unfold wrapping_add, wrap. by rewrite N.Div0.add_mod_idemp_r. }
  destruct (N.eq_dec (d mod 2 ^ w) 0) as [->|Hne].
  - split; [done|]. intros _. rewrite wrapping_add_small; by rewrite N.add_0_r.
  - split; [|done]. intros Heq. exfalso. revert Heq. apply wrapping_add_neq; [done|].
    split; [by apply N.neq_0_lt_0|exact Hd].
Qed.
(** [in_width] in terms of bits: no bit at or above [w] is set. *)
Lemma in_width_testbit w x : in_width w x ↔ ∀ k, (w ≤ k)%N → N.testbit x k = false.
Proof.
  split.
  - intros Hx k Hk. destruct (N.eq_dec x 0) as [->|Hnz]; [apply N.bits_0|].
    apply N.bits_above_log2. apply N.lt_le_trans with w; [|done].
    by apply N.log2_lt_pow2; [lia|].
  - intros Hbits. unfold in_width. destruct (N.eq_dec x 0) as [->|Hnz]; [apply pow2_pos|].
    apply N.log2_lt_pow2; [lia|]. apply N.nle_gt. intros Hle.
    specialize (Hbits _ Hle). rewrite N.bit_log2 in Hbits by done. done.
Qed.

Lemma lor_in_width w x y : in_width w x → in_width w y → in_width w (N.lor x y).
Proof.
  rewrite !in_width_testbit. intros Hx Hy k Hk. by rewrite N.lor_spec, Hx, Hy.
Qed.

Lemma land_in_width_l w x y : in_width w x → in_width w (N.land x y).
Proof. rewrite !in_width_testbit. intros Hx k Hk. by rewrite N.land_spec, Hx. Qed.

(** ** Arrays

    A Rust array [[T; N]] is a list; an index of machine-integer type reads and
    writes it through [N.to_nat]. Reading out of range gives [None] (the
    callers turn this into a panic or into the [None] of [slice::get]). *)

Definition aget {A} (l : list A) (i : N) : option A := l !! N.to_nat i.
Definition aset {A} (l : list A) (i : N) (x : A) : list A := <[N.to_nat i := x]> l.

Section arrays.
Context {A : Type}.
Implicit Types (l : list A) (i j : N) (x : A).

Lemma aget_aset_eq l i x : is_Some (aget l i) → aget (aset l i x) i = Some x.
Proof. intros ?%lookup_lt_is_Some. by apply list_lookup_insert_eq. Qed.

Lemma aget_aset_ne l i j x : i ≠ j → aget (aset l i x) j = aget l j.
Proof. intros Hij. apply list_lookup_insert_ne. lia. Qed.

Lemma aget_aset l i j x :
  is_Some (aget l i) →
  aget (aset l i x) j = if decide (i = j) then Some x else aget l j.
Proof.
  intros Hi. case_decide as Hij; [subst; by apply aget_aset_eq|by apply aget_aset_ne].
Qed.

Lemma aset_aset l i x y : aset (aset l i x) i y = aset l i y.
Proof. apply list_insert_insert_eq. Qed.

Lemma aset_id l i x : aget l i = Some x → aset l i x = l.
Proof. apply list_insert_id. Qed.

Lemma length_aset l i x : length (aset l i x) = length l.
Proof. apply length_insert. Qed.

Lemma aget_lt l i : is_Some (aget l i) ↔ (i < N.of_nat (length l))%N.
Proof. unfold aget. rewrite lookup_lt_is_Some. lia. Qed.

Lemma aget_Some_lt l i x : aget l i = Some x → (i < N.of_nat (length l))%N.
Proof. intros Hi. apply aget_lt. eauto. Qed.

Lemma aget_replicate n i x :
  aget (replicate n x) i = if decide (i < N.of_nat n)%N then Some x else None.
Proof.
  unfold aget. case_decide.
  - apply lookup_replicate_2. lia.
  - apply lookup_replicate_None. lia.
Qed.

Lemma list_eq_aget (l1 l2 : list A) : (∀ i, aget l1 i = aget l2 i) → l1 = l2.
Proof.
  intros H. apply list_eq. intros i. specialize (H (N.of_nat i)).
  unfold aget in H. by rewrite Nat2N.id in H.
Qed.
End arrays.

(** [core::array::from_fn]. *)
Definition array_from_fn {A} (n : N) (f : N → A) : list A :=
  (λ i, f (N.of_nat i)) <$> seq 0 (N.to_nat n).

Lemma length_array_from_fn {A} n (f : N → A) :
  N.of_nat (length (array_from_fn n f)) = n.
Proof. unfold array_from_fn. rewrite length_fmap, length_seq. lia. Qed.

Lemma aget_array_from_fn {A} n (f : N → A) i :
  aget (array_from_fn n f) i = if decide (i < n)%N then Some (f i) else None.
Proof.
  unfold aget, array_from_fn. rewrite list_lookup_fmap. case_decide.
  - rewrite lookup_seq_lt by lia. simpl. by rewrite N2Nat.id.
  - by rewrite lookup_seq_ge by lia.
Qed.

(** ** Index-linked lists

    The kernel threads its lists through array slots: [linked nx hd l] says
    that following [nx] from [hd] visits exactly [l] and then ends. *)

Fixpoint linked (nx : N → option N) (hd : option N) (l : list N) : Prop :=
  match l with
  | [] => hd = None
  | i :: l' => hd = Some i ∧ linked nx (nx i) l'
  end.

Lemma filter_ne_id (i : N) (l : list N) : i ∉ l → filter (λ j, j ≠ i) l = l.
Proof.
  induction l as [|x l IH]; intros Hi; [done|].
  rewrite filter_cons_True by set_solver. f_equal. apply IH. set_solver.
Qed.

Section linked.
Implicit Types (nx : N → option N) (hd : option N) (l : list N).

Lemma linked_ext nx nx' hd l :
  (∀ i, i ∈ l → nx i = nx' i) → linked nx hd l → linked nx' hd l.
Proof.
  revert hd. induction l as [|i l IH]; intros hd Heq; simpl; [done|].
  intros [-> Hl]. split; [done|]. rewrite <- Heq by set_solver.
  apply IH; [set_solver|done].
Qed.

Lemma linked_unique nx hd l1 l2 : linked nx hd l1 → linked nx hd l2 → l1 = l2.
Proof.
  revert hd l2. induction l1 as [|i l1 IH]; intros hd [|j l2]; simpl.
  - done.
  - intros -> [? _]. done.
  - intros [-> _] ?. done.
  - intros [-> H1] [[= <-] H2]. f_equal. eauto.
Qed.

Lemma linked_suffix nx hd l k : linked nx hd (l ++ k) → ∃ hd', linked nx hd' k.
Proof.
  revert hd. induction l as [|i l IH]; intros hd; simpl; [eauto|].
  intros [_ H]. eauto.
Qed.

Lemma linked_from nx hd l i k : linked nx hd (l ++ i :: k) → linked nx (nx i) k.
Proof. intros [hd' [_ H]]%linked_suffix. done. Qed.

(** A list that ends cannot visit an index twice. *)
Lemma linked_NoDup nx hd l : linked nx hd l → NoDup l.
Proof.
  revert hd. induction l as [|i l IH]; intros hd; simpl; [constructor|].
  intros [-> Hl]. constructor; [|eauto].
  intros (l1 & l2 & ->)%list_elem_of_split.
  assert (l2 = l1 ++ i :: l2) as Hbad.
  { eapply linked_unique; [|done]. by eapply linked_from. }
  apply (f_equal length) in Hbad. rewrite length_app in Hbad. simpl in Hbad. lia.
Qed.

Lemma linked_head nx i l : linked nx (Some i) l → ∃ k, l = i :: k ∧ linked nx (nx i) k.
Proof. destruct l as [|j l]; simpl; [done|]. intros [[= <-] H]. eauto. Qed.

(** The successor in the list is the next link. *)
Lemma linked_next nx hd l i j k : linked nx hd (l ++ i :: j :: k) → nx i = Some j.
Proof. by intros [? _]%linked_from. Qed.

Lemma linked_next_in nx hd l i j :
  linked nx hd l → i ∈ l → nx i = Some j → ∃ l1 l2, l = l1 ++ i :: j :: l2.
Proof.
  intros Hl (l1 & l2 & ->)%list_elem_of_split Hn. apply linked_from in Hl.
  rewrite Hn in Hl. apply linked_head in Hl as (k & -> & _). eauto.
Qed.

(** A node has at most one predecessor. *)
Lemma linked_pred_unique nx hd l i j k :
  linked nx hd l → i ∈ l → j ∈ l → nx i = Some k → nx j = Some k → i = j.
Proof.
  intros Hl Hi Hj Hni Hnj. pose proof (linked_NoDup _ _ _ Hl) as Hnd.
  destruct (linked_next_in _ _ _ _ _ Hl Hi Hni) as (l1 & l2 & E1).
  destruct (linked_next_in _ _ _ _ _ Hl Hj Hnj) as (k1 & k2 & E2).
  assert (S (length l1) = S (length k1)) as Hlen.
  { eapply (NoDup_lookup l _ _ k Hnd).
    - rewrite E1, cons_middle, app_assoc, lookup_app_r; rewrite length_app; simpl; [|lia].
      replace (S (length l1) - (length l1 + 1)) with 0 by lia. done.
    - rewrite E2, cons_middle, app_assoc, lookup_app_r; rewrite length_app; simpl; [|lia].
      replace (S (length k1) - (length k1 + 1)) with 0 by lia. done. }
  rewrite E1 in E2. apply app_inj_1 in E2; [|lia]. naive_solver.
Qed.

Lemma linked_head_no_pred nx hd l i j :
  linked nx hd l → hd = Some i → j ∈ l → nx j ≠ Some i.
Proof.
  intros Hl -> Hj Hn. pose proof (linked_NoDup _ _ _ Hl) as Hnd.
  destruct (linked_next_in _ _ _ _ _ Hl Hj Hn) as (l1 & l2 & E).
  destruct (linked_head _ _ _ Hl) as (k & -> & _).
  apply NoDup_cons in Hnd as [Hni _]. destruct l1; simplify_eq/=; set_solver.
Qed.

(** Redirecting every pointer at [i] to [i]'s successor takes [i] out. *)
Definition bypass (i : N) (next : option N) (o : option N) : option N :=
  if decide (o = Some i) then next else o.

Lemma linked_bypass nx nx' hd l i :
  linked nx hd l → (∀ j, j ∈ l → j ≠ i → nx' j = bypass i (nx i) (nx j)) →
  linked nx' (bypass i (nx i) hd) (filter (λ j, j ≠ i) l).
Proof.
  revert hd. induction l as [|j l IH]; intros hd Hl Hnx.
  - simpl in Hl. subst hd. done.
  - pose proof (linked_NoDup _ _ _ Hl) as [Hj Hnd]%NoDup_cons.
    destruct Hl as [-> Hl]. destruct (decide (j = i)) as [->|Hji].
    + unfold bypass. rewrite decide_True, filter_cons_False by naive_solver.
      assert (filter (λ j, j ≠ i) l = l) as ->.
      { by apply filter_ne_id. }
      eapply linked_ext; [|done]. intros x Hx. rewrite Hnx by set_solver.
      unfold bypass. rewrite decide_False; [done|]. intros Hn.
      destruct (linked_next_in _ _ _ _ _ Hl Hx Hn) as (l1 & l2 & ->). set_solver.
    + rewrite filter_cons_True by done. simpl. split.
      { unfold bypass. rewrite decide_False by congruence. done. }
      rewrite Hnx by set_solver. apply IH; [done|]. set_solver.
Qed.

End linked.

(** ** Results, and code that mutates state, fails or panics

    [result] is Rust's [Result]. [M S E A] is a computation over a mutable
    state [S] with return type [Result<A, E>]: it returns [Ok] ([Done]) or
    [Err] ([Fail]), in both cases with the state as it was left, or it panics,
    or it never returns ([Diverge]). [?] is the monad's bind. *)

Inductive result (A E : Type) :=
  | Ok (a : A)
  | Err (e : E).
Global Arguments Ok {_ _} _.
Global Arguments Err {_ _} _.

Inductive step (S E A : Type) :=
  | Done (a : A) (s : S)
  | Fail (e : E) (s : S)
  | Panic
  | Diverge.
Global Arguments Done {_ _ _} _ _.
Global Arguments Fail {_ _ _} _ _.
Global Arguments Panic {_ _ _}.
Global Arguments Diverge {_ _ _}.

Definition M (S E A : Type) : Type := S → step S E A.

Global Instance M_ret {S E} : MRet (M S E) := λ A a s, Done a s.
Global Instance M_bind {S E} : MBind (M S E) := λ A B f m s,
  match m s with
  | Done a s' => f a s'
  | Fail e s' => Fail e s'
  | Panic => Panic
  | Diverge => Diverge
  end.

Section prims.
Context {S E : Type}.

(** [Err(e)?]. *)
Definition throw {A} (e : E) : M S E A := λ s, Fail e s.
(** [panic!] / [unreachable!] / a failed [assert!]. *)
Definition panic {A} : M S E A := λ _, Panic.
(** [assert!(b)]. *)
Definition assert_ (b : bool) : M S E unit := λ s, if b then Done tt s else Panic.
(** A loop that does not terminate. *)
Definition diverge {A} : M S E A := λ _, Diverge.
Definition gets {A} (f : S → A) : M S E A := λ s, Done (f s) s.
Definition modify (f : S → S) : M S E unit := λ s, Done tt (f s).
(** [Option::ok_or(e)?]. *)
Definition ok_or {A} (e : E) (o : option A) : M S E A :=
  match o with Some a => mret a | None => throw e end.
(** [array[i]]: panics out of range. *)
Definition unwrap_or_panic {A} (o : option A) : M S E A :=
  match o with Some a => mret a | None => panic end.
(** A [Result]-returning query on the state, followed by [?]. *)
Definition try_ {A} (r : result A E) : M S E A :=
  match r with Ok a => mret a | Err e => throw e end.
End prims.

(** [map_err(f)]. *)
Definition map_err {S E E' A} (f : E → E') (m : M S E A) : M S E' A := λ s,
  match m s with
  | Done a s' => Done a s'
  | Fail e s' => Fail (f e) s'
  | Panic => Panic
  | Diverge => Diverge
  end.

(** [unwrap()] of a [Result]: an error is a panic. *)
Definition or_panic {S E E' A} (m : M S E A) : M S E' A := λ s,
  match m s with
  | Done a s' => Done a s'
  | Fail _ _ | Panic => Panic
  | Diverge => Diverge
  end.

(** Run code on a component [T] of a larger state [S]. *)
Definition zoom {S T E A} (get : S → T) (put : T → S → S) (m : M T E A) : M S E A := λ s,
  match m (get s) with
  | Done a t => Done a (put t s)
  | Fail e t => Fail e (put t s)
  | Panic => Panic
  | Diverge => Diverge
  end.

(** Function update. *)
Definition upd {A} (f : N → A) (i : N) (x : A) : N → A := λ j, if decide (j = i) then x else f j.

(** The state a computation leaves, when it returns. *)
Definition final {S E A} (m : M S E A) (s : S) : S :=
  match m s with Done _ s' | Fail _ s' => s' | _ => s end.

(** [.expect(...)] on a call that runs on state [s]: the value and the state;
    [None] is a panic. *)
Definition expect {S E A} (m : M S E A) (s : S) : option (A * S) :=
  match m s with Done a s' => Some (a, s') | _ => None end.

(** [x += y] on a [w]-bit integer: both profiles compile the overflow check. *)
Definition add_assign {S E} (w x y : N) : M S E N :=
  if (x + y <? 2 ^ w)%N then mret (x + y)%N else panic.

(** The build profile: whether [debug_assert!] is compiled in. *)
Class BuildProfile := debug_assertions : bool.

Definition debug_profile : BuildProfile := true.
Definition release_profile : BuildProfile := false.

Definition debug_assert {S E} `{BuildProfile} (b : bool) : M S E unit :=
  if debug_assertions && negb b then panic else mret tt.

(** Run the first part of a computation. *)
Lemma bind_Done {S E A C} (m : M S E A) (f : A → M S E C) s a s' :
  m s = Done a s' → mbind f m s = f a s'.
Proof. unfold mbind, M_bind. by intros ->. Qed.

Lemma debug_assert_true {S E} `{BuildProfile} (s : S) :
  debug_assert (E := E) true s = Done tt s.
Proof. unfold debug_assert. by destruct debug_assertions. Qed.

(** ** Automation *)

Create HintDb tyrne.
#[export] Hint Resolve wrap_in_width wrapping_add_in_width : tyrne.

(** Unfold the monad's plumbing, keeping the operations of the model folded. *)
Ltac monad :=
  unfold mbind, M_bind, mret, M_ret, gets, modify, throw, panic, diverge in *;
  cbn beta iota in *.

(** Case analysis on the scrutinee of the first [match] of the goal. *)
Ltac case_goal :=
  match goal with
  | |- context [ match ?x with _ => _ end ] => destruct x eqn:?
  end.
