(* ===== verification/Text.v ===== *)
(** * Text: the formatting of [core::fmt] that the kernel's messages use

    A string literal is the list of its bytes, which for the sources' literals is
    their UTF-8 encoding; [{}] of an integer is [dec], [{:x}] is [hex], and
    [{:#018x}] is [hex018]. *)

From stdpp Require Import prelude strings pretty.
From Stdlib Require Import Lia NArith Ascii.
From S2P Require Import Prelude.

Definition byte_of_ascii (c : ascii) : u8 := N_of_ascii c.

(** [s.as_bytes()]. *)
Fixpoint bytes_of (s : string) : list u8 :=
  match s with
  | EmptyString => []
  | String c s => byte_of_ascii c :: bytes_of s
  end.

(** The newline, which [writeln!] adds to the last piece of its format. *)
Definition nl : string := String (ascii_of_N 10) EmptyString.

(** [{}]. *)
Definition dec (n : N) : string := pretty n.

(** One hexadecimal digit, and [n] of them. *)
Definition hex_digit (d : N) : ascii :=
  ascii_of_N (if (d <? 10)%N then 48 + d else 87 + d)%N.

Fixpoint hex_digits (n : nat) (v : N) (acc : string) : string :=
  match n with
  | O => acc
  | S n => hex_digits n (v / 16) (String (hex_digit (v mod 16)) acc)
  end.

(** [{:x}]: as many digits as the value needs, at least one. *)
Definition hex (v : N) : string := hex_digits (N.to_nat (N.max 1 ((N.size v + 3) / 4))) v "".

(** [{:#018x}]: 16 digits after the prefix. *)
Definition hex018 (v : u64) : string := ("0x" +:+ hex_digits 16 v "")%string.

(** What [format_args!] holds: the pieces of the format and its arguments. *)
Inductive arg := Lit (s : string) | Dec (n : N) | Hex (n : N).

Definition render (a : arg) : string :=
  match a with Lit s => s | Dec n => dec n | Hex n => hex n end.

Definition fmt (l : list arg) : string := foldr String.append "" (render <$> l).

Lemma bytes_in_width s : Forall (in_width 8) (bytes_of s).
Proof. induction s as [|c s IH]; constructor; [|done]. apply N_ascii_bounded. Qed.

Lemma bytes_of_app s t : bytes_of (s +:+ t) = bytes_of s ++ bytes_of t.
Proof. induction s as [|c s IH]; [done|]. cbn. by rewrite <- IH. Qed.

(** [write!] in pieces writes the pieces' text. *)
Lemma concat_bytes l : concat (bytes_of ∘ render <$> l) = bytes_of (fmt l).
Proof. induction l as [|s l IH]; [done|]. cbn. by rewrite IH, <- bytes_of_app. Qed.

Lemma append_assoc (s t u : string) : (s +:+ t) +:+ u = s +:+ (t +:+ u).
Proof. induction s as [|c s IH]; [done|]. exact (f_equal (String c) IH). Qed.

Lemma fmt_app l1 l2 : fmt (l1 ++ l2) = fmt l1 +:+ fmt l2.
Proof.
  induction l1 as [|a l1 IH]; [done|]. change (fmt ((a :: l1) ++ l2)) with (render a +:+ fmt (l1 ++ l2)).
  change (fmt (a :: l1)) with (render a +:+ fmt l1). by rewrite IH, append_assoc.
Qed.
