(* ===== verification/FreeList.v ===== *)
(** * The embedded free list

    [kernel/src/obj/arena.rs] and [kernel/src/cap/table.rs] store their objects
    the same way: an array of slots, each either populated or on a free list
    threaded through [next_free]. This file states that structure once, for any
    slot type ([SlotLike]), and proves how popping, pushing and in-place updates
    preserve it; the two components instantiate it. *)

From stdpp Require Import prelude.
From Stdlib Require Import Lia NArith.
From S2P Require Import Prelude.

Class SlotLike (A : Type) := {
  slot_free : A → bool;
  slot_next : A → option N;
}.

Section free_list.
Context `{SlotLike A}.
Implicit Types (ss : list A) (s : A) (hd : option N) (fl : list N) (i : N).

Definition next_of ss i : option N := aget ss i ≫= slot_next.

(** [free_list ss hd fl]: from [hd] the [next_free] links visit exactly the
    free slots, in the order [fl]. *)
Definition free_list ss hd fl : Prop :=
  linked (next_of ss) hd fl ∧
  ∀ i, i ∈ fl ↔ ∃ s, aget ss i = Some s ∧ slot_free s = true.

Lemma free_list_unique ss hd fl fl' :
  free_list ss hd fl → free_list ss hd fl' → fl = fl'.
Proof. intros [H1 _] [H2 _]. by eapply linked_unique. Qed.

Lemma next_of_aset ss i j s :
  is_Some (aget ss i) →
  next_of (aset ss i s) j = if decide (i = j) then slot_next s else next_of ss j.
Proof. intros Hi. unfold next_of. rewrite aget_aset by done. by case_decide. Qed.

Lemma free_list_not_in ss hd fl i s :
  free_list ss hd fl → aget ss i = Some s → slot_free s = false → i ∉ fl.
Proof. intros [_ Hin] Hs Hf (s0 & Hs0 & Hf0)%Hin. congruence. Qed.

(** Taking the head out: the popped slot becomes populated. *)
Lemma free_list_pop ss i fl s' :
  free_list ss (Some i) fl → slot_free s' = false →
  ∃ s fl', fl = i :: fl' ∧ aget ss i = Some s ∧ slot_free s = true ∧
           free_list (aset ss i s') (slot_next s) fl'.
Proof.
  intros [Hl Hin] Hs'. pose proof (linked_NoDup _ _ _ Hl) as Hnd.
  destruct (linked_head _ _ _ Hl) as (fl' & -> & Hl').
  destruct (proj1 (Hin i)) as (s & Hs & Hfree); [set_solver|].
  apply NoDup_cons in Hnd as [Hni Hnd].
  exists s, fl'. split_and!; [done..|]. unfold free_list.
  assert (is_Some (aget ss i)) as Hi by eauto.
  assert (next_of ss i = slot_next s) as Hnx by (unfold next_of; by rewrite Hs).
  rewrite Hnx in Hl'. split.
  - eapply linked_ext; [|done]. intros j Hj. rewrite next_of_aset by done.
    case_decide; set_solver.
  - intros j. rewrite aget_aset by done. case_decide as Hij.
    + subst j. split; [done|]. intros (s0 & [= <-] & ?). congruence.
    + rewrite <- Hin. set_solver.
Qed.

(** Putting a populated slot back at the head. *)
Lemma free_list_push ss hd fl i s s' :
  free_list ss hd fl → aget ss i = Some s → slot_free s = false →
  slot_free s' = true → slot_next s' = hd →
  free_list (aset ss i s') (Some i) (i :: fl).
Proof.
  intros Hfl Hs Hpop Hfree Hnx.
  assert (is_Some (aget ss i)) as Hi by eauto.
  assert (i ∉ fl) as Hni by (by eapply free_list_not_in).
  destruct Hfl as [Hl Hin]. split; [split; [done|]|].
  - rewrite next_of_aset, decide_True, Hnx by done.
    eapply linked_ext; [|done]. intros j Hj. rewrite next_of_aset by done.
    case_decide; set_solver.
  - intros j. rewrite aget_aset by done. case_decide as Hij.
    { subst j. split; [eauto|]. set_solver. }
    rewrite <- Hin. set_solver.
Qed.

(** Rewriting a slot without touching its link or its occupancy. *)
Lemma free_list_update ss hd fl i s s' :
  free_list ss hd fl → aget ss i = Some s →
  slot_free s' = slot_free s → slot_next s' = slot_next s →
  free_list (aset ss i s') hd fl.
Proof.
  intros [Hl Hin] Hs Hfree Hnx.
  assert (is_Some (aget ss i)) as Hi by eauto. split.
  - eapply linked_ext; [|done]. intros j _. rewrite next_of_aset by done.
    case_decide; [|done]. subst j. unfold next_of. by rewrite Hs.
  - intros j. rewrite aget_aset by done. case_decide as Hij; [|by rewrite Hin].
    subst j. rewrite Hin, Hs. split; intros (s0 & [= <-] & ?); eexists; (split; [done|congruence]).
Qed.

(** An update of a populated slot that keeps it populated: its link is not
    part of the free list, so it may change. *)
Lemma free_list_live ss hd fl i s s' :
  free_list ss hd fl → aget ss i = Some s →
  slot_free s = false → slot_free s' = false →
  free_list (aset ss i s') hd fl.
Proof.
  intros [Hl Hin] Hs Hf Hf'.
  assert (is_Some (aget ss i)) as Hi by eauto.
  assert (i ∉ fl) as Hni by (rewrite Hin; naive_solver congruence). split.
  - eapply linked_ext; [|done]. intros j Hj. rewrite next_of_aset by done.
    case_decide; set_solver.
  - intros j. rewrite aget_aset by done. case_decide as Hij; [|by rewrite Hin].
    subst j. split; [done|]. intros (s0 & [= <-] & ?). congruence.
Qed.

Lemma free_list_None ss fl i s :
  free_list ss None fl → aget ss i = Some s → slot_free s = false.
Proof.
  intros [Hl Hin] Hs. destruct fl as [|j fl]; [|by destruct Hl].
  destruct (slot_free s) eqn:Hf; [|done].
  assert (i ∈ []) as Hbad by (apply Hin; eauto). by apply not_elem_of_nil in Hbad.
Qed.

Lemma free_list_head ss i fl :
  free_list ss (Some i) fl → ∃ s, aget ss i = Some s ∧ slot_free s = true.
Proof.
  intros [Hl Hin]. destruct (linked_head _ _ _ Hl) as (fl' & -> & _).
  apply Hin. set_solver.
Qed.

Lemma free_list_empty_iff ss hd fl :
  free_list ss hd fl →
  hd = None ↔ ∀ i s, aget ss i = Some s → slot_free s = false.
Proof.
  intros Hfl. split.
  - intros -> i s. by apply free_list_None with fl.
  - intros Hall. destruct hd as [i|]; [|done].
    destruct (free_list_head _ _ _ Hfl) as (s & Hs & Hf).
    apply Hall in Hs. congruence.
Qed.

(** The freshly built array: slot [i] links to [i + 1]. *)
Lemma linked_range ss n k :
  (∀ i, (i < n)%N → next_of ss i = if decide (i + 1 < n)%N then Some (i + 1)%N else None) →
  (N.of_nat k ≤ n)%N →
  linked (next_of ss) (if decide (n - N.of_nat k < n)%N then Some (n - N.of_nat k)%N else None)
    (N.of_nat <$> seq (N.to_nat n - k) k).
Proof.
  intros Hnx. induction k as [|k IH]; intros Hk; simpl.
  - rewrite decide_False by lia. done.
  - rewrite decide_True by lia. split; [f_equal; lia|].
    replace (S (N.to_nat n - S k)) with (N.to_nat n - k) by lia.
    rewrite Hnx by lia.
    replace (N.of_nat (N.to_nat n - S k) + 1)%N with (n - N.of_nat k)%N by lia.
    apply IH. lia.
Qed.

Lemma free_list_fresh n (f : N → A) :
  (∀ i, slot_free (f i) = true) →
  (∀ i, (i < n)%N →
     slot_next (f i) = if decide (i + 1 < n)%N then Some (i + 1)%N else None) →
  free_list (array_from_fn n f) (if decide (0 < n)%N then Some 0%N else None)
    (N.of_nat <$> seq 0 (N.to_nat n)).
Proof.
  intros Hf Hnx. split.
  - pose proof (linked_range (array_from_fn n f) n (N.to_nat n)) as Hl.
    rewrite N2Nat.id, N.sub_diag, Nat.sub_diag in Hl. apply Hl; [|lia].
    intros i Hi. unfold next_of. rewrite aget_array_from_fn, decide_True by done.
    simpl. by apply Hnx.
  - intros i. rewrite list_elem_of_fmap. setoid_rewrite elem_of_seq.
    rewrite aget_array_from_fn. case_decide; split.
    + intros _. eauto.
    + intros _. exists (N.to_nat i). lia.
    + intros (j & -> & Hj). lia.
    + naive_solver.
Qed.
End free_list.
