(* ===== verification/Arena.v ===== *)
(** * [kernel/src/obj/arena.rs]: the generation-tagged arena

    [Arena T] models [Arena<T, N>]; [N] is the length of [slots]. A method that
    returns [Option] is a computation whose [Fail tt] is [None]. The section
    [history] runs sequences of operations, for the claims about ids that have
    been freed. *)

From stdpp Require Import prelude gmap fin_maps.
From Stdlib Require Import Lia NArith.
From S2P Require Import Prelude FreeList.

Abbreviation Index := N (only parsing).
Abbreviation Generation := N (only parsing).

Record SlotId := mkSlotId { index : Index; generation : Generation }.

Global Instance SlotId_eq_dec : EqDecision SlotId.
Proof. solve_decision. Defined.

Global Instance SlotId_countable : Countable SlotId.
Proof.
  apply (inj_countable' (λ id, (index id, generation id)) (λ p, mkSlotId p.1 p.2)).
  by intros [].
Defined.

Record Slot (T : Type) := mkSlot {
  entry : option T;
  slot_generation : Generation;
  next_free : option Index;
}.
Global Arguments mkSlot {_} _ _ _.
Global Arguments entry {_} _.
Global Arguments slot_generation {_} _.
Global Arguments next_free {_} _.

Record Arena (T : Type) := mkArena {
  slots : list (Slot T);
  free_head : option Index;
}.
Global Arguments mkArena {_} _ _.
Global Arguments slots {_} _.
Global Arguments free_head {_} _.

Section arena.
Context {T : Type}.
Implicit Types (a : Arena T) (s : Slot T) (id : SlotId) (v : T) (n : N).

(** [Arena::new]. The [const] assertion [N <= Index::MAX] is checked when the
    code is compiled: an arena with a larger [N] does not exist. *)
Definition new (n : N) : Arena T :=
  mkArena
    (array_from_fn n (λ i,
       let next := wrapping_add 64 i 1 in
       mkSlot None 0%N
         (if decide (next < n)%N then Some (wrap 16 next) else None)))
    (if decide (0 < n)%N then Some 0%N else None).

Definition capacity a : N := N.of_nat (length (slots a)).

Definition allocate `{BuildProfile} (v : T) : M (Arena T) unit SlotId :=
  hd ← gets free_head;
  head ← ok_or tt hd;
  n ← gets capacity;
  debug_assert (bool_decide (head < n)%N);;
  ss ← gets slots;
  slot ← ok_or tt (aget ss head);
  modify (λ _, mkArena (aset ss head (mkSlot (Some v) (slot_generation slot) None))
                       (next_free slot));;
  mret (mkSlotId head (slot_generation slot)).

Definition free (id : SlotId) : M (Arena T) unit T :=
  ss ← gets slots;
  slot ← ok_or tt (aget ss (index id));
  if decide (slot_generation slot ≠ generation id) then throw tt else
  v ← ok_or tt (entry slot);
  hd ← gets free_head;
  modify (λ _, mkArena
    (aset ss (index id)
       (mkSlot None (wrapping_add 32 (slot_generation slot) 1) hd))
    (Some (index id)));;
  mret v.

Definition get a id : option T :=
  slot ← aget (slots a) (index id);
  if decide (slot_generation slot ≠ generation id) then None else entry slot.

(** [get_mut]: the value behind the reference, and the arena after a value
    has been written through it. *)
Definition get_mut a id : option (T * (T → Arena T)) :=
  slot ← aget (slots a) (index id);
  if decide (slot_generation slot ≠ generation id) then None else
  v ← entry slot;
  Some (v, λ v', mkArena
    (aset (slots a) (index id) (mkSlot (Some v') (slot_generation slot) (next_free slot)))
    (free_head a)).

Definition contains a id : bool := bool_decide (is_Some (get a id)).

(** ** Well-formedness *)

Global Instance Slot_like : SlotLike (Slot T) := {|
  slot_free s := match entry s with None => true | Some _ => false end;
  slot_next := next_free;
|}.

Record wf (n : N) (a : Arena T) : Prop := {
  wf_capacity : capacity a = n;
  wf_index : (n ≤ umax 16)%N;
  wf_free : ∃ fl, free_list (slots a) (free_head a) fl;
  wf_generation i s : aget (slots a) i = Some s → in_width 32 (slot_generation s);
  wf_unlinked i s : aget (slots a) i = Some s → is_Some (entry s) → next_free s = None;
}.

(** The live objects, by id: what the arena means to its clients. *)
Definition view a : gmap SlotId T :=
  list_to_map (omap (λ '(i, s), v ← entry s; Some (mkSlotId (N.of_nat i) (slot_generation s), v))
                    (zip (seq 0 (length (slots a))) (slots a))).
End arena.

Section lemmas.
Context {T : Type} `{BuildProfile}.
Implicit Types (a : Arena T) (s : Slot T) (id : SlotId) (v : T) (n : N).

Lemma get_Some a id v :
  get a id = Some v ↔
  ∃ s, aget (slots a) (index id) = Some s ∧ slot_generation s = generation id ∧
       entry s = Some v.
Proof.
  unfold get. destruct (aget (slots a) (index id)) as [s|]; simpl; [|naive_solver].
  case_decide; naive_solver.
Qed.

Lemma elem_of_zip_seq {A} (l : list A) k i x :
  (i, x) ∈ zip (seq k (length l)) l ↔ k ≤ i ∧ l !! (i - k) = Some x.
Proof.
  revert k. induction l as [|y l IH]; intros k; simpl.
  - rewrite lookup_nil. set_solver.
  - rewrite elem_of_cons, IH. destruct (decide (i = k)) as [->|Hne].
    + rewrite Nat.sub_diag. simpl. naive_solver lia.
    + split.
      * intros [?|[Hk Hl]]; [naive_solver|]. split; [lia|].
        replace (i - k) with (S (i - S k)) by lia. done.
      * intros [Hk Hl]. right. split; [lia|].
        replace (i - k) with (S (i - S k)) in Hl by lia. done.
Qed.

Lemma elem_of_view_list a id v :
  (id, v) ∈ omap (λ '(i, s), v ← entry s; Some (mkSlotId (N.of_nat i) (slot_generation s), v))
    (zip (seq 0 (length (slots a))) (slots a)) ↔ get a id = Some v.
Proof.
  rewrite get_Some, list_elem_of_omap. split.
  - intros ([i s] & Hin & Hf). apply elem_of_zip_seq in Hin as [_ Hs].
    destruct (entry s) as [v0|] eqn:He; simplify_eq/=.
    exists s. unfold aget. rewrite Nat2N.id. by rewrite Nat.sub_0_r in Hs.
  - intros (s & Hs & Hg & He). exists (N.to_nat (index id), s). split.
    + apply elem_of_zip_seq. split; [lia|]. by rewrite Nat.sub_0_r.
    + rewrite He. simpl. rewrite Hg, N2Nat.id. by destruct id.
Qed.

Lemma lookup_view a id : view a !! id = get a id.
Proof.
  destruct (view a !! id) as [v|] eqn:Hv.
  - apply elem_of_list_to_map_2, elem_of_view_list in Hv. done.
  - apply not_elem_of_list_to_map_2 in Hv.
    destruct (get a id) as [v|] eqn:Hg; [|done]. destruct Hv.
    apply list_elem_of_fmap. exists (id, v). by rewrite elem_of_view_list.
Qed.

Lemma view_ext a a' : (∀ id, get a id = get a' id) → view a = view a'.
Proof. intros Heq. apply map_eq. intros id. rewrite !lookup_view. done. Qed.

Lemma new_wf n : (n ≤ umax 16)%N → wf n (new n : Arena T).
Proof.
  intros Hn. assert (umax 16 = 65535)%N as Hmax by done. split.
  - apply length_array_from_fn.
  - done.
  - eexists. apply free_list_fresh; [done|]. intros i Hi. simpl.
    assert (2 ^ 16 = 65536)%N as H16 by done.
    assert (2 ^ 64 = 18446744073709551616)%N as H64 by done.
    rewrite wrapping_add_small by (unfold in_width; lia).
    case_decide; [|done]. rewrite wrap_small by (unfold in_width; lia). done.
  - intros i s. simpl. rewrite aget_array_from_fn.
    case_decide; [|done]. intros [= <-]. apply pow2_pos.
  - intros i s. simpl. rewrite aget_array_from_fn.
    case_decide; [|done]. intros [= <-] [? [=]].
Qed.

Lemma view_new n : view (new n : Arena T) = ∅.
Proof.
  apply map_eq. intros id. rewrite lookup_view, lookup_empty.
  unfold get. simpl. rewrite aget_array_from_fn. case_decide; [|done].
  simpl. by case_decide.
Qed.

(** The two outcomes of [allocate] on a well-formed arena. *)
Lemma allocate_None a n v : wf n a → free_head a = None → allocate v a = Fail tt a.
Proof. intros Hwf Hh. unfold allocate. monad. by rewrite Hh. Qed.

Lemma allocate_Some a n v i :
  wf n a → free_head a = Some i →
  ∃ s, aget (slots a) i = Some s ∧ entry s = None ∧
    allocate v a = Done (mkSlotId i (slot_generation s))
      (mkArena (aset (slots a) i (mkSlot (Some v) (slot_generation s) None)) (next_free s)).
Proof.
  intros Hwf Hh. destruct (wf_free _ _ Hwf) as [fl Hfl]. rewrite Hh in Hfl.
  destruct (free_list_head _ _ _ Hfl) as (s & Hs & Hf).
  exists s. split; [done|]. split; [simpl in Hf; by destruct (entry s)|].
  unfold allocate. monad. rewrite Hh. simpl.
  rewrite bool_decide_eq_true_2, debug_assert_true by by eapply aget_Some_lt.
  by rewrite Hs.
Qed.

Lemma get_aset a i s id hd :
  is_Some (aget (slots a) i) →
  get (mkArena (aset (slots a) i s) hd) id =
  if decide (index id = i) then
    if decide (slot_generation s ≠ generation id) then None else entry s
  else get a id.
Proof.
  intros Hi. unfold get. simpl. rewrite aget_aset by done.
  repeat case_decide; simplify_eq; simpl; repeat case_decide; done.
Qed.

Lemma wf_aset a n i s s' hd fl :
  wf n a → aget (slots a) i = Some s →
  free_list (aset (slots a) i s') hd fl →
  in_width 32 (slot_generation s') → (is_Some (entry s') → next_free s' = None) →
  wf n (mkArena (aset (slots a) i s') hd).
Proof.
  intros Hwf Hs Hfl Hg Hl. assert (is_Some (aget (slots a) i)) as Hi by eauto. split.
  - unfold capacity. simpl. rewrite length_aset. apply (wf_capacity _ _ Hwf).
  - apply (wf_index _ _ Hwf).
  - eauto.
  - intros j s0. simpl. rewrite aget_aset by done. case_decide; [naive_solver|].
    apply (wf_generation _ _ Hwf).
  - intros j s0. simpl. rewrite aget_aset by done. case_decide; [naive_solver|].
    apply (wf_unlinked _ _ Hwf).
Qed.

Lemma allocate_wf a n v id a' : wf n a → allocate v a = Done id a' → wf n a'.
Proof.
  intros Hwf Ha. destruct (free_head a) as [i|] eqn:Hh.
  - destruct (allocate_Some a n v i Hwf Hh) as (s & Hs & He & Hd).
    rewrite Hd in Ha. injection Ha as <- <-.
    destruct (wf_free _ _ Hwf) as [fl Hfl]. rewrite Hh in Hfl.
    destruct (free_list_pop _ _ _ (mkSlot (Some v) (slot_generation s) None) Hfl)
      as (s0 & fl' & -> & Hs0 & _ & Hfl'); [done|].
    assert (s0 = s) as -> by congruence.
    eapply wf_aset; [done..| |done]. simpl. by eapply (wf_generation _ _ Hwf).
  - by rewrite (allocate_None a n v Hwf Hh) in Ha.
Qed.

(** [allocate] adds a fresh id and touches nothing else. *)
Lemma allocate_view a n v id a' :
  wf n a → allocate v a = Done id a' →
  view a !! id = None ∧ view a' = <[id := v]> (view a).
Proof.
  intros Hwf Ha. destruct (free_head a) as [i|] eqn:Hh;
    [|by rewrite (allocate_None a n v Hwf Hh) in Ha].
  destruct (allocate_Some a n v i Hwf Hh) as (s & Hs & He & Hd).
  rewrite Hd in Ha. injection Ha as <- <-. split.
  - rewrite lookup_view. unfold get. simpl. rewrite Hs. simpl. by case_decide.
  - apply map_eq. intros id. rewrite lookup_insert, !lookup_view, get_aset by eauto.
    unfold get. destruct id as [i' g']. simpl.
    repeat case_decide; simplify_eq; try done. rewrite Hs. simpl. by case_decide.
Qed.

Lemma allocate_full a n v :
  wf n a →
  allocate v a = Fail tt a ↔
  ∀ i, (i < n)%N → ∃ g w, view a !! mkSlotId i g = Some w.
Proof.
  intros Hwf. destruct (wf_free _ _ Hwf) as [fl Hfl]. split.
  - intros Hf i Hi. destruct (free_head a) as [j|] eqn:Hh.
    { destruct (allocate_Some a n v j Hwf Hh) as (s & _ & _ & Hd). congruence. }
    destruct (proj2 (aget_lt (slots a) i)) as [s Hs].
    { fold (capacity a). by rewrite (wf_capacity _ _ Hwf). }
    pose proof (free_list_None _ _ _ _ Hfl Hs) as Hlive. simpl in Hlive.
    destruct (entry s) as [w|] eqn:He; [|done].
    exists (slot_generation s), w. rewrite lookup_view, get_Some. eauto.
  - intros Hall. apply allocate_None with n; [done|].
    apply (free_list_empty_iff _ _ _ Hfl). intros i s Hs.
    assert (i < n)%N as Hi.
    { rewrite <- (wf_capacity _ _ Hwf). by eapply aget_Some_lt. }
    destruct (Hall i Hi) as (g & w & Hg). rewrite lookup_view in Hg.
    apply get_Some in Hg as (s0 & Hs0 & _ & He). simpl in *.
    assert (s0 = s) as -> by congruence. by rewrite He.
Qed.

(** [allocate] returns on every well-formed arena. *)
Lemma allocate_total a n v :
  wf n a → allocate v a = Fail tt a ∨ ∃ id a', allocate v a = Done id a'.
Proof.
  intros Hwf. destruct (free_head a) as [i|] eqn:Hh.
  - destruct (allocate_Some a n v i Hwf Hh) as (s & _ & _ & Hd). eauto.
  - left. by eapply allocate_None.
Qed.

Lemma free_None a id : get a id = None → free id a = Fail tt a.
Proof.
  unfold free, get. monad. destruct (aget (slots a) (index id)) as [s|]; simpl; [|done].
  case_decide; [done|]. by intros ->.
Qed.

Lemma free_Some a id v :
  get a id = Some v →
  ∃ s, aget (slots a) (index id) = Some s ∧ entry s = Some v ∧
    slot_generation s = generation id ∧
    free id a = Done v (mkArena
      (aset (slots a) (index id)
         (mkSlot None (wrapping_add 32 (slot_generation s) 1) (free_head a)))
      (Some (index id))).
Proof.
  intros (s & Hs & Hg & He)%get_Some. exists s. split_and!; [done..|].
  unfold free. monad. rewrite Hs. simpl. rewrite decide_False by congruence.
  by rewrite He.
Qed.

Lemma free_wf a n id v a' : wf n a → free id a = Done v a' → wf n a'.
Proof.
  intros Hwf Hf. destruct (get a id) as [w|] eqn:Hg;
    [|by rewrite (free_None _ _ Hg) in Hf].
  destruct (free_Some _ _ _ Hg) as (s & Hs & He & _ & Hd).
  rewrite Hd in Hf. injection Hf as <- <-.
  destruct (wf_free _ _ Hwf) as [fl Hfl].
  eapply wf_aset; [done..| | |]; [|apply wrapping_add_in_width|by intros [? [=]]].
  eapply free_list_push; [done..| | |]; simpl; by rewrite ?He.
Qed.

(** [free] removes exactly the id it is given. *)
Lemma free_view a n id :
  wf n a →
  match view a !! id with
  | Some v => ∃ a', free id a = Done v a' ∧ view a' = delete id (view a)
  | None => free id a = Fail tt a
  end.
Proof.
  intros Hwf. rewrite lookup_view. destruct (get a id) as [v|] eqn:Hg; [|by apply free_None].
  destruct (free_Some _ _ _ Hg) as (s & Hs & He & Hgen & Hd).
  eexists. split; [done|]. apply map_eq. intros id'.
  rewrite lookup_delete, !lookup_view, get_aset by eauto.
  destruct id as [i g], id' as [i' g']. simpl in *. unfold get. simpl.
  repeat case_decide; simplify_eq; try done; rewrite Hs; simpl;
    (case_decide; [done|congruence]).
Qed.

Lemma get_mut_None a id : get_mut a id = None ↔ get a id = None.
Proof.
  unfold get_mut, get. destruct (aget (slots a) (index id)) as [s|]; simpl; [|done].
  case_decide; [done|]. by destruct (entry s).
Qed.

Lemma get_mut_Some a id v put :
  get_mut a id = Some (v, put) →
  get a id = Some v ∧ ∃ s, aget (slots a) (index id) = Some s ∧ entry s = Some v ∧
    slot_generation s = generation id ∧
    ∀ v', put v' = mkArena (aset (slots a) (index id)
               (mkSlot (Some v') (slot_generation s) (next_free s))) (free_head a).
Proof.
  unfold get_mut, get. destruct (aget (slots a) (index id)) as [s|] eqn:Hs; simpl; [|done].
  case_decide as Hg; [done|]. destruct (entry s) as [w|] eqn:He; simpl; [|done].
  intros [= <- <-]. split; [done|]. exists s. split_and!; [done|done| |done].
  destruct (decide (slot_generation s = generation id)); [done|]. by destruct Hg.
Qed.

(** Writing through [get_mut] replaces the value at that id only. *)
Lemma get_mut_view a n id v put v' :
  wf n a → get_mut a id = Some (v, put) →
  wf n (put v') ∧ view (put v') = <[id := v']> (view a).
Proof.
  intros Hwf (Hg & s & Hs & He & Hgen & Hput)%get_mut_Some. rewrite Hput. split.
  - destruct (wf_free _ _ Hwf) as [fl Hfl]. eapply wf_aset; [done..| | |].
    + eapply free_list_update; [done..| |]; simpl; by rewrite ?He.
    + simpl. by eapply (wf_generation _ _ Hwf).
    + intros _. simpl. eapply (wf_unlinked _ _ Hwf); [done|]. by rewrite He.
  - apply map_eq. intros id'. rewrite lookup_insert, !lookup_view, get_aset by eauto.
    destruct id as [i g], id' as [i' g']. simpl in *. unfold get. simpl.
    repeat case_decide; simplify_eq; try done. rewrite Hs. simpl.
    case_decide; [done|]. congruence.
Qed.
End lemmas.

(** ** Histories: how long a freed id stays dead *)

Section history.
Context {T : Type} `{BuildProfile}.
Implicit Types (a : Arena T) (id : SlotId) (n : N).

Inductive op :=
  | OpAllocate (v : T)
  | OpFree (id : SlotId)
  | OpWrite (id : SlotId) (v : T)
  | OpGet (id : SlotId).

Inductive reply :=
  | ReplyId (o : option SlotId)
  | ReplyValue (o : option T).

(** One call: its reply and the arena it leaves; [None] if it panics. *)
Definition exec_op (o : op) (a : Arena T) : option (reply * Arena T) :=
  match o with
  | OpAllocate v =>
      match allocate v a with
      | Done id a' => Some (ReplyId (Some id), a')
      | Fail _ a' => Some (ReplyId None, a')
      | _ => None
      end
  | OpFree id =>
      match free id a with
      | Done v a' => Some (ReplyValue (Some v), a')
      | Fail _ a' => Some (ReplyValue None, a')
      | _ => None
      end
  | OpWrite id v =>
      match get_mut a id with
      | Some (w, put) => Some (ReplyValue (Some w), put v)
      | None => Some (ReplyValue None, a)
      end
  | OpGet id => Some (ReplyValue (get a id), a)
  end.

Definition run_op (o : op) (a : Arena T) : option (Arena T) := snd <$> exec_op o a.

(** The arena's contract: a bounded store of objects keyed by id. *)
Inductive store_step (n : N) (m : gmap SlotId T) : op → reply → gmap SlotId T → Prop :=
  | store_allocate v id :
      m !! id = None → store_step n m (OpAllocate v) (ReplyId (Some id)) (<[id := v]> m)
  | store_full v :
      (∀ i, (i < n)%N → ∃ g w, m !! mkSlotId i g = Some w) →
      store_step n m (OpAllocate v) (ReplyId None) m
  | store_free id :
      store_step n m (OpFree id) (ReplyValue (m !! id)) (delete id m)
  | store_write id v :
      store_step n m (OpWrite id v) (ReplyValue (m !! id))
        (match m !! id with Some _ => <[id := v]> m | None => m end)
  | store_get id :
      store_step n m (OpGet id) (ReplyValue (m !! id)) m.

Fixpoint run (os : list op) (a : Arena T) : option (Arena T) :=
  match os with
  | [] => Some a
  | o :: os => a' ← run_op o a; run os a'
  end.

Definition is_free_op (o : op) : bool := match o with OpFree _ => true | _ => false end.

Definition count_frees (os : list op) : N := N.of_nat (length (filter is_free_op os)).

Definition generation_at a (i : N) : option N := slot_generation <$> aget (slots a) i.

Lemma exec_op_store a n o :
  wf n a →
  ∃ r a', exec_op o a = Some (r, a') ∧ wf n a' ∧ store_step n (view a) o r (view a').
Proof.
  intros Hwf. destruct o as [v|id|id v|id]; simpl.
  - destruct (allocate_total a n v Hwf) as [Ha|(id & a' & Ha)]; rewrite Ha.
    + exists (ReplyId None), a. split_and!; [done..|]. constructor.
      by apply (allocate_full a n v Hwf).
    + destruct (allocate_view _ _ _ _ _ Hwf Ha) as [Hnew Hv].
      exists (ReplyId (Some id)), a'. split_and!; [done|by eapply allocate_wf|].
      rewrite Hv. by constructor.
  - pose proof (free_view a n id Hwf) as Hf. pose proof (store_free n (view a) id) as Hs.
    destruct (view a !! id) as [v|] eqn:Hv.
    + destruct Hf as (a' & Hf & Hv'). rewrite Hf. do 2 eexists.
      split_and!; [done|by eapply free_wf|]. by rewrite Hv'.
    + rewrite Hf. do 2 eexists. split_and!; [done..|]. by rewrite delete_id in Hs.
  - pose proof (store_write n (view a) id v) as Hs. rewrite lookup_view in Hs.
    destruct (get_mut a id) as [[w put]|] eqn:Hm.
    + destruct (get_mut_view a n id w put v Hwf Hm) as [? Hv].
      apply get_mut_Some in Hm as [Hg _]. rewrite Hg in Hs.
      do 2 eexists. split_and!; [done..|]. by rewrite Hv.
    + apply get_mut_None in Hm. rewrite Hm in Hs. do 2 eexists. by split_and!.
  - do 2 eexists. split_and!; [done..|]. rewrite <- lookup_view. constructor.
Qed.

Lemma run_op_wf a n o : wf n a → ∃ a', run_op o a = Some a' ∧ wf n a'.
Proof.
  intros Hwf. destruct (exec_op_store a n o Hwf) as (r & a' & Ho & ? & _).
  unfold run_op. rewrite Ho. eauto.
Qed.

Lemma run_wf a n os : wf n a → ∃ a', run os a = Some a' ∧ wf n a'.
Proof.
  revert a. induction os as [|o os IH]; intros a Hwf; simpl; [eauto|].
  destruct (run_op_wf a n o Hwf) as (a1 & -> & Hwf1). simpl. eauto.
Qed.

Lemma generation_at_aset a i s s' hd j :
  aget (slots a) i = Some s → slot_generation s' = slot_generation s →
  generation_at (mkArena (aset (slots a) i s') hd) j = generation_at a j.
Proof.
  intros Hs Hg. unfold generation_at. simpl. rewrite aget_aset by eauto.
  case_decide; [|done]. subst j. rewrite Hs. simpl. by f_equal.
Qed.

(** One call moves a slot's generation on by at most one, and only [free]
    moves it. *)
Lemma run_op_generation a n o i g a' :
  wf n a → generation_at a i = Some g → run_op o a = Some a' →
  ∃ d, generation_at a' i = Some (wrapping_add 32 g d) ∧
       (d ≤ if is_free_op o then 1 else 0)%N.
Proof.
  intros Hwf Hgen Hr.
  assert (in_width 32 g) as Hw.
  { unfold generation_at in Hgen. apply fmap_Some in Hgen as (s & Hs & ->).
    by eapply (wf_generation _ _ Hwf). }
  assert (generation_at a' i = Some g →
    ∃ d, generation_at a' i = Some (wrapping_add 32 g d) ∧
       (d ≤ if is_free_op o then 1 else 0)%N) as Hsame.
  { intros ->. exists 0%N. rewrite wrapping_add_small; rewrite N.add_0_r; [|done].
    split; [done|]. destruct (is_free_op o); lia. }
  unfold run_op in Hr. destruct o as [v|id|id v|id]; simpl in Hr.
  - apply Hsame. destruct (free_head a) as [j|] eqn:Hh.
    + destruct (allocate_Some a n v j Hwf Hh) as (s & Hs & _ & Hd).
      rewrite Hd in Hr. injection Hr as <-. by rewrite (generation_at_aset _ _ s).
    + rewrite (allocate_None a n v Hwf Hh) in Hr. by injection Hr as <-.
  - destruct (get a id) as [v|] eqn:Hg.
    + destruct (free_Some _ _ _ Hg) as (s & Hs & _ & _ & Hd).
      rewrite Hd in Hr. injection Hr as <-. destruct (decide (index id = i)) as [<-|Hne].
      * exists 1%N. unfold generation_at in *. simpl in *. rewrite Hs in Hgen.
        injection Hgen as <-. rewrite aget_aset_eq by eauto. simpl. split; [done|lia].
      * apply Hsame. unfold generation_at in *. simpl. by rewrite aget_aset_ne.
    + rewrite (free_None _ _ Hg) in Hr. injection Hr as <-. auto.
  - apply Hsame. destruct (get_mut a id) as [[w put]|] eqn:Hm; [|by injection Hr as <-].
    apply get_mut_Some in Hm as (_ & s & Hs & _ & _ & Hput). injection Hr as <-.
    rewrite Hput. by rewrite (generation_at_aset _ _ s).
  - apply Hsame. by injection Hr as <-.
Qed.

Lemma run_generation a n os i g a' :
  wf n a → generation_at a i = Some g → run os a = Some a' →
  ∃ d, generation_at a' i = Some (wrapping_add 32 g d) ∧ (d ≤ count_frees os)%N.
Proof.
  revert a g. induction os as [|o os IH]; intros a g Hwf Hg Hr; simpl in Hr.
  - injection Hr as <-. exists 0%N. rewrite wrapping_add_small; rewrite N.add_0_r; [by split|].
    unfold generation_at in Hg. apply fmap_Some in Hg as (s & Hs & ->).
    by eapply (wf_generation _ _ Hwf).
  - destruct (run_op_wf a n o Hwf) as (a1 & Ho & Hwf1). rewrite Ho in Hr. simpl in Hr.
    destruct (run_op_generation a n o i g a1 Hwf Hg Ho) as (d1 & Hg1 & Hd1).
    destruct (IH a1 _ Hwf1 Hg1 Hr) as (d2 & Hg2 & Hd2).
    exists (d1 + d2)%N. rewrite wrapping_add_assoc in Hg2. split; [done|].
    unfold count_frees in *. rewrite filter_cons. destruct (is_free_op o); simpl; lia.
Qed.

(** [k] rounds: what the last allocation returned is freed, and its slot
    allocated again. *)
Fixpoint churn (k : nat) (w : T) (id : SlotId) (a : Arena T) : option (SlotId * Arena T) :=
  match k with
  | O => Some (id, a)
  | S k =>
      match free id a with
      | Done _ a1 => match allocate w a1 with Done id' a2 => churn k w id' a2 | _ => None end
      | _ => None
      end
  end.

(** One round returns the same slot with the next generation. *)
Lemma churn_round a n id v w :
  wf n a → get a id = Some v →
  ∃ a1 a2 id', free id a = Done v a1 ∧ allocate w a1 = Done id' a2 ∧ wf n a2 ∧
    id' = mkSlotId (index id) (wrapping_add 32 (generation id) 1) ∧ get a2 id' = Some w.
Proof.
  intros Hwf Hg. destruct (free_Some _ _ _ Hg) as (s & Hs & _ & Hgen & Hd).
  pose proof (free_wf _ _ _ _ _ Hwf Hd) as Hwf1. rewrite Hgen in *.
  destruct (allocate_Some _ n w (index id) Hwf1 eq_refl) as (s1 & Hs1 & _ & Hd1).
  simpl in Hs1. rewrite aget_aset_eq in Hs1 by eauto. injection Hs1 as <-.
  pose proof (allocate_wf _ _ _ _ _ Hwf1 Hd1) as Hwf2.
  pose proof (allocate_view _ _ _ _ _ Hwf1 Hd1) as [_ Hv2].
  do 3 eexists. split_and!; [done|done|done|done|].
  rewrite <- lookup_view, Hv2. apply lookup_insert_eq.
Qed.

Lemma churn_run k a n id v w :
  wf n a → get a id = Some v → 0 < k →
  ∃ a', churn k w id a =
      Some (mkSlotId (index id) (wrapping_add 32 (generation id) (N.of_nat k)), a') ∧ wf n a' ∧
    get a' (mkSlotId (index id) (wrapping_add 32 (generation id) (N.of_nat k))) = Some w.
Proof.
  revert a id v. induction k as [|k IH]; intros a id v Hwf Hg Hk; [lia|].
  destruct (churn_round a n id v w Hwf Hg) as (a1 & a2 & id' & Hf & Ha & Hwf2 & Hid & Hg2).
  cbn [churn]. rewrite Hf, Ha.
  assert (wrapping_add 32 (generation id) (N.of_nat (S k)) =
    wrapping_add 32 (generation id') (N.of_nat k)) as ->.
  { rewrite Hid. cbn [generation]. rewrite wrapping_add_assoc. f_equal. lia. }
  assert (index id = index id') as -> by (by rewrite Hid).
  destruct k as [|k]; [|apply (IH a2 id' w); [done|done|lia]].
  rewrite wrapping_add_small; rewrite N.add_0_r.
  - assert (mkSlotId (index id') (generation id') = id') as -> by (by destruct id'). by exists a2.
  - rewrite Hid. apply wrapping_add_in_width.
Qed.

(** Two live ids of a slot are the same. *)
Lemma get_generation a id id' v v' :
  get a id = Some v → get a id' = Some v' → index id = index id' → generation id = generation id'.
Proof. intros (s & Hs & <- & _)%get_Some (s' & Hs' & <- & _)%get_Some Hi. congruence. Qed.
End history.

(** ** Properties *)

(** C20: every arena operation, on a well-formed arena of capacity [n], returns
    without panicking, keeps the arena well-formed, and does what the abstract
    store does: [allocate] adds a fresh id or reports that all [n] slots are
    taken, [free] removes exactly its id, a write through [get_mut] replaces
    exactly its id, [get] reads. *)
Theorem arena_refines_store {T} `{BuildProfile} (n : N) (a : Arena T) (o : op) :
  wf n a →
  ∃ r a', exec_op o a = Some (r, a') ∧ wf n a' ∧ store_step n (view a) o r (view a').
Proof. apply exec_op_store. Qed.

Lemma arena_refines_store_witness :
  let _ := debug_profile in
  wf 4 (new 4 : Arena N) ∧
  ∃ r a', exec_op (OpAllocate 7%N) (new 4) = Some (r, a') ∧ wf 4 a' ∧
          store_step 4 (view (new 4)) (OpAllocate 7%N) r (view a').
Proof.
  intros p. assert (wf 4 (new 4 : Arena N)) as Hwf by (apply new_wf; by vm_compute).
  split; [done|]. by apply (arena_refines_store (H := p) 4 (new 4) (OpAllocate 7%N)).
Defined.

(** C33: after [free id], no sequence of arena operations with fewer than
    2^32 - 1 further frees makes [id] resolve again. *)
Theorem freed_id_stays_dead {T} `{BuildProfile} (n : N) (a a1 a2 : Arena T) id v os :
  wf n a → free id a = Done v a1 → run os a1 = Some a2 →
  (count_frees os < 2 ^ 32 - 1)%N → get a2 id = None.
Proof.
  intros Hwf Hf Hr Hc.
  destruct (get a id) as [w|] eqn:Hg; [|by rewrite (free_None _ _ Hg) in Hf].
  destruct (free_Some _ _ _ Hg) as (s & Hs & _ & Hgen & Hd).
  pose proof (free_wf _ _ _ _ _ Hwf Hf) as Hwf1.
  pose proof (wf_generation _ _ Hwf _ _ Hs) as Hw. rewrite Hgen in *.
  rewrite Hd in Hf. injection Hf as <- <-.
  eapply (run_generation _ _ _ (index id) (wrapping_add 32 (generation id) 1))
    in Hr as (d & Hg2 & Hd2); [|done|].
  2:{ unfold generation_at. simpl. by rewrite aget_aset_eq by eauto. }
  rewrite wrapping_add_assoc in Hg2.
  destruct (get a2 id) as [w2|] eqn:Hget; [|done]. exfalso.
  apply get_Some in Hget as (s2 & Hs2 & Hgen2 & _).
  unfold generation_at in Hg2. rewrite Hs2 in Hg2. simpl in Hg2. injection Hg2 as Hg2.
  rewrite Hgen2 in Hg2. symmetry in Hg2. revert Hg2. apply wrapping_add_neq; [done|lia].
Qed.

Lemma freed_id_stays_dead_witness :
  let _ := debug_profile in
  let a : Arena N := final (allocate 5%N) (new 2) in
  let a1 := final (free (mkSlotId 0 0)) a in
  let os := [OpAllocate 6%N; OpFree (mkSlotId 0 1); OpAllocate 8%N] in
  let a2 := default a1 (run os a1) in
  free (mkSlotId 0 0) a = Done 5%N a1 ∧ run os a1 = Some a2 ∧ get a2 (mkSlotId 0 0) = None.
Proof.
  intros p a a1 os a2. split; [by vm_compute|]. split; [by vm_compute|].
  apply (freed_id_stays_dead (H := p) 2 a a1 a2 _ 5%N os); [|by vm_compute..].
  by apply (allocate_wf (new 2) 2 5%N (mkSlotId 0 0)); [apply new_wf|]; vm_compute.
Defined.

(** C34: the bound of [freed_id_stays_dead] is tight, and exact. In any well-formed
    arena in which [id] is live, free its slot and allocate it again [k] times, each
    time freeing the id that the last [allocate] returned. Every round succeeds and
    gets the same slot back; the last id has the generation [k] further, modulo
    2^32; and the first id, freed in the first round, resolves to the new value if
    [k] is a multiple of 2^32, and to nothing otherwise. *)
Theorem id_resurrects_after_wrap {T} `{BuildProfile} (n : N) (a : Arena T) id v w (k : N) :
  wf n a → get a id = Some v → (0 < k)%N →
  ∃ id' a', churn (N.to_nat k) w id a = Some (id', a') ∧ wf n a' ∧
    index id' = index id ∧ generation id' = ((generation id + k) mod 2 ^ 32)%N ∧
    get a' id' = Some w ∧
    get a' id = if decide (k mod 2 ^ 32 = 0)%N then Some w else None.
Proof.
  intros Hwf Hg Hk. destruct (free_Some _ _ _ Hg) as (s & Hs & _ & Hgen & _).
  pose proof (wf_generation _ _ Hwf _ _ Hs) as Hw. rewrite Hgen in Hw.
  destruct (churn_run (N.to_nat k) a n id v w Hwf Hg) as (a' & Hc & Hwf' & Hg'); [lia|].
  rewrite N2Nat.id in Hc, Hg'. eexists _, a'. split; [exact Hc|]. split_and!; [done..|].
  case_decide as Hm; [apply (wrapping_add_id 32 (generation id)) in Hm; [|done]|].
  - rewrite Hm in Hg'. by destruct id.
  - destruct (get a' id) as [u|] eqn:Hu; [|done]. destruct Hm.
    apply (wrapping_add_id 32 (generation id)); [done|]. symmetry.
    by apply (get_generation a' id _ u w Hu Hg').
Qed.

Lemma id_resurrects_after_wrap_witness :
  let _ := release_profile in
  let a : Arena N := final (allocate 1%N) (new 1) in
  get a (mkSlotId 0 0) = Some 1%N ∧
  ∃ id' a', churn (N.to_nat (2 ^ 32)) 2%N (mkSlotId 0 0) a = Some (id', a') ∧ wf 1 a' ∧
    index id' = 0%N ∧ generation id' = ((0 + 2 ^ 32) mod 2 ^ 32)%N ∧ get a' id' = Some 2%N ∧
    get a' (mkSlotId 0 0) = if decide (2 ^ 32 mod 2 ^ 32 = 0)%N then Some 2%N else None.
Proof.
  intros p a. split; [by vm_compute|].
  apply (id_resurrects_after_wrap (H := p) 1 a (mkSlotId 0 0) 1%N 2%N (2 ^ 32)); [|by vm_compute..].
  by apply (allocate_wf (new 1) 1 1%N (mkSlotId 0 0)); [apply new_wf|]; vm_compute.
Defined.
