(* ===== verification/Objects.v ===== *)
(** * [kernel/src/obj]: kernel objects and their typed handles

    The three object kinds ([task.rs], [endpoint.rs], [notification.rs]) over
    the arena of [Arena.v], with the capacities and the error type of
    [obj/mod.rs]. A typed handle is a one-field record around a [SlotId], so the
    kinds cannot be confused in the model either. *)

From stdpp Require Import prelude gmap.
From Stdlib Require Import Lia NArith.
From S2P Require Import Prelude FreeList Arena.

Definition TASK_ARENA_CAPACITY : usize := 16%N.
Definition ENDPOINT_ARENA_CAPACITY : usize := 16%N.
Definition NOTIFICATION_ARENA_CAPACITY : usize := 16%N.

Inductive ObjError := ArenaFull | ObjInvalidHandle | StillReachable.

Global Instance ObjError_eq_dec : EqDecision ObjError.
Proof. solve_decision. Defined.

(** ** Tasks *)

Record Task := new_task { task_id : u32 }.
Record TaskHandle := task_from_slot { task_slot : SlotId }.
Abbreviation TaskArena := (Arena Task).

Global Instance TaskHandle_eq_dec : EqDecision TaskHandle.
Proof. solve_decision. Defined.

Definition create_task `{BuildProfile} (task : Task) : M TaskArena ObjError TaskHandle :=
  id ← map_err (λ _, ArenaFull) (allocate task);
  mret (task_from_slot id).

Definition destroy_task (handle : TaskHandle) : M TaskArena ObjError Task :=
  map_err (λ _, ObjInvalidHandle) (free (task_slot handle)).

Definition get_task (arena : TaskArena) (handle : TaskHandle) : option Task :=
  get arena (task_slot handle).

(** ** Endpoints *)

Record Endpoint := new_endpoint { endpoint_id : u32 }.
Record EndpointHandle := endpoint_from_slot { endpoint_slot : SlotId }.
Abbreviation EndpointArena := (Arena Endpoint).

Global Instance EndpointHandle_eq_dec : EqDecision EndpointHandle.
Proof. solve_decision. Defined.

Definition create_endpoint `{BuildProfile} (endpoint : Endpoint) :
    M EndpointArena ObjError EndpointHandle :=
  id ← map_err (λ _, ArenaFull) (allocate endpoint);
  mret (endpoint_from_slot id).

Definition destroy_endpoint (handle : EndpointHandle) : M EndpointArena ObjError Endpoint :=
  map_err (λ _, ObjInvalidHandle) (free (endpoint_slot handle)).

Definition get_endpoint (arena : EndpointArena) (handle : EndpointHandle) : option Endpoint :=
  get arena (endpoint_slot handle).

(** ** Notifications *)

Record Notification := new_notification { word : u64 }.
Record NotificationHandle := notification_from_slot { notification_slot : SlotId }.
Abbreviation NotificationArena := (Arena Notification).

Global Instance NotificationHandle_eq_dec : EqDecision NotificationHandle.
Proof. solve_decision. Defined.

(** [Notification::set]. *)
Definition set_bits (n : Notification) (bits : u64) : Notification :=
  new_notification (N.lor (word n) bits).

(** [Notification::consume]: the bits that were set, and the cleared object. *)
Definition consume (n : Notification) : u64 * Notification :=
  let current := word n in (current, new_notification 0).

Definition create_notification `{BuildProfile} (notification : Notification) :
    M NotificationArena ObjError NotificationHandle :=
  id ← map_err (λ _, ArenaFull) (allocate notification);
  mret (notification_from_slot id).

Definition destroy_notification (handle : NotificationHandle) :
    M NotificationArena ObjError Notification :=
  map_err (λ _, ObjInvalidHandle) (free (notification_slot handle)).

Definition get_notification (arena : NotificationArena) (handle : NotificationHandle) :
    option Notification :=
  get arena (notification_slot handle).

(** ** The contract of a kind's create / destroy / get functions *)

Section lifecycle.
Context {T H : Type} `{!EqDecision H} (cap : N).
Context (create : T → M (Arena T) ObjError H).
Context (destroy : H → M (Arena T) ObjError T).
Context (get_ : Arena T → H → option T).

(** What the rest of the kernel relies on, for an arena of capacity [cap]:
    a created object is found at its handle until it is destroyed, other
    handles never notice, a handle that names nothing is refused, and a
    failed call leaves the arena as it was. *)
Record lifecycle_ok : Prop := {
  create_ok a v : wf cap a →
    (create v a = Fail ArenaFull a ∧ ∀ i, (i < cap)%N → ∃ g w, get a (mkSlotId i g) = Some w) ∨
    ∃ h a', create v a = Done h a' ∧ wf cap a' ∧ get_ a h = None ∧
      ∀ h', get_ a' h' = if decide (h = h') then Some v else get_ a h';
  destroy_ok a h : wf cap a →
    match get_ a h with
    | None => destroy h a = Fail ObjInvalidHandle a
    | Some v => ∃ a', destroy h a = Done v a' ∧ wf cap a' ∧
        ∀ h', get_ a' h' = if decide (h = h') then None else get_ a h'
    end;
}.
End lifecycle.

Section kinds.
Context `{BuildProfile} {T K : Type} `{!EqDecision K}.
Context (from : SlotId → K) (slot : K → SlotId).
Context (from_slot : ∀ h, from (slot h) = h) (slot_from : ∀ id, slot (from id) = id).

(** All three kinds wrap the arena in the same way. *)
Lemma wrapped_lifecycle cap :
  lifecycle_ok (T := T) cap
    (λ v, id ← map_err (λ _, ArenaFull) (allocate v); mret (from id))
    (λ h, map_err (λ _, ObjInvalidHandle) (free (slot h)))
    (λ a h, get a (slot h)).
Proof.
  split.
  - intros a v Hwf. unfold map_err. monad.
    destruct (allocate_total a cap v Hwf) as [Ha|(id & a' & Ha)]; rewrite Ha.
    + left. split; [done|]. intros i Hi.
      destruct (proj1 (allocate_full a cap v Hwf) Ha i Hi) as (g & w & Hg).
      rewrite lookup_view in Hg. eauto.
    + right. destruct (allocate_view _ _ _ _ _ Hwf Ha) as [Hnew Hv].
      rewrite lookup_view in Hnew.
      exists (from id), a'. split_and!; [done|by eapply allocate_wf| |].
      { by rewrite slot_from. }
      intros h'. rewrite <- !lookup_view, Hv, lookup_insert.
      repeat case_decide; try done; exfalso; subst; rewrite ?slot_from, ?from_slot in *; done.
  - intros a h Hwf. pose proof (free_view a cap (slot h) Hwf) as Hf.
    rewrite lookup_view in Hf. unfold map_err.
    destruct (get a (slot h)) as [v|]; [|by rewrite Hf].
    destruct Hf as (a' & Hf & Hv). exists a'. rewrite Hf.
    split_and!; [done|by eapply free_wf|].
    intros h'. rewrite <- !lookup_view, Hv, lookup_delete.
    repeat case_decide; try done; exfalso; subst; [|done].
    match goal with Hs : slot _ = slot _ |- _ => apply (f_equal from) in Hs end.
    by rewrite !from_slot in *.
Qed.
End kinds.

(** ** Properties *)

(** C39: tasks, endpoints and notifications have the lifecycle their clients
    rely on: [create_*] fails with [ArenaFull] exactly when every slot is
    occupied and otherwise yields a fresh handle that resolves to the object;
    [destroy_*] returns the object and invalidates only that handle, and
    refuses a stale handle with [InvalidHandle]; failures change nothing. *)
Theorem object_lifecycles `{BuildProfile} :
  lifecycle_ok TASK_ARENA_CAPACITY create_task destroy_task get_task ∧
  lifecycle_ok ENDPOINT_ARENA_CAPACITY create_endpoint destroy_endpoint get_endpoint ∧
  lifecycle_ok NOTIFICATION_ARENA_CAPACITY
    create_notification destroy_notification get_notification.
Proof.
  split_and!.
  - by apply (wrapped_lifecycle task_from_slot task_slot); [intros []|].
  - by apply (wrapped_lifecycle endpoint_from_slot endpoint_slot); [intros []|].
  - by apply (wrapped_lifecycle notification_from_slot notification_slot); [intros []|].
Qed.

(** A notification accumulates every bit set since the last [consume] and
    [consume] hands them over once: folding [set] over any list of words and
    consuming yields their bitwise union with the initial word, the word stays
    a 64-bit value, and a second [consume] yields 0. *)
Lemma notification_accumulates (n : Notification) (bs : list u64) (k : N) :
  let n' := foldl set_bits n bs in
  N.testbit (consume n').1 k = N.testbit (word n) k || existsb (λ b, N.testbit b k) bs ∧
  (consume (consume n').2).1 = 0%N ∧
  (Forall (in_width 64) (word n :: bs) → in_width 64 (word n')).
Proof.
  revert n. induction bs as [|b bs IH]; intros n; simpl.
  - rewrite orb_false_r. split_and!; [done..|]. by intros [? _]%Forall_cons.
  - destruct (IH (set_bits n b)) as (Hb & _ & Hw). split_and!; [|done|].
    + simpl in Hb. rewrite Hb, N.lor_spec, orb_assoc. done.
    + rewrite !Forall_cons. intros (Hn & Hb0 & Hbs). apply Hw.
      constructor; [by apply lor_in_width|done].
Qed.
