(* ===== verification/Rights.v ===== *)
(** * [kernel/src/cap/rights.rs]: the rights bitfield *)

From stdpp Require Import prelude.
From Stdlib Require Import Lia NArith.
From S2P Require Import Prelude.

Record CapRights := mkRights { bits : u32 }.

Global Instance CapRights_eq_dec : EqDecision CapRights.
Proof. solve_decision. Defined.

Definition EMPTY : CapRights := mkRights 0.
Definition DUPLICATE : CapRights := mkRights (N.shiftl 1 0).
Definition DERIVE : CapRights := mkRights (N.shiftl 1 1).
Definition REVOKE : CapRights := mkRights (N.shiftl 1 2).
Definition TRANSFER : CapRights := mkRights (N.shiftl 1 3).
Definition SEND : CapRights := mkRights (N.shiftl 1 4).
Definition RECV : CapRights := mkRights (N.shiftl 1 5).
Definition NOTIFY : CapRights := mkRights (N.shiftl 1 6).

Definition KNOWN_BITS : CapRights := mkRights
  (N.lor (N.lor (N.lor (N.lor (N.lor (N.lor
     (bits DUPLICATE) (bits DERIVE)) (bits REVOKE)) (bits TRANSFER))
     (bits SEND)) (bits RECV)) (bits NOTIFY)).

Definition empty : CapRights := EMPTY.
Definition from_raw (raw : u32) : CapRights := mkRights (N.land raw (bits KNOWN_BITS)).
Definition raw (self : CapRights) : u32 := bits self.
Definition contains (self other : CapRights) : bool :=
  N.eqb (N.land (bits self) (bits other)) (bits other).
Definition union (self other : CapRights) : CapRights :=
  mkRights (N.lor (bits self) (bits other)).
Definition intersection (self other : CapRights) : CapRights :=
  mkRights (N.land (bits self) (bits other)).
Definition difference (self other : CapRights) : CapRights :=
  mkRights (N.land (bits self) (bitnot 32 (bits other))).
Definition is_empty (self : CapRights) : bool := N.eqb (bits self) 0.

(** The operator impls: [|], [&] and [|=]. *)
Definition bitor (self rhs : CapRights) : CapRights := union self rhs.
Definition bitand (self rhs : CapRights) : CapRights := intersection self rhs.
Definition bitor_assign (self rhs : CapRights) : CapRights := bitor self rhs.

Definition rights_wf (r : CapRights) : Prop := in_width 32 (bits r).

(** [has r k]: flag number [k] is set. *)
Definition has (r : CapRights) (k : N) : bool := N.testbit (bits r) k.

Lemma contains_spec r o : contains r o = true ↔ ∀ k, has o k = true → has r k = true.
Proof.
  unfold contains, has. rewrite N.eqb_eq. split.
  - intros Heq k Hk. rewrite <- Heq, N.land_spec in Hk. by apply andb_prop in Hk as [].
  - intros Hsub. apply N.bits_inj. intros k. rewrite N.land_spec.
    specialize (Hsub k). destruct (N.testbit (bits o) k); [|apply andb_false_r].
    by rewrite Hsub.
Qed.

Lemma contains_refl r : contains r r = true.
Proof. by apply contains_spec. Qed.

Lemma contains_trans r1 r2 r3 :
  contains r1 r2 = true → contains r2 r3 = true → contains r1 r3 = true.
Proof. rewrite !contains_spec. auto. Qed.

Lemma contains_antisym r1 r2 :
  contains r1 r2 = true → contains r2 r1 = true → r1 = r2.
Proof.
  rewrite !contains_spec. intros H12 H21. destruct r1 as [b1], r2 as [b2]. f_equal.
  apply N.bits_inj. intros k. specialize (H12 k). specialize (H21 k). unfold has in *.
  simpl in *. destruct (N.testbit b1 k), (N.testbit b2 k); naive_solver.
Qed.

Global Instance contains_preorder : PreOrder (λ o r, contains r o = true).
Proof. split; [exact contains_refl|]. intros x y z ? ?. by eapply contains_trans. Qed.

#[export] Hint Resolve contains_refl : tyrne.

Lemma has_union r o k : has (union r o) k = has r k || has o k.
Proof. apply N.lor_spec. Qed.

Lemma has_intersection r o k : has (intersection r o) k = has r k && has o k.
Proof. apply N.land_spec. Qed.

Lemma has_difference r o k :
  rights_wf r → has (difference r o) k = has r k && negb (has o k).
Proof.
  intros Hr. unfold has, difference, bitnot. simpl.
  rewrite N.land_spec, N.lxor_spec. destruct (N.lt_ge_cases k 32) as [Hk|Hk].
  - rewrite N.ones_spec_low by done. by rewrite xorb_true_r.
  - by rewrite (proj1 (in_width_testbit 32 (bits r)) Hr k Hk).
Qed.

(** ** Properties *)

(** [contains] is exactly the subset test on flags: it is a partial order
    with [EMPTY] below everything, [union] is the least upper bound,
    [intersection] the greatest lower bound, and [difference] clears exactly
    the flags it is given. *)
Theorem rights_lattice (r o x : CapRights) :
  rights_wf r →
  (contains r o = true ↔ ∀ k, has o k = true → has r k = true) ∧
  (contains r o = true → contains o r = true → r = o) ∧
  contains r EMPTY = true ∧
  (contains x (union r o) = true ↔ contains x r = true ∧ contains x o = true) ∧
  (contains (intersection r o) x = true ↔ contains r x = true ∧ contains o x = true) ∧
  (∀ k, has (difference r o) k = has r k && negb (has o k)).
Proof.
  intros Hr. split_and!.
  - apply contains_spec.
  - apply contains_antisym.
  - apply contains_spec. intros k Hk. by destruct k.
  - rewrite !contains_spec. setoid_rewrite has_union. setoid_rewrite orb_true_iff. naive_solver.
  - rewrite !contains_spec. setoid_rewrite has_intersection. setoid_rewrite andb_true_iff.
    naive_solver.
  - intros k. by apply has_difference.
Qed.

Lemma rights_lattice_witness :
  rights_wf (union SEND RECV) ∧
  (contains (union SEND RECV) SEND = true ↔
     ∀ k, has SEND k = true → has (union SEND RECV) k = true) ∧
  (∀ k, has (difference (union SEND RECV) SEND) k =
        has (union SEND RECV) k && negb (has SEND k)).
Proof.
  assert (rights_wf (union SEND RECV)) as Hwf by by vm_compute.
  pose proof (rights_lattice (union SEND RECV) SEND RECV Hwf) as (H1 & _ & _ & _ & _ & H6).
  by split_and!.
Defined.

(** [from_raw] keeps the seven known flags and drops every reserved bit, so
    a word from an untrusted caller can neither carry nor test an unknown
    right; on a word of known bits it is the identity, and the result is always
    contained in [KNOWN_BITS]. *)
Lemma from_raw_masks (w : u32) (k : N) :
  has (from_raw w) k = N.testbit w k && bool_decide (k < 7)%N ∧
  contains KNOWN_BITS (from_raw w) = true ∧
  from_raw (raw (from_raw w)) = from_raw w.
Proof.
  assert (∀ j, has (from_raw w) j = N.testbit w j && bool_decide (j < 7)%N) as Hhas.
  { intros j. change (N.testbit (N.land w (N.ones 7)) j =
                      N.testbit w j && bool_decide (j < 7)%N).
    rewrite N.land_spec. f_equal. case_bool_decide.
    - by apply N.ones_spec_low.
    - apply N.ones_spec_high. lia. }
  split_and!; [done| |].
  - apply contains_spec. intros j. rewrite Hhas, andb_true_iff, bool_decide_eq_true.
    intros [_ Hj]. change (N.testbit (N.ones 7) j = true). by apply N.ones_spec_low.
  - unfold from_raw, raw, bits at 1 3. by rewrite <- N.land_assoc, N.land_diag.
Qed.
