(* ===== verification/Capability.v ===== *)
(** * [kernel/src/cap/mod.rs]: capabilities and their errors *)

From stdpp Require Import prelude.
From Stdlib Require Import NArith.
From S2P Require Import Prelude FreeList Arena Objects Rights.

Inductive CapKind := KindTask | KindEndpoint | KindNotification | KindMemoryRegion.

Inductive CapObject :=
  | ObjTask (h : TaskHandle)
  | ObjEndpoint (h : EndpointHandle)
  | ObjNotification (h : NotificationHandle).

Global Instance CapKind_eq_dec : EqDecision CapKind.
Proof. solve_decision. Defined.
Global Instance CapObject_eq_dec : EqDecision CapObject.
Proof. solve_decision. Defined.

(** [CapObject::kind]. *)
Definition object_kind (o : CapObject) : CapKind :=
  match o with
  | ObjTask _ => KindTask
  | ObjEndpoint _ => KindEndpoint
  | ObjNotification _ => KindNotification
  end.

(** [Capability]: the fields have the names of the accessors. *)
Record Capability := new_capability { rights : CapRights; object : CapObject }.

Global Instance Capability_eq_dec : EqDecision Capability.
Proof. solve_decision. Defined.

(** [Capability::kind]. *)
Definition kind (c : Capability) : CapKind := object_kind (object c).

Inductive CapError :=
  | CapsExhausted
  | InvalidHandle
  | WidenedRights
  | InsufficientRights
  | DerivationTooDeep
  | HasChildren.

Global Instance CapError_eq_dec : EqDecision CapError.
Proof. solve_decision. Defined.
