(* ===== verification/CapTable.v ===== *)
(** * [kernel/src/cap/table.rs]: the capability table

    The slot array with its free list, and the derivation tree threaded through
    the entries ([parent], [first_child], [next_sibling]). A method with
    [&mut self] is a computation over the table; one with [&self] is a function
    of it. The lemmas and the theorems are in [CapTree.v] and [CapProofs.v]. *)

From stdpp Require Import prelude.
From Stdlib Require Import Lia NArith.
From S2P Require Import Prelude FreeList Arena Objects Rights Capability.

Definition CAP_TABLE_CAPACITY : usize := 64%N.
Definition MAX_DERIVATION_DEPTH : usize := 16%N.

Record CapHandle := mkCapHandle { cap_index : u16; cap_generation : u32 }.

Global Instance CapHandle_eq_dec : EqDecision CapHandle.
Proof. solve_decision. Defined.

Record SlotEntry := mkEntry {
  capability : Capability;
  parent : option u16;
  first_child : option u16;
  next_sibling : option u16;
  depth : u8;
}.

Record CapSlot := mkCapSlot {
  cs_entry : option SlotEntry;
  cs_generation : u32;
  cs_next_free : option u16;
}.

Record CapabilityTable := mkTable {
  cslots : list CapSlot;
  cfree_head : option u16;
}.

(** [CapabilityTable::new]. *)
Definition table_new : CapabilityTable :=
  mkTable
    (array_from_fn CAP_TABLE_CAPACITY (λ i,
       let next_idx := wrapping_add 64 i 1 in
       mkCapSlot None 0
         (if decide (next_idx < CAP_TABLE_CAPACITY)%N then Some (wrap 16 next_idx) else None)))
    (Some 0%N).

(** ** Field access

    [self.slots[i]] panics out of range. *)

Abbreviation T := (M CapabilityTable CapError) (only parsing).

Definition slot_at (i : u16) : T CapSlot :=
  ss ← gets cslots; unwrap_or_panic (aget ss i).

Definition entry_at (i : u16) : T (option SlotEntry) :=
  slot ← slot_at i; mret (cs_entry slot).

(** [self.slots[i].entry = e]. *)
Definition put_entry (i : u16) (e : option SlotEntry) : T unit :=
  slot ← slot_at i;
  modify (λ t, mkTable (aset (cslots t) i (mkCapSlot e (cs_generation slot) (cs_next_free slot)))
                       (cfree_head t)).

(** [if let Some(entry) = self.slots[i].entry.as_mut() { *entry = f(entry) }]. *)
Definition update_entry (i : u16) (f : SlotEntry → SlotEntry) : T unit :=
  e ← entry_at i;
  match e with
  | Some e => put_entry i (Some (f e))
  | None => mret tt
  end.

Definition set_first_child (c : option u16) (e : SlotEntry) : SlotEntry :=
  mkEntry (capability e) (parent e) c (next_sibling e) (depth e).

Definition set_next_sibling (c : option u16) (e : SlotEntry) : SlotEntry :=
  mkEntry (capability e) (parent e) (first_child e) c (depth e).

(** ** Internals *)

Definition resolve_handle (t : CapabilityTable) (h : CapHandle) : result u16 CapError :=
  match aget (cslots t) (cap_index h) with
  | None => Err InvalidHandle
  | Some slot =>
      if decide (cs_generation slot ≠ cap_generation h) then Err InvalidHandle else
      match cs_entry slot with
      | None => Err InvalidHandle
      | Some _ => Ok (cap_index h)
      end
  end.

(** [entry_of]: after [resolve_handle] succeeds the slot is in range, so the
    indexing cannot panic. *)
Definition entry_of (t : CapabilityTable) (h : CapHandle) : result SlotEntry CapError :=
  match resolve_handle t h with
  | Err e => Err e
  | Ok i =>
      match aget (cslots t) i ≫= cs_entry with
      | Some e => Ok e
      | None => Err InvalidHandle
      end
  end.

Definition pop_free : T (option u16) :=
  hd ← gets cfree_head;
  match hd with
  | None => mret None
  | Some head =>
      slot ← slot_at head;
      modify (λ t, mkTable (cslots t) (cs_next_free slot));;
      modify (λ t, mkTable (aset (cslots t) head (mkCapSlot (cs_entry slot) (cs_generation slot) None))
                           (cfree_head t));;
      mret (Some head)
  end.

Definition free_slot (i : u16) : T unit :=
  old_free_head ← gets cfree_head;
  modify (λ t, mkTable (cslots t) (Some i));;
  ss ← gets cslots;
  match aget ss i with
  | None => mret tt
  | Some slot =>
      modify (λ t, mkTable (aset ss i (mkCapSlot None (wrapping_add 32 (cs_generation slot) 1)
                                                 old_free_head))
                           (cfree_head t))
  end.

(** The sibling walk of [unlink_from_siblings]. The source loop has no bound of
    its own: a chain with more than [CAP_TABLE_CAPACITY] links revisits a slot,
    so running out of [fuel] is a loop that never ends. *)
Fixpoint unlink_walk (fuel : nat) (cursor : option u16) (i : u16) (next : option u16) : T unit :=
  match cursor with
  | None => throw InvalidHandle
  | Some c =>
      match fuel with
      | O => diverge
      | S fuel =>
          e ← entry_at c;
          let c_next := e ≫= next_sibling in
          if decide (c_next = Some i) then update_entry c (set_next_sibling next)
          else unlink_walk fuel c_next i next
      end
  end.

Definition unlink_from_siblings (i : u16) : T unit :=
  e ← entry_at i;
  e ← ok_or InvalidHandle e;
  match parent e with
  | None => mret tt
  | Some parent_idx =>
      pe ← entry_at parent_idx;
      pe ← ok_or InvalidHandle pe;
      if decide (first_child pe = Some i) then
        update_entry parent_idx (set_first_child (next_sibling e))
      else unlink_walk (N.to_nat CAP_TABLE_CAPACITY) (first_child pe) i (next_sibling e)
  end.

(** ** Public operations *)

Definition insert_root (cap : Capability) : T CapHandle :=
  o ← pop_free;
  index ← ok_or CapsExhausted o;
  slot ← slot_at index;
  put_entry index (Some (mkEntry cap None None None 0));;
  mret (mkCapHandle index (cs_generation slot)).

Definition cap_copy (src : CapHandle) (new_rights : CapRights) : T CapHandle :=
  t ← gets id;
  entry ← try_ (entry_of t src);
  let rights_ := rights (capability entry) in
  let object_ := object (capability entry) in
  let parent_ := parent entry in
  let depth_ := depth entry in
  if negb (contains rights_ DUPLICATE) then throw InsufficientRights else
  if negb (contains rights_ new_rights) then throw WidenedRights else
  o ← pop_free;
  new_index ← ok_or CapsExhausted o;
  slot ← slot_at new_index;
  former_first_child ←
    match parent_ with
    | Some parent_idx =>
        pe ← entry_at parent_idx;
        match pe with
        | Some parent_entry => mret (first_child parent_entry)
        | None => throw InvalidHandle
        end
    | None => mret None
    end;
  put_entry new_index
    (Some (mkEntry (new_capability new_rights object_) parent_ None former_first_child depth_));;
  match parent_ with
  | Some parent_idx => update_entry parent_idx (set_first_child (Some new_index))
  | None => mret tt
  end;;
  mret (mkCapHandle new_index (cs_generation slot)).

Definition cap_derive (src : CapHandle) (new_rights : CapRights) (new_object : CapObject) :
    T CapHandle :=
  t ← gets id;
  entry ← try_ (entry_of t src);
  let rights_ := rights (capability entry) in
  let parent_index := cap_index src in
  let parent_depth := depth entry in
  if negb (contains rights_ DERIVE) then throw InsufficientRights else
  if negb (contains rights_ new_rights) then throw WidenedRights else
  let new_depth_usize := saturating_add 64 parent_depth 1 in
  if decide (MAX_DERIVATION_DEPTH < new_depth_usize)%N then throw DerivationTooDeep else
  let new_depth := wrap 8 new_depth_usize in
  o ← pop_free;
  new_index ← ok_or CapsExhausted o;
  slot ← slot_at new_index;
  pe ← entry_at parent_index;
  former_first_child ←
    match pe with
    | Some parent_entry => mret (first_child parent_entry)
    | None => throw InvalidHandle
    end;
  put_entry new_index
    (Some (mkEntry (new_capability new_rights new_object) (Some parent_index) None
                   former_first_child new_depth));;
  update_entry parent_index (set_first_child (Some new_index));;
  mret (mkCapHandle new_index (cs_generation slot)).

(** The loop of [cap_revoke] that queues a sibling chain. [desc] is
    [descendants[..desc_len]] (the rest of the scratch array is never read) and
    [room] is [CAP_TABLE_CAPACITY - desc_len], so [room = 0] is the bound check
    [desc_len >= CAP_TABLE_CAPACITY] with its [debug_assert!] and [break]. *)
Fixpoint push_siblings `{BuildProfile} (room : nat) (child : option u16) (desc : list u16) :
    T (list u16) :=
  match child with
  | None => mret desc
  | Some c =>
      match room with
      | O => debug_assert false;; mret desc
      | S room =>
          e ← entry_at c;
          push_siblings room (e ≫= next_sibling) (desc ++ [c])
      end
  end.

Definition room_of (desc : list u16) : nat := N.to_nat CAP_TABLE_CAPACITY - length desc.

(** The scan of [cap_revoke]: queue the children of every queued entry.
    [todo] is [CAP_TABLE_CAPACITY - scan]; the queue never outgrows the scratch
    array, so [todo = 0] implies [scan >= desc_len]. *)
Fixpoint expand `{BuildProfile} (todo : nat) (scan : usize) (desc : list u16) : T (list u16) :=
  match todo with
  | O => mret desc
  | S todo =>
      match aget desc scan with
      | None => mret desc
      | Some idx =>
          e ← entry_at idx;
          desc ← push_siblings (room_of desc) (e ≫= first_child) desc;
          expand todo (scan + 1)%N desc
      end
  end.

Fixpoint free_slots (l : list u16) : T unit :=
  match l with
  | [] => mret tt
  | i :: l => free_slot i;; free_slots l
  end.

Definition cap_revoke `{BuildProfile} (src : CapHandle) : T unit :=
  t ← gets id;
  src_index ← try_ (resolve_handle t src);
  e ← entry_at src_index;
  entry ← ok_or InvalidHandle e;
  if negb (contains (rights (capability entry)) REVOKE) then throw InsufficientRights else
  e ← entry_at src_index;
  entry ← ok_or InvalidHandle e;
  desc ← push_siblings (room_of []) (first_child entry) [];
  desc ← expand (N.to_nat CAP_TABLE_CAPACITY) 0 desc;
  free_slots desc;;
  update_entry src_index (set_first_child None).

Definition cap_drop (handle : CapHandle) : T unit :=
  t ← gets id;
  index ← try_ (resolve_handle t handle);
  e ← entry_at index;
  entry ← ok_or InvalidHandle e;
  if decide (is_Some (first_child entry)) then throw HasChildren else
  unlink_from_siblings index;;
  free_slot index.

Definition cap_take (handle : CapHandle) : T Capability :=
  t ← gets id;
  index ← try_ (resolve_handle t handle);
  e ← entry_at index;
  entry ← ok_or InvalidHandle e;
  if decide (is_Some (first_child entry)) then throw HasChildren else
  unlink_from_siblings index;;
  e ← entry_at index;
  put_entry index None;;
  entry ← ok_or InvalidHandle e;
  free_slot index;;
  mret (capability entry).

Definition is_full (t : CapabilityTable) : bool := bool_decide (cfree_head t = None).

Definition lookup_cap (t : CapabilityTable) (h : CapHandle) : result Capability CapError :=
  match entry_of t h with
  | Ok e => Ok (capability e)
  | Err e => Err e
  end.

Definition references_object (t : CapabilityTable) (target : CapObject) : bool :=
  existsb (λ e, bool_decide (object (capability e) = target)) (omap cs_entry (cslots t)).
