(* ===== verification/CapTree.v ===== *)
(** * The derivation forest

    What the links of the capability table mean, independently of the slot
    array: [en i] is the entry at index [i]. [forest en] is the invariant, and
    the lemmas say that adding a root, adding a child, removing a leaf and
    removing a whole subtree keep it. *)

From stdpp Require Import prelude.
From Stdlib Require Import Lia NArith.
From S2P Require Import Prelude FreeList Arena Objects Rights Capability CapTable.

Abbreviation entries := (N → option SlotEntry).

Definition sibling_of (en : entries) (i : N) : option N := en i ≫= next_sibling.

(** [child_of en p c]: the entry at [c] was derived from the one at [p]. *)
Definition child_of (en : entries) (p c : N) : Prop :=
  ∃ ec, en c = Some ec ∧ parent ec = Some p.

(** [kids en e p l]: the sibling chain that starts at [e]'s [first_child] is
    [l], and it holds exactly the children of [p]. *)
Definition kids (en : entries) (p : N) (e : SlotEntry) (l : list N) : Prop :=
  linked (sibling_of en) (first_child e) l ∧ ∀ c, c ∈ l ↔ child_of en p c.

(** How an entry relates to its parent's: a root has depth 0 and no siblings; a
    child is one deeper and has no right its parent lacks. *)
Definition parent_ok (en : entries) (e : SlotEntry) : Prop :=
  match parent e with
  | None => depth e = 0%N ∧ next_sibling e = None
  | Some p => ∃ ep, en p = Some ep ∧ depth e = (depth ep + 1)%N ∧
                    contains (rights (capability ep)) (rights (capability e)) = true
  end.

Record forest (en : entries) : Prop := {
  forest_kids p e : en p = Some e → ∃ l, kids en p e l;
  forest_parent c e : en c = Some e → parent_ok en e;
  forest_depth c e : en c = Some e → (depth e ≤ MAX_DERIVATION_DEPTH)%N;
}.

(** [descends en p c]: [c] was derived from [p] in one or more steps. *)
Inductive descends (en : entries) (p : N) : N → Prop :=
  | descends_child c : child_of en p c → descends en p c
  | descends_step q c : descends en p q → child_of en q c → descends en p c.

Section forest.
Implicit Types (en : entries) (i p q c : N) (e : SlotEntry).

Lemma child_of_unique en p q c : child_of en p c → child_of en q c → p = q.
Proof. intros (e1 & H1 & ?) (e2 & H2 & ?). congruence. Qed.

Lemma child_live en p c : forest en → child_of en p c → is_Some (en p) ∧ is_Some (en c).
Proof.
  intros Hf (ec & Hc & Hp). pose proof (forest_parent _ Hf _ _ Hc) as Hok.
  unfold parent_ok in Hok. rewrite Hp in Hok. destruct Hok as (ep & Hep & _). eauto.
Qed.

Lemma child_depth en p c ep ec :
  forest en → child_of en p c → en p = Some ep → en c = Some ec →
  depth ec = (depth ep + 1)%N.
Proof.
  intros Hf (ec' & Hc & Hp) Hep Hec. assert (ec' = ec) as -> by congruence.
  pose proof (forest_parent _ Hf _ _ Hc) as Hok.
  unfold parent_ok in Hok. rewrite Hp in Hok. destruct Hok as (ep' & Hep' & Hd & _).
  congruence.
Qed.

Lemma descends_live en p c : forest en → descends en p c → is_Some (en p) ∧ is_Some (en c).
Proof.
  intros Hf. induction 1 as [c Hc|q c _ IH Hc]; [by eapply child_live|].
  destruct (child_live _ _ _ Hf Hc). naive_solver.
Qed.

Lemma descends_depth en p c ep ec :
  forest en → descends en p c → en p = Some ep → en c = Some ec → (depth ep < depth ec)%N.
Proof.
  intros Hf Hd. revert ec. induction Hd as [c Hc|q c Hq IH Hc]; intros ec Hep Hec.
  - rewrite (child_depth _ _ _ _ _ Hf Hc Hep Hec). lia.
  - destruct (child_live _ _ _ Hf Hc) as [[eq Heq] _].
    rewrite (child_depth _ _ _ _ _ Hf Hc Heq Hec). specialize (IH _ Hep Heq). lia.
Qed.

Lemma descends_irrefl en p : forest en → ¬ descends en p p.
Proof.
  intros Hf Hd. destruct (descends_live _ _ _ Hf Hd) as [[e He] _].
  pose proof (descends_depth _ _ _ _ _ Hf Hd He He). lia.
Qed.

Lemma child_irrefl en p : forest en → ¬ child_of en p p.
Proof. intros Hf Hc. by eapply (descends_irrefl en p Hf), descends_child. Qed.

(** Authority never grows along the tree. *)
Lemma descends_rights en p c ep ec :
  forest en → descends en p c → en p = Some ep → en c = Some ec →
  contains (rights (capability ep)) (rights (capability ec)) = true.
Proof.
  intros Hf Hd. revert ec. induction Hd as [c (ec' & Hc & Hp)|q c Hq IH Hc];
    intros ec Hep Hec.
  - assert (ec' = ec) as -> by congruence.
    pose proof (forest_parent _ Hf _ _ Hc) as Hok. unfold parent_ok in Hok.
    rewrite Hp in Hok. destruct Hok as (ep' & Hep' & _ & Hr). congruence.
  - destruct Hc as (ec' & Hc & Hp). assert (ec' = ec) as -> by congruence.
    pose proof (forest_parent _ Hf _ _ Hc) as Hok. unfold parent_ok in Hok.
    rewrite Hp in Hok. destruct Hok as (eq & Heq & _ & Hr).
    eapply contains_trans; [by apply IH|done].
Qed.

Lemma child_no_kids en p c e :
  forest en → en p = Some e → first_child e = None → ¬ child_of en p c.
Proof.
  intros Hf Hp Hfc Hc. destruct (forest_kids _ Hf _ _ Hp) as (l & Hl & Hin).
  rewrite Hfc in Hl. destruct l as [|x l]; [|by destruct Hl].
  apply Hin in Hc. by apply not_elem_of_nil in Hc.
Qed.

(** The first child and the next sibling of a live entry are live. *)
Lemma kids_live en p e l c : forest en → kids en p e l → c ∈ l → is_Some (en c).
Proof. intros Hf [_ Hin] Hc. apply Hin in Hc as (ec & Hc & _). eauto. Qed.

Lemma first_child_live en p e c :
  forest en → en p = Some e → first_child e = Some c → child_of en p c.
Proof.
  intros Hf Hp Hfc. destruct (forest_kids _ Hf _ _ Hp) as (l & Hl & Hin).
  rewrite Hfc in Hl. apply linked_head in Hl as (k & -> & _). apply Hin. set_solver.
Qed.

(** [parent_ok] only looks at the parent's depth and rights. *)
Lemma parent_ok_ext en en' e :
  parent_ok en e →
  (∀ p ep, parent e = Some p → en p = Some ep →
     ∃ ep', en' p = Some ep' ∧ depth ep' = depth ep ∧ capability ep' = capability ep) →
  parent_ok en' e.
Proof.
  unfold parent_ok. destruct (parent e) as [p|]; [|done].
  intros (ep & Hep & Hd & Hr) Hext. destruct (Hext p ep eq_refl Hep) as (ep' & H1 & H2 & H3).
  exists ep'. by rewrite H2, H3.
Qed.
End forest.

(** ** Changing the forest *)

Section change.
Implicit Types (en : entries) (i p q c : N) (e : SlotEntry).

Lemma kids_ext en en' p e e' l :
  kids en p e l → first_child e' = first_child e →
  (∀ c, child_of en' p c ↔ child_of en p c) →
  (∀ c, child_of en p c → sibling_of en' c = sibling_of en c) →
  kids en' p e' l.
Proof.
  intros [Hl Hin] Hfc Hch Hsib. split.
  - rewrite Hfc. eapply linked_ext; [|done]. intros c Hc. symmetry. by apply Hsib, Hin.
  - intros c. by rewrite Hin, Hch.
Qed.

Lemma forest_add_root en en' i cap :
  forest en → en i = None →
  (∀ j, en' j = if decide (j = i) then Some (mkEntry cap None None None 0) else en j) →
  forest en'.
Proof.
  intros Hf Hi Hen.
  assert (∀ p c, child_of en' p c ↔ child_of en p c) as Hch.
  { intros p c. unfold child_of. rewrite Hen. case_decide as Hci; [|done].
    subst c. rewrite Hi. naive_solver. }
  assert (∀ p c, child_of en p c → sibling_of en' c = sibling_of en c) as Hsib.
  { intros p c (ec & Hc & _). unfold sibling_of. rewrite Hen. case_decide; congruence. }
  split.
  - intros p e. rewrite Hen. case_decide as Hpi.
    + subst p. intros [= <-]. exists []. split; [done|]. intros c.
      rewrite Hch, elem_of_nil. split; [done|]. intros Hc.
      destruct (child_live _ _ _ Hf Hc) as [[? ?] _]. congruence.
    + intros Hp. destruct (forest_kids _ Hf _ _ Hp) as [l Hl]. exists l.
      eapply kids_ext; eauto.
  - intros c e. rewrite Hen. case_decide as Hci; [by intros [= <-]|].
    intros Hc. eapply parent_ok_ext; [by eapply forest_parent|].
    intros p ep _ Hep. exists ep. split; [|done]. rewrite Hen. case_decide; congruence.
  - intros c e. rewrite Hen. case_decide as Hci; [intros [= <-]; simpl; lia|].
    by apply forest_depth.
Qed.

Lemma forest_add_child en en' i p ep cap :
  forest en → en i = None → en p = Some ep →
  contains (rights (capability ep)) (rights cap) = true →
  (depth ep + 1 ≤ MAX_DERIVATION_DEPTH)%N →
  (∀ j, en' j = if decide (j = p) then Some (set_first_child (Some i) ep)
                else if decide (j = i) then
                  Some (mkEntry cap (Some p) None (first_child ep) (depth ep + 1))
                else en j) →
  forest en'.
Proof.
  intros Hf Hi Hp Hr Hdep Hen. assert (i ≠ p) as Hip by congruence.
  assert (∀ q c, child_of en' q c ↔ (c = i ∧ q = p) ∨ child_of en q c) as Hch.
  { intros q c. unfold child_of. rewrite Hen. repeat case_decide; subst; rewrite ?Hp, ?Hi;
      naive_solver. }
  assert (∀ q c, child_of en q c → sibling_of en' c = sibling_of en c) as Hsib.
  { intros q c (ec & Hc & _). unfold sibling_of. rewrite Hen.
    repeat case_decide; subst; rewrite ?Hp; simpl; congruence. }
  assert (∀ q eq, en q = Some eq →
    ∃ eq', en' q = Some eq' ∧ depth eq' = depth eq ∧ capability eq' = capability eq) as Hkeep.
  { intros q eq Hq. rewrite Hen. repeat case_decide; subst; simplify_eq; eauto. }
  destruct (forest_kids _ Hf _ _ Hp) as [lp Hlp]. split.
  - intros q e. rewrite Hen. repeat case_decide.
    + subst q. intros [= <-]. exists (i :: lp). split; simpl.
      * split; [done|]. unfold sibling_of at 2. rewrite Hen, decide_False, decide_True by done.
        simpl. destruct Hlp as [Hl Hin]. eapply linked_ext; [|done].
        intros c Hc. symmetry. by eapply Hsib, Hin.
      * intros c. rewrite Hch, elem_of_cons. destruct Hlp as [_ Hin]. rewrite Hin. naive_solver.
    + subst q. intros [= <-]. exists []. split; [done|]. intros c.
      rewrite Hch, elem_of_nil. split; [done|]. intros [[_ ?]|Hc]; [congruence|].
      destruct (child_live _ _ _ Hf Hc) as [[? ?] _]. congruence.
    + intros Hq. destruct (forest_kids _ Hf _ _ Hq) as [l Hl]. exists l.
      eapply kids_ext; eauto. intros c. rewrite Hch. naive_solver.
  - intros c e. rewrite Hen. repeat case_decide.
    + subst c. intros [= <-]. eapply (parent_ok_ext en); [|by intros q eq _; apply Hkeep].
      apply (forest_parent _ Hf _ _ Hp).
    + intros [= <-]. unfold parent_ok. simpl. eexists. rewrite Hen, decide_True by done.
      by split_and!.
    + intros Hc. eapply (parent_ok_ext en); [by eapply forest_parent|].
      intros q eq _. apply Hkeep.
  - intros c e. rewrite Hen. repeat case_decide.
    + intros [= <-]. apply (forest_depth _ Hf _ _ Hp).
    + by intros [= <-].
    + by apply forest_depth.
Qed.
End change.

(** ** Removing entries *)

(** An entry with its links past [i]. *)
Definition unlinked (i : N) (next : option N) (e : SlotEntry) : SlotEntry :=
  mkEntry (capability e) (parent e) (bypass i next (first_child e))
          (bypass i next (next_sibling e)) (depth e).

Section remove.
Implicit Types (en : entries) (i p q c : N) (e : SlotEntry).

(** Only the parent of [i] (when [i] is its first child) and the sibling
    before [i] point at [i]. *)
Lemma sibling_same_parent en i j e p :
  forest en → en j = Some e → next_sibling e = Some i → parent e = Some p → child_of en p i.
Proof.
  intros Hf Hj Hn Hp.
  assert (child_of en p j) as Hcj by (exists e; done).
  destruct (child_live _ _ _ Hf Hcj) as [[ep Hep] _].
  destruct (forest_kids _ Hf _ _ Hep) as (l & Hl & Hin).
  destruct (linked_next_in _ _ _ j i Hl) as (l1 & l2 & ->).
  - by apply Hin.
  - unfold sibling_of. by rewrite Hj.
  - apply Hin. set_solver.
Qed.

Lemma sibling_has_parent en i j e :
  forest en → en j = Some e → next_sibling e = Some i → is_Some (parent e).
Proof.
  intros Hf Hj Hn. pose proof (forest_parent _ Hf _ _ Hj) as Hok. unfold parent_ok in Hok.
  destruct (parent e); [eauto|]. destruct Hok; congruence.
Qed.

Lemma unlinked_id i next e :
  first_child e ≠ Some i → next_sibling e ≠ Some i → unlinked i next e = e.
Proof.
  intros H1 H2. unfold unlinked, bypass. rewrite !decide_False by done. by destruct e.
Qed.

Lemma parent_ok_unlinked en i next e : parent_ok en e → parent_ok en (unlinked i next e).
Proof.
  unfold parent_ok. simpl. destruct (parent e); [done|].
  intros [? ->]. split; [done|]. by unfold bypass.
Qed.

Lemma forest_remove_leaf en en' i ei :
  forest en → en i = Some ei → first_child ei = None →
  (∀ j, en' j = if decide (j = i) then None else unlinked i (next_sibling ei) <$> en j) →
  forest en'.
Proof.
  intros Hf Hi Hleaf Hen.
  assert (∀ p c, child_of en' p c ↔ c ≠ i ∧ child_of en p c) as Hch.
  { intros p c. unfold child_of. rewrite Hen. case_decide as Hci; [naive_solver|].
    destruct (en c); simpl; naive_solver. }
  assert (∀ c, ¬ child_of en i c) as Hno by (intros c; by eapply child_no_kids).
  split.
  - intros p e'. rewrite Hen. case_decide as Hpi; [done|].
    intros (e & Hp & ->)%fmap_Some. destruct (forest_kids _ Hf _ _ Hp) as (l & Hl & Hin).
    exists (filter (λ j, j ≠ i) l). split.
    + simpl. assert (next_sibling ei = sibling_of en i) as Hs.
      { unfold sibling_of. by rewrite Hi. }
      rewrite Hs. apply linked_bypass; [done|]. intros j Hj Hji.
      unfold sibling_of. rewrite Hen, decide_False by done.
      apply Hin in Hj as (ej & Hj & _). by rewrite Hj, Hi.
    + intros c. rewrite list_elem_of_filter, Hch, Hin. done.
  - intros c e'. rewrite Hen. case_decide as Hci; [done|].
    intros (e & Hc & ->)%fmap_Some.
    eapply parent_ok_ext with (en := en);
      [apply parent_ok_unlinked; exact (forest_parent _ Hf _ _ Hc)|].
    intros p ep Hp Hep. simpl in Hp. rewrite Hen. case_decide as Hpi.
    + subst p. destruct (Hno c). by exists e.
    + rewrite Hep. simpl. eauto.
  - intros c e'. rewrite Hen. case_decide as Hci; [done|].
    intros (e & Hc & ->)%fmap_Some. apply (forest_depth _ Hf _ _ Hc).
Qed.

(** Removing a set of entries closed under derivation, below [s]. *)
Lemma forest_remove_below en en' s es (D : N → bool) :
  forest en → en s = Some es → D s = false →
  (∀ p c, child_of en p c → D c = true ↔ p = s ∨ D p = true) →
  (∀ j, en' j = if decide (j = s) then Some (set_first_child None es)
                else if D j then None else en j) →
  forest en'.
Proof.
  intros Hf Hs HDs HD Hen.
  assert (∀ p c, child_of en' p c ↔ D c = false ∧ child_of en p c) as Hch.
  { intros p c. unfold child_of. rewrite Hen. case_decide as Hcs; [naive_solver|].
    destruct (D c); naive_solver. }
  assert (∀ q eq, en q = Some eq → D q = false →
    ∃ eq', en' q = Some eq' ∧ depth eq' = depth eq ∧ capability eq' = capability eq) as Hkeep.
  { intros q eq Hq HDq. rewrite Hen, HDq. case_decide; subst; simplify_eq; eauto. }
  split.
  - intros p e. rewrite Hen. case_decide as Hps.
    + subst p. intros [= <-]. exists []. split; [done|]. intros c.
      rewrite Hch, elem_of_nil. split; [done|]. intros [HDc Hc].
      apply HD in Hc as Hiff. naive_solver congruence.
    + destruct (D p) eqn:HDp; [done|]. intros Hp.
      destruct (forest_kids _ Hf _ _ Hp) as [l Hl]. exists l.
      eapply kids_ext; [done..| |].
      * intros c. rewrite Hch. split; [naive_solver|]. intros Hc. split; [|done].
        apply HD in Hc as Hiff. destruct (D c); [|done]. naive_solver congruence.
      * intros c Hc. apply HD in Hc as Hiff. unfold sibling_of. rewrite Hen.
        case_decide; [subst; by rewrite Hs|].
        destruct (D c); [naive_solver congruence|done].
  - intros c e. rewrite Hen. case_decide as Hcs.
    + subst c. intros [= <-]. eapply (parent_ok_ext en); [exact (forest_parent _ Hf _ _ Hs)|].
      intros p ep Hp Hep. apply Hkeep; [done|].
      assert (child_of en p s) as Hc by (by exists es).
      apply HD in Hc as Hiff. destruct (D p); [|done]. naive_solver congruence.
    + destruct (D c) eqn:HDc; [done|]. intros Hc.
      eapply (parent_ok_ext en); [exact (forest_parent _ Hf _ _ Hc)|].
      intros p ep Hp Hep. apply Hkeep; [done|].
      assert (child_of en p c) as Hcc by (by exists e).
      apply HD in Hcc as Hiff. destruct (D p); [|done]. naive_solver congruence.
  - intros c e. rewrite Hen. case_decide as Hcs.
    + intros [= <-]. apply (forest_depth _ Hf _ _ Hs).
    + destruct (D c); [done|]. by apply forest_depth.
Qed.
End remove.
