(* ===== verification/CapShape.v ===== *)
(** * The capability table's slots

    What each internal step of [cap/table.rs] does to the slot array, in terms
    of [en_of] (the entry at an index) and [gen_of] (its generation). [shape] is
    the slot-level invariant: 64 slots, a free list that holds exactly the
    unpopulated ones, 32-bit generations. It says nothing about the derivation
    links, so it also holds in the middle of an operation. *)

From stdpp Require Import prelude.
From Stdlib Require Import Lia NArith.
From S2P Require Import Prelude FreeList Arena Objects Rights Capability CapTable CapTree.

Global Instance CapSlot_like : SlotLike CapSlot := {|
  slot_free s := match cs_entry s with None => true | Some _ => false end;
  slot_next := cs_next_free;
|}.

Definition en_of (t : CapabilityTable) (i : N) : option SlotEntry :=
  aget (cslots t) i ≫= cs_entry.

Definition gen_of (t : CapabilityTable) (i : N) : option N :=
  cs_generation <$> aget (cslots t) i.

Record shape (t : CapabilityTable) : Prop := {
  shape_len : N.of_nat (length (cslots t)) = CAP_TABLE_CAPACITY;
  shape_free : ∃ fl, free_list (cslots t) (cfree_head t) fl;
  shape_gen i g : gen_of t i = Some g → in_width 32 g;
}.

(** The slots changed exactly as described: entries by [en'], generations by
    [gen']. *)
Definition becomes (t t' : CapabilityTable) (en' : N → option SlotEntry) (gen' : N → option N) :=
  shape t' ∧ (∀ j, en_of t' j = en' j) ∧ (∀ j, gen_of t' j = gen' j).

Section slots.
Implicit Types (t : CapabilityTable) (i j : N) (e : SlotEntry) (s : CapSlot).

Lemma en_of_Some t i e :
  en_of t i = Some e ↔ ∃ s, aget (cslots t) i = Some s ∧ cs_entry s = Some e.
Proof. unfold en_of. destruct (aget (cslots t) i); simpl; naive_solver. Qed.

Lemma en_of_lt t i e : shape t → en_of t i = Some e → (i < CAP_TABLE_CAPACITY)%N.
Proof.
  intros Hs (s & Hi & _)%en_of_Some. rewrite <- (shape_len _ Hs). by eapply aget_Some_lt.
Qed.

Lemma en_of_aset t i s hd j :
  is_Some (aget (cslots t) i) →
  en_of (mkTable (aset (cslots t) i s) hd) j = if decide (j = i) then cs_entry s else en_of t j.
Proof.
  intros Hi. unfold en_of. simpl. rewrite aget_aset by done. by repeat case_decide; simplify_eq.
Qed.

Lemma gen_of_aset t i s hd j :
  is_Some (aget (cslots t) i) →
  gen_of (mkTable (aset (cslots t) i s) hd) j =
  if decide (j = i) then Some (cs_generation s) else gen_of t j.
Proof.
  intros Hi. unfold gen_of. simpl. rewrite aget_aset by done. by repeat case_decide; simplify_eq.
Qed.

Lemma becomes_aset t i s s' hd fl :
  shape t → aget (cslots t) i = Some s → in_width 32 (cs_generation s') →
  free_list (aset (cslots t) i s') hd fl →
  becomes t (mkTable (aset (cslots t) i s') hd)
    (λ j, if decide (j = i) then cs_entry s' else en_of t j)
    (λ j, if decide (j = i) then Some (cs_generation s') else gen_of t j).
Proof.
  intros Hs Hi Hw Hfl. split; [split|split].
  - simpl. rewrite length_aset. apply (shape_len _ Hs).
  - eauto.
  - intros j g. rewrite gen_of_aset by eauto. case_decide; [naive_solver|].
    apply (shape_gen _ Hs).
  - intros j. by apply en_of_aset; eauto.
  - intros j. by apply gen_of_aset; eauto.
Qed.

Lemma shape_slot_gen t i s : shape t → aget (cslots t) i = Some s → in_width 32 (cs_generation s).
Proof. intros Hs Hi. apply (shape_gen _ Hs i). unfold gen_of. by rewrite Hi. Qed.

Lemma entry_at_run t i s : aget (cslots t) i = Some s → entry_at i t = Done (cs_entry s) t.
Proof. intros Hi. unfold entry_at, slot_at. monad. by rewrite Hi. Qed.

Lemma entry_at_live t i e : en_of t i = Some e → entry_at i t = Done (Some e) t.
Proof. intros (s & Hs & He)%en_of_Some. by rewrite (entry_at_run _ _ _ Hs), He. Qed.

(** Writing a field of a live entry. *)
Lemma update_entry_run t i e f :
  shape t → en_of t i = Some e →
  ∃ t', update_entry i f t = Done tt t' ∧
    becomes t t' (λ j, if decide (j = i) then Some (f e) else en_of t j) (gen_of t).
Proof.
  intros Hs He. unfold update_entry, put_entry, slot_at. monad.
  rewrite (entry_at_live _ _ _ He). apply en_of_Some in He as (s & Hi & He).
  rewrite Hi. monad. eexists. split; [reflexivity|].
  destruct (shape_free _ Hs) as [fl Hfl].
  edestruct (becomes_aset t i s (mkCapSlot (Some (f e)) (cs_generation s) (cs_next_free s)))
    as (H1 & H2 & H3); [done..|by apply (shape_slot_gen t i s)| |].
  { eapply free_list_update; [done..| |]; simpl; by rewrite ?He. }
  split_and!; [done..|]. intros j. rewrite H3. case_decide; [|done].
  subst j. unfold gen_of. by rewrite Hi.
Qed.

(** Freeing a live slot. *)
Lemma free_slot_run t i e :
  shape t → en_of t i = Some e →
  ∃ t', free_slot i t = Done tt t' ∧
    becomes t t' (λ j, if decide (j = i) then None else en_of t j)
      (λ j, if decide (j = i) then (λ g, wrapping_add 32 g 1) <$> gen_of t i else gen_of t j).
Proof.
  intros Hs (s & Hi & He)%en_of_Some. unfold free_slot. monad. simpl. rewrite Hi.
  eexists. split; [reflexivity|]. destruct (shape_free _ Hs) as [fl Hfl].
  edestruct (becomes_aset t i s (mkCapSlot None (wrapping_add 32 (cs_generation s) 1)
    (cfree_head t))) as (H1 & H2 & H3); [done..|by eauto with tyrne| |].
  { eapply free_list_push; [done..| | |]; simpl; by rewrite ?He. }
  split_and!; [done..|]. intros j. rewrite H3. case_decide; [|done].
  unfold gen_of. by rewrite Hi.
Qed.

(** [cap_take] empties the slot before it frees it. *)
Lemma put_none_free_slot t i e :
  en_of t i = Some e →
  ∃ t1, put_entry i None t = Done tt t1 ∧ free_slot i t1 = free_slot i t.
Proof.
  intros (s & Hi & He)%en_of_Some. unfold put_entry, slot_at. monad. rewrite Hi. monad.
  eexists. split; [reflexivity|]. unfold free_slot. monad. simpl.
  rewrite aget_aset_eq, Hi by eauto. simpl. by rewrite aset_aset.
Qed.

(** Taking a slot from the free list and populating it. *)
Lemma pop_free_None t : cfree_head t = None → pop_free t = Done None t.
Proof. intros Hh. unfold pop_free. monad. by rewrite Hh. Qed.

Lemma pop_free_Some t i :
  shape t → cfree_head t = Some i →
  ∃ g t1, pop_free t = Done (Some i) t1 ∧ en_of t i = None ∧ gen_of t i = Some g ∧
    slot_at i t1 = Done (mkCapSlot None g None) t1 ∧
    (∀ j e, en_of t j = Some e → entry_at j t1 = Done (Some e) t1) ∧
    ∀ e, ∃ t2, put_entry i (Some e) t1 = Done tt t2 ∧
      becomes t t2 (λ j, if decide (j = i) then Some e else en_of t j) (gen_of t).
Proof.
  intros Hs Hh. destruct (shape_free _ Hs) as [fl Hfl]. rewrite Hh in Hfl.
  destruct (free_list_head _ _ _ Hfl) as (s & Hi & Hf).
  assert (cs_entry s = None) as He by (simpl in Hf; by destruct (cs_entry s)).
  exists (cs_generation s). eexists. split.
  { unfold pop_free, slot_at. monad. rewrite Hh, Hi. monad. reflexivity. }
  rewrite He. split; [unfold en_of; by rewrite Hi|].
  split; [unfold gen_of; by rewrite Hi|].
  assert (∀ hd s', slot_at i (mkTable (aset (cslots t) i s') hd) =
            Done s' (mkTable (aset (cslots t) i s') hd)) as Hslot.
  { intros hd s'. unfold slot_at. monad. simpl. by rewrite aget_aset_eq by eauto. }
  split; [apply Hslot|]. split.
  - intros j e Hj. apply entry_at_live. simpl. rewrite en_of_aset by eauto.
    case_decide; [|done]. subst j. unfold en_of in Hj. rewrite Hi in Hj. simpl in Hj. congruence.
  - intros e. eexists. split.
    { unfold put_entry. monad. rewrite Hslot. simpl. rewrite aset_aset. reflexivity. }
    destruct (free_list_pop _ _ _ (mkCapSlot (Some e) (cs_generation s) None) Hfl)
      as (s0 & fl' & -> & Hs0 & _ & Hfl'); [done|].
    assert (s0 = s) as -> by congruence.
    destruct (becomes_aset t i s (mkCapSlot (Some e) (cs_generation s) None) _ _
      Hs Hi (shape_slot_gen _ _ _ Hs Hi) Hfl') as (H1 & H2 & H3). split_and!; [done..|].
    intros j. rewrite H3. case_decide; [|done]. subst j. unfold gen_of. by rewrite Hi.
Qed.

Lemma cfree_head_None t :
  shape t → cfree_head t = None ↔ ∀ i, (i < CAP_TABLE_CAPACITY)%N → is_Some (en_of t i).
Proof.
  intros Hs. destruct (shape_free _ Hs) as [fl Hfl].
  rewrite (free_list_empty_iff _ _ _ Hfl). split.
  - intros Hall i Hi. destruct (proj2 (aget_lt (cslots t) i)) as [s Hslot].
    { by rewrite (shape_len _ Hs). }
    specialize (Hall _ _ Hslot). simpl in Hall. unfold en_of. rewrite Hslot. simpl.
    by destruct (cs_entry s).
  - intros Hall i s Hi. destruct (Hall i) as [e He].
    { rewrite <- (shape_len _ Hs). by eapply aget_Some_lt. }
    apply en_of_Some in He as (s' & Hi' & He). simplify_eq/=. by rewrite He.
Qed.

Lemma shape_new : shape table_new.
Proof.
  split.
  - apply length_array_from_fn.
  - eexists. apply (free_list_fresh CAP_TABLE_CAPACITY); [done|]. intros i Hi. simpl.
    unfold CAP_TABLE_CAPACITY in *.
    assert (2 ^ 16 = 65536)%N as H16 by done.
    assert (2 ^ 64 = 18446744073709551616)%N as H64 by done.
    rewrite wrapping_add_small by (unfold in_width; lia).
    case_decide; [|done]. rewrite wrap_small by (unfold in_width; lia). done.
  - intros i g. unfold gen_of. simpl. rewrite aget_array_from_fn.
    case_decide; [|done]. simpl. intros [= <-]. apply pow2_pos.
Qed.

Lemma en_of_new i : en_of table_new i = None.
Proof. unfold en_of. simpl. rewrite aget_array_from_fn. by case_decide. Qed.

(** A list of distinct live indices fits the table. *)
Lemma live_length t l :
  shape t → NoDup l → (∀ i, i ∈ l → is_Some (en_of t i)) →
  length l ≤ N.to_nat CAP_TABLE_CAPACITY.
Proof.
  intros Hs Hnd Hlive.
  assert (l ⊆+ (N.of_nat <$> seq 0 (N.to_nat CAP_TABLE_CAPACITY))) as Hsub.
  { apply NoDup_submseteq; [done|]. intros i Hi. destruct (Hlive i Hi) as [e He].
    apply en_of_lt in He; [|done]. apply list_elem_of_fmap. exists (N.to_nat i).
    rewrite elem_of_seq. lia. }
  apply submseteq_length in Hsub. by rewrite length_fmap, length_seq in Hsub.
Qed.

(** Freeing a list of distinct live slots. *)
Lemma free_slots_run t l :
  shape t → NoDup l → (∀ i, i ∈ l → is_Some (en_of t i)) →
  ∃ t', free_slots l t = Done tt t' ∧
    becomes t t' (λ j, if decide (j ∈ l) then None else en_of t j)
      (λ j, if decide (j ∈ l) then (λ g, wrapping_add 32 g 1) <$> gen_of t j else gen_of t j).
Proof.
  revert t. induction l as [|i l IH]; intros t Hs Hnd Hlive; simpl.
  - exists t. split; [done|]. by split_and!.
  - apply NoDup_cons in Hnd as [Hi Hnd]. destruct (Hlive i) as [e He]; [set_solver|].
    destruct (free_slot_run t i e Hs He) as (t1 & Hf & Hs1 & Hen1 & Hgen1).
    destruct (IH t1) as (t2 & Hf2 & Hs2 & Hen2 & Hgen2); [done..| |].
    { intros j Hj. rewrite Hen1. case_decide; [set_solver|]. apply Hlive. set_solver. }
    exists t2. monad. rewrite Hf. split; [done|]. split_and!; [done|..]; intros j.
    + rewrite Hen2, Hen1. repeat case_decide; set_solver.
    + rewrite Hgen2, Hgen1. repeat case_decide; set_solver.
Qed.
End slots.
