(* ===== verification/CapProofs.v ===== *)
(** * The capability table's operations

    [table_wf] is the invariant of [CapabilityTable]: well-formed slots and a
    derivation forest. For every operation of [cap/table.rs] this file proves,
    on a well-formed table, which branch is taken, what is returned, and how
    entries and generations change. *)

From stdpp Require Import prelude.
From Stdlib Require Import Lia NArith.
From S2P Require Import Prelude FreeList Arena Objects Rights Capability CapTable CapTree CapShape.

Definition table_wf (t : CapabilityTable) : Prop := shape t ∧ forest (en_of t).

(** [live t h e]: the handle [h] names the entry [e]. *)
Definition live (t : CapabilityTable) (h : CapHandle) (e : SlotEntry) : Prop :=
  en_of t (cap_index h) = Some e ∧ gen_of t (cap_index h) = Some (cap_generation h).

Section resolve.
Implicit Types (t : CapabilityTable) (h : CapHandle) (e : SlotEntry).

Lemma resolve_cases t h :
  (∃ e, live t h e ∧ entry_of t h = Ok e ∧ resolve_handle t h = Ok (cap_index h)) ∨
  ((∀ e, ¬ live t h e) ∧ entry_of t h = Err InvalidHandle ∧
   resolve_handle t h = Err InvalidHandle).
Proof.
  unfold live, entry_of, resolve_handle, en_of, gen_of.
  destruct (aget (cslots t) (cap_index h)) as [s|] eqn:Hs; simpl; [|naive_solver].
  case_decide as Hg; [right; naive_solver|].
  destruct (cs_entry s) as [e|] eqn:He; [left|right; naive_solver].
  exists e. rewrite Hs. simpl. rewrite He. split_and!; congruence.
Qed.

Lemma live_entry_of t h e : live t h e ↔ entry_of t h = Ok e.
Proof.
  destruct (resolve_cases t h) as [(e' & Hl & He & _)|(Hno & He & _)]; rewrite He.
  - unfold live in *. naive_solver congruence.
  - naive_solver.
Qed.

Lemma live_resolve t h e : live t h e → resolve_handle t h = Ok (cap_index h).
Proof. destruct (resolve_cases t h); naive_solver. Qed.

Lemma dead_resolve t h :
  (∀ e, ¬ live t h e) →
  resolve_handle t h = Err InvalidHandle ∧ entry_of t h = Err InvalidHandle.
Proof. destruct (resolve_cases t h); naive_solver. Qed.

Lemma live_unique t h e e' : live t h e → live t h e' → e = e'.
Proof. unfold live. naive_solver congruence. Qed.

Lemma live_handle t i e :
  en_of t i = Some e → ∃ g, live t (mkCapHandle i g) e.
Proof.
  intros He. apply en_of_Some in He as He'. destruct He' as (s & Hs & _).
  exists (cs_generation s). split; [done|]. unfold gen_of. simpl. by rewrite Hs.
Qed.
End resolve.

(** ** Unlinking a leaf from its siblings *)

Section unlink.
Implicit Types (t : CapabilityTable) (i j p c : N) (e : SlotEntry).

Lemma unlink_walk_run t fuel l1 c l2 cursor i next :
  linked (sibling_of (en_of t)) cursor (l1 ++ c :: i :: l2) → NoDup (l1 ++ c :: i :: l2) →
  (∀ x, x ∈ l1 ++ [c] → is_Some (en_of t x)) → length l1 < fuel →
  unlink_walk fuel cursor i next t = update_entry c (set_next_sibling next) t.
Proof.
  revert fuel cursor. induction l1 as [|x l1 IH]; intros fuel cursor Hl Hnd Hlive Hfuel;
    simpl in Hl; destruct Hl as [-> Hl]; (destruct fuel as [|fuel]; simpl in Hfuel; [lia|]);
    simpl; monad.
  - destruct (Hlive c) as [ec Hc]; [set_solver|]. rewrite (entry_at_live _ _ _ Hc). simpl.
    unfold sibling_of in Hl. rewrite Hc in Hl. simpl in Hl. destruct Hl as [Hl _].
    by rewrite Hl, decide_True.
  - destruct (Hlive x) as [ex Hx]; [set_solver|]. rewrite (entry_at_live _ _ _ Hx). simpl.
    unfold sibling_of in Hl at 2. rewrite Hx in Hl. simpl in Hl.
    apply NoDup_cons in Hnd as [_ Hnd]. rewrite decide_False.
    + apply IH; [done..| |lia]. set_solver.
    + intros Hn. rewrite Hn in Hl. apply linked_head in Hl as (k & Hk & _).
      destruct l1 as [|y l1]; simplify_eq/=; apply NoDup_cons in Hnd as [Hni _]; set_solver.
Qed.

#[local] Arguments unlink_walk : simpl never.

(** Nothing but the parent's [first_child] or the sibling before [i] points
    at [i]. *)
Lemma unlinked_others t i e j ej :
  forest (en_of t) → en_of t i = Some e → en_of t j = Some ej →
  (parent e ≠ Some j ∨ first_child ej ≠ Some i) →
  (∀ p, parent e = Some p → child_of (en_of t) p j → next_sibling ej ≠ Some i) →
  unlinked i (next_sibling e) ej = ej.
Proof.
  intros Hf Hi Hj Hfc Hns. apply unlinked_id.
  - intros Hc. pose proof (first_child_live _ _ _ _ Hf Hj Hc) as (e' & ? & ?).
    simplify_eq. naive_solver.
  - intros Hn. destruct (sibling_has_parent _ _ _ _ Hf Hj Hn) as [p Hp].
    pose proof (sibling_same_parent _ _ _ _ _ Hf Hj Hn Hp) as (e' & ? & ?). simplify_eq.
    eapply Hns; [done|by exists ej|done].
Qed.

(** [i] is the first child: the parent's [first_child] moves on. *)
Lemma unlink_first t i e p pe l :
  table_wf t → en_of t i = Some e → parent e = Some p → en_of t p = Some pe →
  kids (en_of t) p pe l → first_child pe = Some i →
  ∃ t', update_entry p (set_first_child (next_sibling e)) t = Done tt t' ∧
    becomes t t' (λ j, if decide (j = i) then Some e
                       else unlinked i (next_sibling e) <$> en_of t j) (gen_of t).
Proof.
  intros [Hs Hf] Hi Hpar Hp [Hl Hin] Hfc.
  assert (child_of (en_of t) p i) as Hci by (by exists e).
  assert (p ≠ i) as Hpi by (intros ->; by apply (child_irrefl _ _ Hf) in Hci).
  destruct (update_entry_run t p pe (set_first_child (next_sibling e)) Hs Hp)
    as (t' & Hu & Hs' & Hen & Hgen).
  exists t'. split; [done|]. split_and!; [done| |done]. intros j. rewrite Hen.
  case_decide as Hjp.
  - subst j. rewrite decide_False, Hp by done. simpl. f_equal.
    assert (next_sibling pe ≠ Some i) as Hns.
    { intros Hn. destruct (sibling_has_parent _ _ _ _ Hf Hp Hn) as [q Hq].
      pose proof (sibling_same_parent _ _ _ _ _ Hf Hp Hn Hq) as Hqi.
      assert (q = p) as -> by (by eapply child_of_unique).
      by apply (child_irrefl _ p Hf); exists pe. }
    unfold unlinked, set_first_child, bypass. by rewrite Hfc, decide_True, decide_False.
  - case_decide as Hji; [by subst|]. destruct (en_of t j) as [ej|] eqn:Hj; [|done].
    simpl. rewrite (unlinked_others t i e j ej); [done..|left; congruence|].
    intros q ? Hqj Hn. simplify_eq. eapply (linked_head_no_pred _ _ _ i j Hl Hfc).
    + by apply Hin.
    + unfold sibling_of. by rewrite Hj.
Qed.

(** [i] comes after the sibling [c]: [c]'s [next_sibling] moves on. *)
Lemma unlink_after t i e p pe l1 c l2 :
  table_wf t → en_of t i = Some e → parent e = Some p → en_of t p = Some pe →
  kids (en_of t) p pe (l1 ++ c :: i :: l2) → first_child pe ≠ Some i →
  ∃ t', update_entry c (set_next_sibling (next_sibling e)) t = Done tt t' ∧
    becomes t t' (λ j, if decide (j = i) then Some e
                       else unlinked i (next_sibling e) <$> en_of t j) (gen_of t).
Proof.
  intros [Hs Hf] Hi Hpar Hp [Hl Hin] Hfc.
  assert (child_of (en_of t) p c) as Hpc by (apply Hin; set_solver).
  pose proof Hpc as (ec & Hc & _).
  assert (sibling_of (en_of t) c = Some i) as Hsc by (by eapply linked_next).
  assert (c ≠ i) as Hci.
  { intros ->. pose proof (linked_NoDup _ _ _ Hl) as Hnd.
    apply NoDup_app in Hnd as (_ & _ & [Hni _]%NoDup_cons). set_solver. }
  destruct (update_entry_run t c ec (set_next_sibling (next_sibling e)) Hs Hc)
    as (t' & Hu & Hs' & Hen & Hgen).
  exists t'. split; [done|]. split_and!; [done| |done]. intros j. rewrite Hen.
  case_decide as Hjc.
  - subst j. rewrite decide_False, Hc by done. simpl. f_equal.
    assert (first_child ec ≠ Some i) as Hnf.
    { intros Hfi. pose proof (first_child_live _ _ _ _ Hf Hc Hfi) as Hchi.
      assert (c = p) as -> by (eapply child_of_unique; [done|by exists e]).
      by apply child_irrefl in Hpc. }
    unfold sibling_of in Hsc. rewrite Hc in Hsc. simpl in Hsc.
    unfold unlinked, set_next_sibling, bypass. by rewrite Hsc, decide_False, decide_True.
  - case_decide as Hji; [by subst|]. destruct (en_of t j) as [ej|] eqn:Hj; [|done].
    simpl. rewrite (unlinked_others t i e j ej); [done..| |].
    + destruct (decide (j = p)) as [->|]; [right|left; congruence]. by simplify_eq.
    + intros q ? Hqj Hn. simplify_eq. apply Hjc.
      eapply (linked_pred_unique _ _ _ j c i Hl); [by apply Hin|set_solver| |done].
      unfold sibling_of. by rewrite Hj.
Qed.

Lemma unlink_run t i e :
  table_wf t → en_of t i = Some e →
  ∃ t', unlink_from_siblings i t = Done tt t' ∧
    becomes t t' (λ j, if decide (j = i) then Some e
                       else unlinked i (next_sibling e) <$> en_of t j) (gen_of t).
Proof.
  intros Hwf Hi. pose proof Hwf as [Hs Hf]. unfold unlink_from_siblings. monad.
  rewrite (entry_at_live _ _ _ Hi). simpl. destruct (parent e) as [p|] eqn:Hpar.
  2:{ exists t. split_and!; [done..|]. split_and!; [done| |done]. intros j.
      case_decide as Hji; [by subst|]. destruct (en_of t j) as [ej|] eqn:Hj; [|done].
      simpl. rewrite (unlinked_others t i e j ej); [done..|left; congruence|].
      intros p ?. congruence. }
  assert (child_of (en_of t) p i) as Hci by (by exists e).
  destruct (child_live _ _ _ Hf Hci) as [[pe Hp] _].
  rewrite (entry_at_live _ _ _ Hp). simpl.
  destruct (forest_kids _ Hf _ _ Hp) as (l & Hl). case_decide as Hfc.
  { by eapply unlink_first. }
  assert (i ∈ l) as Hil by by apply Hl.
  apply list_elem_of_split in Hil as (l0 & l2 & ->).
  destruct l0 as [|c l1 _] using rev_ind; [by destruct Hl as [[? _] _]|].
  rewrite <- app_assoc in Hl. simpl in Hl.
  pose proof (linked_NoDup _ _ _ (proj1 Hl)) as Hnd.
  assert (∀ x, x ∈ l1 ++ c :: i :: l2 → is_Some (en_of t x)) as Hlive.
  { intros x Hx. by eapply kids_live. }
  rewrite (unlink_walk_run t _ l1 c l2); [by eapply unlink_after|by apply Hl|done| |].
  - intros x Hx. apply Hlive. set_solver.
  - pose proof (live_length _ _ Hs Hnd Hlive) as Hlen. rewrite length_app in Hlen.
    simpl in Hlen. unfold CAP_TABLE_CAPACITY in *. lia.
Qed.
End unlink.

(** ** Adding entries *)

Section add.
Implicit Types (t : CapabilityTable) (i j p : N) (e : SlotEntry).

(** [t'] is [t] with the new entry [new] at the free index [i], generation [g]. *)
Definition added t t' (i g : N) (new : SlotEntry) : Prop :=
  table_wf t' ∧ en_of t i = None ∧ gen_of t i = Some g ∧
  (∀ j, gen_of t' j = gen_of t j) ∧ en_of t' i = Some new ∧
  ∀ j, j ≠ i → en_of t' j = match parent new with
    | Some p => if decide (j = p) then set_first_child (Some i) <$> en_of t j else en_of t j
    | None => en_of t j
    end.

Lemma add_child_run t i p ep new :
  shape t → cfree_head t = Some i → en_of t p = Some ep →
  ∃ g t1 t2 t3,
    pop_free t = Done (Some i) t1 ∧ slot_at i t1 = Done (mkCapSlot None g None) t1 ∧
    entry_at p t1 = Done (Some ep) t1 ∧ put_entry i (Some new) t1 = Done tt t2 ∧
    update_entry p (set_first_child (Some i)) t2 = Done tt t3 ∧
    en_of t i = None ∧ gen_of t i = Some g ∧
    becomes t t3 (λ j, if decide (j = p) then Some (set_first_child (Some i) ep)
                       else if decide (j = i) then Some new else en_of t j) (gen_of t).
Proof.
  intros Hs Hh Hp.
  destruct (pop_free_Some t i Hs Hh) as (g & t1 & Hpop & Hi & Hg & Hslot & Hent & Hput).
  destruct (Hput new) as (t2 & Hput2 & Hs2 & Hen2 & Hgen2).
  assert (p ≠ i) as Hpi by congruence.
  destruct (update_entry_run t2 p ep (set_first_child (Some i)) Hs2)
    as (t3 & Hup & Hs3 & Hen3 & Hgen3); [by rewrite Hen2, decide_False|].
  exists g, t1, t2, t3. split_and!; [done..|by apply Hent|done|done|done|done|].
  split_and!; [done|..]; intros j.
  - rewrite Hen3, Hen2. done.
  - by rewrite Hgen3, Hgen2.
Qed.

Lemma added_child t t' i g p ep cap :
  table_wf t → en_of t i = None → gen_of t i = Some g → en_of t p = Some ep →
  contains (rights (capability ep)) (rights cap) = true →
  (depth ep + 1 ≤ MAX_DERIVATION_DEPTH)%N →
  becomes t t' (λ j, if decide (j = p) then Some (set_first_child (Some i) ep)
    else if decide (j = i) then Some (mkEntry cap (Some p) None (first_child ep) (depth ep + 1))
    else en_of t j) (gen_of t) →
  added t t' i g (mkEntry cap (Some p) None (first_child ep) (depth ep + 1)).
Proof.
  intros [Hs Hf] Hi Hg Hp Hr Hd (Hs' & Hen & Hgen).
  assert (p ≠ i) as Hpi by congruence. split_and!; try done.
  - split; [done|]. by eapply (forest_add_child (en_of t)).
  - by rewrite Hen, decide_False, decide_True.
  - intros j Hj. rewrite Hen. simpl. repeat case_decide; subst; rewrite ?Hp; done.
Qed.

Lemma insert_root_full t cap :
  cfree_head t = None → insert_root cap t = Fail CapsExhausted t.
Proof. intros Hh. unfold insert_root. monad. by rewrite pop_free_None. Qed.

Lemma insert_root_run t cap i :
  table_wf t → cfree_head t = Some i →
  ∃ g t', insert_root cap t = Done (mkCapHandle i g) t' ∧
          added t t' i g (mkEntry cap None None None 0).
Proof.
  intros [Hs Hf] Hh.
  destruct (pop_free_Some t i Hs Hh) as (g & t1 & Hpop & Hi & Hg & Hslot & _ & Hput).
  destruct (Hput (mkEntry cap None None None 0)) as (t2 & Hput2 & Hs2 & Hen2 & Hgen2).
  exists g, t2. split.
  - unfold insert_root. monad. rewrite Hpop. simpl. rewrite Hslot. by rewrite Hput2.
  - split_and!; try done.
    + split; [done|]. by eapply (forest_add_root (en_of t)).
    + by rewrite Hen2, decide_True.
    + intros j Hj. by rewrite Hen2, decide_False.
Qed.

(** [cap_derive], branch by branch. *)
Lemma cap_derive_dead t h r o :
  (∀ e, ¬ live t h e) → cap_derive h r o t = Fail InvalidHandle t.
Proof. intros [_ He]%dead_resolve. unfold cap_derive. monad. simpl. by rewrite He. Qed.

Lemma cap_derive_live t h e r o :
  table_wf t → live t h e →
  if negb (contains (rights (capability e)) DERIVE) then
    cap_derive h r o t = Fail InsufficientRights t
  else if negb (contains (rights (capability e)) r) then
    cap_derive h r o t = Fail WidenedRights t
  else if decide (depth e = MAX_DERIVATION_DEPTH) then
    cap_derive h r o t = Fail DerivationTooDeep t
  else match cfree_head t with
    | None => cap_derive h r o t = Fail CapsExhausted t
    | Some i => ∃ g t', cap_derive h r o t = Done (mkCapHandle i g) t' ∧
        added t t' i g (mkEntry (new_capability r o) (Some (cap_index h)) None
                                (first_child e) (depth e + 1))
    end.
Proof.
  intros [Hs Hf] Hl. pose proof Hl as [Hen Hgen].
  pose proof (forest_depth _ Hf _ _ Hen) as Hdep. unfold MAX_DERIVATION_DEPTH in Hdep.
  unfold cap_derive. monad. simpl. rewrite (proj1 (live_entry_of _ _ _) Hl). simpl.
  destruct (contains _ DERIVE); simpl; [|done].
  destruct (contains (rights (capability e)) r) eqn:Hr; simpl; [|done].
  assert (saturating_add 64 (depth e) 1 = depth e + 1)%N as ->.
  { unfold saturating_add. apply N.min_l. transitivity 17%N; [lia|by vm_compute]. }
  unfold MAX_DERIVATION_DEPTH. case_decide as Hdeep; (case_decide as H16; [try lia|try lia]).
  { done. }
  destruct (cfree_head t) as [i|] eqn:Hh; [|by rewrite pop_free_None].
  assert (wrap 8 (depth e + 1) = depth e + 1)%N as ->.
  { apply wrap_small. unfold in_width. apply N.le_lt_trans with 17%N; [lia|by vm_compute]. }
  destruct (add_child_run t i (cap_index h) e (mkEntry (new_capability r o)
    (Some (cap_index h)) None (first_child e) (depth e + 1)) Hs Hh Hen)
    as (g & t1 & t2 & t3 & Hpop & Hslot & Hent & Hput & Hup & Hi & Hg & Hb).
  exists g, t3. split.
  - rewrite Hpop. simpl. rewrite Hslot, Hent, Hput, Hup. done.
  - apply added_child; try done. unfold MAX_DERIVATION_DEPTH. lia.
Qed.

Lemma cap_copy_dead t h r :
  (∀ e, ¬ live t h e) → cap_copy h r t = Fail InvalidHandle t.
Proof. intros [_ He]%dead_resolve. unfold cap_copy. monad. simpl. by rewrite He. Qed.

(** The entry [cap_copy] makes: a sibling of the source, or another root. *)
Definition copy_entry t (e : SlotEntry) (r : CapRights) : SlotEntry :=
  mkEntry (new_capability r (object (capability e))) (parent e) None
    (match parent e with Some p => en_of t p ≫= first_child | None => None end) (depth e).

Lemma cap_copy_live t h e r :
  table_wf t → live t h e →
  if negb (contains (rights (capability e)) DUPLICATE) then
    cap_copy h r t = Fail InsufficientRights t
  else if negb (contains (rights (capability e)) r) then
    cap_copy h r t = Fail WidenedRights t
  else match cfree_head t with
    | None => cap_copy h r t = Fail CapsExhausted t
    | Some i => ∃ g t', cap_copy h r t = Done (mkCapHandle i g) t' ∧
                        added t t' i g (copy_entry t e r)
    end.
Proof.
  intros Hwf Hl. pose proof Hwf as [Hs Hf]. pose proof Hl as [Hen Hgen].
  unfold cap_copy. monad. simpl. rewrite (proj1 (live_entry_of _ _ _) Hl). simpl.
  destruct (contains _ DUPLICATE); simpl; [|done].
  destruct (contains (rights (capability e)) r) eqn:Hr; simpl; [|done].
  destruct (cfree_head t) as [i|] eqn:Hh; [|by rewrite pop_free_None].
  pose proof (forest_parent _ Hf _ _ Hen) as Hok. unfold parent_ok, copy_entry in *.
  destruct (parent e) as [p|].
  - destruct Hok as (ep & Hp & Hd & Hrp). rewrite Hp. simpl.
    destruct (add_child_run t i p ep (mkEntry (new_capability r (object (capability e)))
      (Some p) None (first_child ep) (depth e)) Hs Hh Hp)
      as (g & t1 & t2 & t3 & Hpop & Hslot & Hent & Hput & Hup & Hi & Hg & Hb).
    exists g, t3. split; [by rewrite Hpop; simpl; rewrite Hslot, Hent, Hput, Hup|].
    rewrite Hd in *. apply added_child; try done.
    + simpl. by eapply contains_trans.
    + rewrite <- Hd. apply (forest_depth _ Hf _ _ Hen).
  - destruct Hok as [Hd _]. rewrite Hd.
    destruct (pop_free_Some t i Hs Hh) as (g & t1 & Hpop & Hi & Hg & Hslot & _ & Hput).
    edestruct Hput as (t2 & Hput2 & Hs2 & Hen2 & Hgen2).
    exists g, t2. split; [by rewrite Hpop; simpl; rewrite Hslot, Hput2|].
    split_and!; try done.
    + split; [done|]. by eapply (forest_add_root (en_of t)).
    + by rewrite Hen2, decide_True.
    + intros j Hj. by rewrite Hen2, decide_False.
Qed.
End add.

(** ** Removing entries *)

Section remove.
Implicit Types (t : CapabilityTable) (i j p : N) (e : SlotEntry).

Definition bump (g : option N) : option N := (λ g, wrapping_add 32 g 1) <$> g.

(** [t'] is [t] without the leaf [e] at index [i], its links bypassed. *)
Definition removed t t' i e : Prop :=
  table_wf t' ∧ en_of t' i = None ∧
  (∀ j, j ≠ i → en_of t' j = unlinked i (next_sibling e) <$> en_of t j) ∧
  ∀ j, gen_of t' j = if decide (j = i) then bump (gen_of t i) else gen_of t j.

Lemma unlink_free_run t i e :
  table_wf t → en_of t i = Some e → first_child e = None →
  ∃ t1 t', unlink_from_siblings i t = Done tt t1 ∧ en_of t1 i = Some e ∧
    free_slot i t1 = Done tt t' ∧ removed t t' i e.
Proof.
  intros Hwf Hi Hleaf. destruct (unlink_run t i e Hwf Hi) as (t1 & Hu & Hs1 & Hen1 & Hg1).
  assert (en_of t1 i = Some e) as Hi1 by (by rewrite Hen1, decide_True).
  destruct (free_slot_run t1 i e Hs1 Hi1) as (t2 & Hfr & Hs2 & Hen2 & Hg2).
  exists t1, t2. split_and!; try done.
  assert (∀ j, en_of t2 j = if decide (j = i) then None
                            else unlinked i (next_sibling e) <$> en_of t j) as Hen.
  { intros j. rewrite Hen2, Hen1. by case_decide. }
  split_and!.
  - split; [done|]. destruct Hwf. by eapply (forest_remove_leaf (en_of t)).
  - by rewrite Hen, decide_True.
  - intros j Hj. by rewrite Hen, decide_False.
  - intros j. rewrite Hg2, !Hg1. done.
Qed.

Lemma cap_drop_dead t h : (∀ e, ¬ live t h e) → cap_drop h t = Fail InvalidHandle t.
Proof. intros [He _]%dead_resolve. unfold cap_drop. monad. simpl. by rewrite He. Qed.

Lemma cap_take_dead t h : (∀ e, ¬ live t h e) → cap_take h t = Fail InvalidHandle t.
Proof. intros [He _]%dead_resolve. unfold cap_take. monad. simpl. by rewrite He. Qed.

Lemma cap_drop_live t h e :
  table_wf t → live t h e →
  match first_child e with
  | Some _ => cap_drop h t = Fail HasChildren t
  | None => ∃ t', cap_drop h t = Done tt t' ∧ removed t t' (cap_index h) e
  end.
Proof.
  intros Hwf Hl. pose proof Hl as [Hi _]. unfold cap_drop. monad. simpl.
  rewrite (live_resolve _ _ _ Hl). simpl. rewrite (entry_at_live _ _ _ Hi). simpl.
  destruct (first_child e) eqn:Hfc; [by rewrite decide_True by eauto|].
  rewrite decide_False by by apply is_Some_None.
  destruct (unlink_free_run t _ e Hwf Hi Hfc) as (t1 & t' & Hu & _ & Hfr & Hrem).
  exists t'. by rewrite Hu.
Qed.

Lemma cap_take_live t h e :
  table_wf t → live t h e →
  match first_child e with
  | Some _ => cap_take h t = Fail HasChildren t
  | None => ∃ t', cap_take h t = Done (capability e) t' ∧ removed t t' (cap_index h) e
  end.
Proof.
  intros Hwf Hl. pose proof Hl as [Hi _]. unfold cap_take. monad. simpl.
  rewrite (live_resolve _ _ _ Hl). simpl. rewrite (entry_at_live _ _ _ Hi). simpl.
  destruct (first_child e) eqn:Hfc; [by rewrite decide_True by eauto|].
  rewrite decide_False by by apply is_Some_None.
  destruct (unlink_free_run t _ e Hwf Hi Hfc) as (t1 & t' & Hu & Hi1 & Hfr & Hrem).
  exists t'. rewrite Hu, (entry_at_live _ _ _ Hi1).
  destruct (put_none_free_slot _ _ _ Hi1) as (t2 & -> & Hfs). simpl. by rewrite Hfs, Hfr.
Qed.
End remove.

(** ** Revocation: the breadth-first walk *)

Section revoke.
Context `{BuildProfile}.
Implicit Types (t : CapabilityTable) (i j p c : N) (e : SlotEntry) (desc l : list N).

(** The queue of [cap_revoke] after [scan] of its elements were expanded. *)
Record bfs (en : entries) (s : N) (scan : nat) (desc : list N) : Prop := {
  bfs_NoDup : NoDup desc;
  bfs_below c : c ∈ desc → descends en s c;
  bfs_closed q c : q = s ∨ q ∈ take scan desc → child_of en q c → c ∈ desc;
  bfs_parent c : c ∈ desc → ∃ q, child_of en q c ∧ (q = s ∨ q ∈ take scan desc);
}.

Lemma push_siblings_run t child l desc :
  linked (sibling_of (en_of t)) child l → (∀ c, c ∈ l → is_Some (en_of t c)) →
  length desc + length l ≤ N.to_nat CAP_TABLE_CAPACITY →
  push_siblings (room_of desc) child desc t = Done (desc ++ l) t.
Proof.
  unfold room_of. remember (N.to_nat CAP_TABLE_CAPACITY) as cap eqn:Hcap. clear Hcap.
  revert child desc. induction l as [|c l IH]; intros child desc Hl Hlive Hlen; simpl in Hl.
  - subst child. rewrite app_nil_r. by destruct (cap - length desc).
  - destruct Hl as [-> Hl]. destruct (Hlive c) as [ec Hc]; [set_solver|].
    simpl in Hlen. destruct (cap - length desc) as [|room] eqn:Hroom; [lia|].
    simpl. monad. rewrite (entry_at_live _ _ _ Hc).
    unfold sibling_of in Hl at 2. rewrite Hc in Hl.
    specialize (IH _ (desc ++ [c]) Hl). rewrite length_app in IH. simpl in IH.
    replace (cap - (length desc + 1)) with room in IH by lia.
    rewrite <- app_assoc in IH. apply IH; [set_solver|lia].
Qed.

Lemma bfs_live en s scan desc c : forest en → bfs en s scan desc → c ∈ desc → is_Some (en c).
Proof. intros Hf Hb Hc. apply (bfs_below _ _ _ _ Hb) in Hc. by eapply descends_live. Qed.

Lemma bfs_step en s scan desc idx e l :
  forest en → bfs en s scan desc → desc !! scan = Some idx → en idx = Some e →
  kids en idx e l → bfs en s (S scan) (desc ++ l).
Proof.
  intros Hf Hb Hidx He [Hl Hin]. pose proof (bfs_NoDup _ _ _ _ Hb) as Hnd.
  assert (idx ∈ desc) as Hd by (by eapply list_elem_of_lookup_2).
  pose proof (bfs_below _ _ _ _ Hb _ Hd) as Hbelow.
  assert (scan < length desc) as Hlt by (by eapply lookup_lt_Some).
  assert (take (S scan) (desc ++ l) = take scan desc ++ [idx]) as Htake.
  { rewrite take_app_le by lia. by apply take_S_r. }
  split.
  - apply NoDup_app. split; [done|]. split; [|by eapply linked_NoDup].
    intros c Hc Hcl%Hin. destruct (bfs_parent _ _ _ _ Hb c Hc) as (q & Hq & Hqs).
    assert (q = idx) as -> by (by eapply child_of_unique).
    destruct Hqs as [->|Hq']; [by apply (descends_irrefl _ s Hf)|].
    apply list_elem_of_lookup in Hq' as [k Hk]. apply lookup_take_Some in Hk as [Hk Hks].
    pose proof (NoDup_lookup _ _ _ _ Hnd Hk Hidx). lia.
  - intros c [Hc|Hc]%elem_of_app; [by apply (bfs_below _ _ _ _ Hb)|].
    eapply descends_step; [done|]. by apply Hin.
  - intros q c. rewrite Htake, !elem_of_app, list_elem_of_singleton.
    intros [->|[Hq| ->]] Hc; [left|left|right; by apply Hin];
      eapply (bfs_closed _ _ _ _ Hb); eauto.
  - intros c. rewrite Htake, elem_of_app. setoid_rewrite elem_of_app.
    intros [Hc|Hc].
    + destruct (bfs_parent _ _ _ _ Hb c Hc) as (q & ? & ?). naive_solver.
    + exists idx. split; [by apply Hin|]. set_solver.
Qed.

Lemma expand_run t s todo scan desc :
  table_wf t → bfs (en_of t) s scan desc → todo + scan = N.to_nat CAP_TABLE_CAPACITY →
  ∃ desc', expand todo (N.of_nat scan) desc t = Done desc' t ∧
           bfs (en_of t) s (length desc') desc'.
Proof.
  intros [Hs Hf]. revert scan desc. induction todo as [|todo IH]; intros scan desc Hb Hsum.
  - exists desc. split; [done|].
    pose proof (live_length t desc Hs (bfs_NoDup _ _ _ _ Hb)
      (λ c, bfs_live _ _ _ _ c Hf Hb)) as Hlen.
    destruct Hb as [H1 H2 H3 H4]. rewrite take_ge in H3, H4 by lia.
    by split; rewrite ?firstn_all.
  - simpl. unfold aget. rewrite Nat2N.id. destruct (desc !! scan) as [idx|] eqn:Hidx.
    + assert (idx ∈ desc) as Hd by (by eapply list_elem_of_lookup_2).
      destruct (bfs_live _ _ _ _ _ Hf Hb Hd) as [e He].
      destruct (forest_kids _ Hf _ _ He) as (l & Hl).
      pose proof (bfs_step _ _ _ _ _ _ _ Hf Hb Hidx He Hl) as Hb'.
      monad. rewrite (entry_at_live _ _ _ He). simpl.
      rewrite (push_siblings_run t (first_child e) l desc).
      * replace (N.of_nat scan + 1)%N with (N.of_nat (S scan)) by lia.
        apply IH; [done|lia].
      * apply Hl.
      * intros c. by eapply kids_live.
      * pose proof (live_length t _ Hs (bfs_NoDup _ _ _ _ Hb')
          (λ c, bfs_live _ _ _ _ c Hf Hb')) as Hlen. by rewrite length_app in Hlen.
    + exists desc. split; [done|]. apply lookup_ge_None in Hidx.
      destruct Hb as [H1 H2 H3 H4]. rewrite take_ge in H3, H4 by lia.
      by split; rewrite ?firstn_all.
Qed.

(** The finished queue holds exactly the strict descendants. *)
Lemma bfs_exact en s desc c :
  bfs en s (length desc) desc → c ∈ desc ↔ descends en s c.
Proof.
  intros Hb. split; [by apply (bfs_below _ _ _ _ Hb)|].
  induction 1 as [c Hc|q c _ IH Hc].
  - apply (bfs_closed _ _ _ _ Hb s c); auto.
  - apply (bfs_closed _ _ _ _ Hb q c); [|done]. right. by rewrite firstn_all.
Qed.

(** [t'] is [t] without the strict descendants of the entry [e] at [s]. *)
Definition revoked t t' s e : Prop :=
  table_wf t' ∧ en_of t' s = Some (set_first_child None e) ∧ gen_of t' s = gen_of t s ∧
  (∀ j, descends (en_of t) s j → en_of t' j = None ∧ gen_of t' j = bump (gen_of t j)) ∧
  (∀ j, j ≠ s → ¬ descends (en_of t) s j →
        en_of t' j = en_of t j ∧ gen_of t' j = gen_of t j).

Lemma cap_revoke_dead t h : (∀ e, ¬ live t h e) → cap_revoke h t = Fail InvalidHandle t.
Proof. intros [He _]%dead_resolve. unfold cap_revoke. monad. simpl. by rewrite He. Qed.

(** The walk from a live entry [e] at [s]. *)
Lemma walk_run t s e :
  table_wf t → en_of t s = Some e →
  ∃ desc0 desc, push_siblings (room_of []) (first_child e) [] t = Done desc0 t ∧
    expand (N.to_nat CAP_TABLE_CAPACITY) 0 desc0 t = Done desc t ∧
    bfs (en_of t) s (length desc) desc.
Proof.
  intros Hwf He. pose proof Hwf as [Hs Hf].
  destruct (forest_kids _ Hf _ _ He) as (l & Hl).
  pose proof (linked_NoDup _ _ _ (proj1 Hl)) as Hnd.
  assert (∀ c, c ∈ l → is_Some (en_of t c)) as Hlive by (intros c; by eapply kids_live).
  exists l. assert (bfs (en_of t) s 0 l) as Hb.
  { split; [done|..].
    - intros c Hc. apply descends_child. by apply Hl.
    - rewrite take_0. intros q c [->|Hq] Hc; [by apply Hl|by apply not_elem_of_nil in Hq].
    - intros c Hc. exists s. split; [by apply Hl|auto]. }
  destruct (expand_run t s (N.to_nat CAP_TABLE_CAPACITY) 0 l Hwf Hb) as (desc & Hx & Hb');
    [lia|]. exists desc. split; [|done].
  apply (push_siblings_run t _ l []); [by apply Hl|done|]. simpl. by eapply live_length.
Qed.

(** The walk decides which entries descend from [s]. *)
Lemma descends_dec t s e j :
  table_wf t → en_of t s = Some e →
  descends (en_of t) s j ∨ ¬ descends (en_of t) s j.
Proof.
  intros Hwf He. destruct (walk_run t s e Hwf He) as (_ & desc & _ & _ & Hb).
  rewrite <- (bfs_exact _ _ _ j Hb). destruct (decide (j ∈ desc)); auto.
Qed.

Lemma cap_revoke_live t h e :
  table_wf t → live t h e →
  if negb (contains (rights (capability e)) REVOKE) then
    cap_revoke h t = Fail InsufficientRights t
  else ∃ t', cap_revoke h t = Done tt t' ∧ revoked t t' (cap_index h) e.
Proof.
  intros Hwf Hl. pose proof Hwf as [Hs Hf]. pose proof Hl as [He _].
  unfold cap_revoke. monad. unfold id. rewrite (live_resolve _ _ _ Hl). simpl try_. monad.
  rewrite !(entry_at_live _ _ _ He). cbn [ok_or]. monad.
  destruct (contains _ REVOKE); cbn [negb]; [|done].
  rewrite !(entry_at_live _ _ _ He). cbn [ok_or]. monad.
  destruct (walk_run t _ e Hwf He) as (desc0 & desc & -> & -> & Hb).
  assert (∀ j, j ∈ desc ↔ descends (en_of t) (cap_index h) j) as Hex
    by (intros j; by apply bfs_exact).
  destruct (free_slots_run t desc Hs) as (t1 & -> & Hs1 & Hen1 & Hg1);
    [apply Hb|intros i; by eapply bfs_live|].
  assert (cap_index h ∉ desc) as Hsd by (rewrite Hex; by apply descends_irrefl).
  destruct (update_entry_run t1 (cap_index h) e (set_first_child None) Hs1)
    as (t2 & -> & Hs2 & Hen2 & Hg2); [by rewrite Hen1, decide_False|].
  assert (∀ j, en_of t2 j = if decide (j = cap_index h) then Some (set_first_child None e)
    else if bool_decide (j ∈ desc) then None else en_of t j) as Hen.
  { intros j. rewrite Hen2, Hen1. repeat case_decide; try done; by case_bool_decide. }
  exists t2. split; [done|]. split_and!.
  - split; [done|]. eapply (forest_remove_below (en_of t)); [done|done| | |exact Hen].
    + by apply bool_decide_eq_false.
    + intros p c Hc. rewrite !bool_decide_eq_true, !Hex. split.
      * intros Hd. destruct Hd as [c Hc'|q c Hq Hc'].
        -- left. by eapply child_of_unique.
        -- right. by rewrite (child_of_unique _ _ _ _ Hc Hc').
      * intros [->|Hp]; [by apply descends_child|by eapply descends_step].
  - by rewrite Hen, decide_True.
  - by rewrite Hg2, Hg1, decide_False.
  - intros j Hj. apply Hex in Hj. rewrite Hen, Hg2, Hg1.
    rewrite decide_False by set_solver. by rewrite bool_decide_eq_true_2, decide_True.
  - intros j Hj Hnd. rewrite <- Hex in Hnd. rewrite Hen, Hg2, Hg1.
    by rewrite !decide_False, bool_decide_eq_false_2.
Qed.
End revoke.
