(* ===== verification/CapSpec.v ===== *)
(** * What the capability table promises

    The contract of [cap/table.rs] without slots, free list or sibling links: a
    finite map from handles to nodes, each with a capability, a parent handle and
    a depth. [grants] says what a successful operation does to the map and
    [refuses] when it fails with which error; the table refines this contract.
    The second half runs sequences of operations: no authority is created other
    than by [insert_root], and stale handles stay dead. *)

From stdpp Require Import prelude.
From Stdlib Require Import Lia NArith.
From S2P Require Import Prelude FreeList Arena Objects Rights Capability.
From S2P Require Import CapTable CapTree CapShape CapProofs.

Record Node := mkNode {
  node_cap : Capability;
  node_parent : option CapHandle;
  node_depth : N;
}.

Abbreviation caps := (CapHandle → option Node).

Inductive cap_op :=
  | OpInsertRoot (cap : Capability)
  | OpCopy (h : CapHandle) (r : CapRights)
  | OpDerive (h : CapHandle) (r : CapRights) (o : CapObject)
  | OpRevoke (h : CapHandle)
  | OpDrop (h : CapHandle)
  | OpTake (h : CapHandle).

Inductive cap_reply :=
  | RHandle (h : CapHandle)
  | RCap (c : Capability)
  | RUnit
  | RErr (e : CapError).

(** ** The contract *)

Definition child (m : caps) (p c : CapHandle) : Prop :=
  ∃ n, m c = Some n ∧ node_parent n = Some p.

(** [below m p c]: [c] was derived from [p], in one or more steps. *)
Inductive below (m : caps) (p : CapHandle) : CapHandle → Prop :=
  | below_child c : child m p c → below m p c
  | below_step q c : below m p q → child m q c → below m p c.

Definition full (m : caps) : Prop :=
  ∀ i, (i < CAP_TABLE_CAPACITY)%N → ∃ g n, m (mkCapHandle i g) = Some n.

Definition node_rights (n : Node) : CapRights := rights (node_cap n).

(** The handle an operation acts on. *)
Definition target (o : cap_op) : option CapHandle :=
  match o with
  | OpInsertRoot _ => None
  | OpCopy h _ | OpDerive h _ _ | OpRevoke h | OpDrop h | OpTake h => Some h
  end.

Inductive refuses (m : caps) : cap_op → CapError → Prop :=
  | refuse_dead o h :
      target o = Some h → m h = None → refuses m o InvalidHandle
  | refuse_insert_full cap :
      full m → refuses m (OpInsertRoot cap) CapsExhausted
  | refuse_copy_duplicate h r n :
      m h = Some n → contains (node_rights n) DUPLICATE = false →
      refuses m (OpCopy h r) InsufficientRights
  | refuse_copy_widen h r n :
      m h = Some n → contains (node_rights n) DUPLICATE = true →
      contains (node_rights n) r = false → refuses m (OpCopy h r) WidenedRights
  | refuse_copy_full h r n :
      m h = Some n → contains (node_rights n) DUPLICATE = true →
      contains (node_rights n) r = true → full m → refuses m (OpCopy h r) CapsExhausted
  | refuse_derive_derive h r o n :
      m h = Some n → contains (node_rights n) DERIVE = false →
      refuses m (OpDerive h r o) InsufficientRights
  | refuse_derive_widen h r o n :
      m h = Some n → contains (node_rights n) DERIVE = true →
      contains (node_rights n) r = false → refuses m (OpDerive h r o) WidenedRights
  | refuse_derive_deep h r o n :
      m h = Some n → contains (node_rights n) DERIVE = true →
      contains (node_rights n) r = true → node_depth n = MAX_DERIVATION_DEPTH →
      refuses m (OpDerive h r o) DerivationTooDeep
  | refuse_derive_full h r o n :
      m h = Some n → contains (node_rights n) DERIVE = true →
      contains (node_rights n) r = true → node_depth n ≠ MAX_DERIVATION_DEPTH →
      full m → refuses m (OpDerive h r o) CapsExhausted
  | refuse_revoke h n :
      m h = Some n → contains (node_rights n) REVOKE = false →
      refuses m (OpRevoke h) InsufficientRights
  | refuse_drop_children h c : child m h c → refuses m (OpDrop h) HasChildren
  | refuse_take_children h c : child m h c → refuses m (OpTake h) HasChildren.

Definition adds (m m' : caps) (h : CapHandle) (n : Node) : Prop :=
  m h = None ∧ ∀ h', m' h' = if decide (h' = h) then Some n else m h'.

Definition deletes (m m' : caps) (h : CapHandle) : Prop :=
  ∀ h', m' h' = if decide (h' = h) then None else m h'.

Inductive grants (m m' : caps) : cap_op → cap_reply → Prop :=
  | grant_insert cap h :
      adds m m' h (mkNode cap None 0) → grants m m' (OpInsertRoot cap) (RHandle h)
  | grant_copy src r n h :
      m src = Some n → contains (node_rights n) DUPLICATE = true →
      contains (node_rights n) r = true →
      adds m m' h (mkNode (new_capability r (object (node_cap n))) (node_parent n) (node_depth n)) →
      grants m m' (OpCopy src r) (RHandle h)
  | grant_derive src r o n h :
      m src = Some n → contains (node_rights n) DERIVE = true →
      contains (node_rights n) r = true → (node_depth n < MAX_DERIVATION_DEPTH)%N →
      adds m m' h (mkNode (new_capability r o) (Some src) (node_depth n + 1)) →
      grants m m' (OpDerive src r o) (RHandle h)
  | grant_revoke src n :
      m src = Some n → contains (node_rights n) REVOKE = true →
      (∀ h, below m src h → m' h = None) → (∀ h, ¬ below m src h → m' h = m h) →
      grants m m' (OpRevoke src) RUnit
  | grant_drop h n :
      m h = Some n → (∀ c, ¬ child m h c) → deletes m m' h → grants m m' (OpDrop h) RUnit
  | grant_take h n :
      m h = Some n → (∀ c, ¬ child m h c) → deletes m m' h →
      grants m m' (OpTake h) (RCap (node_cap n)).

(** ** The table as a map *)

Definition handle_at (t : CapabilityTable) (i : N) : CapHandle :=
  mkCapHandle i (default 0%N (gen_of t i)).

Definition node_of (t : CapabilityTable) (e : SlotEntry) : Node :=
  mkNode (capability e) (handle_at t <$> parent e) (depth e).

Definition abs (t : CapabilityTable) : caps := λ h,
  match entry_of t h with Ok e => Some (node_of t e) | Err _ => None end.

Definition reply_of {A} (f : A → cap_reply) (r : step CapabilityTable CapError A) :
    option (cap_reply * CapabilityTable) :=
  match r with
  | Done a t => Some (f a, t)
  | Fail e t => Some (RErr e, t)
  | _ => None
  end.

(** One call of the table; [None] if it panics or does not return. *)
Definition exec_cap `{BuildProfile} (o : cap_op) (t : CapabilityTable) :
    option (cap_reply * CapabilityTable) :=
  match o with
  | OpInsertRoot cap => reply_of RHandle (insert_root cap t)
  | OpCopy h r => reply_of RHandle (cap_copy h r t)
  | OpDerive h r o => reply_of RHandle (cap_derive h r o t)
  | OpRevoke h => reply_of (λ _, RUnit) (cap_revoke h t)
  | OpDrop h => reply_of (λ _, RUnit) (cap_drop h t)
  | OpTake h => reply_of RCap (cap_take h t)
  end.

Section abs.
Implicit Types (t : CapabilityTable) (h : CapHandle) (e : SlotEntry) (n : Node).

Lemma abs_live t h e : live t h e → abs t h = Some (node_of t e).
Proof. intros He%live_entry_of. unfold abs. by rewrite He. Qed.

Lemma abs_dead t h : (∀ e, ¬ live t h e) → abs t h = None.
Proof. intros [_ He]%dead_resolve. unfold abs. by rewrite He. Qed.

Lemma live_dec t h : (∃ e, live t h e) ∨ (∀ e, ¬ live t h e).
Proof. destruct (resolve_cases t h) as [(e & ? & _)|(? & _)]; eauto. Qed.

Lemma abs_Some t h n : abs t h = Some n ↔ ∃ e, live t h e ∧ n = node_of t e.
Proof.
  destruct (live_dec t h) as [[e He]|Hno].
  - rewrite (abs_live _ _ _ He). split; [naive_solver|].
    intros (e' & He' & ->). by rewrite (live_unique _ _ _ _ He He').
  - rewrite (abs_dead _ _ Hno). naive_solver.
Qed.

Lemma live_handle_at t i e : en_of t i = Some e → live t (handle_at t i) e.
Proof. intros He. destruct (live_handle _ _ _ He) as (g & ? & Hg).
  split; [done|]. simpl in *. unfold handle_at. simpl. by rewrite Hg. Qed.

Lemma handle_at_live t h e : live t h e → handle_at t (cap_index h) = h.
Proof. intros [_ Hg]. unfold handle_at. rewrite Hg. by destruct h. Qed.

Lemma full_head t : table_wf t → cfree_head t = None ↔ full (abs t).
Proof.
  intros [Hs _]. rewrite (cfree_head_None _ Hs). unfold full.
  split; intros Hall i Hi; specialize (Hall i Hi).
  - destruct Hall as [e He]. apply live_handle_at in He.
    exists (default 0%N (gen_of t i)), (node_of t e). by apply abs_live.
  - destruct Hall as (g & n & (e & [He _] & _)%abs_Some). eauto.
Qed.

(** Parents, children and descendants of handles and of indices. *)
Lemma child_abs t p c :
  child (abs t) p c ↔
  ∃ ec, live t c ec ∧ parent ec = Some (cap_index p) ∧ handle_at t (cap_index p) = p.
Proof.
  unfold child. setoid_rewrite abs_Some. split.
  - intros (n & (ec & Hc & ->) & Hp). simpl in Hp.
    destruct (parent ec) as [i|] eqn:Hpar; simplify_eq/=. eauto.
  - intros (ec & Hc & Hpar & Hp). eexists. split; [eauto|].
    simpl. rewrite Hpar. simpl. by rewrite Hp.
Qed.

Lemma child_abs_live t p ep c ec :
  live t p ep → live t c ec →
  child (abs t) p c ↔ child_of (en_of t) (cap_index p) (cap_index c).
Proof.
  intros Hp Hc. rewrite child_abs, (handle_at_live _ _ _ Hp). split.
  - intros (ec' & [Hc' _] & Hpar & _). by exists ec'.
  - intros (ec' & Hc' & Hpar). exists ec'. split; [|done].
    destruct Hc as [? ?]. split; congruence.
Qed.

Lemma below_abs_1 t h c :
  below (abs t) h c →
  (∃ ec, live t c ec) ∧ descends (en_of t) (cap_index h) (cap_index c).
Proof.
  induction 1 as [c Hc|q c _ [_ IH] Hc]; apply child_abs in Hc as (ec & Hl & Hpar & _);
    (split; [eauto|]); pose proof Hl as [He _].
  - apply descends_child. by exists ec.
  - eapply descends_step; [done|]. by exists ec.
Qed.

Lemma below_abs_2 t h e i :
  table_wf t → live t h e → descends (en_of t) (cap_index h) i →
  below (abs t) h (handle_at t i).
Proof.
  intros [Hs Hf] Hh Hd.
  assert (∀ p ep c, live t p ep → child_of (en_of t) (cap_index p) c →
            child (abs t) p (handle_at t c)) as Hstep.
  { intros p ep c Hp Hc. pose proof Hc as (ec & Hec & _).
    apply live_handle_at in Hec. by apply (child_abs_live t p ep _ ec). }
  induction Hd as [c Hc|q c Hq IH Hc].
  - apply below_child. by eapply Hstep.
  - destruct (child_live _ _ _ Hf Hc) as [[eq Heq] _].
    eapply below_step; [done|]. eapply Hstep; [by apply live_handle_at|done].
Qed.

Lemma below_abs t h e c ec :
  table_wf t → live t h e → live t c ec →
  below (abs t) h c ↔ descends (en_of t) (cap_index h) (cap_index c).
Proof.
  intros Hwf Hh Hc. split; [by intros [_ ?]%below_abs_1|].
  intros Hd. rewrite <- (handle_at_live _ _ _ Hc). by eapply below_abs_2.
Qed.

Lemma no_children t h e :
  table_wf t → live t h e → first_child e = None → ∀ c, ¬ child (abs t) h c.
Proof.
  intros [Hs Hf] Hh Hfc c (ec & [Hc _] & Hpar & _)%child_abs.
  destruct Hh as [Hi _]. apply (child_no_kids _ _ (cap_index c) _ Hf Hi Hfc). by exists ec.
Qed.

Lemma has_child t h e c0 :
  table_wf t → live t h e → first_child e = Some c0 → ∃ c, child (abs t) h c.
Proof.
  intros [Hs Hf] Hh Hfc. pose proof Hh as [Hi _].
  pose proof (first_child_live _ _ _ _ Hf Hi Hfc) as Hc. pose proof Hc as (ec & Hec & _).
  exists (handle_at t c0). by eapply (child_abs_live t h e); [|apply live_handle_at|].
Qed.
End abs.

(** ** Refinement *)

Section refine.
Implicit Types (t : CapabilityTable) (h : CapHandle) (e : SlotEntry) (n : Node).

(** The node of an entry only depends on its capability, its depth and its
    parent's handle. *)
Lemma abs_same t t' h :
  gen_of t' (cap_index h) = gen_of t (cap_index h) →
  match en_of t (cap_index h), en_of t' (cap_index h) with
  | Some e, Some e' => node_of t' e' = node_of t e
  | None, None => True
  | _, _ => False
  end → abs t' h = abs t h.
Proof.
  intros Hg Hen. destruct (live_dec t h) as [[e Hl]|Hno].
  - rewrite (abs_live _ _ _ Hl). destruct Hl as [He Hge]. rewrite He in Hen.
    destruct (en_of t' (cap_index h)) as [e'|] eqn:He'; [|done].
    rewrite <- Hen. apply abs_live. split; congruence.
  - rewrite (abs_dead _ _ Hno). apply abs_dead. intros e' [He' Hge']. rewrite He' in Hen.
    destruct (en_of t (cap_index h)) as [e|] eqn:He; [|done].
    apply (Hno e). split; congruence.
Qed.

Lemma handle_at_gens t t' i : gen_of t' i = gen_of t i → handle_at t' i = handle_at t i.
Proof. intros Hg. unfold handle_at. by rewrite Hg. Qed.

Lemma abs_added t t' i g new :
  added t t' i g new → adds (abs t) (abs t') (mkCapHandle i g) (node_of t new).
Proof.
  intros (_ & Hi & Hg & Hgen & Hnew & Hoth).
  assert (∀ e e', capability e' = capability e → parent e' = parent e → depth e' = depth e →
            node_of t' e' = node_of t e) as Hnode.
  { intros e e' H1 H2 H3. unfold node_of. rewrite H1, H2, H3. f_equal.
    destruct (parent e); simpl; [|done]. f_equal. by apply handle_at_gens. }
  split.
  - apply abs_dead. intros e [He _]. simpl in He. congruence.
  - intros h. case_decide as Hh.
    + subst h. rewrite <- (Hnode new new) by done. apply abs_live. split; [done|].
      simpl. congruence.
    + destruct (decide (cap_index h = i)) as [Hih|Hih].
      * assert (∀ t1 e, gen_of t1 i = Some g → ¬ live t1 h e) as Hdead.
        { intros t1 e Hg1 [_ Hg2]. rewrite Hih in Hg2. destruct Hh, h; simpl in *. congruence. }
        rewrite !abs_dead; [done|..]; intros e; apply Hdead; congruence.
      * apply abs_same; [done|]. rewrite (Hoth _ Hih).
        destruct (parent new); [case_decide|]; destruct (en_of t (cap_index h)); simpl; try done;
          by apply Hnode.
Qed.

Lemma abs_removed t t' h e :
  table_wf t → live t h e → first_child e = None → removed t t' (cap_index h) e →
  deletes (abs t) (abs t') h.
Proof.
  intros [Hs Hf] Hl Hfc (_ & Hnone & Hoth & Hgen) h'. pose proof Hl as [Hi Hg].
  case_decide as Hh.
  - subst h'. apply abs_dead. intros e' [He' _]. congruence.
  - destruct (decide (cap_index h' = cap_index h)) as [Hii|Hii].
    + rewrite !abs_dead; [done|..]; intros e' [He' Hg']; rewrite Hii in *; [|congruence].
      destruct Hh, h, h'; simpl in *. congruence.
    + apply abs_same; [by rewrite Hgen, decide_False|]. rewrite (Hoth _ Hii).
      destruct (en_of t (cap_index h')) as [e'|] eqn:He'; [|done]. unfold node_of. simpl.
      f_equal. destruct (parent e') as [p|] eqn:Hp; [|done]. simpl. f_equal.
      apply handle_at_gens. rewrite Hgen, decide_False; [done|]. intros ->.
      apply (child_no_kids _ _ (cap_index h') _ Hf Hi Hfc). by exists e'.
Qed.

Lemma abs_revoked t t' h e :
  table_wf t → live t h e → revoked t t' (cap_index h) e →
  (∀ h', below (abs t) h h' → abs t' h' = None) ∧
  (∀ h', ¬ below (abs t) h h' → abs t' h' = abs t h').
Proof.
  intros Hwf Hl (_ & Hsrc & Hgs & Hbelow & Hoth). pose proof Hwf as [Hs Hf].
  pose proof Hl as [Hi Hg]. split; intros h' Hh'.
  - apply below_abs_1 in Hh' as [_ Hd]. destruct (Hbelow _ Hd) as [Hn _].
    apply abs_dead. intros e' [He' _]. congruence.
  - assert (∀ j ej, en_of t j = Some ej → ¬ descends (en_of t) (cap_index h) j →
      ∀ p, parent ej = Some p → handle_at t' p = handle_at t p) as Hpar.
    { intros j ej Hj Hnd p Hp. apply handle_at_gens.
      destruct (decide (p = cap_index h)) as [->|Hph]; [done|]. apply Hoth; [done|].
      intros Hd. apply Hnd. eapply descends_step; [done|]. by exists ej. }
    destruct (live_dec t h') as [[e' Hl']|Hno].
    + rewrite (below_abs _ _ _ _ _ Hwf Hl Hl') in Hh'. pose proof Hl' as [He' _].
      destruct (decide (cap_index h' = cap_index h)) as [Hii|Hii].
      * apply abs_same; rewrite Hii; [done|]. rewrite Hi, Hsrc. unfold node_of. simpl. f_equal.
        destruct (parent e) as [p|] eqn:Hp; [|done]. simpl. f_equal.
        apply (Hpar _ _ Hi); [|done]. by apply descends_irrefl.
      * destruct (Hoth _ Hii Hh') as [Hen Hgen]. apply abs_same; [done|]. rewrite Hen, He'.
        unfold node_of. f_equal. destruct (parent e') as [p|] eqn:Hp; [|done]. simpl. f_equal.
        by apply (Hpar _ _ He').
    + rewrite (abs_dead t h' Hno). apply abs_dead. intros e' Hl'. pose proof Hl' as [He' Hg'].
      destruct (decide (cap_index h' = cap_index h)) as [Hii|Hii].
      { apply (Hno e). rewrite Hii, Hgs in Hg'. split; rewrite Hii; congruence. }
      destruct (Hoth (cap_index h') Hii) as [Hen Hgen]; [|apply (Hno e'); split; congruence].
      intros Hd. destruct (Hbelow _ Hd). congruence.
Qed.

Lemma node_of_derived t h e r o :
  live t h e →
  node_of t (mkEntry (new_capability r o) (Some (cap_index h)) None (first_child e) (depth e + 1))
  = mkNode (new_capability r o) (Some h) (depth e + 1).
Proof. intros Hl. unfold node_of. simpl. by rewrite (handle_at_live _ _ _ Hl). Qed.

Definition outcome t (o : cap_op) (r : cap_reply) t' : Prop :=
  (∃ err, r = RErr err ∧ refuses (abs t) o err ∧ t' = t) ∨ grants (abs t) (abs t') o r.

Lemma outcome_err t o err : refuses (abs t) o err → outcome t o (RErr err) t.
Proof. intros ?. left. eauto. Qed.

Context `{BuildProfile}.

Lemma exec_insert_outcome t cap :
  table_wf t → ∃ r t', exec_cap (OpInsertRoot cap) t = Some (r, t') ∧ table_wf t' ∧
                       outcome t (OpInsertRoot cap) r t'.
Proof.
  intros Hwf. simpl. destruct (cfree_head t) as [i|] eqn:Hh.
  - destruct (insert_root_run t cap i Hwf Hh) as (g & t' & -> & Hadd).
    simpl. do 2 eexists. split; [done|]. split; [apply Hadd|]. right. constructor.
    by apply abs_added in Hadd.
  - rewrite (insert_root_full _ _ Hh). simpl. do 2 eexists. split_and!; [done..|].
    apply outcome_err. constructor. by apply full_head.
Qed.

Lemma exec_derive_outcome t h e r o :
  table_wf t → live t h e →
  ∃ rep t', exec_cap (OpDerive h r o) t = Some (rep, t') ∧ table_wf t' ∧
            outcome t (OpDerive h r o) rep t'.
Proof.
  intros Hwf Hl. pose proof (cap_derive_live t h e r o Hwf Hl) as Hrun. simpl.
  pose proof (abs_live _ _ _ Hl) as Habs. pose proof Hwf as [_ Hf].
  pose proof (forest_depth _ Hf _ _ (proj1 Hl)) as Hdep.
  destruct (contains (rights (capability e)) DERIVE) eqn:H1; simpl in Hrun.
  2:{ rewrite Hrun. do 2 eexists. split_and!; [done..|]. by eapply outcome_err, refuse_derive_derive. }
  destruct (contains (rights (capability e)) r) eqn:H2; simpl in Hrun.
  2:{ rewrite Hrun. do 2 eexists. split_and!; [done..|]. by eapply outcome_err, refuse_derive_widen. }
  case_decide as H3.
  { rewrite Hrun. do 2 eexists. split_and!; [done..|]. by eapply outcome_err, refuse_derive_deep. }
  destruct (cfree_head t) as [i|] eqn:Hh.
  - destruct Hrun as (g & t' & -> & Hadd). simpl. do 2 eexists. split; [done|].
    split; [apply Hadd|]. right. apply abs_added in Hadd. rewrite (node_of_derived _ _ _ _ _ Hl) in Hadd.
    eapply grant_derive; try done. simpl. lia.
  - rewrite Hrun. do 2 eexists. split_and!; [done..|].
    apply (full_head _ Hwf) in Hh. by eapply outcome_err, refuse_derive_full.
Qed.

Lemma exec_copy_outcome t h e r :
  table_wf t → live t h e →
  ∃ rep t', exec_cap (OpCopy h r) t = Some (rep, t') ∧ table_wf t' ∧
            outcome t (OpCopy h r) rep t'.
Proof.
  intros Hwf Hl. pose proof (cap_copy_live t h e r Hwf Hl) as Hrun. simpl.
  pose proof (abs_live _ _ _ Hl) as Habs.
  destruct (contains (rights (capability e)) DUPLICATE) eqn:H1; simpl in Hrun.
  2:{ rewrite Hrun. do 2 eexists. split_and!; [done..|]. by eapply outcome_err, refuse_copy_duplicate. }
  destruct (contains (rights (capability e)) r) eqn:H2; simpl in Hrun.
  2:{ rewrite Hrun. do 2 eexists. split_and!; [done..|]. by eapply outcome_err, refuse_copy_widen. }
  destruct (cfree_head t) as [i|] eqn:Hh.
  - destruct Hrun as (g & t' & -> & Hadd). simpl. do 2 eexists. split; [done|].
    split; [apply Hadd|]. right. apply abs_added in Hadd. by eapply grant_copy.
  - rewrite Hrun. do 2 eexists. split_and!; [done..|].
    apply (full_head _ Hwf) in Hh. by eapply outcome_err, refuse_copy_full.
Qed.

Lemma exec_revoke_outcome t h e :
  table_wf t → live t h e →
  ∃ rep t', exec_cap (OpRevoke h) t = Some (rep, t') ∧ table_wf t' ∧
            outcome t (OpRevoke h) rep t'.
Proof.
  intros Hwf Hl. pose proof (cap_revoke_live t h e Hwf Hl) as Hrun. simpl.
  pose proof (abs_live _ _ _ Hl) as Habs.
  destruct (contains (rights (capability e)) REVOKE) eqn:H1; simpl in Hrun.
  - destruct Hrun as (t' & -> & Hrev). simpl. do 2 eexists. split; [done|].
    split; [apply Hrev|]. right. destruct (abs_revoked _ _ _ _ Hwf Hl Hrev) as [? ?].
    by eapply grant_revoke.
  - rewrite Hrun. do 2 eexists. split_and!; [done..|]. by eapply outcome_err, refuse_revoke.
Qed.

Lemma exec_remove_outcome t h e :
  table_wf t → live t h e →
  (∃ rep t', exec_cap (OpDrop h) t = Some (rep, t') ∧ table_wf t' ∧ outcome t (OpDrop h) rep t') ∧
  (∃ rep t', exec_cap (OpTake h) t = Some (rep, t') ∧ table_wf t' ∧ outcome t (OpTake h) rep t').
Proof.
  intros Hwf Hl. pose proof (cap_drop_live t h e Hwf Hl) as Hdrop.
  pose proof (cap_take_live t h e Hwf Hl) as Htake. simpl.
  pose proof (abs_live _ _ _ Hl) as Habs. destruct (first_child e) as [c0|] eqn:Hfc.
  - destruct (has_child _ _ _ _ Hwf Hl Hfc) as [c Hc]. rewrite Hdrop, Htake.
    split; do 2 eexists; (split_and!; [done..|]); eapply outcome_err.
    + by eapply refuse_drop_children.
    + by eapply refuse_take_children.
  - pose proof (no_children _ _ _ Hwf Hl Hfc) as Hno.
    destruct Hdrop as (t1 & -> & Hr1). destruct Htake as (t2 & -> & Hr2).
    split; (do 2 eexists; split; [done|]; split; [by apply Hr1 || by apply Hr2|]); right.
    + eapply grant_drop; [done..|]. by eapply abs_removed.
    + eapply (grant_take _ _ _ (node_of t e)); [done..|]. by eapply abs_removed.
Qed.

Lemma exec_cap_outcome t o :
  table_wf t → ∃ r t', exec_cap o t = Some (r, t') ∧ table_wf t' ∧ outcome t o r t'.
Proof.
  intros Hwf. destruct (target o) as [h|] eqn:Ht.
  - destruct (live_dec t h) as [[e Hl]|Hno].
    + destruct o; simpl in Ht; simplify_eq.
      * by eapply exec_copy_outcome.
      * by eapply exec_derive_outcome.
      * by eapply exec_revoke_outcome.
      * by eapply exec_remove_outcome.
      * by eapply exec_remove_outcome.
    + exists (RErr InvalidHandle), t. split_and!; [|done|].
      * destruct o; simpl in Ht; simplify_eq; simpl.
        -- by rewrite cap_copy_dead.
        -- by rewrite cap_derive_dead.
        -- by rewrite cap_revoke_dead.
        -- by rewrite cap_drop_dead.
        -- by rewrite cap_take_dead.
      * eapply outcome_err, refuse_dead; [done|by apply abs_dead].
  - destruct o; try done. by apply exec_insert_outcome.
Qed.
End refine.

(** ** Sequences of operations *)

Section sequences.
Context `{BuildProfile}.
Implicit Types (t : CapabilityTable) (h : CapHandle) (e : SlotEntry) (n : Node).

Fixpoint run_caps (os : list cap_op) (t : CapabilityTable) : option CapabilityTable :=
  match os with
  | [] => Some t
  | o :: os => '(_, t') ← exec_cap o t; run_caps os t'
  end.

Definition inserted (os : list cap_op) : list Capability :=
  omap (λ o, match o with OpInsertRoot cap => Some cap | _ => None end) os.

Lemma table_new_wf : table_wf table_new.
Proof.
  split; [apply shape_new|]. split; intros ? ?; rewrite en_of_new; done.
Qed.

Lemma run_caps_wf os t : table_wf t → ∃ t', run_caps os t = Some t' ∧ table_wf t'.
Proof.
  revert t. induction os as [|o os IH]; intros t Hwf; simpl; [eauto|].
  destruct (exec_cap_outcome t o Hwf) as (r & t' & -> & Hwf' & _). simpl. auto.
Qed.

Lemma lookup_cap_abs t h :
  lookup_cap t h = match abs t h with Some n => Ok (node_cap n) | None => Err InvalidHandle end.
Proof.
  unfold lookup_cap, abs. destruct (resolve_cases t h) as [(e & _ & -> & _)|(_ & -> & _)]; done.
Qed.

(** Authority comes from [insert_root] only: whatever the map holds was there
    or was inserted, with at least these rights. *)
Definition backed (src : list Capability) (n : Node) : Prop :=
  ∃ c, c ∈ src ∧ contains (rights c) (node_rights n) = true.

Lemma outcome_backed t o r t' src :
  outcome t o r t' → (∀ h n, abs t h = Some n → backed src n) →
  ∀ h n, abs t' h = Some n → backed (src ++ inserted [o]) n.
Proof.
  intros Hout Hb.
  assert (∀ n, backed src n → backed (src ++ inserted [o]) n) as Hw.
  { intros n (c & Hc & ?). exists c. set_solver. }
  destruct Hout as [(e & _ & _ & ->)|Hg]; [naive_solver|].
  assert (∀ hn nn, adds (abs t) (abs t') hn nn → backed (src ++ inserted [o]) nn →
            ∀ h n, abs t' h = Some n → backed (src ++ inserted [o]) n) as Hadd.
  { intros hn nn [_ Hupd] Hnn h n. rewrite Hupd. case_decide; [naive_solver|eauto]. }
  assert (∀ hd, deletes (abs t) (abs t') hd →
            ∀ h n, abs t' h = Some n → backed (src ++ inserted [o]) n) as Hdel.
  { intros hd Hd h n. rewrite Hd. case_decide; [done|eauto]. }
  assert (∀ h n nn, abs t h = Some n → contains (node_rights n) (node_rights nn) = true →
            backed (src ++ inserted [o]) nn) as Hsub.
  { intros h n nn Hn Hr. destruct (Hb h n Hn) as (c & Hc & Hcr). apply Hw.
    exists c. split; [done|]. by eapply contains_trans. }
  inversion Hg as [cap hn Ha|src0 rr n0 hn Hn0 _ Hr Ha|src0 rr oo n0 hn Hn0 _ Hr _ Ha
    |src0 n0 Hn0 _ Hgone Hkeep|hd n0 _ _ Hd|hd n0 _ _ Hd]; simplify_eq.
  - apply (Hadd _ _ Ha). exists cap. split; [simpl; set_solver|apply contains_refl].
  - apply (Hadd _ _ Ha). by eapply Hsub.
  - apply (Hadd _ _ Ha). by eapply Hsub.
  - intros h n Hn. destruct (abs t h) as [n1|] eqn:Hn1.
    + assert (¬ below (abs t) src0 h) as Hnb by (intros ?%Hgone; congruence).
      rewrite (Hkeep _ Hnb), Hn1 in Hn. simplify_eq. eauto.
    + assert (¬ below (abs t) src0 h) as Hnb.
      { intros [[ec Hl] _]%below_abs_1. apply abs_live in Hl. congruence. }
      rewrite (Hkeep _ Hnb) in Hn. congruence.
  - by apply Hdel with hd.
  - by apply Hdel with hd.
Qed.

Lemma run_caps_backed os t t' src :
  table_wf t → run_caps os t = Some t' → (∀ h n, abs t h = Some n → backed src n) →
  ∀ h n, abs t' h = Some n → backed (src ++ inserted os) n.
Proof.
  revert t src. induction os as [|o os IH]; intros t src Hwf Hr Hb; simpl in Hr.
  - simplify_eq. unfold inserted. simpl. by rewrite app_nil_r.
  - destruct (exec_cap_outcome t o Hwf) as (r & t1 & Ho & Hwf1 & Hout).
    rewrite Ho in Hr. simpl in Hr.
    pose proof (IH t1 (src ++ inserted [o]) Hwf1 Hr (outcome_backed _ _ _ _ _ Hout Hb)) as Hres.
    rewrite <- app_assoc in Hres. unfold inserted in *. rewrite <- omap_app in Hres. done.
Qed.

(** One operation bumps a slot's generation at most once, and an entry only
    disappears with a bump. *)
Definition aged t t' (i : N) : Prop :=
  (gen_of t' i = gen_of t i ∧ (is_Some (en_of t i) → is_Some (en_of t' i))) ∨
  gen_of t' i = bump (gen_of t i).

Lemma aged_added t t' i g new j : added t t' i g new → aged t t' j.
Proof.
  intros (_ & Hi & _ & Hgen & Hnew & Hoth). left. split; [done|]. intros [e He].
  assert (j ≠ i) as Hji by congruence. rewrite (Hoth _ Hji), He.
  destruct (parent new); [case_decide|]; simpl; eauto.
Qed.

Lemma aged_removed t t' i e j : removed t t' i e → aged t t' j.
Proof.
  intros (_ & _ & Hoth & Hgen). unfold aged. rewrite Hgen. case_decide as Hji.
  - subst. by right.
  - left. split; [done|]. rewrite (Hoth _ Hji). intros [e' ->]. simpl. eauto.
Qed.

Lemma aged_revoked t t' s e j :
  table_wf t → en_of t s = Some e → revoked t t' s e → aged t t' j.
Proof.
  intros Hwf He (_ & Hsrc & Hgs & Hbelow & Hoth).
  destruct (decide (j = s)) as [->|Hjs]; [left; rewrite Hsrc; eauto|].
  destruct (descends_dec t s e j Hwf He) as [Hd|Hnd].
  - right. by apply Hbelow.
  - left. destruct (Hoth _ Hjs Hnd) as [-> ?]. auto.
Qed.

(** What a call returned, when it is known to be an error or a change. *)
Lemma reply_aged {A} t t' (f : A → cap_reply) m r i :
  reply_of f m = Some (r, t') →
  ((∃ err, m = Fail err t) ∨ (∃ a t1, m = Done a t1 ∧ aged t t1 i)) → aged t t' i.
Proof.
  intros Hr [[err ->]|(a & t1 & -> & Hag)]; simplify_eq/=; [left; auto|done].
Qed.

Lemma exec_cap_aged t o r t' i : table_wf t → exec_cap o t = Some (r, t') → aged t t' i.
Proof.
  intros Hwf Ho. destruct o as [cap|h rr|h rr oo|h|h|h]; simpl in Ho; eapply reply_aged; try exact Ho.
  - destruct (cfree_head t) as [j|] eqn:Hh.
    + destruct (insert_root_run t cap j Hwf Hh) as (g & t1 & -> & Hadd).
      eauto 6 using aged_added.
    + rewrite (insert_root_full _ _ Hh). eauto.
  - destruct (live_dec t h) as [[e Hl]|Hno]; [|rewrite cap_copy_dead by done; eauto].
    pose proof (cap_copy_live t h e rr Hwf Hl) as Hrun.
    repeat case_match; eauto. destruct Hrun as (g & t1 & -> & Hadd). eauto 6 using aged_added.
  - destruct (live_dec t h) as [[e Hl]|Hno]; [|rewrite cap_derive_dead by done; eauto].
    pose proof (cap_derive_live t h e rr oo Hwf Hl) as Hrun.
    repeat case_match; eauto. destruct Hrun as (g & t1 & -> & Hadd). eauto 6 using aged_added.
  - destruct (live_dec t h) as [[e Hl]|Hno]; [|rewrite cap_revoke_dead by done; eauto].
    pose proof (cap_revoke_live t h e Hwf Hl) as Hrun.
    case_match; eauto. destruct Hrun as (t1 & -> & Hrev). destruct Hl.
    eauto 6 using aged_revoked.
  - destruct (live_dec t h) as [[e Hl]|Hno]; [|rewrite cap_drop_dead by done; eauto].
    pose proof (cap_drop_live t h e Hwf Hl) as Hrun.
    case_match; eauto. destruct Hrun as (t1 & -> & Hrem). eauto 6 using aged_removed.
  - destruct (live_dec t h) as [[e Hl]|Hno]; [|rewrite cap_take_dead by done; eauto].
    pose proof (cap_take_live t h e Hwf Hl) as Hrun.
    case_match; eauto. destruct Hrun as (t1 & -> & Hrem). eauto 6 using aged_removed.
Qed.

Lemma aged_generation t t' i g :
  shape t → aged t t' i → gen_of t i = Some g →
  ∃ d, (d ≤ 1)%N ∧ gen_of t' i = Some (wrapping_add 32 g d).
Proof.
  intros Hs [[-> _]|Hb] Hg; [exists 0%N|exists 1%N; by rewrite Hb, Hg].
  split; [lia|]. rewrite wrapping_add_small; rewrite N.add_0_r; [done|].
  by eapply (shape_gen _ Hs).
Qed.

Lemma run_caps_generation os t t' i g :
  table_wf t → run_caps os t = Some t' → gen_of t i = Some g →
  ∃ d, (d ≤ N.of_nat (length os))%N ∧ gen_of t' i = Some (wrapping_add 32 g d).
Proof.
  revert t g. induction os as [|o os IH]; intros t g Hwf Hr Hg; simpl in Hr.
  - simplify_eq. exists 0%N. split; [lia|]. pose proof Hwf as [Hs _].
    rewrite wrapping_add_small; rewrite N.add_0_r; [done|]. by eapply (shape_gen _ Hs).
  - destruct (exec_cap_outcome t o Hwf) as (r & t1 & Ho & Hwf1 & _).
    rewrite Ho in Hr. simpl in Hr. pose proof (exec_cap_aged _ _ _ _ i Hwf Ho) as Hag.
    destruct (aged_generation t t1 i g (proj1 Hwf) Hag Hg) as (d1 & Hd1 & Hg1).
    destruct (IH t1 _ Hwf1 Hr Hg1) as (d2 & Hd2 & Hg2).
    exists (d1 + d2)%N. rewrite wrapping_add_assoc in Hg2. simpl. split; [lia|done].
Qed.
End sequences.

(** ** Attenuation, and the queries *)

Section queries.
Implicit Types (t : CapabilityTable) (h : CapHandle).

Lemma below_attenuates t p c np nc :
  table_wf t → below (abs t) p c → abs t p = Some np → abs t c = Some nc →
  contains (node_rights np) (node_rights nc) = true ∧
  (node_depth np < node_depth nc ≤ MAX_DERIVATION_DEPTH)%N.
Proof.
  intros [Hs Hf] Hb (ep & [Hp _] & ->)%abs_Some (ec & [Hc _] & ->)%abs_Some.
  apply below_abs_1 in Hb as [_ Hd]. unfold node_rights. simpl. split_and!.
  - by eapply descends_rights.
  - by eapply descends_depth.
  - by eapply (forest_depth _ Hf).
Qed.

Lemma references_object_abs t o :
  references_object t o = true ↔ ∃ h n, abs t h = Some n ∧ object (node_cap n) = o.
Proof.
  unfold references_object. rewrite existsb_exists. setoid_rewrite <- list_elem_of_In.
  setoid_rewrite bool_decide_eq_true. split.
  - intros (e & (s & Hs & He)%list_elem_of_omap & Ho).
    apply list_elem_of_lookup in Hs as [i Hi].
    assert (en_of t (N.of_nat i) = Some e) as Hen.
    { apply en_of_Some. exists s. split; [|done]. unfold aget. by rewrite Nat2N.id. }
    apply live_handle_at, abs_live in Hen. eauto.
  - intros (h & n & (e & [He _] & ->)%abs_Some & Ho). exists e. split; [|done].
    apply en_of_Some in He as (s & Hs & He). apply list_elem_of_omap. exists s.
    split; [|done]. by eapply list_elem_of_lookup_2.
Qed.
End queries.

(** ** Properties *)

(** C2: every operation of the capability table returns, in debug and release
    builds, on every well-formed table, and leaves a well-formed table. Either it
    fails with an error the contract prescribes, in the order the code checks
    them, and leaves the table untouched; or it does to the map of handles exactly
    what the contract grants: [insert_root], [cap_copy] and [cap_derive] add one
    node under a fresh handle, [cap_drop] and [cap_take] delete one leaf, and
    [cap_revoke] deletes exactly the strict descendants. *)
Theorem cap_table_refines_contract `{BuildProfile} (t : CapabilityTable) (o : cap_op) :
  table_wf t →
  ∃ r t', exec_cap o t = Some (r, t') ∧ table_wf t' ∧
    ((∃ err, r = RErr err ∧ refuses (abs t) o err ∧ t' = t) ∨ grants (abs t) (abs t') o r).
Proof. intros Hwf. destruct (exec_cap_outcome t o Hwf) as (r & t' & ? & ? & ?). eauto. Qed.

Definition demo_object : CapObject := ObjTask (task_from_slot (mkSlotId 0 0)).
Definition demo_root : Capability := new_capability (mkRights 31) demo_object.
Definition demo_table : CapabilityTable := final (insert_root demo_root) table_new.

Lemma demo_table_wf : table_wf demo_table.
Proof.
  destruct (insert_root_run table_new demo_root 0 table_new_wf) as (g & t' & Hr & Hwf & _); [done|].
  unfold demo_table, final. by rewrite Hr.
Qed.

Lemma cap_table_refines_contract_witness :
  let _ := debug_profile in
  let o := OpDerive (mkCapHandle 0 0) (mkRights 5) demo_object in
  table_wf demo_table ∧
  ∃ r t', exec_cap o demo_table = Some (r, t') ∧ table_wf t' ∧
    ((∃ err, r = RErr err ∧ refuses (abs demo_table) o err ∧ t' = demo_table) ∨
     grants (abs demo_table) (abs t') o r).
Proof.
  intros p o. split; [apply demo_table_wf|].
  apply (cap_table_refines_contract (H := p) demo_table o), demo_table_wf.
Defined.

(** C12: authority never grows along the derivation tree, whatever a task does with
    its table. After any sequence of table operations on a new table, refused ones
    and revocations included, a capability derived from another in any number of
    [cap_derive] and [cap_copy] steps has no right its ancestor lacks, is strictly
    deeper, and no deeper than [MAX_DERIVATION_DEPTH]. *)
Theorem derived_authority_attenuates `{BuildProfile} os t p c np nc :
  run_caps os table_new = Some t → below (abs t) p c → abs t p = Some np → abs t c = Some nc →
  lookup_cap t p = Ok (node_cap np) ∧ lookup_cap t c = Ok (node_cap nc) ∧
  contains (rights (node_cap np)) (rights (node_cap nc)) = true ∧
  (node_depth np < node_depth nc ≤ MAX_DERIVATION_DEPTH)%N.
Proof.
  intros Hr Hb Hp Hc. destruct (run_caps_wf os table_new table_new_wf) as (t' & Hr' & Hwf).
  simplify_eq. rewrite !lookup_cap_abs, Hp, Hc. do 2 (split; [done|]). by eapply below_attenuates.
Qed.

(** A chain of a derivation, a copy of the child and a derivation from the copy. *)
Lemma derived_authority_attenuates_witness :
  let _ := debug_profile in
  let h := mkCapHandle 0 0 in
  let c := mkCapHandle 3 0 in
  let os := [OpInsertRoot demo_root; OpDerive h (mkRights 7) demo_object;
             OpCopy (mkCapHandle 1 0) (mkRights 3); OpDerive (mkCapHandle 2 0) (mkRights 2) demo_object;
             OpDerive h (mkRights 32) demo_object] in
  let t := default table_new (run_caps os table_new) in
  below (abs t) h c ∧
  lookup_cap t h = Ok demo_root ∧ lookup_cap t c = Ok (new_capability (mkRights 2) demo_object) ∧
  contains (mkRights 31) (mkRights 2) = true ∧ (0 < 2 ≤ 16)%N.
Proof.
  intros prof h c os t.
  assert (below (abs t) h c) as Hb.
  { apply below_step with (mkCapHandle 2 0); [apply below_child|];
      (eexists; split; vm_compute; reflexivity). }
  split; [done|].
  apply (derived_authority_attenuates (H := prof) os t h c (mkNode demo_root None 0)
    (mkNode (new_capability (mkRights 2) demo_object) (Some (mkCapHandle 2 0)) 2)); [..|exact Hb| |];
    by vm_compute.
Defined.

(** C9: no sequence of table operations creates authority: every capability
    that a table built from [new] ever resolves has a subset of the rights of some
    capability that was put in with [insert_root]. *)
Theorem authority_comes_from_roots `{BuildProfile} os t h c :
  run_caps os table_new = Some t → lookup_cap t h = Ok c →
  ∃ root, root ∈ inserted os ∧ contains (rights root) (rights c) = true.
Proof.
  intros Hr Hl. rewrite lookup_cap_abs in Hl.
  destruct (abs t h) as [n|] eqn:Hn; [|done]. injection Hl as <-.
  apply (run_caps_backed os table_new t [] table_new_wf Hr) with h; [|done].
  intros h' n' (e & [He _] & _)%abs_Some. by rewrite en_of_new in He.
Qed.

Lemma authority_comes_from_roots_witness :
  let _ := release_profile in
  let h := mkCapHandle 0 0 in
  let os := [OpInsertRoot demo_root; OpDerive h (mkRights 7) demo_object;
             OpCopy (mkCapHandle 1 0) (mkRights 2)] in
  let t := default table_new (run_caps os table_new) in
  run_caps os table_new = Some t ∧
  lookup_cap t (mkCapHandle 2 0) = Ok (new_capability (mkRights 2) demo_object) ∧
  ∃ root, root ∈ [demo_root] ∧ contains (rights root) (mkRights 2) = true.
Proof.
  intros p h os t. split; [by vm_compute|]. split; [by vm_compute|].
  apply (authority_comes_from_roots (H := p) os t (mkCapHandle 2 0)
    (new_capability (mkRights 2) demo_object)); by vm_compute.
Defined.

(** C5: a successful [cap_revoke] kills every handle derived from [h], in any
    number of steps, and changes what no other handle (including [h]) resolves
    to. *)
Theorem revoke_kills_exactly_descendants `{BuildProfile} t h t' :
  table_wf t → cap_revoke h t = Done tt t' →
  (∀ c, below (abs t) h c → lookup_cap t' c = Err InvalidHandle) ∧
  (∀ c, ¬ below (abs t) h c → lookup_cap t' c = lookup_cap t c).
Proof.
  intros Hwf Hr. destruct (live_dec t h) as [[e Hl]|Hno];
    [|by rewrite cap_revoke_dead in Hr].
  pose proof (cap_revoke_live t h e Hwf Hl) as Hrun. case_match; [congruence|].
  destruct Hrun as (t1 & Hr1 & Hrev). rewrite Hr1 in Hr. injection Hr as ->.
  destruct (abs_revoked _ _ _ _ Hwf Hl Hrev) as [Hgone Hkeep].
  split; intros c Hc; rewrite !lookup_cap_abs; [by rewrite Hgone|by rewrite Hkeep].
Qed.

Lemma revoke_kills_exactly_descendants_witness :
  let _ := debug_profile in
  let h := mkCapHandle 0 0 in
  let os := [OpInsertRoot demo_root; OpDerive h (mkRights 31) demo_object;
             OpDerive (mkCapHandle 1 0) (mkRights 3) demo_object; OpInsertRoot demo_root] in
  let t := default table_new (run_caps os table_new) in
  let t' := final (cap_revoke h) t in
  cap_revoke h t = Done tt t' ∧
  (∀ c, below (abs t) h c → lookup_cap t' c = Err InvalidHandle) ∧
  (∀ c, ¬ below (abs t) h c → lookup_cap t' c = lookup_cap t c).
Proof.
  intros p h os t t'. assert (cap_revoke h t = Done tt t') as Hr by (by vm_compute).
  split; [done|]. apply (revoke_kills_exactly_descendants (H := p) t h t'); [|done].
  destruct (run_caps_wf os table_new table_new_wf) as (t1 & Ht1 & Hwf).
  unfold t. by rewrite Ht1.
Defined.

(** C13: once an operation has made a live handle stale, no sequence of fewer
    than 2^32 - 1 further table operations makes it resolve again. *)
Theorem stale_handle_stays_dead `{BuildProfile} t o r t1 os t2 h c :
  table_wf t → lookup_cap t h = Ok c → exec_cap o t = Some (r, t1) →
  lookup_cap t1 h = Err InvalidHandle → run_caps os t1 = Some t2 →
  (N.of_nat (length os) < 2 ^ 32 - 1)%N → lookup_cap t2 h = Err InvalidHandle.
Proof.
  intros Hwf Hl Ho Hdead Hr Hlen. rewrite lookup_cap_abs in *.
  destruct (abs t h) as [n|] eqn:Hn; [|done]. apply abs_Some in Hn as (e & [He Hg] & _).
  destruct (exec_cap_outcome t o Hwf) as (r' & t1' & Ho' & Hwf1 & _). simplify_eq.
  assert (gen_of t1 (cap_index h) = Some (wrapping_add 32 (cap_generation h) 1)) as Hg1.
  { destruct (exec_cap_aged _ _ _ _ (cap_index h) Hwf Ho) as [[Hg1 Hsome]|Hb];
      [|by rewrite Hb, Hg].
    destruct (abs t1 h) as [n1|] eqn:Hn1; [done|]. destruct Hsome as [e1 He1]; [by eauto|].
    rewrite (abs_live t1 h e1) in Hn1; [done|]. split; congruence. }
  destruct (run_caps_generation os t1 t2 _ _ Hwf1 Hr Hg1) as (d & Hd & Hg2).
  rewrite wrapping_add_assoc in Hg2.
  destruct (abs t2 h) as [n2|] eqn:Hn2; [|done]. apply abs_Some in Hn2 as (e2 & [_ Hg2'] & _).
  rewrite Hg2 in Hg2'. injection Hg2' as Hbad. exfalso. revert Hbad.
  apply wrapping_add_neq; [by eapply (shape_gen t (proj1 Hwf))|]. lia.
Qed.

Lemma stale_handle_stays_dead_witness :
  let _ := debug_profile in
  let h := mkCapHandle 0 0 in
  let t1 := final (cap_drop h) demo_table in
  let os := [OpInsertRoot demo_root; OpDrop (mkCapHandle 0 1); OpInsertRoot demo_root] in
  let t2 := default t1 (run_caps os t1) in
  lookup_cap t2 (mkCapHandle 0 2) = Ok demo_root ∧ lookup_cap t2 h = Err InvalidHandle.
Proof.
  intros p h t1 os t2. split; [by vm_compute|].
  apply (stale_handle_stays_dead (H := p) demo_table (OpDrop h) RUnit t1 os t2 h demo_root);
    [apply demo_table_wf|by vm_compute..].
Defined.

(** C38: The queries agree with the map of live handles on every well-formed
    table: [lookup] returns the capability of a live handle and [InvalidHandle]
    for any other, [references_object] holds exactly when some live capability
    names the object, and [is_full] exactly when all 64 slots are taken. *)
Theorem queries_agree_with_contract t :
  table_wf t →
  (∀ h, lookup_cap t h = match abs t h with Some n => Ok (node_cap n) | None => Err InvalidHandle end) ∧
  (∀ o, references_object t o = true ↔ ∃ h n, abs t h = Some n ∧ object (node_cap n) = o) ∧
  (is_full t = true ↔ full (abs t)).
Proof.
  intros Hwf. split_and!.
  - apply lookup_cap_abs.
  - apply references_object_abs.
  - unfold is_full. by rewrite bool_decide_eq_true, full_head.
Qed.

Lemma queries_agree_with_contract_witness :
  (∀ h, lookup_cap demo_table h =
        match abs demo_table h with Some n => Ok (node_cap n) | None => Err InvalidHandle end) ∧
  (∀ o, references_object demo_table o = true ↔
        ∃ h n, abs demo_table h = Some n ∧ object (node_cap n) = o) ∧
  (is_full demo_table = true ↔ full (abs demo_table)).
Proof. apply (queries_agree_with_contract demo_table), demo_table_wf. Defined.
