(* ===== verification/Ipc.v ===== *)
(** * [kernel/src/ipc/mod.rs]: message passing

    The depth-1 endpoint queues and the three IPC operations. The arguments that
    the code passes by [&mut] are the fields of [Ctx]: the endpoint arena, the
    queues and the caller's capability table. The theorems are in
    [IpcProofs.v]. *)

From stdpp Require Import prelude.
From Stdlib Require Import Lia NArith.
From S2P Require Import Prelude FreeList Arena Objects Rights Capability CapTable.

Record Message := mkMessage { label : u64; params : u64 * u64 * u64 }.

Global Instance Message_eq_dec : EqDecision Message.
Proof. solve_decision. Defined.

Inductive IpcError :=
  | InvalidCapability
  | QueueFull
  | InvalidTransferCap
  | ReceiverTableFull
  | PendingAfterResume.

Inductive SendOutcome := Delivered | Enqueued.

Global Instance SendOutcome_eq_dec : EqDecision SendOutcome.
Proof. solve_decision. Defined.

Inductive RecvOutcome :=
  | Received (msg : Message) (cap : option CapHandle)
  | Pending.

Global Instance IpcError_eq_dec : EqDecision IpcError.
Proof. solve_decision. Defined.

Inductive EndpointState :=
  | Idle
  | SendPending (msg : Message) (cap : option Capability)
  | RecvWaiting
  | RecvComplete (msg : Message) (cap : option Capability).

Record IpcQueues := mkQueues {
  states : list EndpointState;
  slot_generations : list u32;
}.

(** [IpcQueues::default] and [IpcQueues::new]. *)
Definition queues_new : IpcQueues :=
  mkQueues (array_from_fn ENDPOINT_ARENA_CAPACITY (λ _, Idle))
           (replicate (N.to_nat ENDPOINT_ARENA_CAPACITY) 0%N).

(** The [matches!] of [reset_if_stale_generation] and [ipc_recv]. *)
Definition carries_cap (s : EndpointState) : bool :=
  match s with
  | SendPending _ (Some _) | RecvComplete _ (Some _) => true
  | _ => false
  end.

(** The [matches!] of [ipc_send]. *)
Definition holds_message (s : EndpointState) : bool :=
  match s with
  | SendPending _ _ | RecvComplete _ _ => true
  | _ => false
  end.

Section queues.
Context `{BuildProfile}.
Abbreviation Q := (M IpcQueues IpcError).

Definition reset_if_stale_generation (handle : EndpointHandle) : Q usize :=
  let idx := index (endpoint_slot handle) in
  let gen := generation (endpoint_slot handle) in
  gens ← gets slot_generations;
  recorded ← unwrap_or_panic (aget gens idx);
  if decide (recorded ≠ gen) then
    ss ← gets states;
    s ← unwrap_or_panic (aget ss idx);
    debug_assert (negb (carries_cap s));;
    modify (λ q, mkQueues (aset (states q) idx Idle) (slot_generations q));;
    modify (λ q, mkQueues (states q) (aset (slot_generations q) idx gen));;
    mret idx
  else mret idx.

(** [state_of]: the place a [&mut EndpointState] refers to. *)
Definition state_of (handle : EndpointHandle) : Q usize :=
  idx ← reset_if_stale_generation handle;
  ss ← gets states;
  _ ← unwrap_or_panic (aget ss idx);
  mret idx.

(** [*state = s] and [core::mem::replace(state, s)]. *)
Definition store (place : usize) (s : EndpointState) : Q unit :=
  modify (λ q, mkQueues (aset (states q) place s) (slot_generations q)).

Definition replace (place : usize) (s : EndpointState) : Q EndpointState :=
  ss ← gets states;
  old ← unwrap_or_panic (aget ss place);
  store place s;;
  mret old.

Definition peek_state (handle : EndpointHandle) : Q EndpointState :=
  idx ← reset_if_stale_generation handle;
  ss ← gets states;
  unwrap_or_panic (aget ss idx).
End queues.

#[global] Arguments store : simpl never.
#[global] Arguments replace : simpl never.
#[global] Arguments state_of {_} _ _ : simpl never.
#[global] Arguments peek_state {_} _ _ : simpl never.

(** ** Helpers *)

Definition validate_ep_cap (table : CapabilityTable) (ep_cap : CapHandle) (required : CapRights) :
    result EndpointHandle IpcError :=
  match lookup_cap table ep_cap with
  | Err _ => Err InvalidCapability
  | Ok cap =>
      if negb (contains (rights cap) required) then Err InvalidCapability else
      match object cap with
      | ObjEndpoint h => Ok h
      | _ => Err InvalidCapability
      end
  end.

Definition validate_notif_cap (table : CapabilityTable) (notif_cap : CapHandle) :
    result NotificationHandle IpcError :=
  match lookup_cap table notif_cap with
  | Err _ => Err InvalidCapability
  | Ok cap =>
      if negb (contains (rights cap) NOTIFY) then Err InvalidCapability else
      match object cap with
      | ObjNotification h => Ok h
      | _ => Err InvalidCapability
      end
  end.

Definition take_cap_if_some (handle : option CapHandle) :
    M CapabilityTable IpcError (option Capability) :=
  match handle with
  | Some h => c ← map_err (λ _, InvalidTransferCap) (cap_take h); mret (Some c)
  | None => mret None
  end.

Definition install_cap_if_some (cap : option Capability) :
    M CapabilityTable IpcError (option CapHandle) :=
  match cap with
  | Some c => h ← map_err (λ _, ReceiverTableFull) (insert_root c); mret (Some h)
  | None => mret None
  end.

#[global] Arguments take_cap_if_some : simpl never.
#[global] Arguments install_cap_if_some : simpl never.

(** ** Operations *)

Record Ctx := mkCtx {
  ep_arena : EndpointArena;
  queues : IpcQueues;
  caller_table : CapabilityTable;
}.

Section operations.
Context `{BuildProfile}.
Abbreviation Ipc := (M Ctx IpcError).

Definition on_queues {A} (m : M IpcQueues IpcError A) : Ipc A :=
  zoom queues (λ q c, mkCtx (ep_arena c) q (caller_table c)) m.
Definition on_table {A} (m : M CapabilityTable IpcError A) : Ipc A :=
  zoom caller_table (λ t c, mkCtx (ep_arena c) (queues c) t) m.

(** The pre-flight check of the capability to transfer. *)
Definition check_transfer (table : CapabilityTable) (transfer : option CapHandle) :
    result unit IpcError :=
  match transfer with
  | None => Ok tt
  | Some xfer =>
      match lookup_cap table xfer with
      | Err _ => Err InvalidTransferCap
      | Ok xfer_cap =>
          if negb (contains (rights xfer_cap) TRANSFER) then Err InvalidTransferCap else Ok tt
      end
  end.

Definition ipc_send (ep_cap : CapHandle) (msg : Message) (transfer : option CapHandle) :
    Ipc SendOutcome :=
  table ← gets caller_table;
  ep_handle ← try_ (validate_ep_cap table ep_cap SEND);
  try_ (check_transfer table transfer);;
  arena ← gets ep_arena;
  _ ← ok_or InvalidCapability (get arena (endpoint_slot ep_handle));
  s ← on_queues (peek_state ep_handle);
  if holds_message s then throw QueueFull else
  owned ← on_table (take_cap_if_some transfer);
  state ← on_queues (state_of ep_handle);
  old ← on_queues (replace state Idle);
  match old with
  | RecvWaiting =>
      on_queues (store state (RecvComplete msg owned));;
      mret Delivered
  | Idle =>
      on_queues (store state (SendPending msg owned));;
      mret Enqueued
  | SendPending _ _ | RecvComplete _ _ => panic
  end.

Definition ipc_recv (ep_cap : CapHandle) : Ipc RecvOutcome :=
  table ← gets caller_table;
  ep_handle ← try_ (validate_ep_cap table ep_cap RECV);
  arena ← gets ep_arena;
  _ ← ok_or InvalidCapability (get arena (endpoint_slot ep_handle));
  s ← on_queues (peek_state ep_handle);
  let pending_has_cap := carries_cap s in
  if pending_has_cap && is_full table then throw ReceiverTableFull else
  state ← on_queues (state_of ep_handle);
  old ← on_queues (replace state Idle);
  match old with
  | SendPending msg cap | RecvComplete msg cap =>
      xfer ← on_table (install_cap_if_some cap);
      mret (Received msg xfer)
  | Idle =>
      on_queues (store state RecvWaiting);;
      mret Pending
  | RecvWaiting =>
      on_queues (store state RecvWaiting);;
      throw QueueFull
  end.
End operations.

(** [ipc_notify] mutates the notification arena only. *)
Definition ipc_notify (notif_cap : CapHandle) (table : CapabilityTable) (bits : u64) :
    M NotificationArena IpcError unit :=
  notif_handle ← try_ (validate_notif_cap table notif_cap);
  arena ← gets id;
  match get_mut arena (notification_slot notif_handle) with
  | None => throw InvalidCapability
  | Some (notif, put) => modify (λ _, put (set_bits notif bits))
  end.

(** Several tasks have a table each; a pointer to one is its number. *)
Definition set_table (tables : nat → CapabilityTable) (k : nat) (t : CapabilityTable) :
    nat → CapabilityTable := λ k', if decide (k' = k) then t else tables k'.
