(* ===== verification/IpcProofs.v ===== *)
(** * What message passing guarantees

    [ep_state] is the waiter state an endpoint handle sees: a slot whose recorded
    generation is older reads as [Idle]. Every IPC operation is described through
    it, for all live endpoints at once; then sequences of sends and receives by
    any number of tasks are shown to neither lose, duplicate nor reorder messages
    and capabilities. *)

From stdpp Require Import prelude.
From Stdlib Require Import Lia NArith.
From S2P Require Import Prelude FreeList Arena Objects Rights Capability.
From S2P Require Import CapTable CapTree CapShape CapProofs CapSpec Ipc.

Abbreviation ep_index h := (index (endpoint_slot h)).
Abbreviation ep_gen h := (generation (endpoint_slot h)).

Definition ep_state (q : IpcQueues) (h : EndpointHandle) : EndpointState :=
  if decide (aget (slot_generations q) (ep_index h) = Some (ep_gen h))
  then default Idle (aget (states q) (ep_index h)) else Idle.

(** The endpoint [h] names is allocated. *)
Definition ep_live (a : EndpointArena) (h : EndpointHandle) : Prop :=
  is_Some (get a (endpoint_slot h)).

(** The invariant of the queues with respect to the arena. The last clause is
    the code's destruction invariant: a slot whose endpoint was replaced holds no
    capability. *)
Record ipc_wf (a : EndpointArena) (q : IpcQueues) : Prop := {
  ipc_arena : wf ENDPOINT_ARENA_CAPACITY a;
  ipc_states : N.of_nat (length (states q)) = ENDPOINT_ARENA_CAPACITY;
  ipc_gens : N.of_nat (length (slot_generations q)) = ENDPOINT_ARENA_CAPACITY;
  ipc_drained h s :
    ep_live a h → aget (slot_generations q) (ep_index h) ≠ Some (ep_gen h) →
    aget (states q) (ep_index h) = Some s → carries_cap s = false;
}.

Definition agree (a : EndpointArena) (q q' : IpcQueues) : Prop :=
  ∀ h, ep_live a h → ep_state q' h = ep_state q h.

(** [q'] is [q] with the state of [h] replaced by [s]. *)
Definition moves (a : EndpointArena) (q q' : IpcQueues) (h : EndpointHandle) (s : EndpointState) :=
  ipc_wf a q' ∧ ∀ h', ep_live a h' → ep_state q' h' = if decide (h' = h) then s else ep_state q h'.

(** Slot [h] is recorded for [h] and holds [s]. *)
Definition synced (q : IpcQueues) (h : EndpointHandle) (s : EndpointState) : Prop :=
  aget (slot_generations q) (ep_index h) = Some (ep_gen h) ∧ aget (states q) (ep_index h) = Some s.

Section queues.
Context `{BuildProfile}.
Implicit Types (a : EndpointArena) (q : IpcQueues) (h : EndpointHandle) (s : EndpointState).

(** Two live handles at the same index are the same handle. *)
Lemma ep_live_inj a h h' : ep_live a h → ep_live a h' → ep_index h = ep_index h' → h = h'.
Proof.
  intros [v (s & Hs & Hg & _)%get_Some] [v' (s' & Hs' & Hg' & _)%get_Some] Hi.
  destruct h as [[i g]], h' as [[i' g']]. simpl in *. subst. f_equal. f_equal. congruence.
Qed.

Lemma ep_live_lt a q h :
  ipc_wf a q → ep_live a h →
  is_Some (aget (states q) (ep_index h)) ∧ is_Some (aget (slot_generations q) (ep_index h)).
Proof.
  intros Hwf [v (s & Hs & _)%get_Some]. apply aget_Some_lt in Hs. fold (capacity a) in Hs.
  rewrite (wf_capacity _ _ (ipc_arena _ _ Hwf)) in Hs.
  rewrite !aget_lt, (ipc_states _ _ Hwf), (ipc_gens _ _ Hwf). done.
Qed.

Lemma synced_state q h s : synced q h s → ep_state q h = s.
Proof. intros [Hg Hs]. unfold ep_state. by rewrite decide_True, Hs. Qed.

Lemma reset_run a q h :
  ipc_wf a q → ep_live a h →
  ∃ q', reset_if_stale_generation h q = Done (ep_index h) q' ∧
    synced q' h (ep_state q h) ∧ ipc_wf a q' ∧ agree a q q' ∧
    (ep_state q h ≠ Idle → q' = q).
Proof.
  intros Hwf Hl. destruct (ep_live_lt _ _ _ Hwf Hl) as [[s Hs] [g Hg]].
  unfold reset_if_stale_generation. monad. rewrite Hg. simpl.
  case_decide as Hne.
  - assert (aget (slot_generations q) (ep_index h) ≠ Some (ep_gen h)) as Hst by congruence.
    rewrite Hs. simpl. rewrite (ipc_drained _ _ Hwf _ _ Hl Hst Hs). simpl.
    rewrite debug_assert_true. eexists. split; [done|].
    assert (ep_state q h = Idle) as Hidle by (unfold ep_state; by rewrite decide_False).
    rewrite Hidle.
    assert (synced (mkQueues (aset (states q) (ep_index h) Idle)
      (aset (slot_generations q) (ep_index h) (ep_gen h))) h Idle) as Hsync.
    { split; simpl; by rewrite aget_aset_eq by eauto. }
    split; [done|]. split; [|split; [|done]].
    + split; simpl; rewrite ?length_aset; try apply Hwf.
      intros h' s' Hl'. rewrite !aget_aset by eauto. case_decide as Hi; [naive_solver|].
      by apply (ipc_drained _ _ Hwf).
    + intros h' Hl'. destruct (decide (ep_index h = ep_index h')) as [Hi|Hi].
      * rewrite <- (ep_live_inj _ _ _ Hl Hl' Hi), Hidle. by apply synced_state.
      * unfold ep_state. simpl. by rewrite !aget_aset_ne by done.
  - exists q. split; [done|]. split; [|done].
    assert (g = ep_gen h) as -> by (by destruct (decide (g = ep_gen h))).
    unfold ep_state. by rewrite decide_True, Hs by done.
Qed.

Lemma store_run a q h s0 s :
  ipc_wf a q → ep_live a h → synced q h s0 →
  ∃ q', store (ep_index h) s q = Done tt q' ∧ synced q' h s ∧ moves a q q' h s.
Proof.
  intros Hwf Hl [Hg Hs]. unfold store. monad. eexists. split; [done|].
  assert (synced (mkQueues (aset (states q) (ep_index h) s) (slot_generations q)) h s) as Hsync.
  { split; simpl; [done|]. by rewrite aget_aset_eq by eauto. }
  split; [done|]. split.
  - split; simpl; rewrite ?length_aset; try apply Hwf.
    intros h' s' Hl' Hst. rewrite aget_aset by eauto. case_decide as Hi.
    + rewrite <- (ep_live_inj _ _ _ Hl Hl' Hi) in Hst. done.
    + by apply (ipc_drained _ _ Hwf).
  - intros h' Hl'. case_decide as Hh; [subst; by apply synced_state|].
    unfold ep_state. simpl. rewrite aget_aset_ne; [done|].
    intros Hi. by apply Hh, (ep_live_inj _ _ _ Hl' Hl).
Qed.

Lemma peek_run a q h :
  ipc_wf a q → ep_live a h →
  ∃ q', peek_state h q = Done (ep_state q h) q' ∧
    synced q' h (ep_state q h) ∧ ipc_wf a q' ∧ agree a q q' ∧ (ep_state q h ≠ Idle → q' = q).
Proof.
  intros Hwf Hl. destruct (reset_run a q h Hwf Hl) as (q' & Hr & Hsync & Hrest).
  exists q'. split; [|done]. unfold peek_state. monad. rewrite Hr. cbn.
  by rewrite (proj2 Hsync).
Qed.

(** On a synced slot [state_of] changes nothing, and [replace] swaps. *)
Lemma state_of_synced q h s : synced q h s → state_of h q = Done (ep_index h) q.
Proof.
  intros [Hg Hs]. unfold state_of, reset_if_stale_generation. monad. rewrite Hg. cbn.
  rewrite decide_False by auto. by rewrite Hs.
Qed.

Lemma replace_run a q h s0 s :
  ipc_wf a q → ep_live a h → synced q h s0 →
  ∃ q', replace (ep_index h) s q = Done s0 q' ∧ synced q' h s ∧ moves a q q' h s.
Proof.
  intros Hwf Hl Hsync. destruct (store_run a q h s0 s Hwf Hl Hsync) as (q' & Hst & Hrest).
  exists q'. split; [|done]. unfold replace. monad.
  rewrite (proj2 Hsync). cbn. by rewrite Hst.
Qed.

(** Composing changes. *)
Lemma moves_agree_l a q q1 q2 h s : agree a q q1 → moves a q1 q2 h s → moves a q q2 h s.
Proof.
  intros Hag [Hwf Hmv]. split; [done|]. intros h' Hl'. rewrite Hmv by done.
  case_decide; [done|]. by apply Hag.
Qed.

Lemma moves_moves a q q1 q2 h s1 s2 : moves a q q1 h s1 → moves a q1 q2 h s2 → moves a q q2 h s2.
Proof.
  intros [_ H1] [Hwf H2]. split; [done|]. intros h' Hl'. rewrite H2 by done.
  case_decide as Hh; [done|]. rewrite H1 by done. by rewrite decide_False.
Qed.
End queues.

(** ** Validation *)

Lemma validate_ep_cap_Err t h r e : validate_ep_cap t h r = Err e → e = InvalidCapability.
Proof. unfold validate_ep_cap. repeat case_match; congruence. Qed.

Lemma validate_ep_cap_Ok t h r ep :
  validate_ep_cap t h r = Ok ep ↔
  ∃ n, abs t h = Some n ∧ contains (node_rights n) r = true ∧ object (node_cap n) = ObjEndpoint ep.
Proof.
  unfold validate_ep_cap, node_rights. rewrite lookup_cap_abs. split.
  - destruct (abs t h) as [n|]; [|done]. destruct (contains _ r) eqn:Hr; [|done]. simpl.
    destruct (object (node_cap n)) eqn:Ho; try done. intros [= <-]. eauto.
  - intros (n & -> & -> & ->). done.
Qed.

Lemma check_transfer_Err t x e : check_transfer t x = Err e → e = InvalidTransferCap.
Proof. unfold check_transfer. repeat case_match; congruence. Qed.

Lemma check_transfer_Ok t x :
  check_transfer t (Some x) = Ok tt ↔
  ∃ n, abs t x = Some n ∧ contains (node_rights n) TRANSFER = true.
Proof.
  unfold check_transfer, node_rights. rewrite lookup_cap_abs. split.
  - destruct (abs t x) as [n|]; [|done]. destruct (contains _ TRANSFER) eqn:Hr; [eauto|done].
  - by intros (n & -> & ->).
Qed.

(** ** Sending *)

(** What leaves the sender's table with the message. *)
Definition takes (t t' : CapabilityTable) (transfer : option CapHandle) (cap : option Capability) :=
  match transfer with
  | None => cap = None ∧ t' = t
  | Some x => ∃ n, abs t x = Some n ∧ contains (node_rights n) TRANSFER = true ∧
                   (∀ c, ¬ child (abs t) x c) ∧ cap = Some (node_cap n) ∧ deletes (abs t) (abs t') x
  end.

Inductive send_refused (a : EndpointArena) (q : IpcQueues) (t : CapabilityTable)
    (ep_cap : CapHandle) (transfer : option CapHandle) : IpcError → Prop :=
  | send_no_cap e :
      validate_ep_cap t ep_cap SEND = Err e →
      send_refused a q t ep_cap transfer InvalidCapability
  | send_bad_transfer ep e :
      validate_ep_cap t ep_cap SEND = Ok ep → check_transfer t transfer = Err e →
      send_refused a q t ep_cap transfer InvalidTransferCap
  | send_dead ep :
      validate_ep_cap t ep_cap SEND = Ok ep → check_transfer t transfer = Ok tt →
      ¬ ep_live a ep → send_refused a q t ep_cap transfer InvalidCapability
  | send_full ep :
      validate_ep_cap t ep_cap SEND = Ok ep → check_transfer t transfer = Ok tt →
      ep_live a ep → holds_message (ep_state q ep) = true →
      send_refused a q t ep_cap transfer QueueFull
  | send_children ep x c :
      validate_ep_cap t ep_cap SEND = Ok ep → check_transfer t transfer = Ok tt →
      ep_live a ep → holds_message (ep_state q ep) = false →
      transfer = Some x → child (abs t) x c →
      send_refused a q t ep_cap transfer InvalidTransferCap.

(** The endpoint's next state, and what the sender is told. *)
Definition sent_state (s : EndpointState) (msg : Message) (cap : option Capability) :=
  match s with RecvWaiting => RecvComplete msg cap | _ => SendPending msg cap end.
Definition sent_outcome (s : EndpointState) : SendOutcome :=
  match s with RecvWaiting => Delivered | _ => Enqueued end.

Definition send_accepted a q t ep_cap msg transfer out q' t' : Prop :=
  ∃ ep cap, validate_ep_cap t ep_cap SEND = Ok ep ∧ ep_live a ep ∧
    holds_message (ep_state q ep) = false ∧ takes t t' transfer cap ∧
    moves a q q' ep (sent_state (ep_state q ep) msg cap) ∧ out = sent_outcome (ep_state q ep).

Section send.
Context `{BuildProfile}.
Implicit Types (a : EndpointArena) (q : IpcQueues) (t : CapabilityTable).

Lemma take_cap_run t transfer :
  table_wf t → check_transfer t transfer = Ok tt →
  (take_cap_if_some transfer t = Fail InvalidTransferCap t ∧
   ∃ x c, transfer = Some x ∧ child (abs t) x c) ∨
  (∃ cap t', take_cap_if_some transfer t = Done cap t' ∧ table_wf t' ∧ takes t t' transfer cap).
Proof.
  intros Hwf Hck. destruct transfer as [x|]; [|right; eexists _, t; by split_and!].
  apply check_transfer_Ok in Hck as (n & Hn & Hr). pose proof Hn as (e & Hl & ->)%abs_Some.
  unfold take_cap_if_some, map_err. monad. pose proof (cap_take_live t x e Hwf Hl) as Hrun.
  destruct (first_child e) as [c0|] eqn:Hfc.
  - left. rewrite Hrun. split; [done|]. destruct (has_child _ _ _ _ Hwf Hl Hfc) as [c Hc]. eauto.
  - right. destruct Hrun as (t' & -> & Hrem). do 2 eexists. split; [done|].
    split; [apply Hrem|]. exists (node_of t e). split_and!; try done.
    + by eapply no_children.
    + by eapply abs_removed.
Qed.

Lemma commit_run a q t ep s1 msg cap :
  ipc_wf a q → ep_live a ep → synced q ep s1 → holds_message s1 = false →
  ∃ q', moves a q q' ep (sent_state s1 msg cap) ∧
    (state ← on_queues (state_of ep);
     old ← on_queues (replace state Idle);
     match old with
     | RecvWaiting => on_queues (store state (RecvComplete msg cap));; mret Delivered
     | Idle => on_queues (store state (SendPending msg cap));; mret Enqueued
     | SendPending _ _ | RecvComplete _ _ => panic
     end) (mkCtx a q t) = Done (sent_outcome s1) (mkCtx a q' t).
Proof.
  intros Hwf Hl Hsync Hh.
  destruct (replace_run a q ep s1 Idle Hwf Hl Hsync) as (q1 & Hrep & Hsync1 & Hmv1).
  destruct (store_run a q1 ep Idle (sent_state s1 msg cap) (proj1 Hmv1) Hl Hsync1)
    as (q2 & Hst & _ & Hmv2).
  exists q2. split; [by eapply moves_moves|].
  unfold on_queues, zoom. monad. cbn. rewrite (state_of_synced _ _ _ Hsync). cbn.
  rewrite Hrep. cbn. destruct s1; cbn in *; try done; by rewrite Hst.
Qed.

Lemma ipc_send_run a q t ep_cap msg transfer :
  ipc_wf a q → table_wf t →
  (∃ e q', ipc_send ep_cap msg transfer (mkCtx a q t) = Fail e (mkCtx a q' t) ∧
     ipc_wf a q' ∧ agree a q q' ∧ send_refused a q t ep_cap transfer e) ∨
  (∃ out q' t', ipc_send ep_cap msg transfer (mkCtx a q t) = Done out (mkCtx a q' t') ∧
     ipc_wf a q' ∧ table_wf t' ∧ send_accepted a q t ep_cap msg transfer out q' t').
Proof.
  intros Hwf Ht. unfold ipc_send.
  assert (agree a q q) as Hrefl by (by intros ?).
  destruct (validate_ep_cap t ep_cap SEND) as [ep|e] eqn:Hval.
  2:{ left. exists e, q. pose proof (validate_ep_cap_Err _ _ _ _ Hval) as ->.
      split_and!; [|done..|by eapply send_no_cap]. monad. cbn. by rewrite Hval. }
  destruct (check_transfer t transfer) as [[]|e] eqn:Hck.
  2:{ left. exists e, q. pose proof (check_transfer_Err _ _ _ Hck) as ->.
      split_and!; [|done..|by eapply send_bad_transfer]. monad. cbn. rewrite Hval. cbn.
      by rewrite Hck. }
  destruct (get a (endpoint_slot ep)) as [e|] eqn:Hget.
  2:{ left. exists InvalidCapability, q. split_and!; [|done..|].
      - monad. cbn. rewrite Hval. cbn. rewrite Hck. cbn. by rewrite Hget.
      - eapply send_dead; [done..|]. unfold ep_live. rewrite Hget. apply is_Some_None. }
  assert (ep_live a ep) as Hl by (unfold ep_live; eauto).
  destruct (peek_run a q ep Hwf Hl) as (q1 & Hpk & Hsync & Hwf1 & Hag & Hsame).
  destruct (holds_message (ep_state q ep)) eqn:Hh.
  { left. exists QueueFull, q1. split_and!; [|done..|by eapply send_full].
    unfold on_queues, zoom. monad. cbn. rewrite Hval. cbn. rewrite Hck. cbn.
    rewrite Hget. cbn. rewrite Hpk. by rewrite Hh. }
  destruct (take_cap_run t transfer Ht Hck) as [(Htk & x & c & Hx & Hc)|(cap & t' & Htk & Ht' & Hcap)].
  { left. exists InvalidTransferCap, q1. split_and!; [|done..|by eapply send_children].
    unfold on_queues, on_table, zoom. monad. cbn. rewrite Hval. cbn. rewrite Hck. cbn.
    rewrite Hget. cbn. rewrite Hpk, Hh. cbn. by rewrite Htk. }
  right. destruct (commit_run a q1 t' ep _ msg cap Hwf1 Hl Hsync Hh) as (q2 & Hmv & Hcommit).
  exists (sent_outcome (ep_state q ep)), q2, t'. split_and!.
  - unfold on_queues, on_table, zoom in *. monad. cbn in *. rewrite Hval. cbn. rewrite Hck. cbn.
    rewrite Hget. cbn. rewrite Hpk, Hh. cbn. rewrite Htk. exact Hcommit.
  - apply Hmv.
  - done.
  - exists ep, cap. split_and!; try done. by eapply moves_agree_l.
Qed.
End send.

(** ** Receiving *)

(** What reaches the receiver's table with the message. *)
Definition gives (t t' : CapabilityTable) (cap : option Capability) (xfer : option CapHandle) :=
  match cap with
  | None => xfer = None ∧ t' = t
  | Some c => ∃ h, xfer = Some h ∧ adds (abs t) (abs t') h (mkNode c None 0)
  end.

(** The message an endpoint holds. *)
Definition in_flight (s : EndpointState) : list (Message * option Capability) :=
  match s with SendPending m c | RecvComplete m c => [(m, c)] | _ => [] end.

Inductive recv_refused (a : EndpointArena) (q : IpcQueues) (t : CapabilityTable)
    (ep_cap : CapHandle) : IpcError → Prop :=
  | recv_no_cap e :
      validate_ep_cap t ep_cap RECV = Err e → recv_refused a q t ep_cap InvalidCapability
  | recv_dead ep :
      validate_ep_cap t ep_cap RECV = Ok ep → ¬ ep_live a ep →
      recv_refused a q t ep_cap InvalidCapability
  | recv_table_full ep :
      validate_ep_cap t ep_cap RECV = Ok ep → ep_live a ep →
      carries_cap (ep_state q ep) = true → full (abs t) →
      recv_refused a q t ep_cap ReceiverTableFull
  | recv_already_waiting ep :
      validate_ep_cap t ep_cap RECV = Ok ep → ep_live a ep → ep_state q ep = RecvWaiting →
      recv_refused a q t ep_cap QueueFull.

Definition recv_accepted a q t ep_cap out q' t' : Prop :=
  ∃ ep, validate_ep_cap t ep_cap RECV = Ok ep ∧ ep_live a ep ∧
    match out with
    | Received msg xfer => ∃ cap, in_flight (ep_state q ep) = [(msg, cap)] ∧
        moves a q q' ep Idle ∧ gives t t' cap xfer
    | Pending => ep_state q ep = Idle ∧ moves a q q' ep RecvWaiting ∧ t' = t
    end.

Section recv.
Context `{BuildProfile}.
Implicit Types (a : EndpointArena) (q : IpcQueues) (t : CapabilityTable).

Lemma install_cap_run t cap :
  table_wf t → (is_Some cap → ¬ full (abs t)) →
  ∃ xfer t', install_cap_if_some cap t = Done xfer t' ∧ table_wf t' ∧ gives t t' cap xfer.
Proof.
  intros Hwf Hroom. destruct cap as [c|]; [|by exists None, t].
  destruct (cfree_head t) as [i|] eqn:Hh.
  2:{ apply (full_head _ Hwf) in Hh. destruct Hroom; [eauto|done]. }
  destruct (insert_root_run t c i Hwf Hh) as (g & t' & Hr & Hadd).
  exists (Some (mkCapHandle i g)), t'. split_and!.
  - unfold install_cap_if_some, map_err. monad. by rewrite Hr.
  - apply Hadd.
  - eexists. split; [done|]. by apply abs_added in Hadd.
Qed.

Lemma moves_same a q q' ep : moves a q q' ep (ep_state q ep) → agree a q q'.
Proof. intros [_ Hmv] h Hl. rewrite Hmv by done. case_decide; by subst. Qed.

Lemma ipc_recv_run a q t ep_cap :
  ipc_wf a q → table_wf t →
  (∃ e q', ipc_recv ep_cap (mkCtx a q t) = Fail e (mkCtx a q' t) ∧
     ipc_wf a q' ∧ agree a q q' ∧ recv_refused a q t ep_cap e) ∨
  (∃ out q' t', ipc_recv ep_cap (mkCtx a q t) = Done out (mkCtx a q' t') ∧
     ipc_wf a q' ∧ table_wf t' ∧ recv_accepted a q t ep_cap out q' t').
Proof.
  intros Hwf Ht. unfold ipc_recv.
  assert (agree a q q) as Hrefl by (by intros ?).
  destruct (validate_ep_cap t ep_cap RECV) as [ep|e] eqn:Hval.
  2:{ left. exists e, q. pose proof (validate_ep_cap_Err _ _ _ _ Hval) as ->.
      split_and!; [|done..|by eapply recv_no_cap]. monad. cbn. by rewrite Hval. }
  destruct (get a (endpoint_slot ep)) as [e|] eqn:Hget.
  2:{ left. exists InvalidCapability, q. split_and!; [|done..|].
      - monad. cbn. rewrite Hval. cbn. by rewrite Hget.
      - eapply recv_dead; [done..|]. unfold ep_live. rewrite Hget. apply is_Some_None. }
  assert (ep_live a ep) as Hl by (unfold ep_live; eauto).
  destruct (peek_run a q ep Hwf Hl) as (q1 & Hpk & Hsync & Hwf1 & Hag & _).
  unfold on_queues, on_table, zoom. monad. cbn. rewrite Hval. cbn.
  rewrite Hget. cbn. rewrite Hpk. cbn.
  destruct (carries_cap (ep_state q ep) && is_full t) eqn:Hfull.
  { apply andb_true_iff in Hfull as [Hc Hf]. left. exists ReceiverTableFull, q1.
    split_and!; [done..|]. eapply recv_table_full; [done..|].
    apply (full_head _ Ht). by apply bool_decide_eq_true in Hf. }
  destruct (replace_run a q1 ep _ Idle Hwf1 Hl Hsync) as (q2 & Hrep & Hsync2 & Hmv2).
  destruct (store_run a q2 ep Idle RecvWaiting (proj1 Hmv2) Hl Hsync2) as (q3 & Hst & _ & Hmv3).
  assert (∀ msg cap, in_flight (ep_state q ep) = [(msg, cap)] →
    ∃ xfer t', install_cap_if_some cap t = Done xfer t' ∧ table_wf t' ∧ gives t t' cap xfer)
    as Hinst.
  { intros msg cap Hif. apply install_cap_run; [done|]. intros [c ->] Hfl.
    apply (full_head _ Ht) in Hfl. unfold is_full in Hfull. rewrite Hfl in Hfull.
    by destruct (ep_state q ep); simplify_eq/=. }
  rewrite (state_of_synced _ _ _ Hsync). cbn. rewrite Hrep. cbn.
  destruct (ep_state q ep) as [|msg cap| |msg cap] eqn:Hst0; cbn.
  - right. rewrite Hst. do 3 eexists. split; [done|]. split; [apply Hmv3|]. split; [done|].
    exists ep. split_and!; try done. eapply moves_agree_l; [done|]. by eapply moves_moves.
  - right. destruct (Hinst _ _ eq_refl) as (xfer & t' & -> & Ht' & Hg).
    do 3 eexists. split; [done|]. split; [apply Hmv2|]. split; [done|].
    exists ep. split_and!; try done. exists cap. rewrite Hst0. split_and!; try done.
    by eapply moves_agree_l.
  - left. rewrite Hst. do 2 eexists. split; [done|]. split; [apply Hmv3|].
    split; [|by eapply recv_already_waiting].
    eapply moves_same. rewrite Hst0. eapply moves_agree_l; [done|]. by eapply moves_moves.
  - right. destruct (Hinst _ _ eq_refl) as (xfer & t' & -> & Ht' & Hg).
    do 3 eexists. split; [done|]. split; [apply Hmv2|]. split; [done|].
    exists ep. split_and!; try done. exists cap. rewrite Hst0. split_and!; try done.
    by eapply moves_agree_l.
Qed.
End recv.

(** ** Sequences of operations by many tasks *)

Record Sys := mkSys {
  sys_arena : EndpointArena;
  sys_queues : IpcQueues;
  sys_tables : nat → CapabilityTable;
}.

Inductive ipc_op :=
  | DoSend (task : nat) (ep_cap : CapHandle) (msg : Message) (transfer : option CapHandle)
  | DoRecv (task : nat) (ep_cap : CapHandle).

(** What a task observes of a call: the endpoint it named, the message, and the
    capability that left or entered its table. *)
Inductive ipc_event :=
  | EvSent (ep : EndpointHandle) (msg : Message) (cap : option Capability)
  | EvReceived (ep : EndpointHandle) (msg : Message) (cap : option Capability)
  | EvNothing.

Definition cap_at (t : CapabilityTable) (h : option CapHandle) : option Capability :=
  h ≫= λ h, match lookup_cap t h with Ok c => Some c | Err _ => None end.

Definition ep_named (t : CapabilityTable) (ep_cap : CapHandle) (r : CapRights) :
    option EndpointHandle :=
  match validate_ep_cap t ep_cap r with Ok ep => Some ep | Err _ => None end.

(** One call by one task; [None] if it panics. *)
Definition exec_ipc `{BuildProfile} (o : ipc_op) (s : Sys) : option (ipc_event * Sys) :=
  match o with
  | DoSend k ep_cap msg transfer =>
      let t := sys_tables s k in
      match ipc_send ep_cap msg transfer (mkCtx (sys_arena s) (sys_queues s) t) with
      | Done _ c => ep ← ep_named t ep_cap SEND;
          Some (EvSent ep msg (cap_at t transfer),
                mkSys (ep_arena c) (queues c) (set_table (sys_tables s) k (caller_table c)))
      | Fail _ c => Some (EvNothing,
                mkSys (ep_arena c) (queues c) (set_table (sys_tables s) k (caller_table c)))
      | _ => None
      end
  | DoRecv k ep_cap =>
      let t := sys_tables s k in
      match ipc_recv ep_cap (mkCtx (sys_arena s) (sys_queues s) t) with
      | Done (Received msg xfer) c => ep ← ep_named t ep_cap RECV;
          Some (EvReceived ep msg (cap_at (caller_table c) xfer),
                mkSys (ep_arena c) (queues c) (set_table (sys_tables s) k (caller_table c)))
      | Done Pending c | Fail _ c => Some (EvNothing,
                mkSys (ep_arena c) (queues c) (set_table (sys_tables s) k (caller_table c)))
      | _ => None
      end
  end.

Fixpoint run_ipc `{BuildProfile} (os : list ipc_op) (s : Sys) : option (list ipc_event * Sys) :=
  match os with
  | [] => Some ([], s)
  | o :: os => '(e, s1) ← exec_ipc o s; '(es, s2) ← run_ipc os s1; Some (e :: es, s2)
  end.

Definition sent_on (ep : EndpointHandle) (es : list ipc_event) : list (Message * option Capability) :=
  omap (λ e, match e with
             | EvSent ep' m c => if decide (ep' = ep) then Some (m, c) else None
             | _ => None
             end) es.

Definition received_on (ep : EndpointHandle) (es : list ipc_event) : list (Message * option Capability) :=
  omap (λ e, match e with
             | EvReceived ep' m c => if decide (ep' = ep) then Some (m, c) else None
             | _ => None
             end) es.

Record sys_wf (s : Sys) : Prop := {
  sys_ipc : ipc_wf (sys_arena s) (sys_queues s);
  sys_tables_wf k : table_wf (sys_tables s k);
}.

Section system.
Context `{BuildProfile}.
Implicit Types (s : Sys) (ep : EndpointHandle).

Lemma cap_at_takes t t' x cap : takes t t' x cap → cap_at t x = cap.
Proof.
  destruct x as [x|]; simpl; [|by intros [-> _]].
  intros (n & Hn & _ & _ & -> & _). by rewrite lookup_cap_abs, Hn.
Qed.

Lemma cap_at_gives t t' cap x : gives t t' cap x → cap_at t' x = cap.
Proof.
  destruct cap as [c|]; simpl; [|by intros [-> _]].
  intros (h & -> & _ & Hadd). simpl. by rewrite lookup_cap_abs, Hadd, decide_True.
Qed.

Lemma sys_wf_step s q t k :
  sys_wf s → ipc_wf (sys_arena s) q → table_wf t →
  sys_wf (mkSys (sys_arena s) q (set_table (sys_tables s) k t)).
Proof.
  intros Hs Hq Ht. split; [done|]. intros k'. simpl. unfold set_table.
  case_decide; [done|apply (sys_tables_wf _ Hs)].
Qed.

(** One call: no panic, the invariant is kept, and the endpoint's queue is
    what it was, with what was sent appended and what was received removed. *)
Lemma exec_ipc_step s o :
  sys_wf s →
  ∃ e s', exec_ipc o s = Some (e, s') ∧ sys_wf s' ∧ sys_arena s' = sys_arena s ∧
    ∀ ep, ep_live (sys_arena s) ep →
      in_flight (ep_state (sys_queues s) ep) ++ sent_on ep [e] =
      received_on ep [e] ++ in_flight (ep_state (sys_queues s') ep).
Proof.
  intros Hs. destruct o as [k ep_cap msg transfer|k ep_cap]; simpl.
  - destruct (ipc_send_run (sys_arena s) (sys_queues s) (sys_tables s k) ep_cap msg transfer)
      as [(e & q' & -> & Hq & Hag & _)|(out & q' & t' & -> & Hq & Ht & Hacc)]; [apply Hs..| |].
    + do 2 eexists. split; [done|]. simpl. split; [apply sys_wf_step; [done..|apply Hs]|].
      split; [done|]. intros ep Hl. by rewrite Hag, app_nil_r.
    + destruct Hacc as (ep & cap & Hval & Hl & Hh & Htk & [_ Hmv] & _).
      unfold ep_named. rewrite Hval. simpl. do 2 eexists. split; [done|]. simpl.
      split; [by apply sys_wf_step|]. split; [done|]. intros ep' Hl'. rewrite Hmv by done.
      rewrite (cap_at_takes _ _ _ _ Htk). case_decide as Hep.
      * subst ep'. rewrite decide_True by done. simpl.
        by destruct (ep_state (sys_queues s) ep).
      * rewrite decide_False by done. by rewrite app_nil_r.
  - destruct (ipc_recv_run (sys_arena s) (sys_queues s) (sys_tables s k) ep_cap)
      as [(e & q' & -> & Hq & Hag & _)|(out & q' & t' & -> & Hq & Ht & Hacc)]; [apply Hs..| |].
    + do 2 eexists. split; [done|]. simpl. split; [apply sys_wf_step; [done..|apply Hs]|].
      split; [done|]. intros ep Hl. by rewrite Hag, app_nil_r.
    + destruct Hacc as (ep & Hval & Hl & Hout). destruct out as [msg xfer|].
      * destruct Hout as (cap & Hif & [_ Hmv] & Hg). unfold ep_named. rewrite Hval. simpl.
        do 2 eexists. split; [done|]. simpl.
        split; [by apply sys_wf_step|]. split; [done|]. intros ep' Hl'. rewrite Hmv by done.
        rewrite (cap_at_gives _ _ _ _ Hg), app_nil_r. case_decide as Hep.
        -- subst ep'. by rewrite decide_True, Hif by done.
        -- by rewrite decide_False by done.
      * destruct Hout as (Hidle & [_ Hmv] & ->). do 2 eexists. split; [done|]. simpl.
        split; [by apply sys_wf_step|]. split; [done|]. intros ep' Hl'. rewrite Hmv by done.
        rewrite app_nil_r. case_decide; [subst; by rewrite Hidle|done].
Qed.

Lemma run_ipc_fifo os s :
  sys_wf s →
  ∃ es s', run_ipc os s = Some (es, s') ∧ sys_wf s' ∧ sys_arena s' = sys_arena s ∧
    ∀ ep, ep_live (sys_arena s) ep →
      in_flight (ep_state (sys_queues s) ep) ++ sent_on ep es =
      received_on ep es ++ in_flight (ep_state (sys_queues s') ep).
Proof.
  revert s. induction os as [|o os IH]; intros s Hs; simpl.
  - exists [], s. split_and!; [done..|]. intros ep _. by rewrite app_nil_r.
  - destruct (exec_ipc_step s o Hs) as (e & s1 & -> & Hs1 & Ha1 & H1). simpl.
    destruct (IH s1 Hs1) as (es & s2 & -> & Hs2 & Ha2 & H2). simpl.
    exists (e :: es), s2. split_and!; [done..|by congruence|]. intros ep Hl.
    specialize (H1 ep Hl). rewrite Ha1 in H2. specialize (H2 ep Hl).
    unfold sent_on, received_on in *.
    rewrite (omap_app _ [e] es), (omap_app _ [e] es : _ = _ ++ _).
    rewrite app_assoc, H1, <- app_assoc, H2. by rewrite app_assoc.
Qed.
End system.

(** ** Properties *)

Lemma queues_new_state h : ep_state queues_new h = Idle.
Proof.
  unfold ep_state. case_decide; [|done]. simpl. rewrite aget_array_from_fn. by case_decide.
Qed.

Lemma queues_new_wf a : wf ENDPOINT_ARENA_CAPACITY a → ipc_wf a queues_new.
Proof.
  intros Ha. split; [done|apply length_array_from_fn|done|].
  intros h s _ _. simpl. rewrite aget_array_from_fn. case_decide; [by intros [= <-]|done].
Qed.

(** A concrete system: one endpoint, and tables whose slot 0 holds a capability
    on it with every right and slot 1 a capability on a task. *)
Definition demo_ep : EndpointHandle := endpoint_from_slot (mkSlotId 0 0).
Definition demo_arena `{BuildProfile} : EndpointArena :=
  final (create_endpoint (new_endpoint 0)) (new ENDPOINT_ARENA_CAPACITY).
Definition demo_ep_cap : Capability := new_capability (mkRights 255) (ObjEndpoint demo_ep).
Definition demo_gift : Capability := new_capability (mkRights 255) demo_object.
Definition demo_caps : CapabilityTable :=
  final (insert_root demo_gift) (final (insert_root demo_ep_cap) table_new).
Definition demo_msg : Message := mkMessage 7 (1, 2, 3)%N.
Definition demo_sys `{BuildProfile} : Sys := mkSys demo_arena queues_new (λ _, demo_caps).

Lemma demo_caps_wf : table_wf demo_caps.
Proof.
  destruct (insert_root_run table_new demo_ep_cap 0 table_new_wf) as (g & t1 & Hr1 & Hwf1 & _); [done|].
  assert (final (insert_root demo_ep_cap) table_new = t1) as E1 by (unfold final; by rewrite Hr1).
  unfold demo_caps. rewrite E1.
  destruct (insert_root_run t1 demo_gift 1 Hwf1) as (g2 & t2 & Hr2 & Hwf2 & _).
  { rewrite <- E1. by vm_compute. }
  unfold final. by rewrite Hr2.
Qed.

Lemma demo_arena_wf `{BuildProfile} : wf ENDPOINT_ARENA_CAPACITY demo_arena.
Proof.
  assert (wf ENDPOINT_ARENA_CAPACITY (new ENDPOINT_ARENA_CAPACITY : EndpointArena)) as Hwf
    by (apply new_wf; by vm_compute).
  unfold demo_arena, final, create_endpoint, map_err. monad.
  destruct (allocate_total _ _ (new_endpoint 0) Hwf) as [Hf|(id & a' & Hd)].
  - by rewrite Hf.
  - rewrite Hd. by eapply allocate_wf.
Qed.

Lemma demo_sys_wf `{BuildProfile} : sys_wf demo_sys.
Proof. split; simpl; [apply queues_new_wf, demo_arena_wf|intros _; apply demo_caps_wf]. Qed.

(** C14: [ipc_send] on well-formed arguments returns, keeps them well-formed,
    and is atomic. A refusal has the reason the contract names and changes
    neither the caller's table nor the state of any live endpoint. On success the
    message, with the capability taken out of the caller's table if one was
    transferred, is held by the named endpoint, and nothing else moves. In
    particular [unreachable!] is unreachable. *)
Theorem ipc_send_atomic `{BuildProfile} a q t ep_cap msg transfer :
  ipc_wf a q → table_wf t →
  (∃ e q', ipc_send ep_cap msg transfer (mkCtx a q t) = Fail e (mkCtx a q' t) ∧
     ipc_wf a q' ∧ agree a q q' ∧ send_refused a q t ep_cap transfer e) ∨
  (∃ out q' t', ipc_send ep_cap msg transfer (mkCtx a q t) = Done out (mkCtx a q' t') ∧
     ipc_wf a q' ∧ table_wf t' ∧ send_accepted a q t ep_cap msg transfer out q' t').
Proof. apply ipc_send_run. Qed.

Lemma ipc_send_atomic_witness :
  let _ := debug_profile in
  let h := mkCapHandle 0 0 in
  let x := Some (mkCapHandle 1 0) in
  (∃ e q', ipc_send h demo_msg x (mkCtx demo_arena queues_new demo_caps) =
             Fail e (mkCtx demo_arena q' demo_caps) ∧
     ipc_wf demo_arena q' ∧ agree demo_arena queues_new q' ∧
     send_refused demo_arena queues_new demo_caps h x e) ∨
  (∃ out q' t', ipc_send h demo_msg x (mkCtx demo_arena queues_new demo_caps) =
             Done out (mkCtx demo_arena q' t') ∧
     ipc_wf demo_arena q' ∧ table_wf t' ∧
     send_accepted demo_arena queues_new demo_caps h demo_msg x out q' t').
Proof.
  intros p h x. apply (ipc_send_atomic (H := p) demo_arena queues_new demo_caps h demo_msg x).
  - apply queues_new_wf, demo_arena_wf.
  - apply demo_caps_wf.
Defined.

(** C15: [ipc_recv] on well-formed arguments returns, keeps them well-formed,
    and is atomic. A refusal leaves the caller's table and every live endpoint
    as they were: a message whose capability does not fit stays queued. On
    success the endpoint's message is handed over, with its capability installed
    as a new root of the receiver's table, or the receiver is registered. *)
Theorem ipc_recv_atomic `{BuildProfile} a q t ep_cap :
  ipc_wf a q → table_wf t →
  (∃ e q', ipc_recv ep_cap (mkCtx a q t) = Fail e (mkCtx a q' t) ∧
     ipc_wf a q' ∧ agree a q q' ∧ recv_refused a q t ep_cap e) ∨
  (∃ out q' t', ipc_recv ep_cap (mkCtx a q t) = Done out (mkCtx a q' t') ∧
     ipc_wf a q' ∧ table_wf t' ∧ recv_accepted a q t ep_cap out q' t').
Proof. apply ipc_recv_run. Qed.

Lemma ipc_recv_atomic_witness :
  let _ := release_profile in
  let h := mkCapHandle 0 0 in
  (∃ e q', ipc_recv h (mkCtx demo_arena queues_new demo_caps) =
             Fail e (mkCtx demo_arena q' demo_caps) ∧
     ipc_wf demo_arena q' ∧ agree demo_arena queues_new q' ∧
     recv_refused demo_arena queues_new demo_caps h e) ∨
  (∃ out q' t', ipc_recv h (mkCtx demo_arena queues_new demo_caps) =
             Done out (mkCtx demo_arena q' t') ∧
     ipc_wf demo_arena q' ∧ table_wf t' ∧
     recv_accepted demo_arena queues_new demo_caps h out q' t').
Proof.
  intros p h. apply (ipc_recv_atomic (H := p) demo_arena queues_new demo_caps h).
  - apply queues_new_wf, demo_arena_wf.
  - apply demo_caps_wf.
Defined.

(** C3: for any sequence of sends and receives by any number of tasks, each
    with its own capability table, and for every live endpoint: what was queued
    at the start followed by everything sent is everything received followed by
    what is still queued, messages and capabilities alike. No call panics, no
    message is lost, duplicated or reordered, and no capability either. *)
Theorem ipc_conserves_messages `{BuildProfile} (os : list ipc_op) (s : Sys) :
  sys_wf s →
  ∃ es s', run_ipc os s = Some (es, s') ∧ sys_wf s' ∧
    ∀ ep, ep_live (sys_arena s) ep →
      in_flight (ep_state (sys_queues s) ep) ++ sent_on ep es =
      received_on ep es ++ in_flight (ep_state (sys_queues s') ep).
Proof.
  intros Hs. destruct (run_ipc_fifo os s Hs) as (es & s' & ? & ? & _ & ?). eauto.
Qed.

Lemma ipc_conserves_messages_witness :
  let _ := debug_profile in
  let h := mkCapHandle 0 0 in
  let os := [DoRecv 1 h; DoSend 0 h demo_msg (Some (mkCapHandle 1 0)); DoRecv 1 h;
             DoSend 1 h demo_msg None] in
  ∃ es s', run_ipc os demo_sys = Some (es, s') ∧ sys_wf s' ∧
    ∀ ep, ep_live (sys_arena demo_sys) ep →
      in_flight (ep_state (sys_queues demo_sys) ep) ++ sent_on ep es =
      received_on ep es ++ in_flight (ep_state (sys_queues s') ep).
Proof.
  intros p h os. apply (ipc_conserves_messages (H := p) os demo_sys), demo_sys_wf.
Defined.

(** C10: a capability transferred by IPC arrives. If [ipc_send] accepts a
    message with the capability [x], then a receiver with a [RECV] capability on
    the same endpoint and a free slot gets, from its next [ipc_recv], that message
    and a handle to that capability; the sender's table has lost exactly [x], the
    receiver's has gained exactly this root, and the endpoint is idle. *)
Theorem ipc_transfer_moves_capability `{BuildProfile} a q ts tr send_cap recv_cap ep msg x n out q1 ts' :
  ipc_wf a q → table_wf ts → table_wf tr →
  validate_ep_cap ts send_cap SEND = Ok ep → validate_ep_cap tr recv_cap RECV = Ok ep →
  abs ts x = Some n → is_full tr = false →
  ipc_send send_cap msg (Some x) (mkCtx a q ts) = Done out (mkCtx a q1 ts') →
  ∃ h q2 tr',
    ipc_recv recv_cap (mkCtx a q1 tr) = Done (Received msg (Some h)) (mkCtx a q2 tr') ∧
    deletes (abs ts) (abs ts') x ∧ adds (abs tr) (abs tr') h (mkNode (node_cap n) None 0) ∧
    ep_state q2 ep = Idle.
Proof.
  intros Hwf Hts Htr Hvs Hvr Hn Hroom Hsend.
  destruct (ipc_send_run a q ts send_cap msg (Some x) Hwf Hts)
    as [(e & q' & Hr & _)|(out' & q' & t' & Hr & Hq1 & Hts' & Hacc)]; [congruence|].
  rewrite Hr in Hsend. injection Hsend as <- <- <-.
  destruct Hacc as (ep' & cap & Hval & Hl & Hh & (n' & Hn' & _ & _ & -> & Hdel) & Hmv & _).
  assert (ep' = ep) as -> by congruence. assert (n' = n) as -> by congruence.
  pose proof (proj2 Hmv ep Hl) as Hst. rewrite decide_True in Hst by done.
  assert (in_flight (ep_state q' ep) = [(msg, Some (node_cap n))]) as Hif.
  { rewrite Hst. by destruct (ep_state q ep). }
  destruct (ipc_recv_run a q' tr recv_cap Hq1 Htr)
    as [(e & q2 & _ & _ & _ & Hbad)|(out & q2 & tr' & Hrecv & _ & _ & Hacc)].
  - exfalso. destruct Hbad as [e He|ep' He Hd|ep' He _ _ Hfull|ep' He _ Hw]; [congruence|..];
      (assert (ep' = ep) as -> by congruence); [done|..].
    + apply (full_head _ Htr) in Hfull. unfold is_full in Hroom. by rewrite Hfull in Hroom.
    + by rewrite Hw in Hif.
  - destruct Hacc as (ep' & Hv & _ & Hout). assert (ep' = ep) as -> by congruence.
    destruct out as [msg' xfer|].
    + destruct Hout as (cap & Hif' & [_ Hmv2] & Hg). rewrite Hif in Hif'. simplify_eq.
      destruct Hg as (h & -> & Hadd). exists h, q2, tr'. split_and!; try done.
      rewrite Hmv2 by done. by rewrite decide_True.
    + destruct Hout as (Hidle & _). by rewrite Hidle in Hif.
Qed.

Lemma ipc_transfer_moves_capability_witness :
  let _ := debug_profile in
  let h := mkCapHandle 0 0 in
  let x := mkCapHandle 1 0 in
  let c := final (ipc_send h demo_msg (Some x)) (mkCtx demo_arena queues_new demo_caps) in
  ∃ h' q2 tr',
    ipc_recv h (mkCtx demo_arena (queues c) demo_caps) =
      Done (Received demo_msg (Some h')) (mkCtx demo_arena q2 tr') ∧
    deletes (abs demo_caps) (abs (caller_table c)) x ∧
    adds (abs demo_caps) (abs tr') h' (mkNode demo_gift None 0) ∧
    ep_state q2 demo_ep = Idle.
Proof.
  intros p h x c.
  apply (ipc_transfer_moves_capability (H := p) demo_arena queues_new demo_caps demo_caps h h
    demo_ep demo_msg x (mkNode demo_gift None 0) Enqueued (queues c) (caller_table c));
    [apply queues_new_wf, demo_arena_wf|apply demo_caps_wf|apply demo_caps_wf|by vm_compute..].
Defined.

(** [cap] is a live handle of [t] with [NOTIFY] on the notification [h], which is [v]. *)
Definition may_notify (t : CapabilityTable) (a : NotificationArena) cap h v : Prop :=
  ∃ nd, abs t cap = Some nd ∧ Rights.contains (rights (node_cap nd)) NOTIFY = true ∧
        object (node_cap nd) = ObjNotification h ∧ view a !! notification_slot h = Some v.

Lemma validate_notif_cap_abs t cap h :
  validate_notif_cap t cap = Ok h ↔
  ∃ nd, abs t cap = Some nd ∧ Rights.contains (rights (node_cap nd)) NOTIFY = true ∧ object (node_cap nd) = ObjNotification h.
Proof.
  unfold validate_notif_cap. rewrite lookup_cap_abs.
  destruct (abs t cap) as [nd|]; [|split; [done|by intros (? & ? & _)]].
  destruct (Rights.contains _ _) eqn:Hh, (object (node_cap nd)) eqn:Ho; cbn; split; try done;
    try (intros (? & [= <-] & ? & ?); congruence).
  intros [= <-]. eauto.
Qed.

(** C37: [ipc_notify] ORs the bits into the notification the capability names,
    if the capability is live, has [NOTIFY] and names a live notification, and
    changes nothing else; otherwise it returns [InvalidCapability] and changes
    nothing at all. *)
Theorem ipc_notify_exact n t cap bits (a : NotificationArena) :
  wf n a →
  (∀ h v, may_notify t a cap h v →
     ∃ a', ipc_notify cap t bits a = Done tt a' ∧ wf n a' ∧
       view a' = <[notification_slot h := new_notification (N.lor (word v) bits)]> (view a)) ∧
  ((¬ ∃ h v, may_notify t a cap h v) → ipc_notify cap t bits a = Fail InvalidCapability a).
Proof.
  intros Hwf. unfold ipc_notify, may_notify. monad. unfold id. split.
  - intros h v (nd & Hnd & Hr & Ho & Hv). rewrite (proj2 (validate_notif_cap_abs t cap h)) by eauto. cbn.
    destruct (get_mut a (notification_slot h)) as [[v' put]|] eqn:Hm;
      [|apply get_mut_None in Hm; by rewrite lookup_view, Hm in Hv].
    assert (v' = v) as ->.
    { apply get_mut_Some in Hm as [Hg _]. rewrite lookup_view, Hg in Hv. by injection Hv. }
    destruct (get_mut_view a n _ v put (set_bits v bits) Hwf Hm). eauto.
  - intros Hno. destruct (validate_notif_cap t cap) as [h|e] eqn:Hval; cbn.
    + destruct (get_mut a (notification_slot h)) as [[v put]|] eqn:Hm; [|done]. destruct Hno.
      apply validate_notif_cap_abs in Hval as (nd & ? & ? & ?).
      apply get_mut_Some in Hm as [Hg _]. exists h, v, nd. by rewrite lookup_view.
    + assert (e = InvalidCapability) as ->; [|done]. unfold validate_notif_cap in Hval.
      repeat case_match; congruence.
Qed.

Lemma ipc_notify_exact_witness :
  let _ := debug_profile in
  let a : NotificationArena := final (create_notification (new_notification 1)) (new 4) in
  let h := notification_from_slot (mkSlotId 0 0) in
  let t := final (insert_root (new_capability NOTIFY (ObjNotification h))) table_new in
  may_notify t a (mkCapHandle 0 0) h (new_notification 1) ∧
  ∃ a', ipc_notify (mkCapHandle 0 0) t 6 a = Done tt a' ∧ wf 4 a' ∧
        view a' = <[mkSlotId 0 0 := new_notification 7]> (view a).
Proof.
  intros p a h t.
  assert (wf 4 a) as Hwf.
  { apply (allocate_wf (new 4) 4 (new_notification 1) (mkSlotId 0 0)); [apply new_wf|]; by vm_compute. }
  assert (may_notify t a (mkCapHandle 0 0) h (new_notification 1)) as Hn.
  { exists (mkNode (new_capability NOTIFY (ObjNotification h)) None 0). by vm_compute. }
  split; [done|]. exact (proj1 (ipc_notify_exact 4 t (mkCapHandle 0 0) 6 a Hwf) h (new_notification 1) Hn).
Defined.

(** The reset of a slot that still carries a capability. *)
Lemma reset_undrained q ep s :
  is_Some (aget (slot_generations q) (ep_index ep)) →
  aget (slot_generations q) (ep_index ep) ≠ Some (ep_gen ep) →
  aget (states q) (ep_index ep) = Some s → carries_cap s = true →
  reset_if_stale_generation (H := debug_profile) ep q = Panic ∧
  ∃ q', reset_if_stale_generation (H := release_profile) ep q = Done (ep_index ep) q' ∧
        synced q' ep Idle.
Proof.
  intros [g Hg] Hst Hs Hc. unfold reset_if_stale_generation, debug_assert. monad. rewrite Hg. cbn.
  rewrite !decide_True by congruence. rewrite Hs. cbn. rewrite Hc. split; [done|]. cbn.
  eexists. split; [done|]. split; cbn; by rewrite aget_aset_eq by eauto.
Qed.

(** C35: why the destruction invariant matters. If an endpoint is replaced while
    its slot still holds a message with a capability, the next [ipc_recv] on the
    new endpoint panics in a debug build; in a release build it reports [Pending]
    and the capability is gone: it is in no table and no queue. *)
Theorem undrained_capability_is_lost a q t ep_cap ep s :
  validate_ep_cap t ep_cap RECV = Ok ep → ep_live a ep →
  is_Some (aget (slot_generations q) (ep_index ep)) →
  aget (slot_generations q) (ep_index ep) ≠ Some (ep_gen ep) →
  aget (states q) (ep_index ep) = Some s → carries_cap s = true →
  ipc_recv (H := debug_profile) ep_cap (mkCtx a q t) = Panic ∧
  ∃ q', ipc_recv (H := release_profile) ep_cap (mkCtx a q t) = Done Pending (mkCtx a q' t) ∧
        aget (states q') (ep_index ep) = Some RecvWaiting.
Proof.
  intros Hv [v Hl] Hg Hst Hs Hc.
  destruct (reset_undrained q ep s Hg Hst Hs Hc) as (Hdebug & q1 & Hreset & Hsync).
  unfold ipc_recv, on_queues, zoom. monad. cbn. rewrite Hv. cbn. rewrite Hl. cbn. split.
  - unfold peek_state. monad. by rewrite Hdebug.
  - unfold peek_state at 1. monad. rewrite Hreset. rewrite (proj2 Hsync). cbn.
    rewrite (state_of_synced (H := release_profile) _ _ _ Hsync). cbn.
    unfold replace, store. monad. rewrite (proj2 Hsync). cbn. eexists. split; [done|].
    cbn. rewrite aset_aset. by rewrite aget_aset_eq by (destruct Hsync; eauto).
Qed.

Lemma undrained_capability_is_lost_witness :
  let t := final (insert_root (new_capability (mkRights 255)
             (ObjEndpoint (endpoint_from_slot (mkSlotId 0 1))))) table_new in
  let a := final (create_endpoint (H := debug_profile) (new_endpoint 0))
             (final (destroy_endpoint demo_ep) (demo_arena (H := debug_profile))) in
  let q := mkQueues (aset (states queues_new) 0 (SendPending demo_msg (Some demo_gift)))
             (slot_generations queues_new) in
  ipc_recv (H := debug_profile) (mkCapHandle 0 0) (mkCtx a q t) = Panic ∧
  ∃ q', ipc_recv (H := release_profile) (mkCapHandle 0 0) (mkCtx a q t) =
          Done Pending (mkCtx a q' t) ∧
        aget (states q') 0 = Some RecvWaiting.
Proof.
  intros t a q.
  apply (undrained_capability_is_lost a q t (mkCapHandle 0 0)
    (endpoint_from_slot (mkSlotId 0 1)) (SendPending demo_msg (Some demo_gift)));
    [by vm_compute|by eexists; vm_compute|by eexists; vm_compute|by vm_compute..].
Defined.
