(* ===== verification/HalCpu.v ===== *)
(** * [hal/src/cpu.rs], [hal/src/context_switch.rs]: the CPU interface

    The traits a board implements are classes over the state [S] of a core: what
    [&self] reaches through registers. The laws the kernel relies on are separate
    classes; [QemuCpu.v] (the board) and [TestHal.v] (the host fake) prove them
    for their instances, and the scheduler is verified against them. *)

From stdpp Require Import prelude.
From Stdlib Require Import Lia NArith.
From S2P Require Import Prelude.

Abbreviation CoreId := N (only parsing).

(** [IrqState]: an opaque saved mask. *)
Record IrqState := mkIrqState { irq_bits : usize }.

Class Cpu (S : Type) := {
  current_core_id : S → CoreId;
  disable_irqs : S → IrqState * S;
  restore_irq_state : IrqState → S → S;
  wait_for_interrupt : M S Empty_set unit;
  instruction_barrier : M S Empty_set unit;
}.

(** Whether interrupts are masked is not a method of the trait; a board knows. *)
Class CpuLaws (S : Type) `{Cpu S} := {
  irqs_masked : S → bool;
  (** [disable_irqs] masks, and changes nothing else that is restored. *)
  disable_masks s : irqs_masked (disable_irqs s).2 = true;
  (** Restoring a state saved by [disable_irqs] brings back that mask, whatever
      ran in between. *)
  restore_saved s s' :
    irqs_masked (restore_irq_state (disable_irqs s).1 s') = irqs_masked s;
  (** With nothing in between, the core is as it was. *)
  restore_disable s : restore_irq_state (disable_irqs s).1 (disable_irqs s).2 = s;
}.

(** ** [IrqGuard] *)

Record IrqGuard := mkIrqGuard { prev : IrqState }.

Section guard.
Context {S : Type} `{Cpu S}.

(** [IrqGuard::new]. *)
Definition irq_guard_new (s : S) : IrqGuard * S :=
  let '(prev, s') := disable_irqs s in (mkIrqGuard prev, s').

(** [IrqGuard::drop]. *)
Definition irq_guard_drop (g : IrqGuard) (s : S) : S := restore_irq_state (prev g) s.

(** A block that holds a guard while [body] runs. *)
Definition critical (body : S → S) (s : S) : S :=
  let '(g, s1) := irq_guard_new s in irq_guard_drop g (body s1).
End guard.

(** A core on which only [depth]-nested critical sections run [body]. *)
Fixpoint nested {S} `{Cpu S} (depth : nat) (body : S → S) : S → S :=
  match depth with
  | O => body
  | Datatypes.S d => critical (nested d body)
  end.

Section guard_lemmas.
Context {S : Type} `{CpuLaws S}.

Lemma critical_unfold (body : S → S) s :
  critical body s = restore_irq_state (disable_irqs s).1 (body (disable_irqs s).2).
Proof.
  unfold critical, irq_guard_new, irq_guard_drop. by destruct (disable_irqs s).
Qed.

(** Critical sections leave the mask as they found it, however deeply nested
    and whatever their bodies do to it. *)
Lemma critical_mask (body : S → S) s : irqs_masked (critical body s) = irqs_masked s.
Proof. rewrite critical_unfold. apply restore_saved. Qed.
End guard_lemmas.

(** ** [current_el] *)

(** The register read is the argument; the extraction of the field is the code. *)
Definition current_el (raw : u64) : u8 := wrap 8 (N.land (N.shiftr raw 2) 3).

(** ** [ContextSwitch] *)

(** [context_switch] stores the running task's registers into [current] and
    continues with those of [next]. *)
Class ContextSwitch (S : Type) := {
  TaskContext : Type;
  default_context : TaskContext;
  context_switch : S → TaskContext → TaskContext → S * TaskContext;
  init_context : S → TaskContext → u64 → u64 → TaskContext;
}.

(** [regs s] is the register file of the running task, as far as a context saves
    it; [holds c r] says that the context [c] stores [r]. *)
Class ContextSwitchLaws (S : Type) `{ContextSwitch S, Cpu S} := {
  Regs : Type;
  regs : S → Regs;
  pc_of : Regs → u64;
  stack_of : Regs → u64;
  valid : TaskContext → Prop;
  holds : TaskContext → Regs → Prop;
  valid_default : valid default_context;
  holds_valid c r : holds c r → valid c;
  (** The registers of the running task are saved ... *)
  switch_saves s cur next :
    valid cur → valid next → holds (context_switch s cur next).2 (regs s);
  (** ... and a context that holds a register file restores it. *)
  switch_restores s cur next r :
    valid cur → holds next r → regs (context_switch s cur next).1 = r;
  (** A fresh context starts at [entry] on its own stack. *)
  init_holds s c entry stack_top :
    valid c → ∃ r, holds (init_context s c entry stack_top) r ∧ pc_of r = entry ∧ stack_of r = stack_top;
  (** Masking does not touch the registers of a context. *)
  disable_regs s : regs (disable_irqs s).2 = regs s;
  restore_regs st s : regs (restore_irq_state st s) = regs s;
}.

(** ** Properties *)

(** [IrqGuard]s nest. For every core that satisfies the trait's contract, a
    body inside any number of nested guards runs with interrupts masked, and
    dropping them restores exactly the mask from before the outermost one,
    whatever the body did to the mask in between. *)
Theorem irq_guards_nest {S} `{CpuLaws S} (depth : nat) (body : S → S) (s : S) :
  0 < depth →
  irqs_masked (nested depth body s) = irqs_masked s ∧
  nested depth (λ s', s') s = s ∧
  (∀ f, (∀ s', irqs_masked s' = true → body s' = f s') → nested depth body s = nested depth f s).
Proof.
  intros Hd. destruct depth as [|d]; [lia|]. split_and!.
  - apply critical_mask.
  - clear Hd. revert s. induction d as [|d IH]; intros s; simpl in *;
      rewrite critical_unfold; [apply restore_disable|]. rewrite IH. apply restore_disable.
  - intros f Hf. clear Hd. revert s. induction d as [|d IH]; intros s; simpl in *.
    + rewrite !critical_unfold. f_equal. apply Hf, disable_masks.
    + rewrite (critical_unfold (critical (nested d body))).
      rewrite (critical_unfold (critical (nested d f))). f_equal. apply IH.
Qed.

(** [current_el] extracts bits 3:2 of [CurrentEL]: for the value the
    register has at exception level [el], whatever its other bits, the result is
    [el]. *)
Lemma current_el_exact (el low high : N) :
  (el < 4)%N → (low < 4)%N → current_el (high * 16 + el * 4 + low) = el.
Proof.
  intros Hel Hlow. unfold current_el. rewrite wrap_small.
  - rewrite N.shiftr_div_pow2. change 3%N with (N.ones 2). rewrite N.land_ones.
    change (2 ^ 2)%N with 4%N.
    replace (high * 16 + el * 4 + low)%N with (low + (high * 4 + el) * 4)%N by lia.
    rewrite N.div_add, N.div_small, N.add_0_l by lia.
    rewrite N.add_comm, N.Div0.mod_add. by apply N.mod_small.
  - change 3%N with (N.ones 2). rewrite N.land_ones. unfold in_width.
    eapply N.lt_trans; [apply N.mod_lt|]; by vm_compute.
Qed.

Lemma current_el_exact_witness : current_el (0 * 16 + 1 * 4 + 0) = 1%N.
Proof. apply (current_el_exact 1 0 0); lia. Defined.
