(* ===== verification/HalIrq.v ===== *)
(** * [hal/src/irq_controller.rs]: the interrupt-controller interface

    [C] is the type of the controller's handle ([&self]), [S] the state behind
    it: device registers on a board, a record in the host fake. *)

From stdpp Require Import prelude.
From S2P Require Import Prelude.

Record IrqNumber := mkIrq { irq_id : u32 }.

Global Instance IrqNumber_eq_dec : EqDecision IrqNumber.
Proof. solve_decision. Defined.

Class IrqController (C S : Type) := {
  irq_enable : C → IrqNumber → M S Empty_set unit;
  irq_disable : C → IrqNumber → M S Empty_set unit;
  acknowledge : C → M S Empty_set (option IrqNumber);
  end_of_interrupt : C → IrqNumber → M S Empty_set unit;
}.

(** The contract of the trait, for the lines that [line_ok] admits: a line is
    delivered or not ([delivers]), [enable] and [disable] set exactly the line
    they name (so they are idempotent), and neither acknowledging nor ending an
    interrupt changes which lines are delivered. *)
Class IrqControllerLaws (C S : Type) `{IrqController C S} (c : C) := {
  line_ok : S → IrqNumber → Prop;
  delivers : S → IrqNumber → bool;
  enable_law s irq :
    line_ok s irq → ∃ s', irq_enable c irq s = Done tt s' ∧
      (∀ j, line_ok s j → line_ok s' j ∧ delivers s' j = (bool_decide (j = irq) || delivers s j));
  disable_law s irq :
    line_ok s irq → ∃ s', irq_disable c irq s = Done tt s' ∧
      (∀ j, line_ok s j → line_ok s' j ∧ delivers s' j = (negb (bool_decide (j = irq)) && delivers s j));
  acknowledge_law s o s' :
    acknowledge c s = Done o s' → ∀ j, line_ok s j → line_ok s' j ∧ delivers s' j = delivers s j;
  eoi_law s irq s' :
    end_of_interrupt c irq s = Done tt s' → ∀ j, line_ok s j → line_ok s' j ∧ delivers s' j = delivers s j;
}.
