(* ===== verification/Timer.v ===== *)
(** * [hal/src/timer.rs]: tick arithmetic

    The conversions between counter ticks and nanoseconds. [None] is the named
    [assert!] on a zero frequency. Intermediate products are [u128]; the results
    say where a [u64] saturates. *)

From stdpp Require Import prelude.
From Stdlib Require Import Lia NArith.
From S2P Require Import Prelude.

Definition NANOS_PER_SECOND : u64 := 1000000000%N.

Definition u64_max : N := umax 64.

(** [u128::div_ceil]. *)
Definition div_ceil (x y : N) : N :=
  let q := (x / y)%N in
  let r := (x mod y)%N in
  if decide (0 < r)%N then (q + 1)%N else q.

Definition ticks_to_ns (count frequency_hz : u64) : option u64 :=
  if decide (frequency_hz = 0)%N then None else
  let intermediate := wrap 128 (count * NANOS_PER_SECOND) in
  let ns := (intermediate / frequency_hz)%N in
  Some (if decide (u64_max < ns)%N then u64_max else wrap 64 ns).

(** [None] also stands for the overflow checks of the [u64] arithmetic. *)
Definition resolution_ns_for_freq (frequency_hz : u64) : option u64 :=
  if decide (frequency_hz = 0)%N then None else
  let sum := (NANOS_PER_SECOND + frequency_hz / 2)%N in
  if decide (u64_max < sum)%N then None else
  let raw := (sum / frequency_hz)%N in
  Some (if decide (raw = 0)%N then 1%N else raw).

Definition ns_to_ticks (ns frequency_hz : u64) : option u64 :=
  if decide (frequency_hz = 0)%N then None else
  let intermediate := wrap 128 (ns * frequency_hz) in
  let nanos := NANOS_PER_SECOND in
  let ticks := div_ceil intermediate nanos in
  Some (if decide (u64_max < ticks)%N then u64_max else wrap 64 ticks).

Section arithmetic.
Implicit Types (c f ns : N).

Lemma product_fits x y : in_width 64 x → in_width 64 y → wrap 128 (x * y) = (x * y)%N.
Proof.
  unfold in_width. intros Hx Hy. apply wrap_small. unfold in_width.
  change (2 ^ 128)%N with (2 ^ 64 * 2 ^ 64)%N. nia.
Qed.

Lemma nanos_in_width : in_width 64 NANOS_PER_SECOND.
Proof. by vm_compute. Qed.

Lemma saturate_min x : (if decide (u64_max < x)%N then u64_max else wrap 64 x) = N.min x u64_max.
Proof.
  case_decide as Hx; [lia|]. rewrite wrap_small; [lia|].
  unfold in_width, u64_max, umax in *. pose proof (pow2_pos 64). lia.
Qed.

(** The three conversions without machine arithmetic. *)
Lemma ticks_to_ns_eq c f :
  in_width 64 c → f ≠ 0%N → ticks_to_ns c f = Some (N.min (c * NANOS_PER_SECOND / f) u64_max).
Proof.
  intros Hc Hf. unfold ticks_to_ns. rewrite decide_False by done.
  rewrite product_fits by (done || apply nanos_in_width). by rewrite saturate_min.
Qed.

Lemma ns_to_ticks_eq ns f :
  in_width 64 ns → in_width 64 f → f ≠ 0%N →
  ns_to_ticks ns f = Some (N.min (div_ceil (ns * f) NANOS_PER_SECOND) u64_max).
Proof.
  intros Hn Hf Hz. unfold ns_to_ticks. rewrite decide_False by done.
  rewrite product_fits by done. by rewrite saturate_min.
Qed.

(** Ceiling division is the least multiple that suffices. *)
Lemma div_ceil_spec x y q : y ≠ 0%N → (div_ceil x y ≤ q ↔ x ≤ q * y)%N.
Proof.
  intros Hy. unfold div_ceil. pose proof (N.div_mod x y Hy) as Hx.
  pose proof (N.mod_lt x y Hy) as Hr. rewrite (N.mul_comm y) in Hx.
  generalize dependent (x mod y)%N. generalize dependent (x / y)%N. intros d r Hx Hr.
  case_decide; (split; intros Hq; [|apply N.nlt_ge; intros Hlt]).
  - pose proof (N.mul_le_mono_r _ _ y Hq). lia.
  - pose proof (N.mul_le_mono_r q d y ltac:(lia)). lia.
  - pose proof (N.mul_le_mono_r _ _ y Hq). lia.
  - pose proof (N.mul_le_mono_r (q + 1) d y ltac:(lia)). lia.
Qed.

Lemma div_le_iff x y q : y ≠ 0%N → (q ≤ x / y ↔ q * y ≤ x)%N.
Proof.
  intros Hy. pose proof (N.div_mod x y Hy) as Hx. pose proof (N.mod_lt x y Hy) as Hr.
  rewrite (N.mul_comm y) in Hx.
  generalize dependent (x mod y)%N. generalize dependent (x / y)%N. intros d r Hx Hr.
  split; intros Hq; [|apply N.nlt_ge; intros Hlt].
  - pose proof (N.mul_le_mono_r _ _ y Hq). lia.
  - pose proof (N.mul_le_mono_r (d + 1) q y ltac:(lia)). lia.
Qed.

(** A remainder smaller than a tick period is rounded away. *)
Lemma div_ceil_floor (p c f q m : N) :
  p ≠ 0%N → (c * p = q * f + m)%N → (m < f)%N → (f ≤ p)%N → div_ceil (q * f) p = c.
Proof.
  intros Hp Hd Hm Hf. apply N.le_antisymm.
  - apply div_ceil_spec; [done|]. lia.
  - destruct (N.eq_dec c 0) as [->|Hc0]; [lia|]. apply N.nlt_ge. intros Hlt.
    assert (div_ceil (q * f) p ≤ c - 1)%N as Hle by lia.
    apply div_ceil_spec in Hle; [|done]. rewrite N.mul_sub_distr_r, N.mul_1_l in Hle.
    assert (p ≤ c * p)%N by nia. lia.
Qed.

(** The resolution exists for every frequency the board accepts. *)
Lemma resolution_Some f : in_width 64 f → f ≠ 0%N → is_Some (resolution_ns_for_freq f).
Proof.
  intros Hw Hz. unfold resolution_ns_for_freq. rewrite decide_False by done.
  pose proof (N.div_mod f 2 ltac:(done)) as Hhalf. pose proof (N.mod_lt f 2 ltac:(done)) as Hm2.
  generalize dependent (f mod 2)%N. generalize dependent (f / 2)%N. intros hf m2 Hhalf Hm2.
  rewrite decide_False; [by eexists|].
  apply N.nlt_ge. unfold in_width in Hw. change (2 ^ 64)%N with 18446744073709551616%N in Hw.
  change u64_max with 18446744073709551615%N. unfold NANOS_PER_SECOND. lia.
Qed.

(** The first count whose time reaches [ns]. *)
Lemma ns_to_ticks_first ns f t c :
  in_width 64 ns → in_width 64 f → f ≠ 0%N →
  ns_to_ticks ns f = Some t → (t < u64_max)%N → in_width 64 c →
  (t ≤ c)%N ↔ ∃ now, ticks_to_ns c f = Some now ∧ (ns ≤ now)%N.
Proof.
  intros Hns Hf Hz Ht Hsat Hc. rewrite ns_to_ticks_eq in Ht by done. injection Ht as Ht.
  assert (t = div_ceil (ns * f) NANOS_PER_SECOND) as -> by lia.
  rewrite div_ceil_spec, <- div_le_iff by done. rewrite ticks_to_ns_eq by done. split.
  - intros Hle. eexists. split; [done|]. unfold in_width, u64_max, umax in *. lia.
  - intros (now & [= <-] & Hle). lia.
Qed.
End arithmetic.

(** ** [Timer] *)

(** The trait, over the handle [C] and the device state [S]. *)
Class Timer (C S : Type) := {
  now_ns : C → M S Empty_set u64;
  arm_deadline : C → u64 → M S Empty_set unit;
  cancel_deadline : C → M S Empty_set unit;
  resolution_ns : C → M S Empty_set u64;
}.

(** ** Properties *)

(** [ticks_to_ns] never goes back: a later count converts to a time no
    earlier, for every frequency, also across saturation at [u64::MAX]; the
    [u128] product never overflows, and the result is the exact quotient,
    truncated, when it fits. *)
Theorem ticks_to_ns_monotonic (c c' f : u64) :
  in_width 64 c' → f ≠ 0%N → (c ≤ c')%N →
  ∃ ns ns', ticks_to_ns c f = Some ns ∧ ticks_to_ns c' f = Some ns' ∧ (ns ≤ ns' ≤ u64_max)%N ∧
    ns' = N.min (c' * NANOS_PER_SECOND / f) u64_max.
Proof.
  intros Hc' Hf Hle. assert (in_width 64 c) as Hc by (unfold in_width in *; lia).
  do 2 eexists. split; [by apply ticks_to_ns_eq|]. split; [by apply ticks_to_ns_eq|].
  assert (c * NANOS_PER_SECOND / f ≤ c' * NANOS_PER_SECOND / f)%N.
  { apply N.Div0.div_le_mono. nia. }
  split; [|done]. lia.
Qed.

Lemma ticks_to_ns_monotonic_witness :
  ∃ ns ns', ticks_to_ns 1 19200000 = Some ns ∧ ticks_to_ns 19200000 19200000 = Some ns' ∧
    (ns ≤ ns' ≤ u64_max)%N ∧ ns' = N.min (19200000 * NANOS_PER_SECOND / 19200000) u64_max.
Proof. apply (ticks_to_ns_monotonic 1 19200000 19200000); [by vm_compute|done|lia]. Defined.

(** A deadline is never early and never later than necessary. Unless the
    tick count saturates, [ns_to_ticks ns] is the first counter value whose time
    is at least [ns]; in particular converting back gives a time that reaches or
    exceeds [ns]. *)
Theorem ns_to_ticks_first_tick_not_early (ns f t : u64) :
  in_width 64 ns → in_width 64 f → f ≠ 0%N →
  ns_to_ticks ns f = Some t → (t < u64_max)%N →
  ∀ c, in_width 64 c → (t ≤ c)%N ↔ ∃ now, ticks_to_ns c f = Some now ∧ (ns ≤ now)%N.
Proof.
  intros Hns Hf Hz Ht Hsat c. by apply ns_to_ticks_first.
Qed.

Lemma ns_to_ticks_first_tick_not_early_witness :
  (2 ≤ 5)%N ↔ ∃ now, ticks_to_ns 5 3 = Some now ∧ (333333334 ≤ now)%N.
Proof.
  apply (ns_to_ticks_first_tick_not_early 333333334 3 2);
    [by vm_compute..|done|by vm_compute|done|by vm_compute].
Defined.

(** C40: for every frequency up to 1 GHz and every count whose time fits a
    [u64], converting to nanoseconds and back gives the count. *)
Theorem ticks_round_trip (c f ns : u64) :
  in_width 64 c → f ≠ 0%N → (f ≤ NANOS_PER_SECOND)%N →
  ticks_to_ns c f = Some ns → (ns < u64_max)%N → ns_to_ticks ns f = Some c.
Proof.
  intros Hc Hz Hf Hns Hsat. rewrite ticks_to_ns_eq in Hns by done. injection Hns as Hns.
  assert (ns = c * NANOS_PER_SECOND / f)%N as -> by lia. clear Hns.
  assert (in_width 64 f) as Hwf.
  { unfold in_width. eapply N.le_lt_trans; [done|]. by vm_compute. }
  rewrite ns_to_ticks_eq; [|unfold in_width, u64_max, umax in *; lia|done|done]. f_equal.
  assert (div_ceil (c * NANOS_PER_SECOND / f * f) NANOS_PER_SECOND = c) as ->.
  { apply (div_ceil_floor _ _ _ _ ((c * NANOS_PER_SECOND) mod f)); [done| |by apply N.mod_lt|done].
    rewrite (N.mul_comm _ f). by apply N.div_mod. }
  unfold in_width, u64_max, umax in *. lia.
Qed.

Lemma ticks_round_trip_witness : ns_to_ticks 19753072 62500000 = Some 1234567%N.
Proof. apply (ticks_round_trip 1234567 62500000 19753072); by vm_compute. Defined.

(** [resolution_ns_for_freq] never overflows, for any non-zero [u64]
    frequency, is at least 1 ns, and is the nearest integer to the tick period
    (within half a nanosecond, measured in ticks) whenever that is not 0. *)
Theorem resolution_nearest (f : u64) :
  in_width 64 f → f ≠ 0%N →
  ∃ r, resolution_ns_for_freq f = Some r ∧ (1 ≤ r)%N ∧
    ((f ≤ 2 * NANOS_PER_SECOND)%N →
     2 * (r * f) ≤ 2 * NANOS_PER_SECOND + f ∧ 2 * NANOS_PER_SECOND < 2 * (r * f) + f + 2)%N ∧
    ((2 * NANOS_PER_SECOND + 1 < f)%N → r = 1%N).
Proof.
  intros Hw Hz. unfold resolution_ns_for_freq. rewrite decide_False by done.
  pose proof (N.div_mod f 2 ltac:(done)) as Hhalf. pose proof (N.mod_lt f 2 ltac:(done)) as Hm2.
  generalize dependent (f mod 2)%N. generalize dependent (f / 2)%N. intros hf m2 Hhalf Hm2.
  rewrite decide_False.
  2:{ apply N.nlt_ge. unfold in_width in Hw. change (2 ^ 64)%N with 18446744073709551616%N in Hw.
      change u64_max with 18446744073709551615%N. unfold NANOS_PER_SECOND. lia. }
  eexists. split; [done|].
  pose proof (N.div_mod (NANOS_PER_SECOND + hf) f Hz) as Hs.
  pose proof (N.mod_lt (NANOS_PER_SECOND + hf) f Hz) as Hr. rewrite (N.mul_comm f) in Hs.
  generalize dependent ((NANOS_PER_SECOND + hf) mod f)%N.
  generalize dependent ((NANOS_PER_SECOND + hf) / f)%N. intros q r Hs Hr.
  unfold NANOS_PER_SECOND in *. split_and!.
  - case_decide; lia.
  - intros Hle. case_decide as H0; [subst q; lia|]. lia.
  - intros Hgt. case_decide as H0; [done|].
    destruct (N.le_gt_cases q 1) as [Hq|Hq]; [lia|].
    pose proof (N.mul_le_mono_r 2 q f ltac:(lia)). lia.
Qed.

Lemma resolution_nearest_witness :
  ∃ r, resolution_ns_for_freq 54000000 = Some r ∧ (1 ≤ r)%N ∧
    ((54000000 ≤ 2 * NANOS_PER_SECOND)%N →
     2 * (r * 54000000) ≤ 2 * NANOS_PER_SECOND + 54000000 ∧
     2 * NANOS_PER_SECOND < 2 * (r * 54000000) + 54000000 + 2)%N ∧
    ((2 * NANOS_PER_SECOND + 1 < 54000000)%N → r = 1%N).
Proof. apply (resolution_nearest 54000000); [by vm_compute|done]. Defined.
