(* ===== verification/SchedQueue.v ===== *)
(** * [kernel/src/sched/mod.rs]: the ready queue

    [SchedQueue<N>], a ring buffer of task handles; [N] is the length of [buf].
    [represents q l] says that [q] holds the list [l]; the operations are shown to
    be those of a bounded first-in first-out list. *)

From stdpp Require Import prelude.
From Stdlib Require Import Lia NArith.
From S2P Require Import Prelude FreeList Arena Objects.

Record SchedQueue := mkQueue {
  buf : list (option TaskHandle);
  head : usize;
  len : usize;
}.

Definition queue_capacity (q : SchedQueue) : usize := N.of_nat (length (buf q)).

(** [SchedQueue::new] (and [default]). *)
Definition queue_new (n : usize) : SchedQueue := mkQueue (replicate (N.to_nat n) None) 0 0.

(** [enqueue]: the error is the handle handed back. *)
Definition enqueue (handle : TaskHandle) : M SchedQueue TaskHandle unit :=
  q ← gets id;
  let n := queue_capacity q in
  if decide (len q = n) then throw handle else
  let tail := (wrapping_add 64 (head q) (len q) mod n)%N in
  _ ← unwrap_or_panic (aget (buf q) tail);
  modify (λ q, mkQueue (aset (buf q) tail (Some handle)) (head q) (len q));;
  modify (λ q, mkQueue (buf q) (head q) (wrapping_add 64 (len q) 1)).

(** [dequeue] returns an [Option]; it has no error. *)
Definition dequeue {E} : M SchedQueue E (option TaskHandle) :=
  q ← gets id;
  let n := queue_capacity q in
  if decide (len q = 0)%N then mret None else
  handle ← unwrap_or_panic (aget (buf q) (head q));
  modify (λ q, mkQueue (aset (buf q) (head q) None) (head q) (len q));;
  modify (λ q, mkQueue (buf q) (wrapping_add 64 (head q) 1 mod n)%N (len q));;
  modify (λ q, mkQueue (buf q) (head q) (wrapping_sub 64 (len q) 1));;
  mret handle.

Definition queue_len (q : SchedQueue) : usize := len q.
Definition is_empty (q : SchedQueue) : bool := bool_decide (len q = 0%N).

(** ** The list a queue holds *)

Record represents (n : N) (q : SchedQueue) (l : list TaskHandle) : Prop := {
  rep_capacity : queue_capacity q = n;
  (** [head + len] stays below [2^64]. *)
  rep_small : (2 * n < 2 ^ 64)%N;
  rep_head : (head q < n)%N;
  rep_len : len q = N.of_nat (length l);
  rep_bound : (len q ≤ n)%N;
  rep_elem k h : l !! k = Some h → aget (buf q) ((head q + N.of_nat k) mod n)%N = Some (Some h);
}.

Section queue.
Implicit Types (q : SchedQueue) (l : list TaskHandle) (h : TaskHandle) (n : N).

(** A buffer represents one list. *)
Lemma represents_unique n q l1 l2 : represents n q l1 → represents n q l2 → l1 = l2.
Proof.
  intros H1 H2. assert (length l1 = length l2) as Hlen.
  { pose proof (rep_len _ _ _ H1). pose proof (rep_len _ _ _ H2). lia. }
  apply list_eq. intros k. destruct (l1 !! k) as [h1|] eqn:E1.
  - destruct (lookup_lt_is_Some_2 l2 k) as [h2 E2]; [apply lookup_lt_Some in E1; lia|].
    pose proof (rep_elem _ _ _ H1 k h1 E1). pose proof (rep_elem _ _ _ H2 k h2 E2). congruence.
  - apply lookup_ge_None in E1. symmetry. apply lookup_ge_None. lia.
Qed.

Lemma mod_inj n x y : (x < n)%N → (y < n)%N → ∀ z, ((z + x) mod n = (z + y) mod n → x = y)%N.
Proof.
  intros Hx Hy z Heq. assert (n ≠ 0)%N as Hn by lia.
  pose proof (N.div_mod (z + x) n Hn) as H1. pose proof (N.div_mod (z + y) n Hn) as H2.
  rewrite Heq in H1. generalize dependent ((z + y) mod n)%N.
  generalize dependent ((z + x) / n)%N. generalize dependent ((z + y) / n)%N.
  intros a b r _ H1 H2. destruct (N.lt_trichotomy a b) as [Hab|[->|Hab]]; [|lia|]; nia.
Qed.

Lemma queue_new_rep n : (0 < n)%N → (2 * n < 2 ^ 64)%N → represents n (queue_new n) [].
Proof.
  intros Hn Hs. split; simpl; try done; try lia.
  unfold queue_capacity. simpl. rewrite length_replicate. lia.
Qed.

Lemma enqueue_full n q l h : represents n q l → N.of_nat (length l) = n → enqueue h q = Fail h q.
Proof.
  intros Hr Hl. unfold enqueue. monad. unfold id.
  by rewrite (rep_capacity _ _ _ Hr), (rep_len _ _ _ Hr), decide_True.
Qed.

Lemma enqueue_rep n q l h :
  represents n q l → (N.of_nat (length l) < n)%N →
  ∃ q', enqueue h q = Done tt q' ∧ represents n q' (l ++ [h]).
Proof.
  intros Hr Hl. pose proof Hr as [Hcap Hsm Hhd Hlen Hb Hel].
  assert (wrapping_add 64 (head q) (len q) = head q + len q)%N as Hadd.
  { apply wrapping_add_small. unfold in_width. lia. }
  assert (wrapping_add 64 (len q) 1 = len q + 1)%N as Hinc.
  { apply wrapping_add_small. unfold in_width. lia. }
  assert (is_Some (aget (buf q) ((head q + len q) mod n)%N)) as [x Hx].
  { apply aget_lt. fold (queue_capacity q). rewrite Hcap. apply N.mod_lt. lia. }
  unfold enqueue. monad. unfold id. rewrite Hcap, decide_False, Hadd, Hx by lia. simpl.
  eexists. split; [done|]. rewrite Hinc. split; simpl; try done.
  - unfold queue_capacity. simpl. by rewrite length_aset.
  - rewrite length_app. simpl. lia.
  - lia.
  - intros k h' Hk. rewrite aget_aset by eauto. case_decide as Hi.
    + apply mod_inj in Hi; [|lia|].
      * apply lookup_app_Some in Hk as [Hk|[_ Hk]].
        { apply lookup_lt_Some in Hk. lia. }
        replace (k - length l) with 0 in Hk by lia. by injection Hk as ->.
      * apply lookup_lt_Some in Hk. rewrite length_app in Hk. simpl in Hk. lia.
    + apply lookup_app_Some in Hk as [Hk|[Hge Hk]]; [by apply Hel|].
      apply lookup_lt_Some in Hk as Hk'. simpl in Hk'.
      destruct Hi. do 2 f_equal. lia.
Qed.

Lemma dequeue_nil {E} n q : represents n q [] → dequeue (E := E) q = Done None q.
Proof.
  intros Hr. unfold dequeue. monad. unfold id. by rewrite (rep_len _ _ _ Hr).
Qed.

Lemma dequeue_cons {E} n q h l :
  represents n q (h :: l) →
  ∃ q', dequeue (E := E) q = Done (Some h) q' ∧ represents n q' l.
Proof.
  intros Hr. pose proof Hr as [Hcap Hsm Hhd Hlen Hb Hel]. simpl in Hlen.
  assert (aget (buf q) (head q) = Some (Some h)) as Hh.
  { specialize (Hel 0 h eq_refl). simpl in Hel.
    by rewrite N.add_0_r, N.mod_small in Hel. }
  assert (wrapping_add 64 (head q) 1 = head q + 1)%N as Hinc.
  { apply wrapping_add_small. unfold in_width. lia. }
  assert (wrapping_sub 64 (len q) 1 = len q - 1)%N as Hdec.
  { unfold wrapping_sub, wrap. replace (len q + 2 ^ 64 - 1)%N with (len q - 1 + 1 * 2 ^ 64)%N by lia.
    rewrite N.Div0.mod_add. apply N.mod_small. lia. }
  unfold dequeue. monad. unfold id. rewrite decide_False, Hh by lia. simpl.
  eexists. split; [done|]. rewrite Hcap, Hinc, Hdec. split; simpl; try done; try lia.
  - unfold queue_capacity. simpl. by rewrite length_aset.
  - apply N.mod_lt. lia.
  - intros k h' Hk. apply lookup_lt_Some in Hk as Hlt.
    assert (((head q + 1) mod n + N.of_nat k) mod n = (head q + N.of_nat (S k)) mod n)%N as Hidx.
    { rewrite N.Div0.add_mod_idemp_l. f_equal. lia. }
    rewrite Hidx, aget_aset_ne.
    + by apply Hel.
    + intros Heq.
      assert ((head q + 0) mod n = (head q + N.of_nat (S k)) mod n)%N as Hbad
        by (by rewrite N.add_0_r, N.mod_small).
      apply mod_inj in Hbad; lia.
Qed.
End queue.

(** ** Property *)

Inductive queue_op := OpEnqueue (h : TaskHandle) | OpDequeue.
Inductive queue_reply := RAccepted | RRejected (h : TaskHandle) | RFront (o : option TaskHandle).

Definition exec_queue (o : queue_op) (q : SchedQueue) : option (queue_reply * SchedQueue) :=
  match o with
  | OpEnqueue h =>
      match enqueue h q with
      | Done _ q' => Some (RAccepted, q')
      | Fail h' q' => Some (RRejected h', q')
      | _ => None
      end
  | OpDequeue =>
      match dequeue (E := TaskHandle) q with
      | Done o q' => Some (RFront o, q')
      | _ => None
      end
  end.

(** A bounded first-in first-out list. *)
Definition exec_list (n : N) (o : queue_op) (l : list TaskHandle) :
    queue_reply * list TaskHandle :=
  match o with
  | OpEnqueue h =>
      if decide (N.of_nat (length l) < n)%N then (RAccepted, l ++ [h]) else (RRejected h, l)
  | OpDequeue =>
      match l with
      | [] => (RFront None, [])
      | h :: l => (RFront (Some h), l)
      end
  end.

Fixpoint run_queue (os : list queue_op) (q : SchedQueue) : option (list queue_reply * SchedQueue) :=
  match os with
  | [] => Some ([], q)
  | o :: os => '(r, q1) ← exec_queue o q; '(rs, q2) ← run_queue os q1; Some (r :: rs, q2)
  end.

Fixpoint run_list (n : N) (os : list queue_op) (l : list TaskHandle) :
    list queue_reply * list TaskHandle :=
  match os with
  | [] => ([], l)
  | o :: os =>
      let '(r, l1) := exec_list n o l in
      let '(rs, l2) := run_list n os l1 in (r :: rs, l2)
  end.

Lemma exec_queue_rep n q l o :
  represents n q l →
  ∃ q', exec_queue o q = Some ((exec_list n o l).1, q') ∧ represents n q' (exec_list n o l).2.
Proof.
  intros Hr. destruct o as [h|]; simpl.
  - case_decide as Hl; simpl.
    + destruct (enqueue_rep n q l h Hr Hl) as (q' & -> & ?). eauto.
    + rewrite (enqueue_full n q l h Hr); [eauto|]. pose proof (rep_bound _ _ _ Hr) as Hb.
      rewrite (rep_len _ _ _ Hr) in Hb. lia.
  - destruct l as [|h l]; simpl.
    + rewrite (dequeue_nil n q Hr). eauto.
    + destruct (dequeue_cons (E := TaskHandle) n q h l Hr) as (q' & -> & ?). eauto.
Qed.

(** C28: the ready queue is a bounded FIFO. Any sequence of enqueues and
    dequeues on a queue of capacity [n] gives, reply for reply, what the same
    sequence gives on a list bounded by [n]; it never panics, and the ring
    buffer's wrap-around is invisible. *)
Theorem ready_queue_is_fifo (n : N) (os : list queue_op) :
  (0 < n)%N → (2 * n < 2 ^ 64)%N →
  ∃ q, run_queue os (queue_new n) = Some ((run_list n os []).1, q) ∧
       represents n q (run_list n os []).2.
Proof.
  intros Hn Hs. pose proof (queue_new_rep n Hn Hs) as Hr. revert Hr.
  generalize (queue_new n) as q. generalize ([] : list TaskHandle) as l.
  induction os as [|o os IH]; intros l q Hr; simpl; [eauto|].
  destruct (exec_queue_rep n q l o Hr) as (q1 & -> & Hr1). simpl.
  destruct (exec_list n o l) as [r l1]. simpl in *.
  destruct (IH l1 q1 Hr1) as (q2 & -> & Hr2). simpl.
  destruct (run_list n os l1) as [rs l2]. simpl in *. eauto.
Qed.

Lemma ready_queue_is_fifo_witness :
  let h k := task_from_slot (mkSlotId k 0) in
  let os := [OpEnqueue (h 1); OpEnqueue (h 2); OpEnqueue (h 3); OpDequeue; OpEnqueue (h 4); OpDequeue]%N in
  ∃ q, run_queue os (queue_new 2) = Some ((run_list 2 os []).1, q) ∧
       represents 2 q (run_list 2 os []).2.
Proof. intros h os. apply (ready_queue_is_fifo 2 os); [lia|by vm_compute]. Defined.
