(* ===== verification/Sched.v ===== *)
(** * [kernel/src/sched/mod.rs]: the cooperative scheduler and the IPC bridge

    The scheduler is generic over the core [S] ([Cpu] and [ContextSwitch]). The
    bridge functions take raw pointers to shared state; here that state is
    [Kernel], and a pointer to a capability table is its number in [k_tables].

    A function that calls [context_switch] does not continue: control goes to the
    task that was switched to. It returns [Switched k], where [k] is the rest of
    the function, to be run when the task is resumed; [Return a] means that it
    came back without a switch. *)

From stdpp Require Import prelude.
From Stdlib Require Import Lia NArith.
From S2P Require Import Prelude FreeList Arena Objects Rights Capability CapTable Ipc.
From S2P Require Import HalCpu SchedQueue.

Inductive TaskState := TIdle | TReady | TBlocked (on : EndpointHandle).

Global Instance TaskState_eq_dec : EqDecision TaskState.
Proof. solve_decision. Defined.

Inductive SchedError :=
  | NoCurrentTask
  | SchedQueueFull
  | SchedIpc (e : IpcError)
  | Deadlock.

Global Instance SchedError_eq_dec : EqDecision SchedError.
Proof. solve_decision. Defined.

(** The index of a task's slot. *)
Definition slot_index (h : TaskHandle) : usize := index (task_slot h).

Section scheduler.
Context {S : Type} `{!Cpu S, !ContextSwitch S} `{BuildProfile}.

Record Scheduler := mkScheduler {
  ready : SchedQueue;
  task_states : list TaskState;
  task_handles : list (option TaskHandle);
  current : option TaskHandle;
  contexts : list TaskContext;
}.

Definition sched_new : Scheduler :=
  mkScheduler (queue_new TASK_ARENA_CAPACITY)
    (replicate (N.to_nat TASK_ARENA_CAPACITY) TIdle)
    (replicate (N.to_nat TASK_ARENA_CAPACITY) None)
    None
    (array_from_fn TASK_ARENA_CAPACITY (λ _, default_context)).

Abbreviation Sched := (M Scheduler SchedError).

(** Field updates; an index out of range panics. *)
Definition on_ready {E A} (m : M SchedQueue E A) : M Scheduler E A :=
  zoom ready (λ q s, mkScheduler q (task_states s) (task_handles s) (current s) (contexts s)) m.

Definition set_state (idx : usize) (st : TaskState) : Sched unit :=
  sts ← gets task_states;
  _ ← unwrap_or_panic (aget sts idx);
  modify (λ s, mkScheduler (ready s) (aset (task_states s) idx st) (task_handles s)
                           (current s) (contexts s)).

Definition set_handle (idx : usize) (h : option TaskHandle) : Sched unit :=
  hs ← gets task_handles;
  _ ← unwrap_or_panic (aget hs idx);
  modify (λ s, mkScheduler (ready s) (task_states s) (aset (task_handles s) idx h)
                           (current s) (contexts s)).

Definition set_current (c : option TaskHandle) : Sched unit :=
  modify (λ s, mkScheduler (ready s) (task_states s) (task_handles s) c (contexts s)).

Definition set_context (idx : usize) (c : TaskContext) : Sched unit :=
  cs ← gets contexts;
  _ ← unwrap_or_panic (aget cs idx);
  modify (λ s, mkScheduler (ready s) (task_states s) (task_handles s) (current s)
                           (aset (contexts s) idx c)).

(** [Scheduler::add_task]. *)
Definition add_task (cpu : S) (handle : TaskHandle) (entry stack_top : u64) : Sched unit :=
  let idx := slot_index handle in
  cs ← gets contexts;
  ctx ← unwrap_or_panic (aget cs idx);
  set_context idx (init_context cpu ctx entry stack_top);;
  map_err (λ _, SchedQueueFull) (on_ready (enqueue handle));;
  set_state idx TReady;;
  set_handle idx (Some handle).

(** [Scheduler::resolve_ep_cap]. *)
Definition resolve_ep_cap (table : CapabilityTable) (ep_cap : CapHandle) :
    result EndpointHandle SchedError :=
  match lookup_cap table ep_cap with
  | Err _ => Err (SchedIpc InvalidCapability)
  | Ok cap =>
      match object cap with
      | ObjEndpoint h => Ok h
      | _ => Err (SchedIpc InvalidCapability)
      end
  end.

(** The [for] loop of [unblock_receiver_on]. *)
Fixpoint unblock_scan (idxs : list usize) (ep : EndpointHandle) : Sched unit :=
  match idxs with
  | [] => mret tt
  | idx :: idxs =>
      sts ← gets task_states;
      st ← unwrap_or_panic (aget sts idx);
      match st with
      | TBlocked on =>
          if decide (on = ep) then
            hs ← gets task_handles;
            h ← unwrap_or_panic (aget hs idx);
            match h with
            | Some handle =>
                set_state idx TReady;;
                or_panic (on_ready (enqueue handle))
            | None => unblock_scan idxs ep
            end
          else unblock_scan idxs ep
      | _ => unblock_scan idxs ep
      end
  end.

Definition unblock_receiver_on (ep : EndpointHandle) : Sched unit :=
  unblock_scan (N.of_nat <$> seq 0 (N.to_nat TASK_ARENA_CAPACITY)) ep.

(** [start_prelude]. *)
Definition start_prelude : Sched usize :=
  o ← on_ready dequeue;
  match o with
  | None => panic
  | Some next_handle =>
      let next_idx := slot_index next_handle in
      set_state next_idx TReady;;
      set_current (Some next_handle);;
      mret next_idx
  end.

(** ** The bridge *)

Record Kernel := mkKernel {
  k_sched : Scheduler;
  k_cpu : S;
  k_arena : EndpointArena;
  k_queues : IpcQueues;
  k_tables : nat → CapabilityTable;
}.

Abbreviation K := (M Kernel SchedError).

Inductive control (A : Type) :=
  | Return (a : A)
  | Switched (k : M Kernel SchedError A).

Definition control_map {A B} (f : A → B) (c : control A) : control B :=
  match c with
  | Return _ a => Return _ (f a)
  | Switched _ k => Switched _ (a ← k; mret (f a))
  end.

Definition on_sched {E A} (m : M Scheduler E A) : M Kernel E A :=
  zoom k_sched (λ s k, mkKernel s (k_cpu k) (k_arena k) (k_queues k) (k_tables k)) m.

Definition on_cpu {A} (f : S → A * S) : K A := λ k,
  let '(a, cpu) := f (k_cpu k) in
  Done a (mkKernel (k_sched k) cpu (k_arena k) (k_queues k) (k_tables k)).

(** IPC on the table [caller_table]; [From<IpcError> for SchedError]. *)
Definition on_ipc {A} (caller_table : nat) (m : M Ctx IpcError A) : K A :=
  map_err SchedIpc
    (zoom (λ k, mkCtx (k_arena k) (k_queues k) (k_tables k caller_table))
          (λ c k, mkKernel (k_sched k) (k_cpu k) (ep_arena c) (queues c)
                           (set_table (k_tables k) caller_table (Ipc.caller_table c))) m).

(** [cpu.context_switch(&mut current, next)] on two slots of [contexts]. An
    index out of range is undefined behaviour in the source ([ptr.add]); here
    it panics. *)
Definition switch_slots (current_idx next_idx : usize) : K unit :=
  cs ← on_sched (gets contexts);
  cur_ctx ← unwrap_or_panic (aget cs current_idx);
  nxt_ctx ← unwrap_or_panic (aget cs next_idx);
  saved ← on_cpu (λ cpu, let '(cpu', saved) := context_switch cpu cur_ctx nxt_ctx in (saved, cpu'));
  on_sched (set_context current_idx saved).

(** The switch window: the assertion, the guard and the switch; the guard is
    dropped by the continuation. *)
Definition switch_window (current_idx next_idx : usize) : K IrqGuard :=
  debug_assert (bool_decide (current_idx ≠ next_idx));;
  guard ← on_cpu irq_guard_new;
  switch_slots current_idx next_idx;;
  mret guard.

Definition drop_guard (guard : IrqGuard) : K unit :=
  on_cpu (λ cpu, (tt, irq_guard_drop guard cpu)).

(** [start]: the bootstrap frame is abandoned; should it ever be resumed, it
    spins. *)
Definition start : K (control unit) :=
  next_idx ← on_sched start_prelude;
  _ ← on_cpu irq_guard_new;
  cs ← on_sched (gets contexts);
  nxt_ctx ← unwrap_or_panic (aget cs next_idx);
  _ ← on_cpu (λ cpu, let '(cpu', saved) := context_switch cpu default_context nxt_ctx in (saved, cpu'));
  mret (Switched _ diverge).

(** The pre-switch block of [yield_now]; [None] is its early [return Ok(())]. *)
Definition yield_prelude : Sched (option (usize * usize)) :=
  c ← gets current;
  current_handle ← ok_or NoCurrentTask c;
  let current_idx := slot_index current_handle in
  set_state current_idx TReady;;
  or_panic (on_ready (enqueue current_handle));;
  o ← on_ready dequeue;
  match o with
  | Some next_handle =>
      if decide (next_handle ≠ current_handle) then
        let next_idx := slot_index next_handle in
        set_state next_idx TReady;;
        set_current (Some next_handle);;
        mret (Some (current_idx, next_idx))
      else mret None
  | None => mret None
  end.

Definition yield_now : K (control unit) :=
  o ← on_sched yield_prelude;
  match o with
  | None => mret (Return _ tt)
  | Some (current_idx, next_idx) =>
      guard ← switch_window current_idx next_idx;
      mret (Switched _ (drop_guard guard))
  end.

Definition ipc_send_and_yield (caller_table : nat) (ep_cap : CapHandle) (msg : Message)
    (transfer : option CapHandle) : K (control SendOutcome) :=
  tables ← gets k_tables;
  ep_handle ← try_ (resolve_ep_cap (tables caller_table) ep_cap);
  outcome ← on_ipc caller_table (ipc_send ep_cap msg transfer);
  match outcome with
  | Delivered =>
      on_sched (unblock_receiver_on ep_handle);;
      c ← yield_now;
      mret (control_map (λ _, outcome) c)
  | Enqueued => mret (Return _ outcome)
  end.

(** Phase 2 of [ipc_recv_and_yield]. *)
Definition block_prelude (ep_handle : EndpointHandle) : Sched (usize * usize) :=
  c ← gets current;
  current_handle ← ok_or NoCurrentTask c;
  let current_idx := slot_index current_handle in
  sts ← gets task_states;
  prior_state ← unwrap_or_panic (aget sts current_idx);
  debug_assert (bool_decide (prior_state = TReady));;
  set_state current_idx (TBlocked ep_handle);;
  set_current None;;
  o ← on_ready dequeue;
  match o with
  | None =>
      set_state current_idx prior_state;;
      set_current (Some current_handle);;
      throw Deadlock
  | Some next_handle =>
      let next_idx := slot_index next_handle in
      set_state next_idx TReady;;
      set_current (Some next_handle);;
      mret (current_idx, next_idx)
  end.

(** Phase 3 of [ipc_recv_and_yield]: what runs when the task is resumed. *)
Definition recv_resume (guard : IrqGuard) (caller_table : nat) (ep_cap : CapHandle) : K RecvOutcome :=
  drop_guard guard;;
  r ← on_ipc caller_table (ipc_recv ep_cap);
  match r with
  | Pending => throw (SchedIpc PendingAfterResume)
  | outcome => mret outcome
  end.

Definition ipc_recv_and_yield (caller_table : nat) (ep_cap : CapHandle) : K (control RecvOutcome) :=
  tables ← gets k_tables;
  ep_handle ← try_ (resolve_ep_cap (tables caller_table) ep_cap);
  outcome ← on_ipc caller_table (ipc_recv ep_cap);
  match outcome with
  | Pending =>
      '(current_idx, next_idx) ← on_sched (block_prelude ep_handle);
      guard ← switch_window current_idx next_idx;
      mret (Switched _ (recv_resume guard caller_table ep_cap))
  | outcome => mret (Return _ outcome)
  end.
End scheduler.

Global Arguments Scheduler S {_}.
Global Arguments Kernel S {_}.
Global Arguments control {S _} A.
Global Arguments Return {S _ A} _.
Global Arguments Switched {S _ A} _.
