(* ===== verification/SchedProofs.v ===== *)
(** * What the scheduler guarantees

    [sched_wf s l] is the scheduler's invariant: the ready queue holds [l], the
    running task is not in it, and the task states agree with both. Each
    scheduling step is described by what it does to [l] and to the running task;
    its panics are thereby unreachable. The last part ties task states to endpoint
    states: a task blocked on an endpoint is the receiver registered there. *)

From stdpp Require Import prelude.
From Stdlib Require Import Lia NArith.
From S2P Require Import Prelude FreeList Arena Objects Rights Capability.
From S2P Require Import CapTable CapTree CapShape CapProofs CapSpec Ipc IpcProofs.
From S2P Require Import HalCpu SchedQueue Sched.

Section sched.
Context {S : Type} `{!Cpu S, !ContextSwitch S} `{BuildProfile}.
Implicit Types (s : Scheduler S) (l : list TaskHandle) (h c : TaskHandle).

(** The running task, if any, followed by the queue. *)
Definition runnable s l : list TaskHandle := option_list (current s) ++ l.

Record sched_wf s l : Prop := {
  sw_ready : represents TASK_ARENA_CAPACITY (ready s) l;
  sw_states : N.of_nat (length (task_states s)) = TASK_ARENA_CAPACITY;
  sw_handles : N.of_nat (length (task_handles s)) = TASK_ARENA_CAPACITY;
  sw_contexts : N.of_nat (length (contexts s)) = TASK_ARENA_CAPACITY;
  sw_nodup : NoDup (slot_index <$> runnable s l);
  sw_runnable h : h ∈ runnable s l →
    aget (task_states s) (slot_index h) = Some TReady ∧
    aget (task_handles s) (slot_index h) = Some (Some h);
  sw_complete i : aget (task_states s) i = Some TReady →
    ∃ h, h ∈ runnable s l ∧ slot_index h = i;
  sw_blocked i ep : aget (task_states s) i = Some (TBlocked ep) →
    ∃ h, aget (task_handles s) i = Some (Some h) ∧ slot_index h = i;
}.

(** At most 16 tasks are runnable, so with one of them running the queue has
    room. *)
Lemma runnable_bound s l : sched_wf s l → (N.of_nat (length (runnable s l)) ≤ TASK_ARENA_CAPACITY)%N.
Proof.
  intros Hs. assert (slot_index <$> runnable s l ⊆+
    (N.of_nat <$> seq 0 (N.to_nat TASK_ARENA_CAPACITY))) as Hsub.
  { apply NoDup_submseteq; [apply Hs|]. intros i (h & -> & Hh)%list_elem_of_fmap.
    destruct (sw_runnable _ _ Hs h Hh) as [Hst _]. apply aget_Some_lt in Hst.
    rewrite (sw_states _ _ Hs) in Hst. apply list_elem_of_fmap. exists (N.to_nat (slot_index h)).
    rewrite elem_of_seq. lia. }
  apply submseteq_length in Hsub. rewrite !length_fmap, length_seq in Hsub. lia.
Qed.

Lemma queue_room s l c : sched_wf s l → current s = Some c → (N.of_nat (length l) < TASK_ARENA_CAPACITY)%N.
Proof.
  intros Hs Hc. pose proof (runnable_bound _ _ Hs) as Hb. unfold runnable in Hb.
  rewrite Hc, length_app in Hb. simpl in Hb. lia.
Qed.

(** Two runnable tasks at the same index are the same task. *)
Lemma runnable_inj s l h c :
  sched_wf s l → h ∈ runnable s l → c ∈ runnable s l → slot_index h = slot_index c → h = c.
Proof.
  intros Hs Hh Hc Hi. destruct (sw_runnable _ _ Hs h Hh) as [_ H1].
  destruct (sw_runnable _ _ Hs c Hc) as [_ H2]. congruence.
Qed.

Lemma current_runnable s l c : current s = Some c → c ∈ runnable s l.
Proof. intros Hc. unfold runnable. rewrite Hc. set_solver. Qed.

(** Moving tasks between "running" and "queued", in any way that keeps the
    same set runnable, keeps the invariant. *)
Lemma sched_wf_permute s l q' l' (c' : option TaskHandle) :
  sched_wf s l → represents TASK_ARENA_CAPACITY q' l' →
  option_list c' ++ l' ≡ₚ runnable s l →
  sched_wf (mkScheduler q' (task_states s) (task_handles s) c' (contexts s)) l'.
Proof.
  intros Hs Hq Hp. split; simpl; try apply Hs; unfold runnable; simpl.
  - done.
  - rewrite Hp. apply (sw_nodup _ _ Hs).
  - intros h. rewrite Hp. apply (sw_runnable _ _ Hs).
  - intros i Hi. destruct (sw_complete _ _ Hs i Hi) as (h & Hh & ?).
    exists h. by rewrite Hp.
Qed.

Lemma set_state_run s i st :
  is_Some (aget (task_states s) i) →
  set_state i st s = Done tt (mkScheduler (ready s) (aset (task_states s) i st)
                                (task_handles s) (current s) (contexts s)).
Proof. intros [x Hx]. unfold set_state. monad. by rewrite Hx. Qed.

(** Marking a task [Ready] that already is changes nothing. *)
Lemma set_ready_again s i :
  aget (task_states s) i = Some TReady → set_state i TReady s = Done tt s.
Proof.
  intros Hi. rewrite set_state_run by eauto. rewrite aset_id by done. by destruct s.
Qed.

(** ** Yielding *)

Lemma yield_prelude_none s : current s = None → yield_prelude s = Fail NoCurrentTask s.
Proof. intros Hc. unfold yield_prelude. monad. by rewrite Hc. Qed.

Lemma yield_prelude_alone s c :
  sched_wf s [] → current s = Some c →
  ∃ s', yield_prelude s = Done None s' ∧ sched_wf s' [] ∧ current s' = Some c ∧
    task_states s' = task_states s ∧ task_handles s' = task_handles s ∧ contexts s' = contexts s.
Proof.
  intros Hs Hc. pose proof (current_runnable s [] c Hc) as Hr.
  destruct (sw_runnable _ _ Hs c Hr) as [Hst _].
  destruct (enqueue_rep _ (ready s) [] c (sw_ready _ _ Hs)) as (q1 & He & Hq1);
    [by eapply queue_room|].
  destruct (dequeue_cons (E := SchedError) _ q1 c [] Hq1) as (q2 & Hd & Hq2).
  eexists. split.
  { unfold yield_prelude. monad. rewrite Hc. cbn. rewrite set_ready_again by done.
    unfold or_panic, on_ready, zoom. rewrite He. cbn. rewrite Hd. cbn.
    rewrite decide_False by auto. reflexivity. }
  simpl. split; [|done]. by apply (sched_wf_permute s []).
Qed.

Lemma yield_prelude_next s c h l :
  sched_wf s (h :: l) → current s = Some c →
  ∃ s', yield_prelude s = Done (Some (slot_index c, slot_index h)) s' ∧
    slot_index c ≠ slot_index h ∧ sched_wf s' (l ++ [c]) ∧ current s' = Some h ∧
    task_states s' = task_states s ∧ task_handles s' = task_handles s ∧ contexts s' = contexts s.
Proof.
  intros Hs Hc. pose proof (current_runnable s (h :: l) c Hc) as Hr.
  assert (h ∈ runnable s (h :: l)) as Hh by (unfold runnable; set_solver).
  destruct (sw_runnable _ _ Hs c Hr) as [Hst _].
  destruct (sw_runnable _ _ Hs h Hh) as [Hsth _].
  pose proof (sw_nodup _ _ Hs) as Hnd. unfold runnable in Hnd. rewrite Hc in Hnd.
  simpl in Hnd. apply NoDup_cons in Hnd as [Hni _].
  assert (slot_index c ≠ slot_index h) as Hne by set_solver.
  destruct (enqueue_rep _ (ready s) (h :: l) c (sw_ready _ _ Hs)) as (q1 & He & Hq1);
    [by eapply queue_room|].
  destruct (dequeue_cons (E := SchedError) _ q1 h (l ++ [c]) Hq1) as (q2 & Hd & Hq2).
  eexists. split.
  { unfold yield_prelude. monad. rewrite Hc. cbn. rewrite set_ready_again by done.
    unfold or_panic, on_ready, zoom. rewrite He. cbn. rewrite Hd. cbn.
    rewrite decide_True by congruence. rewrite set_ready_again by done. reflexivity. }
  simpl. split; [done|]. split; [|done].
  apply (sched_wf_permute s (h :: l)); [done..|]. unfold runnable. rewrite Hc. simpl.
  rewrite Permutation_app_comm. simpl. by constructor.
Qed.

(** ** Starting *)

Lemma start_prelude_run s h l :
  sched_wf s (h :: l) → current s = None →
  ∃ s', start_prelude s = Done (slot_index h) s' ∧ sched_wf s' l ∧ current s' = Some h ∧
    task_states s' = task_states s ∧ contexts s' = contexts s.
Proof.
  intros Hs Hc. assert (h ∈ runnable s (h :: l)) as Hh by (unfold runnable; set_solver).
  destruct (sw_runnable _ _ Hs h Hh) as [Hsth _].
  destruct (dequeue_cons (E := SchedError) _ (ready s) h l (sw_ready _ _ Hs)) as (q & Hd & Hq).
  eexists. split.
  { unfold start_prelude, on_ready, zoom. monad. rewrite Hd. cbn.
    rewrite set_ready_again by done. reflexivity. }
  simpl. split; [|done]. apply (sched_wf_permute s (h :: l)); [done..|].
  unfold runnable. by rewrite Hc.
Qed.

Lemma start_prelude_empty s : sched_wf s [] → start_prelude s = Panic.
Proof.
  intros Hs. unfold start_prelude, on_ready, zoom. monad.
  by rewrite (dequeue_nil _ _ (sw_ready _ _ Hs)).
Qed.

(** ** Blocking *)

Lemma block_prelude_deadlock s c ep :
  sched_wf s [] → current s = Some c → block_prelude ep s = Fail Deadlock s.
Proof.
  intros Hs Hc. pose proof (current_runnable s [] c Hc) as Hr.
  destruct (sw_runnable _ _ Hs c Hr) as [Hst _].
  unfold block_prelude. monad. rewrite Hc. cbn. rewrite Hst. cbn.
  rewrite bool_decide_eq_true_2, debug_assert_true by done.
  rewrite set_state_run by eauto. cbn. unfold on_ready, zoom. cbn.
  rewrite (dequeue_nil _ _ (sw_ready _ _ Hs)). cbn.
  rewrite set_state_run by (cbn; rewrite aget_aset_eq; eauto). cbn.
  rewrite aset_aset, aset_id by done. rewrite <- Hc. by destruct s.
Qed.

Lemma block_prelude_next s c h l ep :
  sched_wf s (h :: l) → current s = Some c →
  ∃ s', block_prelude ep s = Done (slot_index c, slot_index h) s' ∧
    slot_index c ≠ slot_index h ∧ sched_wf s' l ∧ current s' = Some h ∧
    task_states s' = aset (task_states s) (slot_index c) (TBlocked ep) ∧
    task_handles s' = task_handles s ∧ contexts s' = contexts s.
Proof.
  intros Hs Hc. pose proof (current_runnable s (h :: l) c Hc) as Hr.
  assert (h ∈ runnable s (h :: l)) as Hh by (unfold runnable; set_solver).
  destruct (sw_runnable _ _ Hs c Hr) as [Hst Hhc].
  destruct (sw_runnable _ _ Hs h Hh) as [Hsth _].
  pose proof (sw_nodup _ _ Hs) as Hnd. unfold runnable in Hnd. rewrite Hc in Hnd.
  simpl in Hnd. apply NoDup_cons in Hnd as [Hni Hnd].
  assert (slot_index c ≠ slot_index h) as Hne by set_solver.
  destruct (dequeue_cons (E := SchedError) _ (ready s) h l (sw_ready _ _ Hs)) as (q & Hd & Hq).
  eexists. split.
  { unfold block_prelude. monad. rewrite Hc. cbn. rewrite Hst. cbn.
    rewrite bool_decide_eq_true_2, debug_assert_true by done.
    rewrite set_state_run by eauto. cbn. unfold on_ready, zoom. cbn. rewrite Hd. cbn.
    rewrite set_ready_again by (cbn; by rewrite aget_aset_ne). reflexivity. }
  simpl. split; [done|]. split; [|done]. split; simpl; try apply Hs; unfold runnable; simpl.
  - done.
  - rewrite length_aset. apply Hs.
  - done.
  - intros h' Hh'. assert (slot_index c ≠ slot_index h') as Hne'.
    { intros Heq. apply Hni. rewrite Heq. by apply (list_elem_of_fmap_2 slot_index (h :: l)). }
    rewrite aget_aset_ne by done. apply (sw_runnable _ _ Hs). unfold runnable. set_solver.
  - intros i. rewrite aget_aset by eauto. case_decide as Hi; [done|]. intros Hti.
    destruct (sw_complete _ _ Hs i Hti) as (h' & Hh' & Hi'). exists h'. split; [|done].
    unfold runnable in Hh'. rewrite Hc in Hh'. simpl in Hh'. set_solver.
  - intros i ep'. rewrite aget_aset by eauto. case_decide as Hi; [|apply (sw_blocked _ _ Hs)].
    intros _. subst i. eauto.
Qed.

(** ** Making a task runnable *)

Lemma not_runnable s l h st :
  sched_wf s l → aget (task_states s) (slot_index h) = Some st → st ≠ TReady →
  slot_index h ∉ slot_index <$> runnable s l.
Proof.
  intros Hs Hst Hne (h' & Hi & Hh')%list_elem_of_fmap_1.
  destruct (sw_runnable _ _ Hs h' Hh') as [Hst' _]. congruence.
Qed.

Lemma add_room s l h st :
  sched_wf s l → aget (task_states s) (slot_index h) = Some st → st ≠ TReady →
  (N.of_nat (length l) < TASK_ARENA_CAPACITY)%N.
Proof.
  intros Hs Hst Hne. pose proof (not_runnable _ _ _ _ Hs Hst Hne) as Hni.
  assert (slot_index <$> (h :: runnable s l) ⊆+
    (N.of_nat <$> seq 0 (N.to_nat TASK_ARENA_CAPACITY))) as Hsub.
  { apply NoDup_submseteq; [by constructor; [|apply Hs]|].
    intros i (h' & -> & Hh')%list_elem_of_fmap_1.
    assert (is_Some (aget (task_states s) (slot_index h'))) as Hlt.
    { apply elem_of_cons in Hh' as [->|Hh']; [by eauto|].
      destruct (sw_runnable _ _ Hs h' Hh') as [? _]. eauto. }
    apply aget_lt in Hlt. rewrite (sw_states _ _ Hs) in Hlt.
    apply list_elem_of_fmap. exists (N.to_nat (slot_index h')). rewrite elem_of_seq. lia. }
  apply submseteq_length in Hsub. rewrite !length_fmap, length_seq in Hsub.
  unfold runnable in Hsub. simpl in Hsub. rewrite length_app in Hsub. lia.
Qed.

Lemma sched_wf_add s l h st q' cs' :
  sched_wf s l → aget (task_states s) (slot_index h) = Some st → st ≠ TReady →
  represents TASK_ARENA_CAPACITY q' (l ++ [h]) → length cs' = length (contexts s) →
  sched_wf (mkScheduler q' (aset (task_states s) (slot_index h) TReady)
    (aset (task_handles s) (slot_index h) (Some h)) (current s) cs') (l ++ [h]).
Proof.
  intros Hs Hst Hne Hq Hcs. pose proof (not_runnable _ _ _ _ Hs Hst Hne) as Hni.
  assert (is_Some (aget (task_handles s) (slot_index h))) as Hih.
  { apply aget_lt. rewrite (sw_handles _ _ Hs), <- (sw_states _ _ Hs). by eapply aget_Some_lt. }
  assert (∀ h', h' ∈ option_list (current s) ++ l ++ [h] ↔ h' ∈ runnable s l ∨ h' = h) as Hrun.
  { intros h'. unfold runnable. set_solver. }
  split; simpl; unfold runnable; simpl.
  - done.
  - rewrite length_aset. apply Hs.
  - rewrite length_aset. apply Hs.
  - rewrite Hcs. apply Hs.
  - rewrite app_assoc. fold (runnable s l). rewrite fmap_app. apply NoDup_app.
    split; [apply Hs|]. split; [|apply NoDup_singleton].
    intros i Hi ->%list_elem_of_singleton. done.
  - intros h' [Hh'| ->]%Hrun; [|by rewrite !aget_aset_eq by eauto].
    assert (slot_index h ≠ slot_index h') as Hd.
    { intros Heq. apply Hni. rewrite Heq. by apply list_elem_of_fmap_2. }
    rewrite !aget_aset_ne by done. by apply (sw_runnable _ _ Hs).
  - intros i. rewrite aget_aset by eauto. setoid_rewrite Hrun. case_decide as Hi; [by eauto|].
    intros Hti. destruct (sw_complete _ _ Hs i Hti) as (h' & ? & ?). eauto.
  - intros i ep. rewrite !aget_aset by eauto. case_decide as Hi; [done|].
    apply (sw_blocked _ _ Hs).
Qed.

Lemma set_handle_run s i (h : option TaskHandle) :
  is_Some (aget (task_handles s) i) →
  set_handle i h s = Done tt (mkScheduler (ready s) (task_states s) (aset (task_handles s) i h)
                                (current s) (contexts s)).
Proof. intros [x Hx]. unfold set_handle. monad. by rewrite Hx. Qed.

Lemma set_context_run s i (c : TaskContext) :
  is_Some (aget (contexts s) i) →
  set_context i c s = Done tt (mkScheduler (ready s) (task_states s) (task_handles s)
                                 (current s) (aset (contexts s) i c)).
Proof. intros [x Hx]. unfold set_context. monad. by rewrite Hx. Qed.

Lemma add_task_run s l cpu h entry stack_top ctx :
  sched_wf s l → aget (task_states s) (slot_index h) = Some TIdle →
  aget (contexts s) (slot_index h) = Some ctx →
  ∃ s', add_task cpu h entry stack_top s = Done tt s' ∧ sched_wf s' (l ++ [h]) ∧
    current s' = current s ∧
    task_states s' = aset (task_states s) (slot_index h) TReady ∧
    contexts s' = aset (contexts s) (slot_index h) (init_context cpu ctx entry stack_top).
Proof.
  intros Hs Hst Hctx. pose proof (add_room _ _ _ _ Hs Hst ltac:(done)) as Hroom.
  destruct (enqueue_rep _ (ready s) l h (sw_ready _ _ Hs) Hroom) as (q' & He & Hq').
  assert (is_Some (aget (task_handles s) (slot_index h))) as Hih.
  { apply aget_lt. rewrite (sw_handles _ _ Hs), <- (sw_states _ _ Hs). by eapply aget_Some_lt. }
  eexists. split.
  { unfold add_task. monad. rewrite Hctx. cbn. rewrite set_context_run by eauto. cbn.
    unfold map_err, on_ready, zoom. cbn. rewrite He. cbn.
    rewrite set_state_run by eauto. rewrite set_handle_run by eauto. reflexivity. }
  simpl. split; [|done]. eapply sched_wf_add; try done. by rewrite length_aset.
Qed.

(** ** Waking a receiver *)

Lemma unblock_scan_none s idxs ep :
  (∀ i, i ∈ idxs → is_Some (aget (task_states s) i)) →
  (∀ i, i ∈ idxs → aget (task_states s) i ≠ Some (TBlocked ep)) →
  unblock_scan idxs ep s = Done tt s.
Proof.
  induction idxs as [|i idxs IH]; intros Hlen Hno; [done|]. simpl. monad.
  destruct (Hlen i) as [st Hst]; [set_solver|]. rewrite Hst. cbn.
  assert (unblock_scan idxs ep s = Done tt s) as Hrest by (apply IH; set_solver).
  destruct st as [| |on]; try done. rewrite decide_False; [done|].
  intros ->. apply (Hno i); [set_solver|done].
Qed.

Lemma unblock_scan_some s l idxs ep i :
  sched_wf s l →
  (∀ j, j ∈ idxs → is_Some (aget (task_states s) j)) → i ∈ idxs →
  aget (task_states s) i = Some (TBlocked ep) →
  ∃ h s', aget (task_states s) (slot_index h) = Some (TBlocked ep) ∧
    aget (task_handles s) (slot_index h) = Some (Some h) ∧
    unblock_scan idxs ep s = Done tt s' ∧ sched_wf s' (l ++ [h]) ∧ current s' = current s ∧
    task_states s' = aset (task_states s) (slot_index h) TReady ∧
    task_handles s' = task_handles s ∧ contexts s' = contexts s.
Proof.
  intros Hs. induction idxs as [|j idxs IH]; intros Hlen Hin Hi; [by apply not_elem_of_nil in Hin|].
  simpl. monad. destruct (Hlen j) as [st Hst]; [set_solver|]. rewrite Hst. cbn.
  destruct (decide (st = TBlocked ep)) as [->|Hne].
  - clear Hin Hi IH. rewrite decide_True by done.
    destruct (sw_blocked _ _ Hs j ep Hst) as (h & Hh & <-). rewrite Hh. cbn.
    destruct (enqueue_rep _ (ready s) l h (sw_ready _ _ Hs)) as (q' & He & Hq').
    { by eapply (add_room s l h). }
    exists h. eexists. split; [done|]. split; [done|]. split.
    { rewrite set_state_run by eauto. unfold or_panic, on_ready, zoom. cbn. rewrite He. reflexivity. }
    cbn. split; [|done]. rewrite <- (aset_id (task_handles s) (slot_index h) (Some h)) by done.
    by eapply sched_wf_add.
  - destruct IH as (h & s' & ? & ? & Hscan & ?); [set_solver|set_solver by congruence|done|].
    exists h, s'. split_and!; [done..| |tauto|tauto|tauto|tauto|tauto].
    destruct st as [| |on]; try done. rewrite decide_False; [done|]. congruence.
Qed.

Lemma scan_range s l i :
  sched_wf s l → i ∈ N.of_nat <$> seq 0 (N.to_nat TASK_ARENA_CAPACITY) ↔
  is_Some (aget (task_states s) i).
Proof.
  intros Hs. rewrite aget_lt, (sw_states _ _ Hs), list_elem_of_fmap. setoid_rewrite elem_of_seq.
  split; [intros (k & -> & ?); lia|]. intros Hi. exists (N.to_nat i). lia.
Qed.
End sched.

(** ** The whole kernel *)

Section kernel.
Context {S : Type} `{!Cpu S, !ContextSwitch S} `{BuildProfile}.
Implicit Types (s : Scheduler S) (k : Kernel S) (l : list TaskHandle) (h c : TaskHandle).
Implicit Types (ep : EndpointHandle) (tbl : nat).

Definition blocked_on k (i : N) ep : Prop :=
  aget (task_states (k_sched k)) i = Some (TBlocked ep).

Record kernel_wf k l : Prop := {
  kw_sched : sched_wf (k_sched k) l;
  kw_ipc : ipc_wf (k_arena k) (k_queues k);
  kw_tables tbl : table_wf (k_tables k tbl);
  (** A blocked task is the receiver registered at a live endpoint ... *)
  kw_waiting i ep : blocked_on k i ep →
    ep_live (k_arena k) ep ∧ ep_state (k_queues k) ep = RecvWaiting;
  (** ... and the only one. *)
  kw_single i j ep : blocked_on k i ep → blocked_on k j ep → i = j;
}.

Definition with_ipc k (q : IpcQueues) (t : CapabilityTable) tbl : Kernel S :=
  mkKernel (k_sched k) (k_cpu k) (k_arena k) q (set_table (k_tables k) tbl t).

Definition with_sched k s : Kernel S :=
  mkKernel s (k_cpu k) (k_arena k) (k_queues k) (k_tables k).

Definition with_cpu k (cpu : S) : Kernel S :=
  mkKernel (k_sched k) cpu (k_arena k) (k_queues k) (k_tables k).

Lemma set_table_wf k l q t tbl j :
  kernel_wf k l → table_wf t → table_wf (k_tables (with_ipc k q t tbl) j).
Proof. intros Hk Ht. simpl. unfold set_table. case_decide; [done|apply (kw_tables _ _ Hk)]. Qed.

Lemma kernel_wf_agree k l q t tbl :
  kernel_wf k l → ipc_wf (k_arena k) q → agree (k_arena k) (k_queues k) q → table_wf t →
  kernel_wf (with_ipc k q t tbl) l.
Proof.
  intros Hk Hq Hag Ht. split; [apply Hk|done|intros; by eapply set_table_wf| |apply (kw_single _ _ Hk)].
  intros i ep Hb. destruct (kw_waiting _ _ Hk i ep Hb) as [Hl Hst]. split; [done|].
  simpl. by rewrite Hag.
Qed.

Lemma kernel_wf_moves k l q t tbl ep st :
  kernel_wf k l → (∀ i, ¬ blocked_on k i ep) → moves (k_arena k) (k_queues k) q ep st →
  table_wf t → kernel_wf (with_ipc k q t tbl) l.
Proof.
  intros Hk Hno [Hq Hmv] Ht.
  split; [apply Hk|done|intros; by eapply set_table_wf| |apply (kw_single _ _ Hk)].
  intros i ep' Hb. destruct (kw_waiting _ _ Hk i ep' Hb) as [Hl Hst]. split; [done|].
  simpl. rewrite Hmv by done. case_decide as Heq; [subst; by destruct (Hno i)|done].
Qed.

(** Nobody is blocked on an endpoint that is not waiting for a receiver's
    message. *)
Lemma not_waiting k l ep i :
  kernel_wf k l → ep_state (k_queues k) ep ≠ RecvWaiting → ¬ blocked_on k i ep.
Proof. intros Hk Hne Hb. by destruct (kw_waiting _ _ Hk i ep Hb). Qed.

(** A new scheduler state with the same task states. *)
Lemma kernel_wf_sched k l s l' :
  kernel_wf k l → sched_wf s l' → task_states s = task_states (k_sched k) →
  kernel_wf (with_sched k s) l'.
Proof.
  intros Hk Hs Hst. split; simpl; [done|apply Hk|apply Hk|..]; unfold blocked_on; simpl; rewrite Hst;
    apply Hk.
Qed.

Lemma kernel_wf_cpu k l cpu : kernel_wf k l → kernel_wf (with_cpu k cpu) l.
Proof. by intros []. Qed.

(** ** The switch window *)

(** What [context_switch] does to the core and to the outgoing context. *)
Definition switched k (i j : N) : option (Kernel S * IrqGuard) :=
  cur ← aget (contexts (k_sched k)) i;
  nxt ← aget (contexts (k_sched k)) j;
  let '(guard, cpu1) := irq_guard_new (k_cpu k) in
  let '(cpu2, saved) := context_switch cpu1 cur nxt in
  let s := k_sched k in
  Some (mkKernel (mkScheduler (ready s) (task_states s) (task_handles s) (current s)
                    (aset (contexts s) i saved))
                 cpu2 (k_arena k) (k_queues k) (k_tables k), guard).

Lemma sched_wf_contexts s l cs :
  sched_wf s l → length cs = length (contexts s) →
  sched_wf (mkScheduler (ready s) (task_states s) (task_handles s) (current s) cs) l.
Proof. intros [] Hl. split; try done. simpl. by rewrite Hl. Qed.

Lemma context_at s l i st :
  sched_wf s l → aget (task_states s) i = Some st → is_Some (aget (contexts s) i).
Proof.
  intros Hs Hi. apply aget_lt. rewrite (sw_contexts _ _ Hs), <- (sw_states _ _ Hs).
  by eapply aget_Some_lt.
Qed.

Lemma switch_window_run k l i j :
  kernel_wf k l → i ≠ j → is_Some (aget (task_states (k_sched k)) i) →
  is_Some (aget (task_states (k_sched k)) j) →
  ∃ k' guard, switch_window i j k = Done guard k' ∧ switched k i j = Some (k', guard) ∧
    kernel_wf k' l.
Proof.
  intros Hk Hij [sti Hi] [stj Hj]. pose proof (kw_sched _ _ Hk) as Hs.
  destruct (context_at _ _ _ _ Hs Hi) as [ci Hci]. destruct (context_at _ _ _ _ Hs Hj) as [cj Hcj].
  unfold switched. rewrite Hci, Hcj. cbn.
  destruct (irq_guard_new (k_cpu k)) as [guard cpu1] eqn:Hg.
  destruct (context_switch cpu1 ci cj) as [cpu2 saved] eqn:Hcs.
  do 2 eexists. split; [|split; [done|]].
  - unfold switch_window, switch_slots, on_cpu, on_sched, zoom. monad.
    rewrite bool_decide_eq_true_2, debug_assert_true by done. cbn. rewrite Hg. cbn.
    rewrite Hci. cbn. rewrite Hcj. cbn. rewrite Hcs. cbn.
    rewrite set_context_run by (cbn; eauto). done.
  - apply (kernel_wf_cpu (with_sched k _)). eapply kernel_wf_sched; [done| |done].
    apply sched_wf_contexts; [done|]. by rewrite length_aset.
Qed.

Lemma switched_frame k i j k' guard :
  switched k i j = Some (k', guard) →
  current (k_sched k') = current (k_sched k) ∧ task_states (k_sched k') = task_states (k_sched k) ∧
  k_arena k' = k_arena k ∧ k_queues k' = k_queues k ∧ k_tables k' = k_tables k.
Proof.
  unfold switched. intros (cur & _ & (nxt & _ & Hsw)%bind_Some)%bind_Some.
  destruct (irq_guard_new (k_cpu k)). destruct (context_switch _ cur nxt). by simplify_eq/=.
Qed.

(** ** Yielding *)

Lemma yield_now_run k l c :
  kernel_wf k l → current (k_sched k) = Some c →
  match l with
  | [] => ∃ s', yield_now k = Done (Return tt) (with_sched k s') ∧
            kernel_wf (with_sched k s') [] ∧ current s' = Some c ∧
            task_states s' = task_states (k_sched k) ∧ contexts s' = contexts (k_sched k)
  | h :: l' => ∃ s1 k' guard,
      yield_now k = Done (Switched (drop_guard guard)) k' ∧
      switched (with_sched k s1) (slot_index c) (slot_index h) = Some (k', guard) ∧
      contexts s1 = contexts (k_sched k) ∧ task_states s1 = task_states (k_sched k) ∧
      slot_index c ≠ slot_index h ∧
      kernel_wf k' (l' ++ [c]) ∧ current (k_sched k') = Some h ∧
      task_states (k_sched k') = task_states (k_sched k) ∧
      k_arena k' = k_arena k ∧ k_queues k' = k_queues k ∧ k_tables k' = k_tables k
  end.
Proof.
  intros Hk Hc. pose proof (kw_sched _ _ Hk) as Hs. destruct l as [|h l].
  - destruct (yield_prelude_alone _ c Hs Hc) as (s' & Hy & Hs' & Hc' & Hst & _ & Hcs).
    exists s'. split_and!; [|by eapply kernel_wf_sched|done..].
    unfold yield_now, on_sched, zoom. monad. by rewrite Hy.
  - destruct (yield_prelude_next _ c h l Hs Hc) as (s' & Hy & Hne & Hs' & Hc' & Hst & _ & Hcs).
    assert (kernel_wf (with_sched k s') (l ++ [c])) as Hk' by (by eapply kernel_wf_sched).
    assert (∀ x, x ∈ runnable (k_sched k) (h :: l) →
      is_Some (aget (task_states (k_sched (with_sched k s'))) (slot_index x))) as Hin.
    { intros x Hx. simpl. rewrite Hst. destruct (sw_runnable _ _ Hs x Hx) as [? _]. eauto. }
    destruct (switch_window_run _ _ (slot_index c) (slot_index h) Hk' Hne)
      as (k' & guard & Hw & Hsw & Hk2).
    { apply Hin. by apply current_runnable. }
    { apply Hin. unfold runnable. set_solver. }
    destruct (switched_frame _ _ _ _ _ Hsw) as (E1 & E2 & E3 & E4 & E5).
    exists s', k', guard. split_and!; try done; [|by rewrite E1..|by rewrite E2].
    unfold yield_now, on_sched, zoom. monad. rewrite Hy. fold (with_sched k s'). by rewrite Hw.
Qed.

(** ** Sending and receiving through the bridge *)

Lemma resolve_ep_cap_Ok t x ep r ep' :
  resolve_ep_cap t x = Ok ep → validate_ep_cap t x r = Ok ep' → ep' = ep.
Proof.
  unfold resolve_ep_cap, validate_ep_cap. repeat case_match; congruence.
Qed.

Lemma validate_resolve t x r ep : validate_ep_cap t x r = Ok ep → resolve_ep_cap t x = Ok ep.
Proof. unfold resolve_ep_cap, validate_ep_cap. repeat case_match; congruence. Qed.

Lemma resolve_Err_validate t x r e :
  resolve_ep_cap t x = Err e → validate_ep_cap t x r = Err InvalidCapability.
Proof. unfold resolve_ep_cap, validate_ep_cap. repeat case_match; congruence. Qed.

Lemma resolve_ep_cap_Err t x e : resolve_ep_cap t x = Err e → e = SchedIpc InvalidCapability.
Proof. unfold resolve_ep_cap. repeat case_match; congruence. Qed.

Lemma on_ipc_run {A} k tbl (m : M Ctx IpcError A) :
  on_ipc tbl m k =
  match m (mkCtx (k_arena k) (k_queues k) (k_tables k tbl)) with
  | Done a c => Done a (mkKernel (k_sched k) (k_cpu k) (ep_arena c) (queues c)
                          (set_table (k_tables k) tbl (caller_table c)))
  | Fail e c => Fail (SchedIpc e) (mkKernel (k_sched k) (k_cpu k) (ep_arena c) (queues c)
                          (set_table (k_tables k) tbl (caller_table c)))
  | Panic => Panic
  | Diverge => Diverge
  end.
Proof. unfold on_ipc, map_err, zoom. by destruct (m _). Qed.

Lemma on_sched_run {A} k (m : M (Scheduler S) SchedError A) :
  on_sched m k =
  match m (k_sched k) with
  | Done a s => Done a (with_sched k s)
  | Fail e s => Fail e (with_sched k s)
  | Panic => Panic
  | Diverge => Diverge
  end.
Proof. done. Qed.

(** Waking whoever is blocked on [ep], if anybody. *)
Lemma unblock_run k l ep :
  kernel_wf k l →
  (∃ s', unblock_receiver_on ep (k_sched k) = Done tt s' ∧
    current s' = current (k_sched k) ∧ contexts s' = contexts (k_sched k) ∧
    (((∀ i, ¬ blocked_on k i ep) ∧ s' = k_sched k) ∨
     ∃ h, blocked_on k (slot_index h) ep ∧ sched_wf s' (l ++ [h]) ∧
       aget (task_handles (k_sched k)) (slot_index h) = Some (Some h) ∧
       task_states s' = aset (task_states (k_sched k)) (slot_index h) TReady)).
Proof.
  intros Hk. pose proof (kw_sched _ _ Hk) as Hs. unfold unblock_receiver_on.
  set (idxs := N.of_nat <$> seq 0 (N.to_nat TASK_ARENA_CAPACITY)).
  assert (∀ j, j ∈ idxs ↔ is_Some (aget (task_states (k_sched k)) j)) as Hrange
    by (intros j; by eapply scan_range).
  destruct (decide (Exists (λ i, aget (task_states (k_sched k)) i = Some (TBlocked ep)) idxs))
    as [(i & Hi & Hb)%Exists_exists|Hno%not_Exists_Forall].
  - destruct (unblock_scan_some (k_sched k) l idxs ep i Hs) as (h & s' & Hst & Hh & Hrun & Hs' & ? & ? & ? & ?);
      [intros j; apply Hrange|done|done|].
    exists s'. split_and!; [done..|]. right. by exists h.
  - exists (k_sched k). split_and!; [|done..|].
    + apply unblock_scan_none; [intros j; apply Hrange|]. intros j Hj.
      rewrite Forall_forall in Hno. by apply Hno.
    + left. split; [|done]. intros i Hb. rewrite Forall_forall in Hno.
      apply (Hno i); [|done]. apply Hrange. eauto.
  - intros x. by apply _.
Qed.

Lemma kernel_wf_woken k q t tbl l ep h s' st :
  kernel_wf k l → table_wf t → moves (k_arena k) (k_queues k) q ep st →
  blocked_on k (slot_index h) ep → sched_wf s' (l ++ [h]) →
  task_states s' = aset (task_states (k_sched k)) (slot_index h) TReady →
  kernel_wf (with_sched (with_ipc k q t tbl) s') (l ++ [h]).
Proof.
  intros Hk Ht [Hq Hmv] Hb Hs' Hst.
  assert (∀ i ep', blocked_on (with_sched (with_ipc k q t tbl) s') i ep' →
            i ≠ slot_index h ∧ blocked_on k i ep') as Hblk.
  { unfold blocked_on in *. simpl. intros i ep'. rewrite Hst, aget_aset by eauto.
    by case_decide. }
  split; [done|done|intros; by eapply (set_table_wf k l)|..].
  - intros i ep' [Hi Hb']%Hblk. destruct (kw_waiting _ _ Hk i ep' Hb') as [Hl Hw].
    split; [done|]. simpl. rewrite Hmv by done. case_decide as Heq; [|done].
    subst ep'. by destruct Hi; apply (kw_single _ _ Hk _ _ ep).
  - intros i j ep' [_ Hi]%Hblk [_ Hj]%Hblk. by apply (kw_single _ _ Hk _ _ ep').
Qed.

(** What a refused call leaves alone: everything IPC can observe. *)
Definition ipc_kept k k' : Prop :=
  k_arena k' = k_arena k ∧ agree (k_arena k) (k_queues k) (k_queues k') ∧
  (∀ j, k_tables k' j = k_tables k j) ∧ k_cpu k' = k_cpu k.

Lemma ipc_kept_refl k : ipc_kept k k.
Proof. by split_and!. Qed.

Lemma ipc_kept_with k q tbl :
  agree (k_arena k) (k_queues k) q → ipc_kept k (with_ipc k q (k_tables k tbl) tbl).
Proof.
  intros Hag. split_and!; [done..| |done]. intros j. simpl. unfold set_table. by case_decide; subst.
Qed.

(** [k1] is [k] after a delivery on [ep]: the blocked receiver, if any, was
    made ready and queued. *)
Definition woken k l ep k1 l1 : Prop :=
  kernel_wf k1 l1 ∧ current (k_sched k1) = current (k_sched k) ∧
  contexts (k_sched k1) = contexts (k_sched k) ∧
  ((l1 = l ∧ (∀ i, ¬ blocked_on k i ep) ∧ task_states (k_sched k1) = task_states (k_sched k)) ∨
   ∃ h, l1 = l ++ [h] ∧ blocked_on k (slot_index h) ep ∧
     aget (task_handles (k_sched k)) (slot_index h) = Some (Some h) ∧
     task_states (k_sched k1) = aset (task_states (k_sched k)) (slot_index h) TReady).

Lemma ipc_send_and_yield_run k l tbl ep_cap msg transfer :
  kernel_wf k l →
  (∃ e k', ipc_send_and_yield tbl ep_cap msg transfer k = Fail (SchedIpc e) k' ∧
     kernel_wf k' l ∧ k_sched k' = k_sched k ∧ ipc_kept k k' ∧
     send_refused (k_arena k) (k_queues k) (k_tables k tbl) ep_cap transfer e) ∨
  (∃ ep q t, validate_ep_cap (k_tables k tbl) ep_cap SEND = Ok ep ∧ ep_live (k_arena k) ep ∧
     send_accepted (k_arena k) (k_queues k) (k_tables k tbl) ep_cap msg transfer
       (sent_outcome (ep_state (k_queues k) ep)) q t ∧
     match sent_outcome (ep_state (k_queues k) ep) with
     | Delivered => ∃ s' l1, woken k l ep (with_sched (with_ipc k q t tbl) s') l1 ∧
         ipc_send_and_yield tbl ep_cap msg transfer k =
         (c ← yield_now; mret (control_map (λ _, Delivered) c)) (with_sched (with_ipc k q t tbl) s')
     | Enqueued =>
       ipc_send_and_yield tbl ep_cap msg transfer k = Done (Return Enqueued) (with_ipc k q t tbl) ∧
       kernel_wf (with_ipc k q t tbl) l
     end).
Proof.
  intros Hk. unfold ipc_send_and_yield. monad. cbn.
  destruct (resolve_ep_cap (k_tables k tbl) ep_cap) as [ep|e] eqn:Hres; cbn.
  2:{ left. rewrite (resolve_ep_cap_Err _ _ _ Hres). do 2 eexists.
      split_and!; [done..|apply ipc_kept_refl|]. apply (send_no_cap _ _ _ _ _ InvalidCapability).
      by eapply resolve_Err_validate. }
  rewrite on_ipc_run.
  destruct (ipc_send_run (k_arena k) (k_queues k) (k_tables k tbl) ep_cap msg transfer
    (kw_ipc _ _ Hk) (kw_tables _ _ Hk tbl))
    as [(e & q & -> & Hq & Hag & Href)|(out & q & t & -> & Hq & Ht & Hacc)]; cbn.
  { left. do 2 eexists. split; [done|]. split; [|split_and!; [done|by apply ipc_kept_with|done]].
    apply (kernel_wf_agree k l q (k_tables k tbl) tbl); [done..|apply (kw_tables _ _ Hk)]. }
  right. pose proof Hacc as (ep' & cap & Hval & Hl & Hh & Htk & Hmv & ->).
  pose proof (resolve_ep_cap_Ok _ _ _ _ _ Hres Hval) as ->.
  exists ep, q, t. split_and!; [done..|]. fold (with_ipc k q t tbl).
  destruct (sent_outcome (ep_state (k_queues k) ep)) eqn:Hout.
  - unfold on_sched, zoom. cbn.
    destruct (unblock_run k l ep Hk) as (s' & -> & Hcur & Hcs & Hcases). cbn.
    exists s'. fold (with_sched (with_ipc k q t tbl) s').
    destruct Hcases as [[Hno ->]|(h & Hb & Hs' & Hth & Hst)].
    + exists l. split; [|done]. split_and!; [|done|done|by left].
      by apply (kernel_wf_moves k l q t tbl ep _ Hk Hno Hmv).
    + exists (l ++ [h]). split; [|done]. split_and!; [|done|done|right; exists h; by split_and!].
      by apply (kernel_wf_woken k q t tbl l ep h s' _ Hk Ht Hmv).
  - split; [done|]. eapply kernel_wf_moves; [done| |done|done].
    intros i. apply (not_waiting k l); [done|]. intros Hw. by rewrite Hw in Hout.
Qed.

(** A task that blocks: it waits on [ep], and the head of the queue runs. *)
Lemma kernel_wf_blocked k l c ep s :
  kernel_wf k l → ep_live (k_arena k) ep → ep_state (k_queues k) ep = RecvWaiting →
  (∀ i, ¬ blocked_on k i ep) → is_Some (aget (task_states (k_sched k)) (slot_index c)) →
  ∀ l', sched_wf s l' →
  task_states s = aset (task_states (k_sched k)) (slot_index c) (TBlocked ep) →
  kernel_wf (with_sched k s) l'.
Proof.
  intros Hk Hl Hw Hno Hc l' Hs Hst.
  assert (∀ i ep', blocked_on (with_sched k s) i ep' →
    (i = slot_index c ∧ ep' = ep) ∨ blocked_on k i ep') as Hblk.
  { unfold blocked_on. simpl. intros i ep'. rewrite Hst, aget_aset by done.
    case_decide as Hi; [|by right]. intros [= <-]. by left. }
  split; [done|apply Hk|apply Hk|..].
  - intros i ep' [[_ ->]|Hb]%Hblk; [done|by apply (kw_waiting _ _ Hk i)].
  - intros i j ep' [[-> ->]|Hi]%Hblk [[-> He]|Hj]%Hblk; subst; try done.
    + by destruct (Hno j).
    + by destruct (Hno i).
    + by apply (kw_single _ _ Hk _ _ ep').
Qed.

(** The receiver has the right to receive, and there is nothing to receive and
    no other receiver. *)
Definition would_block k tbl ep_cap : Prop :=
  ∃ ep, validate_ep_cap (k_tables k tbl) ep_cap RECV = Ok ep ∧ ep_live (k_arena k) ep ∧
        ep_state (k_queues k) ep = Idle.

Lemma refused_not_blocking k tbl ep_cap e :
  recv_refused (k_arena k) (k_queues k) (k_tables k tbl) ep_cap e → ¬ would_block k tbl ep_cap.
Proof.
  intros Hbad (ep & Hval & Hl & Hidle).
  destruct Hbad as [e' He|ep' He Hd|ep' He _ Hcc _|ep' He _ Hw]; [congruence|..];
    assert (ep' = ep) as -> by congruence; [done|by rewrite Hidle in Hcc|congruence].
Qed.

Lemma ipc_recv_and_yield_run k l c tbl ep_cap :
  kernel_wf k l → current (k_sched k) = Some c →
  (∃ e k', ipc_recv_and_yield tbl ep_cap k = Fail (SchedIpc e) k' ∧
     kernel_wf k' l ∧ k_sched k' = k_sched k ∧ ¬ would_block k tbl ep_cap ∧ ipc_kept k k' ∧
     recv_refused (k_arena k) (k_queues k) (k_tables k tbl) ep_cap e) ∨
  (∃ msg x q t, ipc_recv_and_yield tbl ep_cap k = Done (Return (Received msg x)) (with_ipc k q t tbl) ∧
     kernel_wf (with_ipc k q t tbl) l ∧ ¬ would_block k tbl ep_cap ∧
     recv_accepted (k_arena k) (k_queues k) (k_tables k tbl) ep_cap (Received msg x) q t) ∨
  (∃ ep q t, validate_ep_cap (k_tables k tbl) ep_cap RECV = Ok ep ∧ ep_live (k_arena k) ep ∧
     ep_state (k_queues k) ep = Idle ∧ t = k_tables k tbl ∧
     kernel_wf (with_ipc k q t tbl) l ∧ ep_state q ep = RecvWaiting ∧
     moves (k_arena k) (k_queues k) q ep RecvWaiting ∧
     match l with
     | [] => ipc_recv_and_yield tbl ep_cap k = Fail Deadlock (with_ipc k q t tbl)
     | h :: l' => ∃ s1 k' guard,
         ipc_recv_and_yield tbl ep_cap k = Done (Switched (recv_resume guard tbl ep_cap)) k' ∧
         switched (with_sched (with_ipc k q t tbl) s1) (slot_index c) (slot_index h)
           = Some (k', guard) ∧
         contexts s1 = contexts (k_sched k) ∧ slot_index c ≠ slot_index h ∧
         kernel_wf k' l' ∧ current (k_sched k') = Some h ∧ blocked_on k' (slot_index c) ep ∧
         task_states (k_sched k') = aset (task_states (k_sched k)) (slot_index c) (TBlocked ep) ∧
         k_arena k' = k_arena k ∧ k_queues k' = q ∧ k_tables k' = set_table (k_tables k) tbl t
     end).
Proof.
  intros Hk Hc. unfold ipc_recv_and_yield. monad. cbn.
  destruct (resolve_ep_cap (k_tables k tbl) ep_cap) as [ep|e] eqn:Hres; cbn.
  2:{ left. rewrite (resolve_ep_cap_Err _ _ _ Hres). do 2 eexists.
      split_and!; [done..| |apply ipc_kept_refl|].
      - intros (ep & Hval & _). rewrite (validate_resolve _ _ _ _ Hval) in Hres. done.
      - apply (recv_no_cap _ _ _ _ InvalidCapability). by eapply resolve_Err_validate. }
  rewrite on_ipc_run.
  destruct (ipc_recv_run (k_arena k) (k_queues k) (k_tables k tbl) ep_cap
    (kw_ipc _ _ Hk) (kw_tables _ _ Hk tbl))
    as [(e & q & -> & Hq & Hag & Hbad)|(out & q & t & -> & Hq & Ht & Hacc)]; cbn.
  { left. do 2 eexists. split; [done|].
    split_and!; [|done|by eapply refused_not_blocking|by apply ipc_kept_with|done].
    apply (kernel_wf_agree k l q (k_tables k tbl) tbl); [done..|apply (kw_tables _ _ Hk)]. }
  right. destruct Hacc as (ep' & Hval & Hl & Hacc).
  pose proof (resolve_ep_cap_Ok _ _ _ _ _ Hres Hval) as ->. fold (with_ipc k q t tbl).
  destruct out as [msg cap|].
  { destruct Hacc as (cap' & Hif & Hmv & Hg). left. do 4 eexists. split; [done|].
    split_and!; [| |exists ep; split_and!; [done..|by exists cap']].
    - eapply kernel_wf_moves; [done| |done|done]. intros i. apply (not_waiting k l); [done|].
      intros Hw. by rewrite Hw in Hif.
    - intros (ep' & Hval' & _ & Hidle). assert (ep' = ep) as -> by congruence.
      by rewrite Hidle in Hif. }
  right. destruct Hacc as (Hidle & Hmv & ->). set (t := k_tables k tbl) in *.
  assert (∀ i, ¬ blocked_on k i ep) as Hno.
  { intros i. apply (not_waiting k l); [done|]. by rewrite Hidle. }
  assert (kernel_wf (with_ipc k q t tbl) l) as Hk1 by (by eapply kernel_wf_moves).
  assert (ep_state q ep = RecvWaiting) as Hw.
  { destruct Hmv as [_ Hmv]. rewrite Hmv by done. by rewrite decide_True. }
  exists ep, q, t. split_and!; [done..|apply Hmv|]. pose proof (kw_sched _ _ Hk) as Hs.
  destruct l as [|h l'].
  { rewrite (on_sched_run (with_ipc k q t tbl)). cbn [k_sched with_ipc].
    by rewrite (block_prelude_deadlock _ c ep Hs Hc). }
  destruct (block_prelude_next _ c h l' ep Hs Hc) as (s1 & Hbl & Hne & Hs1 & Hc1 & Hst1 & _ & Hcs1).
  assert (∀ x, x ∈ runnable (k_sched k) (h :: l') →
      is_Some (aget (task_states (k_sched k)) (slot_index x))) as Hin.
  { intros x Hx. destruct (sw_runnable _ _ Hs x Hx) as [? _]. eauto. }
  assert (is_Some (aget (task_states (k_sched k)) (slot_index c))) as Hcin
    by (apply Hin; by apply current_runnable).
  assert (kernel_wf (with_sched (with_ipc k q t tbl) s1) l') as Hk2.
  { by apply (kernel_wf_blocked (with_ipc k q t tbl) (h :: l') c ep s1). }
  destruct (switch_window_run _ _ (slot_index c) (slot_index h) Hk2 Hne)
    as (k' & guard & Hwin & Hsw & Hk').
  { simpl. rewrite Hst1, aget_aset_eq; eauto. }
  { simpl. rewrite Hst1, aget_aset_ne by done. apply Hin. unfold runnable. set_solver. }
  destruct (switched_frame _ _ _ _ _ Hsw) as (E1 & E2 & E3 & E4 & E5).
  exists s1, k', guard. split_and!; try done; [|by rewrite E1| |by rewrite E2].
  - rewrite (on_sched_run (with_ipc k q t tbl)). cbn [k_sched with_ipc]. rewrite Hbl.
    by rewrite Hwin.
  - unfold blocked_on. rewrite E2. simpl. by rewrite Hst1, aget_aset_eq.
Qed.

(** A second receiver is refused. *)
Lemma recv_waiting_refused k l tbl ep_cap ep :
  kernel_wf k l → validate_ep_cap (k_tables k tbl) ep_cap RECV = Ok ep →
  ep_live (k_arena k) ep → ep_state (k_queues k) ep = RecvWaiting →
  ∃ k', ipc_recv_and_yield tbl ep_cap k = Fail (SchedIpc QueueFull) k'.
Proof.
  intros Hk Hval Hl Hw. unfold ipc_recv_and_yield. monad. cbn.
  rewrite (validate_resolve _ _ _ _ Hval). cbn. rewrite on_ipc_run.
  destruct (ipc_recv_run (k_arena k) (k_queues k) (k_tables k tbl) ep_cap
    (kw_ipc _ _ Hk) (kw_tables _ _ Hk tbl))
    as [(e & q & -> & _ & _ & Hr)|(out & q & t & _ & _ & _ & Hacc)]; cbn.
  - destruct Hr as [e He|ep' He Hd|ep' He _ Hcc _|ep' He _ _]; [congruence|..|eauto];
      assert (ep' = ep) as -> by congruence; [done|]. by rewrite Hw in Hcc.
  - destruct Hacc as (ep' & Hval' & _ & Hacc). assert (ep' = ep) as -> by congruence.
    destruct out; [destruct Hacc as (cap' & Hif & _); by rewrite Hw in Hif|].
    destruct Hacc as [Hidle _]. congruence.
Qed.

(** ** Starting *)

Lemma start_run k h l ctx :
  kernel_wf k (h :: l) → current (k_sched k) = None →
  aget (contexts (k_sched k)) (slot_index h) = Some ctx →
  ∃ k', start k = Done (Switched diverge) k' ∧ kernel_wf k' l ∧ current (k_sched k') = Some h ∧
    k_cpu k' = (context_switch (irq_guard_new (k_cpu k)).2 default_context ctx).1.
Proof.
  intros Hk Hc Hctx. pose proof (kw_sched _ _ Hk) as Hs.
  destruct (start_prelude_run (k_sched k) h l Hs Hc) as (s' & Hr & Hs' & Hc' & Hst & Hcs).
  unfold start. monad. rewrite on_sched_run, Hr. unfold on_cpu. cbn.
  destruct (irq_guard_new (k_cpu k)) as [guard cpu1]. cbn. rewrite Hcs, Hctx. cbn.
  destruct (context_switch cpu1 default_context ctx) as [cpu2 saved]. cbn.
  eexists. split; [done|]. split; [|done].
  apply (kernel_wf_cpu (with_sched k s')). by eapply kernel_wf_sched.
Qed.

(** ** Resuming *)

Lemma drop_guard_run k guard :
  drop_guard guard k = Done tt (with_cpu k (irq_guard_drop guard (k_cpu k))).
Proof. done. Qed.

Lemma recv_resume_run k l guard tbl ep_cap :
  kernel_wf k l →
  let k0 := with_cpu k (irq_guard_drop guard (k_cpu k)) in
  (∃ e k', recv_resume guard tbl ep_cap k = Fail (SchedIpc e) k' ∧ kernel_wf k' l ∧ k_sched k' = k_sched k ∧
     ipc_kept k0 k' ∧ recv_refused (k_arena k) (k_queues k) (k_tables k tbl) ep_cap e) ∨
  (∃ out q t, kernel_wf (with_ipc k0 q t tbl) l ∧
     recv_accepted (k_arena k) (k_queues k) (k_tables k tbl) ep_cap out q t ∧
     recv_resume guard tbl ep_cap k =
     match out with
     | Received msg x => Done (Received msg x) (with_ipc k0 q t tbl)
     | Pending => Fail (SchedIpc PendingAfterResume) (with_ipc k0 q t tbl)
     end).
Proof.
  intros Hk k0. unfold recv_resume. monad. rewrite drop_guard_run, on_ipc_run. fold k0.
  assert (kernel_wf k0 l) as Hk0 by (by apply kernel_wf_cpu).
  change (k_arena k0) with (k_arena k). change (k_queues k0) with (k_queues k).
  change (k_tables k0) with (k_tables k).
  destruct (ipc_recv_run (k_arena k) (k_queues k) (k_tables k tbl) ep_cap
    (kw_ipc _ _ Hk) (kw_tables _ _ Hk tbl))
    as [(e & q & -> & Hq & Hag & Href)|(out & q & t & -> & Hq & Ht & Hacc)]; cbn.
  - left. exists e, (with_ipc k0 q (k_tables k tbl) tbl).
    split_and!; [done| |done|by apply (ipc_kept_with k0)|done].
    apply kernel_wf_agree; [done..|apply (kw_tables _ _ Hk)].
  - right. exists out, q, t. pose proof Hacc as (ep & Hval & Hl & Hout).
    split_and!; [|done|by destruct out]. destruct out as [msg x|].
    + destruct Hout as (cap & Hif & Hmv & _). eapply kernel_wf_moves; [done| |done|done]. intros i.
      apply (not_waiting k0 l); [done|]. intros Hw. simpl in Hw. by rewrite Hw in Hif.
    + destruct Hout as (Hidle & Hmv & _). eapply kernel_wf_moves; [done| |done|done]. intros i.
      apply (not_waiting k0 l); [done|]. simpl. by rewrite Hidle.
Qed.
End kernel.
