(* ===== verification/QemuCpu.v ===== *)
(** * [bsp-qemu-virt/src/cpu.rs]: the aarch64 core

    [Core] is the part of a core's state that the kernel's CPU code reads and
    writes: the interrupt mask, the callee-saved registers, the virtual timer, and
    the identification registers. [context_switch_asm] is modelled instruction by
    instruction, on the memory of the two [Aarch64TaskContext] structures, and
    shown to be the structure-level save and restore that the trait's contract
    asks for. *)

From stdpp Require Import prelude.
From Stdlib Require Import Lia NArith.
From S2P Require Import Prelude HalCpu Timer.

(** ** Registers and contexts *)

(** [Aarch64TaskContext]; the field order is the [repr(C)] layout. *)
Record Aarch64TaskContext := mkContext {
  x19_x28 : list u64;
  fp : u64;
  lr : u64;
  sp : u64;
  d8_d15 : list u64;
}.

(** [#[derive(Default)]]. *)
Definition context_default : Aarch64TaskContext :=
  mkContext (replicate 10 0%N) 0 0 0 (replicate 8 0%N).

(** The structure in memory, as 21 words of 8 bytes. *)
Definition context_words (c : Aarch64TaskContext) : list u64 :=
  x19_x28 c ++ [fp c; lr c; sp c] ++ d8_d15 c.

Definition words_context (w : list u64) : Aarch64TaskContext :=
  mkContext (take 10 w) (nth 10 w 0%N) (nth 11 w 0%N) (nth 12 w 0%N) (take 8 (drop 13 w)).

Definition context_wf (c : Aarch64TaskContext) : Prop :=
  length (x19_x28 c) = 10 ∧ length (d8_d15 c) = 8.

(** The registers the code names: [X n] is [x<n>], [D n] is [d<n>]. *)
Inductive reg := X (n : N) | D (n : N) | SP.

Global Instance reg_eq_dec : EqDecision reg.
Proof. solve_decision. Defined.

Definition regfile := reg → u64.

Definition set_reg (r : reg) (v : u64) (f : regfile) : regfile :=
  λ r', if decide (r' = r) then v else f r'.

(** ** The instructions of [context_switch_asm] *)

(** The two base registers of the code: [x0] is [current], [x1] is [next]. *)
Inductive base := X0_current | X1_next.

Inductive instr :=
  | STP (r1 r2 : reg) (b : base) (off : N)
  | STR (r : reg) (b : base) (off : N)
  | MOV (dst src : reg)
  | LDP (r1 r2 : reg) (b : base) (off : N)
  | LDR (r : reg) (b : base) (off : N).

Record machine := mkMachine {
  m_regs : regfile;
  m_current : list u64;
  m_next : list u64;
}.

Definition mem_of (b : base) (m : machine) : list u64 :=
  match b with X0_current => m_current m | X1_next => m_next m end.

Definition set_mem (b : base) (w : list u64) (m : machine) : machine :=
  match b with
  | X0_current => mkMachine (m_regs m) w (m_next m)
  | X1_next => mkMachine (m_regs m) (m_current m) w
  end.

(** A byte offset addresses the word [off / 8]. *)
Definition load (b : base) (off : N) (m : machine) : u64 :=
  default 0%N (aget (mem_of b m) (off / 8)%N).

Definition store_word (b : base) (off : N) (v : u64) (m : machine) : machine :=
  set_mem b (aset (mem_of b m) (off / 8)%N v) m.

Definition put_reg (r : reg) (v : u64) (m : machine) : machine :=
  mkMachine (set_reg r v (m_regs m)) (m_current m) (m_next m).

Definition step_instr (i : instr) (m : machine) : machine :=
  match i with
  | STP r1 r2 b off => store_word b (off + 8)%N (m_regs m r2) (store_word b off (m_regs m r1) m)
  | STR r b off => store_word b off (m_regs m r) m
  | MOV dst src => put_reg dst (m_regs m src) m
  | LDP r1 r2 b off =>
      let v1 := load b off m in
      let v2 := load b (off + 8)%N m in
      put_reg r2 v2 (put_reg r1 v1 m)
  | LDR r b off => put_reg r (load b off m) m
  end.

Definition run_asm (code : list instr) (m : machine) : machine :=
  fold_left (λ m i, step_instr i m) code m.

(** The body of [context_switch_asm], up to its [ret]. *)
Definition context_switch_asm : list instr :=
  [ STP (X 19) (X 20) X0_current 0;
    STP (X 21) (X 22) X0_current 16;
    STP (X 23) (X 24) X0_current 32;
    STP (X 25) (X 26) X0_current 48;
    STP (X 27) (X 28) X0_current 64;
    STP (X 29) (X 30) X0_current 80;
    MOV (X 8) SP;
    STR (X 8) X0_current 96;
    STP (D 8) (D 9) X0_current 104;
    STP (D 10) (D 11) X0_current 120;
    STP (D 12) (D 13) X0_current 136;
    STP (D 14) (D 15) X0_current 152;
    LDP (D 14) (D 15) X1_next 152;
    LDP (D 12) (D 13) X1_next 136;
    LDP (D 10) (D 11) X1_next 120;
    LDP (D 8) (D 9) X1_next 104;
    LDR (X 8) X1_next 96;
    MOV SP (X 8);
    LDP (X 29) (X 30) X1_next 80;
    LDP (X 27) (X 28) X1_next 64;
    LDP (X 25) (X 26) X1_next 48;
    LDP (X 23) (X 24) X1_next 32;
    LDP (X 21) (X 22) X1_next 16;
    LDP (X 19) (X 20) X1_next 0 ]%N.

(** The callee-saved registers, in context order. *)
Definition callee_saved : list reg :=
  [X 19; X 20; X 21; X 22; X 23; X 24; X 25; X 26; X 27; X 28; X 29; X 30; SP;
   D 8; D 9; D 10; D 11; D 12; D 13; D 14; D 15]%N.

(** A register file as a context, and a context loaded into one. *)
Definition save_regs (f : regfile) : Aarch64TaskContext := words_context (f <$> callee_saved).

Definition load_regs (c : Aarch64TaskContext) (f : regfile) : regfile := λ r,
  match list_find (λ r', r' = r) callee_saved with
  | Some (k, _) => nth k (context_words c) 0%N
  | None => f r
  end.

(** ** The core *)

Record Core := mkCore {
  daif : usize;
  mpidr : u64;
  registers : regfile;
}.

(** The four mask bits that [msr daifset, #0xf] sets: [DAIF] bits 9 to 6. *)
Definition DAIF_ALL : N := 960%N.

(** [impl Cpu for QemuVirtCpu]. *)
Global Instance QemuVirtCpu : Cpu Core := {|
  current_core_id c := N.land (mpidr c) 255;
  disable_irqs c := (mkIrqState (daif c), mkCore (N.lor (daif c) DAIF_ALL) (mpidr c) (registers c));
  restore_irq_state st c := mkCore (irq_bits st) (mpidr c) (registers c);
  wait_for_interrupt := mret tt;
  instruction_barrier := mret tt;
|}.

(** [impl ContextSwitch for QemuVirtCpu]: the assembly, run on the words of the
    two contexts; [x0] and [x1] hold their addresses. *)
Definition asm_switch (c : Core) (cur next : Aarch64TaskContext) : Core * Aarch64TaskContext :=
  let m := run_asm context_switch_asm (mkMachine (registers c) (context_words cur) (context_words next)) in
  (mkCore (daif c) (mpidr c) (m_regs m), words_context (m_current m)).

Definition init_task_context (c : Core) (ctx : Aarch64TaskContext) (entry stack_top : u64) :
    Aarch64TaskContext :=
  mkContext (x19_x28 ctx) (fp ctx) entry stack_top (d8_d15 ctx).

Global Instance QemuVirtContextSwitch : ContextSwitch Core := {|
  TaskContext := Aarch64TaskContext;
  default_context := context_default;
  context_switch := asm_switch;
  init_context := init_task_context;
|}.

(** ** The assembly against the structure *)

Lemma context_words_inv c :
  context_wf c → ∃ a b c0 d e f g h i j k l m n o p q r s t u,
    context_words c = [a; b; c0; d; e; f; g; h; i; j; k; l; m; n; o; p; q; r; s; t; u].
Proof.
  destruct c as [xs f l s ds]. unfold context_wf. simpl. intros [Hx Hd].
  do 10 (destruct xs as [|? xs]; [done|]). destruct xs; [|done].
  do 8 (destruct ds as [|? ds]; [done|]). destruct ds; [|done].
  unfold context_words. simpl. do 21 eexists. reflexivity.
Qed.

Lemma context_round_trip c : context_wf c → words_context (context_words c) = c.
Proof.
  destruct c as [xs f l s ds]. unfold context_wf. simpl. intros [Hx Hd].
  do 10 (destruct xs as [|? xs]; [done|]). destruct xs; [|done].
  do 8 (destruct ds as [|? ds]; [done|]). destruct ds; [|done]. done.
Qed.

Lemma save_regs_wf f : context_wf (save_regs f).
Proof. done. Qed.

(** The registers an instruction writes; it leaves the others alone. *)
Definition writes (i : instr) : list reg :=
  match i with
  | STP _ _ _ _ | STR _ _ _ => []
  | MOV dst _ => [dst]
  | LDP r1 r2 _ _ => [r1; r2]
  | LDR r _ _ => [r]
  end.

Lemma step_instr_frame i m r : r ∉ writes i → m_regs (step_instr i m) r = m_regs m r.
Proof.
  destruct i as [r1 r2 b off|r1 b off|dst src|r1 r2 b off|r1 b off]; simpl; intros Hr.
  - by destruct b.
  - by destruct b.
  - unfold set_reg. rewrite decide_False; [done|set_solver].
  - unfold set_reg. rewrite !decide_False; [done|set_solver..].
  - unfold set_reg. rewrite decide_False; [done|set_solver].
Qed.

Lemma run_asm_frame code m r : r ∉ concat (writes <$> code) → m_regs (run_asm code m) r = m_regs m r.
Proof.
  unfold run_asm. revert m. induction code as [|i code IH]; intros m Hr; [done|]. simpl in *.
  rewrite IH by set_solver. apply step_instr_frame. set_solver.
Qed.

(** The 24 instructions store the running registers and load the others. *)
Lemma run_context_switch f cur next :
  context_wf cur → context_wf next →
  let m := run_asm context_switch_asm (mkMachine f (context_words cur) (context_words next)) in
  m_current m = context_words (save_regs f) ∧ m_next m = context_words next ∧
  ∀ r, r ≠ X 8 → m_regs m r = load_regs next f r.
Proof.
  intros Hc Hn.
  destruct (context_words_inv cur Hc) as
    (a1&a2&a3&a4&a5&a6&a7&a8&a9&a10&a11&a12&a13&a14&a15&a16&a17&a18&a19&a20&a21&->).
  destruct (context_words_inv next Hn) as
    (b1&b2&b3&b4&b5&b6&b7&b8&b9&b10&b11&b12&b13&b14&b15&b16&b17&b18&b19&b20&b21&Hb).
  unfold load_regs. rewrite Hb. set (m := run_asm _ _). split; [reflexivity|]. split; [reflexivity|].
  intros r Hr. destruct (decide (r ∈ callee_saved)) as [Hin|Hni].
  - unfold m, callee_saved in *. clear m.
    repeat (apply elem_of_cons in Hin as [->|Hin]; [by vm_compute|]).
    by apply not_elem_of_nil in Hin.
  - assert (list_find (λ r', r' = r) callee_saved = None) as ->.
    { apply list_find_None, Forall_forall. intros r' Hr' ->. done. }
    apply (run_asm_frame context_switch_asm). intros Hin.
    assert (Forall (λ r', r' ∈ X 8 :: callee_saved) (concat (writes <$> context_switch_asm))) as Hall
      by (apply (bool_decide_unpack _); by vm_compute).
    rewrite Forall_forall in Hall. apply Hall, elem_of_cons in Hin.
    destruct Hin as [Hin|Hin]; [exact (Hr Hin)|exact (Hni Hin)].
Qed.

(** Loading a context and saving again gives the context. *)
Lemma save_load c f : context_wf c → save_regs (load_regs c f) = c.
Proof.
  intros Hc. rewrite <- (context_round_trip c Hc) at 2. unfold save_regs. f_equal.
  destruct (context_words_inv c Hc) as
    (b1&b2&b3&b4&b5&b6&b7&b8&b9&b10&b11&b12&b13&b14&b15&b16&b17&b18&b19&b20&b21&Hb).
  unfold load_regs. rewrite Hb. by vm_compute.
Qed.

Lemma asm_switch_spec c cur next :
  context_wf cur → context_wf next →
  (asm_switch c cur next).2 = save_regs (registers c) ∧
  save_regs (registers (asm_switch c cur next).1) = next ∧
  daif (asm_switch c cur next).1 = daif c.
Proof.
  intros Hc Hn. destruct (run_context_switch (registers c) cur next Hc Hn) as (H1 & _ & H3).
  unfold asm_switch. cbn [fst snd registers daif]. split_and!; [|..|done].
  - rewrite H1. apply context_round_trip, save_regs_wf.
  - transitivity (save_regs (load_regs next (registers c))); [|by apply save_load].
    unfold save_regs. f_equal.
    apply list_fmap_ext. intros k r Hr. apply H3. intros ->.
    apply list_elem_of_lookup_2 in Hr. revert Hr. apply (bool_decide_unpack _). by vm_compute.
Qed.

#[global] Arguments asm_switch : simpl never.

(** ** The contracts *)

Lemma daif_all_set d : N.land (N.lor d DAIF_ALL) DAIF_ALL = DAIF_ALL.
Proof.
  apply N.bits_inj. intros k. rewrite N.land_spec, N.lor_spec.
  destruct (N.testbit d k), (N.testbit DAIF_ALL k); done.
Qed.

#[refine] Global Instance QemuVirtCpuLaws : CpuLaws Core := {|
  irqs_masked c := bool_decide (N.land (daif c) DAIF_ALL = DAIF_ALL);
|}.
Proof.
  - intros s. apply bool_decide_eq_true. apply daif_all_set.
  - done.
  - by intros [].
Defined.

#[refine] Global Instance QemuVirtContextSwitchLaws : ContextSwitchLaws Core := {|
  Regs := Aarch64TaskContext;
  regs c := save_regs (registers c);
  pc_of := lr;
  stack_of := sp;
  valid := context_wf;
  holds c r := context_wf c ∧ c = r;
|}.
Proof.
  - done.
  - by intros c r [].
  - intros s cur next Hc Hn. destruct (asm_switch_spec s cur next Hc Hn) as (H1 & _ & _).
    split; [|exact H1]. change (context_wf (asm_switch s cur next).2). rewrite H1. apply save_regs_wf.
  - intros s cur next r Hc [Hn ->]. by destruct (asm_switch_spec s cur r Hc Hn) as (_ & ? & _).
  - intros s c entry stack_top Hc. eexists. by split_and!.
  - done.
  - done.
Defined.

(** ** Properties *)

(** C19: the assembly of [context_switch_asm] is right. Run on any register file
    and on the memory of two [Aarch64TaskContext]s, its 24 instructions leave in
    [*current] exactly the AAPCS64 callee-saved registers of the caller (x19 to
    x30, sp, d8 to d15), at the [repr(C)] offsets; leave [*next] unchanged; load
    exactly the registers [*next] holds; and leave every other register but the
    scratch register x8 alone. *)
Theorem context_switch_asm_exact (f : regfile) (cur next : Aarch64TaskContext) :
  context_wf cur → context_wf next →
  let m := run_asm context_switch_asm (mkMachine f (context_words cur) (context_words next)) in
  words_context (m_current m) = save_regs f ∧ m_next m = context_words next ∧
  save_regs (m_regs m) = next ∧
  ∀ r, r ∉ callee_saved → r ≠ X 8 → m_regs m r = f r.
Proof.
  intros Hc Hn m. destruct (run_context_switch f cur next Hc Hn) as (H1 & H2 & H3). fold m in H1, H2, H3.
  split_and!.
  - rewrite H1. apply context_round_trip, save_regs_wf.
  - done.
  - by destruct (asm_switch_spec (mkCore 0 0 f) cur next Hc Hn) as (_ & ? & _).
  - intros r Hr H8. rewrite (H3 r H8). unfold load_regs.
    assert (list_find (λ r', r' = r) callee_saved = None) as ->; [|done].
    apply list_find_None, Forall_forall. by intros r' Hr' ->.
Qed.

Lemma context_switch_asm_exact_witness :
  let f := (λ r, match r with X n => n | D n => 100 + n | SP => 4096 end)%N in
  let next := mkContext (replicate 10 7%N) 1 2 3 (replicate 8 9%N) in
  let m := run_asm context_switch_asm (mkMachine f (context_words context_default) (context_words next)) in
  lr (words_context (m_current m)) = 30%N ∧
  words_context (m_current m) = save_regs f ∧ m_next m = context_words next ∧
  save_regs (m_regs m) = next ∧ ∀ r, r ∉ callee_saved → r ≠ X 8 → m_regs m r = f r.
Proof.
  intros f next m. split; [by vm_compute|].
  apply (context_switch_asm_exact f context_default next); done.
Defined.

(** The contract of [Cpu] is met, so guards nest on this core. *)
Lemma irq_guards_nest_witness :
  let s := mkCore 0 0 (λ _, 0%N) in
  let body := λ c : Core, mkCore 960 7 (registers c) in
  irqs_masked (nested 2 body s) = irqs_masked s ∧ nested 2 (λ s', s') s = s ∧
  (∀ f, (∀ s', irqs_masked s' = true → body s' = f s') → nested 2 body s = nested 2 f s).
Proof. intros s body. apply (irq_guards_nest 2 body s). lia. Defined.
