(* ===== verification/Asm.v ===== *)
(** * Assembly sections

    The two assembly files of the board, [boot.s] and [vectors.s], are lists of
    source lines: labels, instructions, and [.balign] directives. [instr_at] and
    [label_at] place them as the assembler does, four bytes to an instruction, so
    that the offsets the processor uses (an exception vector, a return address)
    are computed from the text and not written down. What the instructions do is
    in [Reset.v] and [Vectors.v]. *)

From stdpp Require Import prelude.
From Stdlib Require Import Lia NArith.
From S2P Require Import Prelude QemuCpu.

(** A line of a section, with instructions [I] and labels [L]. *)
Inductive line (I L : Type) :=
  | Balign (n : N)
  | Label (l : L)
  | Ins (i : I).
Global Arguments Balign {_ _} n.
Global Arguments Label {_ _} l.
Global Arguments Ins {_ _} i.

(** [.balign n]. *)
Definition align_up (n off : N) : N := ((off + (n - 1)) / n * n)%N.

(** Where the processor executes: at an offset of the section, or at an address
    outside it. *)
Inductive pc := InText (off : N) | Elsewhere (addr : u64).

Section section.
Context {I L : Type} `{!EqDecision L}.
Implicit Types (src : list (line I L)) (off : N).

(** Every instruction with its offset, from the location counter [off] on. *)
Fixpoint placed off src : list (N * I) :=
  match src with
  | [] => []
  | Balign n :: src => placed (align_up n off) src
  | Label _ :: src => placed off src
  | Ins i :: src => (off, i) :: placed (off + 4) src
  end.

Fixpoint label_from off src (l : L) : option N :=
  match src with
  | [] => None
  | Balign n :: src => label_from (align_up n off) src l
  | Label l' :: src => if decide (l' = l) then Some off else label_from off src l
  | Ins _ :: src => label_from (off + 4) src l
  end.

Fixpoint end_from off src : N :=
  match src with
  | [] => off
  | Balign n :: src => end_from (align_up n off) src
  | Label _ :: src => end_from off src
  | Ins _ :: src => end_from (off + 4) src
  end.

Definition instr_at src off : option I :=
  (λ p, p.2.2) <$> list_find (λ p, p.1 = off) (placed 0 src).

Definition label_at src (l : L) : N := default 0%N (label_from 0 src l).

Definition text_size src : N := end_from 0 src.

(** The section is loaded at [base]. *)
Definition resolve (base size addr : N) : pc :=
  if decide (base ≤ addr < base + size)%N then InText (addr - base) else Elsewhere addr.

Lemma resolve_in base size off : (off < size)%N → resolve base size (base + off) = InText off.
Proof.
  intros Ho. unfold resolve. rewrite decide_True by lia. f_equal. lia.
Qed.

(** [code] stands at [off]. *)
Definition code_at src off (code : list I) : Prop :=
  ∀ k i, code !! k = Some i → instr_at src (off + 4 * N.of_nat k) = Some i.

(** ... which evaluation decides. *)
Lemma code_at_compute src off code :
  ((λ k, instr_at src (off + 4 * N.of_nat k)) <$> seq 0 (length code)) = Some <$> code →
  code_at src off code.
Proof.
  intros Heq k i Hk. pose proof (lookup_lt_Some _ _ _ Hk) as Hlt.
  apply (f_equal (.!! k)) in Heq. rewrite !list_lookup_fmap, Hk, lookup_seq_lt in Heq by done.
  by injection Heq.
Qed.

Lemma code_at_cons src off i code :
  code_at src off (i :: code) → instr_at src off = Some i ∧ code_at src (off + 4) code.
Proof.
  intros Hc. split; [specialize (Hc 0 i eq_refl); by rewrite N.add_0_r in Hc|].
  intros k j Hk. specialize (Hc (S k) j Hk). rewrite <- Hc. f_equal. lia.
Qed.
End section.

(** ** Memory

    Memory is read and written in aligned doublewords; [m a] is the one at
    address [a]. *)

Abbreviation memory := (N → u64) (only parsing).

Definition store (a : N) (v : u64) (m : memory) : memory := λ a', if decide (a' = a) then v else m a'.

(** Doublewords stored at offsets from [b], in order. *)
Definition stores (b : N) (l : list (N * u64)) (m : memory) : memory :=
  fold_left (λ m p, store (b + p.1) p.2 m) l m.

Lemma stores_outside b l m a : Forall (λ p, a ≠ b + p.1)%N l → stores b l m a = m a.
Proof.
  unfold stores. intros Hl. revert m. induction Hl as [|[o v] l Ho Hl IH]; intros m; [done|].
  simpl in *. rewrite IH. unfold store. by rewrite decide_False.
Qed.

Lemma stores_lookup b l m o v :
  NoDup l.*1 → (o, v) ∈ l → stores b l m (b + o)%N = v.
Proof.
  unfold stores. revert m. induction l as [|[o' v'] l IH]; intros m Hnd Hin.
  { by apply not_elem_of_nil in Hin. }
  simpl in *. apply NoDup_cons in Hnd as [Hni Hnd]. apply elem_of_cons in Hin as [Heq|Hin]; [|by apply IH].
  injection Heq as -> ->. change (stores b l (store (b + o') v' m) (b + o')%N = v').
  rewrite stores_outside.
  - unfold store. by rewrite decide_True.
  - apply Forall_forall. intros [o v] Ho Heq. apply Hni, list_elem_of_fmap. exists (o, v).
    split; [simpl; simpl in Heq; lia|done].
Qed.

Lemma set_reg_eq r v f : set_reg r v f r = v.
Proof. unfold set_reg. by rewrite decide_True. Qed.

Lemma set_reg_ne r r' v f : r' ≠ r → set_reg r v f r' = f r'.
Proof. intros Hr. unfold set_reg. by rewrite decide_False. Qed.
