(* ===== verification/Gic.v ===== *)
(** * [bsp-qemu-virt/src/gic.rs]: the [GICv2] driver

    The driver reaches the controller through volatile loads and stores at two
    base addresses. The bus is a parameter ([Bus]); what the driver relies on of
    the hardware behind it, the [GICv2] architecture (ARM IHI 0048B), is the class
    [GicV2], whose laws are the register descriptions of that document for the
    registers the driver uses. [Gic400] is a concrete controller that has them. *)

From stdpp Require Import prelude.
From Stdlib Require Import Lia NArith.
From S2P Require Import Prelude HalIrq.

(** [read_volatile] and [write_volatile] at an address; a read may change the
    device behind it. *)
Class Bus (B : Type) := {
  read_volatile : usize → B → u32 * B;
  write_volatile : usize → u32 → B → B;
}.

Definition QEMU_VIRT_GIC_DISTRIBUTOR_BASE : usize := 0x08000000%N.
Definition QEMU_VIRT_GIC_CPU_INTERFACE_BASE : usize := 0x08010000%N.

Definition GICD_CTLR : usize := 0x000%N.
Definition GICD_TYPER : usize := 0x004%N.
Definition GICD_ISENABLER_BASE : usize := 0x100%N.
Definition GICD_ICENABLER_BASE : usize := 0x180%N.
Definition GICD_IPRIORITYR_BASE : usize := 0x400%N.
Definition GICD_ITARGETSR_BASE : usize := 0x800%N.
Definition GICC_CTLR : usize := 0x000%N.
Definition GICC_PMR : usize := 0x004%N.
Definition GICC_IAR : usize := 0x00C%N.
Definition GICC_EOIR : usize := 0x010%N.

Definition GIC_SPURIOUS_INTID : u32 := 1023%N.
Definition GICC_IAR_INTID_MASK : u32 := 0x3FF%N.
Definition FIRST_SPI : usize := 32%N.
Definition DEFAULT_PRIORITY_BYTE : u32 := 0xA0%N.
Definition TARGET_CPU0_BYTE : u32 := 0x01%N.
Definition GIC_MAX_IRQ : u32 := 1020%N.

Record QemuVirtGic := mkGic { distributor_base : usize; cpu_interface_base : usize }.

(** A byte repeated four times: [b | (b << 8) | (b << 16) | (b << 24)]. *)
Definition four_bytes (b : u32) : u32 :=
  N.lor (N.lor (N.lor b (N.shiftl b 8)) (N.shiftl b 16)) (N.shiftl b 24).

Section driver.
Context {B : Type} `{!Bus B} (gic : QemuVirtGic).

Abbreviation Io := (M B Empty_set).

Definition read_distributor (offset : usize) (b : B) : u32 * B :=
  read_volatile (saturating_add 64 (distributor_base gic) offset) b.
Definition write_distributor (offset : usize) (value : u32) (b : B) : B :=
  write_volatile (saturating_add 64 (distributor_base gic) offset) value b.
Definition read_cpu_interface (offset : usize) (b : B) : u32 * B :=
  read_volatile (saturating_add 64 (cpu_interface_base gic) offset) b.
Definition write_cpu_interface (offset : usize) (value : u32) (b : B) : B :=
  write_volatile (saturating_add 64 (cpu_interface_base gic) offset) value b.

(** A read and a write as statements. *)
Definition io_read (f : B → u32 * B) : Io u32 := λ b, let '(v, b') := f b in Done v b'.
Definition io_write (f : B → B) : Io unit := modify f.

(** The loop of step 3 of [init]. *)
Fixpoint mask_spis (fuel : nat) (n irq_count : usize) : Io unit :=
  match fuel with
  | O => diverge
  | S fuel =>
      if (saturating_mul 64 n 32 <? irq_count)%N then
        io_write (write_distributor
          (saturating_add 64 GICD_ICENABLER_BASE (saturating_mul 64 n 4)) 0xFFFFFFFF);;
        mask_spis fuel (saturating_add 64 n 1) irq_count
      else mret tt
  end.

(** The loops of steps 4 and 5. *)
Fixpoint fill_spis (fuel : nat) (register word : N) (byte_idx irq_count : usize) : Io unit :=
  match fuel with
  | O => diverge
  | S fuel =>
      if (byte_idx <? irq_count)%N then
        io_write (write_distributor (saturating_add 64 register byte_idx) word);;
        fill_spis fuel register word (saturating_add 64 byte_idx 4) irq_count
      else mret tt
  end.

(** At most 1024 lines: a loop makes at most 248 rounds and one more test. *)
Definition loop_bound : nat := 249.

(** [QemuVirtGic::init]. *)
Definition init : Io unit :=
  io_write (write_distributor GICD_CTLR 0);;
  typer ← io_read (read_distributor GICD_TYPER);
  let it_lines_field := N.land typer 0x1F in
  let irq_count := saturating_mul 64 (saturating_add 64 it_lines_field 1) 32 in
  mask_spis loop_bound 1 irq_count;;
  fill_spis loop_bound GICD_IPRIORITYR_BASE (four_bytes DEFAULT_PRIORITY_BYTE) FIRST_SPI irq_count;;
  fill_spis loop_bound GICD_ITARGETSR_BASE (four_bytes TARGET_CPU0_BYTE) FIRST_SPI irq_count;;
  io_write (write_distributor GICD_CTLR 1);;
  io_write (write_cpu_interface GICC_PMR 0xFF);;
  io_write (write_cpu_interface GICC_CTLR 1).

(** ** [impl IrqController for QemuVirtGic] *)

Definition gic_enable (irq : IrqNumber) : Io unit :=
  if negb (irq_id irq <? GIC_MAX_IRQ)%N then panic else
  let n := irq_id irq in
  let reg_offset := saturating_add 64 GICD_ISENABLER_BASE (saturating_mul 64 (n / 32) 4) in
  let bit := wrap 32 (N.shiftl 1 (n mod 32)) in
  io_write (write_distributor reg_offset bit).

Definition gic_disable (irq : IrqNumber) : Io unit :=
  if negb (irq_id irq <? GIC_MAX_IRQ)%N then panic else
  let n := irq_id irq in
  let reg_offset := saturating_add 64 GICD_ICENABLER_BASE (saturating_mul 64 (n / 32) 4) in
  let bit := wrap 32 (N.shiftl 1 (n mod 32)) in
  io_write (write_distributor reg_offset bit).

Definition gic_acknowledge : Io (option IrqNumber) :=
  raw ← io_read (read_cpu_interface GICC_IAR);
  let intid := N.land raw GICC_IAR_INTID_MASK in
  if (intid =? GIC_SPURIOUS_INTID)%N then mret None else mret (Some (mkIrq intid)).

Definition gic_end_of_interrupt (irq : IrqNumber) : Io unit :=
  io_write (write_cpu_interface GICC_EOIR (irq_id irq)).
End driver.

Global Instance QemuVirtGicController {B} `{!Bus B} : IrqController QemuVirtGic B := {|
  irq_enable := gic_enable;
  irq_disable := gic_disable;
  acknowledge := gic_acknowledge;
  end_of_interrupt := gic_end_of_interrupt;
|}.

(** ** The hardware the driver relies on *)

(** What software can observe of the configuration of a controller. *)
Record GicView := mkView {
  it_lines : N;
  line_enabled : N → bool;
  line_priority : N → N;
  routed_to_cpu0 : N → bool;
  forwarding : bool;
  signalling : bool;
  passes_mask : N → bool;
  split_eoi : bool;
}.

(** The lines the controller implements, past the software-generated ones, and
    the shared ones among them. *)
Definition known_line (v : GicView) (j : N) : Prop :=
  (16 ≤ j)%N ∧ (j < 32 * (it_lines v + 1))%N ∧ (j < GIC_MAX_IRQ)%N.
Definition spi (v : GicView) (j : N) : Prop := known_line v j ∧ (32 ≤ j)%N.

(** The byte of a word that a byte-wide register field of line [j] occupies. *)
Definition byte_of (v : u32) (j : N) : N := N.land (N.shiftr v (8 * (j mod 4))) 255.

Class GicV2 (B : Type) `{!Bus B} (gic : QemuVirtGic) := {
  view : B → GicView;
  active : B → N → bool;
  top_pending : B → option N;
  (** [GICD_TYPER.ITLinesNumber]; read-only. *)
  it_lines_lt b : (it_lines (view b) < 32)%N;
  typer_field b : N.land (read_distributor gic GICD_TYPER b).1 0x1F = it_lines (view b);
  typer_readonly b : (read_distributor gic GICD_TYPER b).2 = b;
  dist_it_lines off v b : it_lines (view (write_distributor gic off v b)) = it_lines (view b);
  (** [GICD_ISENABLERn] and [GICD_ICENABLERn] set and clear the bits written as 1. *)
  dist_enabled off v b j :
    known_line (view b) j → (off mod 4 = 0)%N → (off < 0x1000)%N →
    line_enabled (view (write_distributor gic off v b)) j =
      if decide (off = 0x100 + 4 * (j / 32))%N then line_enabled (view b) j || N.testbit v (j mod 32)
      else if decide (off = 0x180 + 4 * (j / 32))%N then
        line_enabled (view b) j && negb (N.testbit v (j mod 32))
      else line_enabled (view b) j;
  (** [GICD_IPRIORITYRn]: a byte per line, of which at least the upper four bits
      are implemented. *)
  dist_priority off v b j :
    spi (view b) j → (off mod 4 = 0)%N → (off < 0x1000)%N →
    (off = 0x400 + 4 * (j / 4) → N.land (byte_of v j) 15 = 0)%N →
    line_priority (view (write_distributor gic off v b)) j =
      if decide (off = 0x400 + 4 * (j / 4))%N then byte_of v j else line_priority (view b) j;
  (** [GICD_ITARGETSRn]: a byte per line, a bit per core. (With one core, every
      line is routed to it and the register ignores writes.) *)
  dist_routed off v b j :
    spi (view b) j → (off mod 4 = 0)%N → (off < 0x1000)%N →
    (off = 0x800 + 4 * (j / 4) → byte_of v j = 1)%N →
    routed_to_cpu0 (view (write_distributor gic off v b)) j =
      if decide (off = 0x800 + 4 * (j / 4))%N then true else routed_to_cpu0 (view b) j;
  (** [GICD_CTLR.Enable]. *)
  dist_forwarding off v b :
    (off < 0x1000)%N → forwarding (view (write_distributor gic off v b)) =
      if decide (off = 0)%N then N.testbit v 0 else forwarding (view b);
  (** The CPU interface is not configured through the distributor. *)
  dist_interface off v b :
    (off < 0x1000)%N → let b' := write_distributor gic off v b in
    signalling (view b') = signalling (view b) ∧ passes_mask (view b') = passes_mask (view b) ∧
    split_eoi (view b') = split_eoi (view b);
  (** ... nor the distributor through the CPU interface. *)
  cpu_distributor off v b :
    (off < 0x1000)%N → let b' := write_cpu_interface gic off v b in
    it_lines (view b') = it_lines (view b) ∧ line_enabled (view b') = line_enabled (view b) ∧
    line_priority (view b') = line_priority (view b) ∧
    routed_to_cpu0 (view b') = routed_to_cpu0 (view b) ∧ forwarding (view b') = forwarding (view b);
  (** [GICC_CTLR.Enable] and [GICC_CTLR.EOImode]. *)
  cpu_control off v b :
    (off < 0x1000)%N → let b' := write_cpu_interface gic off v b in
    signalling (view b') = (if decide (off = 0)%N then N.testbit v 0 else signalling (view b)) ∧
    split_eoi (view b') = (if decide (off = 0)%N then N.testbit v 9 else split_eoi (view b));
  (** [GICC_PMR]: priorities above (numerically below) the mask pass; at least the
      upper four bits are implemented. *)
  cpu_mask off v b p :
    (off < 0x1000)%N → (off = 4 → p < N.land v 0xF0)%N →
    passes_mask (view (write_cpu_interface gic off v b)) p =
      if decide (off = 4)%N then true else passes_mask (view b) p;
  (** Reading [GICC_IAR] returns and activates the interrupt that is signalled,
      or returns 1023. *)
  top_pending_lt b j : top_pending b = Some j → (j < GIC_MAX_IRQ)%N;
  iar_id b :
    N.land (read_cpu_interface gic GICC_IAR b).1 0x3FF = default 1023%N (top_pending b);
  iar_view b : view (read_cpu_interface gic GICC_IAR b).2 = view b;
  iar_active b j :
    active (read_cpu_interface gic GICC_IAR b).2 j =
      active b j || bool_decide (top_pending b = Some j);
  (** Writing [GICC_EOIR] deactivates, unless [EOImode] separates the two. *)
  eoir_active v b j :
    split_eoi (view b) = false → (v < GIC_MAX_IRQ)%N →
    active (write_cpu_interface gic GICC_EOIR v b) j = active b j && negb (bool_decide (j = v));
}.

(** ** What the driver's loops write *)

(** Two 64-bit operands whose result fits do not saturate. *)
Lemma saturating_add_small x y : (x + y < 2 ^ 64)%N → saturating_add 64 x y = (x + y)%N.
Proof. unfold saturating_add, umax. lia. Qed.

Lemma saturating_mul_small x y : (x * y < 2 ^ 64)%N → saturating_mul 64 x y = (x * y)%N.
Proof. unfold saturating_mul, umax. lia. Qed.

Lemma testbit_ones32 k : (k < 32)%N → N.testbit 0xFFFFFFFF k = true.
Proof. intros Hk. change 0xFFFFFFFF%N with (N.ones 32). by apply N.ones_spec_low. Qed.

(** Every byte of [four_bytes b] is [b]. *)
Lemma byte_of_four b j : (b < 256)%N → byte_of (four_bytes b) j = b.
Proof.
  intros Hb. unfold byte_of, four_bytes. change 255%N with (N.ones 8).
  assert (∀ n, (8 ≤ n)%N → N.testbit b n = false) as Hhi by (by apply in_width_testbit).
  apply N.bits_inj. intros k. rewrite N.land_spec.
  destruct (N.lt_ge_cases k 8) as [Hk|Hk]; [|by rewrite N.ones_spec_high, andb_false_r, Hhi].
  rewrite N.ones_spec_low, andb_true_r, N.shiftr_spec', !N.lor_spec by done.
  assert (∀ m n, (n < m)%N → N.testbit (N.shiftl b m) n = false) as Hl by (intros; by apply N.shiftl_spec_low).
  assert (∀ m n, (m ≤ n)%N → N.testbit (N.shiftl b m) n = N.testbit b (n - m)) as Hh
    by (intros; by apply N.shiftl_spec_high').
  pose proof (N.mod_lt j 4 ltac:(done)) as Hj. generalize dependent (j mod 4)%N. intros q Hj.
  assert (q = 0 ∨ q = 1 ∨ q = 2 ∨ q = 3)%N as [-> | [-> | [-> | ->]]] by lia.
  - rewrite !Hl by lia. rewrite !orb_false_r. f_equal. lia.
  - rewrite (Hhi (k + 8 * 1)%N), (Hh 8%N), (Hl 16%N), (Hl 24%N) by lia.
    rewrite !orb_false_r, orb_false_l. f_equal. lia.
  - rewrite (Hhi (k + 8 * 2)%N), (Hh 8%N), (Hh 16%N), (Hl 24%N), (Hhi (k + 8 * 2 - 8)%N) by lia.
    rewrite !orb_false_r, !orb_false_l. f_equal. lia.
  - rewrite (Hhi (k + 8 * 3)%N), (Hh 8%N), (Hh 16%N), (Hh 24%N) by lia.
    rewrite (Hhi (k + 8 * 3 - 8)%N), (Hhi (k + 8 * 3 - 16)%N) by lia.
    rewrite !orb_false_l. f_equal. lia.
Qed.

Section words.
Context {B : Type} `{!Bus B} (gic : QemuVirtGic).

(** [len] writes of the same word to consecutive registers, from the [a]-th. *)
Definition write_words (base word : N) (a len : nat) (b : B) : B :=
  foldl (λ b i, write_distributor gic (base + 4 * N.of_nat i) word b) b (seq a len).

Lemma fill_spis_run fuel base word a len b :
  len < fuel → (base + 4 * N.of_nat (a + len) < 2 ^ 64)%N →
  fill_spis gic fuel base word (4 * N.of_nat a) (4 * N.of_nat (a + len)) b =
    Done tt (write_words base word a len b).
Proof.
  revert fuel a b. induction len as [|len IH]; intros fuel a b Hf Hbase;
    (destruct fuel as [|fuel]; [lia|]); simpl.
  - rewrite Nat.add_0_r, N.ltb_irrefl. done.
  - rewrite (proj2 (N.ltb_lt _ _)) by lia. unfold mbind, M_bind, io_write, modify.
    rewrite (saturating_add_small (4 * N.of_nat a) 4) by lia.
    replace (4 * N.of_nat a + 4)%N with (4 * N.of_nat (Datatypes.S a))%N by lia.
    rewrite Nat.add_succ_r, <- Nat.add_succ_l in Hbase |- *.
    rewrite IH by lia. rewrite saturating_add_small by lia. done.
Qed.

Lemma mask_spis_run fuel a len b :
  len < fuel → (32 * N.of_nat (a + len) < 2 ^ 60)%N →
  mask_spis gic fuel (N.of_nat a) (32 * N.of_nat (a + len)) b =
    Done tt (write_words GICD_ICENABLER_BASE 0xFFFFFFFF a len b).
Proof.
  revert fuel a b. induction len as [|len IH]; intros fuel a b Hf Hbase;
    (destruct fuel as [|fuel]; [lia|]); simpl; rewrite (saturating_mul_small _ 32) by lia.
  - rewrite Nat.add_0_r, (N.mul_comm _ 32), N.ltb_irrefl. done.
  - rewrite (proj2 (N.ltb_lt _ _)) by lia. unfold mbind, M_bind, io_write, modify.
    rewrite (saturating_add_small (N.of_nat a) 1) by lia.
    replace (N.of_nat a + 1)%N with (N.of_nat (Datatypes.S a)) by lia.
    rewrite Nat.add_succ_r, <- Nat.add_succ_l in Hbase |- *.
    rewrite IH by lia. unfold GICD_ICENABLER_BASE.
    rewrite (saturating_mul_small _ 4), saturating_add_small by lia.
    by rewrite (N.mul_comm _ 4).
Qed.

(** What a block of writes does to an observation [obs], in states where [ok]
    holds: it becomes [val] if the register it depends on, the [q]-th, is in the
    block. *)
Lemma write_words_obs {A} (ok : B → Prop) (obs : B → A) base word a len q val b :
  (∀ i b, a ≤ i < a + len → ok b →
     ok (write_distributor gic (base + 4 * N.of_nat i) word b) ∧
     obs (write_distributor gic (base + 4 * N.of_nat i) word b) =
       if decide (N.of_nat i = q) then val else obs b) →
  ok b →
  ok (write_words base word a len b) ∧
  obs (write_words base word a len b) =
    if decide (N.of_nat a ≤ q < N.of_nat (a + len))%N then val else obs b.
Proof.
  unfold write_words. revert a b. induction len as [|len IH]; intros a b Hstep Hok; cbn [seq foldl].
  - split; [done|]. rewrite decide_False; [done|]. lia.
  - destruct (Hstep a b ltac:(lia) Hok) as [Hok' Hobs].
    destruct (IH (Datatypes.S a) _ (λ i b' Hi, Hstep i b' ltac:(lia)) Hok') as [Hok'' Hobs'].
    split; [exact Hok''|]. rewrite Hobs', Hobs.
    repeat case_decide; try done; lia.
Qed.

Lemma write_words_frame {A} (ok : B → Prop) (obs : B → A) base word a len b :
  (∀ i b, a ≤ i < a + len → ok b →
     ok (write_distributor gic (base + 4 * N.of_nat i) word b) ∧
     obs (write_distributor gic (base + 4 * N.of_nat i) word b) = obs b) →
  ok b → ok (write_words base word a len b) ∧ obs (write_words base word a len b) = obs b.
Proof.
  intros Hstep Hok.
  destruct (write_words_obs ok obs base word a len (N.of_nat (a + len)) (obs b) b) as [? ->]; [|done|].
  - intros i b' Hi Hb'. rewrite decide_False by lia. by apply Hstep.
  - split; [done|]. by case_decide.
Qed.
End words.

(** ** The controller after [init] *)

Section hardware.
Context {B : Type} `{!Bus B} (gic : QemuVirtGic) `{!GicV2 B gic}.
Implicit Types (b : B) (j : N).

(** A register of the distributor at a multiple of 4. *)
Definition word_at (base : N) (i : nat) : N := (base + 4 * N.of_nat i)%N.

(** [lines_ok n]: the state has [n] as [ITLinesNumber]. *)
Definition lines_ok (n : N) b : Prop := it_lines (view b) = n.

Lemma lines_ok_write n off v b : lines_ok n b → lines_ok n (write_distributor gic off v b).
Proof. unfold lines_ok. by rewrite dist_it_lines. Qed.

Lemma known_line_lines v v' j : it_lines v = it_lines v' → known_line v j → known_line v' j.
Proof. unfold known_line. by intros ->. Qed.

Lemma line_registers v j :
  known_line v j → (j / 32 < 32)%N ∧ (j / 4 < 256)%N ∧ (it_lines v < 32 → j / 32 ≤ it_lines v)%N.
Proof.
  intros (_ & H1 & H2). unfold GIC_MAX_IRQ in H2.
  split_and!; [apply N.Div0.div_lt_upper_bound; lia..|].
  intros _. apply N.lt_succ_r, N.Div0.div_lt_upper_bound. lia.
Qed.

Lemma aligned base (k : N) : (base mod 4 = 0)%N → ((base + 4 * k) mod 4 = 0)%N.
Proof. intros Hb. by rewrite (N.mul_comm 4), N.Div0.mod_add. Qed.

(** What each block of [init] does to a line. *)
Lemma mask_block n a len b j :
  lines_ok n b → known_line (view b) j → (N.of_nat (a + len) ≤ 32)%N →
  let b' := write_words gic GICD_ICENABLER_BASE 0xFFFFFFFF a len b in
  lines_ok n b' ∧
  line_enabled (view b') j =
    (if decide (N.of_nat a ≤ j / 32 < N.of_nat (a + len))%N then false else line_enabled (view b) j).
Proof.
  intros Hn Hj Hlen. destruct (line_registers _ _ Hj) as (Hw & _).
  apply (write_words_obs gic (lines_ok n) (λ b, line_enabled (view b) j)); [|done].
  intros i b' Hi Hb'. split; [by apply lines_ok_write|]. unfold GICD_ICENABLER_BASE.
  rewrite dist_enabled;
    [|apply (known_line_lines (view b)); [congruence|done]|by apply aligned|lia].
  rewrite testbit_ones32 by (by apply N.mod_lt).
  rewrite decide_False by lia. cbn [negb]. rewrite andb_false_r.
  repeat case_decide; done || lia.
Qed.

Lemma fill_enabled n base word len b j :
  lines_ok n b → known_line (view b) j → (base = 0x400 ∨ base = 0x800)%N →
  (N.of_nat (8 + len) ≤ 256)%N →
  line_enabled (view (write_words gic base word 8 len b)) j = line_enabled (view b) j.
Proof.
  intros Hn Hj Hbase Hlen. destruct (line_registers _ _ Hj) as (Hw & Hq & _).
  pose proof (N.le_0_l (j / 32)) as Hq0.
  apply (write_words_frame gic (lines_ok n) (λ b, line_enabled (view b) j)); [|done].
  intros i b' Hi Hb'. split; [by apply lines_ok_write|].
  rewrite dist_enabled.
  - rewrite !decide_False by lia. done.
  - apply (known_line_lines (view b)); [congruence|done].
  - apply aligned. by destruct Hbase as [-> | ->].
  - lia.
Qed.

Lemma fill_block n (base word : N) len b j :
  lines_ok n b → spi (view b) j → (base = 0x400 ∧ byte_of word j = 0xA0 ∨ base = 0x800 ∧ byte_of word j = 1)%N →
  (N.of_nat (8 + len) ≤ 256)%N →
  let b' := write_words gic base word 8 len b in
  let hit := bool_decide (8 ≤ j / 4 < N.of_nat (8 + len))%N in
  (line_priority (view b') j =
    if bool_decide (base = 0x400)%N && hit then 0xA0%N else line_priority (view b) j) ∧
  (routed_to_cpu0 (view b') j =
    if bool_decide (base = 0x800)%N && hit then true else routed_to_cpu0 (view b) j).
Proof.
  intros Hn Hj Hbase Hlen. destruct Hj as [Hj H32]. destruct (line_registers _ _ Hj) as (Hw & Hq & _).
  pose proof (N.le_0_l (j / 4)) as Hq0.
  assert (∀ b', lines_ok n b' → spi (view b') j) as Hspi.
  { intros b' Hb'. split; [|done]. apply (known_line_lines (view b)); [congruence|done]. }
  assert (base mod 4 = 0)%N as Hmod by (by destruct Hbase as [[-> _]|[-> _]]).
  split_and!.
  - destruct Hbase as [[-> Hbyte]|[-> Hbyte]].
    + rewrite (bool_decide_true (_ = _)), andb_true_l by done.
      destruct (write_words_obs gic (lines_ok n) (λ b, line_priority (view b) j) 0x400 word 8 len
        (j / 4)%N 0xA0%N b) as [_ ->]; [|done|rewrite bool_decide_decide; by repeat case_decide].
      intros i b' Hi Hb'. split; [by apply lines_ok_write|].
      rewrite dist_priority by (apply Hspi || apply aligned || lia || rewrite ?Hbyte; done).
      rewrite Hbyte. repeat case_decide; done || lia.
    + rewrite (bool_decide_false (_ = _)) by done.
      apply (write_words_frame gic (lines_ok n) (λ b, line_priority (view b) j)); [|done].
      intros i b' Hi Hb'. split; [by apply lines_ok_write|].
      rewrite dist_priority by (try apply Hspi; try apply aligned; done || lia).
      rewrite decide_False by lia. done.
  - destruct Hbase as [[-> Hbyte]|[-> Hbyte]].
    + rewrite (bool_decide_false (_ = _)) by done.
      apply (write_words_frame gic (lines_ok n) (λ b, routed_to_cpu0 (view b) j)); [|done].
      intros i b' Hi Hb'. split; [by apply lines_ok_write|].
      rewrite dist_routed by (try apply Hspi; try apply aligned; done || lia || (intros; exfalso; lia)).
      rewrite decide_False by lia. done.
    + rewrite (bool_decide_true (_ = _)), andb_true_l by done.
      destruct (write_words_obs gic (lines_ok n) (λ b, routed_to_cpu0 (view b) j) 0x800 word 8 len
        (j / 4)%N true b) as [_ ->]; [|done|rewrite bool_decide_decide; by repeat case_decide].
      intros i b' Hi Hb'. split; [by apply lines_ok_write|].
      rewrite dist_routed by (try apply Hspi; try apply aligned; done || lia || (intros; exfalso; lia)).
      repeat case_decide; done || lia.
Qed.

(** The configuration registers past the lines. *)
Lemma block_global n base word a len b :
  lines_ok n b → (base + 4 * N.of_nat (a + len) ≤ 0x1000)%N → (0 < base)%N →
  let b' := write_words gic base word a len b in
  lines_ok n b' ∧ (forwarding (view b'), (signalling (view b'), passes_mask (view b'), split_eoi (view b'))) =
    (forwarding (view b), (signalling (view b), passes_mask (view b), split_eoi (view b))).
Proof.
  intros Hn Hoff Hbase.
  apply (write_words_frame gic (lines_ok n) (λ b,
    (forwarding (view b), (signalling (view b), passes_mask (view b), split_eoi (view b))))); [|done].
  intros i b' Hi Hb'. split; [by apply lines_ok_write|].
  destruct (dist_interface (base + 4 * N.of_nat i) word b') as (-> & -> & ->); [lia|].
  rewrite dist_forwarding, decide_False by lia. done.
Qed.

(** The state [init] leaves, as the sequence of its writes. *)
Definition init_state b : B :=
  let it := N.to_nat (it_lines (view b)) in
  let b := write_distributor gic GICD_CTLR 0 b in
  let b := write_words gic GICD_ICENABLER_BASE 0xFFFFFFFF 1 it b in
  let b := write_words gic GICD_IPRIORITYR_BASE (four_bytes DEFAULT_PRIORITY_BYTE) 8 (8 * it) b in
  let b := write_words gic GICD_ITARGETSR_BASE (four_bytes TARGET_CPU0_BYTE) 8 (8 * it) b in
  let b := write_distributor gic GICD_CTLR 1 b in
  let b := write_cpu_interface gic GICC_PMR 0xFF b in
  write_cpu_interface gic GICC_CTLR 1 b.

Lemma init_run b : init gic b = Done tt (init_state b).
Proof.
  pose proof (it_lines_lt b) as Hit. unfold init, mbind, M_bind. cbn [io_write modify].
  unfold io_read. pose proof (typer_field (write_distributor gic GICD_CTLR 0 b)) as Hty.
  pose proof (typer_readonly (write_distributor gic GICD_CTLR 0 b)) as Hro.
  destruct (read_distributor gic GICD_TYPER _) as [typer b1] eqn:Hrd. cbn [fst snd] in Hty, Hro.
  subst b1. rewrite Hty, dist_it_lines.
  rewrite saturating_add_small, saturating_mul_small by lia.
  unfold init_state. set (it := N.to_nat (it_lines (view b))).
  replace ((it_lines (view b) + 1) * 32)%N with (32 * N.of_nat (1 + it))%N by lia.
  pose proof (mask_spis_run gic loop_bound 1 it (write_distributor gic GICD_CTLR 0 b)) as Hm.
  change (N.of_nat 1) with 1%N in Hm. unfold loop_bound in *. rewrite Hm by lia. clear Hm.
  replace (32 * N.of_nat (1 + it))%N with (4 * N.of_nat (8 + 8 * it))%N by lia.
  change FIRST_SPI with (4 * N.of_nat 8)%N.
  rewrite fill_spis_run by (unfold GICD_IPRIORITYR_BASE; lia).
  rewrite fill_spis_run by (unfold GICD_ITARGETSR_BASE; lia). done.
Qed.

Lemma init_global b :
  let v := view (init_state b) in
  it_lines v = it_lines (view b) ∧ forwarding v = true ∧ signalling v = true ∧
  split_eoi v = false ∧ ∀ p, (p < 0xF0)%N → passes_mask v p = true.
Proof.
  pose proof (it_lines_lt b) as Hit. unfold init_state. set (it := N.to_nat (it_lines (view b))).
  set (b1 := write_words gic GICD_ITARGETSR_BASE _ _ _ _).
  assert (lines_ok (it_lines (view b)) b1) as H1.
  { unfold b1. repeat (apply block_global; [|unfold GICD_ICENABLER_BASE, GICD_IPRIORITYR_BASE,
      GICD_ITARGETSR_BASE; lia..]). by apply lines_ok_write. }
  set (b2 := write_distributor gic GICD_CTLR 1 b1).
  set (b3 := write_cpu_interface gic GICC_PMR 0xFF b2).
  destruct (cpu_distributor GICC_CTLR 1 b3) as (E1 & _ & _ & _ & E2); [done|].
  destruct (cpu_distributor GICC_PMR 0xFF b2) as (E3 & _ & _ & _ & E4); [done|].
  destruct (cpu_control GICC_CTLR 1 b3) as (E5 & E6); [done|]. split_and!.
  - rewrite E1. unfold b3. rewrite E3. unfold b2. by apply lines_ok_write.
  - rewrite E2. unfold b3. rewrite E4. unfold b2. by rewrite dist_forwarding.
  - by rewrite E5.
  - by rewrite E6.
  - intros p Hp. rewrite cpu_mask, decide_False by done. unfold b3.
    by rewrite cpu_mask by (done || intros; exact Hp).
Qed.

Lemma cpu_line off v b j :
  (off < 0x1000)%N → let b' := write_cpu_interface gic off v b in
  line_enabled (view b') j = line_enabled (view b) j ∧
  line_priority (view b') j = line_priority (view b) j ∧
  routed_to_cpu0 (view b') j = routed_to_cpu0 (view b) j ∧ lines_ok (it_lines (view b)) b'.
Proof.
  intros Hoff. destruct (cpu_distributor off v b) as (H1 & H2 & H3 & H4 & _); [done|].
  cbn zeta. rewrite H2, H3, H4. done.
Qed.

(** [GICD_CTLR] touches no line. *)
Lemma ctlr_line v b j :
  known_line (view b) j → let b' := write_distributor gic GICD_CTLR v b in
  line_enabled (view b') j = line_enabled (view b) j ∧
  ((32 ≤ j)%N → line_priority (view b') j = line_priority (view b) j ∧
                routed_to_cpu0 (view b') j = routed_to_cpu0 (view b) j).
Proof.
  intros Hj. pose proof (N.le_0_l (j / 32)). pose proof (N.le_0_l (j / 4)).
  cbn zeta. unfold GICD_CTLR. rewrite dist_enabled by done.
  rewrite !decide_False by lia. split; [done|]. intros H32.
  rewrite dist_priority, dist_routed by (done || (intros; exfalso; lia)).
  rewrite !decide_False by lia. done.
Qed.

(** Every line: shared ones are disabled and get their priority and target;
    private ones keep their enable bit. *)
Lemma init_line b j :
  known_line (view b) j → let v := view (init_state b) in
  line_enabled v j = (if decide (32 ≤ j)%N then false else line_enabled (view b) j) ∧
  ((32 ≤ j)%N → line_priority v j = 0xA0%N ∧ routed_to_cpu0 v j = true).
Proof.
  intros Hj. pose proof (it_lines_lt b) as Hit.
  destruct (line_registers _ _ Hj) as (Hw & Hq & Hle). specialize (Hle Hit).
  unfold init_state. set (n := it_lines (view b)) in *. set (it := N.to_nat n).
  set (b1 := write_distributor gic GICD_CTLR 0 b).
  set (b2 := write_words gic GICD_ICENABLER_BASE 0xFFFFFFFF 1 it b1).
  set (b3 := write_words gic GICD_IPRIORITYR_BASE _ 8 (8 * it) b2).
  set (b4 := write_words gic GICD_ITARGETSR_BASE _ 8 (8 * it) b3).
  set (b5 := write_distributor gic GICD_CTLR 1 b4).
  set (b6 := write_cpu_interface gic GICC_PMR 0xFF b5).
  assert (lines_ok n b1) as L1 by by apply lines_ok_write.
  assert (∀ b', lines_ok n b' → known_line (view b') j) as K.
  { intros b' Hb'. apply (known_line_lines (view b)); [by rewrite Hb'|done]. }
  destruct (mask_block n 1 it b1 j L1 (K _ L1)) as [L2 E2]; [lia|].
  change (lines_ok n b2) in L2.
  destruct (block_global n GICD_IPRIORITYR_BASE (four_bytes DEFAULT_PRIORITY_BYTE) 8 (8 * it) b2 L2)
    as [L3 _]; [unfold GICD_IPRIORITYR_BASE; lia|done|]. change (lines_ok n b3) in L3.
  destruct (block_global n GICD_ITARGETSR_BASE (four_bytes TARGET_CPU0_BYTE) 8 (8 * it) b3 L3)
    as [L4 _]; [unfold GICD_ITARGETSR_BASE; lia|done|]. change (lines_ok n b4) in L4.
  destruct (cpu_line GICC_CTLR 1 b6 j) as (C1 & C2 & C3 & _); [done|].
  destruct (cpu_line GICC_PMR 0xFF b5 j) as (D1 & D2 & D3 & _); [done|].
  destruct (ctlr_line 1 b4 j (K _ L4)) as (F1 & F2).
  destruct (ctlr_line 0 b j Hj) as (G1 & G2). fold b1 in G1, G2. fold b5 in F1, F2. fold b6 in D1, D2, D3.
  fold b2 in E2. cbn zeta. rewrite C1, D1, F1, C2, D2, C3, D3.
  split.
  - unfold b4. rewrite (fill_enabled n) by (auto; lia). unfold b3.
    rewrite (fill_enabled n) by (auto; lia). rewrite E2, G1. clear -Hle Hj.
    assert (32 ≤ j ↔ 1 ≤ j / 32)%N as Hiff.
    { split; [intros; apply N.div_le_lower_bound; lia|]. intros H1. apply N.nlt_ge. intros H32.
      rewrite N.div_small in H1; [lia|done]. }
    repeat case_decide; done || lia.
  - intros H32. destruct (F2 H32) as [-> ->].
    assert (8 ≤ j / 4)%N as H8 by (apply N.div_le_lower_bound; lia).
    assert (j / 4 < N.of_nat (8 + 8 * it))%N as Hhit.
    { apply N.Div0.div_lt_upper_bound. destruct Hj as (_ & Hlt & _). lia. }
    destruct (fill_block n 0x400 (four_bytes 0xA0) (8 * it) b2 j L2) as (P1 & P2);
      [by split; [apply K|]|left; split; [done|by apply byte_of_four]|lia|].
    destruct (fill_block n 0x800 (four_bytes 1) (8 * it) b3 j L3) as (Q1 & Q2);
      [by split; [apply K|]|right; split; [done|by apply byte_of_four]|lia|].
    unfold b4. change GICD_ITARGETSR_BASE with 0x800%N. change TARGET_CPU0_BYTE with 1%N.
    rewrite Q1, Q2. unfold b3. change GICD_IPRIORITYR_BASE with 0x400%N.
    change DEFAULT_PRIORITY_BYTE with 0xA0%N. rewrite P1.
    rewrite !(bool_decide_true (8 ≤ _ < _)%N) by done. done.
Qed.
End hardware.

(** ** [enable] and [disable] meet the trait's contract *)

Lemma single_bit (n k : N) :
  (n < 32)%N → (k < 32)%N → N.testbit (wrap 32 (N.shiftl 1 n)) k = bool_decide (k = n).
Proof.
  intros Hn Hk. rewrite wrap_small.
  - rewrite N.shiftl_1_l, N.pow2_bits_eqb. case_bool_decide; [by subst; apply N.eqb_refl|].
    by apply N.eqb_neq.
  - unfold in_width. rewrite N.shiftl_1_l. by apply N.pow_lt_mono_r.
Qed.

Lemma same_line (i j : N) : (i / 32 = j / 32)%N → (i mod 32 = j mod 32)%N → i = j.
Proof. intros Hq Hr. rewrite (N.div_mod i 32), (N.div_mod j 32) by done. by rewrite Hq, Hr. Qed.

Section contract.
Context {B : Type} `{!Bus B} (gic : QemuVirtGic) `{!GicV2 B gic}.

(** One bit written to an enable register. *)
Lemma enable_bit (base : N) (clear : bool) n b j :
  base = (if clear then 0x180 else 0x100)%N → known_line (view b) n → known_line (view b) j →
  let b' := write_distributor gic
    (saturating_add 64 base (saturating_mul 64 (n / 32) 4)) (wrap 32 (N.shiftl 1 (n mod 32))) b in
  known_line (view b') j ∧
  line_enabled (view b') j = if decide (j = n) then negb clear else line_enabled (view b) j.
Proof.
  intros -> Hn Hj. destruct (line_registers _ _ Hn) as (Hwn & _). destruct (line_registers _ _ Hj) as (Hwj & _).
  pose proof (N.le_0_l (j / 32)). pose proof (N.le_0_l (n / 32)).
  assert ((if clear then 0x180 else 0x100) ≤ 0x180)%N as Hb by by destruct clear.
  rewrite saturating_mul_small by lia. rewrite saturating_add_small by lia.
  cbn zeta. split.
  { eapply known_line_lines; [symmetry; apply dist_it_lines|done]. }
  rewrite dist_enabled; [|done| |lia].
  2:{ rewrite N.mul_comm. apply aligned. by destruct clear. }
  rewrite single_bit by by apply N.mod_lt.
  destruct (decide (j = n)) as [->|Hne].
  - rewrite bool_decide_true by done. destruct clear.
    + rewrite decide_False, decide_True by lia. apply andb_false_r.
    + rewrite decide_True by lia. apply orb_true_r.
  - destruct (decide (n / 32 = j / 32)%N) as [Hq|Hq].
    + rewrite bool_decide_false by (intros Hr; by apply Hne, same_line).
      destruct clear; repeat case_decide; cbn [negb]; by rewrite ?andb_true_r, ?orb_false_r.
    + destruct clear; rewrite !decide_False by lia; done.
Qed.

#[refine] Global Instance GicLaws : IrqControllerLaws QemuVirtGic B gic := {|
  line_ok b irq := known_line (view b) (irq_id irq);
  delivers b irq := line_enabled (view b) (irq_id irq);
|}.
Proof.
  - intros b [n] Hn. cbn [irq_enable QemuVirtGicController irq_id] in *. unfold gic_enable. cbn [irq_id].
    rewrite (proj2 (N.ltb_lt n GIC_MAX_IRQ)) by apply Hn. cbn [negb]. eexists. split; [done|].
    intros [j] Hj. cbn [irq_id] in *.
    destruct (enable_bit GICD_ISENABLER_BASE false n b j eq_refl Hn Hj) as [? ->]. split; [done|].
    case_decide; [by subst; rewrite bool_decide_true|]. rewrite bool_decide_false by congruence. done.
  - intros b [n] Hn. cbn [irq_disable QemuVirtGicController irq_id] in *. unfold gic_disable. cbn [irq_id].
    rewrite (proj2 (N.ltb_lt n GIC_MAX_IRQ)) by apply Hn. cbn [negb]. eexists. split; [done|].
    intros [j] Hj. cbn [irq_id] in *.
    destruct (enable_bit GICD_ICENABLER_BASE true n b j eq_refl Hn Hj) as [? ->]. split; [done|].
    case_decide; [by subst; rewrite bool_decide_true|]. rewrite bool_decide_false by congruence. done.
  - intros b o b' Ha [j] Hj. cbn [acknowledge QemuVirtGicController irq_id] in *.
    assert (view b' = view b) as ->; [|done]. revert Ha. unfold gic_acknowledge, mbind, M_bind, io_read.
    pose proof (iar_view b) as Hv. destruct (read_cpu_interface gic GICC_IAR b) as [raw b1].
    case_match; intros [= <- <-]; exact Hv.
  - intros b irq b' He [j] Hj. cbn [end_of_interrupt QemuVirtGicController irq_id] in *.
    injection He as <-. destruct (cpu_distributor GICC_EOIR (irq_id irq) b) as (H1 & H2 & _); [done|].
    split; [by eapply known_line_lines; [symmetry; exact H1|]|]. by rewrite H2.
Defined.

(** ** Sequences of calls *)

Inductive gic_call :=
  | Enable (irq : IrqNumber)
  | Disable (irq : IrqNumber)
  | Acknowledge
  | EndOfInterrupt (irq : IrqNumber).

Definition run_call (c : gic_call) : M B Empty_set unit :=
  match c with
  | Enable irq => gic_enable gic irq
  | Disable irq => gic_disable gic irq
  | Acknowledge => _ ← gic_acknowledge gic; mret tt
  | EndOfInterrupt irq => gic_end_of_interrupt gic irq
  end.

Fixpoint run_calls (calls : list gic_call) : M B Empty_set unit :=
  match calls with [] => mret tt | c :: calls => run_call c;; run_calls calls end.

Definition call_ok (v : GicView) (c : gic_call) : Prop :=
  match c with Enable irq | Disable irq => known_line v (irq_id irq) | _ => True end.

(** What a call asks for line [j], which was enabled if [before]. *)
Definition request (j : N) (c : gic_call) (before : bool) : bool :=
  match c with
  | Enable irq => if decide (j = irq_id irq) then true else before
  | Disable irq => if decide (j = irq_id irq) then false else before
  | _ => before
  end.

Fixpoint last_request (j : N) (calls : list gic_call) (before : bool) : bool :=
  match calls with [] => before | c :: calls => last_request j calls (request j c before) end.

(** What no call changes. *)
Definition same_setup b b' : Prop :=
  it_lines (view b') = it_lines (view b) ∧ forwarding (view b') = forwarding (view b) ∧
  signalling (view b') = signalling (view b) ∧ split_eoi (view b') = split_eoi (view b).

Lemma call_ok_lines v v' c : it_lines v' = it_lines v → call_ok v c → call_ok v' c.
Proof. intros Hl. symmetry in Hl. destruct c; simpl; [by apply known_line_lines..|done|done]. Qed.

Lemma enable_register_setup (base : N) n v b :
  base = 0x100%N ∨ base = 0x180%N → (n < GIC_MAX_IRQ)%N →
  same_setup b (write_distributor gic (saturating_add 64 base (saturating_mul 64 (n / 32) 4)) v b).
Proof.
  intros Hb Hn. pose proof (N.le_0_l (n / 32)). pose proof (N.Div0.div_lt_upper_bound n 32 32) as Hq.
  unfold GIC_MAX_IRQ in Hn. assert (n / 32 < 32)%N by (apply Hq; lia).
  rewrite saturating_mul_small by lia. rewrite saturating_add_small by lia.
  destruct (dist_interface (base + n / 32 * 4) v b) as (H1 & _ & H2); [lia|].
  split; [apply dist_it_lines|]. split; [|done]. rewrite dist_forwarding, decide_False by lia. done.
Qed.

Lemma run_call_run c b :
  call_ok (view b) c →
  ∃ b', run_call c b = Done tt b' ∧ same_setup b b' ∧
    ∀ j, known_line (view b) j → line_enabled (view b') j = request j c (line_enabled (view b) j).
Proof.
  destruct c as [[n]|[n]| |irq]; cbn [call_ok run_call irq_id]; intros Hn.
  - unfold gic_enable. cbn [irq_id]. rewrite (proj2 (N.ltb_lt n GIC_MAX_IRQ)) by apply Hn.
    eexists. split; [done|]. split; [apply enable_register_setup; [by left|apply Hn]|].
    intros j Hj. by destruct (enable_bit GICD_ISENABLER_BASE false n b j eq_refl Hn Hj) as [_ ->].
  - unfold gic_disable. cbn [irq_id]. rewrite (proj2 (N.ltb_lt n GIC_MAX_IRQ)) by apply Hn.
    eexists. split; [done|]. split; [apply enable_register_setup; [by right|apply Hn]|].
    intros j Hj. by destruct (enable_bit GICD_ICENABLER_BASE true n b j eq_refl Hn Hj) as [_ ->].
  - unfold gic_acknowledge, mbind, M_bind, io_read. pose proof (iar_view b) as Hv.
    destruct (read_cpu_interface gic GICC_IAR b) as [raw b1]. cbn [snd] in Hv.
    exists b1. unfold same_setup. rewrite Hv. split; [cbv zeta; by destruct (N.eqb _ _)|done].
  - eexists. split; [done|]. destruct (cpu_distributor GICC_EOIR (irq_id irq) b) as (H1 & H2 & _ & _ & H3); [done|].
    destruct (cpu_control GICC_EOIR (irq_id irq) b) as [H4 H5]; [done|].
    split; [by split_and!|]. intros j _. cbn [request]. by rewrite H2.
Qed.

Lemma run_calls_run calls b :
  Forall (call_ok (view b)) calls →
  ∃ b', run_calls calls b = Done tt b' ∧ same_setup b b' ∧
    ∀ j, known_line (view b) j → line_enabled (view b') j = last_request j calls (line_enabled (view b) j).
Proof.
  revert b. induction calls as [|c calls IH]; intros b Hok; [by exists b|].
  apply Forall_cons in Hok as [Hc Hok].
  destruct (run_call_run c b Hc) as (b1 & Hr1 & (H1 & H2 & H3 & H4) & Hj1).
  destruct (IH b1) as (b2 & Hr2 & (G1 & G2 & G3 & G4) & Hj2).
  { eapply Forall_impl; [exact Hok|]. intros c'. by apply call_ok_lines. }
  exists b2. cbn [run_calls]. unfold mbind, M_bind. rewrite Hr1. split; [exact Hr2|].
  split; [split_and!; congruence|]. intros j Hj. cbn [last_request].
  rewrite Hj2 by (by eapply known_line_lines; [symmetry; exact H1|]). by rewrite Hj1.
Qed.
End contract.

(** ** A concrete controller *)

Record Gic400 := mkGic400 {
  g_view : GicView;
  g_active : N → bool;
  g_pending : option N;
}.

Definition qemu_gic : QemuVirtGic :=
  mkGic QEMU_VIRT_GIC_DISTRIBUTOR_BASE QEMU_VIRT_GIC_CPU_INTERFACE_BASE.

(** The register window an address is in, and the offset there. *)
Definition decode (a : usize) : option (bool * N) :=
  if decide (0x08000000 ≤ a < 0x08001000)%N then Some (true, a - 0x08000000)%N
  else if decide (0x08010000 ≤ a < 0x08011000)%N then Some (false, a - 0x08010000)%N
  else None.

(** Five bits of line count, and an interrupt number below the maximum, whatever
    the record holds. *)
Definition g_lines (g : Gic400) : GicView :=
  let w := g_view g in
  mkView (it_lines w mod 32) (line_enabled w) (line_priority w) (routed_to_cpu0 w)
    (forwarding w) (signalling w) (passes_mask w) (split_eoi w).
Definition g_top (g : Gic400) : option N :=
  j ← g_pending g; if decide (j < GIC_MAX_IRQ)%N then Some j else None.

Definition dist_effect (off : N) (v : u32) (w : GicView) : GicView := {|
  it_lines := it_lines w;
  line_enabled j :=
    if decide (off = 0x100 + 4 * (j / 32))%N then line_enabled w j || N.testbit v (j mod 32)
    else if decide (off = 0x180 + 4 * (j / 32))%N then line_enabled w j && negb (N.testbit v (j mod 32))
    else line_enabled w j;
  line_priority j := if decide (off = 0x400 + 4 * (j / 4))%N then byte_of v j else line_priority w j;
  routed_to_cpu0 j :=
    if decide (off = 0x800 + 4 * (j / 4))%N then N.testbit (byte_of v j) 0 else routed_to_cpu0 w j;
  forwarding := if decide (off = 0)%N then N.testbit v 0 else forwarding w;
  signalling := signalling w;
  passes_mask := passes_mask w;
  split_eoi := split_eoi w;
|}.

Definition cpu_effect (off : N) (v : u32) (w : GicView) : GicView := {|
  it_lines := it_lines w;
  line_enabled := line_enabled w;
  line_priority := line_priority w;
  routed_to_cpu0 := routed_to_cpu0 w;
  forwarding := forwarding w;
  signalling := if decide (off = 0)%N then N.testbit v 0 else signalling w;
  passes_mask p := if decide (off = 4)%N then bool_decide (p < N.land v 0xF0)%N else passes_mask w p;
  split_eoi := if decide (off = 0)%N then N.testbit v 9 else split_eoi w;
|}.

Global Instance Gic400_bus : Bus Gic400 := {|
  read_volatile a g :=
    match decode a with
    | Some (true, off) => if decide (off = 4)%N then (it_lines (g_view g) mod 32, g)%N else (0%N, g)
    | Some (false, off) =>
        if decide (off = 0xC)%N then
          (default 1023%N (g_top g),
           mkGic400 (g_view g) (λ j, g_active g j || bool_decide (g_top g = Some j)) None)
        else (0%N, g)
    | None => (0%N, g)
    end;
  write_volatile a v g :=
    match decode a with
    | Some (true, off) => mkGic400 (dist_effect off v (g_view g)) (g_active g) (g_pending g)
    | Some (false, off) =>
        mkGic400 (cpu_effect off v (g_view g))
          (λ j, g_active g j && negb (bool_decide (off = 0x10%N ∧ j = v))) (g_pending g)
    | None => g
    end;
|}.

Lemma decode_dist off :
  (off < 0x1000)%N → decode (saturating_add 64 (distributor_base qemu_gic) off) = Some (true, off).
Proof.
  intros Hoff. cbn [distributor_base qemu_gic]. unfold QEMU_VIRT_GIC_DISTRIBUTOR_BASE.
  rewrite saturating_add_small by lia. unfold decode. rewrite decide_True by lia.
  do 2 f_equal. lia.
Qed.

Lemma decode_cpu off :
  (off < 0x1000)%N → decode (saturating_add 64 (cpu_interface_base qemu_gic) off) = Some (false, off).
Proof.
  intros Hoff. cbn [cpu_interface_base qemu_gic]. unfold QEMU_VIRT_GIC_CPU_INTERFACE_BASE.
  rewrite saturating_add_small by lia. unfold decode. rewrite decide_False, decide_True by lia.
  do 2 f_equal. lia.
Qed.

Lemma g_dist_write off v g :
  (off < 0x1000)%N → write_distributor qemu_gic off v g =
    mkGic400 (dist_effect off v (g_view g)) (g_active g) (g_pending g).
Proof. intros Hoff. cbn [write_distributor write_volatile Gic400_bus]. unfold write_distributor. cbn [write_volatile Gic400_bus]. by rewrite decode_dist. Qed.

Lemma g_cpu_write off v g :
  (off < 0x1000)%N → write_cpu_interface qemu_gic off v g =
    mkGic400 (cpu_effect off v (g_view g))
      (λ j, g_active g j && negb (bool_decide (off = 0x10%N ∧ j = v))) (g_pending g).
Proof. intros Hoff. unfold write_cpu_interface. cbn [write_volatile Gic400_bus]. by rewrite decode_cpu. Qed.

Lemma g_iar g :
  read_cpu_interface qemu_gic GICC_IAR g =
    (default 1023%N (g_top g),
     mkGic400 (g_view g) (λ j, g_active g j || bool_decide (g_top g = Some j)) None).
Proof. unfold read_cpu_interface. cbn [read_volatile Gic400_bus]. by rewrite decode_cpu. Qed.

Lemma g_typer g : read_distributor qemu_gic GICD_TYPER g = (it_lines (g_view g) mod 32, g)%N.
Proof. unfold read_distributor. cbn [read_volatile Gic400_bus]. by rewrite decode_dist. Qed.

Lemma g_top_lt g j : g_top g = Some j → (j < GIC_MAX_IRQ)%N.
Proof. unfold g_top. destruct (g_pending g); simpl; [|done]. case_decide; [|done]. by intros [= <-]. Qed.

(** A distributor write never changes the number of lines, wherever it goes. *)
Lemma g_write_lines a v g : it_lines (g_lines (write_volatile a v g)) = it_lines (g_lines g).
Proof. cbn [write_volatile Gic400_bus]. destruct (decode a) as [[[] off]|]; done. Qed.

#[refine] Global Instance Gic400_laws : GicV2 Gic400 qemu_gic := {|
  view := g_lines;
  active := g_active;
  top_pending := g_top;
|}.
Proof.
  - intros g. by apply N.mod_lt.
  - intros g. rewrite g_typer. cbn [fst]. change 0x1F%N with (N.ones 5).
    rewrite N.land_ones. by rewrite N.Div0.mod_mod.
  - intros g. by rewrite g_typer.
  - intros off v g. apply g_write_lines.
  - intros off v g j _ _ Hoff. by rewrite g_dist_write.
  - intros off v g j _ _ Hoff _. by rewrite g_dist_write.
  - intros off v g j _ _ Hoff Hbyte. rewrite g_dist_write by done. cbn. case_decide; [|done].
    by rewrite Hbyte.
  - intros off v g Hoff. by rewrite g_dist_write.
  - intros off v g Hoff. by rewrite g_dist_write.
  - intros off v g Hoff. by rewrite g_cpu_write.
  - intros off v g Hoff. by rewrite g_cpu_write.
  - intros off v g p Hoff Hp. rewrite g_cpu_write by done. cbn. case_decide; [|done].
    by apply bool_decide_eq_true, Hp.
  - apply g_top_lt.
  - intros g. rewrite g_iar. cbn [fst]. change 0x3FF%N with (N.ones 10). rewrite N.land_ones.
    apply N.mod_small. destruct (g_top g) as [j|] eqn:Hj; [|done]. apply g_top_lt in Hj. cbn.
    unfold GIC_MAX_IRQ in Hj. change (2 ^ 10)%N with 1024%N. lia.
  - intros g. by rewrite g_iar.
  - intros g j. by rewrite g_iar.
  - intros v g j _ _. rewrite g_cpu_write by done. cbn. f_equal. f_equal.
    apply bool_decide_ext. tauto.
Defined.

(** ** Properties *)

(** C23: [init] brings every [GICv2] into the state the kernel expects, whatever
    state the firmware left, and its loops end within their fuel: the distributor
    forwards and the CPU interface signals, one write to [GICC_EOIR] ends an
    interrupt, and every shared line is disabled, has priority 0xA0, which passes
    the mask, and is routed to core 0. Private lines (16 to 31) keep the enable bit
    the firmware left. *)
Theorem gic_init_quiesces {B} `{!Bus B} (gic : QemuVirtGic) `{!GicV2 B gic} (b : B) (j : N) :
  known_line (view b) j →
  ∃ b', init gic b = Done tt b' ∧ known_line (view b') j ∧
    forwarding (view b') = true ∧ signalling (view b') = true ∧ split_eoi (view b') = false ∧
    line_enabled (view b') j = (if decide (32 ≤ j)%N then false else line_enabled (view b) j) ∧
    ((32 ≤ j)%N → line_priority (view b') j = 0xA0%N ∧ routed_to_cpu0 (view b') j = true ∧
       passes_mask (view b') (line_priority (view b') j) = true).
Proof.
  intros Hj. exists (init_state gic b). split; [apply init_run|].
  destruct (init_global gic b) as (H1 & H2 & H3 & H4 & H5).
  destruct (init_line gic b j Hj) as [H6 H7]. split_and!; try done.
  - by eapply known_line_lines; [symmetry; exact H1|].
  - intros H32. destruct (H7 H32) as [H8 H9]. split_and!; [done..|]. rewrite H8. by apply H5.
Qed.

(** A controller with 288 lines whose firmware enabled all of them. *)
Definition demo_gic : Gic400 :=
  mkGic400 (mkView 8 (λ _, true) (λ _, 0%N) (λ _, false) false false (λ _, false) true) (λ _, false) None.

Lemma gic_init_quiesces_witness :
  ∃ b', init qemu_gic demo_gic = Done tt b' ∧ known_line (view b') 33 ∧
    forwarding (view b') = true ∧ signalling (view b') = true ∧ split_eoi (view b') = false ∧
    line_enabled (view b') 33 = (if decide (32 ≤ 33)%N then false else line_enabled (view demo_gic) 33) ∧
    ((32 ≤ 33)%N → line_priority (view b') 33 = 0xA0%N ∧ routed_to_cpu0 (view b') 33 = true ∧
       passes_mask (view b') (line_priority (view b') 33) = true).
Proof. apply (gic_init_quiesces qemu_gic demo_gic 33). by vm_compute. Defined.

(** C26: interrupt lines follow the last request. On every [GICv2], in any state the
    firmware left, [init] followed by any sequence of [enable] and [disable] on lines
    the controller has, interleaved with [acknowledge] and [end_of_interrupt] as
    interrupts come in, returns. Afterwards each line is enabled exactly if the last
    [enable] or [disable] that named it was an [enable]; a line none named is
    disabled if it is shared, and as the firmware left it if it is private. The
    controller still forwards and signals as [init] set it up. A request for an
    interrupt number from 1020 on panics. *)
Theorem irq_lines_follow_requests {B} `{!Bus B} (gic : QemuVirtGic) `{!GicV2 B gic}
    (calls : list gic_call) (b : B) :
  Forall (call_ok (view b)) calls →
  (∃ b', (init gic;; run_calls gic calls) b = Done tt b' ∧
    forwarding (view b') = true ∧ signalling (view b') = true ∧ split_eoi (view b') = false ∧
    ∀ j, known_line (view b) j →
      line_enabled (view b') j =
        last_request j calls (if decide (32 ≤ j)%N then false else line_enabled (view b) j)) ∧
  ∀ irq, (1020 ≤ irq_id irq)%N → gic_enable gic irq b = Panic ∧ gic_disable gic irq b = Panic.
Proof.
  intros Hok. split.
  - destruct (init_global gic b) as (Hl & Hf & Hs & He & _). pose proof (init_run gic b) as Hi.
    destruct (run_calls_run gic calls (init_state gic b)) as (b' & Hr & (_ & Hf' & Hs' & He') & Hj').
    { eapply Forall_impl; [exact Hok|]. intros c. by apply call_ok_lines. }
    exists b'. unfold mbind, M_bind. rewrite Hi. split; [exact Hr|].
    split; [congruence|]. split; [congruence|]. split; [congruence|].
    intros j Hj. rewrite Hj' by (by eapply known_line_lines; [symmetry; exact Hl|]).
    by destruct (init_line gic b j Hj) as [-> _].
  - intros irq Hirq. unfold gic_enable, gic_disable. rewrite (proj2 (N.ltb_ge _ _)) by exact Hirq. done.
Qed.

Lemma irq_lines_follow_requests_witness :
  let calls := [Disable (mkIrq 27); Enable (mkIrq 33); Acknowledge; Enable (mkIrq 40);
                EndOfInterrupt (mkIrq 33); Disable (mkIrq 40); Enable (mkIrq 27)] in
  (∃ b', (init qemu_gic;; run_calls qemu_gic calls) demo_gic = Done tt b' ∧
    forwarding (view b') = true ∧ signalling (view b') = true ∧ split_eoi (view b') = false ∧
    ∀ j, known_line (view demo_gic) j →
      line_enabled (view b') j =
        last_request j calls (if decide (32 ≤ j)%N then false else line_enabled (view demo_gic) j)) ∧
  ∀ irq, (1020 ≤ irq_id irq)%N → gic_enable qemu_gic irq demo_gic = Panic ∧ gic_disable qemu_gic irq demo_gic = Panic.
Proof.
  intros calls. apply (irq_lines_follow_requests qemu_gic calls demo_gic). repeat constructor; by vm_compute.
Defined.
