(* ===== verification/Console.v ===== *)
(** * [hal/src/console.rs], [bsp-qemu-virt/src/console.rs]: the console

    The byte sink of the kernel, its [PL011] implementation, and [FmtWriter]. The
    [UART] is behind the same bus as the interrupt controller; what the driver
    relies on of it is the class [Pl011]. *)

From stdpp Require Import prelude.
From Stdlib Require Import Lia NArith.
From S2P Require Import Prelude HalIrq Gic.

Class Console (C S : Type) := write_bytes : C → list u8 → M S Empty_set unit.

(** The contract: bytes come out in order, and nothing else does. *)
Class ConsoleLaws (C S : Type) `{Console C S} (c : C) := {
  console_ok : S → Prop;
  output : S → list u8;
  write_law bs s :
    console_ok s → Forall (in_width 8) bs →
    ∃ s', write_bytes c bs s = Done tt s' ∧ console_ok s' ∧ output s' = output s ++ bs;
}.

(** [FmtWriter::write_str]: always [Ok(())]. *)
Definition write_str {C S} `{Console C S} (c : C) (s : list u8) : M S Empty_set unit :=
  write_bytes c s;; mret tt.

(** [write!] with several pieces. *)
Fixpoint write_all {C S} `{Console C S} (c : C) (pieces : list (list u8)) : M S Empty_set unit :=
  match pieces with [] => mret tt | s :: pieces => write_str c s;; write_all c pieces end.

(** ** [Pl011Uart] *)

Record Pl011Uart := mkUart { uart_base : usize }.

Definition UARTDR : usize := 0x00%N.
Definition UARTFR : usize := 0x18%N.
Definition UARTFR_TXFF : u32 := N.shiftl 1 5.

Section driver.
Context {B : Type} `{!Bus B} (uart : Pl011Uart).

(** [while read_volatile(fr) & UARTFR_TXFF != 0 { spin_loop() }]. *)
Fixpoint wait_not_full (fuel : nat) : M B Empty_set unit :=
  match fuel with
  | O => diverge
  | S fuel =>
      fr ← io_read (read_volatile (uart_base uart + UARTFR));
      if negb (N.land fr UARTFR_TXFF =? 0)%N then wait_not_full fuel else mret tt
  end.

(** [write_bytes]; [fuel] bounds each of the waits. *)
Fixpoint uart_write_bytes (fuel : nat) (bytes : list u8) : M B Empty_set unit :=
  match bytes with
  | [] => mret tt
  | byte :: bytes =>
      wait_not_full fuel;;
      io_write (write_volatile (uart_base uart + UARTDR) byte);;
      uart_write_bytes fuel bytes
  end.
End driver.

(** ** The hardware *)

(** A [PL011] as the driver sees it: the flag register says whether the transmit
    queue is full, the queue drains as time passes (here: as the register is
    polled; [busy] is the number of polls until there is room), a byte written to
    the data register when there is room is transmitted in its turn, and a queue
    with a byte more has room again within [drain] polls. *)
Class Pl011 (B : Type) `{!Bus B} (uart : Pl011Uart) := {
  sent : B → list u8;
  busy : B → nat;
  drain : nat;
  flag_full b :
    N.testbit (read_volatile (uart_base uart + UARTFR)%N b).1 5 = bool_decide (busy b ≠ 0);
  flag_poll b :
    let b' := (read_volatile (uart_base uart + UARTFR)%N b).2 in
    sent b' = sent b ∧ busy b' = pred (busy b);
  data_write b v :
    busy b = 0 → in_width 8 v →
    let b' := write_volatile (uart_base uart + UARTDR)%N v b in
    sent b' = sent b ++ [v] ∧ busy b' ≤ drain;
}.

Section uart.
Context {B : Type} `{!Bus B} (uart : Pl011Uart) `{!Pl011 B uart}.

Lemma txff_test fr : (N.land fr UARTFR_TXFF =? 0)%N = negb (N.testbit fr 5).
Proof.
  change UARTFR_TXFF with (2 ^ 5)%N. destruct (N.testbit fr 5) eqn:Hb; simpl.
  - apply N.eqb_neq. intros H0. apply (f_equal (λ x, N.testbit x 5)) in H0.
    by rewrite N.land_spec, Hb, N.bits_0 in H0.
  - apply N.eqb_eq, N.bits_inj. intros k. rewrite N.land_spec, N.bits_0, N.pow2_bits_eqb.
    destruct (N.eqb_spec 5 k) as [<-|]; [by rewrite Hb|apply andb_false_r].
Qed.

Lemma wait_run fuel b :
  busy b < fuel → ∃ b', wait_not_full uart fuel b = Done tt b' ∧ sent b' = sent b ∧ busy b' = 0.
Proof.
  revert b. induction fuel as [|fuel IH]; intros b Hf; [lia|]. cbn [wait_not_full].
  unfold mbind, M_bind, io_read. pose proof (flag_full b) as Hfull. pose proof (flag_poll b) as Hpoll.
  destruct (read_volatile _ b) as [fr b1]. cbn [fst snd] in *. destruct Hpoll as [Hs Hb].
  rewrite txff_test, negb_involutive, Hfull. case_bool_decide as Hz.
  - destruct (IH b1) as (b' & -> & Hs' & Hb'); [lia|]. exists b'. split_and!; congruence.
  - exists b1. split_and!; [done|done|]. rewrite Hb. lia.
Qed.

Lemma uart_write_run fuel bytes b :
  busy b < fuel → drain < fuel → Forall (in_width 8) bytes →
  ∃ b', uart_write_bytes uart fuel bytes b = Done tt b' ∧ busy b' < fuel ∧ sent b' = sent b ++ bytes.
Proof.
  revert b. induction bytes as [|byte bytes IH]; intros b Hb Hd Hw.
  - exists b. by rewrite app_nil_r.
  - apply Forall_cons in Hw as [Hw Hws]. cbn [uart_write_bytes]. unfold mbind, M_bind.
    destruct (wait_run fuel b Hb) as (b1 & -> & Hs1 & Hb1). cbn [io_write modify].
    destruct (data_write b1 byte Hb1 Hw) as [Hs2 Hb2].
    destruct (IH (write_volatile (uart_base uart + UARTDR)%N byte b1)) as (b' & Hr & Hb' & Hs');
      [lia|done|done|].
    exists b'. split; [exact Hr|]. split; [done|]. by rewrite Hs', Hs2, Hs1, <- app_assoc.
Qed.
End uart.

(** The driver, with a fuel larger than the time the queue takes. *)
Record UartHandle := mkUartHandle { the_uart : Pl011Uart; poll_fuel : nat }.

Global Instance Pl011Console {B} `{!Bus B} : Console UartHandle B := λ h,
  uart_write_bytes (the_uart h) (poll_fuel h).

#[refine] Global Instance Pl011ConsoleLaws {B} `{!Bus B} (uart : Pl011Uart) `{!Pl011 B uart} :
  ConsoleLaws UartHandle B (mkUartHandle uart (Datatypes.S drain)) := {|
  console_ok b := busy b ≤ drain;
  output := sent;
|}.
Proof.
  intros bs b Hb Hw. unfold write_bytes, Pl011Console. cbn [the_uart poll_fuel].
  destruct (uart_write_run uart (Datatypes.S drain) bs b) as (b' & -> & Hb' & Hs); [lia|lia|done|].
  exists b'. split_and!; [done|lia|done].
Defined.

(** ** Properties *)

(** C27: the [PL011] driver terminates and loses nothing. On every [UART] whose
    transmit queue makes room within a bounded number of polls, [write_bytes]
    returns for every string of bytes, given fuel for one more poll than that, and
    has transmitted exactly those bytes, in order, after what was sent before. *)
Theorem uart_sends_every_byte {B} `{!Bus B} (uart : Pl011Uart) `{!Pl011 B uart}
    (fuel : nat) (bytes : list u8) (b : B) :
  busy b < fuel → drain < fuel → Forall (in_width 8) bytes →
  ∃ b', uart_write_bytes uart fuel bytes b = Done tt b' ∧ sent b' = sent b ++ bytes.
Proof.
  intros Hb Hd Hw. destruct (uart_write_run uart fuel bytes b Hb Hd Hw) as (b' & ? & _ & ?). by exists b'.
Qed.

(** A [UART] that needs two polls to make room after a byte. *)
Record SlowUart := mkSlow { slow_sent : list u8; slow_busy : nat }.

Global Instance SlowUart_bus : Bus SlowUart := {|
  read_volatile a u :=
    if decide (a = 0x09000018)%N then
      (if decide (slow_busy u = O) then 0x90 else 0x30, mkSlow (slow_sent u) (pred (slow_busy u)))%N
    else (0%N, u);
  write_volatile a v u :=
    if decide (a = 0x09000000 ∧ slow_busy u = O)%N then mkSlow (slow_sent u ++ [v]) 2 else u;
|}.

Definition demo_uart : Pl011Uart := mkUart 0x09000000.

#[refine] Global Instance SlowUart_laws : Pl011 SlowUart demo_uart := {|
  sent := slow_sent;
  busy := slow_busy;
  drain := 2;
|}.
Proof.
  - intros u. cbn. by destruct (slow_busy u).
  - intros u. done.
  - intros u v Hu _. cbn. rewrite decide_True by done. done.
Defined.

Lemma uart_sends_every_byte_witness :
  ∃ b', uart_write_bytes demo_uart 3 [72; 105; 10]%N (mkSlow [] 1) = Done tt b' ∧
    sent b' = sent (mkSlow [] 1) ++ [72; 105; 10]%N.
Proof.
  apply (uart_sends_every_byte demo_uart 3 [72; 105; 10]%N (mkSlow [] 1)); [simpl; lia..|].
  repeat constructor; by vm_compute.
Defined.
