(* ===== verification/Mmu.v ===== *)
(** * [hal/src/mmu.rs]: frames, mapping flags and the MMU interface

    [S] is the state of the MMU ([&self]), [A] its address-space structure and
    [F] the state of a frame provider. *)

From stdpp Require Import prelude gmap.
From Stdlib Require Import Lia NArith.
From S2P Require Import Prelude.

Definition PAGE_SIZE : usize := 4096%N.

Record VirtAddr := mkVirt { va : usize }.
Record PhysAddr := mkPhys { pa : usize }.
Record PhysFrame := mkFrame { frame_addr : PhysAddr }.

Global Instance VirtAddr_eq_dec : EqDecision VirtAddr.
Proof. solve_decision. Defined.
Global Instance VirtAddr_countable : Countable VirtAddr.
Proof. by refine (inj_countable' va mkVirt _); intros []. Defined.
Global Instance PhysFrame_eq_dec : EqDecision PhysFrame.
Proof. intros [[x]] [[y]]. destruct (decide (x = y)); [left|right]; congruence. Defined.

(** [PhysFrame::from_aligned]; [None] is not aligned. *)
Definition from_aligned (addr : PhysAddr) : option PhysFrame :=
  if (pa addr mod PAGE_SIZE =? 0)%N then Some (mkFrame addr) else None.
Definition as_usize (self : PhysFrame) : usize := pa (frame_addr self).

(** ** [MappingFlags] *)

Record MappingFlags := mkFlags { flag_bits : u32 }.

Definition WRITE : MappingFlags := mkFlags (N.shiftl 1 0).
Definition EXECUTE : MappingFlags := mkFlags (N.shiftl 1 1).
Definition USER : MappingFlags := mkFlags (N.shiftl 1 2).
Definition DEVICE : MappingFlags := mkFlags (N.shiftl 1 3).
Definition GLOBAL : MappingFlags := mkFlags (N.shiftl 1 4).

Definition flags_empty : MappingFlags := mkFlags 0.
Definition flags_from_raw (bits : u32) : MappingFlags := mkFlags bits.
Definition flags_raw (self : MappingFlags) : u32 := flag_bits self.
Definition flags_contains (self other : MappingFlags) : bool :=
  (N.land (flag_bits self) (flag_bits other) =? flag_bits other)%N.
Definition flags_union (self other : MappingFlags) : MappingFlags :=
  mkFlags (N.lor (flag_bits self) (flag_bits other)).
Definition flags_intersection (self other : MappingFlags) : MappingFlags :=
  mkFlags (N.land (flag_bits self) (flag_bits other)).
Definition flags_difference (self other : MappingFlags) : MappingFlags :=
  mkFlags (N.land (flag_bits self) (bitnot 32 (flag_bits other))).
(** The operators. *)
Definition flags_bitor (self rhs : MappingFlags) : MappingFlags := flags_union self rhs.
Definition flags_bitand (self rhs : MappingFlags) : MappingFlags := flags_intersection self rhs.
Definition flags_bitor_assign (self rhs : MappingFlags) : MappingFlags := flags_bitor self rhs.
Definition flags_is_empty (self : MappingFlags) : bool := (flag_bits self =? 0)%N.

(** ** The interface *)

Inductive MmuError := AlreadyMapped | NotMapped | MisalignedAddress | OutOfFrames | InvalidFlags.

Global Instance MmuError_eq_dec : EqDecision MmuError.
Proof. solve_decision. Defined.

Class FrameProvider (F : Type) := alloc_frame : F → option PhysFrame * F.

Class Mmu (S A F : Type) := {
  create_address_space : S → PhysFrame → A;
  address_space_root : A → PhysFrame;
  activate : A → S → S;
  mmu_map : VirtAddr → PhysFrame → MappingFlags → M (S * A * F) MmuError unit;
  mmu_unmap : VirtAddr → M (S * A * F) MmuError PhysFrame;
  invalidate_tlb_address : VirtAddr → S → S;
  invalidate_tlb_all : M S Empty_set unit;
}.

(** What the trait documents of the results of [map] and [unmap] at [v], where
    [before] is what is mapped there. *)
Definition page_aligned (v : VirtAddr) : Prop := (va v mod PAGE_SIZE = 0)%N.

Definition map_documented {St} (before : option (PhysFrame * MappingFlags)) (v : VirtAddr)
    (r : step St MmuError unit) : Prop :=
  match r with
  | Done _ _ => page_aligned v ∧ before = None
  | Fail AlreadyMapped _ => is_Some before
  | Fail MisalignedAddress _ => ¬ page_aligned v
  | Fail OutOfFrames _ | Fail InvalidFlags _ => True
  | _ => False
  end.

Definition unmap_documented {St} (before : option (PhysFrame * MappingFlags)) (v : VirtAddr)
    (r : step St MmuError PhysFrame) : Prop :=
  match r with
  | Done p _ => page_aligned v ∧ ∃ f, before = Some (p, f)
  | Fail NotMapped _ => before = None
  | Fail MisalignedAddress _ => ¬ page_aligned v
  | _ => False
  end.
