(* ===== verification/TestHal.v ===== *)
(** * [test-hal/src]: the host fakes

    The fakes the kernel's tests run on, as instances of the interfaces, and the
    proofs that they meet the contracts, so that what a test establishes on a fake
    uses only behaviour a board has too; the exception is [FakeMmu], which accepts
    the misaligned addresses that the trait documents as errors. The [Mutex] around each state is taken and
    released within one call and never poisoned, so it is not modelled. *)

From stdpp Require Import prelude gmap.
From Stdlib Require Import Lia NArith.
From S2P Require Import Prelude HalCpu HalIrq Timer Mmu Gic Console.

(** ** [FakeCpu] *)

Record FakeCpu := mkFakeCpu {
  core_id : CoreId;
  irqs_enabled : bool;
  wait_for_interrupt_count : u64;
  instruction_barrier_count : u64;
}.

Definition with_core_id (id : CoreId) : FakeCpu := mkFakeCpu id true 0 0.
Definition fake_cpu_new : FakeCpu := with_core_id 0.

Global Instance FakeCpu_cpu : Cpu FakeCpu := {|
  current_core_id := core_id;
  disable_irqs c :=
    (mkIrqState (if irqs_enabled c then 1 else 0)%N,
     mkFakeCpu (core_id c) false (wait_for_interrupt_count c) (instruction_barrier_count c));
  restore_irq_state st c :=
    mkFakeCpu (core_id c) (negb (irq_bits st =? 0)%N) (wait_for_interrupt_count c) (instruction_barrier_count c);
  wait_for_interrupt :=
    n ← gets wait_for_interrupt_count; n ← add_assign 64 n 1;
    modify (λ c, mkFakeCpu (core_id c) (irqs_enabled c) n (instruction_barrier_count c));
  instruction_barrier :=
    n ← gets instruction_barrier_count; n ← add_assign 64 n 1;
    modify (λ c, mkFakeCpu (core_id c) (irqs_enabled c) (wait_for_interrupt_count c) n);
|}.

#[refine] Global Instance FakeCpu_laws : CpuLaws FakeCpu := {|
  irqs_masked c := negb (irqs_enabled c);
|}.
Proof.
  - done.
  - intros s s'. simpl. by destruct (irqs_enabled s).
  - intros [id [] w i]; done.
Defined.

(** ** [FakeIrqController] *)

Record FakeIrqState := mkFakeIrq {
  enabled : gset N;
  pending : list IrqNumber;
  eoi_history : list IrqNumber;
}.

Definition fake_irq_new : FakeIrqState := mkFakeIrq ∅ [] [].
Definition inject (irq : IrqNumber) (s : FakeIrqState) : FakeIrqState :=
  mkFakeIrq (enabled s) (pending s ++ [irq]) (eoi_history s).
Definition is_enabled (irq : IrqNumber) (s : FakeIrqState) : bool := bool_decide (irq_id irq ∈ enabled s).
Definition pending_count (s : FakeIrqState) : usize := N.of_nat (length (pending s)).

Global Instance FakeIrqController : IrqController unit FakeIrqState := {|
  irq_enable _ irq := modify (λ s, mkFakeIrq ({[irq_id irq]} ∪ enabled s) (pending s) (eoi_history s));
  irq_disable _ irq := modify (λ s, mkFakeIrq (enabled s ∖ {[irq_id irq]}) (pending s) (eoi_history s));
  acknowledge _ := λ s,
    match pending s with
    | [] => Done None s
    | irq :: rest => Done (Some irq) (mkFakeIrq (enabled s) rest (eoi_history s))
    end;
  end_of_interrupt _ irq := modify (λ s, mkFakeIrq (enabled s) (pending s) (eoi_history s ++ [irq]));
|}.

Lemma fake_irq_eq (i j : IrqNumber) : irq_id j = irq_id i ↔ j = i.
Proof. destruct i, j; simpl. split; congruence. Qed.

#[refine] Global Instance FakeIrqLaws : IrqControllerLaws unit FakeIrqState tt := {|
  line_ok _ _ := True;
  delivers s irq := is_enabled irq s;
|}.
Proof.
  - intros s irq _. eexists. split; [done|]. intros j _. split; [done|].
    unfold is_enabled. cbn [enabled]. apply eq_true_iff_eq.
    rewrite orb_true_iff, !bool_decide_eq_true, elem_of_union, elem_of_singleton, fake_irq_eq. done.
  - intros s irq _. eexists. split; [done|]. intros j _. split; [done|].
    unfold is_enabled. cbn [enabled]. apply eq_true_iff_eq.
    rewrite andb_true_iff, negb_true_iff, bool_decide_eq_false, !bool_decide_eq_true.
    rewrite elem_of_difference, elem_of_singleton, fake_irq_eq. tauto.
  - intros s o s'. cbn [acknowledge FakeIrqController]. by destruct (pending s); intros [= <- <-].
  - intros s irq s' [= <-] j _. done.
Defined.

(** ** [FakeTimer] *)

Record FakeTimer := mkFakeTimer {
  fake_resolution_ns : u64;
  fake_now_ns : u64;
  armed_deadline : option u64;
  cancel_count : u64;
}.

Definition fake_timer_new (resolution : u64) : FakeTimer := mkFakeTimer resolution 0 None 0.
Definition advance (delta_ns : u64) (t : FakeTimer) : FakeTimer :=
  mkFakeTimer (fake_resolution_ns t) (saturating_add 64 (fake_now_ns t) delta_ns) (armed_deadline t)
    (cancel_count t).
Definition set_now (ns : u64) (t : FakeTimer) : FakeTimer :=
  mkFakeTimer (fake_resolution_ns t) ns (armed_deadline t) (cancel_count t).

Global Instance FakeTimer_timer : Timer unit FakeTimer := {|
  now_ns _ := gets fake_now_ns;
  arm_deadline _ d := modify (λ t, mkFakeTimer (fake_resolution_ns t) (fake_now_ns t) (Some d) (cancel_count t));
  cancel_deadline _ :=
    modify (λ t, mkFakeTimer (fake_resolution_ns t) (fake_now_ns t) None (cancel_count t));;
    n ← gets cancel_count; n ← add_assign 64 n 1;
    modify (λ t, mkFakeTimer (fake_resolution_ns t) (fake_now_ns t) (armed_deadline t) n);
  resolution_ns _ := gets fake_resolution_ns;
|}.

(** The fake clock never goes back. *)
Lemma advance_monotonic d t : in_width 64 (fake_now_ns t) →
  (fake_now_ns t ≤ fake_now_ns (advance d t))%N ∧ in_width 64 (fake_now_ns (advance d t)).
Proof.
  unfold in_width, advance, saturating_add, umax. cbn [fake_now_ns].
  change (2 ^ 64)%N with 18446744073709551616%N. lia.
Qed.

(** ** [FakeConsole] *)

Global Instance FakeConsole : Console unit (list u8) := λ _ bytes, modify (λ captured, captured ++ bytes).

#[refine] Global Instance FakeConsoleLaws : ConsoleLaws unit (list u8) tt := {|
  console_ok _ := True;
  output s := s;
|}.
Proof. intros bs s _ _. eexists. by split_and!. Defined.

(** ** [FakeMmu] *)

(** A [Vec] of frames, consumed from its end. *)
Global Instance VecFrameProvider : FrameProvider (list PhysFrame) := λ available,
  match rev available with
  | [] => (None, [])
  | f :: rest => (Some f, rev rest)
  end.

Record FakeAddressSpace := mkFakeSpace {
  root : PhysFrame;
  mappings : gmap VirtAddr (PhysFrame * MappingFlags);
}.

Definition mapping_count (a : FakeAddressSpace) : nat := size (mappings a).
Definition space_lookup (a : FakeAddressSpace) (v : VirtAddr) : option (PhysFrame * MappingFlags) :=
  mappings a !! v.

Record FakeMmuState := mkFakeMmu {
  activated_root : option PhysFrame;
  tlb_address_invalidations : list VirtAddr;
  tlb_all_count : u64;
}.

Definition fake_mmu_new : FakeMmuState := mkFakeMmu None [] 0.

(** [Mmu::map] and [Mmu::unmap] of the fake; it takes no frame. *)
Definition fake_map {F} (v : VirtAddr) (p : PhysFrame) (f : MappingFlags) :
    M (FakeMmuState * FakeAddressSpace * F) MmuError unit := λ '(s, a, fr),
  if bool_decide (is_Some (mappings a !! v)) then Fail AlreadyMapped (s, a, fr)
  else Done tt (s, mkFakeSpace (root a) (<[v := (p, f)]> (mappings a)), fr).

Definition fake_unmap {F} (v : VirtAddr) :
    M (FakeMmuState * FakeAddressSpace * F) MmuError PhysFrame := λ '(s, a, fr),
  match mappings a !! v with
  | Some (p, _) => Done p (s, mkFakeSpace (root a) (delete v (mappings a)), fr)
  | None => Fail NotMapped (s, a, fr)
  end.

Global Instance FakeMmu {F} : Mmu FakeMmuState FakeAddressSpace F := {|
  create_address_space _ r := mkFakeSpace r ∅;
  address_space_root := root;
  activate a s := mkFakeMmu (Some (root a)) (tlb_address_invalidations s) (tlb_all_count s);
  mmu_map := fake_map;
  mmu_unmap := fake_unmap;
  invalidate_tlb_address v s :=
    mkFakeMmu (activated_root s) (tlb_address_invalidations s ++ [v]) (tlb_all_count s);
  invalidate_tlb_all :=
    n ← gets tlb_all_count; n ← add_assign 64 n 1;
    modify (λ s, mkFakeMmu (activated_root s) (tlb_address_invalidations s) n);
|}.

(** ** What the trait documents of [map] and [unmap] *)

(** The fake keeps the documented contract at every page-aligned address, ... *)
Lemma fake_map_documented {F} v p f s a (fr : F) :
  page_aligned v → map_documented (space_lookup a v) v (fake_map v p f (s, a, fr)).
Proof.
  intros Hv. unfold fake_map, space_lookup, map_documented. case_bool_decide as Hm; [done|].
  split; [done|]. by apply eq_None_not_Some.
Qed.

Lemma fake_unmap_documented {F} v s a (fr : F) :
  page_aligned v → unmap_documented (space_lookup a v) v (fake_unmap v (s, a, fr)).
Proof.
  intros Hv. unfold fake_unmap, space_lookup, unmap_documented.
  destruct (mappings a !! v) as [[p f]|] eqn:Hm; [split; [done|by exists f]|done].
Qed.

(** ... and at no other: it maps a misaligned address, which [MisalignedAddress] is
    documented to refuse, and unmaps it again. *)
Lemma fake_map_misaligned {F} v p f s a (fr : F) :
  ¬ page_aligned v → space_lookup a v = None →
  ∃ a', fake_map v p f (s, a, fr) = Done tt (s, a', fr) ∧ space_lookup a' v = Some (p, f) ∧
    fake_unmap v (s, a', fr) = Done p (s, mkFakeSpace (root a) (delete v (mappings a')), fr) ∧
    ¬ map_documented (space_lookup a v) v (fake_map v p f (s, a, fr)).
Proof.
  unfold fake_map, fake_unmap, space_lookup. intros Hv Hn. rewrite Hn, bool_decide_false by (by intros []).
  eexists. split; [done|]. cbn [mappings root]. rewrite lookup_insert_eq. split_and!; [done..|].
  intros [? _]. done.
Qed.
