(* ===== verification/Board.v ===== *)
(** * [bsp-qemu-virt/src/cpu.rs], [exceptions.rs]: the timer and interrupts

    The machine is [Platform]: the core of [QemuCpu.v], the system registers the
    board code reads and writes, and the bus with the interrupt controller. The
    static [GIC], written once in [kernel_entry] before any interrupt or task, is
    the argument [gic]. *)

From stdpp Require Import prelude.
From Stdlib Require Import Lia NArith.
From S2P Require Import Prelude HalCpu HalIrq Timer QemuCpu Gic.

Record SysRegs := mkSysRegs {
  r_currentel : u64;
  r_cntfrq : u64;
  r_cntvct : u64;
  r_cntv_cval : u64;
  r_cntv_ctl : u64;
  r_vbar : u64;
}.

Record Platform (B : Type) := mkPlatform {
  p_core : Core;
  p_sys : SysRegs;
  p_bus : B;
}.
Global Arguments mkPlatform {_} _ _ _.
Global Arguments p_core {_} _.
Global Arguments p_sys {_} _.
Global Arguments p_bus {_} _.

(** [QemuVirtCpu]. *)
Record CpuHandle := mkCpuHandle { frequency_hz : u64; cached_resolution_ns : u64 }.

Definition TIMER_IRQ : IrqNumber := mkIrq 27.
Definition TIMER_IRQ_ID : u32 := 27%N.

Section board.
Context {B : Type} `{!Bus B} (gic : QemuVirtGic).

Abbreviation P := (M (Platform B) Empty_set).

Definition on_bus {A} (m : M B Empty_set A) : P A :=
  zoom p_bus (λ b p, mkPlatform (p_core p) (p_sys p) b) m.

Definition set_sys (f : SysRegs → SysRegs) : P unit :=
  modify (λ p, mkPlatform (p_core p) (f (p_sys p)) (p_bus p)).

(** [msr] to the registers the code writes. *)
Definition msr_cntv_cval (v : u64) : P unit :=
  set_sys (λ r, mkSysRegs (r_currentel r) (r_cntfrq r) (r_cntvct r) v (r_cntv_ctl r) (r_vbar r)).
Definition msr_cntv_ctl (v : u64) : P unit :=
  set_sys (λ r, mkSysRegs (r_currentel r) (r_cntfrq r) (r_cntvct r) (r_cntv_cval r) v (r_vbar r)).
Definition msr_vbar (v : u64) : P unit :=
  set_sys (λ r, mkSysRegs (r_currentel r) (r_cntfrq r) (r_cntvct r) (r_cntv_cval r) (r_cntv_ctl r) v).

(** [msr daifclr, #0x2]: [DAIF.I] is bit 7 of the register. *)
Definition msr_daifclr_i : P unit :=
  modify (λ p, mkPlatform
    (mkCore (N.clearbit (daif (p_core p)) 7) (mpidr (p_core p)) (registers (p_core p)))
    (p_sys p) (p_bus p)).

(** [QemuVirtCpu::new]. *)
Definition cpu_new : P CpuHandle :=
  raw ← gets (λ p, r_currentel (p_sys p));
  assert_ (current_el raw =? 1)%N;;
  frequency ← gets (λ p, r_cntfrq (p_sys p));
  assert_ (0 <? frequency)%N;;
  resolution ← unwrap_or_panic (resolution_ns_for_freq frequency);
  mret (mkCpuHandle frequency resolution).

(** ** [impl Timer for QemuVirtCpu] *)

Definition qemu_now_ns (cpu : CpuHandle) : P u64 :=
  count ← gets (λ p, r_cntvct (p_sys p));
  unwrap_or_panic (ticks_to_ns count (frequency_hz cpu)).

Definition qemu_arm_deadline (cpu : CpuHandle) (deadline_ns : u64) : P unit :=
  target_ticks ← unwrap_or_panic (ns_to_ticks deadline_ns (frequency_hz cpu));
  msr_cntv_cval target_ticks;;
  msr_cntv_ctl 1;;
  on_bus (irq_enable gic TIMER_IRQ).

Definition qemu_cancel_deadline (cpu : CpuHandle) : P unit :=
  msr_cntv_ctl 2;;
  on_bus (irq_disable gic TIMER_IRQ).

Global Instance QemuVirtTimer : Timer CpuHandle (Platform B) := {|
  now_ns := qemu_now_ns;
  arm_deadline := qemu_arm_deadline;
  cancel_deadline := qemu_cancel_deadline;
  resolution_ns cpu := mret (cached_resolution_ns cpu);
|}.

(** ** [irq_entry] *)

Definition irq_entry : P unit :=
  o ← on_bus (acknowledge gic);
  match o with
  | None => mret tt
  | Some irq =>
      if (irq_id irq =? TIMER_IRQ_ID)%N then
        msr_cntv_ctl 2;;
        on_bus (end_of_interrupt gic irq)
      else
        on_bus (end_of_interrupt gic irq);;
        panic
  end.
End board.

(** When the EL1 virtual timer asserts its interrupt (ARM ARM, D11.2): it is
    enabled, not masked, and the count has reached the compare value. *)
Definition timer_asserted (r : SysRegs) : bool :=
  N.testbit (r_cntv_ctl r) 0 && negb (N.testbit (r_cntv_ctl r) 1) && (r_cntv_cval r <=? r_cntvct r)%N.

(** Time passes: the counter advances to [c]. *)
Definition at_count {B} (c : u64) (p : Platform B) : Platform B :=
  let r := p_sys p in
  mkPlatform (p_core p)
    (mkSysRegs (r_currentel r) (r_cntfrq r) c (r_cntv_cval r) (r_cntv_ctl r) (r_vbar r)) (p_bus p).

Section proofs.
Context {B : Type} `{!Bus B} (gic : QemuVirtGic) `{!GicV2 B gic}.
Implicit Types (p : Platform B).

Lemma timer_line b : known_line (view b) 27.
Proof. unfold known_line, GIC_MAX_IRQ. lia. Qed.

(** Switching the timer's line. *)
Lemma timer_line_run (on : bool) p :
  ∃ b', on_bus (if on then irq_enable gic TIMER_IRQ else irq_disable gic TIMER_IRQ) p =
      Done tt (mkPlatform (p_core p) (p_sys p) b') ∧
    ∀ j, known_line (view (p_bus p)) j →
      line_enabled (view b') j = if decide (j = 27)%N then on else line_enabled (view (p_bus p)) j.
Proof.
  destruct (run_call_run gic (if on then Enable TIMER_IRQ else Disable TIMER_IRQ) (p_bus p))
    as (b' & Hr & _ & Hb'); [destruct on; apply timer_line|].
  exists b'. split.
  - unfold on_bus, zoom. destruct on; cbn [run_call] in Hr; cbn [irq_enable irq_disable QemuVirtGicController];
      by rewrite Hr.
  - intros j Hj. rewrite Hb' by done. by destruct on.
Qed.

Lemma eoi_run (j : N) p :
  (j < GIC_MAX_IRQ)%N → split_eoi (view (p_bus p)) = false →
  ∃ b', on_bus (end_of_interrupt gic (mkIrq j)) p = Done tt (mkPlatform (p_core p) (p_sys p) b') ∧
    ∀ k, active b' k = active (p_bus p) k && negb (bool_decide (k = j)).
Proof.
  intros Hj Hs. eexists. split; [done|]. intros k. by apply eoir_active.
Qed.

Lemma now_run cpu p :
  qemu_now_ns cpu p =
    match ticks_to_ns (r_cntvct (p_sys p)) (frequency_hz cpu) with Some now => Done now p | None => Panic end.
Proof. unfold qemu_now_ns, mbind, M_bind, gets. by destruct (ticks_to_ns _ _). Qed.

(** What an acknowledgement returns. *)
Lemma acknowledge_run p :
  ∃ b', on_bus (acknowledge gic) p =
      Done (mkIrq <$> top_pending (p_bus p)) (mkPlatform (p_core p) (p_sys p) b') ∧
    view b' = view (p_bus p) ∧
    ∀ k, active b' k = active (p_bus p) k || bool_decide (top_pending (p_bus p) = Some k).
Proof.
  destruct p as [core sys b]. cbn [p_core p_sys p_bus]. exists (read_cpu_interface gic GICC_IAR b).2.
  split; [|split; [apply iar_view|intros k; apply iar_active]].
  unfold on_bus, zoom. cbn [p_bus acknowledge QemuVirtGicController].
  unfold gic_acknowledge, mbind, M_bind, io_read.
  pose proof (iar_id b) as Hid. destruct (read_cpu_interface gic GICC_IAR b) as [raw b1].
  cbn [fst snd] in *. change GICC_IAR_INTID_MASK with 0x3FF%N. rewrite Hid. unfold GIC_SPURIOUS_INTID.
  destruct (top_pending b) as [j|] eqn:Ht; cbn [from_option id]; [|done].
  apply top_pending_lt in Ht. unfold GIC_MAX_IRQ in Ht.
  by rewrite (proj2 (N.eqb_neq j 1023)) by lia.
Qed.
End proofs.

(** ** Properties *)

(** C24: deadlines fire on time. After [arm_deadline d], and unless [d] lies
    beyond the range of the counter, the timer's line is enabled and no other line
    has changed, and the timer asserts its interrupt at exactly those counter
    values whose time, as [now_ns] reports it, is [d] or later. After
    [cancel_deadline] the line is disabled and the timer asserts at no value. *)
Theorem deadline_fires_on_time {B} `{!Bus B} (gic : QemuVirtGic) `{!GicV2 B gic}
    (cpu : CpuHandle) (d t : u64) (p : Platform B) :
  in_width 64 d → in_width 64 (frequency_hz cpu) → frequency_hz cpu ≠ 0%N →
  ns_to_ticks d (frequency_hz cpu) = Some t → (t < u64_max)%N →
  (∃ p', qemu_arm_deadline gic cpu d p = Done tt p' ∧
     (∀ j, known_line (view (p_bus p)) j → line_enabled (view (p_bus p')) j =
        if decide (j = 27)%N then true else line_enabled (view (p_bus p)) j) ∧
     ∀ c, in_width 64 c →
       timer_asserted (p_sys (at_count c p')) = true ↔
       ∃ now, qemu_now_ns cpu (at_count c p') = Done now (at_count c p') ∧ (d ≤ now)%N) ∧
  (∃ p', qemu_cancel_deadline gic cpu p = Done tt p' ∧
     line_enabled (view (p_bus p')) 27 = false ∧
     ∀ c, timer_asserted (p_sys (at_count c p')) = false).
Proof.
  intros Hd Hf Hz Ht Hsat. split.
  - set (p1 := mkPlatform (p_core p) (mkSysRegs (r_currentel (p_sys p)) (r_cntfrq (p_sys p))
      (r_cntvct (p_sys p)) t 1 (r_vbar (p_sys p))) (p_bus p)).
    destruct (timer_line_run gic true p1) as (b' & Hr & Hb').
    eexists. split; [unfold qemu_arm_deadline; rewrite Ht; exact Hr|]. split; [exact Hb'|].
    intros c Hc. pose proof (ns_to_ticks_first d (frequency_hz cpu) t c Hd Hf Hz Ht Hsat Hc) as Hfirst.
    cbn [at_count p_sys p_core p_bus p1 r_currentel r_cntfrq r_cntvct r_vbar r_cntv_cval r_cntv_ctl].
    unfold timer_asserted. cbn [r_cntv_ctl r_cntv_cval r_cntvct]. cbn [N.testbit Pos.testbit negb andb].
    rewrite N.leb_le, Hfirst, now_run. cbn [at_count p_sys r_cntvct].
    destruct (ticks_to_ns c (frequency_hz cpu)) as [now|];
      (split; intros (now' & Hnow & Hle); [simplify_eq|]; try done); [by eexists|].
    exists now'. split; [|done]. congruence.
  - set (p1 := mkPlatform (p_core p) (mkSysRegs (r_currentel (p_sys p)) (r_cntfrq (p_sys p))
      (r_cntvct (p_sys p)) (r_cntv_cval (p_sys p)) 2 (r_vbar (p_sys p))) (p_bus p)).
    destruct (timer_line_run gic false p1) as (b' & Hr & Hb').
    eexists. split; [exact Hr|]. split; [|done].
    cbn [p_bus]. rewrite (Hb' 27%N (timer_line gic _)). by rewrite decide_True.
Qed.

(** The board of the witnesses: 62.5 MHz, a controller with 288 lines. *)
Definition demo_sys : SysRegs := mkSysRegs 4 62500000 0 0 0 0.
Definition demo_board : Platform Gic400 := mkPlatform (mkCore 960 0 (λ _, 0%N)) demo_sys demo_gic.

Lemma deadline_fires_on_time_witness :
  let cpu := mkCpuHandle 62500000 16 in
  (∃ p', qemu_arm_deadline qemu_gic cpu 1000 demo_board = Done tt p' ∧
     (∀ j, known_line (view (p_bus demo_board)) j → line_enabled (view (p_bus p')) j =
        if decide (j = 27)%N then true else line_enabled (view (p_bus demo_board)) j) ∧
     ∀ c, in_width 64 c →
       timer_asserted (p_sys (at_count c p')) = true ↔
       ∃ now, qemu_now_ns cpu (at_count c p') = Done now (at_count c p') ∧ (1000 ≤ now)%N) ∧
  (∃ p', qemu_cancel_deadline qemu_gic cpu demo_board = Done tt p' ∧
     line_enabled (view (p_bus p')) 27 = false ∧
     ∀ c, timer_asserted (p_sys (at_count c p')) = false).
Proof.
  intros cpu.
  apply (deadline_fires_on_time qemu_gic cpu 1000 63 demo_board); [by vm_compute..|done|by vm_compute|done].
Defined.

(** C25: [irq_entry] on every branch, for every [GICv2] whose [GICC_EOIR] also
    deactivates, as [init] leaves it. A spurious acknowledgement returns with
    every line's active state as it was. A timer interrupt returns with the timer
    silenced, so that the same deadline does not fire again, and its line, and no
    other, inactive. Any other interrupt panics. *)
Theorem irq_entry_exact {B} `{!Bus B} (gic : QemuVirtGic) `{!GicV2 B gic} (p : Platform B) :
  split_eoi (view (p_bus p)) = false →
  match top_pending (p_bus p) with
  | None => ∃ p', irq_entry gic p = Done tt p' ∧ p_sys p' = p_sys p ∧ view (p_bus p') = view (p_bus p) ∧
      ∀ j, active (p_bus p') j = active (p_bus p) j
  | Some i =>
      if decide (i = 27)%N then
        ∃ p', irq_entry gic p = Done tt p' ∧
          (∀ c, timer_asserted (p_sys (at_count c p')) = false) ∧
          r_cntv_cval (p_sys p') = r_cntv_cval (p_sys p) ∧
          ∀ j, active (p_bus p') j = active (p_bus p) j && negb (bool_decide (j = 27)%N)
      else irq_entry gic p = Panic
  end.
Proof.
  intros Hs. destruct (acknowledge_run gic p) as (b1 & Ha & Hv & Hact).
  unfold irq_entry, mbind, M_bind. rewrite Ha. clear Ha.
  destruct (top_pending (p_bus p)) as [i|] eqn:Ht; cbn [fmap option_fmap option_map].
  - cbn [irq_id]. unfold TIMER_IRQ_ID. case_decide as Hi.
    + subst i. rewrite N.eqb_refl.
      destruct (eoi_run gic 27 (mkPlatform (p_core p) (mkSysRegs (r_currentel (p_sys p))
        (r_cntfrq (p_sys p)) (r_cntvct (p_sys p)) (r_cntv_cval (p_sys p)) 2 (r_vbar (p_sys p))) b1))
        as (b2 & He & Hact'); [done|by cbn [p_bus]; rewrite Hv|].
      eexists. split; [exact He|]. split_and!; [done..|].
      intros j. cbn [p_bus] in *. rewrite Hact', Hact.
      destruct (decide (j = 27)%N) as [->|Hj]; [by rewrite (bool_decide_true (27 = 27)%N), !andb_false_r|].
      rewrite (bool_decide_false (Some _ = _)), orb_false_r; [done|]. congruence.
    + rewrite (proj2 (N.eqb_neq i 27)) by done. done.
  - eexists. split; [done|]. cbn [p_sys p_bus]. split_and!; [done|exact Hv|].
    intros j. rewrite Hact, bool_decide_false, orb_false_r by done. done.
Qed.

Lemma irq_entry_exact_witness :
  let b := mkGic400 (mkView 8 (λ _, true) (λ _, 0%N) (λ _, true) true true (λ _, true) false)
             (λ j, bool_decide (j = 40)%N) (Some 27%N) in
  let p := mkPlatform (mkCore 960 0 (λ _, 0%N)) (mkSysRegs 4 62500000 99 63 1 0) b in
  ∃ p', irq_entry qemu_gic p = Done tt p' ∧
    (∀ c, timer_asserted (p_sys (at_count c p')) = false) ∧
    r_cntv_cval (p_sys p') = r_cntv_cval (p_sys p) ∧
    ∀ j, active (p_bus p') j = active (p_bus p) j && negb (bool_decide (j = 27)%N).
Proof. intros b p. exact (irq_entry_exact qemu_gic p eq_refl). Defined.
