(* ===== verification/Vectors.v ===== *)
(** * [bsp-qemu-virt/src/vectors.s], [exceptions.rs]: taking an exception

    [Hart] is what an exception touches: the platform of [Board.v] with its core,
    PSTATE, the exception registers, memory, and the program counter. [take] is
    the architecture's exception entry (ARM ARM, D1.10); [hart_step] executes one
    instruction of the vector section [vectors_s]. A [bl irq_entry] runs
    [Board.irq_entry] on the platform, and leaves in registers and memory whatever
    the compiled code ([compiled]) leaves there, which the calling convention
    ([Aapcs64]) constrains. *)

From stdpp Require Import prelude strings pretty.
From Stdlib Require Import Lia NArith Ascii.
From S2P Require Import Prelude Text HalCpu HalIrq Timer QemuCpu Asm Gic Board.

(** ** [TrapFrame] and [PanicClass] *)

(** [TrapFrame]; the field order is the [repr(C)] layout, 16 bytes to a field. *)
Record TrapFrame := mkTrapFrame {
  x0_x1 : u64 * u64;
  x2_x3 : u64 * u64;
  x4_x5 : u64 * u64;
  x6_x7 : u64 * u64;
  x8_x9 : u64 * u64;
  x10_x11 : u64 * u64;
  x12_x13 : u64 * u64;
  x14_x15 : u64 * u64;
  x16_x17 : u64 * u64;
  x18_lr : u64 * u64;
  elr_spsr : u64 * u64;
  _reserved : u64 * u64;
}.

(** [size_of::<TrapFrame>()]: twelve fields of two 8-byte words. *)
Definition TRAP_FRAME_SIZE : N := (12 * (2 * 8))%N.

(** The structure at an address. *)
Definition frame_at (m : N → u64) (a : N) : TrapFrame :=
  let field (k : N) := (m (a + 16 * k)%N, m (a + (16 * k + 8))%N) in
  (mkTrapFrame (field 0) (field 1) (field 2) (field 3) (field 4) (field 5)
    (field 6) (field 7) (field 8) (field 9) (field 10) (field 11))%N.

Inductive PanicClass := Generic | UnhandledIrqMode.

(** [PanicClass::from_u64]. *)
Definition from_u64 (raw : u64) : PanicClass :=
  if (raw =? 1)%N then UnhandledIrqMode else Generic.

(** [PanicClass::as_str]. *)
Definition as_str (c : PanicClass) : string :=
  match c with
  | Generic => "unhandled-class exception"
  | UnhandledIrqMode => "IRQ taken from unsupported mode (not curr_el_spx)"
  end.

(** [panic_entry]: the message it panics with. *)
Definition panic_entry (class esr : u64) : string :=
  "tyrne: " +:+ as_str (from_u64 class) +:+ "; ESR_EL1 = " +:+ hex018 esr +:+
  "; class id = " +:+ dec class.

(** ** [vectors.s] *)

Inductive sysreg := ELR_EL1 | SPSR_EL1 | ESR_EL1.

(** The two Rust functions the section calls. *)
Inductive callee := Fn_irq_entry | Fn_panic_entry.

Inductive label :=
  | tyrne_unhandled_exception_trampoline
  | tyrne_irq_curr_el_trampoline
  | tyrne_unhandled_irq_trampoline
  | L1_exception
  | L1_irq.

Global Instance label_eq_dec : EqDecision label.
Proof. solve_decision. Defined.

(** Loads and stores are relative to [sp]. *)
Inductive vinstr :=
  | SUB_SP (imm : N)
  | ADD_SP (imm : N)
  | STP_SP (r1 r2 : reg) (off : N)
  | LDP_SP (r1 r2 : reg) (off : N)
  | MRS (r : reg) (s : sysreg)
  | MSR (s : sysreg) (r : reg)
  | MOVI (r : reg) (imm : u64)
  | MOVR (dst src : reg)
  | BL (f : callee)
  | BR (l : label)
  | WFE
  | ERET.

(** One entry of the table. *)
Definition entry (l : label) : list (line vinstr label) := [Balign 0x80; Ins (BR l)].

Definition tyrne_vectors : list (line vinstr label) :=
  let exc := entry tyrne_unhandled_exception_trampoline in
  let irq := entry tyrne_unhandled_irq_trampoline in
  exc ++ irq ++ exc ++ exc ++
  exc ++ entry tyrne_irq_curr_el_trampoline ++ exc ++ exc ++
  exc ++ irq ++ exc ++ exc ++
  exc ++ irq ++ exc ++ exc ++ [Balign 0x80].

(** The IRQ trampoline up to the call, and after it. *)
Definition irq_save : list vinstr :=
  [ STP_SP (X 0) (X 1) 0x00;
    STP_SP (X 2) (X 3) 0x10;
    STP_SP (X 4) (X 5) 0x20;
    STP_SP (X 6) (X 7) 0x30;
    STP_SP (X 8) (X 9) 0x40;
    STP_SP (X 10) (X 11) 0x50;
    STP_SP (X 12) (X 13) 0x60;
    STP_SP (X 14) (X 15) 0x70;
    STP_SP (X 16) (X 17) 0x80;
    STP_SP (X 18) (X 30) 0x90;
    MRS (X 0) ELR_EL1;
    MRS (X 1) SPSR_EL1;
    STP_SP (X 0) (X 1) 0xA0;
    MOVR (X 0) SP ]%N.

Definition irq_restore : list vinstr :=
  [ LDP_SP (X 0) (X 1) 0xA0;
    MSR ELR_EL1 (X 0);
    MSR SPSR_EL1 (X 1);
    LDP_SP (X 18) (X 30) 0x90;
    LDP_SP (X 16) (X 17) 0x80;
    LDP_SP (X 14) (X 15) 0x70;
    LDP_SP (X 12) (X 13) 0x60;
    LDP_SP (X 10) (X 11) 0x50;
    LDP_SP (X 8) (X 9) 0x40;
    LDP_SP (X 6) (X 7) 0x30;
    LDP_SP (X 4) (X 5) 0x20;
    LDP_SP (X 2) (X 3) 0x10;
    LDP_SP (X 0) (X 1) 0x00 ]%N.

Definition irq_trampoline : list vinstr :=
  SUB_SP 192 :: irq_save ++ [BL Fn_irq_entry] ++ irq_restore ++ [ADD_SP 192; ERET].

(** The trampolines that end in [panic_entry]. *)
Definition unhandled_trampoline (class : u64) : list vinstr :=
  [SUB_SP 16; MOVI (X 0) class; MRS (X 1) ESR_EL1; BL Fn_panic_entry].

(** The whole section. *)
Definition vectors_s : list (line vinstr label) :=
  [Balign 2048] ++ tyrne_vectors ++
  Label tyrne_irq_curr_el_trampoline :: (Ins <$> irq_trampoline) ++
  Label tyrne_unhandled_exception_trampoline :: (Ins <$> unhandled_trampoline 0) ++
  [Label L1_exception; Ins WFE; Ins (BR L1_exception)] ++
  Label tyrne_unhandled_irq_trampoline :: (Ins <$> unhandled_trampoline 1) ++
  [Label L1_irq; Ins WFE; Ins (BR L1_irq)].

(** ** The hart *)

(** PSTATE is [DAIF] (in the core), the condition flags, and the mode [M[4:0]];
    [SP] in the register file is [SP_EL1]. *)
Record Hart (B : Type) := mkHart {
  platform : Platform B;
  nzcv : N;
  mode : N;
  elr : u64;
  spsr : u64;
  esr : u64;
  mem : N → u64;
  hpc : pc;
}.
Global Arguments mkHart {_} _ _ _ _ _ _ _ _.
Global Arguments platform {_} _.
Global Arguments nzcv {_} _.
Global Arguments mode {_} _.
Global Arguments elr {_} _.
Global Arguments spsr {_} _.
Global Arguments esr {_} _.
Global Arguments mem {_} _ _.
Global Arguments hpc {_} _.

(** EL1 with [SP_EL1], as [SPSR_EL2 = 0x3c5] establishes. *)
Definition EL1h : N := 5%N.

(** PSTATE in the layout of the SPSR: NZCV in 31:28, DAIF in 9:6, the mode in
    4:0. *)
Definition pstate_word (nzcv daif mode : N) : N := N.lor (N.lor (N.shiftl nzcv 28) daif) mode.
Definition word_nzcv (w : N) : N := N.land (N.shiftr w 28) 0xF.
Definition word_daif (w : N) : N := N.land w DAIF_ALL.
Definition word_mode (w : N) : N := N.land w 0x1F.

(** The four exception kinds, in the order of the table. *)
Inductive exn := ESync | EIrq | EFiq | ESError.

Global Instance exn_eq_dec : EqDecision exn.
Proof. solve_decision. Defined.

Definition kind_offset (x : exn) : N :=
  match x with ESync => 0 | EIrq => 0x80 | EFiq => 0x100 | ESError => 0x180 end%N.

(** The group of the table, by the mode the exception is taken from. *)
Definition mode_offset (m : N) : N :=
  if N.testbit m 4 then 0x600%N
  else if (N.shiftr m 2 =? 0)%N then 0x400%N
  else if N.testbit m 0 then 0x200%N else 0%N.

(** What executing an instruction leads to. [Unhandled msg] is a panic in
    [panic_entry] with that message. *)
Inductive outcome (B : Type) :=
  | Running (h : Hart B)
  | Unhandled (message : string)
  | Panicked
  | Fault.
Global Arguments Running {_} _.
Global Arguments Unhandled {_} _.
Global Arguments Panicked {_}.
Global Arguments Fault {_}.

Section hart.
Context {B : Type} `{!Bus B} (gic : QemuVirtGic) (base : u64) (compiled : Hart B → Hart B).
Implicit Types (h : Hart B).

Definition regs_of h : regfile := registers (p_core (platform h)).
Definition daif_of h : N := daif (p_core (platform h)).
Definition size : N := text_size vectors_s.

Definition with_daif (d : N) (p : Platform B) : Platform B :=
  mkPlatform (mkCore d (mpidr (p_core p)) (registers (p_core p))) (p_sys p) (p_bus p).
Definition with_regs (f : regfile) (p : Platform B) : Platform B :=
  mkPlatform (mkCore (daif (p_core p)) (mpidr (p_core p)) f) (p_sys p) (p_bus p).

Definition put (r : reg) (v : u64) h : Hart B :=
  mkHart (with_regs (set_reg r v (regs_of h)) (platform h)) (nzcv h) (mode h) (elr h) (spsr h) (esr h)
    (mem h) (hpc h).
Definition write (a : N) (v : u64) h : Hart B :=
  mkHart (platform h) (nzcv h) (mode h) (elr h) (spsr h) (esr h) (store a v (mem h)) (hpc h).
Definition goto (p : pc) h : Hart B :=
  mkHart (platform h) (nzcv h) (mode h) (elr h) (spsr h) (esr h) (mem h) p.
Definition get_sys (s : sysreg) h : u64 :=
  match s with ELR_EL1 => elr h | SPSR_EL1 => spsr h | ESR_EL1 => esr h end.
Definition put_sys (s : sysreg) (v : u64) h : Hart B :=
  let '(e, p, y) := match s with
    | ELR_EL1 => (v, spsr h, esr h) | SPSR_EL1 => (elr h, v, esr h) | ESR_EL1 => (elr h, spsr h, v) end in
  mkHart (platform h) (nzcv h) (mode h) e p y (mem h) (hpc h).

(** [goto] with the program counter kept is the default; [next] advances it. *)
Definition next (off : N) h : outcome B := Running (goto (InText (off + 4)) h).

(** An access through [sp] faults unless [sp] is 16-byte aligned. *)
Definition sp_aligned h : bool := (regs_of h SP mod 16 =? 0)%N.

(** The effect of an instruction that does not branch. *)
Definition effect (i : vinstr) h : Hart B :=
  let sp := regs_of h SP in
  match i with
  | SUB_SP imm => put SP (wrapping_sub 64 sp imm) h
  | ADD_SP imm => put SP (wrapping_add 64 sp imm) h
  | STP_SP r1 r2 off =>
      write (sp + (off + 8)) (regs_of h r2) (write (sp + off) (regs_of h r1) h)
  | LDP_SP r1 r2 off =>
      put r2 (mem h (sp + (off + 8))%N) (put r1 (mem h (sp + off)%N) h)
  | MRS r s => put r (get_sys s h) h
  | MSR s r => put_sys s (regs_of h r) h
  | MOVI r imm => put r imm h
  | MOVR dst src => put dst (regs_of h src) h
  | _ => h
  end.

(** Exception return: PSTATE from [SPSR_EL1], then to [ELR_EL1]. *)
Definition eret h : Hart B :=
  mkHart (with_daif (word_daif (spsr h)) (platform h)) (word_nzcv (spsr h)) (word_mode (spsr h))
    (elr h) (spsr h) (esr h) (mem h) (resolve base size (elr h)).

(** A call of [irq_entry] that returns to [InText off]: [Board.irq_entry] on the
    platform; the general registers, the flags, the exception registers and memory
    are what the compiled code leaves. *)
Definition call_irq_entry (off : N) h : outcome B :=
  let h := put (X 30) (base + off)%N h in
  match irq_entry gic (platform h) with
  | Done _ p =>
      let c := compiled h in
      Running (mkHart (with_regs (regs_of c) p) (nzcv c) (mode h) (elr c) (spsr c) (esr c) (mem c) (InText off))
  | _ => Panicked
  end.

Definition exec (i : vinstr) (off : N) h : outcome B :=
  match i with
  | STP_SP _ _ _ | LDP_SP _ _ _ => if sp_aligned h then next off (effect i h) else Fault
  | BL Fn_irq_entry => call_irq_entry (off + 4) h
  | BL Fn_panic_entry => Unhandled (panic_entry (regs_of h (X 0)) (regs_of h (X 1)))
  | BR l => Running (goto (InText (label_at vectors_s l)) h)
  | WFE => next off h
  | ERET => Running (eret h)
  | _ => next off (effect i h)
  end.

(** One instruction of the section; elsewhere the hart runs other code. *)
Definition hart_step h : outcome B :=
  match hpc h with
  | InText off => match instr_at vectors_s off with Some i => exec i off h | None => Fault end
  | Elsewhere _ => Running h
  end.

Fixpoint run (n : nat) (o : outcome B) : outcome B :=
  match n, o with
  | S n, Running h => run n (hart_step h)
  | _, _ => o
  end.

(** Exception entry to EL1. An IRQ or FIQ leaves the syndrome register alone. *)
Definition take (x : exn) (syndrome : u64) h : Hart B :=
  let return_addr := match hpc h with InText off => (base + off)%N | Elsewhere a => a end in
  mkHart (with_daif DAIF_ALL (platform h)) (nzcv h) EL1h return_addr
    (pstate_word (nzcv h) (daif_of h) (mode h))
    (match x with ESync | ESError => syndrome | _ => esr h end) (mem h)
    (resolve base size (N.ldiff (r_vbar (p_sys (platform h))) 2047 +
                        (mode_offset (mode h) + kind_offset x))).

(** The AAPCS64 contract of compiled code called at [h]: it keeps the callee-saved
    registers and the stack pointer, and writes memory only in the [stack] bytes
    below it. *)
Record Aapcs64 (stack : N) : Prop := {
  keeps_sp h : regs_of (compiled h) SP = regs_of h SP;
  keeps_x h n : (19 ≤ n ≤ 29)%N → regs_of (compiled h) (X n) = regs_of h (X n);
  keeps_d h n : (8 ≤ n ≤ 15)%N → regs_of (compiled h) (D n) = regs_of h (D n);
  keeps_mem h a : (a < regs_of h SP - stack ∨ regs_of h SP ≤ a)%N → mem (compiled h) a = mem h a;
}.

(** PSTATE within its fields. *)
Definition pstate_wf h : Prop :=
  (nzcv h < 16)%N ∧ (mode h < 32)%N ∧ ∃ d, (d < 16)%N ∧ daif_of h = (d * 64)%N.

(** The vectors are installed: [VBAR_EL1] holds the address of the section, which
    is aligned as [.balign 2048] says. *)
Definition installed h : Prop := (base mod 2048 = 0)%N ∧ r_vbar (p_sys (platform h)) = base.

(** Code outside the section runs. *)
Definition interrupted h : Prop :=
  match hpc h with Elsewhere a => resolve base size a = Elsewhere a | InText _ => False end.
End hart.

#[global] Arguments effect : simpl never.

(** ** Straight-line code *)

(** Instructions that neither branch nor move the stack pointer. *)
Definition block_instr (i : vinstr) : bool :=
  match i with
  | STP_SP _ _ _ | MSR _ _ => true
  | LDP_SP r1 r2 _ => bool_decide (r1 ≠ SP ∧ r2 ≠ SP)
  | MRS r _ | MOVI r _ | MOVR r _ => bool_decide (r ≠ SP)
  | _ => false
  end.

Definition effects {B} (l : list vinstr) (h : Hart B) : Hart B := fold_left (λ h i, effect i h) l h.

Section blocks.
Context {B : Type} `{!Bus B} (gic : QemuVirtGic) (base : u64) (compiled : Hart B → Hart B).
Implicit Types (h : Hart B).

Lemma effect_goto i p h : effect i (goto p h) = goto p (effect i h).
Proof. by destruct i as [| | | |r []|[] r| | | | | |]. Qed.

Lemma effects_goto l p h : effects l (goto p h) = goto p (effects l h).
Proof.
  revert h. induction l as [|i l IH]; intros h; [done|].
  unfold effects in *. cbn [fold_left]. by rewrite effect_goto, IH.
Qed.

Lemma effect_sp i h : block_instr i = true → regs_of (effect i h) SP = regs_of h SP.
Proof.
  destruct i as [| | | |r s|[] r| | | | | |]; cbn [block_instr]; rewrite ?bool_decide_eq_true; intros Hi; try done;
    unfold effect, put, regs_of; cbn [platform with_regs p_core registers];
    rewrite ?set_reg_ne; naive_solver.
Qed.

Lemma exec_block i off h :
  block_instr i = true → sp_aligned h = true → exec gic base compiled i off h = next off (effect i h).
Proof. intros Hi Ha. destruct i; try done; unfold exec; by rewrite Ha. Qed.

Lemma step_at off i h :
  hpc h = InText off → instr_at vectors_s off = Some i →
  hart_step gic base compiled h = exec gic base compiled i off h.
Proof. intros Hp Hi. unfold hart_step. by rewrite Hp, Hi. Qed.

(** A block runs to its end, and does what its instructions do. *)
Lemma run_block l off n h :
  code_at vectors_s off l → Forall (λ i, block_instr i = true) l →
  hpc h = InText off → sp_aligned h = true →
  run gic base compiled (length l + n) (Running h) =
  run gic base compiled n (Running (goto (InText (off + 4 * N.of_nat (length l))) (effects l h))).
Proof.
  intros Hc Hl. revert off h Hc. induction Hl as [|i l Hi Hl IH]; intros off h Hc Hp Ha.
  - cbn [length]. rewrite N.mul_0_r, N.add_0_r. rewrite <- Hp. by destruct h.
  - apply code_at_cons in Hc as [Hat Hc]. cbn [length Nat.add run].
    rewrite (step_at off i h Hp Hat), exec_block by done. unfold next.
    rewrite (IH (off + 4)%N); [|done|done|].
    + rewrite effects_goto. change (effects (i :: l) h) with (effects l (effect i h)).
      replace (off + 4 * N.of_nat (S (length l)))%N with (off + 4 + 4 * N.of_nat (length l))%N by lia. done.
    + unfold sp_aligned in *. change (regs_of (goto (InText (off + 4)) (effect i h))) with (regs_of (effect i h)).
      by rewrite effect_sp.
Qed.

(** [irq_entry] neither reads nor changes the core's registers and masks. *)
Lemma irq_entry_core c (p : Platform B) :
  irq_entry gic (mkPlatform c (p_sys p) (p_bus p)) =
  match irq_entry gic p with
  | Done a p' => Done a (mkPlatform c (p_sys p') (p_bus p'))
  | Fail e p' => Fail e p'
  | Panic => Panic
  | Diverge => Diverge
  end.
Proof.
  unfold irq_entry, on_bus, zoom, msr_cntv_ctl, set_sys. monad. cbn [p_bus p_sys p_core].
  destruct (acknowledge gic (p_bus p)) as [[irq|] b|[]| |]; try done.
  destruct (irq_id irq =? TIMER_IRQ_ID)%N; cbn [p_bus p_sys p_core].
  - by destruct (end_of_interrupt gic irq b) as [| []| |].
  - by destruct (end_of_interrupt gic irq b) as [| []| |].
Qed.
End blocks.

(** ** The frame *)

(** The register slots of the frame. *)
Definition frame_slots : list (reg * N) :=
  [(X 0, 0); (X 1, 8); (X 2, 16); (X 3, 24); (X 4, 32); (X 5, 40); (X 6, 48); (X 7, 56);
   (X 8, 64); (X 9, 72); (X 10, 80); (X 11, 88); (X 12, 96); (X 13, 104); (X 14, 112);
   (X 15, 120); (X 16, 128); (X 17, 136); (X 18, 144); (X 30, 152)]%N.

(** What the trampoline stores. *)
Definition frame_words (f : regfile) (e s : u64) : list (N * u64) :=
  ((λ p, (p.2, f p.1)) <$> frame_slots) ++ [(160, e); (168, s)]%N.

Lemma frame_words_NoDup f e s : NoDup (frame_words f e s).*1.
Proof. apply (bool_decide_unpack _). by vm_compute. Qed.

Lemma frame_words_sys f e s :
  (160%N, e) ∈ frame_words f e s ∧ (168%N, s) ∈ frame_words f e s.
Proof. unfold frame_words. rewrite !elem_of_app. set_solver. Qed.

Lemma frame_words_bound f e s : Forall (λ p, p.1 < TRAP_FRAME_SIZE)%N (frame_words f e s).
Proof. repeat constructor. Qed.

Section frame.
Context {B : Type}.
Implicit Types (h : Hart B).

Lemma save_effects h :
  mem (effects irq_save h) = stores (regs_of h SP) (frame_words (regs_of h) (elr h) (spsr h)) (mem h) ∧
  regs_of (effects irq_save h) =
    set_reg (X 0) (regs_of h SP) (set_reg (X 1) (spsr h) (set_reg (X 0) (elr h) (regs_of h))) ∧
  platform (effects irq_save h) = with_regs (regs_of (effects irq_save h)) (platform h) ∧
  nzcv (effects irq_save h) = nzcv h ∧ mode (effects irq_save h) = mode h ∧
  esr (effects irq_save h) = esr h.
Proof.
  destruct h as [[[d mp f] sys bus] nz m e s y mm p]. split_and!.
  all: vm_compute; reflexivity.
Qed.

(** The registers an instruction writes. *)
Definition vwrites (i : vinstr) : list reg :=
  match i with
  | SUB_SP _ | ADD_SP _ => [SP]
  | LDP_SP r1 r2 _ => [r1; r2]
  | MRS r _ | MOVI r _ | MOVR r _ => [r]
  | _ => []
  end.

Lemma effects_frame l h r : r ∉ concat (vwrites <$> l) → regs_of (effects l h) r = regs_of h r.
Proof.
  revert h. induction l as [|i l IH]; intros h Hr; [done|]. cbn [fmap list_fmap concat] in Hr.
  apply not_elem_of_app in Hr as [Hi Hl]. change (effects (i :: l) h) with (effects l (effect i h)).
  rewrite IH by done. clear IH Hl.
  destruct i as [| | | |r' s|[] r'| | | | | |]; unfold effect, put, regs_of; cbn [platform with_regs p_core registers];
    rewrite ?set_reg_ne; set_solver.
Qed.

(** The register a frame slot belongs to, looked up. *)
Definition slot_of (r : reg) : option N := (λ p, p.2.2) <$> list_find (λ p, p.1 = r) frame_slots.

Lemma slot_of_In r o : slot_of r = Some o → (r, o) ∈ frame_slots.
Proof.
  unfold slot_of. intros ([k [r' o']] & (Hk & <- & _)%list_find_Some & ->)%fmap_Some.
  by eapply list_elem_of_lookup_2.
Qed.

Lemma slot_of_None r : slot_of r = None → r ∉ frame_slots.*1.
Proof.
  unfold slot_of. intros Hn%fmap_None Hr. apply list_find_None in Hn.
  apply list_elem_of_fmap in Hr as (p & -> & Hp). rewrite Forall_forall in Hn. by apply (Hn p).
Qed.

Lemma restore_effects h :
  (∀ r, regs_of (effects irq_restore h) r =
     match slot_of r with Some o => mem h (regs_of h SP + o)%N | None => regs_of h r end) ∧
  elr (effects irq_restore h) = mem h (regs_of h SP + 160)%N ∧
  spsr (effects irq_restore h) = mem h (regs_of h SP + 168)%N ∧
  platform (effects irq_restore h) = with_regs (regs_of (effects irq_restore h)) (platform h) ∧
  mem (effects irq_restore h) = mem h.
Proof.
  split_and!.
  - intros r. destruct (slot_of r) as [o|] eqn:Hs.
    + apply slot_of_In in Hs. destruct h as [[[d mp f] sys bus] nz m e s y mm p].
      unfold frame_slots in Hs.
      repeat (apply elem_of_cons in Hs as [[= -> ->]|Hs]; [by vm_compute|]).
      by apply not_elem_of_nil in Hs.
    + apply slot_of_None in Hs. apply effects_frame. intros Hin. apply Hs. revert Hin. clear.
      assert (Forall (λ r', r' ∈ frame_slots.*1) (concat (vwrites <$> irq_restore))) as Hall
        by (apply (bool_decide_unpack _); by vm_compute).
      rewrite Forall_forall in Hall. apply Hall.
  - destruct h as [[[d mp f] sys bus] nz m e s y mm p]. vm_compute. reflexivity.
  - destruct h as [[[d mp f] sys bus] nz m e s y mm p]. vm_compute. reflexivity.
  - destruct h as [[[d mp f] sys bus] nz m e s y mm p]. vm_compute. reflexivity.
  - destruct h as [[[d mp f] sys bus] nz m e s y mm p]. vm_compute. reflexivity.
Qed.
End frame.

#[local] Opaque effects.

Lemma regs_put {B} r v (h : Hart B) r' :
  regs_of (put r v h) r' = if decide (r' = r) then v else regs_of h r'.
Proof. done. Qed.

Lemma regs_goto {B} p (h : Hart B) : regs_of (goto p h) = regs_of h.
Proof. done. Qed.

Lemma mem_put {B} r v (h : Hart B) : mem (put r v h) = mem h.
Proof. done. Qed.

Lemma mem_goto {B} p (h : Hart B) : mem (goto p h) = mem h.
Proof. done. Qed.

Lemma platform_goto {B} p (h : Hart B) : platform (goto p h) = platform h.
Proof. done. Qed.

Lemma platform_put {B} r v (h : Hart B) :
  platform (put r v h) = with_regs (set_reg r v (regs_of h)) (platform h).
Proof. done. Qed.

(** ** PSTATE through the SPSR *)

Lemma pstate_round_trip nzcv d mode :
  (nzcv < 16)%N → (d < 16)%N → (mode < 32)%N →
  let w := pstate_word nzcv (d * 64) mode in
  word_nzcv w = nzcv ∧ word_daif w = (d * 64)%N ∧ word_mode w = mode.
Proof.
  intros Hn Hd Hm.
  assert (∀ a b c, a < 16 → b < 16 → c < 32 →
    let w := pstate_word (N.of_nat a) (N.of_nat b * 64) (N.of_nat c) in
    (word_nzcv w, word_daif w, word_mode w) = (N.of_nat a, N.of_nat b * 64, N.of_nat c)%N) as Hall.
  { assert (Forall (λ a, Forall (λ b, Forall (λ c,
      let w := pstate_word (N.of_nat a) (N.of_nat b * 64) (N.of_nat c) in
      (word_nzcv w, word_daif w, word_mode w) = (N.of_nat a, N.of_nat b * 64, N.of_nat c)%N)
      (seq 0 32)) (seq 0 16)) (seq 0 16)) as Hf by (apply (bool_decide_unpack _); by vm_compute).
    intros a b c Ha Hb Hc. rewrite Forall_forall in Hf.
    specialize (Hf a ltac:(apply elem_of_seq; lia)). rewrite Forall_forall in Hf.
    specialize (Hf b ltac:(apply elem_of_seq; lia)). rewrite Forall_forall in Hf.
    apply (Hf c). apply elem_of_seq. lia. }
  specialize (Hall (N.to_nat nzcv) (N.to_nat d) (N.to_nat mode)).
  rewrite !N2Nat.id in Hall. cbn zeta in Hall. cbn zeta.
  specialize (Hall ltac:(lia) ltac:(lia) ltac:(lia)). by injection Hall.
Qed.

(** ** From the vector to the call *)

Definition off_irq : N := label_at vectors_s tyrne_irq_curr_el_trampoline.

Section runs.
Context {B : Type} `{!Bus B} (gic : QemuVirtGic) (base : u64) (compiled : Hart B → Hart B).
Implicit Types (h : Hart B).

Lemma vector_pc h off :
  installed base h → (off < 2048)%N →
  resolve base size (N.ldiff (r_vbar (p_sys (platform h))) 2047 + off) = InText off.
Proof.
  intros [Hal ->] Ho. change 2047%N with (N.ones 11). rewrite N.ldiff_ones_r, N.shiftl_mul_pow2, N.shiftr_div_pow2.
  change (2 ^ 11)%N with 2048%N. replace (base / 2048 * 2048)%N with base.
  - apply resolve_in. eapply N.lt_trans; [exact Ho|]. by vm_compute.
  - pose proof (N.Div0.div_mod base 2048). lia.
Qed.

Lemma mode_offset_cases m : mode_offset m ∈ [0; 0x200; 0x400; 0x600]%N.
Proof. unfold mode_offset. repeat case_match; set_solver. Qed.

Lemma take_pc x syn h :
  installed base h → hpc (take base x syn h) = InText (mode_offset (mode h) + kind_offset x).
Proof.
  intros Hi. apply vector_pc; [done|]. pose proof (mode_offset_cases (mode h)) as Hm.
  repeat (apply elem_of_cons in Hm as [->|Hm]; [by destruct x|]). by apply not_elem_of_nil in Hm.
Qed.

(** One branch from the table, to the trampoline of the entry. *)
Definition target (x : exn) (m : N) : label :=
  match x with
  | EIrq => if decide (mode_offset m = 0x200)%N then tyrne_irq_curr_el_trampoline
            else tyrne_unhandled_irq_trampoline
  | _ => tyrne_unhandled_exception_trampoline
  end.

Lemma take_branch x syn h n :
  installed base h →
  run gic base compiled (S n) (Running (take base x syn h)) =
  run gic base compiled n (Running (goto (InText (label_at vectors_s (target x (mode h)))) (take base x syn h))).
Proof.
  intros Hi. cbn [run]. rewrite (step_at gic base compiled _ (BR (target x (mode h))) _ (take_pc x syn h Hi)); [done|].
  pose proof (mode_offset_cases (mode h)) as Hm. unfold target.
  repeat (apply elem_of_cons in Hm as [->|Hm]; [destruct x; by vm_compute|]). by apply not_elem_of_nil in Hm.
Qed.

(** The trampolines that end in [panic_entry]. *)
Lemma run_unhandled class off h :
  code_at vectors_s off (unhandled_trampoline class) →
  run gic base compiled 4 (Running (goto (InText off) h)) = Unhandled (panic_entry class (esr h)).
Proof.
  unfold unhandled_trampoline. intros (H1 & (H2 & (H3 & (H4 & _)%code_at_cons)%code_at_cons)%code_at_cons)%code_at_cons.
  cbn [run]. erewrite step_at by first [exact H1|done]. unfold exec, next.
  erewrite step_at by first [exact H2|done]. unfold exec, next.
  erewrite step_at by first [exact H3|done]. unfold exec, next.
  by erewrite step_at by first [exact H4|done].
Qed.

(** The hart when the IRQ trampoline has reserved its frame. *)
Definition reserved h syn : Hart B :=
  goto (InText (off_irq + 4)) (put SP (regs_of h SP - TRAP_FRAME_SIZE)%N (take base EIrq syn h)).

(** ... and when it calls [irq_entry]. *)
Definition at_call h syn : Hart B :=
  goto (InText (off_irq + 60)) (effects irq_save (reserved h syn)).

Lemma regs_reserved h syn :
  regs_of (reserved h syn) = set_reg SP (regs_of h SP - TRAP_FRAME_SIZE)%N (regs_of h).
Proof. done. Qed.

Definition irq_sp_ok h : Prop :=
  (regs_of h SP mod 16 = 0 ∧ TRAP_FRAME_SIZE ≤ regs_of h SP ∧ regs_of h SP < 2 ^ 64)%N.

Lemma frame_aligned h : irq_sp_ok h → ((regs_of h SP - TRAP_FRAME_SIZE) mod 16 = 0)%N.
Proof.
  intros (Ha & Hb & _). change TRAP_FRAME_SIZE with (12 * 16)%N in *.
  rewrite N.Lcm0.mod_divide in *. destruct Ha as [k Hk]. exists (k - 12)%N. lia.
Qed.

Lemma run_to_call h syn n :
  installed base h → mode_offset (mode h) = 0x200%N → irq_sp_ok h →
  run gic base compiled (16 + n) (Running (take base EIrq syn h)) =
  run gic base compiled n (Running (at_call h syn)).
Proof.
  intros Hi Hm Hsp. change (16 + n) with (S (S (14 + n))). rewrite take_branch by done.
  unfold target. rewrite decide_True by done. fold off_irq.
  assert (code_at vectors_s off_irq irq_trampoline) as Hc by (apply code_at_compute; by vm_compute).
  apply code_at_cons in Hc as [Hsub Hc].
  assert (code_at vectors_s (off_irq + 4) irq_save) as Hsave.
  { intros k i Hk. apply Hc. by apply lookup_app_l_Some. }
  cbn [run]. rewrite (step_at gic base compiled off_irq (SUB_SP 192)
    (goto (InText off_irq) (take base EIrq syn h)) eq_refl Hsub).
  change (14 + n) with (length irq_save + n). unfold exec, next, effect.
  replace (wrapping_sub 64 (regs_of (goto (InText off_irq) (take base EIrq syn h)) SP) 192)
    with (regs_of h SP - TRAP_FRAME_SIZE)%N.
  2:{ change (regs_of (goto (InText off_irq) (take base EIrq syn h)) SP) with (regs_of h SP).
      destruct Hsp as (_ & Hb & Hl). change TRAP_FRAME_SIZE with 192%N in *.
      unfold wrapping_sub, wrap. generalize dependent (2 ^ 64)%N. intros w Hl.
      replace (regs_of h SP + w - 192)%N with (regs_of h SP - 192 + 1 * w)%N by lia.
      rewrite N.Div0.mod_add, N.mod_small; lia. }
  change (goto (InText (off_irq + 4)) (put SP _ _)) with (reserved h syn).
  rewrite (run_block gic base compiled irq_save (off_irq + 4)); [done|done| |done|].
  - repeat constructor.
  - unfold sp_aligned. change (regs_of (reserved h syn) SP) with (regs_of h SP - TRAP_FRAME_SIZE)%N.
    by rewrite frame_aligned.
Qed.

Lemma not_elem_of_cons4 {A} (x a b c d : A) :
  x ∉ [a; b; c; d] → x ≠ a ∧ x ≠ b ∧ x ≠ c ∧ x ≠ d ∧ True.
Proof. set_solver. Qed.

(** The hart as [irq_entry] sees it. *)
Definition callee_hart h syn : Hart B := put (X 30) (base + (off_irq + 64))%N (at_call h syn).

Lemma callee_regs h syn :
  regs_of (callee_hart h syn) SP = (regs_of h SP - TRAP_FRAME_SIZE)%N ∧
  regs_of (callee_hart h syn) (X 0) = (regs_of h SP - TRAP_FRAME_SIZE)%N ∧
  ∀ r, r ∉ [X 0; X 1; X 30; SP] → regs_of (callee_hart h syn) r = regs_of h r.
Proof.
  destruct (save_effects (reserved h syn)) as (_ & Hr & _).
  assert (∀ r, regs_of (callee_hart h syn) r =
    if decide (r = X 30) then (base + (off_irq + 64))%N else regs_of (effects irq_save (reserved h syn)) r) as Hc.
  { intros r. unfold callee_hart. rewrite regs_put. unfold at_call. by rewrite regs_goto. }
  split_and!.
  - rewrite Hc, Hr, decide_False by done. by rewrite !set_reg_ne, regs_reserved, set_reg_eq by done.
  - rewrite Hc, Hr, decide_False by done. by rewrite set_reg_eq, regs_reserved, set_reg_eq.
  - intros r (H0 & H1 & H30 & Hsp & _)%not_elem_of_cons4.
    rewrite Hc, Hr, decide_False by exact H30.
    rewrite (set_reg_ne (X 0) r), (set_reg_ne (X 1) r), (set_reg_ne (X 0) r), regs_reserved by assumption.
    by apply set_reg_ne.
Qed.

(** The values the frame keeps: the interrupted registers, address and PSTATE. *)
Definition return_address h : u64 :=
  match hpc h with InText off => (base + off)%N | Elsewhere a => a end.

Lemma callee_mem h syn :
  mem (callee_hart h syn) =
  stores (regs_of h SP - TRAP_FRAME_SIZE)
    (frame_words (regs_of h) (return_address h) (pstate_word (nzcv h) (daif_of h) (mode h))) (mem h).
Proof.
  unfold callee_hart, at_call. rewrite mem_put, mem_goto.
  destruct (save_effects (reserved h syn)) as (-> & _). rewrite regs_reserved, set_reg_eq. done.
Qed.

(** A slot of the frame holds the register it is for. *)
Lemma callee_frame h syn o v :
  (o, v) ∈ frame_words (regs_of h) (return_address h) (pstate_word (nzcv h) (daif_of h) (mode h)) →
  mem (callee_hart h syn) (regs_of h SP - TRAP_FRAME_SIZE + o)%N = v.
Proof. intros Hin. rewrite callee_mem. apply stores_lookup; [apply frame_words_NoDup|done]. Qed.

Lemma callee_mem_outside h syn a :
  irq_sp_ok h → (a < regs_of h SP - TRAP_FRAME_SIZE ∨ regs_of h SP ≤ a)%N →
  mem (callee_hart h syn) a = mem h a.
Proof.
  intros (_ & Hb & _) Ha. rewrite callee_mem. apply stores_outside.
  pose proof (frame_words_bound (regs_of h) (return_address h)
    (pstate_word (nzcv h) (daif_of h) (mode h))) as Hw.
  eapply Forall_impl; [exact Hw|]. intros [o v]. simpl. lia.
Qed.

Lemma code_after_call :
  instr_at vectors_s (off_irq + 60) = Some (BL Fn_irq_entry) ∧
  code_at vectors_s (off_irq + 64) irq_restore ∧
  instr_at vectors_s (off_irq + 116) = Some (ADD_SP 192) ∧
  instr_at vectors_s (off_irq + 120) = Some ERET.
Proof. split_and!; [..|apply code_at_compute| |]; by vm_compute. Qed.

Lemma callee_platform h syn :
  platform (callee_hart h syn) =
  mkPlatform (p_core (platform (callee_hart h syn))) (p_sys (platform h)) (p_bus (platform h)).
Proof.
  destruct (save_effects (reserved h syn)) as (_ & _ & Hp & _).
  unfold callee_hart, at_call. rewrite platform_put, platform_goto, Hp. reflexivity.
Qed.

(** [irq_entry] has returned. *)
Definition hart_returned (c : Hart B) (p : Platform B) : Hart B :=
  mkHart (with_regs (regs_of c) p) (nzcv c) EL1h (elr c) (spsr c) (esr c) (mem c) (InText (off_irq + 64)).

Lemma returned_regs c p : regs_of (hart_returned c p) = regs_of c.
Proof. done. Qed.

Lemma returned_mem c p : mem (hart_returned c p) = mem c.
Proof. done. Qed.

Lemma run_call h syn n :
  run gic base compiled (S n) (Running (at_call h syn)) =
  match irq_entry gic (platform h) with
  | Done _ p => run gic base compiled n
      (Running (hart_returned (compiled (callee_hart h syn)) (mkPlatform (p_core (platform (callee_hart h syn))) (p_sys p) (p_bus p))))
  | _ => run gic base compiled n Panicked
  end.
Proof.
  destruct code_after_call as (Hbl & _). cbn [run].
  rewrite (step_at gic base compiled (off_irq + 60) (BL Fn_irq_entry) (at_call h syn) eq_refl Hbl).
  unfold exec, call_irq_entry. rewrite <- N.add_assoc. change (60 + 4)%N with 64%N. fold (callee_hart h syn).
  rewrite (callee_platform h syn) at 1. rewrite irq_entry_core. by destruct (irq_entry gic (platform h)).
Qed.

(** The end of the trampoline, in terms of the hart that returned from the call. *)
Lemma run_restore h n :
  hpc h = InText (off_irq + 64) → (regs_of h SP mod 16 = 0)%N →
  (regs_of h SP + TRAP_FRAME_SIZE < 2 ^ 64)%N →
  ∃ h', run gic base compiled (15 + n) (Running h) = run gic base compiled n (Running h') ∧
    (∀ r, r ≠ SP → regs_of h' r =
       match slot_of r with Some o => mem h (regs_of h SP + o)%N | None => regs_of h r end) ∧
    regs_of h' SP = (regs_of h SP + TRAP_FRAME_SIZE)%N ∧ mem h' = mem h ∧
    p_sys (platform h') = p_sys (platform h) ∧ p_bus (platform h') = p_bus (platform h) ∧
    (let w := mem h (regs_of h SP + 168)%N in
     nzcv h' = word_nzcv w ∧ daif_of h' = word_daif w ∧ mode h' = word_mode w) ∧
    hpc h' = resolve base size (mem h (regs_of h SP + 160)%N).
Proof.
  intros Hp Ha Hw. destruct code_after_call as (_ & Hres & Hadd & Heret).
  change (15 + n) with (length irq_restore + (2 + n)).
  rewrite (run_block gic base compiled irq_restore (off_irq + 64)); [|done|by repeat constructor|done|].
  2:{ unfold sp_aligned. by rewrite Ha. }
  destruct (restore_effects h) as (Hr & He & Hs & Hpl & Hm).
  generalize dependent (effects irq_restore h). intros h1 Hr He Hs Hpl Hm.
  assert (regs_of h1 SP = regs_of h SP) as Hsp by (rewrite Hr; reflexivity).
  change (off_irq + 64 + 4 * N.of_nat (length irq_restore))%N with (off_irq + 64 + 52)%N.
  rewrite <- N.add_assoc. change (64 + 52)%N with 116%N. change (2 + n) with (S (S n)). cbn [run].
  rewrite (step_at gic base compiled (off_irq + 116) (ADD_SP 192)
    (goto (InText (off_irq + 116)) h1) eq_refl Hadd).
  unfold exec at 1, next, effect. rewrite <- N.add_assoc. change (116 + 4)%N with 120%N.
  change (regs_of (goto (InText (off_irq + 116)) h1) SP) with (regs_of h1 SP). rewrite Hsp.
  rewrite wrapping_add_small by exact Hw. change 192%N with TRAP_FRAME_SIZE.
  set (h2 := goto (InText (off_irq + 120)) _).
  rewrite (step_at gic base compiled (off_irq + 120) ERET h2 eq_refl Heret).
  assert (platform h2 = with_regs (set_reg SP (regs_of h SP + TRAP_FRAME_SIZE)%N (regs_of h1)) (platform h))
    as Hp2.
  { unfold h2. by rewrite platform_goto, platform_put, platform_goto, regs_goto, Hpl. }
  exists (eret base h2). split; [done|].
  assert (∀ r, regs_of (eret base h2) r = set_reg SP (regs_of h SP + TRAP_FRAME_SIZE)%N (regs_of h1) r) as Hregs.
  { intros r. unfold eret, regs_of, with_daif. cbn [platform p_core registers]. by rewrite Hp2. }
  split_and!.
  - intros r Hne. rewrite Hregs, set_reg_ne by done. apply Hr.
  - rewrite Hregs. apply set_reg_eq.
  - exact Hm.
  - unfold eret, with_daif. cbn [platform p_sys]. by rewrite Hp2.
  - unfold eret, with_daif. cbn [platform p_bus]. by rewrite Hp2.
  - cbn zeta. by rewrite <- Hs.
  - cbn zeta. by rewrite <- Hs.
  - cbn zeta. by rewrite <- Hs.
  - by rewrite <- He.
Qed.
End runs.

(** ** Properties *)

(** The registers an interrupt must not change: the general registers and the
    stack pointer, and the callee-saved half of the vector registers. *)
Definition preserved (r : reg) : Prop :=
  match r with X n => (n ≤ 30)%N | D n => (8 ≤ n ≤ 15)%N | SP => True end.

(** A preserved register is in the frame, or callee-saved, or [sp]. *)
Lemma preserved_cases r :
  preserved r →
  r = SP ∨ (∃ o, slot_of r = Some o) ∨
  (slot_of r = None ∧ ((∃ n, r = X n ∧ (19 ≤ n ≤ 29)%N) ∨ (∃ n, r = D n ∧ (8 ≤ n ≤ 15)%N))).
Proof.
  destruct r as [n|n|]; simpl; [|intros Hn; right; right; split; [by vm_compute|by eauto]|by eauto].
  intros Hn. right. destruct (slot_of (X n)) as [o|] eqn:Hs; [eauto|]. right. split; [done|]. left.
  exists n. split; [done|]. apply slot_of_None in Hs.
  destruct (decide (n < 19)%N) as [Hlt|Hge]; [|destruct (decide (n = 30)%N) as [->|]; [|lia]];
    exfalso; apply Hs; [|by apply (bool_decide_unpack _); vm_compute].
  assert (X n ∈ X <$> (N.of_nat <$> seq 0 19)) as Hin.
  { apply list_elem_of_fmap. exists n. split; [done|]. apply list_elem_of_fmap. exists (N.to_nat n).
    rewrite elem_of_seq. lia. }
  assert (Forall (λ r, r ∈ frame_slots.*1) (X <$> (N.of_nat <$> seq 0 19))) as Hall
    by (apply (bool_decide_unpack _); by vm_compute).
  rewrite Forall_forall in Hall. by apply Hall.
Qed.

Section transparent.
Context {B : Type} `{!Bus B} (gic : QemuVirtGic) (base : u64) (compiled : Hart B → Hart B).
Implicit Types (h : Hart B).

(** The hart when the trampoline has returned, against the interrupted one. *)
Record resumes (stack : N) h (p : Platform B) (h' : Hart B) : Prop := {
  res_pc : hpc h' = hpc h;
  res_pstate : nzcv h' = nzcv h ∧ daif_of h' = daif_of h ∧ mode h' = mode h;
  res_regs r : preserved r → regs_of h' r = regs_of h r;
  res_mem a : (a < regs_of h SP - TRAP_FRAME_SIZE - stack ∨ regs_of h SP ≤ a)%N → mem h' a = mem h a;
  res_platform : p_sys (platform h') = p_sys p ∧ p_bus (platform h') = p_bus p;
}.

Lemma interrupted_resolve h :
  interrupted base h → resolve base size (return_address base h) = hpc h.
Proof. unfold interrupted, return_address. by destruct (hpc h). Qed.

(** What conforming code called by the trampoline keeps. *)
Lemma compiled_kept stack h syn :
  Aapcs64 compiled stack → irq_sp_ok h →
  let c := compiled (callee_hart base h syn) in
  regs_of c SP = (regs_of h SP - TRAP_FRAME_SIZE)%N ∧
  (∀ r, (∃ n, r = X n ∧ (19 ≤ n ≤ 29)%N) ∨ (∃ n, r = D n ∧ (8 ≤ n ≤ 15)%N) → regs_of c r = regs_of h r) ∧
  ∀ a, (a < regs_of h SP - TRAP_FRAME_SIZE - stack ∨ regs_of h SP ≤ a)%N → mem c a = mem h a.
Proof.
  intros Hc Hsp c. destruct (callee_regs base h syn) as (Hcsp & _ & Hcr). split_and!.
  - unfold c. by rewrite (keeps_sp _ _ Hc).
  - intros r Hr. transitivity (regs_of (callee_hart base h syn) r).
    + destruct Hr as [(n & -> & Hn)|(n & -> & Hn)]; [by apply (keeps_x _ _ Hc)|by apply (keeps_d _ _ Hc)].
    + apply Hcr. intros Hin.
      destruct Hr as [(n & -> & Hn)|(n & -> & Hn)]; repeat (apply elem_of_cons in Hin as [Hin|Hin]);
        try done; simplify_eq; try lia; by apply not_elem_of_nil in Hin.
  - intros a Ha. unfold c. pose proof Hsp as (_ & Hlo & _). rewrite (keeps_mem _ _ Hc) by (rewrite Hcsp; lia).
    apply callee_mem_outside; [done|]. lia.
Qed.

Lemma irq_run stack h syn :
  Aapcs64 compiled stack → installed base h → interrupted base h → pstate_wf h →
  mode_offset (mode h) = 0x200%N → irq_sp_ok h →
  match irq_entry gic (platform h) with
  | Done _ p => ∃ h', run gic base compiled 32 (Running (take base EIrq syn h)) = Running h' ∧
      resumes stack h p h' ∧ ∀ n, regs_of h' (D n) = regs_of (compiled (callee_hart base h syn)) (D n)
  | _ => run gic base compiled 32 (Running (take base EIrq syn h)) = Panicked
  end.
Proof.
  intros Hc Hi Hint (Hnz & Hmd & d & Hd & Hdaif) Hm Hsp.
  replace 32 with (16 + S (15 + 0)) by reflexivity.
  rewrite (run_to_call gic base compiled h syn) by done. rewrite (run_call gic base compiled h syn).
  destruct (irq_entry gic (platform h)) as [[] p|[]| |]; [|done..].
  destruct (callee_regs base h syn) as (Hcsp & _ & Hcr).
  assert (∀ o v, (o, v) ∈ frame_words (regs_of h) (return_address base h)
    (pstate_word (nzcv h) (daif_of h) (mode h)) →
    mem (compiled (callee_hart base h syn)) (regs_of h SP - TRAP_FRAME_SIZE + o)%N = v) as Hframe.
  { intros o v Hin. rewrite (keeps_mem _ _ Hc); [by apply callee_frame|]. right. rewrite Hcsp. lia. }
  pose proof (compiled_kept stack h syn Hc Hsp) as (Hsp' & Hkept & Hmemc).
  remember (compiled (callee_hart base h syn)) as c eqn:Ec. clear Ec.
  generalize (p_core (platform (callee_hart base h syn))). intros core.
  pose proof Hsp as (_ & Hlo & Hhi).
  destruct (run_restore gic base compiled (hart_returned c (mkPlatform core (p_sys p) (p_bus p))) 0)
    as (h' & Hrun & Hr & Hrsp & Hmem & Hsys & Hbus & Hps & Hpc); [done|..].
  { rewrite returned_regs, Hsp'. by apply frame_aligned. }
  { rewrite returned_regs, Hsp'. lia. }
  rewrite returned_regs, returned_mem, Hsp' in *.
  rewrite (Hframe 160%N (return_address base h)) in Hpc by apply frame_words_sys.
  cbn zeta in Hps.
  rewrite (Hframe 168%N (pstate_word (nzcv h) (daif_of h) (mode h))) in Hps by apply frame_words_sys.
  rewrite Hdaif in Hps. destruct (pstate_round_trip (nzcv h) d (mode h)) as (H1 & H2 & H3); [done..|].
  rewrite H1, H2, H3 in Hps.
  exists h'. split; [by rewrite Hrun|]. split; [|intros n; by rewrite Hr]. split.
  - rewrite Hpc. by apply interrupted_resolve.
  - by rewrite Hdaif.
  - intros r [->|[[o Ho]|[Hno Hcs]]]%preserved_cases.
    + rewrite Hrsp. lia.
    + assert (r ≠ SP) as Hns by (intros ->; by vm_compute in Ho).
      rewrite Hr, Ho by done. apply Hframe. apply elem_of_app. left. apply list_elem_of_fmap.
      exists (r, o). split; [done|]. by apply slot_of_In.
    + assert (r ≠ SP) as Hns by (destruct Hcs as [(n & -> & _)|(n & -> & _)]; done).
      rewrite Hr, Hno by exact Hns. by apply Hkept.
  - intros a Ha. rewrite Hmem. by apply Hmemc.
  - by rewrite Hsys, Hbus.
Qed.
End transparent.

(** The frame the trampoline builds, as [irq_entry] could read it through its
    argument. *)
Lemma call_frame {B} (base : u64) (h : Hart B) syn :
  frame_at (mem (at_call base h syn)) (regs_of h SP - TRAP_FRAME_SIZE) =
  let x n := regs_of h (X n) in
  (mkTrapFrame (x 0, x 1) (x 2, x 3) (x 4, x 5) (x 6, x 7) (x 8, x 9) (x 10, x 11) (x 12, x 13)
    (x 14, x 15) (x 16, x 17) (x 18, x 30)
    (return_address base h, pstate_word (nzcv h) (daif_of h) (mode h))
    (mem (at_call base h syn) (regs_of h SP - TRAP_FRAME_SIZE + 176),
     mem (at_call base h syn) (regs_of h SP - TRAP_FRAME_SIZE + 184)))%N.
Proof.
  pose proof (callee_frame base h syn) as Hf. unfold callee_hart in Hf. rewrite mem_put in Hf.
  generalize dependent (mem (at_call base h syn)). intros m Hf. unfold frame_at. cbn zeta. f_equal; f_equal.
  all: apply Hf; unfold frame_words, frame_slots; cbn [fmap list_fmap app fst snd].
  all: repeat (apply elem_of_cons; first [left; reflexivity|right]).
Qed.

(** C22: every exception ends up where the vector table should send it. With the
    vectors installed, an IRQ taken in the kernel (EL1h) reaches the call of
    [irq_entry] in 16 instructions, its argument pointing to a [TrapFrame] whose
    fields hold the interrupted registers, the return address and the saved
    PSTATE. Every other exception, from every mode, panics in [panic_entry] with
    class 1 if it is an IRQ and class 0 otherwise, and with the syndrome of a
    synchronous exception or SError. *)
Theorem vectors_dispatch {B} `{!Bus B} (gic : QemuVirtGic) (base : u64) (compiled : Hart B → Hart B)
    (x : exn) (syndrome : u64) (h : Hart B) :
  installed base h → irq_sp_ok h →
  if decide (x = EIrq ∧ mode_offset (mode h) = 0x200%N) then
    ∃ h' off w, run gic base compiled 16 (Running (take base x syndrome h)) = Running h' ∧
      hpc h' = InText off ∧ instr_at vectors_s off = Some (BL Fn_irq_entry) ∧
      regs_of h' (X 0) = regs_of h' SP ∧ (regs_of h' SP mod 16 = 0)%N ∧
      (regs_of h' SP + TRAP_FRAME_SIZE = regs_of h SP)%N ∧
      frame_at (mem h') (regs_of h' (X 0)) =
        let r n := regs_of h (X n) in
        (mkTrapFrame (r 0, r 1) (r 2, r 3) (r 4, r 5) (r 6, r 7) (r 8, r 9) (r 10, r 11) (r 12, r 13)
          (r 14, r 15) (r 16, r 17) (r 18, r 30)
          (return_address base h, pstate_word (nzcv h) (daif_of h) (mode h)) w)%N
  else
    run gic base compiled 5 (Running (take base x syndrome h)) =
    Unhandled (panic_entry (if decide (x = EIrq) then 1 else 0)
                 (if decide (x = ESync ∨ x = ESError) then syndrome else esr h))%N.
Proof.
  intros Hi Hsp. case_decide as Hx.
  - destruct Hx as [-> Hm]. rewrite (run_to_call gic base compiled h syndrome 0) by done.
    destruct (callee_regs base h syndrome) as (H1 & H2 & _). unfold callee_hart in H1, H2.
    rewrite regs_put, decide_False in H1 by done. rewrite regs_put, decide_False in H2 by done.
    exists (at_call base h syndrome), (off_irq + 60)%N. eexists. split; [done|]. split; [done|].
    split; [by apply code_after_call|]. rewrite H1, H2, call_frame. split_and!; try done.
    + by apply frame_aligned.
    + destruct Hsp as (_ & Hb & _). lia.
  - change 5 with (S 4). rewrite take_branch by done. unfold target.
    destruct x; [|rewrite decide_False by tauto|..];
      [rewrite (run_unhandled gic base compiled 0)|rewrite (run_unhandled gic base compiled 1)
      |rewrite (run_unhandled gic base compiled 0)..]; try done; apply code_at_compute; by vm_compute.
Qed.

(** C11: an interrupt is invisible to the code it interrupts. Whatever code at EL1h
    is interrupted, and whatever the compiled [irq_entry] does within its calling
    convention, the 32 instructions from the vector to [eret] resume the code at
    the interrupted address and PSTATE, with every general register, [sp] and
    d8 to d15 as they were, and memory unchanged but for the free stack below
    [sp]. What is left of the interrupt is what [irq_entry] did to the system
    registers and the devices; if it panics, nothing is resumed. *)
Theorem irq_is_transparent {B} `{!Bus B} (gic : QemuVirtGic) (base : u64)
    (compiled : Hart B → Hart B) (stack : N) (syndrome : u64) (h : Hart B) :
  Aapcs64 compiled stack → installed base h → interrupted base h → pstate_wf h →
  mode h = EL1h → irq_sp_ok h →
  match irq_entry gic (platform h) with
  | Done _ p => ∃ h', run gic base compiled 32 (Running (take base EIrq syndrome h)) = Running h' ∧
      resumes stack h p h'
  | _ => run gic base compiled 32 (Running (take base EIrq syndrome h)) = Panicked
  end.
Proof.
  intros Hc Hi Hint Hp Hm Hsp.
  pose proof (irq_run gic base compiled stack h syndrome Hc Hi Hint Hp ltac:(by rewrite Hm) Hsp) as H.
  destruct (irq_entry gic (platform h)); try done. destruct H as (h' & ? & ? & _). by exists h'.
Qed.

(** A calling-convention-conforming [irq_entry] that uses the caller-saved vector
    registers as it likes. *)
Definition uses_simd {B} (v : N → u64) (h : Hart B) : Hart B :=
  let f r := match r with
             | D n => if decide (8 ≤ n ≤ 15)%N then regs_of h (D n) else v n
             | r => regs_of h r
             end in
  mkHart (with_regs f (platform h)) (nzcv h) (mode h) (elr h) (spsr h) (esr h) (mem h) (hpc h).

Lemma uses_simd_conforms {B} v : Aapcs64 (B := B) (uses_simd v) 0.
Proof.
  split; try done. intros h n Hn. unfold regs_of, uses_simd. cbn [platform with_regs p_core registers].
  by rewrite decide_True.
Qed.

(** C36: the trampoline does not save the vector registers. There is an [irq_entry]
    within its calling convention that makes an interrupt replace the interrupted
    code's v0 to v7 and v16 to v31 by any values, although [boot.s] enables these
    registers because compiled code uses them. *)
Theorem irq_can_corrupt_simd {B} `{!Bus B} (gic : QemuVirtGic) (base : u64) (v : N → u64)
    (syndrome : u64) (h : Hart B) (p : Platform B) :
  installed base h → interrupted base h → pstate_wf h → mode h = EL1h → irq_sp_ok h →
  irq_entry gic (platform h) = Done tt p →
  ∃ compiled h', Aapcs64 compiled 0 ∧
    run gic base compiled 32 (Running (take base EIrq syndrome h)) = Running h' ∧
    hpc h' = hpc h ∧ ∀ n, ¬ (8 ≤ n ≤ 15)%N → regs_of h' (D n) = v n.
Proof.
  intros Hi Hint Hp Hm Hsp He. exists (uses_simd v).
  pose proof (irq_run gic base (uses_simd v) 0 h syndrome (uses_simd_conforms v) Hi Hint Hp
    ltac:(by rewrite Hm) Hsp) as H.
  rewrite He in H. destruct H as (h' & Hr & Hres & Hd). exists h'.
  split; [apply uses_simd_conforms|]. split; [done|]. split; [apply Hres|].
  intros n Hn. rewrite Hd. unfold regs_of at 1, uses_simd. cbn [platform with_regs p_core registers].
  by rewrite decide_False.
Qed.

(** A task interrupted by the timer, for the witnesses. *)
Definition demo_hart : Hart Gic400 :=
  mkHart (mkPlatform (mkCore 0x340 0 (λ r, match r with SP => 4096 | X n => 100 + n | D n => 200 + n end)%N)
            (mkSysRegs 4 62500000 99 63 1 0x4000)
            (mkGic400 (mkView 8 (λ _, true) (λ _, 0%N) (λ _, true) true true (λ _, true) false)
               (λ j, bool_decide (j = 40)%N) (Some 27%N)))
    3 EL1h 0 0 0 (λ a, a) (Elsewhere 0x777).

Lemma demo_hart_ok :
  installed 0x4000 demo_hart ∧ interrupted 0x4000 demo_hart ∧ pstate_wf demo_hart ∧ irq_sp_ok demo_hart.
Proof. split_and!; try by vm_compute. split; [done|]. split; [done|]. by exists 13%N. Qed.

Lemma vectors_dispatch_witness :
  ∃ h' off w, run qemu_gic 0x4000 id 16 (Running (take 0x4000 EIrq 0 demo_hart)) = Running h' ∧
    hpc h' = InText off ∧ instr_at vectors_s off = Some (BL Fn_irq_entry) ∧
    regs_of h' (X 0) = regs_of h' SP ∧ (regs_of h' SP mod 16 = 0)%N ∧
    (regs_of h' SP + TRAP_FRAME_SIZE = 4096)%N ∧
    frame_at (mem h') (regs_of h' (X 0)) =
      (mkTrapFrame (100, 101) (102, 103) (104, 105) (106, 107) (108, 109) (110, 111) (112, 113)
        (114, 115) (116, 117) (118, 130) (0x777, 0x30000345) w)%N.
Proof.
  exact (vectors_dispatch qemu_gic 0x4000 id EIrq 0 demo_hart
    (proj1 demo_hart_ok) (proj2 (proj2 (proj2 demo_hart_ok)))).
Defined.

Lemma irq_is_transparent_witness :
  match irq_entry qemu_gic (platform demo_hart) with
  | Done _ p => ∃ h', run qemu_gic 0x4000 (uses_simd (λ _, 0%N)) 32 (Running (take 0x4000 EIrq 0 demo_hart)) =
      Running h' ∧ resumes 0 demo_hart p h'
  | _ => False
  end.
Proof.
  exact (irq_is_transparent qemu_gic 0x4000 (uses_simd (λ _, 0%N)) 0 0 demo_hart (uses_simd_conforms _)
    (proj1 demo_hart_ok) (proj1 (proj2 demo_hart_ok)) (proj1 (proj2 (proj2 demo_hart_ok))) eq_refl
    (proj2 (proj2 (proj2 demo_hart_ok)))).
Defined.

Lemma irq_can_corrupt_simd_witness :
  ∃ compiled h', Aapcs64 compiled 0 ∧
    run qemu_gic 0x4000 compiled 32 (Running (take 0x4000 EIrq 0 demo_hart)) = Running h' ∧
    hpc h' = Elsewhere 0x777 ∧ ∀ n, ¬ (8 ≤ n ≤ 15)%N → regs_of h' (D n) = 0%N.
Proof.
  eapply (irq_can_corrupt_simd qemu_gic 0x4000 (λ _, 0%N) 0 demo_hart);
    [apply demo_hart_ok|apply demo_hart_ok|apply demo_hart_ok|reflexivity|apply demo_hart_ok|].
  reflexivity.
Defined.
