(* ===== verification/Boot.v ===== *)
(** * [bsp-qemu-virt/src/main.rs]: the kernel that is booted

    What [kernel_entry] builds between the hardware setup and [start]: three tasks,
    one endpoint, a capability table for each of task A and task B, and the
    scheduler ([kernel_setup]); and the kernel [start] leaves ([boot_kernel]).
    [kernel_entry] itself, which calls these parts and publishes what they build in
    the kernel's statics, is in [KernelMain.v]. *)

From stdpp Require Import prelude.
From Stdlib Require Import Lia NArith.
From S2P Require Import Prelude FreeList Arena Objects Rights Capability.
From S2P Require Import CapTable CapTree CapShape CapProofs CapSpec Ipc IpcProofs.
From S2P Require Import HalCpu SchedQueue Sched SchedProofs QemuCpu.

Definition TABLE_A : nat := 0.
Definition TABLE_B : nat := 1.

(** The addresses the linker chooses: entry functions, and the statics that hold
    the tasks' stacks. *)
Record Image := mkImage {
  task_a_entry : u64; task_b_entry : u64; idle_entry_addr : u64;
  TASK_A_STACK : u64; TASK_B_STACK : u64; TASK_IDLE_STACK : u64;
}.

(** [TaskStack]: 4096 bytes, aligned to 16; [TaskStack::top]. *)
Definition stack_aligned (stack : u64) : Prop := (stack mod 16 = 0)%N.
Definition stack_top (stack : u64) : u64 := (stack + 4096)%N.

(** The pointers [TABLE_A.as_mut_ptr()] and [TABLE_B.as_mut_ptr()], and what they
    point to. *)
Definition tables_of (ta tb : CapabilityTable) : nat → CapabilityTable :=
  set_table (set_table (λ _, table_new) TABLE_A ta) TABLE_B tb.

(** The two messages of the demo. *)
Definition msg_a : Message := mkMessage 0xAAAA (1, 2, 3)%N.
Definition reply_b : Message := mkMessage 0xBBBB (0, 0, 0)%N.

Record Booted := mkBooted {
  b_kernel : Kernel Core;
  b_task_arena : TaskArena;
  handle_a : TaskHandle;
  handle_b : TaskHandle;
  handle_idle : TaskHandle;
  ep_cap_a : CapHandle;
  ep_cap_b : CapHandle;
}.

Section boot.
Context `{BuildProfile}.

(** The three tasks, in the arena [TASK_ARENA]. *)
Definition create_tasks : M TaskArena ObjError (TaskHandle * TaskHandle * TaskHandle) :=
  ha ← create_task (new_task 0);
  hb ← create_task (new_task 1);
  hi ← create_task (new_task 2);
  mret (ha, hb, hi).

(** The endpoint, and a table for each task with a root capability on it; [None]
    is a failed [expect]. *)
Definition ipc_setup : option (EndpointArena * CapabilityTable * CapabilityTable * CapHandle * CapHandle) :=
  '(ep_handle, ep_arena) ← expect (create_endpoint (new_endpoint 0)) (new ENDPOINT_ARENA_CAPACITY);
  let ep_rights := bitor SEND RECV in
  let cap_a := new_capability ep_rights (ObjEndpoint ep_handle) in
  let cap_b := new_capability ep_rights (ObjEndpoint ep_handle) in
  '(ep_cap_a, table_a) ← expect (insert_root cap_a) table_new;
  '(ep_cap_b, table_b) ← expect (insert_root cap_b) table_new;
  Some (ep_arena, table_a, table_b, ep_cap_a, ep_cap_b).

(** The scheduler: B first, then A, and the idle task last. *)
Definition sched_setup (cpu : Core) (img : Image) (ha hb hi : TaskHandle) : option (Scheduler Core) :=
  '(_, sched) ← expect (add_task cpu hb (task_b_entry img) (stack_top (TASK_B_STACK img))) sched_new;
  '(_, sched) ← expect (add_task cpu ha (task_a_entry img) (stack_top (TASK_A_STACK img))) sched;
  '(_, sched) ← expect (add_task cpu hi (idle_entry_addr img) (stack_top (TASK_IDLE_STACK img))) sched;
  Some sched.

(** What the three build: the kernel before [start]. *)
Definition kernel_setup (cpu : Core) (img : Image) : option Booted :=
  '((ha, hb, hi), tasks) ← expect create_tasks (new TASK_ARENA_CAPACITY);
  '(ep_arena, table_a, table_b, ep_cap_a, ep_cap_b) ← ipc_setup;
  sched ← sched_setup cpu img ha hb hi;
  Some (mkBooted (mkKernel sched cpu ep_arena queues_new (tables_of table_a table_b))
    tasks ha hb hi ep_cap_a ep_cap_b).

(** ... and after [start]: task B runs. *)
Definition boot_kernel (cpu : Core) (img : Image) : option Booted :=
  b ← kernel_setup cpu img;
  '(_, k) ← expect start (b_kernel b);
  Some (mkBooted k (b_task_arena b) (handle_a b) (handle_b b) (handle_idle b)
                 (ep_cap_a b) (ep_cap_b b)).

End boot.

(** ** The kernel it builds *)

Section boot_proofs.
Context `{BuildProfile}.

Lemma sched_new_wf : sched_wf (S := Core) sched_new [].
Proof.
  split; [by apply queue_new_rep|done|done|done|constructor|..].
  - intros h Hh. by apply not_elem_of_nil in Hh.
  - intros i. cbn [task_states sched_new]. rewrite aget_replicate. by case_decide.
  - intros i ep. cbn [task_states sched_new]. rewrite aget_replicate. by case_decide.
Qed.

Lemma insert_root_wf t cap : table_wf t → table_wf (final (insert_root cap) t).
Proof.
  intros Hwf. unfold final. destruct (cfree_head t) as [i|] eqn:Hh.
  - by destruct (insert_root_run t cap i Hwf Hh) as (g & t' & -> & ? & _).
  - by rewrite insert_root_full.
Qed.

Lemma not_blocked_aset (sts : list TaskState) (i j : N) ep :
  aget sts j ≠ Some (TBlocked ep) → aget (aset sts i TReady) j ≠ Some (TBlocked ep).
Proof.
  intros Hno. destruct (decide (i = j)) as [->|Hij]; [|by rewrite aget_aset_ne].
  destruct (aget sts j) as [st|] eqn:Hj; [by rewrite aget_aset_eq by eauto|].
  intros Hbad. apply aget_Some_lt in Hbad. rewrite length_aset in Hbad.
  apply aget_lt in Hbad as [? ?]. congruence.
Qed.

Definition task_n (i : N) : TaskHandle := task_from_slot (mkSlotId i 0).

Lemma stack_top_aligned stack : stack_aligned stack → (stack_top stack mod 16 = 0)%N.
Proof. unfold stack_aligned, stack_top. intros Ha. by rewrite N.Div0.add_mod, Ha. Qed.

(** One registration of a fresh task. *)
Lemma add_task_boot (s : Scheduler Core) l cpu i e st :
  sched_wf s l → (i < TASK_ARENA_CAPACITY)%N → aget (task_states s) i = Some TIdle →
  (∀ j c, aget (contexts s) j = Some c → context_wf c) →
  ∃ s', expect (add_task cpu (task_n i) e st) s = Some (tt, s') ∧ sched_wf s' (l ++ [task_n i]) ∧
    current s' = current s ∧ task_states s' = aset (task_states s) i TReady ∧
    (∀ j c, aget (contexts s') j = Some c → context_wf c) ∧
    (∃ c, aget (contexts s') i = Some c ∧ lr c = e ∧ sp c = st) ∧
    (∀ j, j ≠ i → aget (contexts s') j = aget (contexts s) j).
Proof.
  intros Hs Hi Hst Hcs.
  destruct (proj2 (aget_lt (contexts s) i)) as [c Hc]; [by rewrite (sw_contexts _ _ Hs)|].
  destruct (add_task_run s l cpu (task_n i) e st c Hs Hst Hc) as (s' & Hr & Hs' & Hcur & Hst' & Hcs').
  exists s'. unfold expect. rewrite Hr. split_and!; try done.
  - intros j c'. rewrite Hcs', aget_aset by eauto. case_decide; [|apply Hcs].
    intros [= <-]. by apply (Hcs i c).
  - rewrite Hcs'. simpl. rewrite aget_aset_eq by eauto. eauto.
  - intros j Hj. rewrite Hcs'. simpl. by rewrite aget_aset_ne.
Qed.

(** The closed calls of the setup, evaluated. *)
Lemma boot_tasks :
  ∃ t, expect create_tasks (new TASK_ARENA_CAPACITY) = Some (task_n 0, task_n 1, task_n 2, t).
Proof. exists (final create_tasks (new TASK_ARENA_CAPACITY)). destruct H; by vm_compute. Qed.

Lemma boot_ipc :
  ipc_setup = Some (demo_arena,
    final (insert_root (new_capability (bitor SEND RECV) (ObjEndpoint demo_ep))) table_new,
    final (insert_root (new_capability (bitor SEND RECV) (ObjEndpoint demo_ep))) table_new,
    mkCapHandle 0 0, mkCapHandle 0 0).
Proof. unfold demo_arena. destruct H; by vm_compute. Qed.

Lemma kernel_setup_wf cpu img :
  ∃ b, kernel_setup cpu img = Some b ∧ kernel_wf (b_kernel b) [task_n 1; task_n 0; task_n 2] ∧
    current (k_sched (b_kernel b)) = None ∧ k_cpu (b_kernel b) = cpu ∧
    handle_a b = task_n 0 ∧ handle_b b = task_n 1 ∧ handle_idle b = task_n 2 ∧
    (∀ j c, aget (contexts (k_sched (b_kernel b))) j = Some c → context_wf c) ∧
    ∃ c, aget (contexts (k_sched (b_kernel b))) 1 = Some c ∧ lr c = task_b_entry img ∧
         sp c = stack_top (TASK_B_STACK img).
Proof.
  destruct (add_task_boot sched_new [] cpu 1 (task_b_entry img) (stack_top (TASK_B_STACK img)) sched_new_wf)
    as (s1 & Hr1 & Hs1 & Hc1 & Hst1 & Hx1 & Hb1 & Hn1); [done|done| |].
  { intros j c. simpl. rewrite aget_array_from_fn. case_decide; [|done]. by intros [= <-]. }
  destruct (add_task_boot s1 [task_n 1] cpu 0 (task_a_entry img) (stack_top (TASK_A_STACK img)) Hs1)
    as (s2 & Hr2 & Hs2 & Hc2 & Hst2 & Hx2 & _ & Hn2); [done|by rewrite Hst1|done|].
  destruct (add_task_boot s2 [task_n 1; task_n 0] cpu 2 (idle_entry_addr img) (stack_top (TASK_IDLE_STACK img)) Hs2)
    as (s3 & Hr3 & Hs3 & Hc3 & Hst3 & Hx3 & _ & Hn3); [done|by rewrite Hst2, Hst1|done|].
  destruct boot_tasks as [t Ht].
  eexists. split.
  { unfold kernel_setup. rewrite Ht. cbn [mbind option_bind]. rewrite boot_ipc.
    cbn [mbind option_bind]. unfold sched_setup.
    rewrite Hr1. cbn [mbind option_bind]. rewrite Hr2. cbn [mbind option_bind].
    rewrite Hr3. cbn [mbind option_bind]. reflexivity. }
  cbn [b_kernel handle_a handle_b handle_idle k_sched k_cpu].
  split_and!; [|by rewrite Hc3, Hc2, Hc1|reflexivity..|exact Hx3|].
  2:{ rewrite Hn3, Hn2 by done. exact Hb1. }
  assert (∀ cap, table_wf (final (insert_root cap) table_new)) as Htab
    by (intros cap; apply insert_root_wf, table_new_wf).
  assert (∀ i ep, aget (task_states s3) i ≠ Some (TBlocked ep)) as Hno.
  { intros i ep. rewrite Hst3, Hst2, Hst1.
    repeat (apply not_blocked_aset). cbn [task_states sched_new]. rewrite aget_replicate.
    by case_decide. }
  split; simpl.
  - done.
  - apply queues_new_wf, demo_arena_wf.
  - intros tbl. unfold tables_of, set_table. repeat case_decide; [apply Htab..|apply table_new_wf].
  - intros i ep Hb. by destruct (Hno i ep).
  - intros i j ep Hb. by destruct (Hno i ep).
Qed.

Lemma boot_kernel_wf cpu img :
  ∃ b, boot_kernel cpu img = Some b ∧ kernel_wf (b_kernel b) [task_n 0; task_n 2] ∧
    current (k_sched (b_kernel b)) = Some (task_n 1) ∧
    lr (regs (k_cpu (b_kernel b))) = task_b_entry img ∧
    sp (regs (k_cpu (b_kernel b))) = stack_top (TASK_B_STACK img) ∧
    irqs_masked (k_cpu (b_kernel b)) = true.
Proof.
  destruct (kernel_setup_wf cpu img) as (b & Hb & Hk & Hc & _ & _ & _ & _ & Hv & ctx & Hctx & Hlr & Hsp).
  destruct (start_run (b_kernel b) (task_n 1) _ ctx Hk Hc Hctx) as (k' & Hst & Hk' & Hc' & Hcpu).
  pose proof (Hv _ _ Hctx) as Hwf.
  destruct (asm_switch_spec (irq_guard_new (k_cpu (b_kernel b))).2 context_default ctx)
    as (_ & Hregs & Hdaif); [by split|exact Hwf|].
  assert (expect start (b_kernel b) = Some (Switched diverge, k')) as Hex
    by (unfold expect; by rewrite Hst).
  eexists. unfold boot_kernel. rewrite Hb. cbn [mbind option_bind]. rewrite Hex. split; [done|].
  cbn [b_kernel mbind option_bind]. rewrite Hcpu. split_and!; [exact Hk'|exact Hc'|..].
  - rewrite <- Hlr. by f_equal.
  - rewrite <- Hsp. by f_equal.
  - apply bool_decide_eq_true.
    change (N.land (daif (asm_switch (irq_guard_new (k_cpu (b_kernel b))).2 context_default ctx).1)
      DAIF_ALL = DAIF_ALL).
    rewrite Hdaif. apply daif_all_set.
Qed.

End boot_proofs.
