(* ===== verification/KernelMain.v ===== *)
(** * [bsp-qemu-virt/src/main.rs]: the statics, [kernel_entry] and the panic handler

    [Statics] are the kernel's globals, each a [StaticCell]: [write] initialises one
    and [assume_init] reads one, and the two ways to misuse them, which the code
    excludes by its order alone, are errors. [kernel_entry] is the whole function,
    in the order of its statements: the hardware setup with its banner on the
    [PL011], the kernel objects of [Boot.v], their publication in the statics, and
    [start]. The bus carries both the [UART] and the interrupt controller; that
    neither disturbs the other is the class [Devices]. *)

From stdpp Require Import prelude strings.
From Stdlib Require Import Lia NArith.
From S2P Require Import Prelude Text FreeList Arena Objects Rights Capability CapTable.
From S2P Require Import CapTree CapShape CapProofs CapSpec Ipc IpcProofs.
From S2P Require Import HalCpu HalIrq Timer SchedQueue Sched SchedProofs QemuCpu Gic Console Board Boot.

Definition PL011_UART_BASE : usize := 0x09000000%N.

(** ** [StaticCell] *)

Module Static.
Inductive name :=
  | SCHED | CPU | GIC | CONSOLE | BOOT_NS | EP_ARENA | IPC_QUEUES
  | TABLE_A | TABLE_B | EP_CAP_A | EP_CAP_B | TASK_ARENA.
End Static.

Global Instance static_eq_dec : EqDecision Static.name.
Proof. solve_decision. Defined.

(** The type parameter of each cell. *)
Definition contents (n : Static.name) : Type :=
  match n with
  | Static.SCHED => Scheduler Core
  | Static.CPU => CpuHandle
  | Static.GIC => QemuVirtGic
  | Static.CONSOLE => Pl011Uart
  | Static.BOOT_NS => u64
  | Static.EP_ARENA => EndpointArena
  | Static.IPC_QUEUES => IpcQueues
  | Static.TABLE_A | Static.TABLE_B => CapabilityTable
  | Static.EP_CAP_A | Static.EP_CAP_B => CapHandle
  | Static.TASK_ARENA => TaskArena
  end.

(** [MaybeUninit]: [None] is an uninitialised cell. *)
Definition Statics : Type := ∀ n, option (contents n).
(** [StaticCell::new]. *)
Definition uninit : Statics := λ _, None.

Definition store_static (n : Static.name) (v : contents n) (s : Statics) : Statics := λ n',
  match decide (n = n') with
  | left e => Some (eq_rect n contents v n' e)
  | right _ => s n'
  end.

(** What must never happen: reading a cell that nothing has written, writing one
    twice, and calling the bridge with a pointer to a cell that nothing has
    written. *)
Inductive misuse := ReadUninit (n : Static.name) | WrittenTwice (n : Static.name) | DanglingKernel.

Record Machine (B : Type) := mkMachine { m_platform : Platform B; m_statics : Statics }.
Global Arguments mkMachine {_} _ _.
Global Arguments m_platform {_} _.
Global Arguments m_statics {_} _.

Section machine.
Context {B : Type}.

Abbreviation K := (M (Machine B) misuse).

(** [write] on the cell. *)
Definition write (n : Static.name) (v : contents n) : K unit := λ m,
  match m_statics m n with
  | None => Done tt (mkMachine (m_platform m) (store_static n v (m_statics m)))
  | Some _ => Fail (WrittenTwice n) m
  end.

(** [assume_init_ref] of the cell. *)
Definition assume_init (n : Static.name) : K (contents n) := λ m,
  match m_statics m n with
  | Some v => Done v m
  | None => Fail (ReadUninit n) m
  end.

(** Code that runs on the platform, and on the bus alone. *)
Definition plat {A} (c : M (Platform B) Empty_set A) : K A :=
  zoom m_platform (λ p m, mkMachine p (m_statics m)) (map_err (λ e : Empty_set, match e with end) c).

(** The kernel that the bridge's pointers ([as_mut_ptr]) refer to. *)
Definition kernel_of (s : Statics) (cpu : Core) : option (Kernel Core) :=
  sched ← s Static.SCHED;
  ep_arena ← s Static.EP_ARENA;
  queues ← s Static.IPC_QUEUES;
  ta ← s Static.TABLE_A;
  tb ← s Static.TABLE_B;
  Some (mkKernel sched cpu ep_arena queues (tables_of ta tb)).

Definition put_kernel (k : Kernel Core) (s : Statics) : Statics :=
  store_static Static.SCHED (k_sched k) (store_static Static.EP_ARENA (k_arena k)
    (store_static Static.IPC_QUEUES (k_queues k) (store_static Static.TABLE_A (k_tables k TABLE_A)
       (store_static Static.TABLE_B (k_tables k TABLE_B) s)))).
(** A call of the bridge: its [Result], and the kernel and the core it leaves. *)
Definition on_kernel {A} (c : M (Kernel Core) SchedError A) :
    M (Core * Statics) misuse (result A SchedError) := λ cs,
  match kernel_of cs.2 cs.1 with
  | None => Fail DanglingKernel cs
  | Some k =>
      let leave k' := (k_cpu k', put_kernel k' cs.2) in
      match c k with
      | Done a k' => Done (Ok a) (leave k')
      | Fail e k' => Done (Err e) (leave k')
      | Panic => Panic
      | Diverge => Diverge
      end
  end.

(** Code that runs on the core and the statics. *)
Definition soft {A} (c : M (Core * Statics) misuse A) : K A :=
  zoom (λ m, (p_core (m_platform m), m_statics m))
       (λ cs m, mkMachine (mkPlatform cs.1 (p_sys (m_platform m)) (p_bus (m_platform m))) cs.2) c.
End machine.

(** ** [kernel_entry] *)

Section entry.
Context {B : Type} `{!Bus B} `{BuildProfile} (poll : nat).

Abbreviation K := (M (Machine B) misuse).

(** [Console for Pl011Uart], with a bound on the waits. *)
Definition uart_console : Console Pl011Uart B := λ uart bs, uart_write_bytes uart poll bs.
#[local] Existing Instance uart_console.

(** The pieces of the format and its arguments, in order. *)
Definition write_fmt (uart : Pl011Uart) (args : list arg) : M B Empty_set unit :=
  write_all uart (bytes_of ∘ render <$> args).

Definition print (uart : Pl011Uart) (bs : list u8) : K unit := plat (on_bus (write_bytes uart bs)).
(** [writeln!(FmtWriter(console), ...)]; the newline is in the last piece. *)
Definition writeln (uart : Pl011Uart) (args : list arg) : K unit :=
  plat (on_bus (write_fmt uart args)).

(** The hardware setup, up to the snapshot of the boot time. *)
Definition hardware_setup (vectors : u64) : K unit :=
  let console := mkUart PL011_UART_BASE in
  cpu ← plat cpu_new;
  write Static.CONSOLE console;;
  write Static.CPU cpu;;
  console ← assume_init Static.CONSOLE;
  cpu ← assume_init Static.CPU;
  print console (bytes_of ("tyrne: hello from kernel_main" +:+ nl));;
  plat (msr_vbar vectors);;
  let gic := mkGic QEMU_VIRT_GIC_DISTRIBUTOR_BASE QEMU_VIRT_GIC_CPU_INTERFACE_BASE in
  write Static.GIC gic;;
  gic ← assume_init Static.GIC;
  plat (on_bus (init gic));;
  plat msr_daifclr_i;;
  resolution ← plat (resolution_ns (Timer := QemuVirtTimer gic) cpu);
  writeln console [Lit "tyrne: timer ready ("; Dec (frequency_hz cpu); Lit " Hz, resolution ";
                   Dec resolution; Lit (" ns)" +:+ nl)];;
  boot_ns ← plat (now_ns (Timer := QemuVirtTimer gic) cpu);
  write Static.BOOT_NS boot_ns.

(** A computation on one initialised cell, through a momentary reference. *)
Definition on_cell {E A} (n : Static.name) (c : M (contents n) E A) : K A := λ m,
  match m_statics m n with
  | None => Fail (ReadUninit n) m
  | Some v =>
      match expect c v with
      | Some (a, v') => Done a (mkMachine (m_platform m) (store_static n v' (m_statics m)))
      | None => Panic
      end
  end.

(** [kernel_entry], until [start] has switched to the first task; the handles are
    its local variables. *)
Definition kernel_entry (img : Image) (vectors : u64) : K (TaskHandle * TaskHandle * TaskHandle) :=
  hardware_setup vectors;;
  write Static.TASK_ARENA (new TASK_ARENA_CAPACITY);;
  '(ha, hb, hi) ← on_cell Static.TASK_ARENA create_tasks;
  '(ep_arena, table_a, table_b, ep_cap_a, ep_cap_b) ← unwrap_or_panic ipc_setup;
  write Static.EP_ARENA ep_arena;;
  write Static.IPC_QUEUES queues_new;;
  write Static.TABLE_A table_a;;
  write Static.TABLE_B table_b;;
  write Static.EP_CAP_A ep_cap_a;;
  write Static.EP_CAP_B ep_cap_b;;
  cpu ← gets (λ m, p_core (m_platform m));
  sched ← unwrap_or_panic (sched_setup cpu img ha hb hi);
  write Static.SCHED sched;;
  console ← assume_init Static.CONSOLE;
  print console (bytes_of ("tyrne: starting cooperative scheduler" +:+ nl));;
  _ ← soft (on_kernel start);
  mret (ha, hb, hi).

(** ** The panic handler *)

(** [panic], up to its final loop; [info] is the text of the [PanicInfo]. *)
Definition panic_handler (info : string) : M B Empty_set unit :=
  let console := mkUart PL011_UART_BASE in
  write_bytes console (bytes_of (nl +:+ "!! tyrne panic !!" +:+ nl));;
  write_fmt console [Lit info; Lit nl].
End entry.

(** ** The bus of the board *)

Definition uart0 : Pl011Uart := mkUart PL011_UART_BASE.

(** The two devices on one bus: the registers of each are not those of the
    other. A write to the controller takes time, in which the transmit queue of
    the [UART] may drain. *)
Class Devices (B : Type) `{!Bus B} `{!GicV2 B qemu_gic} `{!Pl011 B uart0} := {
  poll_view b : view (read_volatile (uart_base uart0 + UARTFR)%N b).2 = view b;
  data_view v b : view (write_volatile (uart_base uart0 + UARTDR)%N v b) = view b;
  dist_uart off v b :
    (off < 0x1000)%N → let b' := write_distributor qemu_gic off v b in
    sent b' = sent b ∧ busy b' ≤ busy b;
  interface_uart off v b :
    (off < 0x1000)%N → let b' := write_cpu_interface qemu_gic off v b in
    sent b' = sent b ∧ busy b' ≤ busy b;
}.

Section proofs.
Context {B : Type} `{Devices B} `{profile : BuildProfile} (poll : nat).
Implicit Types (b : B) (m : Machine B).

(** What code that prints [text] makes of the bus. *)
Record printed (text : list u8) b b' : Prop := {
  pr_busy : busy b' < poll;
  pr_sent : sent b' = sent b ++ text;
  pr_view : view b' = view b;
}.

Lemma wait_view fuel b b' : wait_not_full uart0 fuel b = Done tt b' → view b' = view b.
Proof.
  revert b. induction fuel as [|fuel IH]; intros b; [done|]. cbn [wait_not_full].
  unfold mbind, M_bind, io_read. pose proof (poll_view b) as Hv.
  destruct (read_volatile _ b) as [fr b1]. cbn [snd] in Hv. case_match.
  - intros Hw. by rewrite (IH _ Hw).
  - by intros [= <-].
Qed.

Lemma uart_view bs b b' : uart_write_bytes uart0 poll bs b = Done tt b' → view b' = view b.
Proof.
  revert b. induction bs as [|x bs IH]; intros b; [by intros [= <-]|]. cbn [uart_write_bytes].
  unfold mbind, M_bind. destruct (wait_not_full uart0 poll b) as [[] b1| | |] eqn:Hw; [|done..].
  cbn [io_write modify]. intros Hu. by rewrite (IH _ Hu), data_view, (wait_view _ _ _ Hw).
Qed.

Lemma print_run (s : string) b :
  busy b < poll → drain < poll →
  ∃ b', uart_write_bytes uart0 poll (bytes_of s) b = Done tt b' ∧ printed (bytes_of s) b b'.
Proof.
  intros Hb Hd. destruct (uart_write_run uart0 poll (bytes_of s) b Hb Hd (bytes_in_width s))
    as (b' & Hr & Hb' & Hs). exists b'. split; [done|]. split; [done|done|]. by eapply uart_view.
Qed.

Lemma printed_trans t1 t2 b1 b2 b3 : printed t1 b1 b2 → printed t2 b2 b3 → printed (t1 ++ t2) b1 b3.
Proof. intros [_ H1 V1] [Hb H2 V2]. split; [done| |by rewrite V2]. by rewrite H2, H1, app_assoc. Qed.

Lemma write_fmt_run (l : list arg) b :
  busy b < poll → drain < poll →
  ∃ b', write_fmt poll uart0 l b = Done tt b' ∧ printed (bytes_of (fmt l)) b b'.
Proof.
  intros Hb Hd. unfold write_fmt. revert b Hb. induction l as [|a l IH]; intros b Hb.
  - exists b. split; [done|]. split; [done|by rewrite app_nil_r|done].
  - destruct (print_run (render a) b Hb Hd) as (b1 & Hr & Hp). destruct (IH b1) as (b2 & Hr2 & Hp2); [apply Hp|].
    exists b2. split.
    + cbn [fmap list_fmap write_all]. unfold mbind, M_bind, write_str, write_bytes, uart_console.
      unfold mbind, M_bind. cbn [compose]. rewrite Hr. exact Hr2.
    + change (fmt (a :: l)) with (render a +:+ fmt l). rewrite bytes_of_app. by eapply printed_trans.
Qed.

(** ** The statics *)

Lemma store_static_eq n v s : store_static n v s n = Some v.
Proof. unfold store_static. destruct (decide (n = n)) as [e|]; [|done]. by rewrite (eq_pi _ _ e eq_refl). Qed.

Lemma store_static_ne n n' v s : n ≠ n' → store_static n v s n' = s n'.
Proof. intros Hn. unfold store_static. by destruct (decide (n = n')). Qed.

Lemma write_run n v m :
  m_statics m n = None →
  write n v m = Done tt (mkMachine (m_platform m) (store_static n v (m_statics m))).
Proof. unfold write. by intros ->. Qed.

Lemma assume_init_run n v m : m_statics m n = Some v → assume_init n m = Done v m.
Proof. unfold assume_init. by intros ->. Qed.

Definition with_bus b m : Machine B :=
  mkMachine (mkPlatform (p_core (m_platform m)) (p_sys (m_platform m)) b) (m_statics m).

Lemma bus_run {A} (c : M B Empty_set A) m a b :
  c (p_bus (m_platform m)) = Done a b → plat (on_bus c) m = Done a (with_bus b m).
Proof. unfold plat, zoom, map_err, on_bus, zoom. by intros ->. Qed.

Lemma plat_run {A} (c : M (Platform B) Empty_set A) m a p :
  c (m_platform m) = Done a p → plat c m = Done a (mkMachine p (m_statics m)).
Proof. unfold plat, zoom, map_err. by intros ->. Qed.

(** ** The hardware setup *)

Lemma words_uart base word a len b :
  (base + 4 * N.of_nat (a + len) ≤ 0x1000)%N →
  let b' := write_words qemu_gic base word a len b in sent b' = sent b ∧ busy b' ≤ busy b.
Proof.
  unfold write_words. revert a b. induction len as [|len IH]; intros a b Hle; [done|].
  cbn [seq foldl]. destruct (dist_uart (base + 4 * N.of_nat a) word b) as [Hs Hb]; [lia|].
  destruct (IH (S a) (write_distributor qemu_gic (base + 4 * N.of_nat a) word b)) as [Hs' Hb']; [lia|].
  cbn zeta. split; [by rewrite Hs'|lia].
Qed.

Lemma init_uart b :
  let b' := init_state qemu_gic b in sent b' = sent b ∧ busy b' ≤ busy b.
Proof.
  pose proof (it_lines_lt b) as Hit. unfold init_state. set (it := N.to_nat (it_lines (view b))).
  assert (∀ b1 b2 b3 : B, sent b2 = sent b1 ∧ busy b2 ≤ busy b1 → sent b3 = sent b2 ∧ busy b3 ≤ busy b2 →
    sent b3 = sent b1 ∧ busy b3 ≤ busy b1) as Htrans by (intros ??? [-> ?] [-> ?]; split; [done|lia]).
  repeat (eapply Htrans; [|first [by apply interface_uart | by apply dist_uart | apply words_uart;
    unfold GICD_ICENABLER_BASE, GICD_IPRIORITYR_BASE, GICD_ITARGETSR_BASE; lia]]).
  done.
Qed.

(** The banner of the hardware setup. *)
Definition banner (frequency resolution : u64) : string :=
  "tyrne: hello from kernel_main" +:+ nl +:+
  "tyrne: timer ready (" +:+ dec frequency +:+ " Hz, resolution " +:+ dec resolution +:+ " ns)" +:+ nl.

(** The statics after it. *)
Definition hardware_statics (cpu : CpuHandle) (boot_ns : u64) : Statics :=
  store_static Static.BOOT_NS boot_ns (store_static Static.GIC qemu_gic
    (store_static Static.CPU cpu (store_static Static.CONSOLE uart0 uninit))).

Lemma cpu_new_run (p : Platform B) :
  in_width 64 (r_cntfrq (p_sys p)) →
  if decide (current_el (r_currentel (p_sys p)) = 1 ∧ r_cntfrq (p_sys p) ≠ 0)%N then
    ∃ res, cpu_new p = Done (mkCpuHandle (r_cntfrq (p_sys p)) res) p ∧
      resolution_ns_for_freq (r_cntfrq (p_sys p)) = Some res
  else cpu_new p = Panic.
Proof.
  intros Hw. unfold cpu_new, assert_, mbind, M_bind, gets.
  destruct (decide (current_el (r_currentel (p_sys p)) = 1)%N) as [Hel|Hel].
  2:{ rewrite decide_False by tauto. by rewrite (proj2 (N.eqb_neq _ _) Hel). }
  rewrite (proj2 (N.eqb_eq _ _) Hel).
  destruct (decide (r_cntfrq (p_sys p) = 0)%N) as [Hz|Hz].
  { rewrite decide_False by tauto. by rewrite Hz. }
  rewrite decide_True by done. rewrite (proj2 (N.ltb_lt _ _)) by lia.
  destruct (resolution_Some _ Hw Hz) as [res Hres]. rewrite Hres. by exists res.
Qed.

Record hardware_ok (vectors : u64) (p : Platform B) (cpu : CpuHandle) (ns : u64) (p' : Platform B) : Prop := {
  hw_freq : frequency_hz cpu = r_cntfrq (p_sys p);
  hw_res : resolution_ns_for_freq (r_cntfrq (p_sys p)) = Some (cached_resolution_ns cpu);
  hw_now : ticks_to_ns (r_cntvct (p_sys p)) (r_cntfrq (p_sys p)) = Some ns;
  hw_vbar : r_vbar (p_sys p') = vectors;
  hw_busy : busy (p_bus p') < poll;
  hw_sent : sent (p_bus p') = sent (p_bus p) ++ bytes_of (banner (frequency_hz cpu) (cached_resolution_ns cpu));
  hw_view : ∃ b, view b = view (p_bus p) ∧ view (p_bus p') = view (init_state qemu_gic b);
  hw_daif : daif (p_core p') = N.clearbit (daif (p_core p)) 7;
}.

Lemma hardware_setup_run vectors (p : Platform B) :
  busy (p_bus p) < poll → drain < poll → in_width 64 (r_cntfrq (p_sys p)) →
  if decide (current_el (r_currentel (p_sys p)) = 1 ∧ r_cntfrq (p_sys p) ≠ 0)%N then
    ∃ cpu ns p', hardware_setup poll vectors (mkMachine p uninit) =
        Done tt (mkMachine p' (hardware_statics cpu ns)) ∧ hardware_ok vectors p cpu ns p'
  else hardware_setup poll vectors (mkMachine p uninit) = Panic.
Proof.
  intros Hb Hd Hw. pose proof (cpu_new_run p Hw) as Hn. case_decide as Hel.
  2:{ unfold hardware_setup, mbind, M_bind, plat, zoom, map_err. cbn [m_platform]. by rewrite Hn. }
  destruct Hn as (res & Hn & Hres). set (cpu := mkCpuHandle _ res) in *.
  destruct (print_run ("tyrne: hello from kernel_main" +:+ nl) (p_bus p) Hb Hd) as (b1 & Hr1 & Hp1).
  destruct (init_uart b1) as [Hs2 Hb2]. set (b2 := init_state qemu_gic b1) in *.
  assert (busy b2 < poll) as Hb2' by (pose proof (pr_busy _ _ _ Hp1); lia).
  destruct (write_fmt_run [Lit "tyrne: timer ready ("; Dec (frequency_hz cpu); Lit " Hz, resolution "; Dec res;
    Lit (" ns)" +:+ nl)] b2 Hb2' Hd) as (b3 & Hr3 & Hp3).
  destruct (ticks_to_ns (r_cntvct (p_sys p)) (r_cntfrq (p_sys p))) as [ns|] eqn:Hns.
  2:{ exfalso. revert Hns. unfold ticks_to_ns. by rewrite decide_False by tauto. }
  exists cpu, ns. eexists. split.
  - unfold hardware_setup. erewrite bind_Done by (apply plat_run; exact Hn).
    erewrite bind_Done by by apply write_run. erewrite bind_Done by by apply write_run.
    cbn [m_statics m_platform]. erewrite bind_Done by (apply (assume_init_run Static.CONSOLE); reflexivity).
    erewrite bind_Done by (apply (assume_init_run Static.CPU); reflexivity).
    erewrite bind_Done by (apply bus_run; exact Hr1).
    erewrite bind_Done by (apply plat_run; reflexivity).
    erewrite bind_Done by by apply write_run. erewrite bind_Done by (apply (assume_init_run Static.GIC); reflexivity).
    erewrite bind_Done by (apply bus_run; apply (init_run qemu_gic)).
    erewrite bind_Done by (apply plat_run; reflexivity).
    erewrite bind_Done by (apply plat_run; reflexivity).
    erewrite bind_Done by (apply bus_run; exact Hr3).
    erewrite bind_Done by (apply plat_run; cbn [now_ns QemuVirtTimer]; rewrite now_run; cbn; rewrite Hns; reflexivity).
    rewrite write_run by done. reflexivity.
  - cbn [m_platform]. split; cbn [p_sys p_bus p_core with_bus m_platform r_vbar]; try done.
    + apply Hp3.
    + rewrite (pr_sent _ _ _ Hp3), Hs2, (pr_sent _ _ _ Hp1), <- app_assoc. by f_equal.
    + exists b1. split; [apply Hp1|apply Hp3].
Qed.
End proofs.

Section booting.
Context {B : Type} `{Devices B} `{profile : BuildProfile} (poll : nat).

(** All that the serial line has seen when the first task starts. *)
Definition boot_text (frequency resolution : u64) : string :=
  banner frequency resolution +:+ "tyrne: starting cooperative scheduler" +:+ nl.

(** The statics when the first task starts: [b0] is what was built, [b] what
    [start] made of it. *)
Definition boot_statics (cpu : CpuHandle) (ns : u64) (b0 b : Booted) : Statics :=
  let k := b_kernel b0 in
  put_kernel (b_kernel b)
    (store_static Static.SCHED (k_sched k)
    (store_static Static.EP_CAP_B (ep_cap_b b0) (store_static Static.EP_CAP_A (ep_cap_a b0)
    (store_static Static.TABLE_B (k_tables k TABLE_B) (store_static Static.TABLE_A (k_tables k TABLE_A)
    (store_static Static.IPC_QUEUES (k_queues k) (store_static Static.EP_ARENA (k_arena k)
    (store_static Static.TASK_ARENA (b_task_arena b0)
    (store_static Static.TASK_ARENA (new TASK_ARENA_CAPACITY) (hardware_statics cpu ns)))))))))).

(** What [kernel_entry] leaves when it boots: the kernel, in its statics, all of
    them initialised; the first task on the core; the hardware. *)
Record booted (img : Image) (vectors : u64) (p : Platform B) (m : Machine B) (k : Kernel Core) : Prop := {
  bt_kernel : kernel_of (m_statics m) (p_core (m_platform m)) = Some k;
  bt_init n : m_statics m n ≠ None;
  bt_wf : kernel_wf k [task_n 0; task_n 2];
  bt_current : current (k_sched k) = Some (task_n 1);
  bt_entry : lr (regs (k_cpu k)) = task_b_entry img;
  bt_stack : sp (regs (k_cpu k)) = stack_top (TASK_B_STACK img);
  bt_aligned : stack_aligned (TASK_B_STACK img) → (sp (regs (k_cpu k)) mod 16 = 0)%N;
  bt_masked : irqs_masked (k_cpu k) = true;
  bt_vbar : r_vbar (p_sys (m_platform m)) = vectors;
  bt_forwarding : forwarding (view (p_bus (m_platform m))) = true;
  bt_signalling : signalling (view (p_bus (m_platform m))) = true;
  bt_eoi : split_eoi (view (p_bus (m_platform m))) = false;
  bt_lines j : spi (view (p_bus p)) j → line_enabled (view (p_bus (m_platform m))) j = false;
  bt_boot_ns : m_statics m Static.BOOT_NS = ticks_to_ns (r_cntvct (p_sys p)) (r_cntfrq (p_sys p));
  bt_built : ∃ cpu ns c b0 b, kernel_setup c img = Some b0 ∧ boot_kernel c img = Some b ∧
    frequency_hz cpu = r_cntfrq (p_sys p) ∧ m_statics m = boot_statics cpu ns b0 b ∧
    p_core (m_platform m) = k_cpu (b_kernel b);
  bt_text : ∃ resolution, resolution_ns_for_freq (r_cntfrq (p_sys p)) = Some resolution ∧
    sent (p_bus (m_platform m)) =
      sent (p_bus p) ++ bytes_of (boot_text (r_cntfrq (p_sys p)) resolution);
}.

Lemma kernel_setup_parts cpu img b :
  kernel_setup cpu img = Some b →
  ∃ sched t ta tb ca cb, expect create_tasks (new TASK_ARENA_CAPACITY) = Some (task_n 0, task_n 1, task_n 2, t) ∧
    ipc_setup = Some (demo_arena, ta, tb, ca, cb) ∧
    sched_setup cpu img (task_n 0) (task_n 1) (task_n 2) = Some sched ∧
    b = mkBooted (mkKernel sched cpu demo_arena queues_new (tables_of ta tb)) t
          (task_n 0) (task_n 1) (task_n 2) ca cb.
Proof.
  destruct boot_tasks as [t Ht]. unfold kernel_setup. rewrite Ht, boot_ipc. cbn [mbind option_bind].
  destruct (sched_setup _ _ _ _ _) as [sched|]; [|done]. cbn [mbind option_bind]. intros [= <-].
  exists sched, t. do 4 eexists. by split_and!.
Qed.

Lemma boot_kernel_parts cpu img b :
  boot_kernel cpu img = Some b →
  ∃ b0 r k, kernel_setup cpu img = Some b0 ∧ start (b_kernel b0) = Done r k ∧ b_kernel b = k.
Proof.
  unfold boot_kernel. destruct (kernel_setup cpu img) as [b0|]; [|done]. cbn [mbind option_bind].
  unfold expect. destruct (start (b_kernel b0)) as [r k| | |] eqn:Hst; [|done..]. cbn [mbind option_bind].
  intros [= <-]. by exists b0, r, k.
Qed.

Lemma kernel_wf_tables (k : Kernel Core) l f :
  kernel_wf k l → (∀ i, table_wf (f i)) →
  kernel_wf (mkKernel (k_sched k) (k_cpu k) (k_arena k) (k_queues k) f) l.
Proof. intros [] ?. by split. Qed.

Lemma put_kernel_of (k : Kernel Core) s cpu :
  kernel_of (put_kernel k s) cpu =
    Some (mkKernel (k_sched k) cpu (k_arena k) (k_queues k) (tables_of (k_tables k TABLE_A) (k_tables k TABLE_B))).
Proof. reflexivity. Qed.

Lemma panic_handler_run (info : string) (b : B) :
  busy b < poll → drain < poll →
  ∃ b', panic_handler poll info b = Done tt b' ∧ busy b' < poll ∧
    sent b' = sent b ++ bytes_of (nl +:+ "!! tyrne panic !!" +:+ nl +:+ info +:+ nl).
Proof.
  intros Hb Hd. destruct (print_run poll (nl +:+ "!! tyrne panic !!" +:+ nl) b Hb Hd) as (b1 & Hr1 & Hp1).
  destruct (write_fmt_run poll [Lit info; Lit nl] b1 (pr_busy _ _ _ _ Hp1) Hd) as (b2 & Hr2 & Hp2).
  exists b2. split.
  - unfold panic_handler. erewrite bind_Done by exact Hr1. exact Hr2.
  - split; [apply Hp2|]. rewrite (pr_sent _ _ _ _ Hp2), (pr_sent _ _ _ _ Hp1), <- app_assoc.
    by rewrite <- !bytes_of_app.
Qed.

Lemma kernel_entry_run (img : Image) (vectors : u64) (p : Platform B) :
  busy (p_bus p) < poll → drain < poll → in_width 64 (r_cntfrq (p_sys p)) →
  if decide (current_el (r_currentel (p_sys p)) = 1 ∧ r_cntfrq (p_sys p) ≠ 0)%N then
    ∃ m k, kernel_entry poll img vectors (mkMachine p uninit) = Done (task_n 0, task_n 1, task_n 2) m ∧
      booted img vectors p m k ∧ busy (p_bus (m_platform m)) < poll
  else kernel_entry poll img vectors (mkMachine p uninit) = Panic.
Proof.
  intros Hb Hd Hw. pose proof (hardware_setup_run poll vectors p Hb Hd Hw) as Hh. case_decide.
  2:{ unfold kernel_entry, mbind, M_bind. by rewrite Hh. }
  destruct Hh as (cpu & ns & p1 & Hr & Hok).
  destruct (boot_kernel_wf (p_core p1) img) as (b & Hbk & Hk & Hc & Hlr & Hsp & Hm).
  destruct (boot_kernel_parts _ _ _ Hbk) as (b0 & r & k & Hset & Hst & <-).
  destruct (kernel_setup_parts _ _ _ Hset) as (sched & t & ta & tb & ca & cb & Ht & Hi & Hs & ->).
  destruct (print_run poll ("tyrne: starting cooperative scheduler" +:+ nl) (p_bus p1)
    (hw_busy _ _ _ _ _ _ Hok) Hd) as (b2 & Hr2 & Hp2).
  do 2 eexists. split; [|split].
  - unfold kernel_entry. erewrite bind_Done by exact Hr. erewrite bind_Done by by apply write_run.
    cbn [m_platform m_statics]. erewrite bind_Done.
    2:{ unfold on_cell. cbn [m_statics]. rewrite store_static_eq. cbn [contents]. rewrite Ht. reflexivity. }
    cbn beta iota. rewrite Hi. cbn [unwrap_or_panic]. erewrite bind_Done by reflexivity. cbn beta iota.
    do 6 (erewrite bind_Done by by apply write_run; cbn [m_platform m_statics]).
    erewrite bind_Done by reflexivity. cbn [m_platform]. rewrite Hs. cbn [unwrap_or_panic].
    erewrite bind_Done by reflexivity. erewrite bind_Done by by apply write_run. cbn [m_platform m_statics].
    erewrite bind_Done by (apply (assume_init_run Static.CONSOLE); reflexivity).
    erewrite bind_Done by (apply bus_run; exact Hr2).
    erewrite bind_Done.
    2:{ unfold soft, zoom, on_kernel. cbn [m_platform m_statics with_bus p_core fst snd].
        change (kernel_of _ _) with (Some (mkKernel sched (p_core p1) demo_arena queues_new (tables_of ta tb))).
        cbv iota. cbn [b_kernel] in Hst. rewrite Hst. reflexivity. }
    reflexivity.
  - destruct (init_global qemu_gic (p_bus p)) as (_ & _).
    destruct (hw_view _ _ _ _ _ _ Hok) as (b1 & Hv1 & Hv2).
    destruct (init_global qemu_gic b1) as (_ & G1 & G2 & G3 & _).
    split; cbn [m_platform m_statics with_bus p_core p_sys p_bus].
    + reflexivity.
    + by intros [].
    + apply kernel_wf_tables; [exact Hk|]. intros i. unfold tables_of, set_table.
      repeat case_decide; [apply Hk..|apply table_new_wf].
    + exact Hc.
    + exact Hlr.
    + exact Hsp.
    + intros Ha. rewrite <- (stack_top_aligned (TASK_B_STACK img) Ha). f_equal. exact Hsp.
    + exact Hm.
    + apply Hok.
    + by rewrite (pr_view _ _ _ _ Hp2), Hv2.
    + by rewrite (pr_view _ _ _ _ Hp2), Hv2.
    + by rewrite (pr_view _ _ _ _ Hp2), Hv2.
    + rewrite (pr_view _ _ _ _ Hp2), Hv2, <- Hv1. intros j [Hj H32].
      destruct (init_line qemu_gic b1 j Hj) as [-> _]. by rewrite decide_True.
    + rewrite (hw_now _ _ _ _ _ _ Hok). reflexivity.
    + exists cpu, ns, (p_core p1). do 2 eexists. split_and!; [exact Hset|exact Hbk|apply Hok|reflexivity..].
    + exists (cached_resolution_ns cpu). split; [apply Hok|].
      rewrite (pr_sent _ _ _ _ Hp2), (hw_sent _ _ _ _ _ _ Hok), (hw_freq _ _ _ _ _ _ Hok), <- app_assoc.
      unfold boot_text. by rewrite (bytes_of_app (banner _ _)).
  - apply Hp2.
Qed.
End booting.

(** ** Properties *)

(** C18: boot works. On every board whose bus carries a [GICv2] and a [PL011] that
    drains, from every initial state of the core and of both devices and for every
    image layout: if the core is not at EL1 or the counter has no frequency,
    [kernel_entry] panics, and the panic handler reports it on the serial line.
    Otherwise no [expect] and no assertion fails and every wait ends; no static is
    read before it is written or written twice, and all are initialised at the
    end. Then the vector table is installed, the controller forwards interrupts
    with every shared line disabled, the serial line has seen exactly the three
    lines of the banner, and [start] has left a well-formed kernel in which task B
    runs at its entry point, on top of its own stack, with interrupts masked, while
    task A and the idle task wait in the queue, in this order. *)
Theorem kernel_entry_boots {B} `{Devices B} `{profile : BuildProfile} (poll : nat)
    (img : Image) (vectors : u64) (p : Platform B) :
  busy (p_bus p) < poll → drain < poll → in_width 64 (r_cntfrq (p_sys p)) →
  if decide (current_el (r_currentel (p_sys p)) = 1 ∧ r_cntfrq (p_sys p) ≠ 0)%N then
    ∃ m k, kernel_entry poll img vectors (mkMachine p uninit) = Done (task_n 0, task_n 1, task_n 2) m ∧
      booted img vectors p m k
  else
    kernel_entry poll img vectors (mkMachine p uninit) = Panic ∧
    ∀ info, ∃ b', panic_handler poll info (p_bus p) = Done tt b' ∧
      sent b' = sent (p_bus p) ++ bytes_of (nl +:+ "!! tyrne panic !!" +:+ nl +:+ info +:+ nl).
Proof.
  intros Hb Hd Hw. pose proof (kernel_entry_run poll img vectors p Hb Hd Hw) as Hr. case_decide.
  - destruct Hr as (m & k & ? & ? & _). by exists m, k.
  - split; [done|]. intros info. destruct (panic_handler_run poll info (p_bus p) Hb Hd) as (b' & ? & _ & ?).
    by exists b'.
Qed.
