(* ===== verification/VirtBus.v ===== *)
(** * The bus of the [virt] machine

    The interrupt controller below 0x0900_0000 and the [UART] from there on, each
    with its own state. Whatever controller and [UART] they are, the pair has the
    laws of both and those of [Devices]; [VirtBoard] is the concrete one. *)

From stdpp Require Import prelude strings.
From Stdlib Require Import Lia NArith.
From S2P Require Import Prelude Text HalCpu HalIrq Objects Sched QemuCpu Gic Console Board Boot KernelMain.

Record VirtBus (G U : Type) := mkVirt { v_gic : G; v_uart : U }.
Global Arguments mkVirt {_ _} _ _.
Global Arguments v_gic {_ _} _.
Global Arguments v_uart {_ _} _.

Section pair.
Context {G U : Type} `{!Bus G, !Bus U}.
Implicit Types (b : VirtBus G U).

Global Instance VirtBus_bus : Bus (VirtBus G U) := {|
  read_volatile a b :=
    if (a <? PL011_UART_BASE)%N then let '(x, g) := read_volatile a (v_gic b) in (x, mkVirt g (v_uart b))
    else let '(x, u) := read_volatile a (v_uart b) in (x, mkVirt (v_gic b) u);
  write_volatile a v b :=
    if (a <? PL011_UART_BASE)%N then mkVirt (write_volatile a v (v_gic b)) (v_uart b)
    else mkVirt (v_gic b) (write_volatile a v (v_uart b));
|}.

(** The controller's registers are on its side of the bus, the [UART]'s on the
    other. *)
Lemma gic_side (base off : N) :
  base = 0x08000000%N ∨ base = 0x08010000%N → (off < 0x1000)%N →
  (saturating_add 64 base off <? PL011_UART_BASE)%N = true.
Proof.
  intros Hb Ho. apply N.ltb_lt. assert (base + off < PL011_UART_BASE)%N by (unfold PL011_UART_BASE; lia).
  rewrite saturating_add_small; [done|]. unfold PL011_UART_BASE in *. lia.
Qed.

Lemma virt_write_dist off v b :
  (off < 0x1000)%N →
  write_distributor qemu_gic off v b = mkVirt (write_distributor qemu_gic off v (v_gic b)) (v_uart b).
Proof.
  intros Ho. unfold write_distributor. cbn [write_volatile VirtBus_bus].
  by rewrite gic_side by (done || by left).
Qed.

Lemma virt_write_cpu off v b :
  (off < 0x1000)%N →
  write_cpu_interface qemu_gic off v b = mkVirt (write_cpu_interface qemu_gic off v (v_gic b)) (v_uart b).
Proof.
  intros Ho. unfold write_cpu_interface. cbn [write_volatile VirtBus_bus].
  by rewrite gic_side by (done || by right).
Qed.

Lemma virt_read_dist off b :
  (off < 0x1000)%N →
  read_distributor qemu_gic off b =
    let '(x, g) := read_distributor qemu_gic off (v_gic b) in (x, mkVirt g (v_uart b)).
Proof.
  intros Ho. unfold read_distributor. cbn [read_volatile VirtBus_bus].
  by rewrite gic_side by (done || by left).
Qed.

Lemma virt_read_cpu off b :
  (off < 0x1000)%N →
  read_cpu_interface qemu_gic off b =
    let '(x, g) := read_cpu_interface qemu_gic off (v_gic b) in (x, mkVirt g (v_uart b)).
Proof.
  intros Ho. unfold read_cpu_interface. cbn [read_volatile VirtBus_bus].
  by rewrite gic_side by (done || by right).
Qed.

#[refine] Global Instance VirtBus_gic `{!GicV2 G qemu_gic} : GicV2 (VirtBus G U) qemu_gic := {|
  view b := view (v_gic b);
  active b := active (v_gic b);
  top_pending b := top_pending (v_gic b);
|}.
Proof.
  all: cbn zeta; intros; rewrite ?virt_read_dist, ?virt_read_cpu by done.
  - apply it_lines_lt.
  - rewrite <- typer_field. by destruct (read_distributor _ _ _).
  - pose proof (typer_readonly (v_gic b)) as Hr. destruct (read_distributor _ _ _) as [x g].
    cbn in *. rewrite Hr. by destruct b.
  - unfold write_distributor. cbn [write_volatile VirtBus_bus]. case_match; [|done].
    apply (dist_it_lines off v (v_gic b)).
  - rewrite virt_write_dist by done. by apply dist_enabled.
  - rewrite virt_write_dist by done. by apply dist_priority.
  - rewrite virt_write_dist by done. by apply dist_routed.
  - rewrite virt_write_dist by done. by apply dist_forwarding.
  - rewrite virt_write_dist by done. by apply dist_interface.
  - rewrite virt_write_cpu by done. by apply cpu_distributor.
  - rewrite virt_write_cpu by done. by apply cpu_control.
  - rewrite virt_write_cpu by done. by apply cpu_mask.
  - by eapply top_pending_lt.
  - rewrite <- iar_id. by destruct (read_cpu_interface _ _ _).
  - rewrite <- (iar_view (v_gic b)). by destruct (read_cpu_interface _ _ _).
  - rewrite <- iar_active. by destruct (read_cpu_interface _ _ _).
  - rewrite virt_write_cpu by done. by apply eoir_active.
Defined.

#[refine] Global Instance VirtBus_uart `{!Pl011 U uart0} : Pl011 (VirtBus G U) uart0 := {|
  sent b := sent (v_uart b);
  busy b := busy (v_uart b);
  drain := drain (B := U);
|}.
Proof.
  - intros b. rewrite <- (flag_full (v_uart b)). cbn [read_volatile VirtBus_bus].
    change (_ <? _)%N with false. cbv iota. by destruct (read_volatile _ _).
  - intros b. pose proof (flag_poll (v_uart b)) as Hp. cbn [read_volatile VirtBus_bus].
    change (_ <? _)%N with false. cbv iota. by destruct (read_volatile _ _).
  - intros b v Hb Hv. by apply (data_write (v_uart b) v).
Defined.

Global Instance VirtBus_devices `{!GicV2 G qemu_gic, !Pl011 U uart0} : Devices (VirtBus G U).
Proof.
  split.
  - intros b. cbn [read_volatile VirtBus_bus]. change (_ <? _)%N with false. cbv iota.
    by destruct (read_volatile _ _).
  - done.
  - intros off v b Ho. by rewrite virt_write_dist.
  - intros off v b Ho. by rewrite virt_write_cpu.
Qed.
End pair.

(** A [Gic400] and a slow [UART]. *)
Definition VirtBoard : Type := VirtBus Gic400 SlowUart.

Definition virt_board : Platform VirtBoard :=
  mkPlatform (mkCore 960 0 (λ _, 0%N)) (mkSysRegs 4 62500000 0 0 0 0) (mkVirt demo_gic (mkSlow [] 1)).
Definition virt_image : Image := mkImage 0x1000 0x2000 0x3000 0x90000 0x91000 0x92000.

(** The banner, as a board of 62.5 MHz prints it, and the panic of one at EL2. *)
Lemma kernel_entry_boots_witness :
  let _ := debug_profile in
  (∃ m k, kernel_entry 3 virt_image 2048 (mkMachine virt_board uninit) =
      Done (task_n 0, task_n 1, task_n 2) m ∧ booted virt_image 2048 virt_board m k) ∧
  boot_text 62500000 16 =
    ("tyrne: hello from kernel_main" +:+ nl +:+
     "tyrne: timer ready (62500000 Hz, resolution 16 ns)" +:+ nl +:+
     "tyrne: starting cooperative scheduler" +:+ nl)%string ∧
  let el2 := mkPlatform (p_core virt_board) (mkSysRegs 8 62500000 0 0 0 0) (p_bus virt_board) in
  kernel_entry 3 virt_image 2048 (mkMachine el2 uninit) = Panic.
Proof.
  intros p. split_and!.
  - apply (kernel_entry_boots (profile := p) 3 virt_image 2048 virt_board);
      [by vm_compute; lia|by vm_compute; lia|by vm_compute].
  - by vm_compute.
  - intros el2. apply (kernel_entry_boots (profile := p) 3 virt_image 2048 el2);
      [by vm_compute; lia|by vm_compute; lia|by vm_compute].
Defined.
