(* ===== verification/Reset.v ===== *)
(** * [bsp-qemu-virt/src/boot.s]: from the reset vector to [kernel_entry]

    [boot_s] is the section, and [reset_step] executes one of its instructions on
    [Cold], the hart as it leaves reset: the platform of [Board.v] (its core's
    [DAIF] and registers, its [CurrentEL]), the registers of EL2 that the drop to
    EL1 writes, [CPACR_EL1], and memory. The symbols of [linker.ld] are the record
    [Symbols]. *)

From stdpp Require Import prelude.
From Stdlib Require Import Lia NArith.
From S2P Require Import Prelude FreeList Arena Objects Rights Capability CapTable Ipc.
From S2P Require Import HalCpu HalIrq Timer SchedQueue Sched SchedProofs QemuCpu Asm Gic Console Board Vectors Boot.
From S2P Require Import KernelMain VirtBus.

(** The symbols the linker script defines, and where the section is loaded. *)
Record Symbols := mkSymbols {
  start : u64;
  __stack_top : u64;
  __bss_start : u64;
  __bss_end : u64;
}.

(** What [linker.ld] guarantees: [.bss] is 8-byte aligned at both ends, the stack
    16-byte aligned. *)
Record linked_as (y : Symbols) : Prop := {
  bss_start_aligned : (__bss_start y mod 8 = 0)%N;
  bss_end_aligned : (__bss_end y mod 8 = 0)%N;
  bss_order : (__bss_start y ≤ __bss_end y < 2 ^ 64)%N;
  stack_aligned : (__stack_top y mod 16 = 0)%N;
  stack_width : (__stack_top y < 2 ^ 64)%N;
  text_width : (start y + 2 ^ 12 < 2 ^ 64)%N;
}.

(** The labels; [L0], [L1] and [L2] are the numeric ones. *)
Inductive blabel := _start | halt_unsupported_el | el2_to_el1 | post_eret | L0 | L1 | L2.

Global Instance blabel_eq_dec : EqDecision blabel.
Proof. solve_decision. Defined.

Inductive symbol := Sym_post_eret | Sym_stack_top | Sym_bss_start | Sym_bss_end.

Inductive bsysreg := HCR_EL2 | SPSR_EL2 | ELR_EL2 | CPACR_EL1.

Inductive binstr :=
  | MSR_DAIFSET (imm : N)
  | MRS_CurrentEL (r : reg)
  | ANDI (r : reg) (imm : u64)
  | CMPI (r : reg) (imm : u64)
  | CMP (r1 r2 : reg)
  | B_EQ (l : blabel)
  | B_HS (l : blabel)
  | B_ (l : blabel)
  | MOV_I (r : reg) (imm : u64)
  | MOV_SP (r : reg)
  | MSR_ (s : bsysreg) (r : reg)
  | ADRP (r : reg) (s : symbol)
  | ADD_LO12 (r : reg) (s : symbol)
  | STR_XZR (r : reg) (post : u64)
  | ISB
  | WFE_
  | ERET_
  | BL_kernel_entry.

(** Steps (1) and (2) of the file, with the halt loop. *)
Definition dispatch_code : list (line binstr blabel) :=
  [ Label _start;
    Ins (MSR_DAIFSET 0xf);
    Ins (MRS_CurrentEL (X 0));
    Ins (ANDI (X 0) (N.shiftl 3 2));
    Ins (CMPI (X 0) (N.shiftl 2 2));
    Ins (B_EQ el2_to_el1);
    Ins (CMPI (X 0) (N.shiftl 1 2));
    Ins (B_EQ post_eret);
    Label halt_unsupported_el;
    Ins WFE_;
    Ins (B_ halt_unsupported_el) ]%N.

Definition drop_instrs : list binstr :=
  [ MOV_I (X 0) (N.shiftl 1 31);
    MSR_ HCR_EL2 (X 0);
    MOV_I (X 0) 0x3c5;
    MSR_ SPSR_EL2 (X 0);
    ADRP (X 0) Sym_post_eret;
    ADD_LO12 (X 0) Sym_post_eret;
    MSR_ ELR_EL2 (X 0);
    ERET_ ]%N.

(** Steps (3) to (5), up to the loop. *)
Definition setup_instrs : list binstr :=
  [ ADRP (X 0) Sym_stack_top;
    ADD_LO12 (X 0) Sym_stack_top;
    MOV_SP (X 0);
    MOV_I (X 0) 0x300000;
    MSR_ CPACR_EL1 (X 0);
    ISB;
    ADRP (X 0) Sym_bss_start;
    ADD_LO12 (X 0) Sym_bss_start;
    ADRP (X 1) Sym_bss_end;
    ADD_LO12 (X 1) Sym_bss_end ]%N.

Definition bss_loop : list binstr := [CMP (X 0) (X 1); B_HS L1; STR_XZR (X 0) 8; B_ L0]%N.

Definition boot_s : list (line binstr blabel) :=
  dispatch_code ++
  Label el2_to_el1 :: (Ins <$> drop_instrs) ++
  Label post_eret :: (Ins <$> setup_instrs) ++
  Label L0 :: (Ins <$> bss_loop) ++
  [ Label L1; Ins BL_kernel_entry; Label L2; Ins WFE_; Ins (B_ L2) ].

(** ** The machine *)

Record Cold (B : Type) := mkCold {
  cold_platform : Platform B;
  flag_z : bool;
  flag_c : bool;
  spsel : bool;
  hcr_el2 : u64;
  spsr_el2 : u64;
  elr_el2 : u64;
  cpacr_el1 : u64;
  cold_mem : N → u64;
  cpc : pc;
}.
Global Arguments mkCold {_} _ _ _ _ _ _ _ _ _ _.
Global Arguments cold_platform {_} _.
Global Arguments flag_z {_} _.
Global Arguments flag_c {_} _.
Global Arguments spsel {_} _.
Global Arguments hcr_el2 {_} _.
Global Arguments spsr_el2 {_} _.
Global Arguments elr_el2 {_} _.
Global Arguments cpacr_el1 {_} _.
Global Arguments cold_mem {_} _ _.
Global Arguments cpc {_} _.

(** [EnterKernel h]: control is at the first instruction of [kernel_entry]. *)
Inductive boot_outcome (B : Type) :=
  | Booting (h : Cold B)
  | EnterKernel (h : Cold B)
  | BootFault.
Global Arguments Booting {_} _.
Global Arguments EnterKernel {_} _.
Global Arguments BootFault {_}.

Section cold.
Context {B : Type} (y : Symbols).
Implicit Types (h : Cold B).

Definition cregs h : regfile := registers (p_core (cold_platform h)).
Definition current_el_of h : N := current_el (r_currentel (p_sys (cold_platform h))).

Definition cput (r : reg) (v : u64) h : Cold B :=
  mkCold (with_regs (set_reg r v (cregs h)) (cold_platform h)) (flag_z h) (flag_c h) (spsel h)
    (hcr_el2 h) (spsr_el2 h) (elr_el2 h) (cpacr_el1 h) (cold_mem h) (cpc h).
Definition cgoto (p : pc) h : Cold B :=
  mkCold (cold_platform h) (flag_z h) (flag_c h) (spsel h)
    (hcr_el2 h) (spsr_el2 h) (elr_el2 h) (cpacr_el1 h) (cold_mem h) p.
Definition cwrite (a v : u64) h : Cold B :=
  mkCold (cold_platform h) (flag_z h) (flag_c h) (spsel h)
    (hcr_el2 h) (spsr_el2 h) (elr_el2 h) (cpacr_el1 h) (store a v (cold_mem h)) (cpc h).
Definition cdaif (d : N) h : Cold B :=
  mkCold (with_daif d (cold_platform h)) (flag_z h) (flag_c h) (spsel h)
    (hcr_el2 h) (spsr_el2 h) (elr_el2 h) (cpacr_el1 h) (cold_mem h) (cpc h).

(** [subs xzr, a, b]: equal, and unsigned higher or same. *)
Definition compare (a b : u64) h : Cold B :=
  mkCold (cold_platform h) (a =? b)%N (b <=? a)%N (spsel h)
    (hcr_el2 h) (spsr_el2 h) (elr_el2 h) (cpacr_el1 h) (cold_mem h) (cpc h).

Definition cput_sys (s : bsysreg) (v : u64) h : Cold B :=
  let '(hcr, spsr, elr, cpacr) := match s with
    | HCR_EL2 => (v, spsr_el2 h, elr_el2 h, cpacr_el1 h)
    | SPSR_EL2 => (hcr_el2 h, v, elr_el2 h, cpacr_el1 h)
    | ELR_EL2 => (hcr_el2 h, spsr_el2 h, v, cpacr_el1 h)
    | CPACR_EL1 => (hcr_el2 h, spsr_el2 h, elr_el2 h, v)
    end in
  mkCold (cold_platform h) (flag_z h) (flag_c h) (spsel h) hcr spsr elr cpacr (cold_mem h) (cpc h).

Definition value_of (s : symbol) : u64 :=
  match s with
  | Sym_post_eret => start y + label_at boot_s post_eret
  | Sym_stack_top => __stack_top y
  | Sym_bss_start => __bss_start y
  | Sym_bss_end => __bss_end y
  end%N.

(** [CurrentEL] holds the level in bits 3:2. *)
Definition with_el (el : N) (p : Platform B) : Platform B :=
  let r := p_sys p in
  mkPlatform (p_core p)
    (mkSysRegs (N.shiftl el 2) (r_cntfrq r) (r_cntvct r) (r_cntv_cval r) (r_cntv_ctl r) (r_vbar r)) (p_bus p).

(** [ERET] at EL2, to an AArch64 EL1 in the layout of [SPSR]. It is an illegal
    return (here: a fault) unless [HCR_EL2.RW] is set and [TGE] clear, or if the
    SPSR names another mode. *)
Definition eret_el2 h : boot_outcome B :=
  let w := spsr_el2 h in
  if N.testbit (hcr_el2 h) 31 && negb (N.testbit (hcr_el2 h) 27) && negb (N.testbit w 4) &&
     (N.land (N.shiftr w 2) 3 =? 1)%N && negb (N.testbit w 1)
  then Booting (mkCold (with_el 1 (with_daif (word_daif w) (cold_platform h)))
         (N.testbit w 30) (N.testbit w 29) (N.testbit w 0)
         (hcr_el2 h) (spsr_el2 h) (elr_el2 h) (cpacr_el1 h) (cold_mem h)
         (resolve (start y) (text_size boot_s) (elr_el2 h)))
  else BootFault.

Definition advance (off : N) h : boot_outcome B := Booting (cgoto (InText (off + 4)) h).
Definition branch (l : blabel) h : boot_outcome B := Booting (cgoto (InText (label_at boot_s l)) h).

(** [sp] is [SP_EL1] at EL1 with [SPSel] set; registers of EL2 are undefined
    below it. *)
Definition reset_exec (i : binstr) (off : N) h : boot_outcome B :=
  match i with
  | MSR_DAIFSET imm => advance off (cdaif (N.lor (daif (p_core (cold_platform h))) (N.shiftl imm 6)) h)
  | MRS_CurrentEL r => advance off (cput r (r_currentel (p_sys (cold_platform h))) h)
  | ANDI r imm => advance off (cput r (N.land (cregs h r) imm) h)
  | CMPI r imm => advance off (compare (cregs h r) imm h)
  | CMP r1 r2 => advance off (compare (cregs h r1) (cregs h r2) h)
  | B_EQ l => if flag_z h then branch l h else advance off h
  | B_HS l => if flag_c h then branch l h else advance off h
  | B_ l => branch l h
  | MOV_I r imm => advance off (cput r imm h)
  | MOV_SP r =>
      if (current_el_of h =? 1)%N && spsel h then advance off (cput SP (cregs h r) h) else BootFault
  | MSR_ CPACR_EL1 r => advance off (cput_sys CPACR_EL1 (cregs h r) h)
  | MSR_ s r => if (current_el_of h =? 2)%N then advance off (cput_sys s (cregs h r) h) else BootFault
  | ADRP r s => advance off (cput r (N.ldiff (value_of s) 4095) h)
  | ADD_LO12 r s => advance off (cput r (wrapping_add 64 (cregs h r) (N.land (value_of s) 4095)) h)
  | STR_XZR r post =>
      if (cregs h r mod 8 =? 0)%N
      then advance off (cput r (wrapping_add 64 (cregs h r) post) (cwrite (cregs h r) 0 h))
      else BootFault
  | ISB | WFE_ => advance off h
  | ERET_ => if (current_el_of h =? 2)%N then eret_el2 h else BootFault
  | BL_kernel_entry => EnterKernel h
  end.

Definition reset_step h : boot_outcome B :=
  match cpc h with
  | InText off => match instr_at boot_s off with Some i => reset_exec i off h | None => BootFault end
  | Elsewhere _ => BootFault
  end.

Fixpoint boot_run (n : nat) (o : boot_outcome B) : boot_outcome B :=
  match n, o with
  | S n, Booting h => boot_run n (reset_step h)
  | _, _ => o
  end.

(** The architectural reset: at [_start], [SP_ELx] selected, in some EL. *)
Definition at_reset h : Prop :=
  cpc h = InText (label_at boot_s _start) ∧ spsel h = true ∧
  ∃ el, (el < 4)%N ∧ r_currentel (p_sys (cold_platform h)) = N.shiftl el 2.
End cold.

(** ** Addresses *)

(** [adrp] and [add :lo12:] make up the address of the symbol. *)
Lemma adrp_lo12 v : (v < 2 ^ 64)%N → wrapping_add 64 (N.ldiff v 4095) (N.land v 4095) = v.
Proof.
  intros Hv. change 4095%N with (N.ones 12). rewrite N.ldiff_ones_r, N.land_ones, N.shiftl_mul_pow2, N.shiftr_div_pow2.
  pose proof (N.Div0.div_mod v (2 ^ 12)) as Hd.
  replace (v / 2 ^ 12 * 2 ^ 12)%N with (2 ^ 12 * (v / 2 ^ 12))%N by lia.
  rewrite wrapping_add_small; rewrite <- Hd; done.
Qed.

Section boot_proofs.
Context {B : Type} (y : Symbols).
Implicit Types (h : Cold B).

Lemma boot_run_add n m (o : boot_outcome B) : boot_run y (n + m) o = boot_run y m (boot_run y n o).
Proof.
  revert o. induction n as [|n IH]; intros o; [done|]. destruct o; cbn [Nat.add boot_run]; [apply IH|..].
  - by destruct m.
  - by destruct m.
Qed.

Lemma reset_step_at off i h :
  cpc h = InText off → instr_at boot_s off = Some i → reset_step y h = reset_exec y i off h.
Proof. intros Hp Hi. unfold reset_step. by rewrite Hp, Hi. Qed.

(** Up to the dispatch: five instructions to the EL2 code, seven to [post_eret]. *)
Lemma run_dispatch h n :
  at_reset h →
  (current_el_of h = 2%N → ∃ h', boot_run y (5 + n) (Booting h) = boot_run y n (Booting h') ∧
     cpc h' = InText (label_at boot_s el2_to_el1) ∧ cold_mem h' = cold_mem h ∧ spsel h' = true ∧
     p_sys (cold_platform h') = p_sys (cold_platform h) ∧ p_bus (cold_platform h') = p_bus (cold_platform h)) ∧
  (current_el_of h = 1%N → ∃ h', boot_run y (7 + n) (Booting h) = boot_run y n (Booting h') ∧
     cpc h' = InText (label_at boot_s post_eret) ∧ cold_mem h' = cold_mem h ∧ spsel h' = true ∧
     p_sys (cold_platform h') = p_sys (cold_platform h) ∧ p_bus (cold_platform h') = p_bus (cold_platform h) ∧
     N.land (daif (p_core (cold_platform h'))) DAIF_ALL = DAIF_ALL) ∧
  (current_el_of h ≠ 1%N → current_el_of h ≠ 2%N →
     ∃ h', boot_run y (7 + n) (Booting h) = boot_run y n (Booting h') ∧
     cpc h' = InText (label_at boot_s halt_unsupported_el)).
Proof.
  intros (Hpc & Hs & el & Hel & Hr).
  destruct h as [[[d mp f] [cel fr ct cv cc vb] bus] z c sp hcr spsr elr cpa mm p].
  cbn in Hpc, Hs, Hr. subst p sp cel.
  assert (el = 0 ∨ el = 1 ∨ el = 2 ∨ el = 3)%N as [-> | [-> | [-> | ->]]] by lia.
  all: split_and!; try (intros Hno; exfalso; by vm_compute in Hno).
  all: try (intros Hno1 Hno2; exfalso; (by apply Hno1) || (by apply Hno2)).
  all: intros; eexists; (split; [vm_compute; reflexivity|]); split_and?; try done.
  cbn [cold_platform p_core daif]. apply daif_all_set.
Qed.

Lemma el_goto p h : current_el_of (cgoto p h) = current_el_of h.
Proof. done. Qed.

Lemma el_put r v h : current_el_of (cput r v h) = current_el_of h.
Proof. done. Qed.

Lemma el_put_sys s v h : current_el_of (cput_sys s v h) = current_el_of h.
Proof. by destruct s. Qed.

Lemma spsel_put r v h : spsel (cput r v h) = spsel h.
Proof. done. Qed.

(** The next instruction of the code at hand; the EL is known. *)
Ltac boot_step :=
  match goal with
  | Hc : code_at boot_s _ _ |- _ =>
      let Hi := fresh in apply code_at_cons in Hc as [Hi Hc];
      cbn [boot_run]; erewrite reset_step_at by first [exact Hi|eassumption|reflexivity]; clear Hi
  end;
  unfold reset_exec, advance;
  repeat first [rewrite el_goto|rewrite el_put|rewrite el_put_sys];
  try match goal with
  | Hel : current_el_of ?h = _ |- context [current_el_of ?h] => rewrite Hel; cbn [N.eqb Pos.eqb andb]
  end.

(** The drop to EL1: seven instructions and the exception return. *)
Lemma run_drop_instrs h :
  cpc h = InText (label_at boot_s el2_to_el1) → current_el_of h = 2%N →
  ∃ h', boot_run y 7 (Booting h) = Booting h' ∧
    cpc h' = InText (label_at boot_s el2_to_el1 + 4 + 4 + 4 + 4 + 4 + 4 + 4) ∧ cold_mem h' = cold_mem h ∧
    p_sys (cold_platform h') = p_sys (cold_platform h) ∧ p_bus (cold_platform h') = p_bus (cold_platform h) ∧
    hcr_el2 h' = N.shiftl 1 31 ∧ spsr_el2 h' = 0x3c5%N ∧
    elr_el2 h' = wrapping_add 64 (N.ldiff (value_of y Sym_post_eret) 4095)
                   (N.land (value_of y Sym_post_eret) 4095).
Proof.
  intros Hpc Hel. assert (code_at boot_s (label_at boot_s el2_to_el1) drop_instrs) as Hc
    by (apply code_at_compute; by vm_compute).
  eexists. split; [do 7 boot_step; reflexivity|].
  clear. destruct h as [[[d mp f] [cel fr ct cv cc vb] bus] z c sp hcr spsr elr cpa mm p].
  split_and!; vm_compute; reflexivity.
Qed.

Lemma run_drop h n :
  linked_as y → cpc h = InText (label_at boot_s el2_to_el1) → current_el_of h = 2%N →
  ∃ h', boot_run y (8 + n) (Booting h) = boot_run y n (Booting h') ∧
    cpc h' = InText (label_at boot_s post_eret) ∧ cold_mem h' = cold_mem h ∧ spsel h' = true ∧
    p_sys (cold_platform h') = p_sys (with_el 1 (cold_platform h)) ∧
    p_bus (cold_platform h') = p_bus (cold_platform h) ∧ daif (p_core (cold_platform h')) = DAIF_ALL.
Proof.
  intros Hy Hpc Hel. destruct (run_drop_instrs h Hpc Hel) as (h7 & Hrun & Hpc7 & Hm & Hsys & Hbus & Hhcr & Hspsr & Helr).
  replace (8 + n) with (7 + S n) by lia. rewrite boot_run_add, Hrun. cbn [boot_run].
  rewrite (reset_step_at _ ERET_ h7 Hpc7) by (by vm_compute).
  unfold reset_exec. replace (current_el_of h7) with (current_el_of h) by (unfold current_el_of; by rewrite Hsys).
  rewrite Hel. cbn [N.eqb Pos.eqb].
  unfold eret_el2. rewrite Hhcr, Hspsr. eexists. split; [reflexivity|].
  split; [|split_and!; [exact Hm|reflexivity| |exact Hbus|reflexivity]].
  - cbn [cpc]. rewrite Helr, adrp_lo12.
    + apply resolve_in. by vm_compute.
    + eapply N.lt_trans; [|exact (text_width _ Hy)]. cbn [value_of]. apply N.add_lt_mono_l. by vm_compute.
  - cbn [cold_platform with_el with_daif p_sys]. by rewrite Hsys.
Qed.

(** Stack, [CPACR_EL1], and the bounds of the loop. *)
Lemma run_setup h n :
  linked_as y → cpc h = InText (label_at boot_s post_eret) → current_el_of h = 1%N → spsel h = true →
  ∃ h', boot_run y (10 + n) (Booting h) = boot_run y n (Booting h') ∧
    cpc h' = InText (label_at boot_s L0) ∧ cold_mem h' = cold_mem h ∧ spsel h' = true ∧
    p_sys (cold_platform h') = p_sys (cold_platform h) ∧ p_bus (cold_platform h') = p_bus (cold_platform h) ∧
    daif (p_core (cold_platform h')) = daif (p_core (cold_platform h)) ∧
    cregs h' SP = __stack_top y ∧ cregs h' (X 0) = __bss_start y ∧ cregs h' (X 1) = __bss_end y ∧
    cpacr_el1 h' = N.shiftl 3 20.
Proof.
  intros Hy Hpc Hel Hs.
  assert (code_at boot_s (label_at boot_s post_eret) setup_instrs) as Hc
    by (apply code_at_compute; by vm_compute).
  destruct Hy as [_ _ [Hle Hend] _ Hst _].
  eexists. split.
  { rewrite boot_run_add. do 2 boot_step. boot_step. change (spsel (cgoto _ _)) with (spsel h). rewrite Hs.
    cbn [andb]. do 7 boot_step. reflexivity. }
  destruct h as [[[d mp f] [cel fr ct cv cc vb] bus] z c sp hcr spsr elr cpa mm p].
  cbn [spsel] in Hs. subst sp. split_and!; try (vm_compute; reflexivity).
  - etransitivity; [|by apply adrp_lo12]. reflexivity.
  - etransitivity; [|apply adrp_lo12; by eapply N.le_lt_trans]. reflexivity.
  - etransitivity; [|by apply adrp_lo12]. reflexivity.
Qed.

(** ** Zeroing the BSS *)

Definition zeroed (lo hi : N) (m m' : N → u64) : Prop :=
  (∀ a, (lo ≤ a < hi)%N → (a mod 8 = 0)%N → m' a = 0%N) ∧
  (∀ a, (a < lo ∨ hi ≤ a)%N → m' a = m a).

Lemma loop_code :
  code_at boot_s (label_at boot_s L0) bss_loop ∧
  instr_at boot_s (label_at boot_s L1) = Some BL_kernel_entry.
Proof. split; [apply code_at_compute|]; by vm_compute. Qed.

(** One round stores one doubleword, and leaves everything else alone. *)
Lemma run_loop_round h a e n :
  cpc h = InText (label_at boot_s L0) → cregs h (X 0) = a → cregs h (X 1) = e →
  (a mod 8 = 0)%N → (a < e)%N → (a + 8 < 2 ^ 64)%N →
  ∃ h', boot_run y (4 + n) (Booting h) = boot_run y n (Booting h') ∧
    cpc h' = InText (label_at boot_s L0) ∧ cregs h' (X 0) = (a + 8)%N ∧
    (∀ r, r ≠ X 0 → cregs h' r = cregs h r) ∧ cold_mem h' = store a 0 (cold_mem h) ∧
    spsel h' = spsel h ∧ cpacr_el1 h' = cpacr_el1 h ∧ p_sys (cold_platform h') = p_sys (cold_platform h) ∧
    p_bus (cold_platform h') = p_bus (cold_platform h) ∧
    daif (p_core (cold_platform h')) = daif (p_core (cold_platform h)).
Proof.
  intros Hpc Ha He Hal Hlt Hw. destruct loop_code as [Hc _].
  eexists. split.
  { rewrite boot_run_add. do 2 boot_step. change (flag_c (cgoto _ (compare ?a ?b h))) with (b <=? a)%N.
    rewrite Ha, He, (proj2 (N.leb_gt e a)) by done. boot_step.
    change (cregs (cgoto _ (cgoto _ (compare _ _ h))) (X 0)) with (cregs h (X 0)). rewrite Ha, Hal.
    cbn [N.eqb]. boot_step. reflexivity. }
  split_and!; try reflexivity.
  - change (wrapping_add 64 a 8 = (a + 8)%N). by apply wrapping_add_small.
  - intros r Hr. change (set_reg (X 0) (wrapping_add 64 a 8) (cregs h) r = cregs h r). by apply set_reg_ne.
Qed.

Lemma run_loop k h a e n :
  cpc h = InText (label_at boot_s L0) → cregs h (X 0) = a → cregs h (X 1) = e →
  (a mod 8 = 0)%N → (e = a + 8 * N.of_nat k)%N → (e < 2 ^ 64)%N →
  ∃ h', boot_run y (4 * k + (2 + n)) (Booting h) = boot_run y n (Booting h') ∧
    cpc h' = InText (label_at boot_s L1) ∧ cregs h' SP = cregs h SP ∧ zeroed a e (cold_mem h) (cold_mem h') ∧
    spsel h' = spsel h ∧ cpacr_el1 h' = cpacr_el1 h ∧ p_sys (cold_platform h') = p_sys (cold_platform h) ∧
    p_bus (cold_platform h') = p_bus (cold_platform h) ∧
    daif (p_core (cold_platform h')) = daif (p_core (cold_platform h)).
Proof.
  revert h a. induction k as [|k IH]; intros h a Hpc Ha He Hal Hk Hw.
  - assert (e = a) as -> by lia. destruct loop_code as [Hc _]. eexists. split.
    { change (4 * 0 + (2 + n)) with (2 + n). rewrite boot_run_add. boot_step. boot_step.
      change (flag_c (cgoto _ (compare ?a ?b h))) with (b <=? a)%N. rewrite Ha, He, N.leb_refl. reflexivity. }
    split_and!; try reflexivity. split; [intros a' Ha'; lia|done].
  - destruct (run_loop_round h a e (4 * k + (2 + n)) Hpc Ha He Hal) as
      (h1 & Hr1 & Hp1 & Ha1 & Hreg1 & Hm1 & Hs1 & Hc1 & Hy1 & Hb1 & Hd1); [lia..|].
    destruct (IH h1 (a + 8)%N Hp1 Ha1) as (h2 & Hr2 & Hp2 & Hsp2 & [Hz Hz'] & Hs2 & Hc2 & Hy2 & Hb2 & Hd2).
    + by rewrite Hreg1.
    + replace (a + 8)%N with (a + 1 * 8)%N by lia. by rewrite N.Div0.mod_add.
    + lia.
    + done.
    + exists h2. split.
      { replace (4 * S k + (2 + n)) with (4 + (4 * k + (2 + n))) by lia. by rewrite Hr1. }
      rewrite Hsp2, Hs2, Hc2, Hy2, Hb2, Hd2, Hreg1 by done. split_and!; try done. rewrite Hm1 in Hz'. split.
      * intros a' Ha' Hm. destruct (decide (a' < a + 8)%N) as [Hlt|Hge]; [|apply Hz; [lia|done]].
        rewrite Hz' by lia. unfold store. rewrite decide_True; [done|].
        pose proof (N.Div0.div_mod a 8). pose proof (N.Div0.div_mod a' 8). lia.
      * intros a' Ha'. rewrite Hz' by lia. unfold store. by rewrite decide_False by lia.
Qed.

(** ** The halt loop *)

Lemma halt_forever n h :
  cpc h = InText (label_at boot_s halt_unsupported_el) ∨
  cpc h = InText (label_at boot_s halt_unsupported_el + 4) →
  ∃ h', boot_run y n (Booting h) = Booting h'.
Proof.
  revert h. induction n as [|n IH]; intros h Hpc; [by exists h|]. cbn [boot_run].
  destruct Hpc as [Hpc|Hpc].
  - rewrite (reset_step_at _ WFE_ h Hpc) by (by vm_compute). apply IH. by right.
  - rewrite (reset_step_at _ (B_ halt_unsupported_el) h Hpc) by (by vm_compute). apply IH. by left.
Qed.

(** A run that has left the boot code does not come back to it. *)
Lemma boot_run_earlier n m h h' :
  boot_run y (n + m) (Booting h) = Booting h' → ∃ h1, boot_run y n (Booting h) = Booting h1.
Proof.
  rewrite boot_run_add. destruct (boot_run y n (Booting h)) as [h1|h1|]; [eauto|..]; by destruct m.
Qed.

(** ** From reset to the call *)

Definition bss_words : nat := N.to_nat ((__bss_end y - __bss_start y) / 8).

(** The instructions executed from reset at EL [el] to [bl kernel_entry]. *)
Definition boot_steps (el : N) : nat :=
  (if (el =? 2)%N then 13 else 7) + (10 + (4 * bss_words + (2 + 1))).

(** The hart that enters [kernel_entry], against the one that left reset. *)
Record handed_over h h' : Prop := {
  at_el1 : current_el_of h' = 1%N;
  daif_masked : N.land (daif (p_core (cold_platform h'))) DAIF_ALL = DAIF_ALL;
  stack_set : spsel h' = true ∧ cregs h' SP = __stack_top y;
  fp_enabled : cpacr_el1 h' = N.shiftl 3 20;
  bss_zeroed : zeroed (__bss_start y) (__bss_end y) (cold_mem h) (cold_mem h');
  sys_kept : p_sys (cold_platform h') = p_sys (with_el 1 (cold_platform h));
  bus_kept : p_bus (cold_platform h') = p_bus (cold_platform h);
}.

Lemma bss_words_exact :
  linked_as y → (__bss_end y = __bss_start y + 8 * N.of_nat bss_words)%N.
Proof.
  intros [H1 H2 [H3 _] _ _ _]. unfold bss_words. rewrite N2Nat.id.
  rewrite N.Lcm0.mod_divide in H1, H2. destruct H1 as [p Hp], H2 as [q Hq]. rewrite Hp, Hq in *.
  replace (q * 8 - p * 8)%N with ((q - p) * 8)%N by lia. rewrite N.div_mul by done. lia.
Qed.

(** From [post_eret] on, at EL1. *)
Lemma run_post_eret h :
  linked_as y → cpc h = InText (label_at boot_s post_eret) → current_el_of h = 1%N → spsel h = true →
  ∃ h', boot_run y (10 + (4 * bss_words + (2 + 1))) (Booting h) = EnterKernel h' ∧
    spsel h' = true ∧ cregs h' SP = __stack_top y ∧ cpacr_el1 h' = N.shiftl 3 20 ∧
    zeroed (__bss_start y) (__bss_end y) (cold_mem h) (cold_mem h') ∧
    p_sys (cold_platform h') = p_sys (cold_platform h) ∧ p_bus (cold_platform h') = p_bus (cold_platform h) ∧
    daif (p_core (cold_platform h')) = daif (p_core (cold_platform h)).
Proof.
  intros Hy Hpc Hel Hs.
  destruct (run_setup h (4 * bss_words + (2 + 1)) Hy Hpc Hel Hs)
    as (h1 & -> & Hp1 & Hm1 & Hs1 & Hy1 & Hb1 & Hd1 & Hsp1 & Ha1 & He1 & Hc1).
  destruct (run_loop bss_words h1 _ _ 1 Hp1 Ha1 He1 (bss_start_aligned _ Hy)
    (bss_words_exact Hy)) as (h2 & -> & Hp2 & Hsp2 & Hz & Hs2 & Hc2 & Hy2 & Hb2 & Hd2);
    [apply Hy|].
  exists h2. split.
  { cbn [boot_run]. destruct loop_code as [_ Hbl]. rewrite (reset_step_at _ _ h2 Hp2 Hbl).
    done. }
  rewrite Hs2, Hsp2, Hc2, Hy2, Hb2, Hd2, Hs1, Hsp1, Hc1, Hy1, Hb1, Hd1. rewrite Hm1 in Hz. by split_and!.
Qed.

Lemma with_el_same (p : Platform B) el : r_currentel (p_sys p) = N.shiftl el 2 → p_sys (with_el el p) = p_sys p.
Proof. unfold with_el. cbn [p_sys]. intros <-. by destruct (p_sys p). Qed.

Lemma reset_hands_over h :
  linked_as y → at_reset h → current_el_of h = 1%N ∨ current_el_of h = 2%N →
  ∃ h', boot_run y (boot_steps (current_el_of h)) (Booting h) = EnterKernel h' ∧ handed_over h h'.
Proof.
  intros Hy Hat Hel. unfold boot_steps. destruct Hel as [Hel|Hel]; rewrite Hel; cbn [N.eqb Pos.eqb].
  - destruct (proj1 (proj2 (run_dispatch h (10 + (4 * bss_words + (2 + 1))) Hat)) Hel)
      as (h1 & -> & Hp & Hm & Hs & Hy1 & Hb1 & Hd).
    assert (current_el_of h1 = 1%N) as Hel1 by (unfold current_el_of; by rewrite Hy1).
    destruct (run_post_eret h1 Hy Hp Hel1 Hs) as (h2 & -> & Hs2 & Hsp & Hc & Hz & Hy2 & Hb2 & Hd2).
    exists h2. split; [done|]. destruct Hat as (_ & _ & el & Hlt & Hcel).
    assert (el = 1%N) as ->.
    { unfold current_el_of in Hel. rewrite Hcel in Hel.
      assert (el = 0 ∨ el = 1 ∨ el = 2 ∨ el = 3)%N as [-> | [-> | [-> | ->]]] by lia; by vm_compute in Hel. }
    split; try done.
    + unfold current_el_of. by rewrite Hy2, Hy1.
    + by rewrite Hd2.
    + by rewrite <- Hm.
    + by rewrite Hy2, Hy1, with_el_same.
    + by rewrite Hb2.
  - change (13 + ?m) with (5 + (8 + m)).
    destruct (proj1 (run_dispatch h (8 + (10 + (4 * bss_words + (2 + 1)))) Hat) Hel)
      as (h0 & -> & Hp0 & Hm0 & Hs0 & Hy0 & Hb0).
    assert (current_el_of h0 = 2%N) as Hel0 by (unfold current_el_of; by rewrite Hy0).
    destruct (run_drop h0 (10 + (4 * bss_words + (2 + 1))) Hy Hp0 Hel0)
      as (h1 & -> & Hp & Hm & Hs & Hy1 & Hb1 & Hd).
    assert (current_el_of h1 = 1%N) as Hel1 by (unfold current_el_of; by rewrite Hy1).
    destruct (run_post_eret h1 Hy Hp Hel1 Hs) as (h2 & -> & Hs2 & Hsp & Hc & Hz & Hy2 & Hb2 & Hd2).
    exists h2. split; [done|]. split; try done.
    + unfold current_el_of. by rewrite Hy2, Hy1.
    + by rewrite Hd2, Hd.
    + by rewrite <- Hm0, <- Hm.
    + rewrite Hy2, Hy1. unfold with_el. cbn [p_sys]. by rewrite Hy0.
    + by rewrite Hb2, Hb1, Hb0.
Qed.
End boot_proofs.

(** ** Properties *)

(** C21: the board boots from reset. Entered at EL1 or EL2, with any memory and
    registers, [boot.s] reaches [kernel_entry], after a number of instructions that
    depends on the entry level and the size of the BSS alone, at EL1, with
    interrupts masked, on its 16-byte aligned stack, with floating point enabled,
    and with memory unchanged but for the BSS, which is zero. [kernel_entry], with
    no static initialised, then boots the kernel, unless the counter has no
    frequency. Entered at any other level, [boot.s] spins in its halt loop for ever
    and never reaches [kernel_entry]. *)
Theorem reset_boots {B} `{Devices B} `{profile : BuildProfile} (poll : nat)
    (y : Symbols) (img : Image) (vectors : u64) (h : Cold B) :
  linked_as y → at_reset h → in_width 64 (r_cntfrq (p_sys (cold_platform h))) →
  busy (p_bus (cold_platform h)) < poll → drain < poll →
  if decide (current_el_of h = 1 ∨ current_el_of h = 2)%N then
    ∃ h', boot_run y (boot_steps y (current_el_of h)) (Booting h) = EnterKernel h' ∧ handed_over y h h' ∧
      (__stack_top y mod 16 = 0)%N ∧
      (r_cntfrq (p_sys (cold_platform h)) ≠ 0%N →
       ∃ m k, kernel_entry poll img vectors (mkMachine (cold_platform h') uninit) =
           Done (task_n 0, task_n 1, task_n 2) m ∧
         booted img vectors (cold_platform h') m k)
  else ∀ n, ∃ h', boot_run y n (Booting h) = Booting h'.
Proof.
  intros Hy Hat Hf Hb Hd. case_decide as Hel.
  - destruct (reset_hands_over y h Hy Hat Hel) as (h' & Hr & Hh). exists h'. split_and!; [done..|apply Hy|].
    intros Hnz. pose proof (kernel_entry_run poll img vectors (cold_platform h')) as Hk.
    rewrite (sys_kept _ _ _ Hh), (bus_kept _ _ _ Hh) in Hk. cbn [with_el p_sys r_cntfrq r_currentel] in Hk.
    specialize (Hk Hb Hd Hf). rewrite decide_True in Hk by (split; [by vm_compute|done]).
    destruct Hk as (m & k & He & Hbt & _). by exists m, k.
  - intros n. destruct (proj2 (proj2 (run_dispatch y h n Hat))) as (h1 & Hr & Hp); [tauto..|].
    destruct (halt_forever y n h1) as [h2 Hh]; [by left|]. rewrite Hh in Hr.
    apply (boot_run_earlier y n 7 h h2). by rewrite Nat.add_comm.
Qed.

(** A board at EL2 whose BSS is two doublewords, full of ones. *)
Definition cold_board : Cold VirtBoard :=
  mkCold (mkPlatform (mkCore 0 0 (λ _, 7%N)) (mkSysRegs 8 62500000 0 0 0 0) (p_bus virt_board))
    false false true 0 0 0 0 (λ _, 1%N) (InText (label_at boot_s _start)).

Lemma reset_boots_witness :
  let _ := debug_profile in
  let y := mkSymbols 0x40080000 0x400a0000 0x40090000 0x40090010 in
  ∃ h', boot_run y 34 (Booting cold_board) = EnterKernel h' ∧ handed_over y cold_board h' ∧
    (__stack_top y mod 16 = 0)%N ∧
    (r_cntfrq (p_sys (cold_platform cold_board)) ≠ 0%N →
     ∃ m k, kernel_entry 3 virt_image 2048 (mkMachine (cold_platform h') uninit) =
         Done (task_n 0, task_n 1, task_n 2) m ∧
       booted virt_image 2048 (cold_platform h') m k).
Proof.
  intros p y. apply (reset_boots (profile := p) 3 y virt_image 2048 cold_board).
  - by split.
  - split_and!; [done|done|]. by exists 2%N.
  - by vm_compute.
  - by vm_compute; lia.
  - by vm_compute; lia.
Defined.
