(* ===== verification/SchedSafety.v ===== *)
(** * The scheduler's properties

    Built on the step lemmas of [SchedProofs.v]: no panic and no broken
    invariant, round robin, no lost wake-up, deadlock reporting, and registers
    across switches. The witnesses run on the QEMU core of [QemuCpu.v]. *)

From stdpp Require Import prelude.
From Stdlib Require Import Lia NArith.
From S2P Require Import Prelude FreeList Arena Objects Rights Capability.
From S2P Require Import CapTable CapTree CapShape CapProofs CapSpec Ipc IpcProofs.
From S2P Require Import HalCpu SchedQueue Sched SchedProofs QemuCpu Boot.

Section safety.
Context {S : Type} `{!Cpu S, !ContextSwitch S} `{BuildProfile}.
Implicit Types (k : Kernel S) (l : list TaskHandle) (h c : TaskHandle).

(** The calls a running task can make. *)
Inductive kernel_op :=
  | KYield
  | KSend (tbl : nat) (ep_cap : CapHandle) (msg : Message) (transfer : option CapHandle)
  | KRecv (tbl : nat) (ep_cap : CapHandle).

Definition ignore {A} (c : control A) : control (S := S) unit := control_map (λ _, tt) c.

Definition exec_kernel (o : kernel_op) : M (Kernel S) SchedError (control unit) :=
  match o with
  | KYield => yield_now
  | KSend tbl ep_cap msg transfer => c ← ipc_send_and_yield tbl ep_cap msg transfer; mret (ignore c)
  | KRecv tbl ep_cap => c ← ipc_recv_and_yield tbl ep_cap; mret (ignore c)
  end.

(** A kernel some task is running in. *)
Definition running k : Prop := ∃ l, kernel_wf k l ∧ is_Some (current (k_sched k)).

(** The rest of a suspended call: resumed in any well-formed kernel, it returns
    and leaves a well-formed one. *)
Definition resumable {A} (m : M (Kernel S) SchedError A) : Prop :=
  ∀ k, running k → match m k with Done _ k' | Fail _ k' => running k' | _ => False end.

Definition safe {A} (r : step (Kernel S) SchedError (control A)) : Prop :=
  match r with
  | Done (Return _) k' => running k'
  | Done (Switched m) k' => running k' ∧ resumable m
  | Fail _ k' => running k'
  | Panic | Diverge => False
  end.

Lemma drop_guard_resumable guard : resumable (drop_guard guard).
Proof.
  intros k (l & Hk & Hc). rewrite drop_guard_run. exists l. split; [|done]. by apply kernel_wf_cpu.
Qed.

Lemma resumable_map {A B} (f : A → B) (m : M (Kernel S) SchedError A) :
  resumable m → resumable (a ← m; mret (f a)).
Proof. intros Hm k Hk. specialize (Hm k Hk). monad. by destruct (m k). Qed.

Lemma recv_resumable guard tbl ep_cap : resumable (recv_resume guard tbl ep_cap).
Proof.
  intros k (l & Hk & Hc).
  destruct (recv_resume_run k l guard tbl ep_cap Hk)
    as [(e & k' & -> & Hk' & Hs & _)|(out & q & t & Hk' & _ & ->)]; [exists l; by rewrite Hs|].
  destruct out; by exists l.
Qed.

Lemma yield_now_safe k : running k → safe (yield_now k).
Proof.
  intros (l & Hk & [c Hc]). pose proof (yield_now_run k l c Hk Hc) as Hy. destruct l as [|h l].
  - destruct Hy as (s' & -> & Hk' & Hc' & _). exists []. simpl. by rewrite Hc'.
  - destruct Hy as (s1 & k' & guard & -> & _ & _ & _ & _ & Hk' & Hc' & _). simpl.
    split; [exists (l ++ [c]); by rewrite Hc'|apply drop_guard_resumable].
Qed.

Lemma safe_map {A B} (f : A → B) (m : M (Kernel S) SchedError (control A)) k :
  safe (m k) → safe ((c ← m; mret (control_map f c)) k).
Proof.
  monad. destruct (m k) as [[a|r] k'|e k'| |]; simpl; try done.
  intros [? ?]. split; [done|by apply resumable_map].
Qed.

Lemma send_safe k tbl ep_cap msg transfer :
  running k → safe (ipc_send_and_yield tbl ep_cap msg transfer k).
Proof.
  intros (l & Hk & [c Hc]).
  destruct (ipc_send_and_yield_run k l tbl ep_cap msg transfer Hk)
    as [(e & k' & -> & Hk' & Hs & _)|(ep & q & t & _ & _ & _ & Hout)]; [exists l; rewrite Hs; eauto|].
  destruct (sent_outcome _).
  - destruct Hout as (s' & l1 & (Hk1 & Hc1 & _) & ->). apply safe_map, yield_now_safe.
    exists l1. split; [done|]. rewrite Hc1, Hc. eauto.
  - destruct Hout as [-> Hk']. exists l. simpl. eauto.
Qed.

Lemma recv_safe k tbl ep_cap : running k → safe (ipc_recv_and_yield tbl ep_cap k).
Proof.
  intros (l & Hk & [c Hc]).
  destruct (ipc_recv_and_yield_run k l c tbl ep_cap Hk Hc)
    as [(e & k' & -> & Hk' & Hs & _)|[(m & x & q & t & -> & Hk' & _)|
        (ep & q & t & _ & _ & _ & _ & Hk1 & _ & _ & Hout)]].
  - exists l. rewrite Hs. eauto.
  - exists l. simpl. eauto.
  - destruct l as [|h l].
    + rewrite Hout. exists []. simpl. eauto.
    + destruct Hout as (s1 & k' & guard & -> & _ & _ & _ & Hk' & Hc' & _). simpl.
      split; [exists l; by rewrite Hc'|apply recv_resumable].
Qed.

Lemma exec_kernel_safe o k : running k → safe (exec_kernel o k).
Proof.
  intros Hk. destruct o; simpl; [by apply yield_now_safe|..]; apply safe_map;
    [by apply send_safe|by apply recv_safe].
Qed.

(** ** Round robin *)

(** [n] yields in a row, each by whichever task runs; [f] is what the tasks do
    to the core in between. *)
Fixpoint yields (n : nat) (f : nat → S → S) k : option (Kernel S) :=
  match n with
  | O => Some k
  | Datatypes.S n =>
      match yield_now (with_cpu k (f n (k_cpu k))) with
      | Done _ k' => yields n f k'
      | _ => None
      end
  end.

Lemma yields_rotate n f k l c :
  kernel_wf k l → current (k_sched k) = Some c → n ≤ length l →
  ∃ k', yields n f k = Some k' ∧
    (k_arena k' = k_arena k ∧ k_queues k' = k_queues k ∧ k_tables k' = k_tables k) ∧
    ∃ c' l', drop n (c :: l) ++ take n (c :: l) = c' :: l' ∧
      kernel_wf k' l' ∧ current (k_sched k') = Some c'.
Proof.
  revert k l c. induction n as [|n IH]; intros k l c Hk Hc Hn.
  - exists k. split; [done|]. split; [done|]. exists c, l. simpl. by rewrite app_nil_r.
  - destruct l as [|h l]; [simpl in Hn; lia|]. simpl in Hn. simpl yields.
    pose proof (yield_now_run (with_cpu k (f n (k_cpu k))) (h :: l) c) as Hy.
    destruct Hy as (s1 & k1 & guard & -> & _ & _ & _ & _ & Hk1 & Hc1 & _ & Ha1 & Hq1 & Ht1);
      [by apply kernel_wf_cpu|done|].
    destruct (IH k1 (l ++ [c]) h Hk1 Hc1) as (k' & Hy & (Ha & Hq & Ht) & c' & l' & Heq & Hk' & Hc');
      [rewrite length_app; simpl; lia|].
    exists k'. split; [done|]. split; [by rewrite Ha, Hq, Ht, Ha1, Hq1, Ht1|]. exists c', l'. split; [|done]. rewrite <- Heq. simpl.
    rewrite (app_comm_cons l [c] h), drop_app_le, take_app_le by (simpl; lia).
    by rewrite <- app_assoc.
Qed.
(** The task at position [i] runs after [i + 1] yields. *)
Lemma yields_reach k l c h i f :
  kernel_wf k l → current (k_sched k) = Some c → l !! i = Some h →
  ∃ k' l', yields (1 + i) f k = Some k' ∧ kernel_wf k' l' ∧ current (k_sched k') = Some h ∧
    k_arena k' = k_arena k ∧ k_queues k' = k_queues k ∧ k_tables k' = k_tables k.
Proof.
  intros Hk Hc Hi. assert (i < length l) as Hlt by (by eapply lookup_lt_Some).
  destruct (yields_rotate (1 + i) f k l c Hk Hc) as (k' & Hy & Hkept & c' & l' & Heq & Hk' & Hc'); [lia|].
  exists k', l'. split_and!; [done|done| |apply Hkept..]. rewrite Hc'. f_equal.
  simpl in Heq. rewrite (drop_S l h i Hi) in Heq. by injection Heq as -> _.
Qed.

(** ** Delivery *)

(** A send to an endpoint on which [h] is blocked: unless it is refused, it wakes
    [h] and gives up the core. *)
Lemma delivery_run k l c h ep tbl ep_cap msg transfer :
  kernel_wf k l → current (k_sched k) = Some c →
  blocked_on k (slot_index h) ep → aget (task_handles (k_sched k)) (slot_index h) = Some (Some h) →
  validate_ep_cap (k_tables k tbl) ep_cap SEND = Ok ep →
  (∃ e k', ipc_send_and_yield tbl ep_cap msg transfer k = Fail (SchedIpc e) k' ∧
     send_refused (k_arena k) (k_queues k) (k_tables k tbl) ep_cap transfer e) ∨
  (∃ m k' h0 l0 t cap, l ++ [h] = h0 :: l0 ∧
     ipc_send_and_yield tbl ep_cap msg transfer k = Done (Switched m) k' ∧
     kernel_wf k' (l0 ++ [c]) ∧ current (k_sched k') = Some h0 ∧
     takes (k_tables k tbl) t transfer cap ∧ ep_state (k_queues k') ep = RecvComplete msg cap ∧
     k_arena k' = k_arena k ∧ k_tables k' = set_table (k_tables k) tbl t).
Proof.
  intros Hk Hc Hb Hh Hval. destruct (kw_waiting _ _ Hk _ _ Hb) as [Hl Hw].
  destruct (ipc_send_and_yield_run k l tbl ep_cap msg transfer Hk)
    as [(e & k1 & Hf & _ & _ & _ & Href)|(ep' & q & t & Hval' & _ & Hacc & Hout)]; [by eauto|right].
  assert (ep' = ep) as -> by congruence. rewrite Hw in Hout. simpl in Hout.
  destruct Hacc as (ep' & cap & Hval2 & _ & _ & Htk & [_ Hmv] & _).
  assert (ep' = ep) as -> by congruence. specialize (Hmv ep Hl).
  rewrite decide_True, Hw in Hmv by done. simpl in Hmv.
  destruct Hout as (s' & l1 & (Hk1 & Hc1 & _ & Hwoken) & ->).
  destruct Hwoken as [(_ & Hno & _)|(h' & -> & Hb' & Hh' & _)]; [by destruct (Hno (slot_index h))|].
  assert (h' = h) as ->.
  { pose proof (kw_single _ _ Hk _ _ _ Hb Hb') as Hi. rewrite Hi in Hh. congruence. }
  set (k1 := with_sched (with_ipc k q t tbl) s') in *.
  rewrite Hc in Hc1. pose proof (yield_now_run k1 (l ++ [h]) c Hk1 Hc1) as Hy.
  destruct (l ++ [h]) as [|h0 l0] eqn:El; [by destruct l|].
  destruct Hy as (s1 & k2 & guard & Hy & _ & _ & _ & _ & Hk2 & Hc2 & _ & Ha2 & Hq2 & Ht2).
  do 6 eexists. split; [done|]. unfold mbind, M_bind. rewrite Hy. split; [done|].
  split_and!; [exact Hk2|exact Hc2|exact Htk|by rewrite Hq2|by rewrite Ha2|by rewrite Ht2].
Qed.
End safety.

Global Arguments yields {S _ _ _} _ _ _.

(** ** Registers across switches *)

Section registers.
Context {S : Type} `{ContextSwitchLaws S} `{BuildProfile}.
Implicit Types (k : Kernel S) (ρ : N → Regs).

(** [saved k i ρ]: task [i] runs with the registers [ρ i], and the context of
    every other task [x] that exists holds [ρ x]. *)
Record saved k (i : N) ρ : Prop := {
  saved_running : regs (k_cpu k) = ρ i;
  saved_valid x ctx : aget (contexts (k_sched k)) x = Some ctx → valid ctx;
  saved_context x st ctx :
    x ≠ i → aget (task_states (k_sched k)) x = Some st → st ≠ TIdle →
    aget (contexts (k_sched k)) x = Some ctx → holds ctx (ρ x);
}.

(** A sequence of switches. Before switching to task [j], the running task
    computes ([f]); [ρ] records the registers each task had when it last ran. *)
Fixpoint run_switches (steps : list (N * (S → S))) (i : N) ρ k : option (N * (N → Regs) * Kernel S) :=
  match steps with
  | [] => Some (i, ρ, k)
  | (j, f) :: steps =>
      let cpu := f (k_cpu k) in
      match switch_window i j (with_cpu k cpu) with
      | Done _ k' => run_switches steps j (upd ρ i (regs cpu)) k'
      | _ => None
      end
  end.

(** Each step goes from the running task to another existing one. *)
Fixpoint valid_steps (states : list TaskState) (i : N) (steps : list (N * (S → S))) : Prop :=
  match steps with
  | [] => True
  | (j, _) :: steps =>
      j ≠ i ∧ (∃ st, aget states j = Some st ∧ st ≠ TIdle) ∧ valid_steps states j steps
  end.

Lemma switch_saved k l i j ρ sti stj f :
  kernel_wf k l → saved k i ρ → j ≠ i →
  aget (task_states (k_sched k)) i = Some sti → sti ≠ TIdle →
  aget (task_states (k_sched k)) j = Some stj → stj ≠ TIdle →
  ∃ g k', switch_window i j (with_cpu k (f (k_cpu k))) = Done g k' ∧ kernel_wf k' l ∧
    task_states (k_sched k') = task_states (k_sched k) ∧
    saved k' j (upd ρ i (regs (f (k_cpu k)))).
Proof.
  intros Hk Hs Hij Hi Hni Hj Hnj.
  destruct (switch_window_run (with_cpu k (f (k_cpu k))) l i j)
    as (k' & g & Hw & Hsw & Hk'); [by apply kernel_wf_cpu|done|simpl; eauto..|].
  destruct (switched_frame _ _ _ _ _ Hsw) as (_ & Hst & _).
  exists g, k'. split; [done|]. split; [done|]. split; [done|].
  unfold switched in Hsw. simpl in Hsw.
  apply bind_Some in Hsw as (cur & Hcur & Hsw). apply bind_Some in Hsw as (nxt & Hnxt & Hsw).
  unfold irq_guard_new in Hsw. pose proof (disable_regs (f (k_cpu k))) as Hdr.
  destruct (disable_irqs (f (k_cpu k))) as [st0 cpu1]. simpl in Hdr.
  pose proof (saved_valid _ _ _ Hs _ _ Hcur) as Hvc.
  pose proof (saved_context _ _ _ Hs _ _ _ Hij Hj Hnj Hnxt) as Hhj.
  pose proof (switch_saves cpu1 cur nxt Hvc (holds_valid _ _ Hhj)) as Hsaves.
  pose proof (switch_restores cpu1 cur nxt _ Hvc Hhj) as Hrest.
  destruct (context_switch cpu1 cur nxt) as [cpu2 sv]. simpl in *. simplify_eq/=.
  rewrite Hdr in Hsaves. split; simpl.
  - unfold upd. by rewrite decide_False.
  - intros x ctx. rewrite aget_aset by eauto. case_decide; [|apply (saved_valid _ _ _ Hs)].
    intros [= <-]. by eapply holds_valid.
  - intros x st ctx Hx Hxs Hxi. rewrite aget_aset by eauto. unfold upd. case_decide as Hxe.
    + subst x. rewrite decide_True by done. by intros [= <-].
    + rewrite decide_False by done. intros Hctx. by eapply (saved_context _ _ _ Hs).
Qed.

Lemma run_switches_saved steps k l i ρ st :
  kernel_wf k l → saved k i ρ → aget (task_states (k_sched k)) i = Some st → st ≠ TIdle →
  valid_steps (task_states (k_sched k)) i steps →
  ∃ i' ρ' k', run_switches steps i ρ k = Some (i', ρ', k') ∧ kernel_wf k' l ∧ saved k' i' ρ'.
Proof.
  revert k i ρ st. induction steps as [|[j f] steps IH]; intros k i ρ st Hk Hs Hi Hni Hv; simpl.
  - by exists i, ρ, k.
  - destruct Hv as (Hij & (stj & Hj & Hnj) & Hv).
    destruct (switch_saved k l i j ρ st stj f Hk Hs Hij Hi Hni Hj Hnj)
      as (g & k' & -> & Hk' & Hst & Hs').
    apply (IH k' j _ stj); [done|done|by rewrite Hst..|done|by rewrite Hst].
Qed.
End registers.

(** The rest of a receive, in the two cases a delivery can end. *)
Lemma resumed_run {S} `{!Cpu S, !ContextSwitch S, BuildProfile}
    (k : Kernel S) l tbl ep_cap ep guard :
  kernel_wf k l → validate_ep_cap (k_tables k tbl) ep_cap RECV = Ok ep → ep_live (k_arena k) ep →
  (∀ msg cap, in_flight (ep_state (k_queues k) ep) = [(msg, cap)] →
     is_full (k_tables k tbl) = false →
     ∃ x k', recv_resume guard tbl ep_cap k = Done (Received msg x) k' ∧ kernel_wf k' l) ∧
  (ep_state (k_queues k) ep = Idle →
     ∃ k', recv_resume guard tbl ep_cap k = Fail (SchedIpc PendingAfterResume) k' ∧
       kernel_wf k' l ∧ ep_state (k_queues k') ep = RecvWaiting ∧ ∀ i, ¬ blocked_on k' i ep).
Proof.
  intros Hk Hval Hl. unfold recv_resume. monad. rewrite drop_guard_run, on_ipc_run.
  set (k0 := with_cpu k _). assert (kernel_wf k0 l) as Hk0 by (by apply kernel_wf_cpu).
  change (k_arena k0) with (k_arena k). change (k_queues k0) with (k_queues k).
  change (k_tables k0) with (k_tables k).
  destruct (ipc_recv_run (k_arena k) (k_queues k) (k_tables k tbl) ep_cap
    (kw_ipc _ _ Hk) (kw_tables _ _ Hk tbl))
    as [(e & q & -> & Hq & Hag & Hbad)|(out & q & t & -> & Hq & Ht & Hacc)]; cbn.
  - split.
    + intros msg cap Hif Hroom. exfalso.
      destruct Hbad as [e He|ep' He Hd|ep' He _ _ Hfull|ep' He _ Hw]; [congruence|..];
        assert (ep' = ep) as -> by congruence; [done|..].
      * apply (full_head _ (kw_tables _ _ Hk tbl)) in Hfull. unfold is_full in Hroom.
        by rewrite Hfull in Hroom.
      * by rewrite Hw in Hif.
    + intros Hidle. exfalso.
      destruct Hbad as [e He|ep' He Hd|ep' He _ Hcc _|ep' He _ Hw]; [congruence|..];
        assert (ep' = ep) as -> by congruence; [done|by rewrite Hidle in Hcc|congruence].
  - destruct Hacc as (ep' & Hval' & _ & Hacc). assert (ep' = ep) as -> by congruence.
    assert (∀ st, ep_state (k_queues k) ep ≠ RecvWaiting →
      moves (k_arena k) (k_queues k) q ep st → kernel_wf (with_ipc k0 q t tbl) l) as Hwf.
    { intros st Hnw Hmv. eapply kernel_wf_moves; [done| |done|done].
      intros i. by apply (not_waiting k0 l). }
    destruct out as [msg' x|].
    + destruct Hacc as (cap' & Hif' & Hmv & _). split.
      * intros msg cap Hif _. rewrite Hif in Hif'. injection Hif' as -> _.
        do 2 eexists. split; [done|]. eapply Hwf; [|done]. intros Hw. by rewrite Hw in Hif.
      * intros Hidle. by rewrite Hidle in Hif'.
    + destruct Hacc as (Hidle & Hmv & _). split; [intros msg cap Hif; by rewrite Hidle in Hif|].
      intros _. eexists. split; [done|]. split_and!.
      * eapply Hwf; [|done]. by rewrite Hidle.
      * simpl. destruct Hmv as [_ Hmv]. rewrite Hmv by done. by rewrite decide_True.
      * intros i Hb. apply (not_waiting k0 l ep i Hk0); [|done]. simpl. by rewrite Hidle.
Qed.

(** ** Properties *)

(** No task can break the scheduler. In any well-formed kernel with a
    running task, [yield_now], [ipc_send_and_yield] and [ipc_recv_and_yield],
    with any arguments, in debug and release builds, return or switch; they never
    panic (the "ready queue full" panics, the [unreachable!] and the index
    assertions are unreachable), and they leave a well-formed kernel with a
    running task. The rest of a call that switched is just as safe in whatever
    well-formed kernel it is resumed in. *)
Theorem bridge_calls_are_safe {S} `{!Cpu S, !ContextSwitch S, BuildProfile}
    (o : kernel_op) (k : Kernel S) :
  running k → safe (exec_kernel o k).
Proof. apply exec_kernel_safe. Qed.

(** Round robin without starvation. The task at position [i] of the ready
    queue runs after exactly [i + 1] yields, whatever the tasks in between do to
    the core. *)
Theorem ready_task_runs_in_turn {S} `{!Cpu S, !ContextSwitch S, BuildProfile}
    (k : Kernel S) (l : list TaskHandle) (c h : TaskHandle) (i : nat) (f : nat → S → S) :
  kernel_wf k l → current (k_sched k) = Some c → l !! i = Some h →
  ∃ k' l', yields (1 + i) f k = Some k' ∧ kernel_wf k' l' ∧ current (k_sched k') = Some h.
Proof.
  intros Hk Hc Hi. destruct (yields_reach k l c h i f Hk Hc Hi) as (k' & l' & ? & ? & ? & _). eauto.
Qed.

(** C8: no lost wake-up. If a task [h] is blocked on an endpoint and the running
    task's send on that endpoint is accepted, then the message is delivered (never
    merely enqueued), is held by the endpoint for the receiver, and [h] is ready:
    running or in the queue. *)
Theorem blocked_receiver_is_woken {S} `{!Cpu S, !ContextSwitch S, BuildProfile}
    (k : Kernel S) l c h ep tbl ep_cap msg transfer r k' :
  kernel_wf k l → current (k_sched k) = Some c →
  blocked_on k (slot_index h) ep → aget (task_handles (k_sched k)) (slot_index h) = Some (Some h) →
  validate_ep_cap (k_tables k tbl) ep_cap SEND = Ok ep →
  ipc_send_and_yield tbl ep_cap msg transfer k = Done r k' →
  ∃ l' cap, kernel_wf k' l' ∧ h ∈ runnable (k_sched k') l' ∧
    ep_state (k_queues k') ep = RecvComplete msg cap ∧
    match r with Return out => out = Delivered | Switched _ => True end.
Proof.
  intros Hk Hc Hb Hh Hval Hrun.
  destruct (delivery_run k l c h ep tbl ep_cap msg transfer Hk Hc Hb Hh Hval)
    as [(e & k1 & Hf & _)|(m & k1 & h0 & l0 & t & cap & El & Hd & Hk1 & Hc1 & _ & Hst & _)]; [congruence|].
  rewrite Hd in Hrun. injection Hrun as <- <-. exists (l0 ++ [c]), cap. split_and!; [done| |done|done].
  unfold runnable. rewrite Hc1. assert (h ∈ h0 :: l0) as Hin by (rewrite <- El; set_solver). set_solver.
Qed.

(** A receiver that is resumed while its message waits gets it: if the
    endpoint holds a message and any capability with it fits the table, the rest
    of [ipc_recv_and_yield] returns exactly that message. If the endpoint is idle
    instead (another task received the message first), it reports
    [PendingAfterResume], and the endpoint is left waiting for a receiver although
    no task is blocked on it. *)
Theorem resumed_receiver_outcome {S} `{!Cpu S, !ContextSwitch S, BuildProfile}
    (k : Kernel S) l tbl ep_cap ep guard :
  kernel_wf k l → validate_ep_cap (k_tables k tbl) ep_cap RECV = Ok ep → ep_live (k_arena k) ep →
  (∀ msg cap, in_flight (ep_state (k_queues k) ep) = [(msg, cap)] →
     is_full (k_tables k tbl) = false →
     ∃ x k', recv_resume guard tbl ep_cap k = Done (Received msg x) k' ∧ kernel_wf k' l) ∧
  (ep_state (k_queues k) ep = Idle →
     ∃ k', recv_resume guard tbl ep_cap k = Fail (SchedIpc PendingAfterResume) k' ∧
       kernel_wf k' l ∧ ep_state (k_queues k') ep = RecvWaiting ∧ ∀ i, ¬ blocked_on k' i ep).
Proof. apply resumed_run. Qed.

(** C16: [Deadlock] is reported exactly when the receiver would block and no
    other task is ready: so never while an idle task is in the queue. The
    scheduler is exactly as before the call; the endpoint is not: it records a
    receiver although no task is blocked, so that calling again with the same
    arguments fails with [QueueFull]. *)
Theorem deadlock_is_exact {S} `{!Cpu S, !ContextSwitch S, BuildProfile}
    (k : Kernel S) l c tbl ep_cap :
  kernel_wf k l → current (k_sched k) = Some c →
  ((∃ k', ipc_recv_and_yield tbl ep_cap k = Fail Deadlock k') ↔ would_block k tbl ep_cap ∧ l = []) ∧
  ∀ k', ipc_recv_and_yield tbl ep_cap k = Fail Deadlock k' →
    k_sched k' = k_sched k ∧
    ∃ ep k'', validate_ep_cap (k_tables k tbl) ep_cap RECV = Ok ep ∧
      ep_state (k_queues k') ep = RecvWaiting ∧ (∀ i, ¬ blocked_on k' i ep) ∧
      ipc_recv_and_yield tbl ep_cap k' = Fail (SchedIpc QueueFull) k''.
Proof.
  intros Hk Hc.
  destruct (ipc_recv_and_yield_run k l c tbl ep_cap Hk Hc)
    as [(e & k1 & -> & _ & _ & Hno & _)|[(m & x & q & t & -> & _ & Hno & _)|
        (ep & q & t & Hval & Hl & Hidle & -> & Hk1 & Hw & _ & Hout)]].
  - split; [|congruence]. split; [intros [k' ?]; congruence|tauto].
  - split; [|congruence]. split; [intros [k' ?]; congruence|tauto].
  - destruct l as [|h l].
    2:{ destruct Hout as (s1 & k1 & guard & -> & _). split; [|congruence].
        split; [intros [k' ?]; congruence|]. by intros [_ ?]. }
    rewrite Hout. split; [split; [intros _|]; eauto; split; [|done]; by exists ep|].
    intros k' [= <-]. split; [done|]. set (k1 := with_ipc k q (k_tables k tbl) tbl) in *.
    assert (∀ i, ¬ blocked_on k1 i ep) as Hno.
    { intros i Hb. apply (not_waiting k [] ep i Hk); [|done]. by rewrite Hidle. }
    destruct (recv_waiting_refused k1 [] tbl ep_cap ep Hk1) as [k2 Hk2]; [|done..|eauto 6].
    simpl. unfold set_table. by rewrite decide_True.
Qed.

(** C30: a delivered message can be taken by another task before the woken receiver
    runs, in every kernel with three such tasks. Let task [w] be blocked in
    [ipc_recv_and_yield] on an endpoint, let the running task [c] have the right to
    send on it, and let [t], first in the ready queue, have the right to receive.
    Then [c]'s send is accepted, wakes [w] and switches to [t]; [t]'s receive
    returns the message at once; and when [w]'s turn comes, after one yield of each
    task before it, the rest of its call fails with [PendingAfterResume], in a
    well-formed kernel. The endpoint is left waiting for a receiver although no task
    is blocked on it. *)
Theorem woken_receiver_can_lose_its_message {S} `{!Cpu S, !ContextSwitch S, BuildProfile}
    (k : Kernel S) c t l w ep (tbl_c tbl_t tbl_w : nat) (x_c x_t x_w : CapHandle) msg guard
    (f : nat → S → S) :
  kernel_wf k (t :: l) → current (k_sched k) = Some c →
  blocked_on k (slot_index w) ep → aget (task_handles (k_sched k)) (slot_index w) = Some (Some w) →
  validate_ep_cap (k_tables k tbl_c) x_c SEND = Ok ep →
  validate_ep_cap (k_tables k tbl_t) x_t RECV = Ok ep →
  validate_ep_cap (k_tables k tbl_w) x_w RECV = Ok ep →
  ∃ m k1 k2 k3 k4 l3,
    ipc_send_and_yield tbl_c x_c msg None k = Done (Switched m) k1 ∧ current (k_sched k1) = Some t ∧
    ipc_recv_and_yield tbl_t x_t k1 = Done (Return (Received msg None)) k2 ∧
    yields (1 + length l) f k2 = Some k3 ∧ current (k_sched k3) = Some w ∧
    recv_resume guard tbl_w x_w k3 = Fail (SchedIpc PendingAfterResume) k4 ∧ kernel_wf k4 l3 ∧
    ep_state (k_queues k4) ep = RecvWaiting ∧ ∀ i, ¬ blocked_on k4 i ep.
Proof.
  intros Hk Hc Hb Hh Hs Ht Hw. destruct (kw_waiting _ _ Hk _ _ Hb) as [Hl Hst].
  destruct (delivery_run k (t :: l) c w ep tbl_c x_c msg None Hk Hc Hb Hh Hs)
    as [(e & k1 & _ & Href)|(m & k1 & h0 & l0 & tb & cap & El & Hd & Hk1 & Hc1 & [-> ->] & Hst1 & Ha1 & Ht1)].
  { exfalso. destruct Href as [e He|ep' e _ Hx|ep' He _ Hd|ep' He _ _ Hm|ep' x y He _ _ _ Hx]; try done; [congruence|..];
      assert (ep' = ep) as -> by congruence; [done|by rewrite Hst in Hm]. }
  injection El as <- <-. exists m, k1.
  assert (∀ tbl, k_tables k1 tbl = k_tables k tbl) as Htab.
  { intros tbl. rewrite Ht1. unfold set_table. by case_decide; subst. }
  rewrite <- Htab in Ht, Hw. rewrite <- Ha1 in Hl.
  destruct (ipc_recv_and_yield_run k1 _ t tbl_t x_t Hk1 Hc1)
    as [(e & k2 & _ & _ & _ & _ & _ & Href)|[(m2 & xf & q & tb & Hr & Hk2 & _ & ep' & Hv & _ & cap & Hif & [_ Hmv] & Hg)|
        (ep' & q & tb & Hv & _ & Hidle & _)]].
  - exfalso. destruct Href as [e He|ep' He Hd'|ep' He _ Hcc _|ep' He _ Hww]; try congruence;
      assert (ep' = ep) as -> by congruence; by rewrite Hst1 in Hcc.
  - assert (ep' = ep) as -> by congruence. rewrite Hst1 in Hif. injection Hif as <- <-.
    destruct Hg as [-> ->]. set (k2 := with_ipc k1 q (k_tables k1 tbl_t) tbl_t) in *.
    assert (((l ++ [w]) ++ [c]) !! length l = Some w) as Hi
      by (rewrite <- app_assoc; by apply list_lookup_middle).
    destruct (yields_reach k2 _ t w (length l) f Hk2 Hc1 Hi) as (k3 & l3 & Hy & Hk3 & Hc3 & Ha3 & Hq3 & Ht3).
    destruct (resumed_run k3 l3 tbl_w x_w ep guard Hk3) as [_ Hres].
    { rewrite Ht3. cbn. unfold set_table. by case_decide; subst. }
    { by rewrite Ha3. }
    destruct Hres as (k4 & Hr4 & Hk4 & Hst4 & Hno4).
    { rewrite Hq3. cbn. by rewrite Hmv, decide_True. }
    by exists k2, k3, k4, l3.
  - assert (ep' = ep) as -> by congruence. congruence.
Qed.

(** Tasks keep their registers. For every core that satisfies the
    [ContextSwitch] contract, after any sequence of switches between existing
    tasks, in which the tasks compute arbitrarily in between, the task that runs
    has exactly the registers it had when it was last switched away from (or, on
    its first run, those its context was initialised with). *)
Theorem registers_survive_switches {S} `{laws : ContextSwitchLaws S} `{profile : BuildProfile}
    (steps : list (N * (S → S))) (k : Kernel S) l i ρ st :
  kernel_wf k l → saved k i ρ → aget (task_states (k_sched k)) i = Some st → st ≠ TIdle →
  valid_steps (task_states (k_sched k)) i steps →
  ∃ i' ρ' k', run_switches steps i ρ k = Some (i', ρ', k') ∧ kernel_wf k' l ∧
    regs (k_cpu k') = ρ' i' ∧ saved k' i' ρ'.
Proof.
  intros Hk Hs Hi Hni Hv.
  destruct (run_switches_saved steps k l i ρ st Hk Hs Hi Hni Hv) as (i' & ρ' & k' & ? & ? & Hs').
  exists i', ρ', k'. by split_and!; try apply Hs'.
Qed.

(** ** Witnesses *)

Definition demo_core : Core := mkCore 0 0 (λ _, 0%N).
Definition demo_image : Image := mkImage 1 2 3 4096 8192 12288.

(** The booted system; the other branch is never taken. *)
Definition demo_booted `{BuildProfile} : Booted :=
  match boot_kernel demo_core demo_image with
  | Some b => b
  | None => mkBooted (mkKernel sched_new demo_core demo_arena queues_new (λ _, table_new))
              (new TASK_ARENA_CAPACITY) (task_n 0) (task_n 1) (task_n 2)
              (mkCapHandle 0 0) (mkCapHandle 0 0)
  end.
Definition demo_kernel `{BuildProfile} : Kernel Core := b_kernel demo_booted.
Definition demo_cap : CapHandle := mkCapHandle 0 0.

(** The same with task B blocked on the endpoint and task A running. *)
Definition demo_blocked `{BuildProfile} : Kernel Core :=
  final (exec_kernel (KRecv TABLE_B demo_cap)) demo_kernel.

Lemma demo_kernel_wf `{BuildProfile} :
  kernel_wf demo_kernel [task_n 0; task_n 2] ∧ current (k_sched demo_kernel) = Some (task_n 1).
Proof.
  destruct (boot_kernel_wf demo_core demo_image) as (b & Hb & Hk & Hc & _).
  unfold demo_kernel, demo_booted. by rewrite Hb.
Qed.

Lemma demo_running `{BuildProfile} : running demo_kernel.
Proof. destruct demo_kernel_wf as [Hk Hc]. exists [task_n 0; task_n 2]. by rewrite Hc. Qed.

Lemma final_running {S} `{!Cpu S, !ContextSwitch S, BuildProfile} (o : kernel_op) (k : Kernel S) :
  running k → running (final (exec_kernel o) k).
Proof.
  intros Hk. pose proof (exec_kernel_safe o k Hk) as Hs. unfold final.
  destruct (exec_kernel o k) as [[a|m] k'|e k'| |]; simpl in Hs; tauto.
Qed.

Lemma demo_blocked_running `{BuildProfile} : running demo_blocked.
Proof. apply final_running, demo_running. Qed.

Lemma bridge_calls_are_safe_witness :
  let _ := debug_profile in
  running demo_kernel ∧ safe (exec_kernel (KRecv TABLE_B demo_cap) demo_kernel).
Proof.
  intros p. split; [apply demo_running|].
  apply (bridge_calls_are_safe (H := p) (KRecv TABLE_B demo_cap) demo_kernel), demo_running.
Defined.

Lemma ready_task_runs_in_turn_witness :
  let _ := release_profile in
  ∃ k' l', yields 2 (λ _ c, c) demo_kernel = Some k' ∧ kernel_wf k' l' ∧
           current (k_sched k') = Some (task_n 2).
Proof.
  intros p. destruct demo_kernel_wf as [Hk Hc].
  apply (ready_task_runs_in_turn (H := p) demo_kernel [task_n 0; task_n 2] (task_n 1) (task_n 2) 1
    (λ _ c, c) Hk Hc). done.
Defined.

Lemma blocked_receiver_is_woken_witness :
  let _ := debug_profile in
  ∃ r k', ipc_send_and_yield TABLE_A demo_cap msg_a None demo_blocked = Done r k' ∧
    ∃ l' cap, kernel_wf k' l' ∧ task_n 1 ∈ runnable (k_sched k') l' ∧
      ep_state (k_queues k') demo_ep = RecvComplete msg_a cap ∧
      match r with Return out => out = Delivered | Switched _ => True end.
Proof.
  intros p. destruct (demo_blocked_running (H := p)) as (l & Hk & _).
  assert (match ipc_send_and_yield TABLE_A demo_cap msg_a None demo_blocked with
          | Done _ _ => true | _ => false end = true) as Hdone by (by vm_compute).
  destruct (ipc_send_and_yield TABLE_A demo_cap msg_a None demo_blocked) as [r k'| | |] eqn:E;
    [|done..].
  exists r, k'. split; [done|].
  apply (blocked_receiver_is_woken (H := p) demo_blocked l (task_n 0) (task_n 1) demo_ep TABLE_A
    demo_cap msg_a None r k' Hk); [by vm_compute..|exact E].
Defined.

(** The booted tasks, with a table of its own for the third, in which it has a
    capability to the endpoint; task B is blocked and task A runs. *)
Definition demo_three `{BuildProfile} : Kernel Core :=
  let k := demo_kernel in
  final (exec_kernel (KRecv TABLE_B demo_cap))
    (mkKernel (k_sched k) (k_cpu k) (k_arena k) (k_queues k) (set_table (k_tables k) 2 demo_caps)).

Lemma demo_three_wf `{BuildProfile} :
  kernel_wf demo_three [task_n 2] ∧ current (k_sched demo_three) = Some (task_n 0).
Proof.
  assert (running demo_three) as (l & Hk & Hc).
  { apply final_running. destruct demo_kernel_wf as [Hk Hc]. exists [task_n 0; task_n 2].
    split; [|exact (mk_is_Some _ _ Hc)]. destruct Hk as [H1 H2 H3 H4 H5]. split; [done..| |done|done].
    intros tbl. cbn. unfold set_table. case_decide; [apply demo_caps_wf|done]. }
  assert (current (k_sched demo_three) = Some (task_n 0)) as Hc0 by (destruct H; by vm_compute).
  split; [|done]. pose proof (sw_ready _ _ (kw_sched _ _ Hk)) as Hr.
  assert (len (ready (k_sched demo_three)) = 1%N) as Hlen by (destruct H; by vm_compute).
  rewrite (rep_len _ _ _ Hr) in Hlen. destruct l as [|h [|h' l]]; [done| |simpl in Hlen; lia].
  pose proof (rep_elem _ _ _ Hr 0 h eq_refl) as Hh.
  assert (h = task_n 2) as ->; [|done].
  destruct H; vm_compute in Hh; by injection Hh.
Qed.

Lemma woken_receiver_can_lose_its_message_witness :
  let _ := debug_profile in
  let guard := mkIrqGuard (mkIrqState 0) in
  ∃ m k1 k2 k3 k4 l3,
    ipc_send_and_yield TABLE_A demo_cap msg_a None demo_three = Done (Switched m) k1 ∧
    current (k_sched k1) = Some (task_n 2) ∧
    ipc_recv_and_yield 2 demo_cap k1 = Done (Return (Received msg_a None)) k2 ∧
    yields 1 (λ _ c, c) k2 = Some k3 ∧ current (k_sched k3) = Some (task_n 1) ∧
    recv_resume guard TABLE_B demo_cap k3 = Fail (SchedIpc PendingAfterResume) k4 ∧ kernel_wf k4 l3 ∧
    ep_state (k_queues k4) demo_ep = RecvWaiting ∧ ∀ i, ¬ blocked_on k4 i demo_ep.
Proof.
  intros p guard. destruct (demo_three_wf (H := p)) as [Hk Hc].
  apply (woken_receiver_can_lose_its_message (H := p) demo_three (task_n 0) (task_n 2) [] (task_n 1)
    demo_ep TABLE_A 2 TABLE_B demo_cap demo_cap demo_cap msg_a guard (λ _ c, c) Hk Hc); by vm_compute.
Defined.

Lemma resumed_receiver_outcome_witness :
  let _ := debug_profile in
  ep_state (k_queues demo_kernel) demo_ep = Idle ∧
  ∃ k', recv_resume (mkIrqGuard (mkIrqState 0)) TABLE_B demo_cap demo_kernel =
          Fail (SchedIpc PendingAfterResume) k' ∧
    kernel_wf k' [task_n 0; task_n 2] ∧ ep_state (k_queues k') demo_ep = RecvWaiting ∧
    ∀ i, ¬ blocked_on k' i demo_ep.
Proof.
  intros p. split; [by vm_compute|]. destruct demo_kernel_wf as [Hk _].
  apply (resumed_receiver_outcome (H := p) demo_kernel [task_n 0; task_n 2] TABLE_B demo_cap demo_ep
    (mkIrqGuard (mkIrqState 0)) Hk); [by vm_compute|by eexists; vm_compute|by vm_compute].
Defined.

(** A system of one task, with an endpoint. *)
Definition demo_solo `{BuildProfile} : Kernel Core :=
  let s := final (add_task demo_core (task_n 1) 0 0) sched_new in
  final start (mkKernel s demo_core demo_arena queues_new (λ _, demo_caps)).

Lemma demo_solo_wf `{BuildProfile} :
  kernel_wf demo_solo [] ∧ current (k_sched demo_solo) = Some (task_n 1).
Proof.
  destruct (add_task_boot sched_new [] demo_core 1 0 0 sched_new_wf)
    as (s & Hr & Hs & Hc & Hst & Hv & (ctx & Hctx & _) & _); [done|done| |].
  { intros j c. simpl. rewrite aget_array_from_fn. case_decide; [|done]. by intros [= <-]. }
  unfold demo_solo.
  assert (final (add_task demo_core (task_n 1) 0 0) sched_new = s) as ->.
  { unfold expect in Hr. unfold final. destruct (add_task _ _ _ _ _); by simplify_eq. }
  set (k := mkKernel s demo_core demo_arena queues_new (λ _, demo_caps)).
  assert (∀ i ep, aget (task_states s) i ≠ Some (TBlocked ep)) as Hno.
  { intros i ep. rewrite Hst. apply not_blocked_aset. cbn [task_states sched_new].
    rewrite aget_replicate. by case_decide. }
  assert (kernel_wf k [task_n 1]) as Hk.
  { split; simpl; [done|apply queues_new_wf, demo_arena_wf|intros _; apply demo_caps_wf|..].
    - intros i ep Hb. by destruct (Hno i ep).
    - intros i j ep Hb. by destruct (Hno i ep). }
  destruct (start_run k (task_n 1) [] ctx Hk) as (k' & Hrun & Hk' & Hc' & _);
    [by simpl; rewrite Hc|done|].
  unfold final. by rewrite Hrun.
Qed.

Lemma deadlock_is_exact_witness :
  let _ := debug_profile in
  let k' := final (ipc_recv_and_yield 0 demo_cap) demo_solo in
  ipc_recv_and_yield 0 demo_cap demo_solo = Fail Deadlock k' ∧
  ((∃ k', ipc_recv_and_yield 0 demo_cap demo_solo = Fail Deadlock k') ↔
     would_block demo_solo 0 demo_cap ∧ [] = @nil TaskHandle) ∧
  ∀ k', ipc_recv_and_yield 0 demo_cap demo_solo = Fail Deadlock k' →
    k_sched k' = k_sched demo_solo ∧
    ∃ ep k'', validate_ep_cap (k_tables demo_solo 0) demo_cap RECV = Ok ep ∧
      ep_state (k_queues k') ep = RecvWaiting ∧ (∀ i, ¬ blocked_on k' i ep) ∧
      ipc_recv_and_yield 0 demo_cap k' = Fail (SchedIpc QueueFull) k''.
Proof.
  intros p k'. destruct (demo_solo_wf (H := p)) as [Hk Hc]. split.
  - assert (match ipc_recv_and_yield 0 demo_cap demo_solo with
            | Fail Deadlock _ => true | _ => false end = true) as Hb by (by vm_compute).
    unfold k', final. destruct (ipc_recv_and_yield 0 demo_cap demo_solo) as [| [] | |]; done.
  - apply (deadlock_is_exact (H := p) demo_solo [] (task_n 1) 0 demo_cap Hk Hc).
Defined.

Lemma demo_contexts_wf `{BuildProfile} : Forall context_wf (contexts (k_sched demo_kernel)).
Proof. destruct H; vm_compute; repeat constructor. Qed.

Lemma registers_survive_switches_witness :
  let _ := debug_profile in
  let ρ x := match aget (contexts (k_sched demo_kernel)) x with
             | Some c => if decide (x = 1%N) then regs (k_cpu demo_kernel) else c
             | None => context_default end in
  let steps := [(0, λ c, c); (2, λ c, mkCore 0 0 (λ _, 5)); (1, λ c, c)]%N in
  ∃ i' ρ' k', run_switches steps 1 ρ demo_kernel = Some (i', ρ', k') ∧
    kernel_wf k' [task_n 0; task_n 2] ∧ regs (k_cpu k') = ρ' i' ∧ saved k' i' ρ'.
Proof.
  intros p ρ steps. destruct demo_kernel_wf as [Hk Hc].
  apply (registers_survive_switches (profile := p) steps demo_kernel [task_n 0; task_n 2] 1 ρ TReady Hk);
    [|by vm_compute|done|].
  2:{ cbn [valid_steps steps]. split_and!; first [done|exists TReady; split; [by vm_compute|done]]. }
  pose proof demo_contexts_wf as Hv. split.
  - by vm_compute.
  - intros x ctx Hx. by eapply Forall_lookup_1.
  - intros x st ctx Hx _ _ Hctx. split; [by eapply Forall_lookup_1|].
    unfold ρ. by rewrite Hctx, decide_False.
Defined.
