(* ===== verification/KernelSpec.v ===== *)
(** * What the kernel promises its tasks

    [KSpec] is the kernel as its tasks see it: who runs, who is ready in which
    order, who waits for which endpoint, what each endpoint holds, and what each
    capability table grants. There are no slots, generations, contexts, raw
    pointers or guards. [spec_call] says what a call of the bridge does to it, and
    [spec_resume] what the rest of a call does when its task runs again.
    [kernel_refines_spec] shows that the bridge of [Sched.v] implements it. *)

From stdpp Require Import prelude.
From Stdlib Require Import Lia NArith.
From S2P Require Import Prelude FreeList Arena Objects Rights Capability.
From S2P Require Import CapTable CapTree CapShape CapProofs CapSpec Ipc IpcProofs.
From S2P Require Import HalCpu SchedQueue Sched SchedProofs QemuCpu Boot SchedSafety.

(** ** State *)

(** Tasks are their slots. *)
Record KSpec := mkKSpec {
  ks_running : N;
  ks_queue : list N;
  ks_waiter : EndpointHandle → option N;
  ks_ep : EndpointHandle → EndpointState;
  ks_caps : nat → caps;
  ks_live : EndpointHandle → Prop;
}.

Definition set_ep (σ : KSpec) (ep : EndpointHandle) (st : EndpointState) : KSpec :=
  mkKSpec (ks_running σ) (ks_queue σ) (ks_waiter σ)
    (λ ep', if decide (ep' = ep) then st else ks_ep σ ep') (ks_caps σ) (ks_live σ).

Definition set_waiter (σ : KSpec) (ep : EndpointHandle) (w : option N) : KSpec :=
  mkKSpec (ks_running σ) (ks_queue σ) (λ ep', if decide (ep' = ep) then w else ks_waiter σ ep')
    (ks_ep σ) (ks_caps σ) (ks_live σ).

Definition set_caps (σ : KSpec) (tbl : nat) (m : caps) : KSpec :=
  mkKSpec (ks_running σ) (ks_queue σ) (ks_waiter σ) (ks_ep σ)
    (λ tbl', if decide (tbl' = tbl) then m else ks_caps σ tbl') (ks_live σ).

Definition set_run (σ : KSpec) (running : N) (queue : list N) : KSpec :=
  mkKSpec running queue (ks_waiter σ) (ks_ep σ) (ks_caps σ) (ks_live σ).

(** The waiter of an endpoint, if any, becomes ready, behind everybody else. *)
Definition wake (σ : KSpec) (ep : EndpointHandle) : KSpec :=
  set_waiter (set_run σ (ks_running σ) (ks_queue σ ++ option_list (ks_waiter σ ep))) ep None.

(** ** Authority *)

(** [x] names the endpoint [ep] with the right [r]. *)
Definition named (m : caps) (x : CapHandle) (r : CapRights) (ep : EndpointHandle) : Prop :=
  ∃ n, m x = Some n ∧ contains (node_rights n) r = true ∧ object (node_cap n) = ObjEndpoint ep.

Definition may_transfer (m : caps) (transfer : option CapHandle) : Prop :=
  match transfer with
  | None => True
  | Some x => ∃ n, m x = Some n ∧ contains (node_rights n) TRANSFER = true
  end.

(** A capability leaves a table with a message, or enters one. *)
Definition leaves (m m' : caps) (transfer : option CapHandle) (cap : option Capability) : Prop :=
  match transfer with
  | None => cap = None ∧ m' = m
  | Some x => ∃ n, m x = Some n ∧ (∀ c, ¬ child m x c) ∧ cap = Some (node_cap n) ∧ deletes m m' x
  end.

Definition enters (m m' : caps) (cap : option Capability) (xfer : option CapHandle) : Prop :=
  match cap with
  | None => xfer = None ∧ m' = m
  | Some c => ∃ h, xfer = Some h ∧ adds m m' h (mkNode c None 0)
  end.

(** ** Calls *)

(** What a call returns to its task. *)
Inductive reply :=
  | Yielded
  | SendReply (o : SendOutcome)
  | RecvReply (o : RecvOutcome).

(** A call returns, or another task runs before it does. *)
Inductive spec_result :=
  | SReturn (r : result reply SchedError)
  | SSwitch.

Section calls.
Implicit Types (σ : KSpec) (ep : EndpointHandle).

(** Why a send is refused; the first reason counts. *)
Inductive spec_send_refused σ (tbl : nat) (x : CapHandle) (transfer : option CapHandle) : IpcError → Prop :=
  | ssr_right :
      (∀ ep, ¬ named (ks_caps σ tbl) x SEND ep) → spec_send_refused σ tbl x transfer InvalidCapability
  | ssr_transfer ep :
      named (ks_caps σ tbl) x SEND ep → ¬ may_transfer (ks_caps σ tbl) transfer →
      spec_send_refused σ tbl x transfer InvalidTransferCap
  | ssr_dead ep :
      named (ks_caps σ tbl) x SEND ep → may_transfer (ks_caps σ tbl) transfer → ¬ ks_live σ ep →
      spec_send_refused σ tbl x transfer InvalidCapability
  | ssr_full ep :
      named (ks_caps σ tbl) x SEND ep → may_transfer (ks_caps σ tbl) transfer → ks_live σ ep →
      in_flight (ks_ep σ ep) ≠ [] → spec_send_refused σ tbl x transfer QueueFull
  | ssr_parent ep y c :
      named (ks_caps σ tbl) x SEND ep → may_transfer (ks_caps σ tbl) transfer → ks_live σ ep →
      in_flight (ks_ep σ ep) = [] → transfer = Some y → child (ks_caps σ tbl) y c →
      spec_send_refused σ tbl x transfer InvalidTransferCap.

Inductive spec_recv_refused σ (tbl : nat) (x : CapHandle) : IpcError → Prop :=
  | srr_right :
      (∀ ep, ¬ named (ks_caps σ tbl) x RECV ep) → spec_recv_refused σ tbl x InvalidCapability
  | srr_dead ep :
      named (ks_caps σ tbl) x RECV ep → ¬ ks_live σ ep → spec_recv_refused σ tbl x InvalidCapability
  | srr_full ep m c :
      named (ks_caps σ tbl) x RECV ep → ks_live σ ep → in_flight (ks_ep σ ep) = [(m, Some c)] →
      full (ks_caps σ tbl) → spec_recv_refused σ tbl x ReceiverTableFull
  | srr_waiting ep :
      named (ks_caps σ tbl) x RECV ep → ks_live σ ep → ks_ep σ ep = RecvWaiting →
      spec_recv_refused σ tbl x QueueFull.

(** Giving up the core: nothing if nobody is ready, else round robin. *)
Inductive spec_yield σ : bool → KSpec → Prop :=
  | sy_alone : ks_queue σ = [] → spec_yield σ false σ
  | sy_next i l : ks_queue σ = i :: l → spec_yield σ true (set_run σ i (l ++ [ks_running σ])).

(** Taking the message an endpoint holds. *)
Inductive spec_take σ (tbl : nat) (x : CapHandle) :
    ipc_event → RecvOutcome → KSpec → Prop :=
  | st_take ep msg cap xfer m' :
      named (ks_caps σ tbl) x RECV ep → ks_live σ ep → in_flight (ks_ep σ ep) = [(msg, cap)] →
      enters (ks_caps σ tbl) m' cap xfer →
      spec_take σ tbl x (EvReceived ep msg cap) (Received msg xfer) (set_ep (set_caps σ tbl m') ep Idle).

(** A call of the running task: what its task observes, the event on an
    endpoint, and the kernel after it. *)
Inductive spec_call σ : kernel_op → spec_result → ipc_event → KSpec → Prop :=
  | sc_yield sw σ' :
      spec_yield σ sw σ' →
      spec_call σ KYield (if sw then SSwitch else SReturn (Ok Yielded)) EvNothing σ'
  | sc_send_refused tbl x msg transfer e :
      spec_send_refused σ tbl x transfer e →
      spec_call σ (KSend tbl x msg transfer) (SReturn (Err (SchedIpc e))) EvNothing σ
  | sc_enqueued tbl x msg transfer ep cap m' :
      named (ks_caps σ tbl) x SEND ep → may_transfer (ks_caps σ tbl) transfer → ks_live σ ep →
      ks_ep σ ep = Idle → leaves (ks_caps σ tbl) m' transfer cap →
      spec_call σ (KSend tbl x msg transfer) (SReturn (Ok (SendReply Enqueued))) (EvSent ep msg cap)
        (set_ep (set_caps σ tbl m') ep (SendPending msg cap))
  | sc_delivered tbl x msg transfer ep cap m' sw σ' :
      named (ks_caps σ tbl) x SEND ep → may_transfer (ks_caps σ tbl) transfer → ks_live σ ep →
      ks_ep σ ep = RecvWaiting → leaves (ks_caps σ tbl) m' transfer cap →
      spec_yield (wake (set_ep (set_caps σ tbl m') ep (RecvComplete msg cap)) ep) sw σ' →
      spec_call σ (KSend tbl x msg transfer)
        (if sw then SSwitch else SReturn (Ok (SendReply Delivered))) (EvSent ep msg cap) σ'
  | sc_recv_refused tbl x e :
      spec_recv_refused σ tbl x e →
      spec_call σ (KRecv tbl x) (SReturn (Err (SchedIpc e))) EvNothing σ
  | sc_received tbl x ev o σ' :
      spec_take σ tbl x ev o σ' → spec_call σ (KRecv tbl x) (SReturn (Ok (RecvReply o))) ev σ'
  | sc_deadlock tbl x ep :
      named (ks_caps σ tbl) x RECV ep → ks_live σ ep → ks_ep σ ep = Idle → ks_queue σ = [] →
      spec_call σ (KRecv tbl x) (SReturn (Err Deadlock)) EvNothing (set_ep σ ep RecvWaiting)
  | sc_block tbl x ep i l :
      named (ks_caps σ tbl) x RECV ep → ks_live σ ep → ks_ep σ ep = Idle → ks_queue σ = i :: l →
      spec_call σ (KRecv tbl x) SSwitch EvNothing
        (set_run (set_waiter (set_ep σ ep RecvWaiting) ep (Some (ks_running σ))) i l).

(** The rest of a call that switched. *)
Inductive spec_resume σ : kernel_op → result reply SchedError → ipc_event → KSpec → Prop :=
  | sr_yield : spec_resume σ KYield (Ok Yielded) EvNothing σ
  | sr_send tbl x msg transfer :
      spec_resume σ (KSend tbl x msg transfer) (Ok (SendReply Delivered)) EvNothing σ
  | sr_refused tbl x e :
      spec_recv_refused σ tbl x e → spec_resume σ (KRecv tbl x) (Err (SchedIpc e)) EvNothing σ
  | sr_received tbl x ev o σ' :
      spec_take σ tbl x ev o σ' → spec_resume σ (KRecv tbl x) (Ok (RecvReply o)) ev σ'
  | sr_gone tbl x ep :
      named (ks_caps σ tbl) x RECV ep → ks_live σ ep → ks_ep σ ep = Idle →
      spec_resume σ (KRecv tbl x) (Err (SchedIpc PendingAfterResume)) EvNothing (set_ep σ ep RecvWaiting).
End calls.

(** ** The bridge as one function *)

Section refinement.
Context {S : Type} `{!Cpu S, !ContextSwitch S} `{BuildProfile}.
Implicit Types (k : Kernel S) (σ : KSpec) (ep : EndpointHandle).

(** Any call of the bridge, with its reply. *)
Definition invoke (o : kernel_op) : M (Kernel S) SchedError (control reply) :=
  match o with
  | KYield => c ← yield_now; mret (control_map (λ _, Yielded) c)
  | KSend tbl x msg transfer => c ← ipc_send_and_yield tbl x msg transfer; mret (control_map SendReply c)
  | KRecv tbl x => c ← ipc_recv_and_yield tbl x; mret (control_map RecvReply c)
  end.

(** What an outside observer of the endpoints sees of a call that came back with
    [r] ([None]: it switched), and of the rest of a call. *)
Definition sent_event k (o : kernel_op) : ipc_event :=
  match o with
  | KSend tbl x msg transfer =>
      match ep_named (k_tables k tbl) x SEND with
      | Some ep => EvSent ep msg (cap_at (k_tables k tbl) transfer)
      | None => EvNothing
      end
  | _ => EvNothing
  end.

Definition received_event k k' (o : kernel_op) (r : reply) : ipc_event :=
  match o, r with
  | KRecv tbl x, RecvReply (Received msg xfer) =>
      match ep_named (k_tables k tbl) x RECV with
      | Some ep => EvReceived ep msg (cap_at (k_tables k' tbl) xfer)
      | None => EvNothing
      end
  | _, _ => EvNothing
  end.

Definition call_event k k' (o : kernel_op) (r : option reply) : ipc_event :=
  match o, r with
  | KSend _ _ _ _, _ => sent_event k o
  | KRecv _ _, Some r => received_event k k' o r
  | _, _ => EvNothing
  end.

(** ** The abstraction relation *)

Record refines k σ : Prop := {
  rf_kernel : ∃ l, kernel_wf k l ∧ ks_queue σ = slot_index <$> l;
  rf_running : ∃ c, current (k_sched k) = Some c ∧ slot_index c = ks_running σ;
  rf_waiter ep i : ks_waiter σ ep = Some i ↔ blocked_on k i ep;
  rf_live ep : ks_live σ ep ↔ ep_live (k_arena k) ep;
  rf_ep ep : ks_live σ ep → ks_ep σ ep = ep_state (k_queues k) ep;
  rf_caps tbl : ks_caps σ tbl = abs (k_tables k tbl);
}.

(** [m], resumed in a kernel that refines some state, does what the rest of [o]
    should. *)
Definition resumes_as (m : M (Kernel S) SchedError reply) (o : kernel_op) : Prop :=
  ∀ k σ, refines k σ →
  match m k with
  | Done r k' => ∃ σ', spec_resume σ o (Ok r) (received_event k k' o r) σ' ∧ refines k' σ'
  | Fail e k' => ∃ σ', spec_resume σ o (Err e) EvNothing σ' ∧ refines k' σ'
  | Panic | Diverge => False
  end.

(** A call that comes back as [r] does what the specification says. *)
Definition call_refines k σ (o : kernel_op) (r : step (Kernel S) SchedError (control reply)) : Prop :=
  match r with
  | Done (Return a) k' => ∃ σ', spec_call σ o (SReturn (Ok a)) (call_event k k' o (Some a)) σ' ∧ refines k' σ'
  | Done (Switched m) k' =>
      (∃ σ', spec_call σ o SSwitch (call_event k k' o None) σ' ∧ refines k' σ') ∧ resumes_as m o
  | Fail e k' => ∃ σ', spec_call σ o (SReturn (Err e)) EvNothing σ' ∧ refines k' σ'
  | Panic | Diverge => False
  end.

(** ** Authority, concretely *)

Lemma named_abs t x r ep : named (abs t) x r ep ↔ validate_ep_cap t x r = Ok ep.
Proof. symmetry. apply validate_ep_cap_Ok. Qed.

Lemma not_named_abs t x r e : validate_ep_cap t x r = Err e → ∀ ep, ¬ named (abs t) x r ep.
Proof. intros He ep Hn%named_abs. congruence. Qed.

Lemma may_transfer_abs t transfer : may_transfer (abs t) transfer ↔ check_transfer t transfer = Ok tt.
Proof. destruct transfer as [x|]; simpl; [|done]. symmetry. apply check_transfer_Ok. Qed.

Lemma takes_leaves t t' transfer cap :
  takes t t' transfer cap → leaves (abs t) (abs t') transfer cap ∧ may_transfer (abs t) transfer.
Proof.
  destruct transfer as [x|]; simpl; [|by intros [-> ->]].
  intros (n & Hn & Hr & Hno & -> & Hd). split; exists n; by split_and!.
Qed.

Lemma gives_enters t t' cap xfer : gives t t' cap xfer → enters (abs t) (abs t') cap xfer.
Proof. destruct cap; simpl; [done|]. by intros [-> ->]. Qed.

Lemma ep_named_ok t x r ep : validate_ep_cap t x r = Ok ep → ep_named t x r = Some ep.
Proof. unfold ep_named. by intros ->. Qed.

(** ** The relation along the steps of a call *)

Lemma refines_kept k k' σ l :
  refines k σ → kernel_wf k' l → ks_queue σ = slot_index <$> l → k_sched k' = k_sched k →
  ipc_kept k k' → refines k' σ.
Proof.
  intros Hr Hk Hq Hs (Ha & Hag & Ht & _). split.
  - by exists l.
  - rewrite Hs. apply Hr.
  - intros ep i. unfold blocked_on. rewrite Hs. apply Hr.
  - intros ep. rewrite Ha. apply Hr.
  - intros ep Hl. rewrite (rf_ep _ _ Hr) by done. symmetry. apply Hag. by apply (rf_live _ _ Hr).
  - intros tbl. rewrite Ht. apply Hr.
Qed.

Lemma refines_cpu k σ cpu : refines k σ → refines (with_cpu k cpu) σ.
Proof.
  intros Hr. destruct (rf_kernel _ _ Hr) as (l & Hk & Hq). split; try apply Hr.
  exists l. split; [by apply kernel_wf_cpu|done].
Qed.

(** IPC moved one endpoint and one table; the scheduler is as it was. *)
Lemma refines_moves k σ l q t tbl ep st :
  refines k σ → kernel_wf (with_ipc k q t tbl) l → ks_queue σ = slot_index <$> l →
  moves (k_arena k) (k_queues k) q ep st →
  refines (with_ipc k q t tbl) (set_ep (set_caps σ tbl (abs t)) ep st).
Proof.
  intros Hr Hk Hq [_ Hmv]. split; simpl.
  - by exists l.
  - apply Hr.
  - apply Hr.
  - apply Hr.
  - intros ep' Hl. rewrite Hmv by (by apply (rf_live _ _ Hr)). case_decide; [done|by apply (rf_ep _ _ Hr)].
  - intros tbl'. unfold set_table. case_decide; [done|apply Hr].
Qed.

(** The same, for a table that did not change. *)
Lemma refines_moves_same k σ l q tbl ep st :
  refines k σ → kernel_wf (with_ipc k q (k_tables k tbl) tbl) l → ks_queue σ = slot_index <$> l →
  moves (k_arena k) (k_queues k) q ep st →
  refines (with_ipc k q (k_tables k tbl) tbl) (set_ep σ ep st).
Proof.
  intros Hr Hk Hq Hmv. pose proof (refines_moves k σ l q _ tbl ep st Hr Hk Hq Hmv) as Hr'.
  split; try apply Hr'. intros tbl'. simpl. unfold set_table. rewrite (rf_caps _ _ Hr).
  by case_decide; subst.
Qed.

Lemma refines_queue k σ l : refines k σ → kernel_wf k l → ks_queue σ = slot_index <$> l.
Proof.
  intros Hr Hk. destruct (rf_kernel _ _ Hr) as (l' & Hk' & ->). f_equal.
  eapply represents_unique; [apply (sw_ready _ _ (kw_sched _ _ Hk'))|apply (sw_ready _ _ (kw_sched _ _ Hk))].
Qed.

(** ** Yielding *)

Lemma yield_refines k σ l c :
  refines k σ → kernel_wf k l → current (k_sched k) = Some c →
  match l with
  | [] => ∃ s', yield_now k = Done (Return tt) (with_sched k s') ∧
      spec_yield σ false σ ∧ refines (with_sched k s') σ
  | _ => ∃ k' σ' guard, yield_now k = Done (Switched (drop_guard guard)) k' ∧
      spec_yield σ true σ' ∧ refines k' σ'
  end.
Proof.
  intros Hr Hk Hc. pose proof (refines_queue _ _ _ Hr Hk) as Hq.
  assert (ks_running σ = slot_index c) as Hrun by (destruct (rf_running _ _ Hr) as (c' & ? & <-); congruence).
  pose proof (yield_now_run k l c Hk Hc) as Hy. destruct l as [|h l].
  - destruct Hy as (s' & -> & Hk' & Hc' & Hst & _). exists s'. split; [done|]. split; [by constructor|].
    split; try apply Hr.
    + by exists [].
    + exists c. by rewrite Hrun.
    + intros ep i. unfold blocked_on. simpl. rewrite Hst. apply Hr.
  - destruct Hy as (s1 & k' & guard & -> & _ & _ & _ & _ & Hk' & Hc' & Hst & Ha & Hqs & Ht).
    exists k', (set_run σ (slot_index h) ((slot_index <$> l) ++ [ks_running σ])), guard. split; [done|].
    split; [by constructor|]. split; simpl.
    + exists (l ++ [c]). rewrite fmap_app, Hrun. done.
    + by exists h.
    + intros ep i. unfold blocked_on. rewrite Hst. apply Hr.
    + intros ep. rewrite Ha. apply Hr.
    + intros ep Hl. rewrite Hqs. by apply (rf_ep _ _ Hr).
    + intros tbl. rewrite Ht. apply Hr.
Qed.

Lemma guard_resumes guard (o : kernel_op) (r : reply) (m : M (Kernel S) SchedError reply) :
  (∀ σ, spec_resume σ o (Ok r) EvNothing σ) →
  (∀ k k', received_event k k' o r = EvNothing) →
  (∀ k, m k = Done r (with_cpu k (irq_guard_drop guard (k_cpu k)))) →
  resumes_as m o.
Proof.
  intros Hs He Hm k σ Hr. rewrite Hm, He. exists σ. split; [done|by apply refines_cpu].
Qed.

Lemma yield_call_refines k σ : refines k σ → call_refines k σ KYield (invoke KYield k).
Proof.
  intros Hr. destruct (rf_kernel _ _ Hr) as (l & Hk & _). destruct (rf_running _ _ Hr) as (c & Hc & _).
  pose proof (yield_refines k σ l c Hr Hk Hc) as Hy. unfold invoke. monad. destruct l as [|h l].
  - destruct Hy as (s' & -> & Hy & Hr'). exists σ. split; [|done]. apply (sc_yield σ false σ Hy).
  - destruct Hy as (k' & σ' & guard & -> & Hy & Hr'). split.
    + exists σ'. split; [|done]. apply (sc_yield σ true σ' Hy).
    + apply (guard_resumes guard _ Yielded); [constructor|done|done].
Qed.

(** ** Sending *)

Lemma send_refused_spec k σ tbl x transfer e :
  refines k σ → send_refused (k_arena k) (k_queues k) (k_tables k tbl) x transfer e →
  spec_send_refused σ tbl x transfer e.
Proof.
  intros Hr Href. pose proof (rf_caps _ _ Hr tbl) as Hm.
  destruct Href as [e He|ep e He Hc|ep He Hc Hd|ep He Hc Hl Hh|ep y c He Hc Hl Hh -> Hch].
  - apply ssr_right. rewrite Hm. by eapply not_named_abs.
  - apply (ssr_transfer _ _ _ _ ep); rewrite Hm; [by apply named_abs|]. rewrite may_transfer_abs. congruence.
  - apply (ssr_dead _ _ _ _ ep); [rewrite Hm; by apply named_abs|rewrite Hm; by apply may_transfer_abs|].
    by rewrite (rf_live _ _ Hr).
  - apply (ssr_full _ _ _ _ ep); [rewrite Hm; by apply named_abs|rewrite Hm; by apply may_transfer_abs|..].
    + by rewrite (rf_live _ _ Hr).
    + rewrite (rf_ep _ _ Hr) by (by rewrite (rf_live _ _ Hr)). by destruct (ep_state _ ep).
  - eapply (ssr_parent _ _ _ _ ep);
      [rewrite Hm; by apply named_abs|rewrite Hm; by apply may_transfer_abs|..|done|rewrite Hm; exact Hch].
    + by rewrite (rf_live _ _ Hr).
    + rewrite (rf_ep _ _ Hr) by (by rewrite (rf_live _ _ Hr)). by destruct (ep_state _ ep).
Qed.

(** The kernel after a delivery, before the sender yields. *)
Lemma woken_refines k σ l ep s' l1 q t tbl st :
  refines k σ → kernel_wf k l → moves (k_arena k) (k_queues k) q ep st →
  woken k l ep (with_sched (with_ipc k q t tbl) s') l1 →
  refines (with_sched (with_ipc k q t tbl) s') (wake (set_ep (set_caps σ tbl (abs t)) ep st) ep).
Proof.
  intros Hr Hk [_ Hmv] (Hk1 & Hc1 & _ & Hcases). pose proof (refines_queue _ _ _ Hr Hk) as Hq.
  set (k1 := with_sched (with_ipc k q t tbl) s') in *.
  pose proof (rf_waiter _ _ Hr ep) as Hw. split; simpl.
  - exists l1. split; [done|]. rewrite Hq.
    destruct Hcases as [(-> & Hno & _)|(h & -> & Hb & _)].
    + destruct (ks_waiter σ ep) as [i|] eqn:He; [by destruct (Hno i); apply Hw|]. apply app_nil_r.
    + apply Hw in Hb. by rewrite Hb, fmap_app.
  - destruct (rf_running _ _ Hr) as (c & Hc & Hi). exists c. split; [|done]. rewrite <- Hc. exact Hc1.
  - intros ep' i. unfold blocked_on.
    destruct Hcases as [(-> & Hno & ->)|(h & -> & Hb & _ & ->)].
    + case_decide as He; [|apply (rf_waiter _ _ Hr)]. subst ep'. split; [done|].
      intros Hb. by destruct (Hno i).
    + rewrite aget_aset by eauto. case_decide as He.
      * subst ep'. split; [done|]. case_decide as Hi; [done|]. intros Hb'. destruct Hi.
        by eapply (kw_single _ _ Hk).
      * rewrite (rf_waiter _ _ Hr). unfold blocked_on. case_decide as Hi; [|done].
        subst i. split; [intros Hb'; unfold blocked_on in Hb; congruence|done].
  - apply Hr.
  - intros ep' Hle. rewrite Hmv by (by apply (rf_live _ _ Hr)).
    case_decide; [done|by apply (rf_ep _ _ Hr)].
  - intros tbl'. unfold set_table. case_decide; [done|apply Hr].
Qed.

Lemma send_call_refines k σ tbl x msg transfer :
  refines k σ → call_refines k σ (KSend tbl x msg transfer) (invoke (KSend tbl x msg transfer) k).
Proof.
  intros Hr. destruct (rf_kernel _ _ Hr) as (l & Hk & Hq). destruct (rf_running _ _ Hr) as (c & Hc & _).
  unfold invoke. monad.
  destruct (ipc_send_and_yield_run k l tbl x msg transfer Hk)
    as [(e & k' & -> & Hk' & Hs & Hkept & Href)|(ep & q & t & Hval & Hl & Hacc & Hout)].
  { exists σ. split; [|by eapply refines_kept]. apply sc_send_refused. by eapply send_refused_spec. }
  destruct Hacc as (ep' & cap & Hval' & _ & Hh & Htk & Hmv & _).
  assert (ep' = ep) as -> by congruence. destruct (takes_leaves _ _ _ _ Htk) as [Hlv Hmay].
  pose proof (rf_caps _ _ Hr tbl) as Hm. rewrite <- Hm in Hlv, Hmay.
  assert (named (ks_caps σ tbl) x SEND ep) as Hn by (rewrite Hm; by apply named_abs).
  pose proof (proj2 (rf_live _ _ Hr ep) Hl) as Hl'. pose proof (rf_ep _ _ Hr ep Hl') as Hep.
  assert (∀ k' r, call_event k k' (KSend tbl x msg transfer) r = EvSent ep msg cap) as Hev.
  { intros k' r. unfold call_event, sent_event. rewrite (ep_named_ok _ _ _ _ Hval).
    by rewrite (cap_at_takes _ _ _ _ Htk). }
  destruct (ep_state (k_queues k) ep) as [|m0 c0| |m0 c0]; try done; cbn [sent_outcome sent_state] in *.
  - destruct Hout as [-> Hk1]. eexists. split; [rewrite Hev; by eapply sc_enqueued|].
    by eapply refines_moves.
  - destruct Hout as (s' & l1 & Hwk & ->).
    pose proof Hwk as (Hk1 & Hc1 & _). rewrite Hc in Hc1.
    pose proof (woken_refines k σ l ep s' l1 q t tbl _ Hr Hk Hmv Hwk) as Hr1.
    pose proof (yield_refines _ _ l1 c Hr1 Hk1 Hc1) as Hy. unfold mbind, M_bind. destruct l1 as [|h l1].
    + destruct Hy as (s2 & -> & Hy & Hr2). eexists. split; [|exact Hr2]. rewrite Hev.
      by apply (sc_delivered σ tbl x msg transfer ep cap (abs t) false).
    + destruct Hy as (k' & σ' & guard & -> & Hy & Hr2). split.
      * exists σ'. split; [|done]. rewrite Hev. by apply (sc_delivered σ tbl x msg transfer ep cap (abs t) true).
      * apply (guard_resumes guard _ (SendReply Delivered)); [constructor|done|done].
Qed.

(** ** Receiving *)

Lemma recv_refused_spec k σ tbl x e :
  refines k σ → recv_refused (k_arena k) (k_queues k) (k_tables k tbl) x e → spec_recv_refused σ tbl x e.
Proof.
  intros Hr Href. pose proof (rf_caps _ _ Hr tbl) as Hm.
  assert (∀ ep, ep_live (k_arena k) ep → ks_live σ ep ∧ ks_ep σ ep = ep_state (k_queues k) ep) as Hep.
  { intros ep Hl%(rf_live _ _ Hr). split; [done|by apply (rf_ep _ _ Hr)]. }
  destruct Href as [e He|ep He Hd|ep He Hl Hc Hf|ep He Hl Hw].
  - apply srr_right. rewrite Hm. by eapply not_named_abs.
  - apply (srr_dead _ _ _ ep); [rewrite Hm; by apply named_abs|by rewrite (rf_live _ _ Hr)].
  - destruct (Hep ep Hl) as [Hl' He'].
    destruct (ep_state (k_queues k) ep) as [|m [c|]| |m [c|]] eqn:Hst; try done;
      eapply (srr_full _ _ _ ep m c); try done; try (by rewrite Hm; apply named_abs); try (by rewrite He'); by rewrite Hm.
  - destruct (Hep ep Hl) as [Hl' He'].
    apply (srr_waiting _ _ _ ep); [rewrite Hm; by apply named_abs|done|by rewrite He'].
Qed.

(** An accepted receive, in terms of the specification. *)
Lemma recv_accepted_spec k σ tbl x msg xfer q t :
  refines k σ → recv_accepted (k_arena k) (k_queues k) (k_tables k tbl) x (Received msg xfer) q t →
  ∃ ep, moves (k_arena k) (k_queues k) q ep Idle ∧
    ∀ k', k_tables k' tbl = t →
      spec_take σ tbl x (received_event k k' (KRecv tbl x) (RecvReply (Received msg xfer)))
        (Received msg xfer) (set_ep (set_caps σ tbl (abs t)) ep Idle).
Proof.
  intros Hr (ep & Hval & Hl & cap & Hif & Hmv & Hg). exists ep. split; [done|]. intros k' Ht.
  unfold received_event. rewrite (ep_named_ok _ _ _ _ Hval), Ht, (cap_at_gives _ _ _ _ Hg).
  pose proof (rf_caps _ _ Hr tbl) as Hm. apply (rf_live _ _ Hr) in Hl.
  apply st_take; [rewrite Hm; by apply named_abs|done|by rewrite (rf_ep _ _ Hr)|].
  rewrite Hm. by apply gives_enters.
Qed.

Lemma recv_resumes guard tbl x :
  resumes_as (r ← recv_resume guard tbl x; mret (RecvReply r)) (KRecv tbl x).
Proof.
  intros k σ Hr. destruct (rf_kernel _ _ Hr) as (l & Hk & Hq). monad.
  destruct (recv_resume_run k l guard tbl x Hk)
    as [(e & k' & -> & Hk' & Hs & Hkept & Href)|(out & q & t & Hk' & Hacc & ->)].
  { exists σ. split; [apply sr_refused; by eapply recv_refused_spec|].
    eapply refines_kept; [by apply (refines_cpu k σ (irq_guard_drop guard (k_cpu k)))|done..]. }
  pose proof (refines_cpu k σ (irq_guard_drop guard (k_cpu k)) Hr) as Hr0.
  set (k0 := with_cpu k _) in *. destruct out as [msg xfer|].
  - destruct (recv_accepted_spec k σ tbl x msg xfer q t Hr Hacc) as (ep & Hmv & Hst).
    eexists. split; [apply sr_received, Hst; simpl; unfold set_table; by rewrite decide_True|].
    by apply (refines_moves k0 σ l).
  - destruct Hacc as (ep & Hval & Hl & Hidle & Hmv & ->). eexists. split.
    + apply sr_gone; [rewrite (rf_caps _ _ Hr); by apply named_abs|by apply (rf_live _ _ Hr)|].
      rewrite (rf_ep _ _ Hr); [done|by apply (rf_live _ _ Hr)].
    + by apply (refines_moves_same k0 σ l).
Qed.

Lemma recv_call_refines k σ tbl x :
  refines k σ → call_refines k σ (KRecv tbl x) (invoke (KRecv tbl x) k).
Proof.
  intros Hr. destruct (rf_kernel _ _ Hr) as (l & Hk & Hq). destruct (rf_running _ _ Hr) as (c & Hc & Hrun).
  unfold invoke. monad.
  destruct (ipc_recv_and_yield_run k l c tbl x Hk Hc)
    as [(e & k' & -> & Hk' & Hs & _ & Hkept & Href)|[(msg & xfer & q & t & -> & Hk' & _ & Hacc)|
        (ep & q & t & Hval & Hl & Hidle & -> & Hk1 & _ & Hmv & Hout)]].
  - exists σ. split; [apply sc_recv_refused; by eapply recv_refused_spec|by eapply refines_kept].
  - destruct (recv_accepted_spec k σ tbl x msg xfer q t Hr Hacc) as (ep & Hmv & Hst).
    eexists. split; [apply sc_received, Hst; simpl; unfold set_table; by rewrite decide_True|].
    by apply (refines_moves k σ l).
  - assert (named (ks_caps σ tbl) x RECV ep) as Hn by (rewrite (rf_caps _ _ Hr); by apply named_abs).
    pose proof (proj2 (rf_live _ _ Hr ep) Hl) as Hl'.
    assert (ks_ep σ ep = Idle) as Hi by (by rewrite (rf_ep _ _ Hr)).
    destruct l as [|h l].
    + rewrite Hout. eexists. split; [by eapply sc_deadlock|]. by apply (refines_moves_same k σ []).
    + destruct Hout as (s1 & k' & guard & -> & _ & _ & Hne & Hk' & Hc' & Hb & Hst & Ha & Hqs & Ht).
      split; [|apply recv_resumes]. eexists. split; [by eapply sc_block|].
      destruct Hmv as [_ Hmv]. split; simpl.
      * by exists l.
      * by exists h.
      * intros ep' i. unfold blocked_on. rewrite Hst.
        destruct (sw_runnable _ _ (kw_sched _ _ Hk) c (current_runnable _ _ c Hc)) as [Hcr _].
        rewrite aget_aset by eauto. rewrite <- Hrun. case_decide as He.
        -- subst ep'. split; [intros [= <-]; by rewrite decide_True|].
           case_decide as Hci; [by subst i|]. intros Hb'.
           destruct (kw_waiting _ _ Hk i ep Hb') as [_ Hw]. congruence.
        -- rewrite (rf_waiter _ _ Hr). unfold blocked_on. case_decide as Hci; [|done].
           subst i. split; [congruence|]. intros [= ->]. done.
      * intros ep'. rewrite Ha. apply Hr.
      * intros ep' Hle. rewrite Hqs, Hmv by (by apply (rf_live _ _ Hr)).
        case_decide; [done|by apply (rf_ep _ _ Hr)].
      * intros tbl'. rewrite Ht. unfold set_table. rewrite (rf_caps _ _ Hr). by case_decide; subst.
Qed.

Lemma invoke_refines k σ o : refines k σ → call_refines k σ o (invoke o k).
Proof.
  destruct o; [apply yield_call_refines|apply send_call_refines|apply recv_call_refines].
Qed.

(** ** The abstraction of a kernel *)

Definition waiter_of k ep : option N :=
  (λ p, N.of_nat p.1) <$> list_find (λ st, st = TBlocked ep) (task_states (k_sched k)).

Definition spec_of k (l : list TaskHandle) (c : TaskHandle) : KSpec :=
  mkKSpec (slot_index c) (slot_index <$> l) (waiter_of k) (ep_state (k_queues k))
    (λ tbl, abs (k_tables k tbl)) (ep_live (k_arena k)).

(** Every well-formed kernel with a running task has one. *)
Lemma refines_spec_of k l c :
  kernel_wf k l → current (k_sched k) = Some c → refines k (spec_of k l c).
Proof.
  intros Hk Hc. split; simpl; try done; [by exists l|by exists c|].
  intros ep i. unfold waiter_of, blocked_on. split.
  - intros ([j st] & (Hj & -> & _)%list_find_Some & ->)%fmap_Some. simpl. unfold aget.
    by rewrite Nat2N.id.
  - intros Hb. destruct (list_find (λ st, st = TBlocked ep) (task_states (k_sched k))) as [[j st]|] eqn:Hf.
    + apply list_find_Some in Hf as (Hj & -> & _). simpl. f_equal.
      apply (kw_single _ _ Hk _ _ ep); [|exact Hb]. unfold blocked_on, aget. by rewrite Nat2N.id.
    + apply list_find_None in Hf. rewrite Forall_forall in Hf. exfalso.
      apply (Hf (TBlocked ep)); [|done]. by eapply list_elem_of_lookup_2.
Qed.

(** A task that exists is in exactly one place. *)
Definition active σ (i : N) : Prop :=
  i = ks_running σ ∨ i ∈ ks_queue σ ∨ ∃ ep, ks_waiter σ ep = Some i.

Definition exists_task k (i : N) : Prop :=
  ∃ st, aget (task_states (k_sched k)) i = Some st ∧ st ≠ TIdle.

Lemma active_exists k σ i : refines k σ → active σ i ↔ exists_task k i.
Proof.
  intros Hr. destruct (rf_kernel _ _ Hr) as (l & Hk & Hq). destruct (rf_running _ _ Hr) as (c & Hc & Hi).
  pose proof (kw_sched _ _ Hk) as Hs. unfold active, exists_task. rewrite Hq, <- Hi. split.
  - intros [-> |[(h & -> & Hh)%list_elem_of_fmap|[ep Hb%(rf_waiter _ _ Hr)]]].
    + exists TReady. split; [|done]. by apply (sw_runnable _ _ Hs), current_runnable.
    + exists TReady. split; [|done]. apply (sw_runnable _ _ Hs). unfold runnable. set_solver.
    + by exists (TBlocked ep).
  - intros ([| |ep] & Hst & Hne); [done| |right; right; exists ep; by apply (rf_waiter _ _ Hr)].
    destruct (sw_complete _ _ Hs i Hst) as (h & Hh & <-). unfold runnable in Hh. rewrite Hc in Hh.
    apply elem_of_app in Hh as [Hh|Hh]; [left; set_solver|right; left; by apply list_elem_of_fmap_2].
Qed.

(** The running task, the queue and the waiters do not overlap, and the queue
    has no duplicates. *)
Lemma refines_disjoint k σ :
  refines k σ → NoDup (ks_running σ :: ks_queue σ) ∧
  ∀ ep i, ks_waiter σ ep = Some i → i ∉ ks_running σ :: ks_queue σ ∧ ks_ep σ ep = RecvWaiting ∧
    ∀ ep', ks_waiter σ ep' = Some i → ep' = ep.
Proof.
  intros Hr. destruct (rf_kernel _ _ Hr) as (l & Hk & Hq). destruct (rf_running _ _ Hr) as (c & Hc & Hi).
  pose proof (kw_sched _ _ Hk) as Hs.
  assert (ks_running σ :: ks_queue σ = slot_index <$> runnable (k_sched k) l) as Hrun.
  { unfold runnable. rewrite Hc, Hq, <- Hi. done. }
  rewrite Hrun. split; [apply (sw_nodup _ _ Hs)|].
  intros ep i Hw. pose proof Hw as Hb%(rf_waiter _ _ Hr). destruct (kw_waiting _ _ Hk _ _ Hb) as [Hl He].
  split_and!.
  - intros (h & -> & Hh)%list_elem_of_fmap. destruct (sw_runnable _ _ Hs h Hh) as [Hst _].
    unfold blocked_on in Hb. congruence.
  - rewrite (rf_ep _ _ Hr); [done|]. by apply (rf_live _ _ Hr).
  - intros ep' Hw'%(rf_waiter _ _ Hr). unfold blocked_on in *. congruence.
Qed.
End refinement.
