(* ===== verification/System.v ===== *)
(** * The running system

    Tasks are arbitrary programs: the running task computes, calls the kernel with
    any arguments, or, when it has been switched away from inside a call, finishes
    that call. [sys_step] is one such step of the model of [Sched.v]; [spec_step]
    is one of the specification of [KernelSpec.v]. Every trace of the first is a
    trace of the second, and no reachable state panics. *)

From stdpp Require Import prelude.
From Stdlib Require Import Lia NArith.
From S2P Require Import Prelude FreeList Arena Objects Rights Capability.
From S2P Require Import CapTable CapTree CapShape CapProofs CapSpec Ipc IpcProofs.
From S2P Require Import HalCpu SchedQueue Sched SchedProofs QemuCpu Boot SchedSafety KernelSpec.

(** ** Labels *)

(** What is observed of a step: which task, which call, its result, and the event
    on an endpoint. *)
Inductive label :=
  | Computes (i : N)
  | Calls (i : N) (o : kernel_op) (r : spec_result) (ev : ipc_event)
  | Resumes (i : N) (o : kernel_op) (r : result reply SchedError) (ev : ipc_event).

Definition event_of (l : label) : ipc_event :=
  match l with Computes _ => EvNothing | Calls _ _ _ ev | Resumes _ _ _ ev => ev end.

(** Finite traces of a labelled step relation. *)
Inductive trace {A} (R : A → label → A → Prop) : A → list label → A → Prop :=
  | trace_nil a : trace R a [] a
  | trace_snoc a tr b l c : trace R a tr b → R b l c → trace R a (tr ++ [l]) c.

(** ** The specification, with the calls in progress *)

Record SpecSystem := mkSpecSystem {
  ss_kernel : KSpec;
  ss_pending : N → option kernel_op;
}.

Inductive spec_step : SpecSystem → label → SpecSystem → Prop :=
  | ss_compute σ pend :
      pend (ks_running σ) = None →
      spec_step (mkSpecSystem σ pend) (Computes (ks_running σ)) (mkSpecSystem σ pend)
  | ss_return σ pend o r ev σ' :
      pend (ks_running σ) = None → spec_call σ o (SReturn r) ev σ' →
      spec_step (mkSpecSystem σ pend) (Calls (ks_running σ) o (SReturn r) ev) (mkSpecSystem σ' pend)
  | ss_switch σ pend o ev σ' :
      pend (ks_running σ) = None → spec_call σ o SSwitch ev σ' →
      spec_step (mkSpecSystem σ pend) (Calls (ks_running σ) o SSwitch ev)
        (mkSpecSystem σ' (upd pend (ks_running σ) (Some o)))
  | ss_resume σ pend o r ev σ' :
      pend (ks_running σ) = Some o → spec_resume σ o r ev σ' →
      spec_step (mkSpecSystem σ pend) (Resumes (ks_running σ) o r ev)
        (mkSpecSystem σ' (upd pend (ks_running σ) None)).

(** ** The system *)

Section system.
Context {S : Type} `{!Cpu S, !ContextSwitch S} `{BuildProfile}.

(** A call in progress, and what is left of it. *)
Record suspension := mkSusp {
  origin : kernel_op;
  rest : M (Kernel S) SchedError reply;
}.

Record System := mkSystem {
  sy_kernel : Kernel S;
  sy_suspended : N → option suspension;
}.

(** One step of the running task. Its computations change the core in any way. *)
Inductive sys_step : System → label → System → Prop :=
  | step_compute k sus h (f : S → S) :
      current (k_sched k) = Some h → sus (slot_index h) = None →
      sys_step (mkSystem k sus) (Computes (slot_index h)) (mkSystem (with_cpu k (f (k_cpu k))) sus)
  | step_return k sus h o a k' :
      current (k_sched k) = Some h → sus (slot_index h) = None →
      invoke o k = Done (Return a) k' →
      sys_step (mkSystem k sus) (Calls (slot_index h) o (SReturn (Ok a)) (call_event k k' o (Some a)))
        (mkSystem k' sus)
  | step_error k sus h o e k' :
      current (k_sched k) = Some h → sus (slot_index h) = None →
      invoke o k = Fail e k' →
      sys_step (mkSystem k sus) (Calls (slot_index h) o (SReturn (Err e)) EvNothing) (mkSystem k' sus)
  | step_switch k sus h o m k' :
      current (k_sched k) = Some h → sus (slot_index h) = None →
      invoke o k = Done (Switched m) k' →
      sys_step (mkSystem k sus) (Calls (slot_index h) o SSwitch (call_event k k' o None))
        (mkSystem k' (upd sus (slot_index h) (Some (mkSusp o m))))
  | step_resume k sus h o m r k' :
      current (k_sched k) = Some h → sus (slot_index h) = Some (mkSusp o m) →
      m k = Done r k' →
      sys_step (mkSystem k sus) (Resumes (slot_index h) o (Ok r) (received_event k k' o r))
        (mkSystem k' (upd sus (slot_index h) None))
  | step_resume_error k sus h o m e k' :
      current (k_sched k) = Some h → sus (slot_index h) = Some (mkSusp o m) →
      m k = Fail e k' →
      sys_step (mkSystem k sus) (Resumes (slot_index h) o (Err e) EvNothing)
        (mkSystem k' (upd sus (slot_index h) None)).

(** The system can do what its tasks ask: somebody runs, and neither the rest of
    its call, if it is inside one, nor any call it could make panics or diverges. *)
Definition responsive (y : System) : Prop :=
  ∃ h, current (k_sched (sy_kernel y)) = Some h ∧
  match sy_suspended y (slot_index h) with
  | Some s => match rest s (sy_kernel y) with Done _ _ | Fail _ _ => True | _ => False end
  | None => ∀ o, match invoke o (sy_kernel y) with Done _ _ | Fail _ _ => True | _ => False end
  end.

(** ** Simulation *)

Record sys_refines (y : System) (a : SpecSystem) : Prop := {
  sr_kernel : refines (sy_kernel y) (ss_kernel a);
  sr_pending i : ss_pending a i = origin <$> sy_suspended y i;
  sr_rest i s : sy_suspended y i = Some s → resumes_as (rest s) (origin s);
}.

Lemma refines_current k σ h : refines k σ → current (k_sched k) = Some h → slot_index h = ks_running σ.
Proof. intros Hr Hc. destruct (rf_running _ _ Hr) as (c & Hc' & <-). congruence. Qed.

Lemma sys_refines_upd k k' sus σ σ' pend i s :
  sys_refines (mkSystem k sus) (mkSpecSystem σ pend) → refines k' σ' →
  (∀ s', s = Some s' → resumes_as (rest s') (origin s')) →
  sys_refines (mkSystem k' (upd sus i s)) (mkSpecSystem σ' (upd pend i (origin <$> s))).
Proof.
  intros Hr Hk Hs. split; simpl; [done|..].
  - intros j. unfold upd. case_decide; [done|apply (sr_pending _ _ Hr)].
  - intros j s'. unfold upd. case_decide; [apply Hs|apply (sr_rest _ _ Hr)].
Qed.

Lemma sys_refines_kernel k k' sus σ σ' pend :
  sys_refines (mkSystem k sus) (mkSpecSystem σ pend) → refines k' σ' →
  sys_refines (mkSystem k' sus) (mkSpecSystem σ' pend).
Proof. intros Hr Hk. split; [done|apply (sr_pending _ _ Hr)|apply (sr_rest _ _ Hr)]. Qed.

Lemma sys_step_refines y a l y' :
  sys_refines y a → sys_step y l y' → ∃ a', spec_step a l a' ∧ sys_refines y' a'.
Proof.
  destruct a as [σ pend]. intros Hr Hst. pose proof (sr_kernel _ _ Hr) as Hk.
  pose proof (sr_pending _ _ Hr) as Hp. pose proof (sr_rest _ _ Hr) as Hrest.
  destruct Hst as [k sus h f Hc Hs|k sus h o r k' Hc Hs Hi|k sus h o e k' Hc Hs Hi|k sus h o m k' Hc Hs Hi
    |k sus h o m r k' Hc Hs Hm|k sus h o m e k' Hc Hs Hm]; cbn [ss_kernel sy_kernel ss_pending sy_suspended] in *;
    rewrite (refines_current _ _ _ Hk Hc) in *; specialize (Hp (ks_running σ)); rewrite Hs in Hp.
  1: { eexists. split; [by apply ss_compute|]. eapply sys_refines_kernel; [done|by apply refines_cpu]. }
  1-3: pose proof (invoke_refines k σ o Hk) as Hcall; rewrite Hi in Hcall; unfold call_refines in Hcall.
  - destruct Hcall as (σ' & Hcall & Hk'). eexists. split; [by apply ss_return|].
    by eapply sys_refines_kernel.
  - destruct Hcall as (σ' & Hcall & Hk'). eexists. split; [by apply ss_return|].
    by eapply sys_refines_kernel.
  - destruct Hcall as ((σ' & Hcall & Hk') & Hm). eexists. split; [by apply ss_switch|].
    apply (sys_refines_upd k k' sus σ σ' pend _ (Some (mkSusp o m))); [done..|]. by intros s' [= <-].
  - pose proof (Hrest _ _ Hs k σ Hk) as Hres. cbn [rest origin] in Hres. rewrite Hm in Hres.
    destruct Hres as (σ' & Hres & Hk'). eexists. split; [by apply ss_resume|].
    by apply (sys_refines_upd k k' sus σ σ' pend _ None).
  - pose proof (Hrest _ _ Hs k σ Hk) as Hres. cbn [rest origin] in Hres. rewrite Hm in Hres.
    destruct Hres as (σ' & Hres & Hk'). eexists. split; [by apply ss_resume|].
    by apply (sys_refines_upd k k' sus σ σ' pend _ None).
Qed.

Lemma sys_trace_refines y a tr y' :
  sys_refines y a → trace sys_step y tr y' → ∃ a', trace spec_step a tr a' ∧ sys_refines y' a'.
Proof.
  intros Hr Ht. induction Ht as [y|y tr y1 l y2 Ht IH Hst]; [exists a; split; [constructor|done]|].
  destruct (IH Hr) as (a1 & Ht1 & Hr1). destruct (sys_step_refines _ _ _ _ Hr1 Hst) as (a2 & Hst2 & Hr2).
  exists a2. split; [by econstructor|done].
Qed.

Lemma sys_refines_responsive y a : sys_refines y a → responsive y.
Proof.
  intros Hr. destruct y as [k sus], a as [σ pend]. pose proof (sr_kernel _ _ Hr) as Hk. cbn in Hk.
  destruct (rf_running _ _ Hk) as (h & Hc & _). exists h. split; [done|]. cbn [sy_suspended sy_kernel].
  destruct (sus (slot_index h)) as [s|] eqn:Hs.
  - pose proof (sr_rest _ _ Hr _ _ Hs k σ Hk) as Hres. by destruct (rest s k).
  - intros o. pose proof (invoke_refines k σ o Hk) as Hcall. by destruct (invoke o k).
Qed.
End system.

(** ** What a step of the specification preserves *)

Section spec_steps.
Implicit Types (σ : KSpec) (a : SpecSystem) (ep : EndpointHandle).

Lemma spec_yield_frame σ sw σ' :
  spec_yield σ sw σ' → ks_live σ' = ks_live σ ∧ ks_ep σ' = ks_ep σ ∧ ks_waiter σ' = ks_waiter σ.
Proof. by destruct 1. Qed.

Lemma sent_on_same ep m c : sent_on ep [EvSent ep m c] = [(m, c)].
Proof. unfold sent_on. simpl. by rewrite decide_True. Qed.

Lemma sent_on_other ep ep' m c : ep' ≠ ep → sent_on ep [EvSent ep' m c] = [].
Proof. intros Hne. unfold sent_on. simpl. by rewrite decide_False. Qed.

Lemma received_on_same ep m c : received_on ep [EvReceived ep m c] = [(m, c)].
Proof. unfold received_on. simpl. by rewrite decide_True. Qed.

Lemma received_on_other ep ep' m c : ep' ≠ ep → received_on ep [EvReceived ep' m c] = [].
Proof. intros Hne. unfold received_on. simpl. by rewrite decide_False. Qed.

(** [flow σ ev σ']: what an endpoint held and is sent is what is received from it
    and what it holds. *)
Definition flow σ (ev : ipc_event) σ' : Prop :=
  ks_live σ' = ks_live σ ∧ ∀ ep,
    in_flight (ks_ep σ ep) ++ sent_on ep [ev] = received_on ep [ev] ++ in_flight (ks_ep σ' ep).

Lemma flow_nothing σ σ' :
  ks_live σ' = ks_live σ → (∀ ep, in_flight (ks_ep σ' ep) = in_flight (ks_ep σ ep)) → flow σ EvNothing σ'.
Proof. intros Hl He. split; [done|]. intros ep. by rewrite He, app_nil_r. Qed.

(** A message put into an endpoint that held none. *)
Lemma flow_sent σ σ' ep msg cap :
  ks_live σ' = ks_live σ → in_flight (ks_ep σ ep) = [] → in_flight (ks_ep σ' ep) = [(msg, cap)] →
  (∀ ep', ep' ≠ ep → ks_ep σ' ep' = ks_ep σ ep') → flow σ (EvSent ep msg cap) σ'.
Proof.
  intros Hl He He' Ho. split; [done|]. intros ep'. destruct (decide (ep = ep')) as [->|Hne].
  - by rewrite He, He', sent_on_same.
  - rewrite (sent_on_other ep' ep) by done. by rewrite Ho, app_nil_r.
Qed.

Lemma spec_take_flow σ tbl x ev o σ' : spec_take σ tbl x ev o σ' → flow σ ev σ'.
Proof.
  destruct 1 as [ep msg cap xfer m' _ _ Hif _]. split; [done|]. intros ep'. cbn [set_ep set_caps ks_ep].
  change (sent_on ep' [EvReceived ep msg cap]) with (@nil (Message * option Capability)). rewrite app_nil_r.
  case_decide as He; [subst ep'; by rewrite received_on_same, Hif|]. by rewrite received_on_other by done.
Qed.

Lemma spec_call_flow σ o r ev σ' : spec_call σ o r ev σ' → flow σ ev σ'.
Proof.
  assert (∀ ep st, ks_ep σ ep = Idle → in_flight st = [] → flow σ EvNothing (set_ep σ ep st)) as Hset.
  { intros ep st Hi Hst. apply flow_nothing; [done|]. intros ep'. simpl.
    case_decide; [subst; by rewrite Hst, Hi|done]. }
  destruct 1 as [sw σ' Hy|tbl x msg tr e _|tbl x msg tr ep cap m' _ _ _ Hi _
    |tbl x msg tr ep cap m' sw σ' _ _ _ Hi _ Hy|tbl x e _|tbl x ev o σ' Ht|tbl x ep _ _ Hi _|tbl x ep i l _ _ Hi _].
  - destruct (spec_yield_frame _ _ _ Hy) as (Hl & He & _). apply flow_nothing; [done|]. intros ep. by rewrite He.
  - by apply flow_nothing.
  - apply flow_sent; simpl; [done|by rewrite Hi|by rewrite decide_True|intros ep' ?; by rewrite decide_False].
  - destruct (spec_yield_frame _ _ _ Hy) as (Hl & He & _). apply flow_sent; rewrite ?Hl, ?He; simpl.
    + done.
    + by rewrite Hi.
    + by rewrite decide_True.
    + intros ep' ?. by rewrite decide_False.
  - by apply flow_nothing.
  - by eapply spec_take_flow.
  - by apply Hset.
  - destruct (Hset ep RecvWaiting Hi eq_refl) as [Hl He]. split; [done|exact He].
Qed.

Lemma spec_resume_flow σ o r ev σ' : spec_resume σ o r ev σ' → flow σ ev σ'.
Proof.
  destruct 1 as [| |tbl x e _|tbl x ev o σ' Ht|tbl x ep _ _ Hi]; [by apply flow_nothing..| |].
  - by eapply spec_take_flow.
  - apply flow_nothing; [done|]. intros ep'. simpl. case_decide; [subst; by rewrite Hi|done].
Qed.

Lemma spec_step_flow a l a' : spec_step a l a' → flow (ss_kernel a) (event_of l) (ss_kernel a').
Proof.
  destruct 1; simpl; [by apply flow_nothing|by eapply spec_call_flow..|by eapply spec_resume_flow].
Qed.

Lemma spec_trace_flow a tr a' :
  trace spec_step a tr a' →
  ks_live (ss_kernel a') = ks_live (ss_kernel a) ∧ ∀ ep,
    in_flight (ks_ep (ss_kernel a) ep) ++ sent_on ep (event_of <$> tr) =
    received_on ep (event_of <$> tr) ++ in_flight (ks_ep (ss_kernel a') ep).
Proof.
  induction 1 as [a|a tr b l c Ht [IHl IH] Hst].
  - split; [done|]. intros ep. apply app_nil_r.
  - destruct (spec_step_flow _ _ _ Hst) as [Hl He]. split; [by rewrite Hl|]. intros ep.
    rewrite fmap_app. unfold sent_on, received_on in *. rewrite !omap_app.
    change (event_of <$> [l]) with [event_of l].
    rewrite app_assoc, IH, <- app_assoc, He, app_assoc. done.
Qed.

(** ** Who is where *)

Definition waiters_wait σ : Prop := ∀ ep i, ks_waiter σ ep = Some i → ks_ep σ ep = RecvWaiting.

Lemma spec_yield_active σ sw σ' i : spec_yield σ sw σ' → active σ' i ↔ active σ i.
Proof.
  destruct 1 as [|j l Hq]; [done|]. unfold active. simpl. rewrite Hq, elem_of_app, !elem_of_cons, elem_of_nil.
  tauto.
Qed.

Lemma wake_active σ ep i : active (wake σ ep) i ↔ active σ i.
Proof.
  unfold active, wake. simpl. rewrite elem_of_app. split.
  - intros [?|[[?|Hw]|[ep' Hw]]]; [tauto..| |].
    + right. right. exists ep. by destruct (ks_waiter σ ep); set_solver.
    + case_decide; [done|]. eauto.
  - intros [?|[?|[ep' Hw]]]; [tauto..|]. destruct (decide (ep' = ep)) as [->|Hne].
    + right. left. right. rewrite Hw. set_solver.
    + right. right. exists ep'. by rewrite decide_False.
Qed.

Lemma spec_call_active σ o r ev σ' i :
  waiters_wait σ → spec_call σ o r ev σ' → active σ' i ↔ active σ i.
Proof.
  intros Hww. destruct 1 as [sw σ' Hy|tbl x msg tr e _|tbl x msg tr ep cap m' _ _ _ Hi _
    |tbl x msg tr ep cap m' sw σ' _ _ _ Hi _ Hy|tbl x e _|tbl x ev o σ' Ht|tbl x ep _ _ Hi _|tbl x ep j l _ _ Hi Hq];
    try done.
  - by eapply spec_yield_active.
  - rewrite (spec_yield_active _ _ _ _ Hy), wake_active. done.
  - by destruct Ht.
  - unfold active. simpl. rewrite Hq, elem_of_cons. split.
    + intros [?|[?|[ep' Hw]]]; [tauto..|]. case_decide; [left; congruence|eauto].
    + intros [->|[[?|?]|[ep' Hw]]]; [|tauto..|].
      * right. right. exists ep. by rewrite decide_True.
      * right. right. exists ep'. rewrite decide_False; [done|]. intros ->.
        apply Hww in Hw. congruence.
Qed.

Lemma spec_step_active a l a' i :
  waiters_wait (ss_kernel a) → spec_step a l a' → active (ss_kernel a') i ↔ active (ss_kernel a) i.
Proof.
  intros Hww. destruct 1 as [| | |σ pend o r ev σ' _ Hr]; simpl in *; [done|by eapply spec_call_active..|].
  destruct Hr as [| |tbl x e _|tbl x ev o σ' []|tbl x ep _ _ Hi]; done.
Qed.

(** ** The queue moves up with every switch *)

Definition is_switch (l : label) : bool :=
  match l with Calls _ _ SSwitch _ => true | _ => false end.

Definition switches (tr : list label) : nat := length (filter is_switch tr).

(** The task at position [p] moves up by one, or runs. *)
Definition moves_up σ σ' (sw : bool) : Prop :=
  ∀ p i, ks_queue σ !! p = Some i →
    if sw then match p with O => ks_running σ' = i | Datatypes.S p => ks_queue σ' !! p = Some i end
    else ks_queue σ' !! p = Some i.

Lemma spec_yield_moves σ sw σ' : spec_yield σ sw σ' → moves_up σ σ' sw.
Proof.
  destruct 1 as [|j l Hq]; intros p i; [done|]. rewrite Hq. destruct p as [|p]; simpl; [congruence|].
  intros Hp. by apply lookup_app_l_Some.
Qed.

Lemma spec_call_moves σ o r ev σ' :
  spec_call σ o r ev σ' → moves_up σ σ' (match r with SSwitch => true | _ => false end).
Proof.
  destruct 1 as [sw σ' Hy|tbl x msg tr e _|tbl x msg tr ep cap m' _ _ _ Hi _
    |tbl x msg tr ep cap m' sw σ' _ _ _ Hi _ Hy|tbl x e _|tbl x ev o σ' Ht|tbl x ep _ _ Hi _|tbl x ep j l _ _ Hi Hq];
    try (by intros p i).
  - apply spec_yield_moves in Hy. by destruct sw.
  - apply spec_yield_moves in Hy. intros p i Hp. specialize (Hy p i). simpl in Hy.
    specialize (Hy (lookup_app_l_Some _ _ _ _ Hp)). by destruct sw.
  - intros p i. by destruct Ht.
  - intros p i. rewrite Hq. by destruct p; simpl; [congruence|].
Qed.

Lemma spec_step_moves a l a' : spec_step a l a' → moves_up (ss_kernel a) (ss_kernel a') (is_switch l).
Proof.
  destruct 1 as [|σ pend o r ev σ' _ Hc|σ pend o ev σ' _ Hc|σ pend o r ev σ' _ Hr]; simpl.
  - by intros p i.
  - exact (spec_call_moves _ _ _ _ _ Hc).
  - exact (spec_call_moves _ _ _ _ _ Hc).
  - intros p i. by destruct Hr as [| |tbl x e _|tbl x ev o σ' []|tbl x ep _ _ Hi].
Qed.

Lemma switches_snoc tr l : switches (tr ++ [l]) = switches tr + (if is_switch l then 1 else 0).
Proof.
  unfold switches. rewrite filter_app, length_app. f_equal. rewrite filter_cons. by destruct (is_switch l).
Qed.

Lemma spec_trace_moves a tr a' p i :
  trace spec_step a tr a' → ks_queue (ss_kernel a) !! p = Some i → switches tr ≤ p →
  ks_queue (ss_kernel a') !! (p - switches tr) = Some i.
Proof.
  intros Ht Hp. induction Ht as [a|a tr b l c Ht IH Hst]; [by rewrite Nat.sub_0_r|].
  rewrite switches_snoc. intros Hle. pose proof (spec_step_moves _ _ _ Hst) as Hm.
  destruct (is_switch l).
  - specialize (IH Hp ltac:(lia)). specialize (Hm _ _ IH). simpl in Hm.
    destruct (p - switches tr) as [|q] eqn:Hq; [lia|]. replace (p - (switches tr + 1)) with q by lia. done.
  - rewrite Nat.add_0_r in *. apply (Hm _ _ (IH Hp Hle)).
Qed.
End spec_steps.

(** ** Registers *)

Section registers.
Context {S : Type} `{ContextSwitchLaws S} `{BuildProfile}.
Implicit Types (k : Kernel S) (y : System (S := S)).

(** The contexts are untouched, and so are the registers. *)
Definition stays k k' : Prop :=
  contexts (k_sched k') = contexts (k_sched k) ∧ regs (k_cpu k') = regs (k_cpu k) ∧
  current (k_sched k') = current (k_sched k).

(** Control went from task [i] to task [j]. *)
Definition switches_to k k' (i j : N) : Prop :=
  ∃ cur nxt, aget (contexts (k_sched k)) i = Some cur ∧ aget (contexts (k_sched k)) j = Some nxt ∧
    k_cpu k' = (context_switch (irq_guard_new (k_cpu k)).2 cur nxt).1 ∧
    contexts (k_sched k') = aset (contexts (k_sched k)) i (context_switch (irq_guard_new (k_cpu k)).2 cur nxt).2.

Definition keeps_context (m : M (Kernel S) SchedError reply) : Prop :=
  ∀ k l, kernel_wf k l → match m k with Done _ k' | Fail _ k' => stays k k' | _ => True end.

Lemma switched_switches k s i j k' guard :
  switched (with_sched k s) i j = Some (k', guard) → contexts s = contexts (k_sched k) →
  switches_to k k' i j.
Proof.
  unfold switched. cbn [with_sched k_sched k_cpu k_arena k_queues k_tables].
  intros (cur & Hcur & (nxt & Hnxt & Hsw)%bind_Some)%bind_Some Hcs. rewrite Hcs in *.
  exists cur, nxt. destruct (irq_guard_new (k_cpu k)) as [g cpu1]. cbn [snd] in *.
  destruct (context_switch cpu1 cur nxt). simplify_eq/=. by split_and!.
Qed.

Lemma drop_keeps guard (r : reply) (m : M (Kernel S) SchedError reply) :
  (∀ k, m k = Done r (with_cpu k (irq_guard_drop guard (k_cpu k)))) → keeps_context m.
Proof. intros Hm k l Hk. rewrite Hm. split_and!; [done|apply restore_regs|done]. Qed.

(** A call leaves the contexts alone, or saves the caller's and loads another's. *)
Definition invoke_context_spec k (c : TaskHandle) (r : step (Kernel S) SchedError (control reply)) : Prop :=
  match r with
  | Done (Return _) k' | Fail _ k' => stays k k'
  | Done (Switched m) k' => ∃ h, current (k_sched k') = Some h ∧ slot_index c ≠ slot_index h ∧
      switches_to k k' (slot_index c) (slot_index h) ∧ keeps_context m
  | _ => True
  end.

Lemma kept_stays k k' : k_sched k' = k_sched k → ipc_kept k k' → stays k k'.
Proof. intros Hs (_ & _ & _ & Hcpu). unfold stays. by rewrite Hs, Hcpu. Qed.

Lemma with_ipc_stays k q t tbl : stays k (with_ipc k q t tbl).
Proof. by split_and!. Qed.

Lemma yield_context k k1 l c (f : unit → reply) :
  kernel_wf k1 l → current (k_sched k1) = Some c → current (k_sched k) = Some c →
  contexts (k_sched k1) = contexts (k_sched k) → k_cpu k1 = k_cpu k →
  invoke_context_spec k c ((c ← yield_now; mret (control_map f c)) k1).
Proof.
  intros Hk Hc Hc0 Hcs Hcpu. pose proof (yield_now_run k1 l c Hk Hc) as Hy. monad. destruct l as [|h l].
  - destruct Hy as (s' & -> & _ & Hc' & _ & Hcs'). simpl. split_and!; simpl; congruence.
  - destruct Hy as (s1 & k' & guard & -> & Hsw & Hcs1 & _ & Hne & _ & Hc' & _). simpl.
    exists h. split_and!; [done..| |].
    + apply switched_switches in Hsw; [|congruence]. unfold switches_to in *. by rewrite Hcs, Hcpu in Hsw.
    + apply (drop_keeps guard (f tt)). done.
Qed.

Lemma map_context {A} k c (m : M (Kernel S) SchedError (control A)) (f : A → reply) (g : reply → reply) k1 :
  invoke_context_spec k c ((x ← m; mret (control_map f x)) k1) →
  invoke_context_spec k c ((x ← (x ← m; mret (control_map f x)); mret (control_map g x)) k1).
Proof.
  monad. destruct (m k1) as [[a|r] k'|e k'| |]; simpl; try done.
  intros (h & ? & ? & ? & Hm). exists h. split_and!; [done..|].
  intros k2 l Hk. specialize (Hm k2 l Hk). monad. by destruct (r k2).
Qed.

Lemma invoke_context k l c o :
  kernel_wf k l → current (k_sched k) = Some c → invoke_context_spec k c (invoke o k).
Proof.
  intros Hk Hc. destruct o as [|tbl x msg transfer|tbl x].
  - by eapply (yield_context k k l c).
  - unfold invoke, mbind at 1, M_bind at 1.
    destruct (ipc_send_and_yield_run k l tbl x msg transfer Hk)
      as [(e & k' & -> & _ & Hs & Hkept & _)|(ep & q & t & _ & _ & _ & Hout)]; [by apply kept_stays|].
    destruct (sent_outcome _); [|destruct Hout as [-> _]; by apply with_ipc_stays].
    destruct Hout as (s' & l1 & (Hk1 & Hc1 & Hcs1 & _) & ->).
    pose proof (yield_context k _ l1 c (λ _, SendReply Delivered) Hk1 ltac:(congruence) Hc Hcs1 eq_refl) as Hy.
    monad. destruct (yield_now _) as [[a|r] k'|e k'| |]; simpl in *; try done.
    destruct Hy as (h & ? & ? & ? & Hm). exists h. split_and!; [done..|].
    intros k2 l2 Hk2. specialize (Hm k2 l2 Hk2). monad. by destruct (r k2).
  - unfold invoke, mbind at 1, M_bind at 1.
    destruct (ipc_recv_and_yield_run k l c tbl x Hk Hc)
      as [(e & k' & -> & _ & Hs & _ & Hkept & _)|[(msg & xf & q & t & -> & _)|
          (ep & q & t & _ & _ & _ & -> & _ & _ & _ & Hout)]]; [by apply kept_stays|by apply with_ipc_stays|].
    destruct l as [|h l]; [rewrite Hout; by apply with_ipc_stays|].
    destruct Hout as (s1 & k' & guard & -> & Hsw & Hcs & Hne & _ & Hc' & _). simpl.
    exists h. split_and!; [done..|exact (switched_switches (with_ipc k q (k_tables k tbl) tbl) _ _ _ _ _ Hsw Hcs)|].
    intros k2 l2 Hk2. monad.
    destruct (recv_resume_run k2 l2 guard tbl x Hk2)
      as [(e & k3 & -> & _ & Hs & (_ & _ & _ & Hcpu) & _)|(out & q2 & t2 & _ & _ & ->)].
    + unfold stays. rewrite Hs, Hcpu. split_and!; [done| |done]. apply restore_regs.
    + destruct out; (split_and!; [done|apply restore_regs|done]).
Qed.

(** Contexts can be switched to, and calls in progress leave them alone. *)
Record contexts_ok y : Prop := {
  co_valid x ctx : aget (contexts (k_sched (sy_kernel y))) x = Some ctx → valid ctx;
  co_rest j s : sy_suspended y j = Some s → keeps_context (rest s);
}.

(** Task [i] runs with the registers [r], or its context holds them. *)
Definition has_regs (i : N) (r : Regs) k : Prop :=
  ∀ c, current (k_sched k) = Some c →
  if decide (slot_index c = i) then regs (k_cpu k) = r
  else ∃ ctx, aget (contexts (k_sched k)) i = Some ctx ∧ holds ctx r.

Definition task_of (l : label) : N := match l with Computes i | Calls i _ _ _ | Resumes i _ _ _ => i end.

Lemma has_regs_stays i r k k' : stays k k' → has_regs i r k → has_regs i r k'.
Proof. intros (Hcs & Hregs & Hcur) Hk. unfold has_regs. by rewrite Hcs, Hregs, Hcur. Qed.

Lemma valid_stays k k' :
  stays k k' → (∀ x ctx, aget (contexts (k_sched k)) x = Some ctx → valid ctx) →
  ∀ x ctx, aget (contexts (k_sched k')) x = Some ctx → valid ctx.
Proof. intros (Hcs & _). by rewrite Hcs. Qed.

(** A switch saves the registers of the task it leaves and restores those of the
    task it enters. *)
Lemma switch_keeps k k' c h :
  (∀ x ctx, aget (contexts (k_sched k)) x = Some ctx → valid ctx) →
  current (k_sched k) = Some c → current (k_sched k') = Some h → slot_index c ≠ slot_index h →
  switches_to k k' (slot_index c) (slot_index h) →
  (∀ x ctx, aget (contexts (k_sched k')) x = Some ctx → valid ctx) ∧
  ∀ i r, has_regs i r k → has_regs i r k'.
Proof.
  intros Hv Hc Hc' Hne (cur & nxt & Hcur & Hnxt & Hcpu & Hcs).
  pose proof (disable_regs (k_cpu k)) as Hd.
  assert ((irq_guard_new (k_cpu k)).2 = (disable_irqs (k_cpu k)).2) as Hg
    by (unfold irq_guard_new; by destruct (disable_irqs (k_cpu k))).
  rewrite Hg in *. set (cpu1 := (disable_irqs (k_cpu k)).2) in *.
  pose proof (Hv _ _ Hcur) as Hvc. pose proof (switch_saves cpu1 cur nxt Hvc (Hv _ _ Hnxt)) as Hsaved.
  rewrite Hd in Hsaved. split.
  - intros x ctx. rewrite Hcs, aget_aset by eauto. case_decide; [|apply Hv].
    intros [= <-]. by eapply holds_valid.
  - intros i r Hk c' Hc1. specialize (Hk c Hc). assert (c' = h) as -> by congruence. rewrite Hcs, Hcpu.
    destruct (decide (slot_index h = i)) as [Hi|Hi].
    + rewrite decide_False in Hk by congruence. destruct Hk as (ctx & Hctx & Hh).
      rewrite Hi, Hctx in Hnxt. injection Hnxt as ->. by apply switch_restores.
    + rewrite aget_aset by eauto. destruct (decide (slot_index c = i)) as [Hci|Hci]; [|done].
      subst r. eexists. split; [done|]. exact Hsaved.
Qed.

Lemma rest_upd (sus : N → option suspension) j s :
  (∀ j s, sus j = Some s → keeps_context (rest s)) → (∀ s', s = Some s' → keeps_context (rest s')) →
  ∀ j' s', upd sus j s j' = Some s' → keeps_context (rest s').
Proof. intros Hs Hj j' s'. unfold upd. case_decide; [apply Hj|apply Hs]. Qed.

(** A step keeps contexts and the registers of every task that does not take it,
    and a switch also those of the task that does. *)
Lemma sys_step_regs y a l y' :
  sys_refines y a → contexts_ok y → sys_step y l y' →
  contexts_ok y' ∧ ∀ i r, (task_of l = i → is_switch l = true) →
    has_regs i r (sy_kernel y) → has_regs i r (sy_kernel y').
Proof.
  intros Hr [Hv Hrest] Hst. destruct (rf_kernel _ _ (sr_kernel _ _ Hr)) as (l0 & Hk & _).
  destruct Hst as [k sus h f Hc Hs|k sus h o b k' Hc Hs Hi|k sus h o e k' Hc Hs Hi|k sus h o m k' Hc Hs Hi
    |k sus h o m b k' Hc Hs Hm|k sus h o m e k' Hc Hs Hm]; cbn [sy_kernel sy_suspended task_of] in *.
  - split; [by split|]. intros i r Hne Hreg c Hc'. specialize (Hreg c Hc'). simpl in *.
    assert (c = h) as -> by congruence. destruct (decide (slot_index h = i)) as [He|]; [|done].
    by specialize (Hne He).
  - pose proof (invoke_context k l0 h o Hk Hc) as Hi'. rewrite Hi in Hi'.
    split; [split; [by eapply valid_stays|done]|]. intros i r _. by apply has_regs_stays.
  - pose proof (invoke_context k l0 h o Hk Hc) as Hi'. rewrite Hi in Hi'.
    split; [split; [by eapply valid_stays|done]|]. intros i r _. by apply has_regs_stays.
  - pose proof (invoke_context k l0 h o Hk Hc) as Hi'. rewrite Hi in Hi'. destruct Hi' as (h' & Hc' & Hne & Hsw & Hm).
    destruct (switch_keeps k k' h h' Hv Hc Hc' Hne Hsw) as [Hv' Hk']. split; [split; [done|]|intros i r _; apply Hk'].
    apply rest_upd; [done|]. by intros s' [= <-].
  - pose proof (Hrest _ _ Hs k l0 Hk) as Hst. cbn [rest] in Hst. rewrite Hm in Hst.
    split; [split; [by eapply valid_stays|by apply rest_upd]|]. intros i r _. by apply has_regs_stays.
  - pose proof (Hrest _ _ Hs k l0 Hk) as Hst. cbn [rest] in Hst. rewrite Hm in Hst.
    split; [split; [by eapply valid_stays|by apply rest_upd]|]. intros i r _. by apply has_regs_stays.
Qed.

Lemma sys_trace_regs y a tr y' :
  sys_refines y a → contexts_ok y → trace sys_step y tr y' →
  contexts_ok y' ∧ (∃ a', sys_refines y' a') ∧
  ∀ i r, Forall (λ l, task_of l ≠ i) tr → has_regs i r (sy_kernel y) → has_regs i r (sy_kernel y').
Proof.
  intros Hr Hok Ht. induction Ht as [y|y tr y1 l y2 Ht IH Hst]; [by eauto|].
  destruct (IH Hr Hok) as (Hok1 & [a1 Hr1] & Hreg). destruct (sys_step_regs _ _ _ _ Hr1 Hok1 Hst) as [Hok2 Hreg2].
  destruct (sys_step_refines _ _ _ _ Hr1 Hst) as (a2 & _ & Hr2). split_and!; [done|by exists a2|].
  intros i r [Hf [Hl _]%Forall_cons]%Forall_app Hk. apply Hreg2; [done|]. by apply Hreg.
Qed.
End registers.

(** ** Running it *)

Section executable.
Context {S : Type} `{!Cpu S, !ContextSwitch S} `{BuildProfile}.

(** What a task wants to do next. *)
Inductive action :=
  | ACompute (f : S → S)
  | ACall (o : kernel_op)
  | AResume.

Definition act (a : action) (y : System) : option (label * System) :=
  let k := sy_kernel y in
  h ← current (k_sched k);
  let i := slot_index h in
  match a, sy_suspended y i with
  | ACompute f, None => Some (Computes i, mkSystem (with_cpu k (f (k_cpu k))) (sy_suspended y))
  | ACall o, None =>
      match invoke o k with
      | Done (Return r) k' =>
          Some (Calls i o (SReturn (Ok r)) (call_event k k' o (Some r)), mkSystem k' (sy_suspended y))
      | Done (Switched m) k' =>
          Some (Calls i o SSwitch (call_event k k' o None),
                mkSystem k' (upd (sy_suspended y) i (Some (mkSusp o m))))
      | Fail e k' => Some (Calls i o (SReturn (Err e)) EvNothing, mkSystem k' (sy_suspended y))
      | _ => None
      end
  | AResume, Some s =>
      match rest s k with
      | Done r k' => Some (Resumes i (origin s) (Ok r) (received_event k k' (origin s) r),
                           mkSystem k' (upd (sy_suspended y) i None))
      | Fail e k' => Some (Resumes i (origin s) (Err e) EvNothing,
                           mkSystem k' (upd (sy_suspended y) i None))
      | _ => None
      end
  | _, _ => None
  end.

Fixpoint acts (l : list action) (y : System) : option (list label * System) :=
  match l with
  | [] => Some ([], y)
  | a :: l => '(lab, y1) ← act a y; '(tr, y2) ← acts l y1; Some (lab :: tr, y2)
  end.

Lemma act_step a y l y' : act a y = Some (l, y') → sys_step y l y'.
Proof.
  destruct y as [k sus]. unfold act. cbn [sy_kernel sy_suspended].
  intros (h & Hc & Ha)%bind_Some. destruct a as [f|o|], (sus (slot_index h)) as [[o' m]|] eqn:Hs; try done.
  - injection Ha as <- <-. by apply step_compute.
  - destruct (invoke o k) as [[r|m] k'|e k'| |] eqn:Hi; try done; injection Ha as <- <-.
    + by apply step_return.
    + by apply step_switch.
    + by apply step_error.
  - cbn [rest origin] in Ha. destruct (m k) as [r k'|e k'| |] eqn:Hm; try done; injection Ha as <- <-.
    + by eapply step_resume.
    + by eapply step_resume_error.
Qed.

Lemma acts_trace l y0 tr0 y tr y' :
  trace sys_step y0 tr0 y → acts l y = Some (tr, y') → trace sys_step y0 (tr0 ++ tr) y'.
Proof.
  revert tr0 y tr. induction l as [|a l IH]; intros tr0 y tr Ht; simpl.
  - intros [= <- <-]. by rewrite app_nil_r.
  - intros ([lab y1] & Ha%act_step & ([tr1 y2] & Hl & [= <- <-])%bind_Some)%bind_Some.
    rewrite cons_middle, app_assoc. eapply IH; [|done]. by econstructor.
Qed.
End executable.

Global Arguments action S : clear implicits.

(** ** Properties *)

Section initial.
Context {S : Type} `{!Cpu S, !ContextSwitch S} `{BuildProfile}.

(** A kernel in which no task is inside a call. *)
Definition fresh (k : Kernel S) : System := mkSystem k (λ _, None).
Definition fresh_spec (k : Kernel S) (l : list TaskHandle) (c : TaskHandle) : SpecSystem :=
  mkSpecSystem (spec_of k l c) (λ _, None).

Lemma fresh_refines k l c :
  kernel_wf k l → current (k_sched k) = Some c → sys_refines (fresh k) (fresh_spec k l c).
Proof. intros Hk Hc. split; [by apply refines_spec_of|done|done]. Qed.
End initial.

(** C1: the kernel refines its specification, whatever the tasks do. Start any
    well-formed kernel with a running task, let tasks compute and call the kernel
    with any arguments, in debug and release builds: every observable trace (who
    runs, which call, its result, and what moved through which endpoint) is a trace
    of the abstract kernel of [KernelSpec.v], started in the abstraction of that
    kernel; and no state on the way panics, diverges, or is without a running
    task. *)
Theorem kernel_refines_spec {S} `{!Cpu S, !ContextSwitch S, BuildProfile}
    (k : Kernel S) l c tr (y : System) :
  kernel_wf k l → current (k_sched k) = Some c → trace sys_step (fresh k) tr y →
  responsive y ∧ ∃ a, trace spec_step (fresh_spec k l c) tr a ∧ sys_refines y a.
Proof.
  intros Hk Hc Ht. destruct (sys_trace_refines _ _ _ _ (fresh_refines k l c Hk Hc) Ht) as (a & Hta & Hr).
  split; [by eapply sys_refines_responsive|by exists a].
Qed.

(** C4: no message is lost, duplicated or reordered by scheduling. Along every
    trace of the running system, for every live endpoint: what it held at the
    start followed by what tasks sent to it is what tasks received from it followed
    by what it still holds, messages and capabilities alike. *)
Theorem system_conserves_messages {S} `{!Cpu S, !ContextSwitch S, BuildProfile}
    (k : Kernel S) l c tr (y : System) :
  kernel_wf k l → current (k_sched k) = Some c → trace sys_step (fresh k) tr y →
  ∀ ep, ep_live (k_arena k) ep →
    in_flight (ep_state (k_queues k) ep) ++ sent_on ep (event_of <$> tr) =
    received_on ep (event_of <$> tr) ++ in_flight (ep_state (k_queues (sy_kernel y)) ep).
Proof.
  intros Hk Hc Ht ep Hl.
  destruct (sys_trace_refines _ _ _ _ (fresh_refines k l c Hk Hc) Ht) as (a & Hta & Hr).
  destruct (spec_trace_flow _ _ _ Hta) as [Hlive Hflow]. specialize (Hflow ep). simpl in Hflow, Hlive.
  rewrite Hflow. do 2 f_equal. apply (rf_ep _ _ (sr_kernel _ _ Hr)). by rewrite Hlive.
Qed.

(** C6: no task is lost. In every reachable state, every task that existed at the
    start, and no other, is running, in the ready queue exactly once, or blocked on
    exactly one endpoint that waits for its receiver; never two of these. *)
Theorem no_task_is_lost {S} `{!Cpu S, !ContextSwitch S, BuildProfile}
    (k : Kernel S) l c tr (y : System) :
  kernel_wf k l → current (k_sched k) = Some c → trace sys_step (fresh k) tr y →
  ∃ l' c', current (k_sched (sy_kernel y)) = Some c' ∧ NoDup (slot_index <$> c' :: l') ∧
    represents TASK_ARENA_CAPACITY (ready (k_sched (sy_kernel y))) l' ∧
    (∀ i, exists_task k i ↔
       i ∈ (slot_index <$> c' :: l') ∨ ∃ ep, blocked_on (sy_kernel y) i ep) ∧
    ∀ i ep, blocked_on (sy_kernel y) i ep →
      i ∉ (slot_index <$> c' :: l') ∧ ep_state (k_queues (sy_kernel y)) ep = RecvWaiting ∧
      ∀ ep', blocked_on (sy_kernel y) i ep' → ep' = ep.
Proof.
  intros Hk Hc Ht. pose proof (fresh_refines k l c Hk Hc) as Hr0.
  assert (∃ a, sys_refines y a ∧ ∀ i, active (ss_kernel a) i ↔ exists_task k i) as (a & Hr & Hact).
  { remember (fresh k) as y0 eqn:Ey. revert Ey. induction Ht as [y|y tr y1 l1 y2 Ht IH Hst]; intros ->.
    - exists (fresh_spec k l c). split; [done|]. intros i. apply active_exists, Hr0.
    - destruct (IH Hr0 eq_refl) as (a1 & Hr1 & Hact).
      destruct (sys_step_refines _ _ _ _ Hr1 Hst) as (a2 & Hst2 & Hr2). exists a2. split; [done|].
      intros i. rewrite (spec_step_active a1 l1 a2 i); [apply Hact| |exact Hst2].
      intros ep j Hw. by destruct (proj2 (refines_disjoint _ _ (sr_kernel _ _ Hr1)) ep j Hw) as (_ & ? & _). }
  pose proof (sr_kernel _ _ Hr) as Hk'. destruct (rf_kernel _ _ Hk') as (l' & Hwf & Hq).
  destruct (rf_running _ _ Hk') as (c' & Hc' & Hrun). destruct (refines_disjoint _ _ Hk') as [Hnd Hw].
  assert (ks_running (ss_kernel a) :: ks_queue (ss_kernel a) = slot_index <$> c' :: l') as Heq
    by (by rewrite <- Hrun, Hq).
  rewrite Heq in *. exists l', c'. split_and!; [done|done|apply (kw_sched _ _ Hwf)|..].
  - intros i. rewrite <- Hact. unfold active. rewrite <- Heq, elem_of_cons.
    setoid_rewrite (rf_waiter _ _ Hk'). tauto.
  - intros i ep Hb. destruct (kw_waiting _ _ Hwf _ _ Hb) as [_ Hst].
    pose proof Hb as Hb'%(rf_waiter _ _ Hk'). destruct (Hw ep i Hb') as (H1 & _ & H3).
    split_and!; [done|done|]. intros ep' Hb2%(rf_waiter _ _ Hk'). by apply H3.
Qed.

(** C17: a ready task runs. The task at position [p] of the ready queue moves up with
    every switch, whatever tasks compute, send, receive or are woken in between; the
    switch number [p + 1] is to it. *)
Theorem ready_task_runs {S} `{!Cpu S, !ContextSwitch S, BuildProfile}
    (k : Kernel S) l c h p tr j o ev (y1 y2 : System) :
  kernel_wf k l → current (k_sched k) = Some c → l !! p = Some h →
  trace sys_step (fresh k) tr y1 → sys_step y1 (Calls j o SSwitch ev) y2 → switches tr = p →
  ∃ h', current (k_sched (sy_kernel y2)) = Some h' ∧ slot_index h' = slot_index h.
Proof.
  intros Hk Hc Hp Ht Hst Hsw.
  destruct (sys_trace_refines _ _ _ _ (fresh_refines k l c Hk Hc) Ht) as (a1 & Hta & Hr1).
  destruct (sys_step_refines _ _ _ _ Hr1 Hst) as (a2 & Hst2 & Hr2).
  pose proof (spec_trace_moves _ _ _ p (slot_index h) Hta) as Hm. simpl in Hm.
  rewrite list_lookup_fmap, Hp in Hm. specialize (Hm eq_refl ltac:(lia)).
  rewrite Hsw, Nat.sub_diag in Hm. pose proof (spec_step_moves _ _ _ Hst2 0 _ Hm) as Hrun. simpl in Hrun.
  destruct (rf_running _ _ (sr_kernel _ _ Hr2)) as (h' & Hc' & Hi). exists h'. split; [done|]. congruence.
Qed.

(** C7: a task that is switched away from inside a call finds its registers when it
    runs again. On every core that satisfies the [ContextSwitch] contract: if task
    [i] makes a call that switches, then whatever the other tasks compute and call
    until [i] runs again, [i] has exactly the registers it called with. *)
Theorem registers_survive_calls {S} `{laws : ContextSwitchLaws S} `{profile : BuildProfile}
    (k : Kernel S) l c tr0 (y0 y1 y2 : System) i o ev tr h :
  kernel_wf k l → current (k_sched k) = Some c →
  (∀ x ctx, aget (contexts (k_sched k)) x = Some ctx → valid ctx) →
  trace sys_step (fresh k) tr0 y0 → sys_step y0 (Calls i o SSwitch ev) y1 →
  trace sys_step y1 tr y2 → Forall (λ l, task_of l ≠ i) tr →
  current (k_sched (sy_kernel y2)) = Some h → slot_index h = i →
  regs (k_cpu (sy_kernel y2)) = regs (k_cpu (sy_kernel y0)).
Proof.
  intros Hk Hc Hv Ht0 Hst Ht Hf Hh Hi.
  destruct (sys_trace_regs _ _ _ _ (fresh_refines k l c Hk Hc) (Build_contexts_ok (fresh k) Hv (λ _ _ Hs, ltac:(done))) Ht0)
    as (Hok0 & [a0 Hr0] & _).
  destruct (sys_step_regs _ _ _ _ Hr0 Hok0 Hst) as [Hok1 Hreg1].
  destruct (sys_step_refines _ _ _ _ Hr0 Hst) as (a1 & _ & Hr1).
  destruct (sys_trace_regs _ _ _ _ Hr1 Hok1 Ht) as (_ & _ & Hreg2).
  assert (has_regs i (regs (k_cpu (sy_kernel y0))) (sy_kernel y0)) as Hstart.
  { inversion Hst as [| | |k0 sus h0 o0 m k' Hc0 Hs Hin| |]; subst. intros c1 Hc1. simpl in *.
    rewrite decide_True; [done|]. congruence. }
  specialize (Hreg2 i _ Hf (Hreg1 i _ (λ _, eq_refl) Hstart) h Hh). by rewrite decide_True in Hreg2.
Qed.

(** ** Witnesses: the booted demo kernel *)

Definition demo_recv (tbl : nat) : kernel_op := KRecv tbl (mkCapHandle 0 0).
Definition demo_send (tbl : nat) (msg : Message) : kernel_op := KSend tbl (mkCapHandle 0 0) msg None.

(** Task B blocks; task A's message wakes it; the idle task yields to B, which
    receives. *)
Definition demo_actions : list (action Core) :=
  [ACall (demo_recv TABLE_B); ACompute (λ c, mkCore 64 9 (registers c)); ACall (demo_send TABLE_A msg_a);
   ACall KYield; AResume].

Lemma demo_trace `{BuildProfile} l tr y :
  acts l (fresh demo_kernel) = Some (tr, y) → trace sys_step (fresh demo_kernel) tr y.
Proof. intros Ha. apply (acts_trace l _ [] (fresh demo_kernel) tr y); [constructor|exact Ha]. Qed.

Lemma demo_acts `{BuildProfile} :
  match acts demo_actions (fresh demo_kernel) with Some _ => true | None => false end = true.
Proof. destruct H; vm_compute; reflexivity. Qed.

Lemma kernel_refines_spec_witness :
  let _ := debug_profile in
  match acts demo_actions (fresh demo_kernel) with
  | Some (tr, y) => responsive y ∧
      ∃ a, trace spec_step (fresh_spec demo_kernel [task_n 0; task_n 2] (task_n 1)) tr a ∧ sys_refines y a
  | None => False
  end.
Proof.
  intros p. destruct (acts demo_actions (fresh demo_kernel)) as [[tr y]|] eqn:E;
    [|pose proof (demo_acts (H := p)) as Hd; rewrite E in Hd; discriminate].
  exact (kernel_refines_spec (H := p) demo_kernel _ _ tr y (proj1 demo_kernel_wf) (proj2 demo_kernel_wf)
    (demo_trace _ tr y E)).
Defined.

Lemma system_conserves_messages_witness :
  let _ := debug_profile in
  match acts demo_actions (fresh demo_kernel) with
  | Some (tr, y) =>
      sent_on demo_ep (event_of <$> tr) = [(msg_a, None)] ∧
      in_flight (ep_state (k_queues demo_kernel) demo_ep) ++ sent_on demo_ep (event_of <$> tr) =
      received_on demo_ep (event_of <$> tr) ++ in_flight (ep_state (k_queues (sy_kernel y)) demo_ep)
  | None => False
  end.
Proof.
  intros p. destruct (acts demo_actions (fresh demo_kernel)) as [[tr y]|] eqn:E;
    [|pose proof (demo_acts (H := p)) as Hd; rewrite E in Hd; discriminate].
  split.
  - assert (((λ r, sent_on demo_ep (event_of <$> r.1)) <$> acts demo_actions (fresh demo_kernel)) =
      Some [(msg_a, None)]) as Hs by (vm_compute; reflexivity).
    rewrite E in Hs. by injection Hs.
  - apply (system_conserves_messages (H := p) demo_kernel _ _ tr y (proj1 demo_kernel_wf) (proj2 demo_kernel_wf)
      (demo_trace _ tr y E) demo_ep). exists (new_endpoint 0). vm_compute. reflexivity.
Defined.

Lemma no_task_is_lost_witness :
  let _ := debug_profile in
  match acts demo_actions (fresh demo_kernel) with
  | Some (tr, y) =>
    ∃ l' c', current (k_sched (sy_kernel y)) = Some c' ∧ NoDup (slot_index <$> c' :: l') ∧
      represents TASK_ARENA_CAPACITY (ready (k_sched (sy_kernel y))) l' ∧
      (∀ i, exists_task demo_kernel i ↔
         i ∈ (slot_index <$> c' :: l') ∨ ∃ ep, blocked_on (sy_kernel y) i ep) ∧
      ∀ i ep, blocked_on (sy_kernel y) i ep →
        i ∉ (slot_index <$> c' :: l') ∧ ep_state (k_queues (sy_kernel y)) ep = RecvWaiting ∧
        ∀ ep', blocked_on (sy_kernel y) i ep' → ep' = ep
  | None => False
  end.
Proof.
  intros p. destruct (acts demo_actions (fresh demo_kernel)) as [[tr y]|] eqn:E;
    [|pose proof (demo_acts (H := p)) as Hd; rewrite E in Hd; discriminate].
  exact (no_task_is_lost (H := p) demo_kernel _ _ tr y (proj1 demo_kernel_wf) (proj2 demo_kernel_wf)
    (demo_trace _ tr y E)).
Defined.

(** [acts] on one call, as a step that switches. *)
Definition switching `{BuildProfile} (o : kernel_op) (y : System (S := Core)) :
    option (N * ipc_event * System) :=
  match act (ACall o) y with
  | Some (Calls i _ SSwitch ev, y') => Some (i, ev, y')
  | _ => None
  end.

Lemma switching_step `{BuildProfile} o y i ev y' :
  switching o y = Some (i, ev, y') → sys_step y (Calls i o SSwitch ev) y'.
Proof.
  unfold switching. destruct (act (ACall o) y) as [[l y1]|] eqn:Ha; [|done].
  destruct l as [|i1 o1 [r|] ev1|]; try done. intros [= <- <- <-].
  assert (o1 = o) as ->; [|by apply act_step in Ha].
  unfold act in Ha. apply bind_Some in Ha as (h & _ & Ha). destruct (sy_suspended _ _); [done|].
  repeat case_match; by simplify_eq.
Qed.

Definition round_robin : list (action Core) := [ACall (demo_recv TABLE_B)].

Lemma ready_task_runs_witness :
  let _ := debug_profile in
  match acts round_robin (fresh demo_kernel) with
  | Some (_, y1) =>
      match switching (demo_send TABLE_A msg_a) y1 with
      | Some (_, _, y2) => ∃ h', current (k_sched (sy_kernel y2)) = Some h' ∧ slot_index h' = 2%N
      | None => False
      end
  | None => False
  end.
Proof.
  intros p.
  assert (match acts round_robin (fresh demo_kernel) with
          | Some (tr, y1) => (switches tr =? 1)%nat &&
              match switching (demo_send TABLE_A msg_a) y1 with Some _ => true | None => false end
          | None => false end = true) as Hd by (vm_compute; reflexivity).
  destruct (acts round_robin (fresh demo_kernel)) as [[tr y1]|] eqn:E; [|discriminate].
  apply andb_true_iff in Hd as [Hsw Hd]. apply Nat.eqb_eq in Hsw.
  destruct (switching (demo_send TABLE_A msg_a) y1) as [[[i ev] y2]|] eqn:E2; [|discriminate].
  exact (ready_task_runs (H := p) demo_kernel _ _ (task_n 2) 1 tr i _ ev y1 y2 (proj1 demo_kernel_wf)
    (proj2 demo_kernel_wf) eq_refl (demo_trace _ tr y1 E) (switching_step _ _ _ _ _ E2) Hsw).
Defined.

Definition set_x19 : action Core := ACompute (λ c, mkCore (daif c) (mpidr c) (set_reg (X 19) 5%N (registers c))).

Lemma demo_contexts_valid `{BuildProfile} x ctx :
  aget (contexts (k_sched demo_kernel)) x = Some ctx → valid ctx.
Proof.
  assert (forallb (λ c : Aarch64TaskContext, (length (x19_x28 c) =? 10)%nat && (length (d8_d15 c) =? 8)%nat)
    (contexts (k_sched demo_kernel)) = true) as Hall by (destruct H; vm_compute; reflexivity).
  rewrite forallb_forall in Hall. intros Hx%list_elem_of_lookup_2%list_elem_of_In.
  specialize (Hall _ Hx). apply andb_true_iff in Hall as [H1%Nat.eqb_eq H2%Nat.eqb_eq]. by split.
Qed.

Lemma registers_survive_calls_witness :
  let _ := debug_profile in
  match acts [set_x19] (fresh demo_kernel) with
  | Some (_, y0) =>
    match switching KYield y0 with
    | Some (_, _, y1) =>
      match acts [ACompute (λ c, mkCore 0 0 (λ _, 77%N)); ACall KYield; ACall KYield] y1 with
      | Some (_, y2) => regs (k_cpu (sy_kernel y2)) = regs (k_cpu (sy_kernel y0))
      | None => False
      end
    | None => False
    end
  | None => False
  end.
Proof.
  intros p.
  assert (match acts [set_x19] (fresh demo_kernel) with
    | Some (_, y0) =>
      match switching KYield y0 with
      | Some (i, _, y1) => (i =? 1)%N &&
        match acts [ACompute (λ c, mkCore 0 0 (λ _, 77%N)); ACall KYield; ACall KYield] y1 with
        | Some (tr, y2) => forallb (λ l, negb (task_of l =? 1)%N) tr &&
            bool_decide (slot_index <$> current (k_sched (sy_kernel y2)) = Some 1%N)
        | None => false
        end
      | None => false
      end
    | None => false
    end = true) as Hd by (vm_compute; reflexivity).
  destruct (acts [set_x19] (fresh demo_kernel)) as [[tr0 y0]|] eqn:E0; [|discriminate].
  destruct (switching KYield y0) as [[[i ev] y1]|] eqn:E1; [|discriminate].
  apply andb_true_iff in Hd as [->%N.eqb_eq Hd].
  destruct (acts _ y1) as [[tr y2]|] eqn:E2; [|discriminate].
  apply andb_true_iff in Hd as [Hf Hd%bool_decide_eq_true]. apply fmap_Some in Hd as (h & Hh & Hi).
  apply (registers_survive_calls (profile := p) demo_kernel _ _ tr0 y0 y1 y2 1%N KYield ev tr h
    (proj1 demo_kernel_wf) (proj2 demo_kernel_wf) demo_contexts_valid (demo_trace _ tr0 y0 E0)
    (switching_step _ _ _ _ _ E1)).
  - eapply (acts_trace _ y1 [] y1 tr y2); [constructor|exact E2].
  - apply Forall_forall. intros l Hl%list_elem_of_In. rewrite forallb_forall in Hf. specialize (Hf l Hl).
    intros Heq. rewrite Heq in Hf. discriminate.
  - exact Hh.
  - by symmetry.
Defined.
