(* ===== verification/Demo.v ===== *)
(** * [bsp-qemu-virt/src/main.rs]: the demo tasks

    The bodies of the three tasks are programs ([task]): what a task reads of the
    statics, prints, and asks of the kernel, each with what it does next. [move]
    makes the running task's next move; a task that was switched away from goes on
    with the rest of its call. The moves are independent of the devices: [run_log]
    collects what is printed, [run_board] prints it with the [PL011] driver, and
    the two agree ([run_board_log]). *)

From stdpp Require Import prelude strings.
From Stdlib Require Import Lia NArith.
From S2P Require Import Prelude Text FreeList Arena Objects Rights Capability CapTable Ipc.
From S2P Require Import HalCpu HalIrq Timer SchedQueue Sched SchedProofs QemuCpu Gic Console Board Boot.
From S2P Require Import KernelMain VirtBus SchedSafety KernelSpec.

(** ** Programs *)

Inductive task :=
  | Static (n : Static.name) (k : contents n → task)
  | Writeln (console : Pl011Uart) (args : list arg) (k : task)
  | Call (o : kernel_op) (k : result reply SchedError → task)
  | WaitForInterrupt (k : task)
  | NowNs (cpu : CpuHandle) (k : u64 → task)
  (** [panic!], and a failed [expect]. *)
  | PanicWith (msg : string)
  (** [loop { spin_loop() }]. *)
  | SpinLoop
  (** [loop { body }], and the end of its body. *)
  | Loop (body : task)
  | Continue.

(** A call of the bridge: its arguments are read from the statics. *)
Definition yield_then (msg : string) (k : task) : task :=
  Static Static.CPU (λ _, Call KYield (λ r, match r with Ok _ => k | Err _ => PanicWith msg end)).

Definition send_then (cell : Static.name) (tbl : nat) (get : contents cell → CapHandle)
    (message : Message) (msg : string) (k : task) : task :=
  Static Static.CPU (λ _, Static cell (λ h,
    Call (KSend tbl (get h) message None) (λ r, match r with Ok _ => k | Err _ => PanicWith msg end))).

Definition recv_then (cell : Static.name) (tbl : nat) (get : contents cell → CapHandle)
    (msg : string) (k : RecvOutcome → task) : task :=
  Static Static.CPU (λ _, Static cell (λ h,
    Call (KRecv tbl (get h)) (λ r,
      match r with Ok (RecvReply o) => k o | _ => PanicWith msg end))).

(** [idle_entry]. *)
Definition idle_entry : task :=
  Static Static.CPU (λ cpu,
  Loop (WaitForInterrupt (Call KYield (λ r,
    match r with Ok _ => Continue | Err _ => PanicWith "idle: yield_now failed" end)))).

(** [task_b]. *)
Definition task_b : task :=
  Static Static.CONSOLE (λ console,
  Writeln console [Lit ("tyrne: task B — waiting for IPC" +:+ nl)] (
  recv_then Static.EP_CAP_B TABLE_B id "task B: ipc_recv failed" (λ recv_outcome,
  match recv_outcome with
  | Received msg _ =>
      Static Static.CONSOLE (λ console,
      Writeln console [Lit "tyrne: task B — received IPC (label=0x"; Hex (label msg); Lit ("); replying" +:+ nl)] (
      send_then Static.EP_CAP_B TABLE_B id reply_b "task B: ipc_send reply failed" (
      yield_then "task B: yield_now after reply failed" SpinLoop)))
  | Pending => PanicWith "task B: expected Received outcome from ipc_recv_and_yield"
  end))).

(** [task_a]. *)
Definition task_a : task :=
  Static Static.CONSOLE (λ console,
  Writeln console [Lit ("tyrne: task A -- sending IPC" +:+ nl)] (
  send_then Static.EP_CAP_A TABLE_A id msg_a "task A: ipc_send failed" (
  recv_then Static.EP_CAP_A TABLE_A id "task A: ipc_recv (reply) failed" (λ reply_outcome,
  match reply_outcome with
  | Received reply _ =>
      Static Static.CONSOLE (λ console,
      Writeln console [Lit "tyrne: task A — received reply (label=0x"; Hex (label reply); Lit ("); done" +:+ nl)] (
      Writeln console [Lit ("tyrne: all tasks complete" +:+ nl)] (
      Static Static.CPU (λ cpu,
      Static Static.BOOT_NS (λ boot_ns,
      NowNs cpu (λ now,
      let elapsed_ns := saturating_sub now boot_ns in
      Writeln console [Lit "tyrne: boot-to-end elapsed = "; Dec elapsed_ns; Lit (" ns" +:+ nl)] SpinLoop))))))
  | Pending => PanicWith "task A: expected Received outcome from reply ipc_recv_and_yield"
  end)))).

(** ** Execution *)

(** A task inside a call that was switched away from: the rest of the call, and
    what the task does with its result. *)
Definition suspended : Type := M (Kernel Core) SchedError reply * (result reply SchedError → task).

Record Tasks := mkTasks {
  t_core : Core;
  t_statics : Statics;
  t_task : N → task;
  t_loop : N → task;
  t_suspended : N → option suspended;
}.

Inductive stop := Halted | Spinning | Crashed.

(** What is outside of the software: whether an interrupt will ever end a [WFI],
    and what [now_ns] reads. *)
Record Env := mkEnv { wakes : bool; now : CpuHandle → option u64 }.

Inductive moves :=
  | Goes (t : Tasks)
  | Prints (console : Pl011Uart) (args : list arg) (t : Tasks)
  | Stops (st : stop).

Section exec.
Context `{BuildProfile} (env : Env).

Definition becomes (t : Tasks) (i : N) (p : task) : Tasks :=
  mkTasks (t_core t) (t_statics t) (upd (t_task t) i p) (t_loop t) (t_suspended t).

Definition after_call (t : Tasks) (cs : Core * Statics) : Tasks :=
  mkTasks cs.1 cs.2 (t_task t) (t_loop t) (t_suspended t).

Definition suspends (t : Tasks) (i : N) (s : option suspended) : Tasks :=
  mkTasks (t_core t) (t_statics t) (t_task t) (t_loop t) (upd (t_suspended t) i s).

(** Task [i] runs its program. *)
Definition program_move (t : Tasks) (i : N) : moves :=
  match t_task t i with
  | Static n k => match t_statics t n with Some v => Goes (becomes t i (k v)) | None => Stops Crashed end
  | Writeln console args k => Prints console args (becomes t i k)
  | Call o k =>
      match on_kernel (invoke o) (t_core t, t_statics t) with
      | Done (Ok (Return r)) cs => Goes (becomes (after_call t cs) i (k (Ok r)))
      | Done (Ok (Switched rest)) cs => Goes (suspends (after_call t cs) i (Some (rest, k)))
      | Done (Err e) cs => Goes (becomes (after_call t cs) i (k (Err e)))
      | _ => Stops Crashed
      end
  | WaitForInterrupt k =>
      if wakes env then
        match wait_for_interrupt (t_core t) with
        | Done _ c => Goes (becomes (mkTasks c (t_statics t) (t_task t) (t_loop t) (t_suspended t)) i k)
        | _ => Stops Crashed
        end
      else Stops Halted
  | NowNs cpu k => match now env cpu with Some ns => Goes (becomes t i (k ns)) | None => Stops Crashed end
  | PanicWith _ => Stops Crashed
  | SpinLoop => Stops Spinning
  | Loop body =>
      Goes (becomes (mkTasks (t_core t) (t_statics t) (t_task t) (upd (t_loop t) i body) (t_suspended t)) i body)
  | Continue => Goes (becomes t i (t_loop t i))
  end.

(** The current task moves: with the rest of its call if it is inside one. *)
Definition move (t : Tasks) : moves :=
  match t_statics t Static.SCHED ≫= current with
  | None => Stops Crashed
  | Some h =>
      let i := slot_index h in
      match t_suspended t i with
      | Some (rest, k) =>
          match on_kernel rest (t_core t, t_statics t) with
          | Done r cs => Goes (becomes (suspends (after_call t cs) i None) i (k r))
          | _ => Stops Crashed
          end
      | None => program_move t i
      end
  end.

(** At most [fuel] moves, until the system stops, with what is printed on the
    console of the board. *)
Fixpoint run_log (fuel : nat) (t : Tasks) : option stop * Tasks * list arg :=
  match fuel with
  | O => (None, t, [])
  | S fuel =>
      match move t with
      | Goes t' => run_log fuel t'
      | Prints console args t' =>
          if (uart_base console =? PL011_UART_BASE)%N then
            let '(st, t'', log) := run_log fuel t' in (st, t'', args ++ log)
          else (Some Crashed, t, [])
      | Stops st => (Some st, t, [])
      end
  end.

(** ... on a board. *)
Fixpoint run_board {B} `{!Bus B} (poll fuel : nat) (t : Tasks) (b : B) : option stop * Tasks * B :=
  match fuel with
  | O => (None, t, b)
  | S fuel =>
      match move t with
      | Goes t' => run_board poll fuel t' b
      | Prints console args t' =>
          match write_fmt poll console args b with
          | Done _ b' => run_board poll fuel t' b'
          | _ => (Some Crashed, t, b)
          end
      | Stops st => (Some st, t, b)
      end
  end.
End exec.

(** The system [kernel_entry] leaves: each task at the head of its body. *)
Definition boot_tasks_of (hs : TaskHandle * TaskHandle * TaskHandle) (cpu : Core) (s : Statics) : Tasks :=
  let '(ha, hb, hi) := hs in
  mkTasks cpu s
    (upd (upd (upd (λ _, Continue) (slot_index ha) task_a) (slot_index hb) task_b) (slot_index hi) idle_entry)
    (λ _, Continue) (λ _, None).

Section proofs.
Context {B : Type} `{Devices B} `{profile : BuildProfile}.

(** The serial line shows the log. *)
Lemma run_board_log env poll fuel (t : Tasks) (b : B) st t' log :
  run_log env fuel t = (st, t', log) → st ≠ Some Crashed → busy b < poll → drain < poll →
  ∃ b', run_board env poll fuel t b = (st, t', b') ∧ printed poll (bytes_of (fmt log)) b b'.
Proof.
  intros Hr Hst Hb Hd. revert t b log Hr Hb. induction fuel as [|fuel IH]; intros t b log Hr Hb;
    cbn [run_log run_board] in *.
  { injection Hr as <- <- <-. exists b. split; [done|]. split; [done|by rewrite app_nil_r|done]. }
  destruct (move env t) as [t1|console args t1|st1].
  - by apply IH.
  - destruct (N.eqb_spec (uart_base console) PL011_UART_BASE) as [Hc|Hc]; [|congruence].
    destruct (run_log env fuel t1) as [[st2 t2] log2] eqn:Hr2. injection Hr as <- <- <-.
    destruct (write_fmt_run poll args b Hb Hd) as (b1 & Hw & Hp).
    assert (console = uart0) as -> by (destruct console; unfold uart0; simpl in Hc; by subst).
    rewrite Hw. destruct (IH t1 b1 log2 Hr2 (pr_busy _ _ _ _ Hp)) as (b2 & Hr3 & Hp3).
    exists b2. split; [done|]. rewrite fmt_app, bytes_of_app. by eapply printed_trans.
  - injection Hr as <- <- <-. exists b. split; [done|]. split; [done|by rewrite app_nil_r|done].
Qed.
End proofs.

(** ** The demo *)

Definition ready_at (t : Tasks) (i : N) : bool :=
  bool_decide ((s ← t_statics t Static.SCHED; aget (task_states s) i) = Some TReady).
Definition queued (t : Tasks) : list N :=
  match t_statics t Static.SCHED with Some s => omap (λ o, slot_index <$> o) (buf (ready s)) | None => [] end.
Definition running_task (t : Tasks) : option TaskHandle := t_statics t Static.SCHED ≫= current.

(** The software [kernel_entry] leaves. *)
Definition demo_tasks (cpu : CpuHandle) (ns : u64) (b0 b : Booted) : Tasks :=
  boot_tasks_of (task_n 0, task_n 1, task_n 2) (k_cpu (b_kernel b)) (boot_statics cpu ns b0 b).

Definition stall_log : list arg :=
  [Lit ("tyrne: task B — waiting for IPC" +:+ nl); Lit ("tyrne: task A -- sending IPC" +:+ nl)].

Definition full_log (elapsed : u64) : list arg :=
  stall_log ++
  [Lit "tyrne: task B — received IPC (label=0x"; Hex (label msg_a); Lit ("); replying" +:+ nl);
   Lit "tyrne: task A — received reply (label=0x"; Hex (label reply_b); Lit ("); done" +:+ nl);
   Lit ("tyrne: all tasks complete" +:+ nl);
   Lit "tyrne: boot-to-end elapsed = "; Dec elapsed; Lit (" ns" +:+ nl)].

Lemma stall_run `{BuildProfile} cpu ns c img read :
  match kernel_setup c img, boot_kernel c img with
  | Some b0, Some b =>
      let '(st, t, log) := run_log (mkEnv false read) 30 (demo_tasks cpu ns b0 b) in
      st = Some Halted ∧ log = stall_log ∧ running_task t = Some (task_n 2) ∧ queued t = [1; 0]%N ∧
      ready_at t 0 = true ∧ ready_at t 1 = true
  | _, _ => False
  end.
Proof. destruct H; vm_compute; split_and!; reflexivity. Qed.

(** A run goes on where a shorter one was cut off. *)
Lemma run_log_add `{BuildProfile} env n m t t1 log1 :
  run_log env n t = (None, t1, log1) →
  run_log env (n + m) t = let '(st, t2, log2) := run_log env m t1 in (st, t2, log1 ++ log2).
Proof.
  revert t log1. induction n as [|n IH]; intros t log1; cbn [run_log Nat.add].
  - intros [= <- <-]. by destruct (run_log env m t) as [[] ?].
  - destruct (move env t) as [t'|console args t'|st]; [apply IH| |done].
    destruct (_ =? _)%N; [|done]. destruct (run_log env n t') as [[st2 t2] log2] eqn:Hr.
    intros [= -> -> <-]. rewrite (IH t' log2 Hr). destruct (run_log env m t1) as [[] ?].
    by rewrite app_assoc.
Qed.

(** Task A has its reply and is about to read the clock. *)
Definition last_lines (ns : u64) (now : u64) : task :=
  Writeln uart0 [Lit "tyrne: boot-to-end elapsed = "; Dec (saturating_sub now ns); Lit (" ns" +:+ nl)] SpinLoop.

Lemma run_to_clock `{BuildProfile} cpu ns c img read :
  match kernel_setup c img, boot_kernel c img with
  | Some b0, Some b =>
      let '(st, t, log) := run_log (mkEnv true read) 31 (demo_tasks cpu ns b0 b) in
      st = None ∧ log = take 9 (full_log ns) ∧ running_task t = Some (task_n 0) ∧
      t_suspended t 0 = None ∧ t_task t 0 = NowNs cpu (last_lines ns)
  | _, _ => False
  end.
Proof. destruct H; vm_compute; split_and!; reflexivity. Qed.

Lemma move_program `{BuildProfile} env t h :
  running_task t = Some h → t_suspended t (slot_index h) = None →
  move env t = program_move env t (slot_index h).
Proof. unfold running_task, move. by intros -> ->. Qed.

(** The moves of the last lines. *)
Lemma now_move `{BuildProfile} env t h cpu k ns :
  running_task t = Some h → t_suspended t (slot_index h) = None → t_task t (slot_index h) = NowNs cpu k →
  now env cpu = Some ns → move env t = Goes (becomes t (slot_index h) (k ns)).
Proof. intros Hr Hs Hp Hn. rewrite (move_program env t h Hr Hs). unfold program_move. by rewrite Hp, Hn. Qed.

Lemma writeln_move `{BuildProfile} env t h console args k :
  running_task t = Some h → t_suspended t (slot_index h) = None →
  t_task t (slot_index h) = Writeln console args k → move env t = Prints console args (becomes t (slot_index h) k).
Proof. intros Hr Hs Hp. rewrite (move_program env t h Hr Hs). unfold program_move. by rewrite Hp. Qed.

Lemma spin_move `{BuildProfile} env t h :
  running_task t = Some h → t_suspended t (slot_index h) = None →
  t_task t (slot_index h) = SpinLoop → move env t = Stops Spinning.
Proof. intros Hr Hs Hp. rewrite (move_program env t h Hr Hs). unfold program_move. by rewrite Hp. Qed.

Lemma clock_run `{BuildProfile} read cpu ns now t :
  running_task t = Some (task_n 0) → t_suspended t 0 = None → t_task t 0 = NowNs cpu (last_lines ns) →
  read cpu = Some now →
  ∃ t', run_log (mkEnv true read) 3 t =
      (Some Spinning, t', [Lit "tyrne: boot-to-end elapsed = "; Dec (saturating_sub now ns); Lit (" ns" +:+ nl)]) ∧
    running_task t' = Some (task_n 0).
Proof.
  intros Hrun Hs Hp Hr. set (e := mkEnv true read).
  set (t1 := becomes t 0 (last_lines ns now)). set (t2 := becomes t1 0 SpinLoop). exists t2.
  assert (move e t = Goes t1) as H1 by by apply (now_move e t (task_n 0) cpu).
  assert (move e t1 = Prints uart0 _ t2) as H2 by by apply (writeln_move e t1 (task_n 0)).
  assert (move e t2 = Stops Spinning) as H3 by by apply (spin_move e t2 (task_n 0)).
  split; [|done]. cbn [run_log]. rewrite H1, H2, H3. done.
Qed.

(** ** Properties *)

Section demo.
Context {B : Type} `{Devices B} `{profile : BuildProfile} (poll : nat) (img : Image) (vectors : u64).
Context (p : Platform B) (hs : TaskHandle * TaskHandle * TaskHandle) (m : Machine B).
Context (Hb : busy (p_bus p) < poll) (Hd : drain < poll) (Hw : in_width 64 (r_cntfrq (p_sys p))).
Context (He : kernel_entry poll img vectors (mkMachine p uninit) = Done hs m).

(** The demo runs on the board [kernel_entry] leaves. *)
Definition run_demo (env : Env) (fuel : nat) : option stop * Tasks * B :=
  run_board env poll fuel (boot_tasks_of hs (p_core (m_platform m)) (m_statics m)) (p_bus (m_platform m)).

Lemma entered :
  ∃ k, hs = (task_n 0, task_n 1, task_n 2) ∧ booted img vectors p m k ∧ busy (p_bus (m_platform m)) < poll.
Proof using All.
  pose proof (kernel_entry_run poll img vectors p Hb Hd Hw) as Hr. case_decide; [|congruence].
  destruct Hr as (m' & k & Hr & Hbt & Hb'). rewrite Hr in He. injection He as <- <-. by exists k.
Qed.

(** A run of the software, on the board. *)
Lemma demo_run (env : Env) fuel (P : CpuHandle → u64 → option stop → Tasks → list arg → Prop) :
  (∀ cpu ns c, frequency_hz cpu = r_cntfrq (p_sys p) →
     ticks_to_ns (r_cntvct (p_sys p)) (r_cntfrq (p_sys p)) = Some ns →
     match kernel_setup c img, boot_kernel c img with
     | Some b0, Some b => let '(st, t, log) := run_log env fuel (demo_tasks cpu ns b0 b) in
         st ≠ Some Crashed ∧ P cpu ns st t log
     | _, _ => False
     end) →
  ∃ cpu ns st t log b' res, run_demo env fuel = (st, t, b') ∧ P cpu ns st t log ∧
    resolution_ns_for_freq (r_cntfrq (p_sys p)) = Some res ∧
    sent b' = sent (p_bus p) ++ bytes_of (boot_text (r_cntfrq (p_sys p)) res +:+ fmt log).
Proof using All.
  intros HP. destruct entered as (k & Hhs & Hbt & Hb').
  destruct (bt_built _ _ _ _ _ Hbt) as (cpu & ns & c & b0 & b & Hset & Hboot & Hf & Hs & Hc).
  destruct (bt_text _ _ _ _ _ Hbt) as (res & Hres & Ht).
  assert (ticks_to_ns (r_cntvct (p_sys p)) (r_cntfrq (p_sys p)) = Some ns) as Hns.
  { rewrite <- (bt_boot_ns _ _ _ _ _ Hbt), Hs. reflexivity. }
  specialize (HP cpu ns c Hf Hns). rewrite Hset, Hboot in HP.
  destruct (run_log env fuel (demo_tasks cpu ns b0 b)) as [[st t] log] eqn:Hr. destruct HP as [Hst HP].
  destruct (run_board_log env poll fuel _ _ st t log Hr Hst Hb' Hd) as (b' & Hrun & Hp).
  exists cpu, ns, st, t, log, b', res. split.
  - unfold run_demo. rewrite Hhs, Hs, Hc. exact Hrun.
  - split_and!; [done..|]. by rewrite (pr_sent _ _ _ _ Hp), Ht, <- app_assoc, <- bytes_of_app.
Qed.
End demo.

(** C31: the boot demo stalls in the idle task. On every board on which
    [kernel_entry] boots: task B announces itself and blocks, task A sends and
    wakes it; then the queue is idle, B, A, so the send yields to idle, which
    executes [WFI] although both application tasks are ready. No interrupt source
    is enabled, so nothing ends the [WFI]; the serial line has seen the banner and
    these two lines, and no message is ever received. *)
Theorem demo_stalls_in_idle {B} `{Devices B} `{profile : BuildProfile} (poll : nat) (img : Image)
    (vectors : u64) (p : Platform B) hs m (read : CpuHandle → option u64) :
  busy (p_bus p) < poll → drain < poll → in_width 64 (r_cntfrq (p_sys p)) →
  kernel_entry poll img vectors (mkMachine p uninit) = Done hs m →
  ∃ t b' res, run_demo poll hs m (mkEnv false read) 30 = (Some Halted, t, b') ∧
    running_task t = Some (task_n 2) ∧ queued t = [1; 0]%N ∧
    ready_at t 0 = true ∧ ready_at t 1 = true ∧
    resolution_ns_for_freq (r_cntfrq (p_sys p)) = Some res ∧
    sent b' = sent (p_bus p) ++ bytes_of (boot_text (r_cntfrq (p_sys p)) res +:+ fmt stall_log).
Proof.
  intros Hb Hd Hw He.
  destruct (demo_run poll img vectors p hs m Hb Hd Hw He (mkEnv false read) 30 (λ _ _ st t log,
    st = Some Halted ∧ log = stall_log ∧ running_task t = Some (task_n 2) ∧ queued t = [1; 0]%N ∧
    ready_at t 0 = true ∧ ready_at t 1 = true))
    as (cpu & ns & st & t & log & b' & res & Hr & (-> & -> & ? & ? & ? & ?) & Hres & Hs).
  - intros cpu ns c _ _. pose proof (stall_run cpu ns c img read) as Hr.
    repeat case_match; try done. split; [|done]. by destruct Hr as [-> _].
  - by exists t, b', res.
Qed.

(** C32: the idle task is all that is wrong with the demo: if every [WFI] ends, the
    two tasks exchange their messages, print them, and A ends in its final loop
    after printing the time since boot, of the counter then and at boot. *)
Theorem demo_completes_when_woken {B} `{Devices B} `{profile : BuildProfile} (poll : nat) (img : Image)
    (vectors : u64) (p : Platform B) hs m (count now ns : u64) :
  busy (p_bus p) < poll → drain < poll → in_width 64 (r_cntfrq (p_sys p)) →
  kernel_entry poll img vectors (mkMachine p uninit) = Done hs m →
  ticks_to_ns (r_cntvct (p_sys p)) (r_cntfrq (p_sys p)) = Some ns →
  ticks_to_ns count (r_cntfrq (p_sys p)) = Some now →
  ∃ t b' res, run_demo poll hs m (mkEnv true (λ cpu, ticks_to_ns count (frequency_hz cpu))) 34 =
      (Some Spinning, t, b') ∧ running_task t = Some (task_n 0) ∧
    resolution_ns_for_freq (r_cntfrq (p_sys p)) = Some res ∧
    sent b' = sent (p_bus p) ++
      bytes_of (boot_text (r_cntfrq (p_sys p)) res +:+ fmt (full_log (saturating_sub now ns))).
Proof.
  intros Hb Hd Hw He Hns Hnow. set (env := mkEnv true _).
  destruct (demo_run poll img vectors p hs m Hb Hd Hw He env 34 (λ _ _ st t log,
    st = Some Spinning ∧ log = full_log (saturating_sub now ns) ∧ running_task t = Some (task_n 0)))
    as (cpu & ns' & st & t & log & b' & res & Hr & (-> & -> & ?) & Hres & Hs).
  - intros cpu ns' c Hf Hns'. assert (ns' = ns) as -> by congruence.
    pose proof (run_to_clock cpu ns c img (Demo.now env)) as Hr. revert Hr.
    change (mkEnv true (Demo.now env)) with env.
    destruct (kernel_setup c img) as [b0|]; [|done]. destruct (boot_kernel c img) as [b|]; [|done].
    destruct (run_log env 31 (demo_tasks cpu ns b0 b)) as [[st t] log] eqn:Hrun.
    intros (-> & -> & Hrt & Hsu & Hp).
    destruct (clock_run (Demo.now env) cpu ns now t Hrt Hsu Hp) as (t' & Hc & Hrt').
    { cbn. by rewrite Hf. }
    change 34 with (31 + 3). rewrite (run_log_add env 31 3 _ _ _ Hrun).
    change (mkEnv true (Demo.now env)) with env in Hc. rewrite Hc. by split_and!.
  - by exists t, b', res.
Qed.

(** ** Witnesses: the [virt] board *)

Lemma virt_boots `{profile : BuildProfile} :
  ∃ m, kernel_entry 3 virt_image 2048 (mkMachine virt_board uninit) = Done (task_n 0, task_n 1, task_n 2) m.
Proof.
  pose proof (kernel_entry_run 3 virt_image 2048 virt_board) as Hr.
  destruct Hr as (m & k & ? & _); [by vm_compute; lia|by vm_compute; lia|by vm_compute|by exists m].
Qed.

Lemma demo_stalls_in_idle_witness :
  let _ := debug_profile in
  ∃ hs m, kernel_entry 3 virt_image 2048 (mkMachine virt_board uninit) = Done hs m ∧
  ∃ t b' res, run_demo 3 hs m (mkEnv false (λ _, None)) 30 = (Some Halted, t, b') ∧
    running_task t = Some (task_n 2) ∧ queued t = [1; 0]%N ∧
    ready_at t 0 = true ∧ ready_at t 1 = true ∧
    resolution_ns_for_freq (r_cntfrq (p_sys virt_board)) = Some res ∧
    sent b' = sent (p_bus virt_board) ++ bytes_of (boot_text (r_cntfrq (p_sys virt_board)) res +:+ fmt stall_log).
Proof.
  intros pr. destruct (virt_boots (profile := pr)) as [m Hm]. do 2 eexists. split; [exact Hm|].
  apply (demo_stalls_in_idle (profile := pr) 3 virt_image 2048 virt_board _ m (λ _, None));
    [by vm_compute; lia|by vm_compute; lia|by vm_compute|exact Hm].
Defined.

Lemma demo_completes_when_woken_witness :
  let _ := debug_profile in
  ∃ hs m, kernel_entry 3 virt_image 2048 (mkMachine virt_board uninit) = Done hs m ∧
  ∃ t b' res, run_demo 3 hs m (mkEnv true (λ cpu, ticks_to_ns 125 (frequency_hz cpu))) 34 =
      (Some Spinning, t, b') ∧ running_task t = Some (task_n 0) ∧
    resolution_ns_for_freq (r_cntfrq (p_sys virt_board)) = Some res ∧
    sent b' = sent (p_bus virt_board) ++ bytes_of (boot_text (r_cntfrq (p_sys virt_board)) res +:+ fmt (full_log (saturating_sub 2000 0))).
Proof.
  intros pr. destruct (virt_boots (profile := pr)) as [m Hm]. do 2 eexists. split; [exact Hm|].
  apply (demo_completes_when_woken (profile := pr) 3 virt_image 2048 virt_board _ m 125 2000 0);
    [by vm_compute; lia|by vm_compute; lia|by vm_compute|exact Hm|by vm_compute..].
Defined.

(** What the terminal shows if every [WFI] ends. *)
Example transcript :
  boot_text 62500000 16 +:+ fmt (full_log 2000) =
  ("tyrne: hello from kernel_main" +:+ nl +:+
   "tyrne: timer ready (62500000 Hz, resolution 16 ns)" +:+ nl +:+
   "tyrne: starting cooperative scheduler" +:+ nl +:+
   "tyrne: task B — waiting for IPC" +:+ nl +:+
   "tyrne: task A -- sending IPC" +:+ nl +:+
   "tyrne: task B — received IPC (label=0xaaaa); replying" +:+ nl +:+
   "tyrne: task A — received reply (label=0xbbbb); done" +:+ nl +:+
   "tyrne: all tasks complete" +:+ nl +:+
   "tyrne: boot-to-end elapsed = 2000 ns" +:+ nl)%string.
Proof. by vm_compute. Qed.
