(* ===== verification/Types.v ===== *)
(** * The ranges the code relies on

    Integers are [N] in the model. [Typed] is the class of the types of the code: it
    says of every field what the code needs to be true of it. An integer the code
    computes with freely fits the width of its type. An integer that means
    something is in the range of what it means: a link of a table names one of its 64
    slots, a derivation depth is at most [MAX_DERIVATION_DEPTH], an object's handle
    indexes one of its arena's 16 slots, the ready queue's head is a position and
    its length at most its capacity, and no array changes its length. [keeps] is a typing
    judgement for computations, with a rule for each primitive of the monad, and
    every operation of the kernel has a type: on a well-typed state, with
    well-typed arguments, it leaves a well-typed state and returns a well-typed
    value. *)

From stdpp Require Import prelude.
From Stdlib Require Import Lia NArith.
From S2P Require Import Prelude FreeList Arena Objects Rights Capability.
From S2P Require Import CapTable CapSpec Ipc IpcProofs HalCpu SchedQueue Sched SchedProofs QemuCpu Boot SchedSafety.
From S2P Require Import KernelSpec System.

Class Typed (A : Type) := has_type : A → Prop.

Global Instance option_typed `{Typed A} : Typed (option A) := λ o, ∀ x, o = Some x → has_type x.
Global Instance list_typed `{Typed A} : Typed (list A) := Forall has_type.
Global Instance pair_typed `{Typed A, Typed B} : Typed (A * B) := λ p, has_type p.1 ∧ has_type p.2.
Global Instance unit_typed : Typed unit := λ _, True.

(** An optional index into an array of [n]. *)
Definition opt (n : N) (o : option N) : Prop := ∀ x, o = Some x → (x < n)%N.

(** The capacity of each of the three arenas, which is also that of the ready
    queue, the scheduler's arrays and the endpoint queues. *)
Definition OBJECTS : N := 16.

Lemma objects : TASK_ARENA_CAPACITY = OBJECTS ∧ ENDPOINT_ARENA_CAPACITY = OBJECTS ∧
  NOTIFICATION_ARENA_CAPACITY = OBJECTS.
Proof. done. Qed.

(** An array of [n] elements. *)
Definition sized {A} (n : N) (l : list A) : Prop := N.of_nat (length l) = n.

Lemma sized_aset {A} n (l : list A) i x : sized n l → sized n (aset l i x).
Proof. unfold sized. by rewrite length_aset. Qed.

Lemma sized_replicate {A} n (x : A) : sized n (replicate (N.to_nat n) x).
Proof. unfold sized. rewrite length_replicate. lia. Qed.

Lemma sized_aget {A} n (l : list A) i x : sized n l → aget l i = Some x → (i < n)%N.
Proof. intros <-. apply aget_Some_lt. Qed.

(** ** The types of the kernel *)

Global Instance SlotId_typed : Typed SlotId := λ id, (index id < OBJECTS)%N ∧ in_width 32 (generation id).
Global Instance TaskHandle_typed : Typed TaskHandle := λ h, has_type (task_slot h).
Global Instance EndpointHandle_typed : Typed EndpointHandle := λ h, has_type (endpoint_slot h).
Global Instance NotificationHandle_typed : Typed NotificationHandle := λ h, has_type (notification_slot h).
(** A handle that a table issues names a slot of it. (One that a task presents can be any pair of words.) *)
Global Instance CapHandle_typed : Typed CapHandle := λ h,
  (cap_index h < CAP_TABLE_CAPACITY)%N ∧ in_width 32 (cap_generation h).
Global Instance CapRights_typed : Typed CapRights := λ r, Rights.contains KNOWN_BITS r = true.
Global Instance CapObject_typed : Typed CapObject := λ o,
  match o with ObjTask h => has_type h | ObjEndpoint h => has_type h | ObjNotification h => has_type h end.
Global Instance Capability_typed : Typed Capability := λ c, has_type (rights c) ∧ has_type (object c).

Global Instance Task_typed : Typed Task := λ t, in_width 32 (task_id t).
Global Instance Endpoint_typed : Typed Endpoint := λ e, in_width 32 (endpoint_id e).
Global Instance Notification_typed : Typed Notification := λ n, in_width 64 (word n).

Global Instance Slot_typed `{Typed A} : Typed (Slot A) := λ s,
  has_type (entry s) ∧ in_width 32 (slot_generation s) ∧ opt OBJECTS (next_free s).
Global Instance Arena_typed `{Typed A} : Typed (Arena A) := λ a,
  (has_type (slots a) ∧ sized OBJECTS (slots a)) ∧ opt OBJECTS (free_head a).

Global Instance SlotEntry_typed : Typed SlotEntry := λ e,
  has_type (capability e) ∧ opt CAP_TABLE_CAPACITY (parent e) ∧ opt CAP_TABLE_CAPACITY (first_child e) ∧
  opt CAP_TABLE_CAPACITY (next_sibling e) ∧ (depth e ≤ MAX_DERIVATION_DEPTH)%N.
Global Instance CapSlot_typed : Typed CapSlot := λ s,
  has_type (cs_entry s) ∧ in_width 32 (cs_generation s) ∧ opt CAP_TABLE_CAPACITY (cs_next_free s).
Global Instance CapabilityTable_typed : Typed CapabilityTable := λ t,
  (has_type (cslots t) ∧ sized CAP_TABLE_CAPACITY (cslots t)) ∧ opt CAP_TABLE_CAPACITY (cfree_head t).

Global Instance Message_typed : Typed Message := λ m,
  in_width 64 (Ipc.label m) ∧ let '(a, b, c) := params m in in_width 64 a ∧ in_width 64 b ∧ in_width 64 c.
Global Instance EndpointState_typed : Typed EndpointState := λ s,
  match s with
  | Idle | RecvWaiting => True
  | SendPending msg cap | RecvComplete msg cap => has_type msg ∧ has_type cap
  end.
Global Instance IpcQueues_typed : Typed IpcQueues := λ q,
  (has_type (states q) ∧ sized OBJECTS (states q)) ∧
  Forall (in_width 32) (slot_generations q) ∧ sized OBJECTS (slot_generations q).
Global Instance RecvOutcome_typed : Typed RecvOutcome := λ o,
  match o with Received msg cap => has_type msg ∧ has_type cap | Pending => True end.

Global Instance SchedQueue_typed : Typed SchedQueue := λ q,
  (has_type (buf q) ∧ sized OBJECTS (buf q)) ∧ (head q < OBJECTS)%N ∧ (len q ≤ OBJECTS)%N.
Global Instance TaskState_typed : Typed TaskState := λ st,
  match st with TBlocked ep => has_type ep | _ => True end.

(** ** Typing computations *)

(** On a state with [P], [m] leaves one with [P], and what it returns has [R]. *)
Definition keeps {S E A} (P : S → Prop) (R : A → Prop) (m : M S E A) : Prop := ∀ s,
  P s →
  match m s with Done a s' => P s' ∧ R a | Fail _ s' => P s' | Panic | Diverge => True end.

Section rules.
Context {S E : Type} (P : S → Prop).

Lemma keeps_weaken {A} (Q R : A → Prop) (m : M S E A) : keeps P Q m → (∀ a, Q a → R a) → keeps P R m.
Proof. intros Hm HQ s Hs. specialize (Hm s Hs). destruct (m s); naive_solver. Qed.

Lemma keeps_ret {A} (R : A → Prop) a : R a → keeps P R (mret a : M S E A).
Proof. by intros Ha s Hs. Qed.

Lemma keeps_bind {A B} (Q : A → Prop) (R : B → Prop) (m : M S E A) (f : A → M S E B) :
  keeps P Q m → (∀ a, Q a → keeps P R (f a)) → keeps P R (m ≫= f).
Proof.
  intros Hm Hf s Hs. specialize (Hm s Hs). unfold mbind, M_bind. destruct (m s) as [a s'| | |]; [|done..].
  destruct Hm as [Hs' Ha]. apply (Hf a Ha s' Hs').
Qed.

Lemma keeps_throw {A} (R : A → Prop) e : keeps P R (throw e : M S E A).
Proof. by intros s Hs. Qed.
Lemma keeps_panic {A} (R : A → Prop) : keeps P R (panic : M S E A).
Proof. by intros s Hs. Qed.
Lemma keeps_diverge {A} (R : A → Prop) : keeps P R (diverge : M S E A).
Proof. by intros s Hs. Qed.
Lemma keeps_gets {A} (f : S → A) : keeps P (λ a, ∃ s, P s ∧ a = f s) (gets f : M S E A).
Proof. intros s Hs. split; [done|]. by exists s. Qed.
Lemma keeps_modify (f : S → S) : (∀ s, P s → P (f s)) → keeps P (λ _, True) (modify f : M S E unit).
Proof. intros Hf s Hs. split; [|done]. by apply Hf. Qed.
Lemma keeps_ok_or {A} (e : E) (o : option A) : keeps P (λ a, o = Some a) (ok_or e o).
Proof. by destruct o; intros s Hs. Qed.
Lemma keeps_unwrap {A} (o : option A) : keeps P (λ a, o = Some a) (unwrap_or_panic o : M S E A).
Proof. by destruct o; intros s Hs. Qed.
Lemma keeps_try {A} (r : result A E) : keeps P (λ a, r = Ok a) (try_ r : M S E A).
Proof. by destruct r; intros s Hs. Qed.
Lemma keeps_debug_assert `{BuildProfile} b : keeps P (λ _, True) (debug_assert b : M S E unit).
Proof. intros s Hs. unfold debug_assert. by destruct (_ && _). Qed.
Lemma keeps_map_err {E' A} (f : E' → E) (R : A → Prop) (m : M S E' A) :
  keeps P R m → keeps P R (map_err f m).
Proof. intros Hm s Hs. specialize (Hm s Hs). unfold map_err. by destruct (m s). Qed.
Lemma keeps_or_panic {E' A} (R : A → Prop) (m : M S E' A) : keeps P R m → keeps P R (or_panic m : M S E A).
Proof. intros Hm s Hs. specialize (Hm s Hs). unfold or_panic. by destruct (m s). Qed.

Lemma keeps_zoom {T A} (P' : T → Prop) (R : A → Prop) (get : S → T) (put : T → S → S) (m : M T E A) :
  (∀ s, P s → P' (get s)) → (∀ s t, P s → P' t → P (put t s)) → keeps P' R m → keeps P R (zoom get put m).
Proof.
  intros Hget Hput Hm s Hs. specialize (Hm (get s) (Hget s Hs)). unfold zoom. destruct (m (get s)); naive_solver.
Qed.

End rules.

Create HintDb typed.
#[export] Hint Resolve keeps_ret keeps_throw keeps_panic keeps_diverge keeps_gets keeps_ok_or keeps_unwrap
  keeps_try keeps_debug_assert : typed.

(** The first step of a computation has the given type. *)
Tactic Notation "after" uconstr(l) := eapply keeps_bind; [apply l|].

Ltac ret := apply keeps_ret; cbv beta; done.

(** ** Data *)

Section data.
Context {A : Type} `{Typed A}.

Lemma typed_aget (l : list A) i x : has_type l → aget l i = Some x → has_type x.
Proof. unfold aget. intros Hl Hx. eapply Forall_lookup_1; [exact Hl|exact Hx]. Qed.

Lemma typed_aset (l : list A) i x : has_type l → has_type x → has_type (aset l i x).
Proof. unfold aset. intros Hl Hx. by apply Forall_insert. Qed.

Lemma array_aset n (l : list A) i x :
  has_type l ∧ sized n l → has_type x → has_type (aset l i x) ∧ sized n (aset l i x).
Proof. intros [Hl Hn] Hx. split; [by apply typed_aset|by apply sized_aset]. Qed.

Lemma typed_Some (x : A) : has_type x → has_type (Some x).
Proof. by intros Hx ? [= <-]. Qed.

Lemma typed_None : has_type (@None A).
Proof. by intros ?. Qed.
End data.

Lemma opt_Some n x : (x < n)%N → opt n (Some x).
Proof. by intros Hx ? [= <-]. Qed.
Lemma opt_None n : opt n None.
Proof. by intros ?. Qed.
#[export] Hint Resolve typed_Some typed_None opt_Some opt_None wrapping_add_in_width wrap_in_width array_aset : typed.

(** ** Capability tables *)

Section tables.
Abbreviation PT := (has_type (A := CapabilityTable)).

Lemma slot_at_typed i : keeps PT has_type (slot_at i).
Proof.
  unfold slot_at. after keeps_gets. intros ss (t & Ht & ->). eapply keeps_weaken; [apply keeps_unwrap|].
  intros s Hs. apply (typed_aget (cslots t) i); [apply Ht|exact Hs].
Qed.

Lemma entry_at_typed i : keeps PT has_type (entry_at i).
Proof. unfold entry_at. after slot_at_typed. intros s Hs. apply keeps_ret, Hs. Qed.
#[local] Hint Resolve slot_at_typed entry_at_typed : typed.

Lemma put_entry_typed i e : has_type e → keeps PT (λ _, True) (put_entry i e).
Proof.
  intros He. unfold put_entry. after slot_at_typed. intros s Hs.
  apply keeps_modify. intros t [Ht Hf]. split; [|done]. apply array_aset; [done|]. split; [done|apply Hs].
Qed.
#[local] Hint Resolve put_entry_typed : typed.

Lemma update_entry_typed i f : (∀ e, has_type e → has_type (f e)) → keeps PT (λ _, True) (update_entry i f).
Proof.
  intros Hf. unfold update_entry. after entry_at_typed. intros [e|] He; [|ret].
  apply put_entry_typed, typed_Some, Hf. by apply He.
Qed.

Lemma first_child_typed c i : opt CAP_TABLE_CAPACITY c → keeps PT (λ _, True) (update_entry i (set_first_child c)).
Proof. intros Hc. apply update_entry_typed. intros e (? & ? & ? & ? & ?). by split_and!. Qed.
Lemma next_sibling_typed c i : opt CAP_TABLE_CAPACITY c → keeps PT (λ _, True) (update_entry i (set_next_sibling c)).
Proof. intros Hc. apply update_entry_typed. intros e (? & ? & ? & ? & ?). by split_and!. Qed.
#[local] Hint Resolve first_child_typed next_sibling_typed : typed.

Lemma pop_free_typed : keeps PT (opt CAP_TABLE_CAPACITY) pop_free.
Proof.
  unfold pop_free. after keeps_gets. intros hd (t & Ht & ->).
  destruct (cfree_head t) as [head|] eqn:Hh; [|ret].
  assert (head < CAP_TABLE_CAPACITY)%N as Hw by by apply Ht.
  after slot_at_typed. intros s (He & Hg & Hn).
  eapply keeps_bind; [apply keeps_modify; intros t' [? ?]; by split|]. intros _ _.
  eapply keeps_bind; [apply keeps_modify; intros t' [? ?]|intros _ _; apply keeps_ret; by apply opt_Some].
  split; [|done]. apply array_aset; [done|]. split_and!; [done|done|by intros ?].
Qed.

Lemma free_slot_typed i : (i < CAP_TABLE_CAPACITY)%N → keeps PT (λ _, True) (free_slot i).
Proof.
  intros Hi. unfold free_slot. after keeps_gets. intros hd (t & Ht & ->).
  eapply keeps_bind; [apply keeps_modify; intros t' [? ?]; split; [done|by apply opt_Some]|]. intros _ _.
  after keeps_gets. intros ss (t' & Ht' & ->).
  destruct (aget (cslots t') i) as [slot|]; [|ret]. apply keeps_modify. intros t2 [Ht2 ?].
  split; [|done]. apply array_aset; [apply Ht'|]. split; [by intros ?|]. split; [apply wrapping_add_in_width|apply Ht].
Qed.
#[local] Hint Resolve pop_free_typed free_slot_typed : typed.

Lemma unlink_walk_typed fuel cursor i next : opt CAP_TABLE_CAPACITY next → keeps PT (λ _, True) (unlink_walk fuel cursor i next).
Proof.
  intros Hn. revert cursor. induction fuel as [|fuel IH]; intros [c|]; cbn [unlink_walk]; auto with typed.
  after entry_at_typed. intros e _. case_decide; auto with typed.
Qed.

Lemma unlink_from_siblings_typed i : keeps PT (λ _, True) (unlink_from_siblings i).
Proof.
  unfold unlink_from_siblings. after entry_at_typed. intros o Ho.
  after keeps_ok_or. intros e ->. destruct (Ho e eq_refl) as (_ & _ & _ & Hn & _).
  destruct (parent e) as [p|]; [|ret].
  after entry_at_typed. intros o2 _. after keeps_ok_or. intros pe _.
  case_decide; [by apply first_child_typed|]. by apply unlink_walk_typed.
Qed.
#[local] Hint Resolve unlink_from_siblings_typed : typed.

(** A handle that resolves names a slot, whatever its index field was. *)
Lemma resolve_handle_typed (t : CapabilityTable) h i :
  has_type t → resolve_handle t h = Ok i → i = cap_index h ∧ (i < CAP_TABLE_CAPACITY)%N.
Proof.
  unfold resolve_handle. intros [[_ Ht] _]. destruct (aget (cslots t) (cap_index h)) as [s|] eqn:Hs; [|done].
  repeat case_match; try done. intros [= <-]. split; [done|]. by apply (sized_aget _ _ _ _ Ht Hs).
Qed.

Lemma entry_of_typed (t : CapabilityTable) h e :
  has_type t → entry_of t h = Ok e → has_type e ∧ (cap_index h < CAP_TABLE_CAPACITY)%N.
Proof.
  unfold entry_of. intros Ht. destruct (resolve_handle t h) as [i|] eqn:Hi; [|done].
  apply resolve_handle_typed in Hi as [-> Hi]; [|done].
  destruct (aget (cslots t) _) as [s|] eqn:Hs; [|done]. cbn [mbind option_bind].
  destruct (cs_entry s) as [e'|] eqn:He; [|done]. intros [= <-].
  destruct Ht as [[Ht _] _], (typed_aget _ _ _ Ht Hs) as [Hse _]. split; [by apply Hse|done].
Qed.

Lemma lookup_cap_typed (t : CapabilityTable) h c : has_type t → lookup_cap t h = Ok c → has_type c.
Proof.
  unfold lookup_cap. intros Ht. destruct (entry_of t h) as [e|] eqn:He; [|done]. intros [= <-].
  by apply (entry_of_typed _ _ _ Ht He).
Qed.

Lemma push_siblings_typed `{BuildProfile} room child desc :
  opt CAP_TABLE_CAPACITY child → Forall (λ i, i < CAP_TABLE_CAPACITY)%N desc → keeps PT (Forall (λ i, i < CAP_TABLE_CAPACITY)%N) (push_siblings room child desc).
Proof.
  revert child desc. induction room as [|room IH]; intros [c|] desc Hc Hd; cbn [push_siblings];
    try ret.
  - after keeps_debug_assert. intros _ _. ret.
  - after entry_at_typed. intros e He. apply IH.
    + destruct e as [e|]; [|by intros ?]. by apply (He e eq_refl).
    + apply Forall_app_2; [done|]. constructor; [by apply Hc|done].
Qed.

Lemma expand_typed `{BuildProfile} todo scan desc :
  Forall (λ i, i < CAP_TABLE_CAPACITY)%N desc → keeps PT (Forall (λ i, i < CAP_TABLE_CAPACITY)%N) (expand todo scan desc).
Proof.
  revert scan desc. induction todo as [|todo IH]; intros scan desc Hd; cbn [expand]; [ret|].
  destruct (aget desc scan) as [i|]; [|ret].
  after entry_at_typed. intros e He.
  eapply keeps_bind; [apply push_siblings_typed; [|done]|intros; by apply IH].
  destruct e as [e|]; [|by intros ?]. by apply (He e eq_refl).
Qed.

Lemma free_slots_typed l : Forall (λ i, i < CAP_TABLE_CAPACITY)%N l → keeps PT (λ _, True) (free_slots l).
Proof.
  induction l as [|i l IH]; intros Hl; cbn [free_slots]; [ret|]. apply Forall_cons in Hl as [Hi Hl].
  eapply keeps_bind; [by apply free_slot_typed|]. auto.
Qed.

Lemma typed_entry cap p f n d :
  has_type cap → opt CAP_TABLE_CAPACITY p → opt CAP_TABLE_CAPACITY f → opt CAP_TABLE_CAPACITY n →
  (d ≤ MAX_DERIVATION_DEPTH)%N → has_type (mkEntry cap p f n d).
Proof. intros ?????. by split_and!. Qed.

(** The public operations. *)
Lemma insert_root_typed cap : has_type cap → keeps PT has_type (insert_root cap).
Proof.
  intros Hc. unfold insert_root. after pop_free_typed. intros o Ho.
  after keeps_ok_or. intros i ->. after slot_at_typed. intros s Hs.
  eapply keeps_bind.
  - apply put_entry_typed, typed_Some, typed_entry; done || by intros ?.
  - intros _ _. apply keeps_ret. split; [by apply Ho|apply Hs].
Qed.

Lemma cap_copy_typed src r : has_type r → keeps PT has_type (cap_copy src r).
Proof.
  intros Hr. unfold cap_copy. after keeps_gets. intros ? (t & Ht & ->).
  after keeps_try. intros e He.
  destruct (entry_of_typed _ _ _ Ht He) as [([_ Ho] & Hp & _ & _ & Hd) _]. cbv zeta.
  destruct (negb _); [auto with typed|]. destruct (negb _); [auto with typed|].
  after pop_free_typed. intros o Hi. after keeps_ok_or. intros i ->.
  specialize (Hi i eq_refl). after slot_at_typed. intros s Hs.
  eapply (keeps_bind _ (opt CAP_TABLE_CAPACITY)).
  { destruct (parent e) as [p|]; [|apply keeps_ret; by intros ?].
    after entry_at_typed. intros [pe|] Hpe; [|apply keeps_throw].
    apply keeps_ret. by apply (Hpe pe eq_refl). }
  intros fc Hfc. eapply keeps_bind.
  { apply put_entry_typed, typed_Some, typed_entry; done || by intros ?. }
  intros _ _. eapply (keeps_bind _ (λ _, True)).
  { destruct (parent e); auto with typed. }
  intros _ _. apply keeps_ret. split; [done|apply Hs].
Qed.

(** The depth check is what keeps the narrowing to [u8] exact. *)
Lemma derived_depth d :
  ¬ (MAX_DERIVATION_DEPTH < saturating_add 64 d 1)%N → (wrap 8 (saturating_add 64 d 1) ≤ MAX_DERIVATION_DEPTH)%N.
Proof.
  intros Hd%N.nlt_ge. rewrite wrap_small; [done|]. eapply N.le_lt_trans; [exact Hd|]. by vm_compute.
Qed.

Lemma cap_derive_typed src r obj : has_type r → has_type obj → keeps PT has_type (cap_derive src r obj).
Proof.
  intros Hr Hobj. unfold cap_derive. after keeps_gets. intros ? (t & Ht & ->).
  after keeps_try. intros e He. destruct (entry_of_typed _ _ _ Ht He) as [_ Hsrc]. cbv zeta.
  destruct (negb _); [auto with typed|]. destruct (negb _); [auto with typed|].
  case_decide as Hdepth; [auto with typed|].
  after pop_free_typed. intros o Hi. after keeps_ok_or. intros i ->.
  specialize (Hi i eq_refl). after slot_at_typed. intros s Hs.
  after entry_at_typed. intros pe Hpe. eapply (keeps_bind _ (opt CAP_TABLE_CAPACITY)).
  { destruct pe as [pe|]; [|apply keeps_throw]. apply keeps_ret. by apply (Hpe pe eq_refl). }
  intros fc Hfc. eapply keeps_bind.
  { apply put_entry_typed, typed_Some, typed_entry; [done| |by intros ?|done|by apply derived_depth].
    by apply opt_Some. }
  intros _ _. eapply keeps_bind; [apply first_child_typed; by apply opt_Some|].
  intros _ _. apply keeps_ret. split; [done|apply Hs].
Qed.

Lemma cap_revoke_typed `{BuildProfile} src : keeps PT (λ _, True) (cap_revoke src).
Proof.
  unfold cap_revoke. after keeps_gets. intros ? (t & Ht & ->).
  after keeps_try. intros i _. after entry_at_typed. intros o1 _.
  after keeps_ok_or. intros e1 _. destruct (negb _); [auto with typed|].
  after entry_at_typed. intros o Ho. after keeps_ok_or. intros e ->.
  eapply keeps_bind; [apply push_siblings_typed; [by apply (Ho e eq_refl)|done]|]. intros desc Hd.
  eapply keeps_bind; [by apply expand_typed|]. intros desc' Hd'.
  eapply keeps_bind; [by apply free_slots_typed|]. intros _ _. apply first_child_typed. by intros ?.
Qed.

Lemma cap_drop_typed h : keeps PT (λ _, True) (cap_drop h).
Proof.
  unfold cap_drop. after keeps_gets. intros ? (t & Ht & ->).
  after keeps_try. intros i [_ Hi]%resolve_handle_typed; [|done].
  after entry_at_typed. intros o _. after keeps_ok_or. intros e _.
  case_decide; [auto with typed|]. after unlink_from_siblings_typed. auto with typed.
Qed.

Lemma cap_take_typed h : keeps PT has_type (cap_take h).
Proof.
  unfold cap_take. after keeps_gets. intros ? (t & Ht & ->).
  after keeps_try. intros i [_ Hi]%resolve_handle_typed; [|done].
  after entry_at_typed. intros o _. after keeps_ok_or. intros e _.
  case_decide; [auto with typed|]. after unlink_from_siblings_typed. intros _ _.
  after entry_at_typed. intros o2 Ho2.
  eapply keeps_bind; [apply put_entry_typed; by intros ?|]. intros _ _.
  after keeps_ok_or. intros e2 ->. eapply keeps_bind; [by apply free_slot_typed|].
  intros _ _. apply keeps_ret. by apply (Ho2 e2 eq_refl).
Qed.
End tables.

(** ** Arenas *)

Section arenas.
Context {A : Type} `{Typed A}.
Abbreviation PA := (has_type (A := Arena A)).

Lemma typed_slot e g n : has_type e → in_width 32 g → opt OBJECTS n → has_type (mkSlot (T := A) e g n).
Proof. intros ???. by split_and!. Qed.

Lemma allocate_typed `{BuildProfile} v : has_type v → keeps PA has_type (allocate v).
Proof.
  intros Hv. unfold allocate. after keeps_gets. intros hd (a & Ha & ->). after keeps_ok_or. intros head Hh.
  after keeps_gets. intros n _. after keeps_debug_assert. intros _ _. after keeps_gets. intros ss (a2 & Ha2 & ->).
  after keeps_ok_or. intros slot Hs. destruct (typed_aget _ _ _ (proj1 (proj1 Ha2)) Hs) as (_ & Hg & Hn).
  eapply keeps_bind.
  { apply keeps_modify. intros _ _. split; [|done]. apply array_aset; [apply Ha2|].
    apply typed_slot; [by apply typed_Some|done|by intros ?]. }
  intros _ _. apply keeps_ret. split; [by apply Ha|done].
Qed.

Lemma free_typed id : has_type id → keeps PA has_type (free id).
Proof.
  intros Hid. unfold free. after keeps_gets. intros ss (a & Ha & ->). after keeps_ok_or. intros slot Hs.
  destruct (typed_aget _ _ _ (proj1 (proj1 Ha)) Hs) as (He & _ & _). case_decide; [apply keeps_throw|].
  after keeps_ok_or. intros v Hv. after keeps_gets. intros hd (a2 & Ha2 & ->).
  eapply keeps_bind.
  { apply keeps_modify. intros _ _. split; [|apply opt_Some, Hid]. apply array_aset; [apply Ha|].
    apply typed_slot; [by intros ?|apply wrapping_add_in_width|apply Ha2]. }
  intros _ _. apply keeps_ret. by apply He.
Qed.

Lemma get_typed a id v : PA a → get a id = Some v → has_type v.
Proof.
  unfold get. intros [[Ha _] _]. destruct (aget (slots a) (index id)) as [s|] eqn:Hs; [|done].
  cbn [mbind option_bind]. case_decide; [done|]. apply (typed_aget _ _ _ Ha Hs).
Qed.

Lemma get_mut_typed a id v put : PA a → get_mut a id = Some (v, put) →
  has_type v ∧ ∀ v', has_type v' → PA (put v').
Proof.
  unfold get_mut. intros [[Ha Hc] Hf]. destruct (aget (slots a) (index id)) as [s|] eqn:Hs; [|done].
  cbn [mbind option_bind]. case_decide; [done|]. destruct (typed_aget _ _ _ Ha Hs) as (He & Hg & Hn).
  destruct (entry s) as [v0|]; [|done]. cbn [mbind option_bind]. intros [= -> <-]. split; [by apply He|].
  intros v' Hv'. split; [|done]. apply array_aset; [done|]. apply typed_slot; [by apply typed_Some|done|done].
Qed.
End arenas.

(** ** IPC *)

Section ipc.
Context `{BuildProfile}.
Abbreviation PQ := (has_type (A := IpcQueues)).

Lemma reset_typed h : has_type h → keeps PQ (λ _, True) (reset_if_stale_generation h).
Proof.
  intros Hh. unfold reset_if_stale_generation. after keeps_gets. intros gens _. after keeps_unwrap. intros g _.
  case_decide; [|ret]. after keeps_gets. intros ss _. after keeps_unwrap. intros s _.
  after keeps_debug_assert. intros _ _.
  eapply keeps_bind; [apply keeps_modify; intros q [? ?]; split; [by apply array_aset|done]|]. intros _ _.
  eapply keeps_bind; [apply keeps_modify; intros q [? [? ?]]; split; [done|]|intros; ret].
  split; [|by apply sized_aset]. apply Forall_insert; [done|]. apply Hh.
Qed.

Lemma state_of_typed h : has_type h → keeps PQ (λ _, True) (state_of h).
Proof.
  intros Hh. unfold state_of. eapply keeps_bind; [by apply reset_typed|]. intros i _. after keeps_gets.
  intros ss _. after keeps_unwrap. intros; ret.
Qed.

Lemma peek_state_typed h : has_type h → keeps PQ has_type (peek_state h).
Proof.
  intros Hh. unfold peek_state. eapply keeps_bind; [by apply reset_typed|]. intros i _. after keeps_gets.
  intros ss (q & Hq & ->). eapply keeps_weaken; [apply keeps_unwrap|].
  intros s Hs. apply (typed_aget (states q) i); [apply Hq|exact Hs].
Qed.

Lemma store_typed i s : has_type s → keeps PQ (λ _, True) (Ipc.store i s).
Proof. intros Hs. apply keeps_modify. intros q [? ?]. split; [by apply array_aset|done]. Qed.

Lemma replace_typed i s : has_type s → keeps PQ has_type (replace i s).
Proof.
  intros Hs. unfold replace. after keeps_gets. intros ss (q & Hq & ->). after keeps_unwrap. intros old Ho.
  eapply keeps_bind; [by apply store_typed|]. intros _ _. apply keeps_ret.
  apply (typed_aget (states q) i); [apply Hq|exact Ho].
Qed.

Global Instance Ctx_typed : Typed Ctx := λ c,
  has_type (ep_arena c) ∧ has_type (queues c) ∧ has_type (caller_table c).
Abbreviation PC := (has_type (A := Ctx)).

Lemma on_queues_typed {A} (R : A → Prop) m : keeps PQ R m → keeps PC R (on_queues m).
Proof. apply keeps_zoom; [by intros c (_ & ? & _)|]. intros c q (? & _ & ?) ?. by split_and!. Qed.

Lemma on_table_typed {A} (R : A → Prop) m :
  keeps (has_type (A := CapabilityTable)) R m → keeps PC R (on_table m).
Proof. apply keeps_zoom; [by intros c (_ & _ & ?)|]. intros c q (? & ? & _) ?. by split_and!. Qed.

Lemma validate_ep_cap_typed t x r h : has_type t → validate_ep_cap t x r = Ok h → has_type h.
Proof.
  unfold validate_ep_cap. intros Ht. destruct (lookup_cap t x) as [c|] eqn:Hc; [|done].
  destruct (lookup_cap_typed _ _ _ Ht Hc) as [_ Ho]. repeat case_match; try done. intros [= <-]. exact Ho.
Qed.

Lemma validate_notif_cap_typed t x h : has_type t → validate_notif_cap t x = Ok h → has_type h.
Proof.
  unfold validate_notif_cap. intros Ht. destruct (lookup_cap t x) as [c|] eqn:Hc; [|done].
  destruct (lookup_cap_typed _ _ _ Ht Hc) as [_ Ho]. repeat case_match; try done. intros [= <-]. exact Ho.
Qed.

Lemma ipc_send_typed x msg transfer :
  has_type msg → keeps PC (λ _, True) (ipc_send x msg transfer).
Proof.
  intros Hm. unfold ipc_send. after keeps_gets. intros ? (c & Hc & ->). after keeps_try. intros h Hh.
  apply validate_ep_cap_typed in Hh; [|apply Hc]. after keeps_try. intros _ _. after keeps_gets. intros ar _.
  after keeps_ok_or. intros _ _. eapply keeps_bind; [by apply on_queues_typed, peek_state_typed|]. intros s _.
  destruct (holds_message s); [apply keeps_throw|]. eapply (keeps_bind _ has_type).
  { apply on_table_typed. unfold take_cap_if_some. destruct transfer as [x'|]; [|apply keeps_ret; by intros ?].
    eapply keeps_bind; [apply keeps_map_err, cap_take_typed|]. intros cap Hcap.
    apply keeps_ret. by apply typed_Some. }
  intros owned Ho. eapply keeps_bind; [by apply on_queues_typed, state_of_typed|]. intros i _.
  eapply keeps_bind; [by apply on_queues_typed, replace_typed|]. intros old _.
  destruct old; [|apply keeps_panic| |apply keeps_panic];
    (eapply keeps_bind; [by apply on_queues_typed, store_typed|]; intros; ret).
Qed.

Lemma ipc_recv_typed x : keeps PC has_type (ipc_recv x).
Proof.
  unfold ipc_recv. after keeps_gets. intros ? (c & Hc & ->). after keeps_try. intros h Hh.
  apply validate_ep_cap_typed in Hh; [|apply Hc]. after keeps_gets. intros ar _.
  after keeps_ok_or. intros _ _. eapply keeps_bind; [by apply on_queues_typed, peek_state_typed|]. intros s _.
  cbv zeta. destruct (_ && _); [apply keeps_throw|].
  eapply keeps_bind; [by apply on_queues_typed, state_of_typed|]. intros i _.
  eapply keeps_bind; [by apply on_queues_typed, replace_typed|]. intros old Hold.
  assert (∀ msg cap, has_type msg → has_type cap →
    keeps PC has_type (xfer ← on_table (install_cap_if_some cap); mret (Received msg xfer))) as Hrecv.
  { intros msg cap Hm Hcap. eapply (keeps_bind _ has_type); [|intros xf Hxf; apply keeps_ret; by split].
    apply on_table_typed. unfold install_cap_if_some. destruct cap as [cap|]; [|apply keeps_ret; by intros ?].
    eapply keeps_bind; [apply keeps_map_err, insert_root_typed; by apply Hcap|]. intros xf Hxf.
    apply keeps_ret. by intros ? [= <-]. }
  destruct old as [|msg cap| |msg cap]; [| |..]; try (apply Hrecv; apply Hold).
  - eapply keeps_bind; [by apply on_queues_typed, store_typed|]. intros; ret.
  - eapply keeps_bind; [by apply on_queues_typed, store_typed|]. intros. apply keeps_throw.
Qed.

Lemma ipc_notify_typed x (t : CapabilityTable) b :
  has_type t → in_width 64 b → keeps (has_type (A := NotificationArena)) (λ _, True) (ipc_notify x t b).
Proof.
  intros Ht Hb. unfold ipc_notify. after keeps_try. intros h _. after keeps_gets. intros ? (a & Ha & ->).
  destruct (get_mut _ _) as [[n put]|] eqn:Hg; [|apply keeps_throw].
  destruct (get_mut_typed _ _ _ _ Ha Hg) as [Hn Hput]. apply keeps_modify. intros _ _. apply Hput.
  by apply lor_in_width.
Qed.
End ipc.

(** ** The scheduler *)

Section sched.
Context {S : Type} `{!Cpu S, !ContextSwitch S} `{BuildProfile}.
Abbreviation PR := (has_type (A := SchedQueue)).

Global Instance Scheduler_typed : Typed (Scheduler S) := λ s,
  has_type (ready s) ∧ (has_type (task_states s) ∧ sized OBJECTS (task_states s)) ∧
  (has_type (task_handles s) ∧ sized OBJECTS (task_handles s)) ∧ has_type (current s) ∧
  sized OBJECTS (contexts s).
Abbreviation PS := (has_type (A := Scheduler S)).

(** The full check of [enqueue] and the empty check of [dequeue] keep the length
    between 0 and the capacity, where the increment and the decrement are exact. *)
Lemma objects_in_width w x : (OBJECTS < 2 ^ w)%N → (x ≤ OBJECTS)%N → in_width w x.
Proof. unfold in_width. lia. Qed.

Lemma enqueue_typed h : has_type h → keeps PR (λ _, True) (enqueue h).
Proof.
  intros Hh q ((Hb & Hn) & Hhd & Hl). unfold enqueue. monad. unfold id, queue_capacity. rewrite Hn.
  case_decide as Hfull; [done|]. destruct (aget (buf q) _) as [o|]; [|done]. split; [|done].
  split; [by apply array_aset; [|apply typed_Some]|]. split; [done|]. cbn.
  rewrite wrapping_add_small; [lia|]. apply objects_in_width; [done|lia].
Qed.

Lemma dequeue_typed {E} : keeps (E := E) PR has_type dequeue.
Proof.
  intros q ((Hb & Hn) & Hhd & Hl). unfold dequeue. monad. unfold id, queue_capacity. rewrite Hn.
  case_decide as Hempty; [split; [by split_and!|by intros ?]|].
  destruct (aget (buf q) (head q)) as [o|] eqn:Ho; [|done]. split; [|by apply (typed_aget (buf q) (head q))].
  split; [by apply array_aset; [|apply typed_None]|]. split; [by apply N.mod_lt|]. cbn.
  unfold wrapping_sub. replace (len q + 2 ^ 64 - 1)%N with (len q - 1 + 1 * 2 ^ 64)%N by lia.
  unfold wrap. rewrite N.Div0.mod_add, N.mod_small; [lia|]. apply objects_in_width; [done|lia].
Qed.

Lemma on_ready_typed {E A} (R : A → Prop) (m : M SchedQueue E A) :
  keeps PR R m → keeps PS R (on_ready m).
Proof. apply keeps_zoom; [by intros s (? & _)|]. intros s q (_ & ? & ? & ? & ?) ?. done. Qed.

Lemma set_state_typed i st : has_type st → keeps PS (λ _, True) (set_state i st).
Proof.
  intros Hst. unfold set_state. after keeps_gets. intros sts _. after keeps_unwrap. intros o _.
  apply keeps_modify. intros s (? & ? & ? & ?). do 2 (split; [try done; by apply array_aset|]). done.
Qed.

Lemma set_current_typed c : has_type c → keeps PS (λ _, True) (set_current c).
Proof. intros Hc. apply keeps_modify. intros s (? & ? & ? & _ & ?). done. Qed.

Lemma set_context_typed i c : keeps PS (λ _, True) (set_context i c).
Proof.
  unfold set_context. after keeps_gets. intros sts _. after keeps_unwrap. intros o _.
  apply keeps_modify. intros s (? & ? & ? & ? & ?). do 4 (split; [done|]). by apply sized_aset.
Qed.

Lemma typed_ready : has_type TReady.
Proof. done. Qed.

Lemma yield_prelude_typed : keeps PS (λ _, True) yield_prelude.
Proof.
  unfold yield_prelude. after keeps_gets. intros ? (s & Hs & ->). after keeps_ok_or. intros h Hh.
  assert (has_type h) as Ht by by apply Hs. cbv zeta.
  eapply keeps_bind; [by apply set_state_typed|]. intros _ _.
  eapply keeps_bind; [by apply keeps_or_panic, on_ready_typed, enqueue_typed|]. intros _ _.
  eapply keeps_bind; [by apply on_ready_typed, dequeue_typed|]. intros [n|] Hn; [|ret].
  case_decide; [|ret]. eapply keeps_bind; [by apply set_state_typed|]. intros _ _.
  eapply keeps_bind; [by apply set_current_typed|]. intros; ret.
Qed.

Lemma block_prelude_typed ep : has_type ep → keeps PS (λ _, True) (block_prelude ep).
Proof.
  intros Hep. unfold block_prelude. after keeps_gets. intros ? (s & Hs & ->). after keeps_ok_or. intros h Hh.
  assert (has_type h) as Ht by by apply Hs. cbv zeta. after keeps_gets. intros sts (s2 & Hs2 & ->).
  after keeps_unwrap. intros prior Hp. after keeps_debug_assert. intros _ _.
  eapply keeps_bind; [by apply set_state_typed|]. intros _ _.
  eapply keeps_bind; [apply set_current_typed; by intros ?|]. intros _ _.
  eapply keeps_bind; [by apply on_ready_typed, dequeue_typed|]. intros [n|] Hn.
  - eapply keeps_bind; [by apply set_state_typed|]. intros _ _.
    eapply keeps_bind; [by apply set_current_typed|]. intros; ret.
  - eapply keeps_bind; [apply set_state_typed|].
    { apply (typed_aget (task_states s2) (slot_index h)); [apply Hs2|exact Hp]. }
    intros _ _. eapply keeps_bind; [by apply set_current_typed, typed_Some|]. intros _ _. apply keeps_throw.
Qed.

Lemma unblock_scan_typed l ep : keeps PS (λ _, True) (unblock_scan l ep).
Proof.
  induction l as [|i l IH]; cbn [unblock_scan]; [ret|]. after keeps_gets. intros sts _. after keeps_unwrap.
  intros st _. destruct st; [exact IH..|]. case_decide; [|exact IH]. after keeps_gets. intros hs (s & Hs & ->).
  after keeps_unwrap. intros o Ho. destruct o as [h|]; [|exact IH].
  eapply keeps_bind; [by apply set_state_typed|]. intros _ _.
  apply keeps_or_panic, on_ready_typed, enqueue_typed.
  assert (has_type (Some h)) as Hh; [|by apply Hh].
  apply (typed_aget (task_handles s) i); [apply Hs|exact Ho].
Qed.

Lemma add_task_typed (cpu : S) h e st : has_type h → keeps PS (λ _, True) (add_task cpu h e st).
Proof.
  intros Hh. unfold add_task. cbv zeta. after keeps_gets. intros cs _. after keeps_unwrap. intros c _.
  after set_context_typed. intros _ _.
  eapply keeps_bind; [by apply keeps_map_err, on_ready_typed, enqueue_typed|]. intros _ _.
  eapply keeps_bind; [by apply set_state_typed|]. intros _ _. unfold set_handle. after keeps_gets. intros hs _.
  after keeps_unwrap. intros o _. apply keeps_modify. intros s (? & ? & ? & ? & ?).
  do 2 (split; [done|]). split; [|done]. apply array_aset; [done|by apply typed_Some].
Qed.

(** ** The bridge *)

Global Instance Kernel_typed : Typed (Kernel S) := λ k,
  has_type (k_sched k) ∧ has_type (k_arena k) ∧ has_type (k_queues k) ∧ ∀ tbl, has_type (k_tables k tbl).
Abbreviation PK := (has_type (A := Kernel S)).

(** A call that came back with an [R], or is suspended and will. *)
Definition control_typed {A} (R : A → Prop) (c : control (S := S) A) : Prop :=
  match c with Return a => R a | Switched m => keeps PK R m end.

Lemma on_sched_typed {E A} (R : A → Prop) (m : M (Scheduler S) E A) : keeps PS R m → keeps PK R (on_sched m).
Proof. apply keeps_zoom; [by intros k (? & _)|]. intros k s (_ & ? & ? & ?) ?. by split_and!. Qed.

Lemma on_cpu_typed {A} (f : S → A * S) : keeps PK (λ _, True) (on_cpu f).
Proof. intros k (? & ? & ? & ?). unfold on_cpu. destruct (f (k_cpu k)). split; [|done]. by split_and!. Qed.

Lemma on_ipc_typed {A} (R : A → Prop) tbl (m : M Ctx IpcError A) :
  keeps (has_type (A := Ctx)) R m → keeps PK R (on_ipc tbl m).
Proof.
  intros Hm. apply keeps_map_err. revert Hm. apply keeps_zoom.
  - intros k (_ & ? & ? & Ht). split_and!; [done..|]. apply Ht.
  - intros k c (? & _ & _ & Ht) (? & ? & ?). split_and!; [done..|]. intros tbl'. cbn. unfold set_table.
    by case_decide.
Qed.

Lemma switch_window_typed i j : keeps PK (λ _, True) (switch_window i j).
Proof.
  unfold switch_window. after keeps_debug_assert. intros _ _. after on_cpu_typed. intros g _.
  eapply (keeps_bind _ (λ _, True)); [|intros; ret]. unfold switch_slots.
  eapply (keeps_bind _ (λ _, True)).
  { apply on_sched_typed. eapply keeps_weaken; [apply keeps_gets|done]. }
  intros cs _. after keeps_unwrap. intros c1 _. after keeps_unwrap. intros c2 _. after on_cpu_typed. intros sv _.
  apply on_sched_typed, set_context_typed.
Qed.

Lemma yield_now_typed : keeps PK (control_typed (λ _, True)) yield_now.
Proof.
  unfold yield_now. eapply keeps_bind; [apply on_sched_typed, yield_prelude_typed|]. intros [[i j]|] _; [|ret].
  after switch_window_typed. intros g _. apply keeps_ret. apply on_cpu_typed.
Qed.

Lemma start_typed : keeps PK (λ _, True) start.
Proof.
  unfold start. eapply (keeps_bind _ (λ _, True)).
  { apply on_sched_typed. unfold start_prelude. eapply keeps_bind; [apply on_ready_typed, dequeue_typed|].
    intros [h|] Hh; [|apply keeps_panic]. eapply keeps_bind; [by apply set_state_typed|]. intros _ _.
    eapply keeps_bind; [by apply set_current_typed|]. intros; ret. }
  intros i _. after on_cpu_typed. intros g _. eapply (keeps_bind _ (λ _, True)).
  { apply on_sched_typed. eapply keeps_weaken; [apply keeps_gets|done]. }
  intros cs _. after keeps_unwrap. intros c _. after on_cpu_typed. intros; ret.
Qed.

Lemma resolve_ep_cap_typed t x h : has_type t → resolve_ep_cap t x = Ok h → has_type h.
Proof.
  unfold resolve_ep_cap. intros Ht. destruct (lookup_cap t x) as [c|] eqn:Hc; [|done].
  destruct (lookup_cap_typed _ _ _ Ht Hc) as [_ Ho]. repeat case_match; try done. intros [= <-]. exact Ho.
Qed.

Lemma ipc_send_and_yield_typed tbl x msg transfer :
  has_type msg →
  keeps PK (control_typed (λ _, True)) (ipc_send_and_yield tbl x msg transfer).
Proof.
  intros Hm. unfold ipc_send_and_yield. after keeps_gets. intros ? (k & Hk & ->). after keeps_try. intros h Hh.
  eapply keeps_bind; [by apply on_ipc_typed, ipc_send_typed|]. intros [] _; [|ret].
  eapply (keeps_bind _ (λ _, True)); [apply on_sched_typed, unblock_scan_typed|]. intros _ _.
  eapply keeps_bind; [apply yield_now_typed|]. intros [a|m] Hc; apply keeps_ret; [done|].
  cbn. eapply keeps_bind; [exact Hc|]. intros; ret.
Qed.

Lemma recv_resume_typed guard tbl x : keeps PK has_type (recv_resume guard tbl x).
Proof.
  unfold recv_resume. eapply (keeps_bind _ (λ _, True)); [apply on_cpu_typed|]. intros _ _.
  eapply keeps_bind; [apply on_ipc_typed, ipc_recv_typed|]. intros [msg cap|] Ho; [by apply keeps_ret|apply keeps_throw].
Qed.

Lemma ipc_recv_and_yield_typed tbl x : keeps PK (control_typed has_type) (ipc_recv_and_yield tbl x).
Proof.
  unfold ipc_recv_and_yield. after keeps_gets. intros ? (k & Hk & ->). after keeps_try. intros h Hh.
  apply resolve_ep_cap_typed in Hh; [|apply Hk].
  eapply keeps_bind; [apply on_ipc_typed, ipc_recv_typed|]. intros [msg cap|] Ho; [by apply keeps_ret|].
  eapply keeps_bind; [by apply on_sched_typed, block_prelude_typed|]. intros [i j] _.
  after switch_window_typed. intros g _. apply keeps_ret. apply recv_resume_typed.
Qed.
End sched.

(** ** The system *)

Global Instance kernel_op_typed : Typed kernel_op := λ o,
  match o with KSend _ _ msg _ => has_type msg | _ => True end.
Global Instance reply_typed : Typed reply := λ r, match r with RecvReply o => has_type o | _ => True end.
Global Instance result_typed {E} `{Typed A} : Typed (result A E) := λ r,
  match r with Ok a => has_type a | Err _ => True end.
Global Instance cap_op_typed : Typed cap_op := λ o,
  match o with
  | OpInsertRoot cap => has_type cap
  | OpCopy _ r => has_type r
  | OpDerive _ r o => has_type r ∧ has_type o
  | OpRevoke _ | OpDrop _ | OpTake _ => True
  end.
Global Instance cap_reply_typed : Typed cap_reply := λ r,
  match r with RHandle h => has_type h | RCap c => has_type c | _ => True end.

(** The calls of a trace pass well-typed words, rights and objects, and any
    handles; its replies are well-typed. *)
Definition call_typed (l : System.label) : Prop :=
  match l with Computes _ => True | Calls _ o _ _ | Resumes _ o _ _ => has_type o end.
Definition label_reply_typed (l : System.label) : Prop :=
  match l with
  | Computes _ | Calls _ _ SSwitch _ => True
  | Calls _ _ (SReturn r) _ | Resumes _ _ r _ => has_type r
  end.

Section system.
Context {S : Type} `{!Cpu S, !ContextSwitch S} `{profile : BuildProfile}.
Abbreviation PK := (has_type (A := Kernel S)).

Lemma invoke_typed (o : kernel_op) : has_type o → keeps PK (control_typed has_type) (invoke o).
Proof.
  assert (∀ A (f : A → reply) (R : A → Prop) c, (∀ a, R a → has_type (f a)) →
    control_typed R c → control_typed has_type (control_map (S := S) f c)) as Hmap.
  { intros A f R [a|m] Hf Hc; cbn in *; [by apply Hf|].
    eapply keeps_bind; [exact Hc|]. intros a Ha. apply keeps_ret. by apply Hf. }
  destruct o as [|tbl x msg transfer|tbl x]; cbn [invoke].
  - intros _. eapply keeps_bind; [apply yield_now_typed|]. intros c Hc. apply keeps_ret. by eapply Hmap.
  - intros Hm. eapply keeps_bind; [by apply ipc_send_and_yield_typed|]. intros c Hc.
    apply keeps_ret. by eapply Hmap.
  - intros _. eapply keeps_bind; [apply ipc_recv_and_yield_typed|]. intros c Hc. apply keeps_ret.
    eapply Hmap; [|exact Hc]. done.
Qed.

Record system_typed (y : System (S := S)) : Prop := {
  sty_kernel : has_type (sy_kernel y);
  sty_rest i s : sy_suspended y i = Some s → keeps PK has_type (rest s);
}.

Lemma sys_step_typed y l y' :
  sys_step y l y' → system_typed y → call_typed l → system_typed y' ∧ label_reply_typed l.
Proof.
  intros Hst [Hk Hr]. destruct Hst as [k sus h f Hc Hs|k sus h o a k' Hc Hs Hi|k sus h o e k' Hc Hs Hi|
    k sus h o m k' Hc Hs Hi|k sus h o m r k' Hc Hs Hi|k sus h o m e k' Hc Hs Hi]; cbn in *; intros Ho.
  - split; [|done]. by split.
  - pose proof (invoke_typed o Ho k Hk) as Ht. rewrite Hi in Ht. destruct Ht as [Hk' Ha].
    split; [by split|exact Ha].
  - pose proof (invoke_typed o Ho k Hk) as Ht. rewrite Hi in Ht. split; [by split|done].
  - pose proof (invoke_typed o Ho k Hk) as Ht. rewrite Hi in Ht. destruct Ht as [Hk' Hm].
    split; [|done]. split; [done|]. intros j s. cbn. unfold upd. case_decide; [|apply Hr].
    intros [= <-]. exact Hm.
  - pose proof (Hr _ _ Hs k Hk) as Ht. cbn in Ht. rewrite Hi in Ht. destruct Ht as [Hk' Ha].
    split; [|done]. split; [done|]. intros j s. cbn. unfold upd. case_decide; [done|apply Hr].
  - pose proof (Hr _ _ Hs k Hk) as Ht. cbn in Ht. rewrite Hi in Ht.
    split; [|done]. split; [done|]. intros j s. cbn. unfold upd. case_decide; [done|apply Hr].
Qed.

Lemma trace_typed y tr y' :
  trace sys_step y tr y' → system_typed y → Forall call_typed tr →
  system_typed y' ∧ Forall label_reply_typed tr.
Proof.
  induction 1 as [y|y tr y1 l y2 Htr IH Hst]; intros Hy Hl; [done|].
  apply Forall_app in Hl as [Hl1 Hl2]. apply Forall_cons in Hl2 as [Hl2 _].
  destruct (IH Hy Hl1) as [Hy1 Hr]. destruct (sys_step_typed _ _ _ Hst Hy1 Hl2) as [Hy2 Hr2].
  split; [done|]. apply Forall_app_2; [done|by constructor].
Qed.

Lemma exec_cap_typed (o : cap_op) (t t' : CapabilityTable) r :
  has_type o → has_type t → exec_cap o t = Some (r, t') → has_type t' ∧ has_type r.
Proof.
  assert (∀ A (f : A → cap_reply) (R : A → Prop) m, keeps has_type R m → (∀ a, R a → has_type (f a)) →
    has_type t → reply_of f (m t) = Some (r, t') → has_type t' ∧ has_type r) as Hgen.
  { intros A f R m Hm Hf Ht. specialize (Hm t Ht). unfold reply_of.
    destruct (m t) as [a t1|e t1| |]; [|intros [= <- <-]|done..]; [|by split].
    destruct Hm as [? ?]. intros [= <- <-]. split; [done|by apply Hf]. }
  intros Ho Ht. destruct o as [cap|h rr|h rr ob|h|h|h]; cbn [exec_cap].
  - eapply Hgen; [by apply insert_root_typed| |done]. done.
  - eapply Hgen; [by apply cap_copy_typed| |done]. done.
  - destruct Ho as (? & ?). eapply Hgen; [by apply cap_derive_typed| |done]. done.
  - eapply Hgen; [apply cap_revoke_typed| |done]. done.
  - eapply Hgen; [by apply cap_drop_typed| |done]. done.
  - eapply Hgen; [by apply cap_take_typed| |done]. done.
Qed.
End system.

(** ** The booted kernel *)

Lemma typed_array {A} `{Typed A} n (f : N → A) :
  (∀ i, (i < n)%N → has_type (f i)) → has_type (array_from_fn n f) ∧ sized n (array_from_fn n f).
Proof.
  intros Hf. split; [|apply length_array_from_fn]. apply Forall_lookup. intros i x Hx. unfold array_from_fn in Hx.
  rewrite list_lookup_fmap in Hx. apply fmap_Some in Hx as (j & Hj & ->).
  apply lookup_seq in Hj as [-> Hj]. apply Hf. lia.
Qed.

Lemma typed_replicate {A} `{Typed A} n (x : A) :
  has_type x → has_type (replicate (N.to_nat n) x) ∧ sized n (replicate (N.to_nat n) x).
Proof. intros Hx. split; [by apply Forall_replicate|apply sized_replicate]. Qed.

(** The links of a new free list: the next slot, if there is one. *)
Lemma next_slot_typed n i : (n < 2 ^ 16)%N → (i < n)%N →
  opt n (if decide (wrapping_add 64 i 1 < n)%N then Some (wrap 16 (wrapping_add 64 i 1)) else None).
Proof.
  intros Hn Hi. case_decide as Hl; [|by intros ?]. apply opt_Some.
  rewrite wrap_small; [done|]. unfold in_width. lia.
Qed.

Lemma arena_new_typed {A} `{Typed A} : has_type (new (T := A) OBJECTS).
Proof.
  split; [|by apply opt_Some].
  apply typed_array. intros i Hi. split_and!; [by intros ?|done|by apply next_slot_typed].
Qed.

Lemma table_new_typed : has_type table_new.
Proof.
  split; [|by apply opt_Some]. apply typed_array. intros i Hi.
  split_and!; [by intros ?|done|by apply next_slot_typed].
Qed.

Lemma queues_new_typed : has_type queues_new.
Proof. split; [by apply typed_array|]. split; [by apply Forall_replicate|apply sized_replicate]. Qed.

Lemma sched_new_typed {S} `{!Cpu S, !ContextSwitch S} : has_type (sched_new (S := S)).
Proof.
  split; [split; [by apply typed_replicate|done]|]. split; [by apply typed_replicate|].
  split; [by apply typed_replicate|]. split; [done|]. apply length_array_from_fn.
Qed.

Lemma expect_typed {T E A} (P : T → Prop) (R : A → Prop) (c : M T E A) s a s' :
  keeps P R c → P s → expect c s = Some (a, s') → P s' ∧ R a.
Proof. intros Hc Hs. specialize (Hc s Hs). unfold expect. destruct (c s); [|done..]. by intros [= <- <-]. Qed.

Section boot.
Context `{profile : BuildProfile}.

Lemma create_typed {A H} `{Typed A, Typed H} (mk : SlotId → H) (v : A) (e : ObjError) :
  (∀ id, has_type id → has_type (mk id)) → has_type v →
  keeps has_type has_type (id ← map_err (λ _ : unit, e) (allocate v); mret (mk id)).
Proof.
  intros Hmk Hv. eapply keeps_bind; [by apply keeps_map_err, allocate_typed|]. intros id Hid.
  apply keeps_ret. by apply Hmk.
Qed.

Lemma create_tasks_typed : keeps has_type has_type create_tasks.
Proof.
  unfold create_tasks. eapply keeps_bind; [by apply create_typed|]. intros ha Ha.
  eapply keeps_bind; [by apply create_typed|]. intros hb Hb.
  eapply keeps_bind; [by apply create_typed|]. intros hi Hi. apply keeps_ret. by repeat split; try apply Ha;
    try apply Hb; try apply Hi.
Qed.

Lemma boot_kernel_typed cpu img b : boot_kernel cpu img = Some b → has_type (b_kernel b).
Proof.
  unfold boot_kernel, kernel_setup.
  destruct (expect create_tasks _) as [[[[ha hb] hi] tasks]|] eqn:Ht; [|done].
  destruct (expect_typed _ _ _ _ _ _ create_tasks_typed arena_new_typed Ht) as [_ [[Ha Hb] Hi]].
  cbn [mbind option_bind]. unfold ipc_setup.
  destruct (expect (create_endpoint _) _) as [[ep ar]|] eqn:He; [|done].
  destruct (expect_typed _ _ _ _ _ _ (create_typed endpoint_from_slot (new_endpoint 0) ArenaFull (λ _, id) eq_refl)
    arena_new_typed He) as [Har Hep]. cbn [mbind option_bind].
  assert (has_type (new_capability (bitor SEND RECV) (ObjEndpoint ep))) as Hcap by by split.
  destruct (expect (insert_root _) _) as [[xa ta]|] eqn:Hta; [|done]. cbn [mbind option_bind].
  destruct (expect_typed _ _ _ _ _ _ (insert_root_typed _ Hcap) table_new_typed Hta) as [Htab _].
  assert (∀ s h e st s' u, has_type s → has_type h → expect (add_task cpu h e st) s = Some (u, s') → has_type s') as Hadd.
  { intros s h e st s' u Hs Hh Hr. by apply (expect_typed _ _ _ _ _ _ (add_task_typed cpu h e st Hh) Hs Hr). }
  unfold sched_setup.
  destruct (expect (add_task cpu hb _ _) _) as [[u1 s1]|] eqn:H1; [|done]. cbn [mbind option_bind].
  destruct (expect (add_task cpu ha _ _) _) as [[u2 s2]|] eqn:H2; [|done]. cbn [mbind option_bind].
  destruct (expect (add_task cpu hi _ _) _) as [[u3 s3]|] eqn:H3; [|done]. cbn [mbind option_bind b_kernel].
  apply (Hadd _ _ _ _ _ _ sched_new_typed Hb) in H1. apply (Hadd _ _ _ _ _ _ H1 Ha) in H2.
  apply (Hadd _ _ _ _ _ _ H2 Hi) in H3.
  destruct (expect start _) as [[u k]|] eqn:Hs; [|done]. cbn [mbind option_bind]. intros [= <-]. cbn [b_kernel].
  refine (proj1 (expect_typed has_type (λ _, True) _ _ _ _ start_typed _ Hs)).
  split_and!; [done|done|apply queues_new_typed|]. intros tbl. cbn. unfold tables_of, set_table.
  repeat case_decide; [done..|apply table_new_typed].
Qed.
End boot.

(** ** Properties *)

(** C29: every field stays in its range. In every execution of the system from a
    well-typed kernel, whatever handles its tasks present, the ready queue's length
    is at most its capacity and its head a position, no array changes its length,
    every link of a table or an arena names a slot, every handle in the kernel
    indexes one of the 16 slots of its arena, generations are 32-bit and message
    words 64-bit; every reply is well-typed too, so an issued capability handle
    names one of the 64 slots. Every operation of a capability table, the ones the
    demo does not call included, keeps this and every derivation depth at most
    [MAX_DERIVATION_DEPTH], and no rights bit but the known ones appears. So
    neither the narrowing of the depth to [u8] nor the length counter of the
    queue ever wraps. *)
Theorem machine_types_are_kept {S} `{!Cpu S, !ContextSwitch S} `{profile : BuildProfile}
    (k : Kernel S) tr y (t t' : CapabilityTable) (o : cap_op) r :
  has_type k → trace sys_step (fresh k) tr y → Forall call_typed tr →
  has_type t → has_type o → exec_cap o t = Some (r, t') →
  has_type (sy_kernel y) ∧ Forall label_reply_typed tr ∧ has_type t' ∧ has_type r.
Proof.
  intros Hk Htr Hl Ht Ho He. destruct (trace_typed _ _ _ Htr) as [[Hy _] Hr]; [by split|done|].
  destruct (exec_cap_typed _ _ _ _ Ho Ht He) as [Ht' Hrr]. done.
Qed.

(** ** Witness *)

Lemma demo_kernel_typed `{profile : BuildProfile} : has_type demo_kernel.
Proof.
  destruct (boot_kernel_wf demo_core demo_image) as (b & Hb & _).
  unfold demo_kernel, demo_booted. rewrite Hb. by eapply boot_kernel_typed.
Qed.

Definition demo_insert : cap_op := OpInsertRoot (new_capability (bitor SEND RECV) (ObjEndpoint demo_ep)).

(** The calls of the demo trace. *)
Definition demo_call (l : System.label) : bool :=
  match l with
  | Calls _ (KSend _ _ m _) _ _ | Resumes _ (KSend _ _ m _) _ _ => bool_decide (m = msg_a)
  | _ => true
  end.

Lemma demo_call_typed l : demo_call l = true → call_typed l.
Proof.
  assert (has_type msg_a) as Hm by (repeat split; by vm_compute).
  destruct l as [i|i [] rr ev|i [] rr ev]; try done; cbn; by intros ->%bool_decide_eq_true.
Qed.

Lemma machine_types_are_kept_witness :
  let _ := debug_profile in
  match acts demo_actions (fresh demo_kernel) with
  | Some (tr, y) =>
      has_type (sy_kernel y) ∧ Forall label_reply_typed tr ∧
      has_type (final (insert_root (new_capability (bitor SEND RECV) (ObjEndpoint demo_ep))) table_new) ∧
      has_type (RHandle demo_cap)
  | None => False
  end.
Proof.
  intros p.
  assert (match acts demo_actions (fresh demo_kernel) with
    | Some (tr, _) => forallb demo_call tr | None => false end = true) as Hd by (vm_compute; reflexivity).
  destruct (acts demo_actions (fresh demo_kernel)) as [[tr y]|] eqn:E; [|discriminate].
  apply (machine_types_are_kept (profile := p) demo_kernel tr y table_new _ demo_insert (RHandle demo_cap)
    demo_kernel_typed (demo_trace _ tr y E)).
  - apply Forall_forall. intros l Hl%list_elem_of_In. rewrite forallb_forall in Hd.
    by apply demo_call_typed, Hd.
  - apply table_new_typed.
  - split; [by vm_compute|split; by vm_compute].
  - vm_compute. reflexivity.
Defined.
