(* ===== verification/Testing.v ===== *)
(** * The harness of the unit tests

    The crates' unit tests are translated into computations that panic when an
    assertion fails, and [passes] runs one on its initial state. Each test is a
    definition with the name of the function in the source; that they all pass, in
    both build profiles, says that the model does what the authors checked of the
    code. The five tests marked [should_panic] are left out: they expect a panic
    with a certain message, and a panic of the model carries no message. *)

From stdpp Require Import prelude.
From S2P Require Import Prelude.

Section harness.
Context {S E : Type}.

(** [unwrap_err()]. *)
Definition unwrap_err {E' A} (m : M S E' A) : M S E E' := λ s,
  match m s with Fail e s' => Done e s' | Diverge => Diverge | _ => Panic end.

(** [is_ok()]. *)
Definition is_ok {E' A} (m : M S E' A) : M S E bool := λ s,
  match m s with Done _ s' => Done true s' | Fail _ s' => Done false s' | Panic => Panic | Diverge => Diverge end.

Definition assert_that (m : M S E bool) : M S E unit := b ← m; assert_ b.
Definition assert_eq {A} `{EqDecision A} (x y : A) : M S E unit := assert_ (bool_decide (x = y)).
Definition assert_ne {A} `{EqDecision A} (x y : A) : M S E unit := assert_ (bool_decide (x ≠ y)).

(** [assert_eq!(m.unwrap_err(), e)]. *)
Definition assert_err {E' A} `{EqDecision E'} (m : M S E' A) (e : E') : M S E unit :=
  e' ← unwrap_err m; assert_eq e' e.

(** [for _ in 0..n]. *)
Fixpoint repeat_ (n : nat) (m : M S E unit) : M S E unit :=
  match n with O => mret tt | Datatypes.S n => m;; repeat_ n m end.

(** A loop that builds on a value. *)
Fixpoint iterate {A} (n : nat) (f : A → M S E A) (a : A) : M S E A :=
  match n with O => mret a | Datatypes.S n => a ← f a; iterate n f a end.
End harness.

(** A test that returns passes. *)
Definition passes {S} (test : M S Empty_set unit) (s : S) : bool :=
  match test s with Done _ _ => true | _ => false end.

(** The results of a suite in one build profile. *)
Definition all_pass (suite : list bool) : bool := forallb id suite.
