(* ===== verification/ObjTests.v ===== *)
(** * The unit tests of [kernel/src/obj] and [kernel/src/cap/rights.rs]

    One definition per test, with the name it has in the source; the two tests
    called [destroy_invalidates_handle] are told apart by a prefix. *)

From stdpp Require Import prelude.
From Stdlib Require Import NArith.
From S2P Require Import Prelude Testing FreeList Arena Objects Rights.

Section queries.
Context {T : Type} `{!EqDecision T}.

(** [assert_eq!(arena.get(id), v)], [assert!(arena.contains(id))]. *)
Definition got (id : SlotId) (v : option T) : M (Arena T) Empty_set unit :=
  a ← gets (λ a, a); assert_eq (get a id) v.
Definition contained (id : SlotId) (b : bool) : M (Arena T) Empty_set unit :=
  a ← gets (λ a, a); assert_eq (Arena.contains a id) b.

(** What is done to [arena.get_mut(id).unwrap()]. *)
Definition through {A} (id : SlotId) (m : M T Empty_set A) : M (Arena T) Empty_set A := λ a,
  match get_mut a id with
  | None => Panic
  | Some (v, put) => match m v with Done x v' => Done x (put v') | Fail e _ => match e with end | Panic => Panic | Diverge => Diverge end
  end.
End queries.

Section tests.
Context `{BuildProfile}.

(** ** [arena.rs] *)

Abbreviation ArenaTest := (M (Arena N) Empty_set unit).
Abbreviation alloc v := (or_panic (allocate v)).
Abbreviation release id := (or_panic (free id)).

Definition allocate_and_get_round_trip : ArenaTest :=
  id ← alloc 42%N;
  got id (Some 42%N);;
  contained id true.

Definition free_invalidates_id : ArenaTest :=
  id ← alloc 7%N;
  v ← release id; assert_eq v 7%N;;
  got id None;;
  contained id false.

Definition free_then_allocate_bumps_generation : ArenaTest :=
  first ← alloc 1%N;
  _ ← release first;
  second ← alloc 2%N;
  assert_eq (index first) (index second);;
  assert_ne (generation first) (generation second);;
  got first None;;
  got second (Some 2%N).

Definition exhaustion_returns_none : ArenaTest :=
  _ ← alloc 1%N;
  _ ← alloc 2%N;
  assert_err (allocate 3%N) tt.

Definition free_middle_then_allocate_reuses_that_slot : ArenaTest :=
  a ← alloc 10%N;
  b ← alloc 20%N;
  c ← alloc 30%N;
  _ ← release b;
  d ← alloc 99%N;
  assert_eq (index d) (index b);;
  got a (Some 10%N);;
  got c (Some 30%N);;
  got d (Some 99%N);;
  got b None.

Definition get_mut_permits_mutation : ArenaTest :=
  id ← alloc 1%N;
  through id (modify (λ _, 2%N));;
  got id (Some 2%N).

Definition empty_capacity_arena_has_no_free_slot : ArenaTest :=
  assert_err (allocate 0%N) tt.

(** ** [task.rs] *)

Definition task_is (handle : TaskHandle) (id : option u32) : M TaskArena Empty_set unit :=
  a ← gets (λ a, a); assert_eq (task_id <$> get_task a handle) id.

Definition create_then_get_round_trip : M TaskArena Empty_set unit :=
  handle ← or_panic (create_task (new_task 7));
  task_is handle (Some 7%N).

Definition task_destroy_invalidates_handle : M TaskArena Empty_set unit :=
  handle ← or_panic (create_task (new_task 1));
  removed ← or_panic (destroy_task handle);
  assert_eq (task_id removed) 1%N;;
  task_is handle None;;
  assert_err (destroy_task handle) ObjInvalidHandle.

(** [for i in 0..TASK_ARENA_CAPACITY]. *)
Definition arena_exhaustion_returns_arena_full : M TaskArena Empty_set unit :=
  _ ← iterate (N.to_nat TASK_ARENA_CAPACITY)
        (λ i, _ ← or_panic (create_task (new_task (wrap 32 i))); mret (i + 1)%N) 0%N;
  assert_err (create_task (new_task 99)) ArenaFull.

(** ** [endpoint.rs] *)

Definition endpoint_is (handle : EndpointHandle) (id : option u32) : M EndpointArena Empty_set unit :=
  a ← gets (λ a, a); assert_eq (endpoint_id <$> get_endpoint a handle) id.

Definition create_destroy_round_trip : M EndpointArena Empty_set unit :=
  handle ← or_panic (create_endpoint (new_endpoint 42));
  endpoint_is handle (Some 42%N);;
  removed ← or_panic (destroy_endpoint handle);
  assert_eq (endpoint_id removed) 42%N;;
  endpoint_is handle None.

(** ** [notification.rs] *)

Definition word_is (handle : NotificationHandle) (w : option u64) : M NotificationArena Empty_set unit :=
  a ← gets (λ a, a); assert_eq (word <$> get_notification a handle) w.
Definition note_set (bits : u64) : M Notification Empty_set unit := modify (λ n, set_bits n bits).
Definition note_consume : M Notification Empty_set u64 := λ n, let '(w, n') := consume n in Done w n'.

Definition set_and_consume_round_trip : M NotificationArena Empty_set unit :=
  handle ← or_panic (create_notification (new_notification 0));
  through (notification_slot handle) (note_set 1;; note_set 4);;
  word_is handle (Some 5%N);;
  through (notification_slot handle)
    (a ← note_consume; assert_eq a 5%N;;
     b ← note_consume; assert_eq b 0%N).

Definition notification_destroy_invalidates_handle : M NotificationArena Empty_set unit :=
  handle ← or_panic (create_notification (new_notification 0));
  _ ← or_panic (destroy_notification handle);
  word_is handle None;;
  _ ← or_panic (create_notification (new_notification 1));
  word_is handle None.

(** ** [rights.rs] *)

Abbreviation RightsTest := (M unit Empty_set unit).

Definition empty_contains_empty_but_nothing_else : RightsTest :=
  assert_ (contains EMPTY EMPTY);;
  assert_ (negb (contains EMPTY DUPLICATE));;
  assert_ (is_empty EMPTY).

Definition union_and_contains : RightsTest :=
  let rw := bitor DUPLICATE DERIVE in
  assert_ (contains rw DUPLICATE);;
  assert_ (contains rw DERIVE);;
  assert_ (negb (contains rw REVOKE));;
  assert_ (contains rw EMPTY).

Definition intersection_narrows : RightsTest :=
  let all := bitor (bitor DUPLICATE DERIVE) REVOKE in
  let just_dup := bitand all DUPLICATE in
  assert_ (contains just_dup DUPLICATE);;
  assert_ (negb (contains just_dup DERIVE));;
  assert_ (negb (contains just_dup REVOKE)).

Definition difference_clears_bits : RightsTest :=
  let rwx := bitor DUPLICATE DERIVE in
  let just_derive := difference rwx DUPLICATE in
  assert_ (contains just_derive DERIVE);;
  assert_ (negb (contains just_derive DUPLICATE)).

Definition from_raw_and_raw_round_trip : RightsTest :=
  let bits := 11%N in
  assert_eq (raw (from_raw bits)) bits.

Definition from_raw_masks_unknown_bits : RightsTest :=
  let rights := from_raw (N.lor 0x80000000 (raw DUPLICATE)) in
  assert_ (contains rights DUPLICATE);;
  assert_eq (N.land (raw rights) (bitnot 32 (raw KNOWN_BITS))) 0%N;;
  assert_ (is_empty (from_raw 0x80000000)).

Definition bitor_assign_adds_bits : M CapRights Empty_set unit :=
  modify (λ rights, bitor_assign rights REVOKE);;
  rights ← gets (λ a, a);
  assert_ (contains rights DUPLICATE);;
  assert_ (contains rights REVOKE).

Definition obj_tests : list bool :=
  [ passes allocate_and_get_round_trip (new 4);
    passes free_invalidates_id (new 4);
    passes free_then_allocate_bumps_generation (new 4);
    passes exhaustion_returns_none (new 2);
    passes free_middle_then_allocate_reuses_that_slot (new 3);
    passes get_mut_permits_mutation (new 2);
    passes empty_capacity_arena_has_no_free_slot (new 0);
    passes create_then_get_round_trip (new TASK_ARENA_CAPACITY);
    passes task_destroy_invalidates_handle (new TASK_ARENA_CAPACITY);
    passes arena_exhaustion_returns_arena_full (new TASK_ARENA_CAPACITY);
    passes create_destroy_round_trip (new ENDPOINT_ARENA_CAPACITY);
    passes set_and_consume_round_trip (new NOTIFICATION_ARENA_CAPACITY);
    passes notification_destroy_invalidates_handle (new NOTIFICATION_ARENA_CAPACITY);
    passes empty_contains_empty_but_nothing_else tt;
    passes union_and_contains tt;
    passes intersection_narrows tt;
    passes difference_clears_bits tt;
    passes from_raw_and_raw_round_trip tt;
    passes from_raw_masks_unknown_bits tt;
    passes bitor_assign_adds_bits DUPLICATE ].
End tests.

Lemma obj_tests_pass (H : BuildProfile) : all_pass obj_tests = true.
Proof. destruct H; by vm_compute. Qed.
