(* ===== verification/TableTests.v ===== *)
(** * The unit tests of [kernel/src/cap/table.rs]

    One definition per test; [all_tests] runs them. *)

From stdpp Require Import prelude.
From Stdlib Require Import NArith.
From S2P Require Import Prelude Testing FreeList Arena Objects Rights Capability CapTable.

Abbreviation Test := (M CapabilityTable Empty_set).

Definition all_rights : CapRights := bitor (bitor (bitor DUPLICATE DERIVE) REVOKE) TRANSFER.
(** [TaskHandle::test_handle]. *)
Definition task_object (tag : u16) : CapObject := ObjTask (task_from_slot (mkSlotId tag 0)).
Definition root_cap : Capability := new_capability all_rights (task_object 0xAA).

Definition lookup (h : CapHandle) : M CapabilityTable CapError Capability :=
  t ← gets id; try_ (lookup_cap t h).

Definition is_live (h : CapHandle) : Test unit := assert_that (is_ok (lookup h)).
Definition is_dead (h : CapHandle) : Test unit := assert_err (lookup h) InvalidHandle.
Definition references (o : CapObject) (b : bool) : Test unit :=
  t ← gets id; assert_eq (references_object t o) b.
Definition fullness (b : bool) : Test unit := t ← gets id; assert_eq (is_full t) b.

(** [insert_root(cap).unwrap()] and [cap_derive(...).unwrap()]. *)
Definition insert (cap : Capability) : Test CapHandle := or_panic (insert_root cap).
Definition derive (src : CapHandle) (tag : u16) : Test CapHandle :=
  or_panic (cap_derive src all_rights (task_object tag)).

Section tests.
Context `{BuildProfile}.

Definition new_table_can_accept_one_root : Test unit :=
  h ← insert root_cap;
  cap ← or_panic (lookup h);
  assert_eq (kind cap) KindTask;;
  assert_eq (rights cap) all_rights;;
  assert_eq (object cap) (task_object 0xAA).

Definition drop_invalidates_handle : Test unit :=
  h ← insert root_cap;
  or_panic (cap_drop h);;
  is_dead h.

Definition drop_twice_returns_invalid_handle : Test unit :=
  h ← insert root_cap;
  or_panic (cap_drop h);;
  assert_err (cap_drop h) InvalidHandle.

Definition freed_slot_is_reused_with_bumped_generation : Test unit :=
  h1 ← insert root_cap;
  or_panic (cap_drop h1);;
  h2 ← insert root_cap;
  assert_eq (cap_index h1) (cap_index h2);;
  assert_ne (cap_generation h1) (cap_generation h2);;
  is_dead h1;;
  is_live h2.

Definition cap_copy_with_same_rights_succeeds : Test unit :=
  src ← insert root_cap;
  dup ← or_panic (cap_copy src all_rights);
  cap ← or_panic (lookup dup);
  assert_eq (rights cap) all_rights;;
  is_live src.

Definition cap_copy_narrows_rights : Test unit :=
  src ← insert root_cap;
  dup ← or_panic (cap_copy src DUPLICATE);
  cap ← or_panic (lookup dup);
  assert_eq (rights cap) DUPLICATE.

Definition cap_copy_rejects_widened_rights : Test unit :=
  src ← insert (new_capability DUPLICATE (task_object 0));
  assert_err (cap_copy src (bitor DUPLICATE REVOKE)) WidenedRights.

Definition cap_copy_without_duplicate_right_fails : Test unit :=
  src ← insert (new_capability DERIVE (task_object 0));
  assert_err (cap_copy src EMPTY) InsufficientRights.

Definition cap_derive_creates_child_with_narrower_rights : Test unit :=
  src ← insert root_cap;
  child ← or_panic (cap_derive src DUPLICATE (task_object 0xBB));
  child_cap ← or_panic (lookup child);
  assert_eq (rights child_cap) DUPLICATE;;
  assert_eq (object child_cap) (task_object 0xBB).

Definition cap_derive_without_derive_right_fails : Test unit :=
  src ← insert (new_capability DUPLICATE (task_object 0));
  assert_err (cap_derive src EMPTY (task_object 0)) InsufficientRights.

Definition cap_derive_rejects_widened_rights : Test unit :=
  src ← insert (new_capability DERIVE (task_object 0));
  assert_err (cap_derive src (bitor DERIVE REVOKE) (task_object 0)) WidenedRights.

Definition cap_derive_enforces_depth_cap : Test unit :=
  root ← insert root_cap;
  current ← iterate (N.to_nat MAX_DERIVATION_DEPTH) (λ current, derive current 0) root;
  assert_err (cap_derive current all_rights (task_object 0)) DerivationTooDeep.

Definition cap_revoke_removes_only_descendants : Test unit :=
  src ← insert root_cap;
  child ← derive src 1;
  or_panic (cap_revoke src);;
  is_live src;;
  is_dead child.

Definition cap_revoke_cascades_depth_three : Test unit :=
  root ← insert root_cap;
  child ← derive root 1;
  grand ← derive child 2;
  great ← derive grand 3;
  or_panic (cap_revoke root);;
  is_live root;;
  is_dead child;; is_dead grand;; is_dead great.

Definition references_object_sees_live_caps_only : Test unit :=
  let target := task_object 0xCC in
  let other := task_object 0xDD in
  references target false;;
  h ← insert (new_capability all_rights target);
  references target true;;
  references other false;;
  or_panic (cap_drop h);;
  references target false.

Definition cap_revoke_clears_references_object : Test unit :=
  let target := task_object 0xEE in
  root ← insert (new_capability all_rights (task_object 0xAA));
  child ← or_panic (cap_derive root all_rights target);
  references target true;;
  or_panic (cap_revoke root);;
  references target false;;
  is_dead child.

Definition cap_revoke_without_revoke_right_fails : Test unit :=
  src ← insert (new_capability (bitor DUPLICATE DERIVE) (task_object 0));
  assert_err (cap_revoke src) InsufficientRights.

Definition cap_revoke_on_leaf_is_a_noop : Test unit :=
  leaf ← insert root_cap;
  assert_that (is_ok (cap_revoke leaf));;
  is_live leaf.

Definition cap_revoke_on_stale_handle_fails : Test unit :=
  h ← insert root_cap;
  or_panic (cap_drop h);;
  assert_err (cap_revoke h) InvalidHandle.

Definition copy_of_a_child_shares_parent : Test unit :=
  root ← insert root_cap;
  child ← derive root 1;
  peer ← or_panic (cap_copy child all_rights);
  or_panic (cap_revoke root);;
  is_dead child;;
  is_dead peer.

Definition drop_peer_does_not_affect_other_peer : Test unit :=
  root ← insert root_cap;
  peer_a ← or_panic (cap_copy root all_rights);
  peer_b ← or_panic (cap_copy root all_rights);
  or_panic (cap_drop peer_a);;
  is_dead peer_a;;
  is_live peer_b;;
  is_live root.

(** [handles[i]] for [i] below the capacity, filled by [insert_root]. *)
Fixpoint fill (n : nat) : Test (list CapHandle) :=
  match n with
  | O => mret []
  | S n => h ← insert root_cap; hs ← fill n; mret (h :: hs)
  end.

Definition table_exhaustion_returns_caps_exhausted : Test unit :=
  handles ← fill (N.to_nat CAP_TABLE_CAPACITY);
  assert_err (insert_root root_cap) CapsExhausted;;
  h0 ← unwrap_or_panic (head handles);
  or_panic (cap_drop h0);;
  assert_that (is_ok (insert_root root_cap)).

Definition cap_drop_on_interior_node_returns_has_children : Test unit :=
  parent ← insert root_cap;
  _child ← derive parent 1;
  assert_err (cap_drop parent) HasChildren;;
  or_panic (cap_revoke parent);;
  assert_that (is_ok (cap_drop parent)).

Definition cap_take_returns_capability_and_invalidates_handle : Test unit :=
  h ← insert root_cap;
  taken ← or_panic (cap_take h);
  assert_eq (rights taken) all_rights;;
  assert_eq (object taken) (task_object 0xAA);;
  is_dead h.

Definition cap_take_on_node_with_children_fails : Test unit :=
  parent ← insert root_cap;
  _child ← derive parent 1;
  assert_err (cap_take parent) HasChildren;;
  is_live parent.

Definition cap_take_stale_handle_fails : Test unit :=
  h ← insert root_cap;
  _ ← or_panic (cap_take h);
  assert_err (cap_take h) InvalidHandle.

Definition cap_take_middle_sibling_preserves_list_integrity : Test unit :=
  root ← insert root_cap;
  a ← derive root 1;
  b ← derive root 2;
  c ← derive root 3;
  taken ← or_panic (cap_take b);
  assert_eq (object taken) (task_object 2);;
  is_live a;;
  is_live c;;
  is_dead b;;
  or_panic (cap_revoke root);;
  is_dead a;;
  is_dead c.

Definition cap_take_slot_reusable_with_bumped_generation : Test unit :=
  h1 ← insert root_cap;
  _ ← or_panic (cap_take h1);
  h2 ← insert root_cap;
  assert_eq (cap_index h1) (cap_index h2);;
  assert_ne (cap_generation h1) (cap_generation h2);;
  is_dead h1;;
  is_live h2.

Definition is_full_transitions : Test unit :=
  fullness false;;
  handles ← fill (N.to_nat CAP_TABLE_CAPACITY);
  fullness true;;
  h0 ← unwrap_or_panic (head handles);
  _ ← or_panic (cap_take h0);
  fullness false;;
  refill ← insert root_cap;
  fullness true;;
  or_panic (cap_drop refill);;
  fullness false.

Definition drop_middle_sibling_preserves_list_integrity : Test unit :=
  root ← insert root_cap;
  a ← derive root 1;
  b ← derive root 2;
  c ← derive root 3;
  or_panic (cap_drop b);;
  is_live a;;
  is_live c;;
  is_dead b;;
  or_panic (cap_revoke root);;
  is_dead a;;
  is_dead c.

(** [while !t.is_full()]; running out of [fuel] is a loop that goes on. *)
Fixpoint fill_up (fuel : nat) : Test unit :=
  t ← gets id;
  if is_full t then mret tt else
  match fuel with
  | O => diverge
  | S fuel => _ ← insert root_cap; fill_up fuel
  end.

Definition cap_derive_on_full_table_returns_caps_exhausted : Test unit :=
  parent ← insert root_cap;
  fill_up (N.to_nat CAP_TABLE_CAPACITY);;
  fullness true;;
  assert_err (cap_derive parent all_rights (task_object 0xCD)) CapsExhausted;;
  is_live parent.

Definition cap_copy_on_stale_handle_returns_invalid_handle : Test unit :=
  h ← insert root_cap;
  or_panic (cap_drop h);;
  assert_err (cap_copy h all_rights) InvalidHandle.

Definition lookup_on_stale_handle_returns_invalid_handle : Test unit :=
  h1 ← insert root_cap;
  or_panic (cap_drop h1);;
  h2 ← insert root_cap;
  assert_eq (cap_index h1) (cap_index h2);;
  assert_ne (cap_generation h1) (cap_generation h2);;
  is_dead h1;;
  is_live h2.

Definition drop_first_child_updates_parent_first_child_pointer : Test unit :=
  root ← insert root_cap;
  first ← derive root 1;
  middle ← derive root 2;
  last ← derive root 3;
  or_panic (cap_drop last);;
  is_dead last;;
  is_live first;;
  is_live middle;;
  or_panic (cap_revoke root);;
  is_dead first;;
  is_dead middle.

Definition all_tests : list bool := (λ test, passes test table_new) <$>
  [ new_table_can_accept_one_root; drop_invalidates_handle; drop_twice_returns_invalid_handle;
    freed_slot_is_reused_with_bumped_generation; cap_copy_with_same_rights_succeeds;
    cap_copy_narrows_rights; cap_copy_rejects_widened_rights; cap_copy_without_duplicate_right_fails;
    cap_derive_creates_child_with_narrower_rights; cap_derive_without_derive_right_fails;
    cap_derive_rejects_widened_rights; cap_derive_enforces_depth_cap;
    cap_revoke_removes_only_descendants; cap_revoke_cascades_depth_three;
    references_object_sees_live_caps_only; cap_revoke_clears_references_object;
    cap_revoke_without_revoke_right_fails; cap_revoke_on_leaf_is_a_noop;
    cap_revoke_on_stale_handle_fails; copy_of_a_child_shares_parent;
    drop_peer_does_not_affect_other_peer; table_exhaustion_returns_caps_exhausted;
    cap_drop_on_interior_node_returns_has_children;
    cap_take_returns_capability_and_invalidates_handle; cap_take_on_node_with_children_fails;
    cap_take_stale_handle_fails; cap_take_middle_sibling_preserves_list_integrity;
    cap_take_slot_reusable_with_bumped_generation; is_full_transitions;
    drop_middle_sibling_preserves_list_integrity; cap_derive_on_full_table_returns_caps_exhausted;
    cap_copy_on_stale_handle_returns_invalid_handle; lookup_on_stale_handle_returns_invalid_handle;
    drop_first_child_updates_parent_first_child_pointer ].
End tests.

Lemma table_tests_pass `{BuildProfile} : all_pass all_tests = true.
Proof. destruct H; by vm_compute. Qed.
