(* ===== verification/IpcTests.v ===== *)
(** * The unit tests of [kernel/src/ipc/mod.rs]

    One definition per test; [all_tests] runs them. The local variables of a test
    that the code mutates are the record [Locals]; a test with one table uses the
    sender's. *)

From stdpp Require Import prelude.
From Stdlib Require Import NArith.
From S2P Require Import Prelude Testing FreeList Arena Objects Rights Capability CapTable Ipc.

Record Locals := mkLocals {
  arena : EndpointArena;
  notif_arena : NotificationArena;
  the_queues : IpcQueues;
  sender_table : CapabilityTable;
  recv_table : CapabilityTable;
}.

Definition locals : Locals :=
  mkLocals (new ENDPOINT_ARENA_CAPACITY) (new NOTIFICATION_ARENA_CAPACITY) queues_new table_new table_new.

Inductive who := Sender | Receiver.

Abbreviation Test := (M Locals Empty_set).

Definition all_ep_rights : CapRights :=
  bitor (bitor (bitor (bitor (bitor SEND RECV) DUPLICATE) DERIVE) REVOKE) TRANSFER.
Definition all_task_rights : CapRights := bitor (bitor (bitor DUPLICATE DERIVE) REVOKE) TRANSFER.
Definition all_rights : CapRights := bitor (bitor (bitor DUPLICATE DERIVE) REVOKE) TRANSFER.
Definition task_object (tag : u16) : CapObject := ObjTask (task_from_slot (mkSlotId tag 0)).
Definition root_cap : Capability := new_capability all_rights (task_object 0xAA).
Definition test_msg (label : u64) : Message := mkMessage label (label, label, label).

Definition table_of (w : who) (x : Locals) : CapabilityTable :=
  match w with Sender => sender_table x | Receiver => recv_table x end.
Definition with_table (w : who) (t : CapabilityTable) (x : Locals) : Locals :=
  match w with
  | Sender => mkLocals (arena x) (notif_arena x) (the_queues x) t (recv_table x)
  | Receiver => mkLocals (arena x) (notif_arena x) (the_queues x) (sender_table x) t
  end.

Section tests.
Context `{BuildProfile}.

Definition on_arena {E A} (m : M EndpointArena E A) : M Locals E A :=
  zoom arena (λ a x, mkLocals a (notif_arena x) (the_queues x) (sender_table x) (recv_table x)) m.
Definition on_notifs {E A} (m : M NotificationArena E A) : M Locals E A :=
  zoom notif_arena (λ a x, mkLocals (arena x) a (the_queues x) (sender_table x) (recv_table x)) m.
Definition on_queues {E A} (m : M IpcQueues E A) : M Locals E A :=
  zoom the_queues (λ q x, mkLocals (arena x) (notif_arena x) q (sender_table x) (recv_table x)) m.
Definition on_table {E A} (w : who) (m : M CapabilityTable E A) : M Locals E A :=
  zoom (table_of w) (with_table w) m.
Definition on_ctx {E A} (w : who) (m : M Ctx E A) : M Locals E A :=
  zoom (λ x, mkCtx (arena x) (the_queues x) (table_of w x))
    (λ c x, with_table w (caller_table c)
       (mkLocals (ep_arena c) (notif_arena x) (queues c) (sender_table x) (recv_table x))) m.

Definition send (w : who) (ep_cap : CapHandle) (msg : Message) (transfer : option CapHandle) :
    M Locals IpcError SendOutcome := on_ctx w (ipc_send ep_cap msg transfer).
Definition recv (w : who) (ep_cap : CapHandle) : M Locals IpcError RecvOutcome := on_ctx w (ipc_recv ep_cap).
Definition notify (notif_cap : CapHandle) (bits : u64) : M Locals IpcError unit := λ x,
  on_notifs (ipc_notify notif_cap (sender_table x) bits) x.

Definition new_ep (id : u32) : Test EndpointHandle := or_panic (on_arena (create_endpoint (new_endpoint id))).
Definition insert (w : who) (cap : Capability) : Test CapHandle := or_panic (on_table w (insert_root cap)).
Definition lookup (w : who) (h : CapHandle) : M Locals CapError Capability :=
  x ← gets id; try_ (lookup_cap (table_of w x) h).
Definition present (w : who) (h : CapHandle) (b : bool) : Test unit :=
  r ← is_ok (lookup w h); assert_eq r b.

Definition setup_ep (w : who) (rights : CapRights) : Test (EndpointHandle * CapHandle) :=
  ep_handle ← new_ep 0;
  cap_handle ← insert w (new_capability rights (ObjEndpoint ep_handle));
  mret (ep_handle, cap_handle).

Definition setup_notif : Test CapHandle :=
  notif_handle ← or_panic (on_notifs (create_notification (new_notification 0)));
  insert Sender (new_capability (bitor NOTIFY DUPLICATE) (ObjNotification notif_handle)).

(** [let RecvOutcome::Received { msg, cap: None } = outcome else { panic!() }]. *)
Definition received_bare (o : RecvOutcome) : Test Message :=
  match o with Received msg None => mret msg | _ => panic end.
Definition received_with_cap (o : RecvOutcome) : Test (Message * CapHandle) :=
  match o with Received msg (Some cap) => mret (msg, cap) | _ => panic end.

Definition sender_first_delivers_on_recv : Test unit :=
  '(_, ep_cap) ← setup_ep Sender all_ep_rights;
  outcome ← or_panic (send Sender ep_cap (test_msg 42) None);
  assert_eq outcome Enqueued;;
  sender_cap ← or_panic (lookup Sender ep_cap);
  h ← match object sender_cap with ObjEndpoint h => mret h | _ => panic end;
  recv_ep_cap ← insert Receiver (new_capability all_ep_rights (ObjEndpoint h));
  recv_outcome ← or_panic (recv Receiver recv_ep_cap);
  msg ← received_bare recv_outcome;
  assert_eq msg (test_msg 42).

Definition receiver_first_delivers_on_send : Test unit :=
  '(ep_handle, recv_ep_cap) ← setup_ep Receiver all_ep_rights;
  outcome1 ← or_panic (recv Receiver recv_ep_cap);
  assert_ (match outcome1 with Pending => true | _ => false end);;
  sender_ep_cap ← insert Sender (new_capability all_ep_rights (ObjEndpoint ep_handle));
  send_outcome ← or_panic (send Sender sender_ep_cap (test_msg 99) None);
  assert_eq send_outcome Delivered;;
  outcome2 ← or_panic (recv Receiver recv_ep_cap);
  msg ← received_bare outcome2;
  assert_eq msg (test_msg 99).

Definition send_transfers_cap_atomically : Test unit :=
  '(ep_handle, ep_cap) ← setup_ep Sender all_ep_rights;
  xfer_ep_handle ← new_ep 1;
  xfer_cap_h ← insert Sender (new_capability all_task_rights (ObjEndpoint xfer_ep_handle));
  _ ← or_panic (send Sender ep_cap (test_msg 1) (Some xfer_cap_h));
  present Sender xfer_cap_h false;;
  recv_ep_cap ← insert Receiver (new_capability all_ep_rights (ObjEndpoint ep_handle));
  outcome ← or_panic (recv Receiver recv_ep_cap);
  '(msg, recv_cap_h) ← received_with_cap outcome;
  assert_eq msg (test_msg 1);;
  present Receiver recv_cap_h true.

Definition receiver_first_then_send_with_cap : Test unit :=
  '(ep_handle, recv_ep_cap) ← setup_ep Receiver all_ep_rights;
  _ ← or_panic (recv Receiver recv_ep_cap);
  task_ep_handle ← new_ep 2;
  xfer_cap_h ← insert Sender (new_capability all_task_rights (ObjEndpoint task_ep_handle));
  sender_ep_cap ← insert Sender (new_capability all_ep_rights (ObjEndpoint ep_handle));
  send_out ← or_panic (send Sender sender_ep_cap (test_msg 77) (Some xfer_cap_h));
  assert_eq send_out Delivered;;
  present Sender xfer_cap_h false;;
  outcome ← or_panic (recv Receiver recv_ep_cap);
  '(msg, recv_cap_h) ← received_with_cap outcome;
  assert_eq msg (test_msg 77);;
  present Receiver recv_cap_h true.

Definition send_without_send_right_fails : Test unit :=
  '(_, ep_cap) ← setup_ep Sender RECV;
  assert_err (send Sender ep_cap (test_msg 0) None) InvalidCapability.

Definition recv_without_recv_right_fails : Test unit :=
  '(_, ep_cap) ← setup_ep Sender SEND;
  assert_err (recv Sender ep_cap) InvalidCapability.

Definition second_send_when_pending_fails : Test unit :=
  '(_, ep_cap) ← setup_ep Sender all_ep_rights;
  _ ← or_panic (send Sender ep_cap (test_msg 1) None);
  assert_err (send Sender ep_cap (test_msg 2) None) QueueFull.

Definition second_recv_when_waiting_fails : Test unit :=
  '(_, ep_cap) ← setup_ep Sender all_ep_rights;
  _ ← or_panic (recv Sender ep_cap);
  assert_err (recv Sender ep_cap) QueueFull.

Definition send_with_bad_transfer_cap_preserves_recv_waiting : Test unit :=
  '(ep_handle, recv_ep_cap) ← setup_ep Receiver all_ep_rights;
  _ ← or_panic (recv Receiver recv_ep_cap);
  sender_ep_cap ← insert Sender (new_capability all_ep_rights (ObjEndpoint ep_handle));
  parent_h ← insert Sender root_cap;
  _ ← or_panic (on_table Sender (cap_derive parent_h all_rights (task_object 1)));
  assert_err (send Sender sender_ep_cap (test_msg 0) (Some parent_h)) InvalidTransferCap;;
  assert_err (recv Receiver recv_ep_cap) QueueFull.

Definition send_without_transfer_right_on_xfer_cap_fails : Test unit :=
  '(_, ep_cap) ← setup_ep Sender all_ep_rights;
  no_transfer_h ← insert Sender (new_capability (bitor DUPLICATE DERIVE) (task_object 1));
  assert_err (send Sender ep_cap (test_msg 0) (Some no_transfer_h)) InvalidTransferCap.

Definition stale_queue_state_reset_on_slot_reuse : Test unit :=
  '(ep_handle, ep_cap) ← setup_ep Sender all_ep_rights;
  _ ← or_panic (recv Sender ep_cap);
  or_panic (on_table Sender (cap_drop ep_cap));;
  _ ← or_panic (on_arena (destroy_endpoint ep_handle));
  '(new_ep_handle, new_ep_cap) ← setup_ep Sender all_ep_rights;
  outcome ← or_panic (send Sender new_ep_cap (test_msg 7) None);
  assert_eq outcome Enqueued.

Definition notify_sets_bits : Test unit :=
  notif_cap ← setup_notif;
  or_panic (notify notif_cap 5);;
  or_panic (notify notif_cap 10);;
  cap ← or_panic (lookup Sender notif_cap);
  notif_handle ← match object cap with ObjNotification h => mret h | _ => panic end;
  x ← gets id;
  n ← unwrap_or_panic (get (notif_arena x) (notification_slot notif_handle));
  assert_eq (word n) 15%N.

Definition notify_without_notify_right_fails : Test unit :=
  notif_handle ← or_panic (on_notifs (create_notification (new_notification 0)));
  cap_h ← insert Sender (new_capability DUPLICATE (ObjNotification notif_handle));
  assert_err (notify cap_h 0xFF) InvalidCapability.

Definition blocked_sender_delivered_on_subsequent_recv : Test unit :=
  '(ep_handle, ep_cap) ← setup_ep Sender all_ep_rights;
  outcome ← or_panic (send Sender ep_cap (test_msg 55) None);
  assert_eq outcome Enqueued;;
  recv_ep_cap ← insert Receiver (new_capability all_ep_rights (ObjEndpoint ep_handle));
  outcome ← or_panic (recv Receiver recv_ep_cap);
  msg ← received_bare outcome;
  assert_eq msg (test_msg 55).

(** [while !recv_table.is_full()], with the first handle it inserts. *)
Fixpoint fill_dummies (fuel : nat) (tag : u16) (first_dummy : option CapHandle) : Test (option CapHandle) :=
  x ← gets id;
  if is_full (recv_table x) then mret first_dummy else
  match fuel with
  | O => diverge
  | S fuel =>
      h ← insert Receiver (new_capability all_rights (task_object tag));
      fill_dummies fuel (wrapping_add 16 tag 1)
        (match first_dummy with None => Some h | Some d => Some d end)
  end.

Definition recv_with_full_table_preserves_pending_cap : Test unit :=
  '(ep_handle, send_ep_cap) ← setup_ep Sender all_ep_rights;
  xfer_target ← new_ep 0xBB;
  xfer_cap_h ← insert Sender (new_capability all_task_rights (ObjEndpoint xfer_target));
  send_outcome ← or_panic (send Sender send_ep_cap (test_msg 7) (Some xfer_cap_h));
  assert_eq send_outcome Enqueued;;
  recv_ep_cap ← insert Receiver (new_capability RECV (ObjEndpoint ep_handle));
  first_dummy ← fill_dummies (N.to_nat CAP_TABLE_CAPACITY) 0 None;
  x ← gets id;
  assert_ (is_full (recv_table x));;
  assert_err (recv Receiver recv_ep_cap) ReceiverTableFull;;
  dummy ← unwrap_or_panic first_dummy;
  or_panic (on_table Receiver (cap_drop dummy));;
  x ← gets id;
  assert_ (negb (is_full (recv_table x)));;
  outcome ← or_panic (recv Receiver recv_ep_cap);
  '(msg, recv_cap_h) ← received_with_cap outcome;
  assert_eq msg (test_msg 7);;
  present Receiver recv_cap_h true.

Definition handle_at (slot_idx : u16) (generation : u32) : EndpointHandle :=
  endpoint_from_slot (mkSlotId slot_idx generation).

(** [queues.states[0] = state; queues.slot_generations[0] = 0]. *)
Definition inject (state : EndpointState) : Test unit :=
  on_queues (modify (λ q, mkQueues (aset (states q) 0 state) (aset (slot_generations q) 0 0%N))).

Definition was_reset : Test unit :=
  x ← gets id;
  s ← unwrap_or_panic (aget (states (the_queues x)) 0);
  assert_ (match s with Idle => true | _ => false end);;
  g ← unwrap_or_panic (aget (slot_generations (the_queues x)) 0);
  assert_eq g 1%N.

Definition stale_recv_waiting_resets_silently : Test unit :=
  inject RecvWaiting;;
  _ ← or_panic (on_queues (peek_state (handle_at 0 1)));
  was_reset.

Definition stale_send_pending_without_cap_resets_silently : Test unit :=
  inject (SendPending (test_msg 0xBEEF) None);;
  _ ← or_panic (on_queues (peek_state (handle_at 0 1)));
  was_reset.

Definition all_tests : list bool :=
  (λ test, passes test locals) <$>
  [ sender_first_delivers_on_recv; receiver_first_delivers_on_send; send_transfers_cap_atomically;
    receiver_first_then_send_with_cap; send_without_send_right_fails; recv_without_recv_right_fails;
    second_send_when_pending_fails; second_recv_when_waiting_fails;
    send_with_bad_transfer_cap_preserves_recv_waiting; send_without_transfer_right_on_xfer_cap_fails;
    stale_queue_state_reset_on_slot_reuse; notify_sets_bits; notify_without_notify_right_fails;
    blocked_sender_delivered_on_subsequent_recv; recv_with_full_table_preserves_pending_cap;
    stale_recv_waiting_resets_silently; stale_send_pending_without_cap_resets_silently ].
End tests.

Lemma ipc_tests_pass `{BuildProfile} : all_pass all_tests = true.
Proof. destruct H; by vm_compute. Qed.
