(* ===== verification/TimerTests.v ===== *)
(** * The unit tests of [hal/src/timer.rs]

    One definition per test. The conversions have no state; [value] is a call
    whose named [assert!] panics. A [const] evaluated at compile time is the same
    call. *)

From stdpp Require Import prelude.
From Stdlib Require Import NArith.
From S2P Require Import Prelude Testing Timer.

Abbreviation Test := (M unit Empty_set unit).

(** [assert_eq!(f(..), v)]. *)
Definition value (r : option u64) (v : u64) : Test := x ← unwrap_or_panic r; assert_eq x v.

Definition ticks_to_ns_zero_count_is_zero : Test := value (ticks_to_ns 0 62500000) 0.

Definition ticks_to_ns_qemu_virt_one_second : Test :=
  value (ticks_to_ns 62500000 62500000) NANOS_PER_SECOND.

Definition ticks_to_ns_qemu_virt_single_tick : Test := value (ticks_to_ns 1 62500000) 16.

Definition ticks_to_ns_pi3_class_non_divisor : Test :=
  value (ticks_to_ns 1 19200000) 52;;
  value (ticks_to_ns 19200000 19200000) NANOS_PER_SECOND.

Definition ticks_to_ns_high_frequency_one_gigahertz : Test :=
  value (ticks_to_ns 1 1000000000) 1;;
  value (ticks_to_ns 123456789 1000000000) 123456789.

Definition ticks_to_ns_saturates_at_u64_max : Test := value (ticks_to_ns u64_max 1) u64_max.

Definition ticks_to_ns_no_silent_wrap_at_64bit_boundary : Test :=
  let just_over := (u64_max / NANOS_PER_SECOND + 1)%N in
  value (ticks_to_ns just_over 1) u64_max.

Definition ticks_to_ns_const_fn_works_in_const_context : Test :=
  value (ticks_to_ns 62500000 62500000) NANOS_PER_SECOND.

Definition resolution_qemu_virt_is_16_ns : Test := value (resolution_ns_for_freq 62500000) 16.

Definition resolution_one_gigahertz_is_one_ns : Test := value (resolution_ns_for_freq 1000000000) 1.

Definition resolution_round_to_nearest_for_non_divisor : Test :=
  value (resolution_ns_for_freq 19200000) 52;;
  value (resolution_ns_for_freq 54000000) 19.

Definition resolution_floor_vs_round_difference_documented : Test :=
  value (resolution_ns_for_freq 33333333) 30.

Definition resolution_const_fn_works_in_const_context : Test :=
  value (resolution_ns_for_freq 62500000) 16.

Definition resolution_clamps_to_one_above_2ghz : Test :=
  value (resolution_ns_for_freq 3000000000) 1;;
  value (resolution_ns_for_freq 10000000000) 1;;
  value (resolution_ns_for_freq u64_max) 1.

Definition resolution_two_ghz_is_one_ns_exactly : Test := value (resolution_ns_for_freq 2000000000) 1.

(** The inner loop: [prev] goes along. *)
Fixpoint never_decreases (freq prev : u64) (counts : list u64) : Test :=
  match counts with
  | [] => mret tt
  | count :: counts =>
      now ← unwrap_or_panic (ticks_to_ns count freq);
      assert_ (prev <=? now)%N;;
      never_decreases freq now counts
  end.

Fixpoint for_each (l : list u64) (body : u64 → Test) : Test :=
  match l with [] => mret tt | x :: l => body x;; for_each l body end.

Definition ticks_to_ns_is_monotonic_across_frequencies : Test :=
  for_each [1; 19200000; 62500000; 1000000000]%N (λ freq,
    never_decreases freq 0
      [0; 1; 100; 10000; 1000000; 100000000; 10000000000; 1000000000000; u64_max / 2; u64_max]%N).

Definition ticks_to_ns_plateaus_at_u64_max_after_saturation : Test :=
  let just_over := (u64_max / NANOS_PER_SECOND + 1)%N in
  let way_over := (u64_max / 2)%N in
  value (ticks_to_ns just_over 1) u64_max;;
  value (ticks_to_ns way_over 1) u64_max;;
  value (ticks_to_ns u64_max 1) u64_max;;
  j ← unwrap_or_panic (ticks_to_ns just_over 1);
  w ← unwrap_or_panic (ticks_to_ns way_over 1);
  m ← unwrap_or_panic (ticks_to_ns u64_max 1);
  assert_ (j <=? w)%N;;
  assert_ (w <=? m)%N.

Definition ns_to_ticks_zero_ns_is_zero : Test := value (ns_to_ticks 0 62500000) 0.

Definition ns_to_ticks_rounds_up_on_subtick : Test :=
  value (ns_to_ticks 333333334 3) 2;;
  value (ns_to_ticks 333333333 3) 1.

Definition ns_to_ticks_round_trips_against_ticks_to_ns_at_qemu_frequency : Test :=
  let qemu_freq := 62500000%N in
  let count := 1234567%N in
  ns ← unwrap_or_panic (ticks_to_ns count qemu_freq);
  value (ns_to_ticks ns qemu_freq) count.

Definition ns_to_ticks_one_second_yields_frequency_at_any_freq : Test :=
  for_each [1; 1000; 19200000; 62500000; 1000000000]%N (λ freq,
    value (ns_to_ticks NANOS_PER_SECOND freq) freq).

Definition ns_to_ticks_saturates_at_u64_max : Test :=
  let huge_ns := u64_max in
  value (ns_to_ticks huge_ns 1000000000) u64_max;;
  value (ns_to_ticks huge_ns 1000000001) u64_max;;
  value (ns_to_ticks huge_ns u64_max) u64_max.

Definition timer_tests : list bool :=
  (λ test, passes test tt) <$>
   [ ticks_to_ns_zero_count_is_zero; ticks_to_ns_qemu_virt_one_second;
     ticks_to_ns_qemu_virt_single_tick; ticks_to_ns_pi3_class_non_divisor;
     ticks_to_ns_high_frequency_one_gigahertz; ticks_to_ns_saturates_at_u64_max;
     ticks_to_ns_no_silent_wrap_at_64bit_boundary; ticks_to_ns_const_fn_works_in_const_context;
     resolution_qemu_virt_is_16_ns; resolution_one_gigahertz_is_one_ns;
     resolution_round_to_nearest_for_non_divisor; resolution_floor_vs_round_difference_documented;
     resolution_const_fn_works_in_const_context; resolution_clamps_to_one_above_2ghz;
     resolution_two_ghz_is_one_ns_exactly; ticks_to_ns_is_monotonic_across_frequencies;
     ticks_to_ns_plateaus_at_u64_max_after_saturation; ns_to_ticks_zero_ns_is_zero;
     ns_to_ticks_rounds_up_on_subtick;
     ns_to_ticks_round_trips_against_ticks_to_ns_at_qemu_frequency;
     ns_to_ticks_one_second_yields_frequency_at_any_freq; ns_to_ticks_saturates_at_u64_max ].

Lemma timer_tests_pass : all_pass timer_tests = true.
Proof. by vm_compute. Qed.
