(* ===== verification/SchedTests.v ===== *)
(** * The unit tests of [kernel/src/sched/mod.rs]

    One definition per test, on the fake core of the test module. The variables of
    a test (scheduler, arena, queues, table) are the fields of a [Kernel] whose
    table 0 is the test's. The fake's [context_switch] returns at once: a test
    goes on with the continuation of a switch ([returns]). The addresses of the
    entry function and of the stacks are arguments. *)

From stdpp Require Import prelude.
From Stdlib Require Import NArith.
From S2P Require Import Prelude Testing FreeList Arena Objects Rights Capability CapTable Ipc.
From S2P Require Import HalCpu SchedQueue Sched.

(** ** [FakeCpu] *)

Inductive FakeCpu := TheFakeCpu.

Record FakeCtx := mkFakeCtx { switched : bool }.

Global Instance FakeCpu_Cpu : Cpu FakeCpu := {
  current_core_id _ := 0%N;
  disable_irqs s := (mkIrqState 0, s);
  restore_irq_state _ s := s;
  wait_for_interrupt := mret tt;
  instruction_barrier := mret tt;
}.

Global Instance FakeCpu_ContextSwitch : ContextSwitch FakeCpu := {
  TaskContext := FakeCtx;
  default_context := mkFakeCtx false;
  context_switch s _ _ := (s, mkFakeCtx true);
  init_context _ ctx _ _ := ctx;
}.

(** ** Helpers *)

Definition task_handle (index : u16) : TaskHandle := task_from_slot (mkSlotId index 0).
Definition ep_handle (index : u16) : EndpointHandle := endpoint_from_slot (mkSlotId index 0).
Definition send_msg (label : u64) : Message := mkMessage label (label, label, label).

(** ** The queue *)

Definition queue_enqueue_dequeue_fifo_order : M SchedQueue Empty_set unit :=
  let h0 := task_handle 0 in
  let h1 := task_handle 1 in
  or_panic (enqueue h0);;
  or_panic (enqueue h1);;
  a ← dequeue; assert_eq a (Some h0);;
  b ← dequeue; assert_eq b (Some h1);;
  c ← dequeue; assert_eq c None.

Definition queue_full_returns_error : M SchedQueue Empty_set unit :=
  or_panic (enqueue (task_handle 0));;
  or_panic (enqueue (task_handle 1));;
  ok ← is_ok (enqueue (task_handle 2)); assert_ (negb ok).

Definition queue_empty_dequeue_is_none : M SchedQueue Empty_set unit :=
  o ← dequeue; assert_eq o None.

Definition queue_wraps_around : M SchedQueue Empty_set unit :=
  or_panic (enqueue (task_handle 0));;
  _ ← dequeue;
  or_panic (enqueue (task_handle 1));;
  o ← dequeue; assert_eq o (Some (task_handle 1)).

Definition queue_len_and_is_empty : M SchedQueue Empty_set unit :=
  b ← gets is_empty; assert_ b;;
  n ← gets queue_len; assert_eq n 0%N;;
  or_panic (enqueue (task_handle 0));;
  b ← gets is_empty; assert_ (negb b);;
  n ← gets queue_len; assert_eq n 1%N.

(** ** The scheduler and the bridge *)

Section tests.
Context `{BuildProfile}.
Context (spin_entry : u64) (stack_top : N → u64).

Abbreviation Test := (M (Kernel FakeCpu) Empty_set).

Definition fixture : Kernel FakeCpu :=
  mkKernel sched_new TheFakeCpu (new ENDPOINT_ARENA_CAPACITY) queues_new (λ _, table_new).

(** The fake's switch comes back at once; [during] is what it does to the other
    variables of the test in between. *)
Definition returns {A} (during : Kernel FakeCpu → Kernel FakeCpu)
    (m : M (Kernel FakeCpu) SchedError (control A)) : M (Kernel FakeCpu) SchedError A :=
  c ← m;
  match c with
  | Return a => mret a
  | Switched k => modify during;; k
  end.

Definition of_sched {A} (f : Scheduler FakeCpu → A) : Test A := on_sched (gets f).
Definition state_is (idx : usize) (st : TaskState) : Test unit :=
  sts ← of_sched task_states; x ← unwrap_or_panic (aget sts idx); assert_eq x st.
Definition handle_is (idx : usize) (o : option TaskHandle) : Test unit :=
  hs ← of_sched task_handles; x ← unwrap_or_panic (aget hs idx); assert_eq x o.
Definition current_is (o : option TaskHandle) : Test unit :=
  c ← of_sched current; assert_eq c o.
Definition ready_len_is (n : usize) : Test unit :=
  l ← of_sched (λ s, queue_len (ready s)); assert_eq l n.
Definition switched_is (idx : usize) (b : bool) : Test unit :=
  cs ← of_sched contexts; x ← unwrap_or_panic (aget cs idx); assert_eq (switched x) b.

Definition add (task : TaskHandle) : Test unit :=
  k ← gets k_cpu;
  or_panic (on_sched (add_task k task spin_entry (stack_top (slot_index task)))).
Definition pop : Test unit := _ ← on_sched (on_ready dequeue); mret tt.
Definition running (h : TaskHandle) : Test unit := or_panic (on_sched (set_current (Some h))).
Definition state_becomes (idx : usize) (st : TaskState) : Test unit :=
  or_panic (on_sched (set_state idx st)).
Definition handle_becomes (idx : usize) (o : option TaskHandle) : Test unit :=
  or_panic (on_sched (set_handle idx o)).

Definition add_task_sets_ready_state_and_stores_handle : Test unit :=
  let h := task_handle 0 in
  add h;;
  state_is 0 TReady;;
  handle_is 0 (Some h);;
  ready_len_is 1.

Definition yield_now_switches_context_and_updates_current : Test unit :=
  let h0 := task_handle 0 in
  let h1 := task_handle 1 in
  add h0;; add h1;;
  pop;; running h0;;
  ready_len_is 1;;
  or_panic (returns id yield_now);;
  current_is (Some h1);;
  state_is 0 TReady;;
  state_is 1 TReady;;
  switched_is 0 true.

Definition yield_now_with_no_current_returns_error : Test unit :=
  assert_err (returns id yield_now) NoCurrentTask.

Definition unblock_receiver_on_moves_task_to_ready : Test unit :=
  let ep := ep_handle 0 in
  state_becomes 0 (TBlocked ep);;
  handle_becomes 0 (Some (task_handle 0));;
  or_panic (on_sched (unblock_receiver_on ep));;
  state_is 0 TReady;;
  ready_len_is 1.

Definition unblock_receiver_on_wrong_ep_is_noop : Test unit :=
  let ep0 := ep_handle 0 in
  let ep1 := ep_handle 1 in
  state_becomes 0 (TBlocked ep0);;
  handle_becomes 0 (Some (task_handle 0));;
  or_panic (on_sched (unblock_receiver_on ep1));;
  state_is 0 (TBlocked ep0);;
  b ← of_sched (λ s, is_empty (ready s)); assert_ b.

Definition task_state_variants_are_distinct : Test unit :=
  let ep := ep_handle 0 in
  assert_ne TIdle TReady;;
  assert_ne TReady (TBlocked ep);;
  assert_ne TIdle (TBlocked ep);;
  assert_eq (TBlocked ep) (TBlocked ep).

(** [setup_send_endpoint]. *)
Definition setup_send_endpoint (rights : CapRights) : Test (EndpointHandle * CapHandle) :=
  ep ← or_panic (zoom k_arena (λ a k, mkKernel (k_sched k) (k_cpu k) a (k_queues k) (k_tables k))
                   (create_endpoint (new_endpoint 0)));
  cap_h ← or_panic (zoom (λ k, k_tables k 0)
                      (λ t k, mkKernel (k_sched k) (k_cpu k) (k_arena k) (k_queues k)
                                       (set_table (k_tables k) 0 t))
                      (insert_root (new_capability rights (ObjEndpoint ep))));
  mret (ep, cap_h).

Definition setup_single_task_with_recv_cap (task : TaskHandle) : Test CapHandle :=
  add task;;
  pop;; running task;;
  '(_, cap_h) ← setup_send_endpoint RECV;
  mret cap_h.

Definition ipc_recv_and_yield_returns_deadlock_when_ready_queue_empty : Test unit :=
  let task := task_handle 0 in
  ep_cap ← setup_single_task_with_recv_cap task;
  prior_current ← of_sched current;
  sts ← of_sched task_states;
  prior_state ← unwrap_or_panic (aget sts 0);
  assert_eq prior_current (Some task);;
  assert_eq prior_state TReady;;
  assert_err (returns id (ipc_recv_and_yield 0 ep_cap)) Deadlock;;
  current_is prior_current;;
  state_is 0 prior_state;;
  b ← of_sched (λ s, is_empty (ready s)); assert_ b.

(** What [ResetQueuesCpu::context_switch] does besides. *)
Definition reset_queues (k : Kernel FakeCpu) : Kernel FakeCpu :=
  mkKernel (k_sched k) (k_cpu k) (k_arena k) queues_new (k_tables k).

Definition ipc_recv_and_yield_resume_pending_returns_typed_err : Test unit :=
  let h0 := task_handle 0 in
  let h1 := task_handle 1 in
  '(ep, ep_cap) ← setup_send_endpoint RECV;
  assert_eq (Arena.generation (endpoint_slot ep)) 0%N;;
  add h0;; add h1;;
  pop;; running h0;;
  assert_err (returns reset_queues (ipc_recv_and_yield 0 ep_cap)) (SchedIpc PendingAfterResume).

Definition start_prelude_dispatches_head_and_marks_ready : Test unit :=
  let h0 := task_handle 0 in
  let h1 := task_handle 1 in
  add h0;; add h1;;
  ready_len_is 2;;
  current_is None;;
  next_idx ← or_panic (on_sched start_prelude);
  assert_eq next_idx 0%N;;
  state_is next_idx TReady;;
  current_is (Some h0);;
  ready_len_is 1.

Definition ipc_send_and_yield_delivered_unblocks_receiver_and_yields : Test unit :=
  let h0 := task_handle 0 in
  let h1 := task_handle 1 in
  '(ep, ep_cap) ← setup_send_endpoint (bitor SEND RECV);
  recv_outcome ← or_panic (on_ipc 0 (ipc_recv ep_cap));
  assert_ (match recv_outcome with Pending => true | _ => false end);;
  add h0;; add h1;;
  pop;; pop;; running h0;;
  state_becomes 1 (TBlocked ep);;
  outcome ← or_panic (returns id (ipc_send_and_yield 0 ep_cap (send_msg 42) None));
  assert_eq outcome Delivered;;
  current_is (Some h1);;
  state_is 0 TReady;;
  state_is 1 TReady;;
  ready_len_is 1;;
  switched_is 0 true.

Definition ipc_send_and_yield_enqueued_does_not_yield : Test unit :=
  let h0 := task_handle 0 in
  '(_, ep_cap) ← setup_send_endpoint (bitor SEND RECV);
  add h0;;
  pop;; running h0;;
  outcome ← or_panic (returns id (ipc_send_and_yield 0 ep_cap (send_msg 99) None));
  assert_eq outcome Enqueued;;
  current_is (Some h0);;
  state_is 0 TReady;;
  ready_len_is 0;;
  switched_is 0 false.

Definition ipc_send_and_yield_send_error_preserves_scheduler_state : Test unit :=
  let h0 := task_handle 0 in
  let h1 := task_handle 1 in
  '(_, ep_cap) ← setup_send_endpoint RECV;
  add h0;; add h1;;
  pop;; running h0;;
  prior_current ← of_sched current;
  sts ← of_sched task_states;
  prior_state_0 ← unwrap_or_panic (aget sts 0);
  prior_state_1 ← unwrap_or_panic (aget sts 1);
  prior_ready_len ← of_sched (λ s, queue_len (ready s));
  assert_err (returns id (ipc_send_and_yield 0 ep_cap (send_msg 0) None)) (SchedIpc InvalidCapability);;
  current_is prior_current;;
  state_is 0 prior_state_0;;
  state_is 1 prior_state_1;;
  ready_len_is prior_ready_len;;
  switched_is 0 false.

Definition sched_tests : list bool :=
  [ passes queue_enqueue_dequeue_fifo_order (queue_new 4);
    passes queue_full_returns_error (queue_new 2);
    passes queue_empty_dequeue_is_none (queue_new 4);
    passes queue_wraps_around (queue_new 2);
    passes queue_len_and_is_empty (queue_new 4);
    passes add_task_sets_ready_state_and_stores_handle fixture;
    passes yield_now_switches_context_and_updates_current fixture;
    passes yield_now_with_no_current_returns_error fixture;
    passes unblock_receiver_on_moves_task_to_ready fixture;
    passes unblock_receiver_on_wrong_ep_is_noop fixture;
    passes task_state_variants_are_distinct fixture;
    passes ipc_recv_and_yield_returns_deadlock_when_ready_queue_empty fixture;
    passes ipc_recv_and_yield_resume_pending_returns_typed_err fixture;
    passes start_prelude_dispatches_head_and_marks_ready fixture;
    passes ipc_send_and_yield_delivered_unblocks_receiver_and_yields fixture;
    passes ipc_send_and_yield_enqueued_does_not_yield fixture;
    passes ipc_send_and_yield_send_error_preserves_scheduler_state fixture ].
End tests.

Lemma sched_tests_pass (H : BuildProfile) (spin_entry : u64) (stack_top : N → u64) :
  all_pass (sched_tests spin_entry stack_top) = true.
Proof. destruct H; vm_compute; reflexivity. Qed.
