(* ===== verification/FakeTests.v ===== *)
(** * The unit tests of [test-hal/src]

    One definition per test of the host fakes, run on the instances of
    [TestHal.v]. [new] is the initial state of a test; a getter is a query of it. *)

From stdpp Require Import prelude gmap strings.
From Stdlib Require Import NArith.
From S2P Require Import Prelude Text Testing HalCpu HalIrq Timer Mmu Gic Console TestHal.

(** A query of the state, compared. *)
Definition shows {S A} `{!EqDecision A} (f : S → A) (v : A) : M S Empty_set unit := λ s, assert_eq (f s) v s.

(** ** [cpu.rs] *)

Section cpu.
Abbreviation Test := (M FakeCpu Empty_set unit).
Abbreviation enabled_is b := (shows irqs_enabled b).

Definition default_cpu_reports_core_zero_with_irqs_enabled : Test :=
  shows current_core_id 0%N;;
  enabled_is true.

Definition with_core_id_sets_reported_id : Test := shows current_core_id 3%N.

Definition disable_irqs_masks_and_returns_previous_state : Test :=
  prev ← (λ c, let '(p, c') := disable_irqs c in Done p c');
  enabled_is false;;
  modify (restore_irq_state prev);;
  enabled_is true.

(** The block holds a guard while [body] runs. *)
Definition guarded (body : Test) : Test :=
  g ← (λ c, let '(g, c') := irq_guard_new c in Done g c');
  body;;
  modify (irq_guard_drop g).

Definition irq_guard_enters_and_exits_critical_section : Test :=
  enabled_is true;;
  guarded (enabled_is false);;
  enabled_is true.

Definition nested_irq_guards_restore_outer_state : Test :=
  guarded (
    enabled_is false;;
    guarded (enabled_is false);;
    enabled_is false);;
  enabled_is true.

Definition wait_for_interrupt_increments_count : Test :=
  shows wait_for_interrupt_count 0%N;;
  wait_for_interrupt;;
  wait_for_interrupt;;
  shows wait_for_interrupt_count 2%N.

Definition instruction_barrier_increments_count : Test :=
  shows instruction_barrier_count 0%N;;
  instruction_barrier;;
  shows instruction_barrier_count 1%N.
End cpu.

(** ** [irq_controller.rs] *)

Section irq.
Abbreviation Test := (M FakeIrqState Empty_set unit).
Abbreviation line n := (mkIrq n%N).
Abbreviation enabled_is n b := (shows (is_enabled (mkIrq n%N)) b).

Definition acks (o : option IrqNumber) : Test := x ← acknowledge tt; assert_eq x o.

Definition enable_marks_line_as_enabled : Test :=
  enabled_is 30 false;;
  irq_enable tt (line 30);;
  enabled_is 30 true.

Definition enable_is_idempotent : Test :=
  irq_enable tt (line 30);;
  irq_enable tt (line 30);;
  enabled_is 30 true.

Definition disable_removes_enabled_state : Test :=
  irq_enable tt (line 30);;
  irq_disable tt (line 30);;
  enabled_is 30 false.

Definition acknowledge_returns_none_when_queue_empty : Test := acks None.

Definition acknowledge_returns_pending_fifo : Test :=
  modify (inject (line 30));;
  modify (inject (line 31));;
  acks (Some (line 30));;
  acks (Some (line 31));;
  acks None.

Definition end_of_interrupt_records_irq_in_order : Test :=
  end_of_interrupt tt (line 30);;
  end_of_interrupt tt (line 31);;
  shows eoi_history [line 30; line 31].

Definition ack_eoi_cycle_leaves_clean_state : Test :=
  irq_enable tt (line 30);;
  modify (inject (line 30));;
  shows pending_count 1%N;;
  o ← acknowledge tt;
  irq ← unwrap_or_panic o;
  assert_eq irq (line 30);;
  shows pending_count 0%N;;
  end_of_interrupt tt irq;;
  shows eoi_history [line 30].

Definition disabled_irq_can_still_be_injected_for_test_purposes : Test :=
  enabled_is 30 false;;
  modify (inject (line 30));;
  acks (Some (line 30)).
End irq.

(** ** [timer.rs] *)

Section timer.
Abbreviation Test := (M FakeTimer Empty_set unit).
Abbreviation now_is n := (now ← now_ns tt; assert_eq now n%N).
Abbreviation resolution_is n := (r ← resolution_ns tt; assert_eq r n%N).

Definition new_starts_at_zero_with_given_resolution : Test :=
  now_is 0;;
  resolution_is 100.

Definition advance_moves_clock_forward : Test :=
  modify (advance 500);;
  now_is 500;;
  modify (advance 250);;
  now_is 750.

Definition set_now_overrides_clock : Test :=
  modify (advance 100);;
  modify (set_now 42);;
  now_is 42.

Definition arm_deadline_records_value : Test :=
  shows armed_deadline None;;
  arm_deadline tt 1000;;
  shows armed_deadline (Some 1000%N).

Definition arm_deadline_replaces_previous : Test :=
  arm_deadline tt 1000;;
  arm_deadline tt 2000;;
  shows armed_deadline (Some 2000%N).

Definition cancel_clears_deadline_and_counts : Test :=
  arm_deadline tt 500;;
  shows cancel_count 0%N;;
  cancel_deadline tt;;
  shows armed_deadline None;;
  shows cancel_count 1%N;;
  cancel_deadline tt;;
  shows cancel_count 2%N.

Definition default_has_one_nanosecond_resolution : Test :=
  resolution_is 1;;
  now_is 0.
End timer.

(** ** [console.rs] *)

Section console.
Abbreviation Test := (M (list u8) Empty_set unit).

Definition captures_successive_byte_writes : Test :=
  write_bytes tt (bytes_of "hello");;
  write_bytes tt (bytes_of " world");;
  shows id (bytes_of "hello world").

Definition fmt_writer_produces_formatted_output : Test :=
  write_all tt (bytes_of ∘ render <$> [Lit "cpu "; Dec 3; Lit " online"]);;
  shows id (bytes_of "cpu 3 online").

Definition default_fake_console_is_empty : Test := shows id [].
End console.

(** ** [mmu.rs] *)

Section mmu.
Abbreviation Test := (M FakeMmuState Empty_set unit).
Abbreviation Frames := (list PhysFrame).
Abbreviation Mapped := (FakeMmuState * FakeAddressSpace * Frames)%type.
Abbreviation SpaceTest := (M Mapped Empty_set unit).

(** [frame(addr)]. *)
Definition frame {S} (addr : usize) : M S Empty_set PhysFrame := unwrap_or_panic (from_aligned (mkPhys addr)).

(** The local variables [as_] and [fp] of a test. *)
Definition with_space (root_ : PhysFrame) (fp : Frames) (body : SpaceTest) : Test := λ s,
  match body (s, create_address_space (F := Frames) s root_, fp) with
  | Done x (s', _, _) => Done x s'
  | Fail e _ => match e with end
  | Panic => Panic
  | Diverge => Diverge
  end.

Definition space (st : Mapped) : FakeAddressSpace := st.1.2.
Definition on_mmu (m : Test) : SpaceTest := zoom (λ st, st.1.1) (λ s st, (s, st.1.2, st.2)) m.
Definition mappings_are (n : nat) : SpaceTest := shows (mapping_count ∘ space) n.
Definition map_ (v p : usize) (f : MappingFlags) : M Mapped MmuError unit :=
  fr ← or_panic (frame p);
  mmu_map (mkVirt v) fr f.

Definition mapping_flags_union_and_contains : Test :=
  let rw := WRITE in
  let rwx := flags_bitor rw EXECUTE in
  assert_ (flags_contains rwx WRITE);;
  assert_ (flags_contains rwx EXECUTE);;
  assert_ (negb (flags_contains rwx USER)).

Definition mapping_flags_difference_clears_bits : Test :=
  let rwx := flags_bitor WRITE EXECUTE in
  let rw := flags_difference rwx EXECUTE in
  assert_ (flags_contains rw WRITE);;
  assert_ (negb (flags_contains rw EXECUTE)).

Definition phys_frame_rejects_unaligned : Test :=
  assert_eq (from_aligned (mkPhys 0x1001)) None;;
  assert_ (bool_decide (is_Some (from_aligned (mkPhys 0x1000)))).

Definition create_address_space_stores_root : Test :=
  root_ ← frame 0x1000;
  with_space root_ []
    (shows (λ st, address_space_root (F := Frames) (space st)) root_;;
     mappings_are 0).

Definition activate_records_root : Test :=
  root_ ← frame 0x1000;
  with_space root_ []
    (a ← gets space;
     on_mmu (shows activated_root None);;
     on_mmu (modify (activate (F := Frames) a));;
     on_mmu (shows activated_root (Some root_))).

Definition map_unmap_round_trip : Test :=
  root_ ← frame 0x1000;
  spare ← frame 0x2000;
  with_space root_ [spare]
    (or_panic (map_ 0x4000 0x8000 WRITE);;
     mappings_are 1;;
     a ← gets space;
     '(pa, flags) ← unwrap_or_panic (space_lookup a (mkVirt 0x4000));
     expected ← frame 0x8000;
     assert_eq pa expected;;
     assert_ (flags_contains flags WRITE);;
     returned ← or_panic (mmu_unmap (mkVirt 0x4000));
     assert_eq returned expected;;
     mappings_are 0).

Definition double_map_returns_already_mapped : Test :=
  root_ ← frame 0x1000;
  with_space root_ []
    (or_panic (map_ 0x4000 0x8000 WRITE);;
     assert_err (map_ 0x4000 0x9000 WRITE) AlreadyMapped).

Definition unmap_missing_returns_not_mapped : Test :=
  root_ ← frame 0x1000;
  with_space root_ []
    (assert_err (mmu_unmap (S := FakeMmuState) (A := FakeAddressSpace) (F := Frames) (mkVirt 0x4000)) NotMapped).

Definition tlb_invalidations_recorded_in_order : Test :=
  modify (invalidate_tlb_address (A := FakeAddressSpace) (F := Frames) (mkVirt 0x4000));;
  modify (invalidate_tlb_address (A := FakeAddressSpace) (F := Frames) (mkVirt 0x5000));;
  invalidate_tlb_all (A := FakeAddressSpace) (F := Frames);;
  shows tlb_address_invalidations [mkVirt 0x4000; mkVirt 0x5000];;
  shows tlb_all_count 1%N.
End mmu.

Definition fake_tests : list bool :=
  [ passes default_cpu_reports_core_zero_with_irqs_enabled fake_cpu_new;
    passes with_core_id_sets_reported_id (with_core_id 3);
    passes disable_irqs_masks_and_returns_previous_state fake_cpu_new;
    passes irq_guard_enters_and_exits_critical_section fake_cpu_new;
    passes nested_irq_guards_restore_outer_state fake_cpu_new;
    passes wait_for_interrupt_increments_count fake_cpu_new;
    passes instruction_barrier_increments_count fake_cpu_new;
    passes enable_marks_line_as_enabled fake_irq_new;
    passes enable_is_idempotent fake_irq_new;
    passes disable_removes_enabled_state fake_irq_new;
    passes acknowledge_returns_none_when_queue_empty fake_irq_new;
    passes acknowledge_returns_pending_fifo fake_irq_new;
    passes end_of_interrupt_records_irq_in_order fake_irq_new;
    passes ack_eoi_cycle_leaves_clean_state fake_irq_new;
    passes disabled_irq_can_still_be_injected_for_test_purposes fake_irq_new;
    passes new_starts_at_zero_with_given_resolution (fake_timer_new 100);
    passes advance_moves_clock_forward (fake_timer_new 1);
    passes set_now_overrides_clock (fake_timer_new 1);
    passes arm_deadline_records_value (fake_timer_new 1);
    passes arm_deadline_replaces_previous (fake_timer_new 1);
    passes cancel_clears_deadline_and_counts (fake_timer_new 1);
    passes default_has_one_nanosecond_resolution (fake_timer_new 1);
    passes captures_successive_byte_writes [];
    passes fmt_writer_produces_formatted_output [];
    passes default_fake_console_is_empty [];
    passes mapping_flags_union_and_contains fake_mmu_new;
    passes mapping_flags_difference_clears_bits fake_mmu_new;
    passes phys_frame_rejects_unaligned fake_mmu_new;
    passes create_address_space_stores_root fake_mmu_new;
    passes activate_records_root fake_mmu_new;
    passes map_unmap_round_trip fake_mmu_new;
    passes double_map_returns_already_mapped fake_mmu_new;
    passes unmap_missing_returns_not_mapped fake_mmu_new;
    passes tlb_invalidations_recorded_in_order fake_mmu_new ].

Lemma fake_tests_pass : all_pass fake_tests = true.
Proof. by vm_compute. Qed.
