(* ===== verification/UnitTests.v ===== *)
(** * The unit tests of the crates

    All the suites together. The tests are the authors' own statement of what the
    code does, so that the model passes them is evidence that it is the code's. *)

From stdpp Require Import prelude.
From S2P Require Import Prelude Testing TableTests IpcTests SchedTests ObjTests TimerTests FakeTests.

(** Every [#[test]] of the workspace but the ones marked [should_panic]. *)
Definition workspace_tests `{BuildProfile} (spin_entry : u64) (stack_top : N → u64) : list bool :=
  obj_tests ++ TableTests.all_tests ++ IpcTests.all_tests ++ sched_tests spin_entry stack_top ++
  timer_tests ++ fake_tests.

Lemma all_pass_app l1 l2 : all_pass l1 = true → all_pass l2 = true → all_pass (l1 ++ l2) = true.
Proof. unfold all_pass. by rewrite forallb_app; intros -> ->. Qed.

(** The tests of the kernel, the HAL and the host fakes, 144 of them, run to
    their end on the model without a failed assertion: with and without debug
    assertions, and wherever the test's stacks and entry function are in memory. *)
Lemma unit_tests_pass (profile : BuildProfile) (spin_entry : u64) (stack_top : N → u64) :
  all_pass (workspace_tests spin_entry stack_top) = true ∧
  length (workspace_tests spin_entry stack_top) = 144.
Proof.
  split; [|reflexivity].
  apply all_pass_app; [apply obj_tests_pass|]. apply all_pass_app; [apply table_tests_pass|].
  apply all_pass_app; [apply ipc_tests_pass|]. apply all_pass_app; [apply sched_tests_pass|].
  apply all_pass_app; [apply timer_tests_pass|apply fake_tests_pass].
Qed.
